(* ===== verification/_CoqProject ===== *)
-Q . S2P
Prelude.v
RustStr.v
RustTime.v
RustFloat.v
Eviction.v
RustNet.v
Calendar.v
Extern.v
Body.v
EarlyStop.v
Message.v
Compression.v
Multipart.v
CodePoint.v
ClientHello.v
Fingerprint.v
Capture.v
Http2.v
TlsSessions.v
TlsEngine.v
Origin.v
Pool.v
Exchange.v
CoreError.v
Connect.v
Dns.v
NoProxy.v
Tunnel.v
HttpConnect.v
Proxy.v
AltSvc.v
Redirect.v
Retry.v
Fetch.v
Profile.v
ClientHints.v
HeaderOrdering.v
HeaderEngine.v
HeaderBehaviour.v
Session.v
Validators.v
Hsts.v
HstsPreload.v
CookieScope.v
CookieDate.v
Cookie.v
Bucket.v
JarStore.v
Jar.v
JarInvariant.v
JarBehaviour.v
JarSnapshot.v
JarScenario.v
CacheDate.v
RetryDate.v
Adaptive.v
AdaptiveLaw.v
AdaptivePace.v
AdaptiveSlots.v
AdaptiveStore.v
FixedConcurrency.v
RateLimiter.v
Challenge.v
ChallengeState.v
ChallengeFlight.v
ChallengeHandoff.v
CacheDirective.v
CacheEntry.v
CachePolicy.v
CacheStorage.v
HttpCache.v
CacheBehaviour.v
CacheInvariant.v
CacheScenario.v
Engine.v
Facade.v
ChallengeSession.v
EngineBehaviour.v
HttpScenario.v
EngineScenario.v
