(* ===== verification/Prelude.v ===== *)
(** * Chromulate: a verified model of a browser-grade HTTP client

    Chromulate (src/) is an HTTP client in Rust that behaves on the network as a
    browser does.  This development models the state a browser keeps between
    requests (cookies, cache, HSTS, client hints, sessions), the engine that takes
    one logical request through its redirects, the connections it uses and shares,
    the way there - name lookups, proxies, deadlines - what a browser looks like on
    the wire, and the client and request builders a caller holds.  The TLS handshake
    and HTTP framing are third-party libraries; what they are configured with is
    modelled.

    ** How the parts interact

    [Facade.build_client] puts a client together and [Facade.request_of] a request of it.
    [Engine.run] takes a request: it upgrades the URL by the HSTS store, then hop
    by hop finds the session of the route ([for_route]), asks the jar for a [Cookie]
    header ([cookies_for]), lets the header engine build the wire order ([apply]),
    asks the cache ([before]), sends what the cache does not answer, hands the
    response to the cache ([after]), the jar ([store]), the HSTS store and the
    client hints, and decides what a redirect means ([decide_redirect]).  The retry
    middleware repeats such an exchange.  Below it an exchange takes a connection
    from the pool or opens one, and its body gives the connection back
    ([Exchange.step]); a connection is dialled at addresses the resolver cache gives,
    or through a proxy, by [CONNECT] or SOCKS5, unless [no_proxy] exempts the host.
    All of them see a URL through its tuple origin.

    ** Files

    Shared:
    - Prelude: notation for byte strings ([b#]), the tactics [bool_prop] and
      [split_match], machine-width constants and saturating arithmetic, stable
      sorting, sums over maps, least-key eviction, and the list lemmas.
    - RustStr, RustTime, RustNet: what the code uses of Rust's [str], [Duration],
      [SystemTime] and address parsers.  A string is its bytes; the code only trims,
      splits and compares ASCII.  An instant is a count of nanoseconds with Rust's
      range written out.
    - Calendar: the Gregorian calendar as a successor function and the [IMF-fixdate]
      rendering, the reference of both date parsers.
    - Extern: methods, status codes, versions and header names; the third-party
      crates as classes of operations, with laws that state
      documented behaviour: the public suffix list ([Psl]), [HeaderValue],
      [HeaderMap] and [Url].  [Module Sample] has concrete instances for witnesses.

    chromulate-core: Body (the three body shapes, polling, [collect]), Message
    (requests and responses), Origin (uri.rs), CoreError (error.rs), Fetch
    (request.rs: modes, destinations, options; and fetch_site.rs of
    chromulate-header).

    chromulate-cookie: CookieScope, CookieDate, Cookie (domain.rs, path.rs, date.rs,
    cookie.rs); Bucket, Eviction, JarStore, Jar (jar.rs); JarInvariant, JarBehaviour,
    JarSnapshot, JarScenario (theorems, and the theorems at a concrete jar).

    chromulate-cache: CacheDate, CacheDirective, CacheEntry, CachePolicy (date.rs,
    directive.rs, entry.rs, policy.rs); CacheStorage (storage.rs: the backend trait
    as a class with its contract, and the sharded LRU store that keeps it);
    HttpCache (cache.rs, over any such backend); CacheBehaviour, CacheInvariant,
    CacheScenario.

    chromulate-header and chromulate-profile: Profile (profile.rs), ClientHints
    (client_hints.rs), HeaderOrdering (order.rs), HeaderEngine (engine.rs),
    HeaderBehaviour.

    chromulate-http: Redirect (redirect.rs and [rebuild] of engine.rs), Retry
    (middleware/retry.rs), Hsts and HstsPreload (hsts.rs, hsts/preload.rs and its
    generator), Session (session.rs), Engine (engine.rs), EngineBehaviour, Pool
    (pool.rs), EarlyStop (the reading side of body.rs), Exchange (connect.rs,
    [acquire] and [send_on] of engine.rs, the releasing body), HttpScenario and
    EngineScenario.

    chromulate-dns: Dns (caching.rs, ip_preference.rs, static_resolver.rs, system.rs,
    and [dial] of connect.rs).

    chromulate-proxy: NoProxy (no_proxy.rs), Tunnel (socks5.rs), HttpConnect
    (http_connect.rs), Proxy (url.rs, proxy.rs, provider.rs).

    chromulate-h3: AltSvc (alt_svc.rs).

    chromulate-http: Validators (validators.rs), on Eviction.

    chromulate: Multipart (multipart.rs), Facade (request.rs, response.rs, client.rs, and
      [EngineBuilder::build] of chromulate-http's engine.rs).

    chromulate-http: Http2 (http2.rs).

    chromulate-fingerprint: CodePoint (ids.rs, grease.rs, error.rs), ClientHello
      (client_hello.rs), Fingerprint (ja3.rs, ja4.rs, akamai.rs, http2.rs), Capture
      (capture.rs), with the shipped Chrome 151 capture as its example.

    chromulate-concurrency: RetryDate (adaptive/date.rs), Adaptive (the control law
      of adaptive.rs), AdaptiveLaw and AdaptivePace (its theorems), AdaptiveSlots
      (waiting for a slot), AdaptiveStore (the entries and their eviction, on the
      Eviction it shares with FixedConcurrency, fixed.rs); RateLimiter
      (ceiling.rs and chromulate-http's middleware/rate_limit.rs), on the f64 of
      RustFloat.

    Challenges (chromulate-http's challenge.rs and middleware/challenge.rs,
      chromulate-challenge): Challenge (the vocabulary and the Cloudflare detector),
      ChallengeState (budgets and solves in flight), ChallengeFlight (solves shared
      by callers, as a step relation over ChallengeState), ChallengeHandoff (one
      request through the layer; its environment stands for what ChallengeFlight
      shares), ChallengeSession (the layer's access to Session, and scenarios).

    Connect (deadline.rs, connect.rs and the time of [hop] of chromulate-http,
      timings.rs of chromulate-core).

    chromulate-tls: TlsSessions (resumption.rs), TlsEngine (recording.rs, provider.rs,
      trust.rs, engine.rs, server_name.rs).

    chromulate-compression: Compression (coding.rs, guard.rs, stream.rs).

    ** State, effects, failure

    Locks and atomics are one state passed through each operation; the clock is the
    instant the operation reads.  Where operations of several requests come between
    each other the file has a step relation over the shared state: the cache
    (CacheInvariant), the session registry (Session), the pool and its exchanges
    (Exchange), the resolver (Dns), the rotating proxies (Proxy), the waiters for a
    slot (AdaptiveSlots), the solves of challenges (ChallengeFlight).  A Rust panic is
    [None] of an option monad, and the invariant theorems show it does not happen
    under their assumptions (a pool with no connection per host does panic).
    [HashMap] iteration is [map_to_list]; no theorem depends on its order.  Error
    values are sums over [CoreError.Error].  Sequence counters wrap or saturate at
    [u64] as in the code; byte counts are sums of live allocations and kept in [Z].

    What is not this repository's is an argument: besides the classes of Extern, the
    network and the clock of the engine ([Engine.Environment]), whether a sender is
    closed ([Pool]), the hash functions, the random jitter and choices, the preload
    table, the local resolver, base64 and percent-decoding.

    ** What the theorems show

    Engine: every request ends within its redirect limit; a caller's credentials
    only reach the origin they were meant for; the first hop is over TLS where a
    policy says so.  The header list is exact, value for value and slot for slot.
    Sessions of different exits never mix: every history of the route map is, act by
    act, one of a registry in which each session has one owner.  A response is handed
    back, followed or refused exactly by the redirect rules; HSTS, retries and client
    hints follow theirs exactly; the preload table round-trips.

    Connections: over every interleaving an HTTP/1.1 connection is in one place at
    most and comes back only after a clean end, and any connection is used only for
    the key it was opened for - an HTTP/2 one is shared within it; a pool configured
    with a connection per host keeps its caps; at most one lookup per name is in
    flight and everyone waiting is served; a read up to a marker does not depend on
    the chunking.  SOCKS5 and [CONNECT] succeed exactly on the answers the
    RFCs call success, leave the stream at the tunnel's first byte, and disclose
    credentials only when asked; [no_proxy] exempts exactly what it names; a
    rotation starves no one.

    Jar: the invariant [jar_ok] (exact indexes, every cookie under its site and
    true to its prefix, exact total, both caps) is kept by [store] and [import],
    which never panic; the [Cookie] header is exactly the eligible cookies in
    RFC 6265 order; a plaintext response cannot touch [Secure] cookies while the
    jar has room; eviction takes expired cookies first, then the least recently
    used; snapshots round-trip up to whole seconds; and what [Cookie::parse]
    accepts satisfies every browser rule.  Both date parsers invert the
    [IMF-fixdate] rendering and agree with the calendar.

    Cache: a response is stored exactly under the rules of RFC 9111 section 3 as
    the crate narrows them; freshness is the exact arithmetic of section 4.2.3,
    monotone in time; what is served is an entry held for that URL, selected by the
    request's own values and fresh; a recorded body is transparent and stored all
    or nothing; the store stays within its byte budget and evicts by recency; a
    response the store has room for is served again end to end; and over every interleaving of
    exchanges each stored entry was storable and complete.

    Alternative services: an [Alt-Svc] field survives being written and read, and
    the bounded cache forgets only what is first to expire.

    Adaptive concurrency: the increase rule decides exactly when a slot is added,
    a refusal is a ratchet, the ramp and a recovery keep their pace; over every
    interleaving of callers the slots are counted and no wake-up is lost; the store
    forgets only idle entries.  The fixed controller bounds each gate.

    Multipart bodies: a form read back by an independent reader gives every part
    byte for byte, whatever names and contents hold; escaping is its reference.

    Fingerprints: every wire order a profile generates is one a browser could send;
    JA3, JA4 and the Akamai string say exactly what they name; a capture loads as the
    client it records, and what was observed is what the loaded profile computes.

    Challenges: a detector sees a response and takes nothing from it; a request is
    handed off and sent again within its budget, always for the page, the exit and
    the identity that met the challenge; browsers and their budgets are bounded over
    every interleaving; what a browser earned stays with its exit.

    Compression: what is delivered is the plain text or its beginning, and however
    codings are stacked it stays within the guard's limits; the advertised codings
    read back.

    Connecting: it ends by the deadline and within four connect timeouts whatever the
    network does, and the timings of a hop add up.

    TLS: the store of resumption material is one least-recently-used list, its tickets
    are single-use and stay with their name; what rustls is given is what the profile
    names less what it has not; trust is never given away silently; a ClientHello
    survives being flattened to numbers.

    Validators: what a response teaches and what a request carries, exactly.

    The facade: what a sequence of calls builds, or the first thing wrong with it; which
    session and jar serve which exit; a bounded read ends within the client's ceiling.
    HTTP/2: the report of what hyper cannot be made to send is true of the SETTINGS frame.

    The scenario files, and lemmas at the end of the other files, also prove the
    corner cases where the code departs from its own comments or from the
    specification it names.

    ** Fuel and bounds

    [Engine.run_loop] has one step more than the redirect limit, which [run_ends]
    shows is enough.  [retry_loop] has one step more than [max_retries].
    [recording_poll] loops only on a trailers frame, which no body yields, so fuel
    one is enough; [draining_poll] needs two more than the polls left in the body.
    [ClientHints.evict] drops an index record at each step and has as many as there
    are.  [HstsPreload.lookup_between] halves the table and has its length.
    [EarlyStop.read_loop] has one step more than the polls left; [find_loop] one
    per byte.  [RustNet.read_groups] has the eight groups of an address, and
    [show_digits] the digits of its type.  The loops over a list of bytes, of
    members or of entries are structural.

    The loop of the challenge layer is given one unit more than its policy's budget,
    which [handle_is_bounded] shows is enough.

    The reader of forms takes one unit per part and starts with the length of what it
    reads; the round trip shows that is enough.

    ** Not modelled

    Logging, [Debug], messages of errors; lock poisoning; the memory order of
    atomics; the panic of [http::HeaderMap] past 32,768 fields.

    Inside modelled parts: the engine's run loop takes time, timers and the outcome of
    each exchange from its environment (Connect models them for one connection and one
    hop); its validators and [finish] are separate files (Validators, Compression,
    EarlyStop); the sensitivity mark of a header value.

    Whole parts: the TLS handshake and hyper, which are other libraries, with the backend
    traits, mock and display of chromulate-tls around them; the trait an engine asks for
    a concurrency permit (chromulate-http's concurrency.rs), whose implementations are
    modelled; reading the system clock; the constants of the shipped profile
    (chromulate-profile's chrome.rs); a caller's challenge solver, which is the
    environment of ChallengeHandoff; re-exports; the HTTP/3 experiment beyond
    [Alt-Svc]; the command line and the benchmarks, which are input and output. *)
From stdpp Require Export base tactics list gmap strings sorting.
From Stdlib Require Export Ascii ZArith Lia.

(** ** Notation *)

(** Rust strings and header values are byte sequences. *)
Abbreviation str := (list ascii).

Declare Scope rstr_scope.
Delimit Scope rstr_scope with rs.
Notation "b# s" := (String.list_ascii_of_string s%string) (at level 1, format "b# s") : rstr_scope.
Open Scope rstr_scope.

(** ** Automation *)

Create HintDb chromulate.

(** Turns the boolean connectives of the code's conditions into the
    propositions they decide, everywhere. *)
Ltac bool_prop :=
  repeat first
    [ rewrite andb_true_iff in *
    | rewrite orb_true_iff in *
    | rewrite andb_false_iff in *
    | rewrite orb_false_iff in *
    | rewrite negb_true_iff in *
    | rewrite negb_false_iff in *
    | rewrite bool_decide_eq_true in *
    | rewrite bool_decide_eq_false in *
    | rewrite Z.ltb_lt in *
    | rewrite Z.ltb_ge in *
    | rewrite Z.leb_le in *
    | rewrite Z.leb_gt in *
    | rewrite Z.eqb_eq in *
    | rewrite Z.eqb_neq in * ].

(** Splits the first [match] or [if] of the goal, keeping its equation. *)
Ltac split_match :=
  match goal with
  | |- context [match ?x with _ => _ end] =>
      lazymatch x with
      | context [match _ with _ => _ end] => fail
      | _ => destruct x eqn:?
      end
  end.

(** ** Machine integers *)

Section Machine_integers.
Local Open Scope Z_scope.

Definition u32_max : Z := 2 ^ 32 - 1.
Definition u64_max : Z := 2 ^ 64 - 1.
Definition i64_max : Z := 2 ^ 63 - 1.
Definition i64_min : Z := - 2 ^ 63.
Definition usize_max : Z := u64_max.

(** [AtomicU64::fetch_add] wraps around. *)
Definition wrap64 (x : Z) : Z := x mod 2 ^ 64.

(** [u64::saturating_add] and its [usize] siblings. *)
Definition saturating_add (x y : Z) : Z := Z.min (x + y) u64_max.
Definition saturating_mul (x y : Z) : Z := Z.min (x * y) u64_max.
Definition saturating_sub (x y : Z) : Z := Z.max (x - y) 0.
End Machine_integers.

(** The length of a [Vec], as the [usize] the code compares. *)
Definition zlen {A} (l : list A) : Z := Z.of_nat (length l).

Section Zlen.
Local Open Scope Z_scope.
Context {A : Type}.
Implicit Types l : list A.

Lemma zlen_nonneg l : 0 <= zlen l.
Proof. unfold zlen; lia. Qed.

Lemma zlen_cons x l : zlen (x :: l) = zlen l + 1.
Proof. unfold zlen; simpl; lia. Qed.

Lemma zlen_app l k : zlen (l ++ k) = zlen l + zlen k.
Proof. unfold zlen; rewrite length_app; lia. Qed.

Lemma zlen_perm l k : l ≡ₚ k → zlen l = zlen k.
Proof. intros H. unfold zlen. by rewrite (Permutation_length H). Qed.
End Zlen.
#[export] Hint Resolve zlen_nonneg : chromulate.

(** ** Sums over lists *)

Definition zsum (l : list Z) : Z := foldr Z.add 0%Z l.

Section Zsum.
Local Open Scope Z_scope.

Lemma zsum_app l k : zsum (l ++ k) = zsum l + zsum k.
Proof. induction l as [|x l IH]; simpl; [done|]. unfold zsum in *; simpl; lia. Qed.

Lemma zsum_perm l k : l ≡ₚ k → zsum l = zsum k.
Proof. induction 1; unfold zsum in *; simpl; lia. Qed.

Lemma zsum_nonneg l : Forall (λ x, 0 <= x) l → 0 <= zsum l.
Proof. induction 1; unfold zsum in *; simpl; lia. Qed.

Lemma zsum_elem l x : Forall (λ x, 0 <= x) l → x ∈ l → x <= zsum l.
Proof.
  induction 1 as [|y l Hy Hl IH]; intros Hx; [by apply elem_of_nil in Hx|].
  pose proof (zsum_nonneg _ Hl).
  apply elem_of_cons in Hx as [->|Hx]; unfold zsum in *; simpl; [lia|].
  specialize (IH Hx). lia.
Qed.
End Zsum.

(** ** Tallies: a weight summed over a list *)

Definition tally {A} (f : A → Z) (l : list A) : Z := zsum (f <$> l).

Section Tally.
Local Open Scope Z_scope.
Context {A : Type} (f : A → Z).
Implicit Types l : list A.

Lemma tally_app l k : tally f (l ++ k) = tally f l + tally f k.
Proof. unfold tally. by rewrite fmap_app, zsum_app. Qed.

Lemma tally_cons x l : tally f (x :: l) = f x + tally f l.
Proof. done. Qed.

Lemma tally_insert l i x y : l !! i = Some x → tally f (<[i:=y]> l) = tally f l - f x + f y.
Proof.
  intros Hi. pose proof (take_drop_middle l i x Hi) as Hs. pose proof (lookup_lt_Some _ _ _ Hi).
  rewrite (insert_take_drop l i y) by done.
  apply (f_equal (tally f)) in Hs. rewrite tally_app, tally_cons in *. lia.
Qed.

Lemma tally_nonneg l : (∀ x, 0 <= f x) → 0 <= tally f l.
Proof. intros Hf. apply zsum_nonneg, Forall_fmap, Forall_true. intros x. apply Hf. Qed.

Lemma tally_pos l : (∀ x, 0 <= f x) → 0 < tally f l → ∃ x, x ∈ l ∧ 0 < f x.
Proof.
  intros Hf. induction l as [|x l IH]; [done|]. rewrite tally_cons. intros Hp.
  destruct (decide (0 < f x)); [exists x; split; [left|done]|]. destruct IH as (y & Hy & ?); [lia|].
  exists y. split; [by right|done].
Qed.

Lemma tally_elem l i x : (∀ x, 0 <= f x) → l !! i = Some x → f x <= tally f l.
Proof.
  intros Hf Hi. rewrite <- (take_drop_middle l i x Hi), tally_app, tally_cons.
  pose proof (tally_nonneg (take i l) Hf). pose proof (tally_nonneg (drop (S i) l) Hf). lia.
Qed.
End Tally.

Lemma zlen_mjoin {A} (l : list (list A)) : zlen (mjoin l) = zsum (zlen <$> l).
Proof.
  induction l as [|x l IH]; [done|]. change (mjoin (x :: l)) with (x ++ mjoin l).
  rewrite fmap_cons. change (zsum (?x :: ?y)) with (x + zsum y)%Z. by rewrite zlen_app, IH.
Qed.

(** ** Lists *)

Lemma forallb_Forall {A} (f : A → bool) (l : list A) :
  forallb f l = true ↔ Forall (λ x, f x = true) l.
Proof.
  induction l as [|x l IH]; simpl; [split; constructor|].
  by rewrite andb_true_iff, Forall_cons, IH.
Qed.

Lemma sublist_same_length {A} (l k : list A) : sublist l k → length l = length k → l = k.
Proof.
  induction 1 as [|x l k Hs IH|x l k Hs IH]; simpl; intros Hlen; [done| |].
  - f_equal. apply IH. lia.
  - apply sublist_length in Hs. lia.
Qed.

Lemma Forall_sublist {A} (P : A → Prop) (l k : list A) : sublist l k → Forall P k → Forall P l.
Proof. rewrite !Forall_forall. intros Hs Hk x Hx. by eapply Hk, elem_of_sublist. Qed.

Section List_facts.
Context {A : Type}.
Implicit Types l k : list A.

(** [filter_map (|(i, x)| keep i then x)]: the positions that survive. *)
Fixpoint keep_positions (keep : nat → bool) (i : nat) (l : list A) : list A :=
  match l with
  | [] => []
  | x :: l => if keep i then x :: keep_positions keep (S i) l
              else keep_positions keep (S i) l
  end.

Lemma elem_of_keep_positions keep i l x :
  x ∈ keep_positions keep i l ↔
  ∃ j, l !! j = Some x ∧ keep (i + j) = true.
Proof.
  revert i; induction l as [|y l IH]; intros i; simpl.
  - rewrite elem_of_nil. split; [done|]. intros (j & H & _). by rewrite lookup_nil in H.
  - assert (Hsplit : (∃ j, (y :: l) !! j = Some x ∧ keep (i + j) = true) ↔
      (x = y ∧ keep i = true) ∨ ∃ j, l !! j = Some x ∧ keep (S i + j) = true).
    { split.
      - intros ([|j] & Hj & Hk); simpl in Hj.
        + left. rewrite Nat.add_0_r in Hk. naive_solver.
        + right. exists j. by rewrite Nat.add_succ_comm.
      - intros [[-> Hk]|(j & Hj & Hk)].
        + exists 0. by rewrite Nat.add_0_r.
        + exists (S j). by rewrite <- Nat.add_succ_comm. }
    rewrite Hsplit. destruct (keep i) eqn:Hi.
    + rewrite elem_of_cons, IH. naive_solver.
    + rewrite IH. naive_solver.
Qed.

Lemma keep_positions_sublist keep i l : sublist (keep_positions keep i l) l.
Proof.
  revert i; induction l as [|y l IH]; intros i; simpl; [constructor|].
  destruct (keep i); by constructor.
Qed.

Lemma keep_positions_length keep i l :
  length (keep_positions keep i l) +
  length (filter (λ j, keep j = false) (seq i (length l))) = length l.
Proof.
  revert i; induction l as [|y l IH]; intros i; simpl; [done|].
  specialize (IH (S i)). destruct (keep i) eqn:Hk.
  - rewrite filter_cons_False by congruence. simpl. lia.
  - rewrite filter_cons_True by congruence. simpl. lia.
Qed.

Lemma keep_positions_perm keep i l :
  l ≡ₚ keep_positions keep i l ++ keep_positions (λ j, negb (keep j)) i l.
Proof.
  revert i; induction l as [|y l IH]; intros i; simpl; [done|].
  destruct (keep i); simpl; [by constructor; apply IH|].
  rewrite <- Permutation_middle. by constructor; apply IH.
Qed.

(** Dropping distinct positions of the list drops that many elements. *)
Lemma keep_positions_except ps l :
  NoDup ps → (∀ p, p ∈ ps → p < length l) →
  length (keep_positions (λ j, bool_decide (j ∉ ps)) 0 l) = length l - length ps.
Proof.
  intros Hnd Hlt. pose proof (keep_positions_length (λ j, bool_decide (j ∉ ps)) 0 l) as Hlen.
  assert (Hperm : filter (λ j, bool_decide (j ∉ ps) = false) (seq 0 (length l)) ≡ₚ ps).
  { apply NoDup_Permutation; [apply NoDup_filter, NoDup_seq|done|]. intros j.
    rewrite list_elem_of_filter, bool_decide_eq_false, elem_of_seq.
    split; [intros [Hj _]; by apply dec_stable|]. intros Hj. split; [naive_solver|].
    apply Hlt in Hj. lia. }
  rewrite Hperm in Hlen. lia.
Qed.
End List_facts.

(** ** Sorting *)

(** [slice::sort_by]: the stable sort.  [le x y] is [cmp x y != Greater]. *)
Section Stable_sort.
Context {A : Type} (le : A → A → bool).
Implicit Types l : list A.

Fixpoint insert_by (x : A) (l : list A) : list A :=
  match l with
  | [] => [x]
  | y :: l' => if le x y then x :: l else y :: insert_by x l'
  end.

Fixpoint sort_by (l : list A) : list A :=
  match l with
  | [] => []
  | x :: l' => insert_by x (sort_by l')
  end.

Lemma insert_by_perm x l : insert_by x l ≡ₚ x :: l.
Proof.
  induction l as [|y l IH]; simpl; [done|]. destruct (le x y); [done|].
  rewrite IH. constructor.
Qed.

Lemma sort_by_perm l : sort_by l ≡ₚ l.
Proof. induction l as [|x l IH]; simpl; [done|]. by rewrite insert_by_perm, IH. Qed.

Definition ordered : list A → Prop := StronglySorted (λ x y, le x y = true).

Lemma sort_by_ordered l :
  (∀ x y, le x y = true ∨ le y x = true) →
  (∀ x y z, le x y = true → le y z = true → le x z = true) →
  ordered (sort_by l).
Proof.
  intros Htot Htrans. unfold ordered. induction l as [|x l IH]; simpl; [constructor|].
  induction IH as [|y l' Hs IH Hall]; simpl; [by repeat constructor|].
  destruct (le x y) eqn:Hxy.
  - constructor; [by constructor|]. constructor; [done|].
    eapply Forall_impl; [done|]. eauto.
  - constructor; [done|]. rewrite insert_by_perm. constructor; [|done].
    destruct (Htot x y); congruence.
Qed.
End Stable_sort.

(** Sorting by a linear order forgets the order of its input, and nothing else. *)
Lemma sort_by_eq {A} (le : A → A → bool) (l k : list A) :
  (∀ x y, le x y = true ∨ le y x = true) →
  (∀ x y z, le x y = true → le y z = true → le x z = true) →
  (∀ x y, le x y = true → le y x = true → x = y) →
  sort_by le l = sort_by le k ↔ l ≡ₚ k.
Proof.
  intros Htot Htrans Hanti. split; intros Hp; [by rewrite <- (sort_by_perm le l), Hp, sort_by_perm|].
  apply (StronglySorted_unique_strong (λ x y, le x y = true)).
  - intros x y _ _. apply Hanti.
  - by apply sort_by_ordered.
  - by apply sort_by_ordered.
  - by rewrite !sort_by_perm.
Qed.

(** [Vec::dedup]. *)
Section Dedup.
Context {A : Type} `{!EqDecision A}.
Implicit Types l : list A.

Fixpoint dedup (l : list A) : list A :=
  match l with
  | [] => []
  | x :: l' =>
      match l' with
      | y :: _ => if decide (x = y) then dedup l' else x :: dedup l'
      | [] => [x]
      end
  end.

Lemma elem_of_dedup x l : x ∈ dedup l ↔ x ∈ l.
Proof.
  induction l as [|a l IH]; [done|]. cbn [dedup]. destruct l as [|b l]; [done|].
  case_decide; subst; rewrite ?elem_of_cons, IH, ?elem_of_cons; naive_solver.
Qed.

Lemma dedup_sublist l : sublist (dedup l) l.
Proof.
  induction l as [|a l IH]; [done|]. cbn [dedup]. destruct l as [|b l]; [done|].
  case_decide; [by apply sublist_cons|by apply sublist_skip].
Qed.

Lemma dedup_sorted_NoDup (le : A → A → bool) l :
  (∀ x y, le x y = true → le y x = true → x = y) →
  StronglySorted (λ x y, le x y = true) l → NoDup (dedup l).
Proof.
  intros Hanti. induction l as [|a l IH]; intros Hs; [constructor|]. cbn [dedup]. destruct l as [|b l].
  { apply NoDup_singleton. }
  inversion Hs as [|? ? Hs' Ha]; subst. case_decide as Hab; [by apply IH|].
  constructor; [|by apply IH]. rewrite elem_of_dedup. intros Hin. apply Hab.
  apply Hanti; [by inversion Ha|].
  apply elem_of_cons in Hin as [->|Hin]; [by inversion Ha|].
  inversion Hs' as [|? ? _ Hb]; subst. rewrite Forall_forall in Hb. by apply Hb.
Qed.

Lemma StronglySorted_impl (R S : relation A) l : (∀ x y, R x y → S x y) → StronglySorted R l → StronglySorted S l.
Proof. intros HRS. induction 1 as [|x l Hl IH Hx]; constructor; [done|]. eapply Forall_impl; [exact Hx|]. auto. Qed.

Lemma StronglySorted_sublist (R : relation A) l k : sublist l k → StronglySorted R k → StronglySorted R l.
Proof.
  induction 1 as [|x l k Hsub IH|x l k Hsub IH]; intros Hord; inversion Hord; subst; [constructor| |by apply IH].
  constructor; [by apply IH|]. by eapply Forall_sublist.
Qed.

(** Without its repetitions a sorted list ascends strictly. *)
Lemma dedup_ascends (le : A → A → bool) l :
  (∀ x y, le x y = true → le y x = true → x = y) →
  StronglySorted (λ x y, le x y = true) l → StronglySorted (λ x y, le x y = true ∧ x ≠ y) (dedup l).
Proof.
  intros Hanti Hs. pose proof (dedup_sorted_NoDup le l Hanti Hs) as Hnd.
  apply (StronglySorted_sublist _ _ _ (dedup_sublist l)) in Hs. revert Hnd.
  induction Hs as [|x k Hk IH Hx]; [constructor|]. rewrite NoDup_cons. intros [Hni Hnd]. constructor; [by apply IH|].
  rewrite Forall_forall in *. intros y Hy. split; [by apply Hx|]. by intros ->.
Qed.
End Dedup.

(** [slice::select_nth_unstable_by_key] as far as its contract goes: the list
    reordered so that the first elements have the smallest keys.  Equal keys
    keep their order here; the standard library leaves it open. *)
Definition select_nth_unstable_by_key {A} (key : A → Z) (l : list A) : list A :=
  sort_by (λ x y, key x <=? key y)%Z l.

Section Select_nth.
Context {A : Type} (key : A → Z).
Implicit Types l : list A.

Lemma select_nth_perm l : select_nth_unstable_by_key key l ≡ₚ l.
Proof. apply sort_by_perm. Qed.

Lemma select_nth_partition l n x y :
  x ∈ take n (select_nth_unstable_by_key key l) →
  y ∈ drop n (select_nth_unstable_by_key key l) → (key x <= key y)%Z.
Proof.
  intros Hx Hy. unfold select_nth_unstable_by_key in *.
  pose proof (sort_by_ordered (λ x y, key x <=? key y)%Z l) as Hs.
  unfold ordered in Hs. rewrite <- (take_drop n (sort_by _ l)) in Hs.
  apply Z.leb_le. refine (StronglySorted_app_1_elem_of _ _ _ x y (Hs _ _) Hx Hy); intros; lia.
Qed.
End Select_nth.

(** ** Filters that change nothing, or keep nothing *)

Lemma filter_all {A} (P : A → Prop) `{∀ x, Decision (P x)} l : Forall P l → filter P l = l.
Proof. induction 1; [done|]. rewrite filter_cons_True by done. by f_equal. Qed.

Lemma filter_none {A} (P : A → Prop) `{∀ x, Decision (P x)} l :
  Forall (λ x, ¬ P x) l → filter P l = [].
Proof. induction 1; [done|]. by rewrite filter_cons_False. Qed.

(** ** Sums over a map *)

Definition map_zsum `{Countable K} {V} (f : V → Z) (m : gmap K V) : Z :=
  zsum ((λ kv, f kv.2) <$> map_to_list m).

Section Map_zsum.
Context `{Countable K} {V : Type} (f : V → Z).
Implicit Types m : gmap K V.
Local Open Scope Z_scope.

Lemma map_zsum_empty : map_zsum f (∅ : gmap K V) = 0.
Proof. unfold map_zsum. by rewrite map_to_list_empty. Qed.

Lemma map_zsum_insert_new m k v :
  m !! k = None → map_zsum f (<[k := v]> m) = f v + map_zsum f m.
Proof.
  intros Hk. unfold map_zsum.
  by rewrite (zsum_perm _ _ (fmap_Permutation _ _ _ (map_to_list_insert m k v Hk))).
Qed.

Lemma map_zsum_delete m k :
  map_zsum f (delete k m) = map_zsum f m - default 0 (f <$> m !! k).
Proof.
  destruct (m !! k) as [v|] eqn:Hk; simpl.
  - rewrite <- (insert_delete_id m k v Hk) at 2.
    rewrite map_zsum_insert_new by apply lookup_delete_eq. lia.
  - rewrite delete_id by done. lia.
Qed.

Lemma map_zsum_insert m k v :
  map_zsum f (<[k := v]> m) = map_zsum f m - default 0 (f <$> m !! k) + f v.
Proof.
  rewrite <- insert_delete_eq, map_zsum_insert_new by apply lookup_delete_eq.
  rewrite map_zsum_delete. lia.
Qed.

Lemma map_zsum_nonneg m : (∀ v, 0 <= f v) → 0 <= map_zsum f m.
Proof. intros Hf. apply zsum_nonneg. apply Forall_fmap, Forall_true. intros [k v]. apply Hf. Qed.

Lemma map_zsum_lookup m k v : (∀ v, 0 <= f v) → m !! k = Some v → f v <= map_zsum f m.
Proof.
  intros Hf Hk. pose proof (map_zsum_delete m k) as Hd. rewrite Hk in Hd. simpl in Hd.
  pose proof (map_zsum_nonneg (delete k m) Hf). lia.
Qed.

Lemma map_zsum_le m1 m2 :
  (∀ v, 0 <= f v) → (∀ k, default 0 (f <$> m1 !! k) <= default 0 (f <$> m2 !! k)) →
  map_zsum f m1 <= map_zsum f m2.
Proof.
  intros Hf. revert m2. induction m1 as [|k v m1 Hk IH] using map_ind; intros m2 Hle.
  { rewrite map_zsum_empty. by apply map_zsum_nonneg. }
  rewrite map_zsum_insert_new by done. pose proof (map_zsum_delete m2 k) as Hd.
  pose proof (Hle k) as Hv. rewrite lookup_insert_eq in Hv. simpl in Hv.
  enough (map_zsum f m1 <= map_zsum f (delete k m2)) by lia.
  apply IH. intros x. destruct (decide (x = k)) as [->|Hne].
  - by rewrite Hk, lookup_delete_eq.
  - specialize (Hle x). by rewrite lookup_insert_ne in Hle; [rewrite lookup_delete_ne|].
Qed.
End Map_zsum.

Lemma map_zsum_filter `{Countable K} {V} (f : V → Z) (P : K * V → Prop) `{∀ x, Decision (P x)}
    (m : gmap K V) :
  map_zsum f (filter P m) = zsum ((λ kv, f kv.2) <$> filter P (map_to_list m)).
Proof.
  unfold map_zsum. apply zsum_perm, fmap_Permutation. rewrite map_filter_alt.
  apply map_to_list_to_map. eapply sublist_NoDup; [apply (NoDup_fst_map_to_list m)|].
  apply fmap_sublist, sublist_filter.
Qed.

(** Appending values under their keys, as [entry(k).or_default().push(v)]. *)
Definition group {A} (l : list (str * A)) : gmap str (list A) :=
  foldr (λ kv m, <[kv.1 := kv.2 :: default [] (m !! kv.1)]> m) ∅ l.

Section Group.
Context {A : Type}.
Implicit Types l : list (str * A).

Lemma group_lookup l k : default [] (group l !! k) = (filter (λ kv, kv.1 = k) l).*2.
Proof.
  induction l as [|[k' v] l IH]; simpl; [done|].
  destruct (decide (k' = k)) as [->|Hne].
  - rewrite lookup_insert_eq, filter_cons_True by done. simpl. by rewrite IH.
  - rewrite lookup_insert_ne, filter_cons_False by done. done.
Qed.

Lemma group_size l : map_zsum zlen (group l) = zlen l.
Proof.
  induction l as [|[k v] l IH]; simpl; [apply map_zsum_empty|].
  rewrite map_zsum_insert, IH, !zlen_cons.
  destruct (group l !! k) as [ps|]; simpl; unfold zlen; simpl; lia.
Qed.
End Group.

(** ** Evicting from a bounded map *)

(** [Iterator::min_by_key]: the first element with the smallest key. *)
Definition min_by_key {A} (key : A → Z) (l : list A) : option A :=
  match l with
  | [] => None
  | x :: l => Some (foldl (λ best y, if (key y <? key best)%Z then y else best) x l)
  end.

Lemma min_by_key_spec {A} (key : A → Z) l x :
  min_by_key key l = Some x → x ∈ l ∧ ∀ y, y ∈ l → (key x <= key y)%Z.
Proof.
  destruct l as [|a l]; simpl; [done|]. intros [= <-].
  revert a. induction l as [|b l IH]; intros a; simpl.
  { setoid_rewrite list_elem_of_singleton. split; [done|]. by intros y ->. }
  destruct (IH (if (key b <? key a)%Z then b else a)) as [Hin Hmin]. split.
  - destruct (key b <? key a)%Z; set_solver.
  - intros y Hy. destruct (key b <? key a)%Z eqn:E; bool_prop.
    + pose proof (Hmin b (list_elem_of_here _ _)). set_unfold. destruct Hy as [->|[->|Hy]]; [lia|lia|].
      apply Hmin. by right.
    + pose proof (Hmin a (list_elem_of_here _ _)). set_unfold. destruct Hy as [->|[->|Hy]]; [lia|lia|].
      apply Hmin. by right.
Qed.

(** [while map.len() > cap { remove the entry with the smallest key }]. *)
Section Evict_min.
Context {V : Type} (key : V → Z).
Implicit Types m : gmap str V.
Local Open Scope Z_scope.

Fixpoint evict_min (fuel : nat) (cap : Z) (m : gmap str V) : gmap str V :=
  match fuel with
  | O => m
  | S fuel =>
      if cap <? Z.of_nat (size m) then
        match min_by_key (λ kv, key kv.2) (map_to_list m) with
        | Some (k, _) => evict_min fuel cap (delete k m)
        | None => m
        end
      else m
  end.

(** Given as much fuel as entries, the loop ends at the cap, and everything it
    removed has a key no larger than anything it kept. *)
Lemma evict_min_spec fuel cap m :
  0 <= cap → (size m ≤ fuel)%nat →
  evict_min fuel cap m ⊆ m ∧
  Z.of_nat (size (evict_min fuel cap m)) = Z.min cap (Z.of_nat (size m)) ∧
  ∀ k v k' v', m !! k = Some v → evict_min fuel cap m !! k = None →
    evict_min fuel cap m !! k' = Some v' → key v <= key v'.
Proof.
  intros Hcap. revert m. induction fuel as [|fuel IH]; intros m Hfuel; simpl.
  { split; [done|]. split; [lia|]. congruence. }
  destruct (cap <? Z.of_nat (size m)) eqn:E; bool_prop; [|split; [done|]; split; [lia|]; congruence].
  destruct (min_by_key _ _) as [[k0 v0]|] eqn:Hmin.
  2:{ destruct (map_to_list m) as [|] eqn:Hl; [|done].
      apply map_to_list_empty_iff in Hl as ->. rewrite map_size_empty in E. lia. }
  apply min_by_key_spec in Hmin as [Hin Hmin]. apply elem_of_map_to_list in Hin.
  assert (Hsz : size m = S (size (delete k0 m))).
  { rewrite map_size_delete_Some by (by exists v0).
    enough (size m ≠ 0)%nat by lia. intros H0%map_size_empty_inv. by rewrite H0, lookup_empty in Hin. }
  destruct (IH (delete k0 m)) as (Hsub & Hsize & Hord); [lia|].
  split; [by etrans; [|apply delete_subseteq]|]. split; [lia|].
  intros k v k' v' Hk Hnone Hk'.
  assert (Hm : m !! k' = Some v').
  { eapply lookup_weaken; [by eapply lookup_weaken, Hsub|apply delete_subseteq]. }
  destruct (decide (k = k0)) as [->|Hne].
  - assert (v = v0) as -> by congruence.
    apply (Hmin (k', v')). by apply elem_of_map_to_list.
  - eapply (Hord k v); [|done|done]. by rewrite lookup_delete_ne.
Qed.
End Evict_min.

Lemma size_list_to_set_le `{Countable A} (l : list A) : (size (list_to_set l : gset A) ≤ length l)%nat.
Proof.
  induction l as [|x l IH]; [done|]. rewrite list_to_set_cons, size_union_alt, size_singleton.
  cbn [length].
  assert (size (list_to_set l ∖ {[x]} : gset A) ≤ size (list_to_set l : gset A))%nat; [|lia].
  apply subseteq_size. set_solver.
Qed.
