(* ===== verification/RustStr.v ===== *)
(** The parts of Rust's [str], [u8] and integer parsing the modelled crates
    use, on byte sequences, with the facts the components share.

    [str::trim] is the ASCII part of Rust's: every string the sources trim has
    been through [HeaderValue::to_str], so no non-ASCII whitespace can occur. *)
From S2P Require Import Prelude.

(** ** Characters *)

Definition code (c : ascii) : Z := Z.of_nat (nat_of_ascii c).

Definition in_range (lo hi : Z) (c : ascii) : bool := (lo <=? code c)%Z && (code c <=? hi)%Z.

(** [u8::is_ascii_digit]. *)
Definition is_ascii_digit : ascii → bool := in_range 48 57.

(** [char::to_digit(10)] on a digit. *)
Definition digit_value (c : ascii) : Z := (code c - 48)%Z.

(** [char::is_whitespace], ASCII part: TAB, LF, VT, FF, CR and space. *)
Definition is_whitespace (c : ascii) : bool := in_range 9 13 c || (code c =? 32)%Z.

(** [u8::to_ascii_lowercase]. *)
Definition lower (c : ascii) : ascii :=
  if in_range 65 90 c then ascii_of_nat (nat_of_ascii c + 32) else c.

(** ** Strings *)

(** [str::to_ascii_lowercase] and [eq_ignore_ascii_case]. *)
Definition to_ascii_lowercase (s : str) : str := lower <$> s.
Definition eq_ignore_ascii_case (s t : str) : bool :=
  bool_decide (to_ascii_lowercase s = to_ascii_lowercase t).

Fixpoint strip_prefix (p s : str) : option str :=
  match p, s with
  | [], _ => Some s
  | a :: p', c :: s' => if decide (a = c) then strip_prefix p' s' else None
  | _ :: _, [] => None
  end.

Definition strip_suffix (p s : str) : option str :=
  reverse <$> strip_prefix (reverse p) (reverse s).

Definition starts_with (s p : str) : bool := bool_decide (is_Some (strip_prefix p s)).
Definition ends_with (s p : str) : bool := bool_decide (is_Some (strip_suffix p s)).

(** [str::find] with a predicate: the position of the first match. *)
Fixpoint find_by (p : ascii → bool) (s : str) : option nat :=
  match s with
  | [] => None
  | c :: s' => if p c then Some 0 else S <$> find_by p s'
  end.

(** [str::rfind] with a predicate: the position of the last match. *)
Fixpoint rfind_by (p : ascii → bool) (s : str) : option nat :=
  match s with
  | [] => None
  | c :: s' => match rfind_by p s' with
               | Some i => Some (S i)
               | None => if p c then Some 0 else None
               end
  end.

Definition is_char (c : ascii) : ascii → bool := λ d, bool_decide (d = c).

(** [str::split] with a predicate: never empty. *)
Fixpoint split_by (p : ascii → bool) (s : str) : list str :=
  match s with
  | [] => [[]]
  | c :: s' =>
      if p c then [] :: split_by p s'
      else match split_by p s' with
           | [] => [[c]]
           | h :: t => (c :: h) :: t
           end
  end.

(** [str::split_once]. *)
Definition split_once (c : ascii) (s : str) : option (str * str) :=
  (λ i, (take i s, drop (S i) s)) <$> find_by (is_char c) s.

Fixpoint trim_start (s : str) : str :=
  match s with
  | [] => []
  | c :: s' => if is_whitespace c then trim_start s' else s
  end.

Definition trim_end (s : str) : str := reverse (trim_start (reverse s)).
Definition trim (s : str) : str := trim_end (trim_start s).

(** [str::trim_matches] with a character. *)
Fixpoint trim_start_matches (c : ascii) (s : str) : str :=
  match s with
  | [] => []
  | d :: s' => if decide (d = c) then trim_start_matches c s' else s
  end.
Definition trim_end_matches (c : ascii) (s : str) : str := reverse (trim_start_matches c (reverse s)).
Definition trim_matches (c : ascii) (s : str) : str :=
  reverse (trim_start_matches c (reverse (trim_start_matches c s))).

(** [str::find] with a non-empty string, as the text before and after the first
    occurrence; [str::contains]; and the second piece of [str::split]. *)
Fixpoint find_str (pat s : str) : option (str * str) :=
  match strip_prefix pat s with
  | Some rest => Some ([], rest)
  | None =>
      match s with
      | [] => None
      | c :: s' => '(before, after) ← find_str pat s'; Some (c :: before, after)
      end
  end.
Definition contains_str (s pat : str) : bool := bool_decide (is_Some (find_str pat s)).
Definition split_nth_1 (pat s : str) : option str :=
  '(_, rest) ← find_str pat s; Some (from_option fst rest (find_str pat rest)).

Fixpoint take_while (p : ascii → bool) (s : str) : str :=
  match s with
  | [] => []
  | c :: s' => if p c then c :: take_while p s' else []
  end.

(** [Vec<String>::join]. *)
Fixpoint join (sep : str) (l : list str) : str :=
  match l with
  | [] => []
  | [s] => s
  | s :: l' => s ++ sep ++ join sep l'
  end.

(** ** Integers in decimal *)

Definition all_digits (s : str) : bool := forallb is_ascii_digit s.

Definition decimal_value (s : str) : Z :=
  foldl (λ acc c, acc * 10 + digit_value c)%Z 0%Z s.

(** [str::parse] for an unsigned type with maximum [max]: an optional [+],
    then one or more digits, failing on overflow. *)
Definition parse_unsigned (max : Z) (s : str) : option Z :=
  let digits := match s with c :: s' => if decide (c = "+"%char) then s' else s | [] => [] end in
  if bool_decide (digits = []) || negb (all_digits digits) then None
  else let v := decimal_value digits in
       if (v <=? max)%Z then Some v else None.

Definition parse_u32 : str → option Z := parse_unsigned u32_max.
Definition parse_u64 : str → option Z := parse_unsigned u64_max.

(** [str::parse::<i64>]. *)
Definition parse_i64 (s : str) : option Z :=
  match s with
  | c :: s' =>
      if decide (c = "-"%char) then
        if bool_decide (s' = []) || negb (all_digits s') then None
        else let v := (- decimal_value s')%Z in
             if (i64_min <=? v)%Z then Some v else None
      else parse_unsigned i64_max s
  | [] => None
  end.

(** An integer of at most [fuel] digits in decimal, as [format!] writes it. *)
Fixpoint show_digits (fuel : nat) (n : Z) : str :=
  match fuel with
  | O => []
  | S fuel =>
      (if n <? 10 then [] else show_digits fuel (n / 10)) ++ [ascii_of_nat (Z.to_nat (48 + n mod 10))]
  end%Z.
Definition show_u16 (n : Z) : str := show_digits 5 n.

(** ** UTF-8 *)

Definition is_continuation : ascii → bool := in_range 128 191.

(** What [str::from_utf8] accepts: the well-formed sequences of the Unicode standard,
    table 3-7. *)
Fixpoint is_utf8 (s : str) : bool :=
  match s with
  | [] => true
  | a :: s1 =>
      if in_range 0 127 a then is_utf8 s1
      else
        match s1 with
        | [] => false
        | b :: s2 =>
            if in_range 194 223 a then is_continuation b && is_utf8 s2
            else
              match s2 with
              | [] => false
              | c :: s3 =>
                  if in_range 224 239 a then
                    in_range (if (code a =? 224)%Z then 160 else 128) (if (code a =? 237)%Z then 159 else 191) b
                    && is_continuation c && is_utf8 s3
                  else
                    match s3 with
                    | [] => false
                    | d :: s4 =>
                        in_range 240 244 a
                        && in_range (if (code a =? 240)%Z then 144 else 128) (if (code a =? 244)%Z then 143 else 191) b
                        && is_continuation c && is_continuation d && is_utf8 s4
                    end
              end
        end
  end.

(** ** Facts *)

Lemma code_byte x : (0 <= x < 256)%Z → code (ascii_of_nat (Z.to_nat x)) = x.
Proof. intros Hx. unfold code. rewrite nat_ascii_embedding by lia. lia. Qed.

Lemma code_inj a b : code a = code b → a = b.
Proof.
  unfold code. intros Heq%Nat2Z.inj.
  by rewrite <- (ascii_nat_embedding a), <- (ascii_nat_embedding b), Heq.
Qed.

Section Prefixes.
Implicit Types p s r : str.

Lemma strip_prefix_Some p s r : strip_prefix p s = Some r ↔ s = p ++ r.
Proof.
  revert s; induction p as [|a p IH]; intros [|c s]; simpl;
    [naive_solver | naive_solver | naive_solver |].
  case_decide; [subst; rewrite IH|]; naive_solver.
Qed.

Lemma strip_suffix_Some p s r : strip_suffix p s = Some r ↔ s = r ++ p.
Proof.
  unfold strip_suffix. rewrite fmap_Some. setoid_rewrite strip_prefix_Some. split.
  - intros (x & Hx & ->). rewrite <- (reverse_involutive s), Hx, reverse_app.
    by rewrite !reverse_involutive.
  - intros ->. exists (reverse r). by rewrite reverse_app, reverse_involutive.
Qed.

Lemma starts_with_spec s p : starts_with s p = true ↔ ∃ r, s = p ++ r.
Proof.
  unfold starts_with. rewrite bool_decide_eq_true. unfold is_Some.
  by setoid_rewrite strip_prefix_Some.
Qed.

Lemma ends_with_spec s p : ends_with s p = true ↔ ∃ r, s = r ++ p.
Proof.
  unfold ends_with. rewrite bool_decide_eq_true. unfold is_Some.
  by setoid_rewrite strip_suffix_Some.
Qed.
End Prefixes.

Section Searching.
Context (p : ascii → bool).
Implicit Types s : str.

Lemma find_by_Some s i :
  find_by p s = Some i ↔
  ∃ c, s !! i = Some c ∧ p c = true ∧ Forall (λ d, p d = false) (take i s).
Proof.
  revert i; induction s as [|c s IH]; intros i; simpl.
  { rewrite lookup_nil. naive_solver. }
  destruct (p c) eqn:Hc.
  - split; [intros [= <-]; exists c; by repeat constructor|].
    intros (d & Hd & Hp & Hall). destruct i; [done|].
    simpl in Hall. inversion Hall; congruence.
  - rewrite fmap_Some. split.
    + intros (j & Hj & ->). apply IH in Hj as (d & ? & ? & ?).
      exists d; simpl; auto.
    + intros (d & Hd & Hp & Hall). destruct i as [|i]; [simpl in Hd; congruence|].
      exists i; split; [|done]. apply IH. simpl in *. inversion Hall. eauto.
Qed.

Lemma find_by_None s : find_by p s = None ↔ Forall (λ d, p d = false) s.
Proof.
  induction s as [|c s IH]; simpl; [by split|]. rewrite Forall_cons.
  destruct (p c); [split; [done|by intros [? _]]|].
  rewrite fmap_None, IH. split; [done|by intros [_ ?]].
Qed.

Lemma rfind_by_Some s i :
  rfind_by p s = Some i ↔
  ∃ c, s !! i = Some c ∧ p c = true ∧ Forall (λ d, p d = false) (drop (S i) s).
Proof.
  revert i; induction s as [|c s IH]; intros i; simpl.
  { rewrite lookup_nil. naive_solver. }
  assert (Hnone : rfind_by p s = None ↔ Forall (λ d, p d = false) s).
  { clear IH. induction s as [|d s IHs]; simpl; [by split|]. rewrite Forall_cons.
    destruct (rfind_by p s); [naive_solver|]. destruct (p d); naive_solver. }
  destruct (rfind_by p s) as [j|] eqn:Hr; simpl.
  - split.
    + intros [= <-]. by apply IH.
    + destruct i as [|i]; simpl.
      * intros (d & _ & _ & Hall). rewrite drop_0 in Hall.
        apply Hnone in Hall. done.
      * intros Hex. f_equal. by apply IH in Hex as [= ->].
  - destruct (p c) eqn:Hc.
    + split.
      * intros [= <-]. exists c. rewrite drop_0. split; [done|]. split; [done|]. by apply Hnone.
      * destruct i as [|i]; [done|]. intros Hex. by apply IH in Hex.
    + split; [done|]. destruct i as [|i]; simpl.
      * intros (d & [= ->] & Hd & _). congruence.
      * intros Hex. by apply IH in Hex.
Qed.

Lemma split_by_nonempty s : split_by p s ≠ [].
Proof. destruct s; simpl; [done|]. destruct (p _); [done|]. by destruct (split_by p s). Qed.

(** Splitting is compatible with concatenation at a separator. *)
Lemma split_by_app s c t :
  p c = true → split_by p (s ++ c :: t) = split_by p s ++ split_by p t.
Proof.
  intros Hc. induction s as [|d s IH]; simpl; [by rewrite Hc|].
  destruct (p d); [by rewrite IH|]. rewrite IH.
  pose proof (split_by_nonempty s). by destruct (split_by p s).
Qed.

Lemma split_by_none s : Forall (λ c, p c = false) s → split_by p s = [s].
Proof. induction 1 as [|c s Hc _ IH]; simpl; [done|]. by rewrite Hc, IH. Qed.

(** No piece of a split contains a separator, and every character of a
    piece comes from the string. *)
Lemma split_by_pieces s t :
  t ∈ split_by p s → Forall (λ c, p c = false ∧ c ∈ s) t.
Proof.
  revert t; induction s as [|d s IH]; intros t; simpl.
  { rewrite list_elem_of_singleton. intros ->. constructor. }
  destruct (p d) eqn:Hd.
  - intros [->|Ht]%elem_of_cons; [constructor|].
    eapply Forall_impl; [by apply IH|]. intros c [? ?]; split; [done|by right].
  - pose proof (split_by_nonempty s) as Hne.
    destruct (split_by p s) as [|h ts]; [done|].
    intros [->|Ht]%elem_of_cons.
    + constructor; [split; [done|by left]|].
      eapply Forall_impl; [apply IH; by left|]. intros c [? ?]; split; [done|by right].
    + eapply Forall_impl; [apply IH; by right|]. intros c [? ?]; split; [done|by right].
Qed.
End Searching.

Section Trimming.
Implicit Types s : str.

Lemma trim_start_sublist s : sublist (trim_start s) s.
Proof.
  induction s as [|c s IH]; simpl; [constructor|].
  destruct (is_whitespace c); [by constructor|reflexivity].
Qed.

Lemma elem_of_trim s c : c ∈ trim s → c ∈ s.
Proof.
  assert (Hst : ∀ s c, c ∈ trim_start s → c ∈ s).
  { intros s1 c1 Hc. by eapply elem_of_sublist, trim_start_sublist. }
  unfold trim, trim_end. rewrite elem_of_reverse. intros H%Hst.
  rewrite elem_of_reverse in H. by apply Hst.
Qed.

Lemma trim_start_id s :
  (∀ c s', s = c :: s' → is_whitespace c = false) → trim_start s = s.
Proof. destruct s as [|c s]; intros H; simpl; [done|]. by rewrite (H c s). Qed.

(** A string that neither starts nor ends with whitespace is not trimmed. *)
Lemma trim_ends c d s t u :
  s = c :: t → s = u ++ [d] → is_whitespace c = false → is_whitespace d = false → trim s = s.
Proof.
  intros Hc Hd Hwc Hwd. unfold trim, trim_end. rewrite (trim_start_id s) by naive_solver.
  rewrite trim_start_id; [by rewrite reverse_involutive|].
  intros x s' Hx. rewrite Hd, reverse_snoc in Hx. by injection Hx as <- _.
Qed.

(** A string without whitespace is not trimmed. *)
Lemma trim_id s : Forall (λ c, is_whitespace c = false) s → trim s = s.
Proof.
  intros Hs. unfold trim, trim_end.
  rewrite (trim_start_id s); [|intros c s' ->; by inversion Hs].
  rewrite trim_start_id; [by rewrite reverse_involutive|].
  intros c s' Hr. apply Forall_reverse in Hs. rewrite Hr in Hs. by inversion Hs.
Qed.
End Trimming.

Section Decimal.
Local Open Scope Z_scope.

Lemma digit_value_range c : is_ascii_digit c = true → 0 <= digit_value c <= 9.
Proof. unfold is_ascii_digit, in_range, digit_value. intros H; bool_prop. lia. Qed.

Lemma decimal_value_nonneg s : all_digits s = true → 0 <= decimal_value s.
Proof.
  unfold decimal_value. cut (∀ acc, 0 <= acc → all_digits s = true →
    0 <= foldl (λ acc c, acc * 10 + digit_value c)%Z acc s); [intros H; apply H; lia|].
  induction s as [|c s IH]; intros acc Hacc; simpl; [done|].
  intros [Hc Hs]%andb_true_iff. apply digit_value_range in Hc.
  apply IH; [lia|done].
Qed.

(** A parsed unsigned integer fits its type. *)
Lemma parse_unsigned_range max s v : parse_unsigned max s = Some v → 0 <= v <= max.
Proof.
  unfold parse_unsigned. set (d := match s with [] => [] | _ => _ end).
  destruct (_ || _) eqn:Hd; [done|]. bool_prop. destruct Hd as [_ Hd].
  case_match; [|done]. bool_prop. intros [= <-].
  split; [by apply decimal_value_nonneg|done].
Qed.

Lemma parse_i64_range s v : parse_i64 s = Some v → i64_min <= v <= i64_max.
Proof.
  unfold parse_i64. destruct s as [|c s]; [done|]. case_decide.
  - destruct (_ || _) eqn:Hd; [done|]. bool_prop. destruct Hd as [_ Hd].
    case_match; [|done]. bool_prop. intros [= <-].
    pose proof (decimal_value_nonneg s Hd). unfold i64_max. lia.
  - intros Hv%parse_unsigned_range. unfold i64_min. lia.
Qed.

(** A non-empty run of digits parses to its value when the value fits. *)
(** A digit string parses to its value unless that is out of range. *)
Lemma parse_unsigned_eq max s :
  all_digits s = true → s ≠ [] →
  parse_unsigned max s = if decimal_value s <=? max then Some (decimal_value s) else None.
Proof.
  intros Hd Hne. unfold parse_unsigned.
  assert (Hs : match s with c :: s' => if decide (c = "+"%char) then s' else s | [] => [] end = s).
  { destruct s as [|c s']; [done|]. rewrite decide_False; [done|]. intros ->. done. }
  by rewrite Hs, Hd, bool_decide_eq_false_2 by done.
Qed.

Lemma parse_unsigned_digits max s :
  all_digits s = true → s ≠ [] → decimal_value s <= max →
  parse_unsigned max s = Some (decimal_value s).
Proof.
  intros Hd Hne Hmax. rewrite parse_unsigned_eq by done. by rewrite (proj2 (Z.leb_le _ _) Hmax).
Qed.

Lemma parse_unsigned_overflow max s :
  all_digits s = true → s ≠ [] → max < decimal_value s → parse_unsigned max s = None.
Proof.
  intros Hd Hne Hmax. rewrite parse_unsigned_eq by done. by rewrite (proj2 (Z.leb_gt _ _) Hmax).
Qed.

Lemma parse_i64_digits s :
  all_digits s = true → s ≠ [] → decimal_value s <= i64_max → parse_i64 s = Some (decimal_value s).
Proof.
  intros Hd Hne Hmax. unfold parse_i64. destruct s as [|c s]; [done|].
  rewrite decide_False; [by apply parse_unsigned_digits|]. intros ->. done.
Qed.

(** What [format!] writes of an integer parses back to it. *)
Lemma show_digits_value fuel n :
  0 <= n < 10 ^ Z.of_nat fuel → all_digits (show_digits fuel n) = true ∧ decimal_value (show_digits fuel n) = n.
Proof.
  revert n. induction fuel as [|fuel IH]; intros n Hn; [cbn in *; split; [done|lia]|].
  rewrite Nat2Z.inj_succ, Z.pow_succ_r in Hn by lia. cbn [show_digits].
  assert (Hd : is_ascii_digit (ascii_of_nat (Z.to_nat (48 + n mod 10))) = true ∧
    digit_value (ascii_of_nat (Z.to_nat (48 + n mod 10))) = n mod 10).
  { pose proof (Z.mod_pos_bound n 10 ltac:(lia)). unfold is_ascii_digit, in_range, digit_value.
    rewrite code_byte by lia. split; [|lia]. apply andb_true_iff. split; apply Z.leb_le; lia. }
  destruct Hd as [Hd Hv]. unfold all_digits, decimal_value. rewrite forallb_app, foldl_app. cbn [forallb foldl].
  rewrite Hd, Hv. destruct (n <? 10) eqn:E; bool_prop.
  - cbn. rewrite Z.mod_small by lia. split; [done|lia].
  - destruct (IH (n / 10)) as [Ha Hval]; [split; [apply Z.div_pos; lia|apply Z.div_lt_upper_bound; lia]|].
    unfold all_digits in Ha. unfold decimal_value in Hval. rewrite Ha, Hval. split; [done|].
    pose proof (Z.div_mod n 10 ltac:(lia)). lia.
Qed.

Lemma show_digits_nonempty fuel n : fuel ≠ O → show_digits fuel n ≠ [].
Proof. destruct fuel; [done|]. intros _. cbn. by intros [_ ?]%app_nil. Qed.

Lemma parse_show_digits max fuel n :
  fuel ≠ O → 0 <= n < 10 ^ Z.of_nat fuel → n <= max → parse_unsigned max (show_digits fuel n) = Some n.
Proof.
  intros Hf Hn Hmax. destruct (show_digits_value fuel n Hn) as [Hd Hv].
  rewrite parse_unsigned_digits; [by rewrite Hv|done|by apply show_digits_nonempty|by rewrite Hv].
Qed.
End Decimal.

Lemma split_once_app c s t :
  Forall (λ d, is_char c d = false) s → split_once c (s ++ c :: t) = Some (s, t).
Proof.
  intros Hs. unfold split_once.
  assert (H : find_by (is_char c) (s ++ c :: t) = Some (length s)).
  { apply find_by_Some. exists c. rewrite lookup_app_r, Nat.sub_diag by lia.
    split; [done|]. split; [unfold is_char; by apply bool_decide_eq_true|].
    by rewrite take_app_length. }
  rewrite H. simpl. by rewrite take_app_length, drop_app_ge, Nat.sub_succ_l, Nat.sub_diag by lia.
Qed.

Lemma split_once_None c s : Forall (λ d, is_char c d = false) s → split_once c s = None.
Proof. intros Hs. unfold split_once. by apply find_by_None in Hs as ->. Qed.

Lemma split_once_Some c s a b :
  split_once c s = Some (a, b) ↔ s = a ++ c :: b ∧ Forall (λ d, is_char c d = false) a.
Proof.
  split.
  - unfold split_once. intros (i & Hi & [= -> ->])%fmap_Some. apply find_by_Some in Hi as (d & Hd & Hc & Hall).
    split; [|done]. unfold is_char in Hc. apply bool_decide_eq_true in Hc as ->.
    by rewrite <- (take_drop_middle s i c Hd) at 1.
  - intros [-> Ha]. by apply split_once_app.
Qed.

(** A string either has no separator or splits at the first one. *)
Lemma split_once_cases c s :
  (split_once c s = None ∧ Forall (λ d, is_char c d = false) s) ∨
  ∃ a b, split_once c s = Some (a, b) ∧ s = a ++ c :: b.
Proof.
  destruct (split_once c s) as [[a b]|] eqn:E.
  - right. exists a, b. by apply split_once_Some in E as [-> _].
  - left. split; [done|]. unfold split_once in E. apply fmap_None in E. by apply find_by_None in E.
Qed.

(** ** The byte order of strings *)

(** [str::cmp] as [a <= b]. *)
Fixpoint str_leb (a b : str) : bool :=
  match a, b with
  | [], _ => true
  | _ :: _, [] => false
  | x :: a, y :: b => ((code x <? code y) || ((code x =? code y) && str_leb a b))%Z
  end.

Lemma str_leb_total a b : str_leb a b = true ∨ str_leb b a = true.
Proof.
  revert b. induction a as [|x a IH]; intros [|y b]; simpl; auto.
  rewrite !orb_true_iff, !andb_true_iff, !Z.ltb_lt, !Z.eqb_eq.
  destruct (Z.lt_trichotomy (code x) (code y)) as [?|[?|?]]; [auto| |auto].
  destruct (IH b); auto.
Qed.

Lemma str_leb_trans a b c : str_leb a b = true → str_leb b c = true → str_leb a c = true.
Proof.
  revert b c. induction a as [|x a IH]; intros [|y b] [|z c]; simpl; try done.
  rewrite !orb_true_iff, !andb_true_iff. specialize (IH b c).
  intros [?|[? ?]] [?|[? ?]]; [left; lia|left; lia|left; lia|right; split; [lia|auto]].
Qed.

Lemma str_leb_antisym a b : str_leb a b = true → str_leb b a = true → a = b.
Proof.
  revert b. induction a as [|x a IH]; intros [|y b]; simpl; try done.
  rewrite !orb_true_iff, !andb_true_iff. intros [?|[? ?]] [?|[? ?]]; try lia.
  f_equal; [|auto]. apply code_inj. lia.
Qed.

(** ** Searching *)

Lemma find_str_Some pat s a b : find_str pat s = Some (a, b) → s = a ++ pat ++ b.
Proof.
  revert a. induction s as [|c s IH]; intros a; cbn [find_str]; destruct (strip_prefix pat _) as [r|] eqn:E.
  - intros [= <- <-]. by apply strip_prefix_Some in E.
  - done.
  - intros [= <- <-]. by apply strip_prefix_Some in E.
  - destruct (find_str pat s) as [[u v]|] eqn:Hf; [|done]. intros [= <- <-]. simpl. f_equal. by apply IH.
Qed.

Lemma find_str_None pat s u v : find_str pat s = None → s ≠ u ++ pat ++ v.
Proof.
  revert u. induction s as [|c s IH]; intros u; cbn [find_str]; destruct (strip_prefix pat _) as [r|] eqn:E; try done.
  - intros _ Hs. destruct u as [|x u]; [|done]. cbn [app] in Hs. apply (eq_None_not_Some (strip_prefix pat [])) in E. apply E.
    exists v. by apply strip_prefix_Some.
  - destruct (find_str pat s) as [[x y]|] eqn:Hf; [done|]. intros _ Hs. destruct u as [|x u]; simpl in Hs.
    + apply (eq_None_not_Some (strip_prefix pat (c :: s))) in E. apply E. exists v. by apply strip_prefix_Some.
    + injection Hs as -> Hs. by apply (IH u).
Qed.

Lemma contains_str_spec s pat : contains_str s pat = true ↔ ∃ u v, s = u ++ pat ++ v.
Proof.
  unfold contains_str. rewrite bool_decide_eq_true. split.
  - intros [[a b] Hf]. exists a, b. by apply find_str_Some.
  - intros (u & v & Hs). destruct (find_str pat s) eqn:E; [eauto|]. by apply (find_str_None _ _ u v) in E.
Qed.

(** The first occurrence is the one no earlier position matches. *)
Lemma find_str_at pat a b :
  (∀ x c y, a = x ++ c :: y → strip_prefix pat (c :: y ++ pat ++ b) = None) → find_str pat (a ++ pat ++ b) = Some (a, b).
Proof.
  assert (Hhere : strip_prefix pat (pat ++ b) = Some b) by by apply strip_prefix_Some.
  induction a as [|c a IH]; intros Hno.
  - cbn [app]. revert Hhere. generalize (pat ++ b). intros l Hhere. destruct l; cbn [find_str]; rewrite Hhere; done.
  - cbn [app find_str]. rewrite (Hno [] c a) by done. rewrite IH; [done|]. intros x d y ->. by apply (Hno (c :: x)).
Qed.

(** A pattern whose first character does not occur before it. *)
Lemma find_str_head c pat a b :
  Forall (λ d, d ≠ c) a → find_str (c :: pat) (a ++ (c :: pat) ++ b) = Some (a, b).
Proof.
  intros Ha. apply find_str_at. intros x d y ->. apply Forall_app in Ha as [_ [Hd _]%Forall_cons]. simpl.
  by rewrite decide_False.
Qed.

(** ** Joining *)

(** A separator that no piece contains splits what it joined. *)
Lemma split_by_join c l :
  l ≠ [] → Forall (Forall (λ d, d ≠ c)) l → split_by (is_char c) (join [c] l) = l.
Proof.
  intros Hne Hl. induction Hl as [|s l Hs Hl IH]; [done|].
  assert (Hc : Forall (λ d, is_char c d = false) s).
  { eapply Forall_impl; [exact Hs|]. intros d Hd. by apply bool_decide_eq_false. }
  destruct l as [|t l]; [by apply split_by_none|].
  change (join [c] (s :: t :: l)) with (s ++ c :: join [c] (t :: l)).
  rewrite split_by_app by by apply bool_decide_eq_true. by rewrite split_by_none, IH.
Qed.

Lemma join_inj c l k :
  Forall (λ s, s ≠ [] ∧ Forall (λ d, d ≠ c) s) l → Forall (λ s, s ≠ [] ∧ Forall (λ d, d ≠ c) s) k →
  join [c] l = join [c] k → l = k.
Proof.
  intros Hl Hk Heq. apply Forall_and in Hl as [Hl1 Hl2]. apply Forall_and in Hk as [Hk1 Hk2].
  assert (Hnil : ∀ m, Forall (λ s, s ≠ []) m → join [c] m = [] → m = []).
  { intros [|s m] Hm Hj; [done|]. apply Forall_cons in Hm as [Hs _]. exfalso. by destruct m, s. }
  destruct (decide (l = [])) as [->|Hne]; [symmetry; by apply Hnil|].
  destruct (decide (k = [])) as [->|Hne']; [by apply Hnil|].
  rewrite <- (split_by_join c l), <- (split_by_join c k) by done. by rewrite Heq.
Qed.

Lemma Forall_joined (P : ascii → Prop) sep l : Forall P sep → Forall (Forall P) l → Forall P (join sep l).
Proof.
  intros Hsep. induction 1 as [|s l Hs Hl IH]; [constructor|]. destruct l as [|t l]; [done|].
  change (Forall P (s ++ sep ++ join sep (t :: l))). by rewrite !Forall_app.
Qed.

Lemma show_digits_digits fuel n : (0 <= n < 10 ^ Z.of_nat fuel)%Z → Forall (λ c, is_ascii_digit c = true) (show_digits fuel n).
Proof. intros Hn. apply forallb_Forall, show_digits_value, Hn. Qed.

Lemma digit_differs c d : is_ascii_digit c = true → is_ascii_digit d = false → c ≠ d.
Proof. congruence. Qed.

Lemma show_digits_inj fuel m n :
  (0 <= m < 10 ^ Z.of_nat fuel)%Z → (0 <= n < 10 ^ Z.of_nat fuel)%Z → show_digits fuel m = show_digits fuel n → m = n.
Proof. intros Hm Hn Heq. destruct (show_digits_value fuel m Hm) as [_ <-], (show_digits_value fuel n Hn) as [_ <-]. by rewrite Heq. Qed.

(** ** Lists of tokens *)

(** The tokens that say something. *)
Definition tokens (ts : list str) : list str := filter (λ t, t ≠ []) (trim <$> ts).

Lemma tokens_cons t ts : tokens (t :: ts) = if decide (trim t = []) then tokens ts else trim t :: tokens ts.
Proof.
  unfold tokens. rewrite fmap_cons, filter_cons. destruct (decide (trim t = [])) as [Ht|Ht].
  - by rewrite decide_False by (intros H; by apply H).
  - by rewrite decide_True.
Qed.
