(* ===== verification/RustTime.v ===== *)
(** [std::time::Duration] and [std::time::SystemTime] on a Unix target, where a
    [SystemTime] is a signed 64-bit count of seconds with a nanosecond part.

    Both are kept as a count of nanoseconds: a [Duration] since zero, a
    [SystemTime] since [UNIX_EPOCH].  The representable ranges are explicit, so
    [checked_add] and the saturating operations fail or clamp where Rust's do. *)
From S2P Require Import Prelude.
Local Open Scope Z_scope.

Definition nanos : Z := 10 ^ 9.

Definition Duration := Z.
Definition SystemTime := Z.

Definition duration_max : Duration := 2 ^ 64 * nanos - 1.
Definition system_time_min : SystemTime := - 2 ^ 63 * nanos.
Definition system_time_max : SystemTime := 2 ^ 63 * nanos - 1.

Definition UNIX_EPOCH : SystemTime := 0.

Definition duration_ok (d : Duration) : Prop := 0 <= d <= duration_max.
Definition system_time_ok (t : SystemTime) : Prop := system_time_min <= t <= system_time_max.

(** [Duration::from_secs], [as_secs], [saturating_add], [checked_div]. *)
Definition from_secs (s : Z) : Duration := s * nanos.
Definition as_secs (d : Duration) : Z := d / nanos.
Definition duration_saturating_add (a b : Duration) : Duration := Z.min (a + b) duration_max.
Definition duration_checked_div (d : Duration) (n : Z) : option Duration :=
  if n =? 0 then None else Some (d / n).

(** [SystemTime::checked_add], [checked_sub]: [None] out of range. *)
Definition in_system_time (t : Z) : option SystemTime :=
  if (system_time_min <=? t) && (t <=? system_time_max) then Some t else None.
Definition checked_add (t : SystemTime) (d : Duration) : option SystemTime := in_system_time (t + d).
Definition checked_sub (t : SystemTime) (d : Duration) : option SystemTime := in_system_time (t - d).

(** [SystemTime::duration_since]: [Err] carries the distance the other way. *)
Definition duration_since (t u : SystemTime) : Duration + Duration :=
  if u <=? t then inl (t - u) else inr (u - t).

(** [duration_since(..).unwrap_or(Duration::ZERO)]. *)
Definition since_or_zero (t u : SystemTime) : Duration :=
  match duration_since t u with inl d => d | inr _ => 0 end.

Lemma since_or_zero_spec t u : since_or_zero t u = Z.max (t - u) 0.
Proof. unfold since_or_zero, duration_since. destruct (u <=? t) eqn:E; bool_prop; lia. Qed.

Lemma in_system_time_Some t u : in_system_time t = Some u ↔ u = t ∧ system_time_ok t.
Proof.
  unfold in_system_time, system_time_ok. destruct (_ && _) eqn:E.
  - bool_prop. naive_solver.
  - split; [done|]. intros [-> ?]. bool_prop. lia.
Qed.

Lemma checked_add_Some t d u : checked_add t d = Some u ↔ u = t + d ∧ system_time_ok (t + d).
Proof. apply in_system_time_Some. Qed.

Lemma checked_add_None t d :
  system_time_ok t → 0 <= d → checked_add t d = None ↔ system_time_max < t + d.
Proof.
  unfold checked_add, in_system_time, system_time_ok. intros ? ?.
  destruct (_ && _) eqn:E; bool_prop; split; intros; try done; lia.
Qed.

Lemma duration_saturating_add_mono a b c d :
  a <= c → b <= d → duration_saturating_add a b <= duration_saturating_add c d.
Proof. unfold duration_saturating_add. lia. Qed.
