(* ===== verification/RustFloat.v ===== *)
(** [f64] and its passage to and from [std::time::Duration].

    An [f64] is a [spec_float] of 53 bits with exponents up to 1024, whose
    operations round to nearest, ties to even, as IEEE 754's binary64 does; no
    primitive floats are involved, so everything here evaluates in the kernel. *)
From Stdlib Require Export Floats.SpecFloat.
From S2P Require Import Prelude RustTime.
Local Open Scope Z_scope.

Definition f64 : Type := spec_float.

Definition f64_prec : Z := 53.
Definition f64_emax : Z := 1024.

(** [as f64] of an unsigned integer, and a literal given by its bits. *)
Definition f64_of_Z (n : Z) : f64 := binary_normalize f64_prec f64_emax n 0 false.
Definition f64_lit (m : positive) (e : Z) : f64 := S754_finite false m e.

Definition f64_add : f64 → f64 → f64 := SFadd f64_prec f64_emax.
Definition f64_sub : f64 → f64 → f64 := SFsub f64_prec f64_emax.
Definition f64_mul : f64 → f64 → f64 := SFmul f64_prec f64_emax.
Definition f64_div : f64 → f64 → f64 := SFdiv f64_prec f64_emax.
Definition f64_neg : f64 → f64 := SFopp.

(** [<], [<=], [>] and [>=]: false when an operand is a NaN. *)
Definition f64_lt (x y : f64) : bool := SFltb x y.
Definition f64_le (x y : f64) : bool := SFleb x y.

Definition is_finite (x : f64) : bool :=
  match x with S754_zero _ | S754_finite _ _ _ => true | _ => false end.

Definition is_nan (x : f64) : bool := match x with S754_nan => true | _ => false end.

(** [f64::min] and [f64::max]: a NaN loses to the other operand. *)
Definition f64_min (x y : f64) : f64 := if is_nan x then y else if is_nan y then x else if f64_le x y then x else y.
Definition f64_max (x y : f64) : f64 := if is_nan x then y else if is_nan y then x else if f64_le y x then x else y.

Definition one : f64 := f64_of_Z 1.
Definition two : f64 := f64_of_Z 2.

(** [Duration::as_secs_f64]: the whole seconds plus the nanoseconds over 10^9. *)
Definition as_secs_f64 (d : Duration) : f64 :=
  f64_add (f64_of_Z (d / nanos)) (f64_div (f64_of_Z (d mod nanos)) (f64_of_Z nanos)).

(** The quotient [n / d] rounded to nearest, ties to even. *)
Definition round_half_even (n d : Z) : Z :=
  let q := n / d in
  let r := n mod d in
  if 2 * r <? d then q
  else if d <? 2 * r then q + 1
  else if Z.even q then q else q + 1.

(** [Duration::try_from_secs_f64]: the nearest nanosecond, [None] for a negative
    value and for one no [Duration] holds. *)
Definition try_from_secs_f64 (x : f64) : option Duration :=
  match x with
  | S754_zero _ => Some 0
  | S754_finite false m e =>
      let d := if 0 <=? e then Zpos m * 2 ^ e * nanos else round_half_even (Zpos m * nanos) (2 ^ (- e)) in
      if d <=? duration_max then Some d else None
  | _ => None
  end.

Lemma round_half_even_nonneg n d : 0 <= n → 0 < d → 0 <= round_half_even n d.
Proof.
  intros Hn Hd. unfold round_half_even. pose proof (Z.div_pos n d Hn Hd). repeat case_match; lia.
Qed.

(** Half a unit of error at most. *)
Lemma round_half_even_near n d :
  0 < d → 2 * n - d <= 2 * d * round_half_even n d <= 2 * n + d.
Proof.
  intros Hd. unfold round_half_even. pose proof (Z.div_mod n d). pose proof (Z.mod_pos_bound n d Hd).
  destruct (2 * (n mod d) <? d) eqn:?; [bool_prop; nia|].
  destruct (d <? 2 * (n mod d)) eqn:?; [bool_prop; nia|].
  destruct (Z.even _); bool_prop; nia.
Qed.

Lemma try_from_secs_ok x d : try_from_secs_f64 x = Some d → duration_ok d.
Proof.
  unfold duration_ok. destruct x as [s|s| |s m e]; cbn [try_from_secs_f64]; [|done|done|].
  - intros [= <-]. by vm_compute.
  - destruct s; [done|]. cbv zeta. destruct (_ <=? duration_max) eqn:Hle; [|done]. bool_prop.
    intros [= <-]. split; [|done]. destruct (0 <=? e) eqn:He; bool_prop.
    + unfold nanos. pose proof (Z.pow_nonneg 2 e). nia.
    + apply round_half_even_nonneg; [unfold nanos; lia|]. apply Z.pow_pos_nonneg; lia.
Qed.

(** Doubling and a five percent drift, on latencies of a network. *)
Example twice_57ms :
  try_from_secs_f64 (f64_mul (as_secs_f64 57000000) two) = Some 114000000.
Proof. vm_compute. reflexivity. Qed.
Example half_up : try_from_secs_f64 (f64_lit 1 (-10)) = Some 976562.
Proof. vm_compute. reflexivity. Qed.
Example minus_zero : try_from_secs_f64 (f64_neg (f64_of_Z 0)) = Some 0.
Proof. vm_compute. reflexivity. Qed.
