(* ===== verification/Eviction.v ===== *)
(** What the bounded stores share: keeping the [k] smallest of a stream with a bounded
    max-heap, and evicting the lowest-ranked entries of a map.

    The first is the loop of [Store::enforce_total]
    (src/crates/chromulate-cookie/src/jar.rs) over a [std::collections::BinaryHeap], on
    any strict total order.

    The heap is kept as its elements in descending order, so [peek] is the head
    and [pop] the tail; [BinaryHeap] promises no other order. *)
From stdpp Require Export lexico.
From S2P Require Import Prelude RustStr.

(** [str]'s order is that of its bytes; a tuple's is lexicographic. *)
#[export] Instance ascii_lexico : Lexico ascii := λ a b, (code a < code b)%Z.

#[export] Instance ascii_lexico_po : StrictOrder (@lexico ascii _).
Proof. unfold lexico, ascii_lexico. split; [intros a; apply Z.lt_irrefl|intros a b c; apply Z.lt_trans]. Qed.

#[export] Instance ascii_lexico_trichotomy : TrichotomyT (@lexico ascii _).
Proof.
  intros a b. unfold lexico, ascii_lexico.
  refine (match Z.compare (code a) (code b) as c return Z.compare (code a) (code b) = c → _ with
          | Lt => λ H, inleft (left (proj1 (Z.compare_lt_iff _ _) H))
          | Eq => λ H, inleft (right (code_inj _ _ (proj1 (Z.compare_eq_iff _ _) H)))
          | Gt => λ H, inright (proj1 (Z.compare_gt_iff _ _) H)
          end eq_refl).
Defined.


Section Bounded_heap.
Context {A : Type} (R : relation A) `{!StrictOrder R} `{!TrichotomyT R} `{!RelDecision R}.
Implicit Types h rest cs : list A.

Fixpoint heap_push (x : A) (h : list A) : list A :=
  match h with
  | [] => [x]
  | y :: h' => if decide (R y x) then x :: h else y :: heap_push x h'
  end.

Definition heap_peek (h : list A) : option A := head h.
Definition heap_pop (h : list A) : list A := tail h.

(** One candidate of the scan, with room for [k]. *)
Definition worst_step (k : Z) (worst : list A) (candidate : A) : list A :=
  if (zlen worst <? k)%Z then heap_push candidate worst
  else match heap_peek worst with
       | Some held =>
           if decide (R candidate held) then heap_push candidate (heap_pop worst) else worst
       | None => worst
       end.

Definition worst_of (k : Z) (cs : list A) : list A := foldl (worst_step k) [] cs.

(** ** The heap *)

Definition heap_ok : list A → Prop := StronglySorted (λ x y, ¬ R x y).

Lemma heap_push_perm x h : heap_push x h ≡ₚ x :: h.
Proof.
  induction h as [|y h IH]; simpl; [done|]. case_decide; [done|].
  rewrite IH. constructor.
Qed.

Lemma heap_push_ok x h : heap_ok h → heap_ok (heap_push x h).
Proof using StrictOrder0 TrichotomyT0.
  unfold heap_ok. induction 1 as [|y h Hs IH Hall]; simpl; [by repeat constructor|].
  case_decide as Hyx.
  - constructor; [by constructor|]. constructor.
    + intros Hxy. by apply (irreflexivity R x); trans y.
    + eapply Forall_impl; [done|]. intros z Hyz Hxz. apply Hyz. by trans x.
  - constructor; [done|]. rewrite heap_push_perm. constructor; done.
Qed.

(** The split a prefix of the scan maintains: [h] holds the smallest. *)
Definition splits (k : Z) (cs h rest : list A) : Prop :=
  cs ≡ₚ h ++ rest ∧ heap_ok h ∧ zlen h = Z.min k (zlen cs) ∧
  ∀ a r, a ∈ h → r ∈ rest → ¬ R r a.

Lemma splits_room k cs h rest :
  splits k cs h rest → (zlen h < k)%Z → rest = [].
Proof.
  intros (Hp & _ & Hlen & _) Hk. apply zlen_perm in Hp. rewrite zlen_app in Hp.
  destruct rest; [done|]. rewrite zlen_cons in Hp. pose proof (zlen_nonneg rest). lia.
Qed.

Lemma worst_step_splits k cs h rest c :
  (0 <= k)%Z → splits k cs h rest →
  ∃ rest', splits k (cs ++ [c]) (worst_step k h c) rest'.
Proof using StrictOrder0 TrichotomyT0.
  intros Hk Hsp. pose proof (splits_room _ _ _ _ Hsp) as Hroom.
  destruct Hsp as (Hp & Hok & Hlen & Hle). unfold worst_step, heap_peek, heap_pop.
  assert (Hcs : zlen (cs ++ [c]) = (zlen cs + 1)%Z) by (by rewrite zlen_app).
  assert (Hcomm : cs ++ [c] ≡ₚ c :: h ++ rest) by (rewrite Hp; by rewrite Permutation_app_comm).
  assert (Hpush : ∀ l, zlen (heap_push c l) = (zlen l + 1)%Z).
  { intros l. rewrite (zlen_perm _ _ (heap_push_perm c l)). apply zlen_cons. }
  destruct (zlen h <? k)%Z eqn:Hfull; bool_prop.
  { rewrite (Hroom Hfull) in *. exists []. split_and!.
    - by rewrite heap_push_perm, Hcomm.
    - by apply heap_push_ok.
    - rewrite Hpush. lia.
    - intros a r _ Hr. by apply elem_of_nil in Hr. }
  destruct h as [|held h]; simpl.
  { change (zlen (@nil A)) with 0%Z in *. pose proof (zlen_nonneg cs).
    exists (c :: rest). split_and!; [done|done|change (zlen (@nil A)) with 0%Z; lia|].
    intros a r Ha. by apply elem_of_nil in Ha. }
  inversion Hok as [|? ? Hok' Hmax]; subst. rewrite Forall_forall in Hmax.
  rewrite zlen_cons in Hlen, Hfull. pose proof (zlen_nonneg cs). case_decide as Hc.
  - exists (held :: rest). split_and!.
    + rewrite heap_push_perm, Hcomm. simpl. constructor. by rewrite Permutation_middle.
    + by apply heap_push_ok.
    + rewrite Hpush, Hcs. lia.
    + intros a r Ha Hr. rewrite heap_push_perm in Ha.
      apply elem_of_cons in Ha as [->|Ha], Hr as [->|Hr].
      * intros ?. by apply (irreflexivity R c); trans held.
      * intros Hrc. apply (Hle held r); [by left|done|]. by trans c.
      * by apply Hmax.
      * apply Hle; [by right|done].
  - exists (c :: rest). split_and!; [by rewrite Hcomm, Permutation_middle|done| |].
    + rewrite zlen_cons, Hcs. lia.
    + intros a r Ha [->|Hr]%elem_of_cons; [|by apply Hle].
      apply elem_of_cons in Ha as [->|Ha]; [done|]. intros Hca.
      destruct (trichotomyT R a held) as [[Hah| ->]|Hha]; [by apply Hc; trans a|done|].
      by apply (Hmax a Ha).
Qed.

Lemma worst_of_splits k cs :
  (0 <= k)%Z → ∃ rest, splits k cs (worst_of k cs) rest.
Proof using StrictOrder0 TrichotomyT0.
  intros Hk. unfold worst_of. induction cs as [|c cs [rest IH]] using rev_ind.
  - exists []. split_and!; [done|apply SSorted_nil|unfold zlen; simpl; lia|].
    intros a r Ha. by apply elem_of_nil in Ha.
  - rewrite foldl_snoc. by eapply worst_step_splits.
Qed.
End Bounded_heap.

(** ** Evicting the lowest-ranked entries of a map

    The scan shared by the stores of src/crates/chromulate-concurrency/src/adaptive.rs
    ([Store::evict]), src/crates/chromulate-concurrency/src/fixed.rs
    ([FixedConcurrency::evict]) and src/crates/chromulate-http/src/validators.rs
    ([Inner::evict]), on a map keyed by a string.

    [skip] says which entries the scan passes over and [rank] how the others compare;
    ties break on the key.  [HashMap] iterates in the order of [map_to_list], on
    which the result does not depend. *)
Local Open Scope Z_scope.

Section Keyed.
Context {E Rank : Type} `{Lexico Rank, !StrictOrder (@lexico Rank _), !TrichotomyT (@lexico Rank _)}.
Context (skip : str → E → bool) (rank : E → Rank).
Implicit Types m : gmap str E.

Definition msize m : Z := Z.of_nat (size m).

Definition idle_candidates (m : gmap str E) : list (Rank * str) :=
  omap (λ kv, if skip kv.1 kv.2 then None else Some (rank kv.2, kv.1))
    (map_to_list m).

Definition evict_idle (capacity target : Z) (m : gmap str E) : gmap str E :=
  if msize m <=? capacity then m
  else
    let doomed := msize m - target in
    let worst := worst_of (@lexico (Rank * str) _) doomed (idle_candidates m) in
    foldl (λ m candidate, delete candidate.2 m) m worst.

(** Whether an entry may go. *)
Definition evictable (k : str) (e : E) : Prop := skip k e = false.

#[local] Instance evictable_dec k e : Decision (evictable k e).
Proof. unfold evictable. apply _. Defined.

Lemma elem_of_idle m r k :
  (r, k) ∈ idle_candidates m ↔ ∃ e, m !! k = Some e ∧ evictable k e ∧ r = rank e.
Proof.
  unfold idle_candidates, evictable. rewrite list_elem_of_omap. split.
  - intros ([k' e] & He & Hk). apply elem_of_map_to_list in He. simpl in Hk.
    destruct (skip k' e) eqn:Hb; [done|]. injection Hk as <- <-. by exists e.
  - intros (e & He & Hb & ->). exists (k, e). split; [by apply elem_of_map_to_list|]. simpl. by rewrite Hb.
Qed.

Lemma idle_keys_NoDup m : NoDup (idle_candidates m).*2.
Proof.
  unfold idle_candidates. pose proof (NoDup_fst_map_to_list m) as Hnd.
  induction (map_to_list m) as [|[k e] l IH]; simpl; [constructor|].
  apply NoDup_cons in Hnd as [Hk Hnd]. destruct (skip k e); [by apply IH|]. simpl. constructor; [|by apply IH].
  intros ([r k'] & -> & Hk')%list_elem_of_fmap. apply Hk.
  apply list_elem_of_omap in Hk' as ([k2 e2] & He2 & Hs). simpl in Hs. destruct (skip k2 e2); [done|].
  injection Hs as <- <-. apply list_elem_of_fmap. by exists (k2, e2).
Qed.

Lemma lookup_deletes (l : list (Rank * str)) m k :
  foldl (λ m candidate, delete candidate.2 m) m l !! k = if decide (k ∈ l.*2) then None else m !! k.
Proof.
  revert m. induction l as [|[r k'] l IH]; intros m; cbn [foldl]; [by rewrite decide_False by apply not_elem_of_nil|].
  rewrite IH, fmap_cons. cbn [snd]. destruct (decide (k ∈ l.*2)); [by rewrite decide_True by (by right)|].
  destruct (decide (k = k')) as [->|Hk]; [by rewrite lookup_delete_eq, decide_True by left|].
  rewrite lookup_delete_ne, decide_False by (rewrite ?elem_of_cons; naive_solver). done.
Qed.

Lemma size_deletes (l : list (Rank * str)) m :
  NoDup l.*2 → (∀ k, k ∈ l.*2 → is_Some (m !! k)) →
  msize (foldl (λ m candidate, delete candidate.2 m) m l) = msize m - zlen l.
Proof.
  revert m. induction l as [|[r k] l IH]; intros m; cbn [foldl].
  { change (zlen []) with 0. lia. }
  rewrite fmap_cons. cbn [snd]. intros [Hk Hnd]%NoDup_cons Hin. rewrite IH; [|done|].
  - rewrite zlen_cons. unfold msize. rewrite map_size_delete_Some by (apply Hin; left).
    assert (size m ≠ 0%nat); [|lia]. intros ->%map_size_empty_inv. destruct (Hin k) as [? Hx]; [left|]. by rewrite lookup_empty in Hx.
  - intros k' Hk'. rewrite lookup_delete_ne by (intros ->; done). apply Hin. by right.
Qed.

(** The scan keeps what may not go, removes the lowest ranked of what may, and as
    many as it takes to come down to the target or to run out of them. *)
Lemma evict_idle_spec capacity target m :
  0 <= target <= capacity →
  let m' := evict_idle capacity target m in
  m' ⊆ m ∧
  (∀ k e, m !! k = Some e → ¬ evictable k e → m' !! k = Some e) ∧
  (∀ k e k' e', m !! k = Some e → m' !! k = None → m' !! k' = Some e' → evictable k' e' →
     ¬ lexico (rank e', k') (rank e, k)) ∧
  msize m' = if msize m <=? capacity then msize m else Z.max target (msize m - zlen (idle_candidates m)).
Proof using StrictOrder0 TrichotomyT0.
  intros Ht. cbv zeta. unfold evict_idle. destruct (msize m <=? capacity) eqn:Hcap; bool_prop.
  { split_and!; [done|done| |done]. intros. congruence. }
  destruct (worst_of_splits (@lexico (Rank * str) _) (msize m - target) (idle_candidates m))
    as (rest & Hperm & _ & Hlen & Hle); [lia|].
  set (worst := worst_of _ _ _) in *. set (m' := foldl _ _ worst).
  pose proof (idle_keys_NoDup m) as Hnd. rewrite Hperm, fmap_app in Hnd.
  apply NoDup_app in Hnd as (Hndw & _ & _).
  assert (Hin : ∀ k, k ∈ worst.*2 → ∃ e, m !! k = Some e ∧ evictable k e ∧ (rank e, k) ∈ worst).
  { intros k ([r k0] & -> & Hk)%list_elem_of_fmap. assert (Hc : (r, k0) ∈ idle_candidates m).
    { rewrite Hperm, elem_of_app. by left. }
    apply elem_of_idle in Hc as (e & He & Hev & ->). eauto. }
  assert (Hlook : ∀ k, m' !! k = if decide (k ∈ worst.*2) then None else m !! k) by (intros; apply lookup_deletes).
  split_and!.
  - apply map_subseteq_spec. intros k e. rewrite Hlook. by case_decide.
  - intros k e He Hno. rewrite Hlook, decide_False; [done|]. intros (e' & He' & ? & _)%Hin. congruence.
  - intros k e k' e' He Hgone Hkept Hev. rewrite Hlook in Hgone, Hkept.
    destruct (decide (k ∈ worst.*2)) as [Hk|]; [|congruence]. destruct (decide (k' ∈ worst.*2)) as [|Hk']; [done|].
    apply Hin in Hk as (e2 & He2 & _ & Hw). assert (e2 = e) as -> by congruence. apply (Hle _ _ Hw).
    assert (Hc : (rank e', k') ∈ idle_candidates m) by (apply elem_of_idle; eauto).
    rewrite Hperm, elem_of_app in Hc. destruct Hc as [Hc|Hc]; [|done].
    exfalso. apply Hk', list_elem_of_fmap. by exists (rank e', k').
  - unfold m'. rewrite size_deletes; [lia|done|]. intros k (e & He & _)%Hin. eauto.
Qed.

(** The entries it may not take. *)
Definition kept_keys (m : gmap str E) : list str :=
  (filter (λ kv, ¬ evictable kv.1 kv.2) (map_to_list m)).*1.

Lemma idle_candidates_count m :
  msize m - zlen (idle_candidates m) = zlen (kept_keys m).
Proof using Type.
  unfold msize. rewrite <- length_map_to_list. fold (zlen (map_to_list m)).
  unfold idle_candidates, kept_keys. induction (map_to_list m) as [|[k e] l IH]; [done|].
  rewrite filter_cons, zlen_cons. cbn [omap list_omap fst snd].
  pose proof (eq_refl (skip k e)) as Hb. destruct (skip k e) in Hb at 2; rewrite Hb.
  - rewrite decide_True by (unfold evictable; congruence). rewrite fmap_cons, zlen_cons. lia.
  - rewrite decide_False by (intros Hn; by apply Hn). rewrite zlen_cons. lia.
Qed.

Lemma kept_keys_NoDup m : NoDup (kept_keys m).
Proof using Type.
  apply NoDup_fmap_fst; [|apply NoDup_filter, NoDup_map_to_list].
  intros x y1 y2 [_ H1]%list_elem_of_filter [_ H2]%list_elem_of_filter.
  apply elem_of_map_to_list in H1, H2. congruence.
Qed.

(** What is left above the capacity is only what may not go. *)
Lemma evict_idle_leftovers capacity target m k e :
  0 <= target <= capacity → capacity < msize (evict_idle capacity target m) →
  evict_idle capacity target m !! k = Some e → ¬ evictable k e.
Proof using StrictOrder0 TrichotomyT0.
  intros Ht Hbig Hk Hev. destruct (evict_idle_spec capacity target m Ht) as (Hsub & Hkeep & _ & Hsize).
  set (m' := evict_idle _ _ _) in *. destruct (msize m <=? capacity) eqn:Hle; bool_prop; [lia|].
  rewrite idle_candidates_count in Hsize. set (K := kept_keys m) in *.
  assert (Hs : list_to_set K ∪ {[k]} ⊆@{gset str} dom m').
  { intros x [Hx|Hx]%elem_of_union; [|apply elem_of_singleton in Hx as ->; by apply elem_of_dom_2 in Hk].
    apply elem_of_list_to_set, list_elem_of_fmap in Hx as ([x' q] & -> & [Hx Hq]%list_elem_of_filter).
    apply elem_of_map_to_list in Hq. by eapply elem_of_dom_2, Hkeep. }
  apply subseteq_size in Hs. rewrite size_union, size_list_to_set, size_singleton, size_dom in Hs.
  - unfold msize, zlen in *. lia.
  - apply kept_keys_NoDup.
  - apply disjoint_singleton_r. intros ([x q] & -> & [Hx Hq]%list_elem_of_filter)%elem_of_list_to_set%list_elem_of_fmap.
    apply Hx. apply elem_of_map_to_list in Hq. apply (lookup_weaken _ _ _ _ Hk) in Hsub. simpl in *. congruence.
Qed.
End Keyed.
