(* ===== verification/RustNet.v ===== *)
(** [std::net]'s address parsers: [str::parse::<Ipv4Addr>], [Ipv6Addr] and [IpAddr],
    as the standard library's recursive-descent [Parser] reads them.  A reader
    returns what it read with the remaining input.  An address is the integer its
    octets or groups spell. *)
From S2P Require Import Prelude RustStr.

Inductive IpAddr := V4 (bits : Z) | V6 (bits : Z).

#[export] Instance IpAddr_eq_dec : EqDecision IpAddr.
Proof. solve_decision. Defined.

(** [char::to_digit(16)]. *)
Definition is_hex_digit (c : ascii) : bool :=
  is_ascii_digit c || in_range 65 70 c || in_range 97 102 c.

Definition hex_digit_value (c : ascii) : Z :=
  if is_ascii_digit c then digit_value c
  else if in_range 65 70 c then code c - 55 else code c - 87.

Definition hex_value (s : str) : Z := foldl (λ acc c, acc * 16 + hex_digit_value c)%Z 0%Z s.

(** The longest run of characters satisfying [p], and the rest. *)
Fixpoint span (p : ascii → bool) (s : str) : str * str :=
  match s with
  | c :: s' => if p c then let '(a, r) := span p s' in (c :: a, r) else ([], s)
  | [] => ([], [])
  end.

(** [Parser::read_number(10, Some(3), false)] into a [u8]. *)
Definition read_octet (s : str) : option (Z * str) :=
  let '(d, rest) := span is_ascii_digit s in
  if bool_decide (d = []) || (3 <? zlen d)%Z
     || (bool_decide (head d = Some "0"%char) && (1 <? zlen d)%Z)
     || (255 <? decimal_value d)%Z
  then None else Some (decimal_value d, rest).

(** [Parser::read_number(16, Some(4), true)] into a [u16]. *)
Definition read_group (s : str) : option (Z * str) :=
  let '(d, rest) := span is_hex_digit s in
  if bool_decide (d = []) || (4 <? zlen d)%Z then None else Some (hex_value d, rest).

Definition read_given_char (c : ascii) (s : str) : option str := strip_prefix [c] s.

(** [Parser::read_separator]: the separator precedes every element but the first. *)
Definition read_separator {A} (c : ascii) (index : nat) (inner : str → option (A * str)) (s : str)
    : option (A * str) :=
  if decide (index = 0) then inner s else read_given_char c s ≫= inner.

(** Octets and groups, most significant first. *)
Definition of_octets (l : list Z) : Z := foldl (λ acc o, acc * 256 + o)%Z 0%Z l.
Definition of_groups (l : list Z) : Z := foldl (λ acc g, acc * 65536 + g)%Z 0%Z l.

(** [Parser::read_ipv4_addr]. *)
Definition read_ipv4_addr (s : str) : option (Z * str) :=
  let dot := read_separator "."%char in
  '(a, s) ← dot 0 read_octet s;
  '(b, s) ← dot 1 read_octet s;
  '(c, s) ← dot 2 read_octet s;
  '(d, s) ← dot 3 read_octet s;
  Some (of_octets [a; b; c; d], s).

(** The inner [read_groups] of [Parser::read_ipv6_addr]: up to [limit] groups
    from index [i], and whether they ended in an IPv4 address. *)
Fixpoint read_groups (fuel i limit : nat) (s : str) : list Z * bool * str :=
  match fuel with
  | O => ([], false, s)
  | S fuel' =>
      match (if decide (i < limit - 1) then read_separator ":"%char i read_ipv4_addr s
             else None) with
      | Some (v4, rest) => ([v4 / 65536; v4 mod 65536]%Z, true, rest)
      | None => match read_separator ":"%char i read_group s with
                | Some (group, rest) =>
                    let '(groups, ipv4, rest) := read_groups fuel' (S i) limit rest in
                    (group :: groups, ipv4, rest)
                | None => ([], false, s)
                end
      end
  end.

(** [Parser::read_ipv6_addr]. *)
Definition read_ipv6_addr (s : str) : option (Z * str) :=
  let '(head, head_ipv4, rest) := read_groups 8 0 8 s in
  if decide (length head = 8) then Some (of_groups head, rest)
  else if head_ipv4 : bool then None
  else rest ← read_given_char ":"%char rest;
       rest ← read_given_char ":"%char rest;
       let limit := 8 - (length head + 1) in
       let '(tail, _, rest) := read_groups limit 0 limit rest in
       Some (of_groups (head ++ replicate (8 - length head - length tail) 0%Z ++ tail), rest).

(** All of the input must be read. *)
Definition whole {A} (r : option (A * str)) : option A :=
  match r with Some (a, []) => Some a | _ => None end.

(** [str::parse::<Ipv4Addr>()]: at most 15 bytes. *)
Definition parse_ipv4 (s : str) : option Z :=
  if (zlen s <=? 15)%Z then whole (read_ipv4_addr s) else None.

(** [str::parse::<Ipv6Addr>()]. *)
Definition parse_ipv6 (s : str) : option Z := whole (read_ipv6_addr s).

(** [str::parse::<IpAddr>()]: [read_ip_addr] tries IPv4, then IPv6. *)
Definition parse_ip (s : str) : option IpAddr :=
  whole (match read_ipv4_addr s with
         | Some (bits, rest) => Some (V4 bits, rest)
         | None => (λ x, (V6 x.1, x.2)) <$> read_ipv6_addr s
         end).

Definition parses_ipv4 (s : str) : bool := bool_decide (is_Some (parse_ipv4 s)).
Definition parses_ipv6 (s : str) : bool := bool_decide (is_Some (parse_ipv6 s)).
Definition parses_ip (s : str) : bool := bool_decide (is_Some (parse_ip s)).

(** [IpAddr::is_loopback]. *)
Definition is_loopback (a : IpAddr) : bool :=
  match a with
  | V4 bits => (Z.shiftr bits 24 =? 127)%Z
  | V6 bits => (bits =? 1)%Z
  end.

Definition ip_ok (a : IpAddr) : Prop :=
  match a with V4 bits => (0 <= bits < 2 ^ 32)%Z | V6 bits => (0 <= bits < 2 ^ 128)%Z end.

Example ipv4_ok : parse_ipv4 b#"127.0.0.1" = Some 2130706433%Z.
Proof. reflexivity. Qed.
Example ipv4_octal : parse_ipv4 b#"127.0.0.01" = None.
Proof. reflexivity. Qed.
Example ipv4_five : parse_ipv4 b#"1.2.3.4.5" = None.
Proof. reflexivity. Qed.
Example ipv6_loopback : parse_ipv6 b#"::1" = Some 1%Z.
Proof. vm_compute. reflexivity. Qed.
Example ipv6_embedded : parse_ipv6 b#"::ffff:10.0.0.1" = Some (0xffff * 2 ^ 32 + 0x0a000001)%Z.
Proof. vm_compute. reflexivity. Qed.
Example ipv6_full : parse_ipv6 b#"1:2:3:4:5:6:7:8" = Some 0x00010002000300040005000600070008%Z.
Proof. vm_compute. reflexivity. Qed.
Example ipv6_gap : parse_ipv6 b#"fe80::A:b" = Some 0xfe8000000000000000000000000a000b%Z.
Proof. vm_compute. reflexivity. Qed.
Example ipv6_nine : parse_ipv6 b#"1:2:3:4:5:6:7:8:9" = None.
Proof. vm_compute. reflexivity. Qed.
Example ipv6_two_gaps : parse_ipv6 b#"1::2::3" = None.
Proof. vm_compute. reflexivity. Qed.

(** ** What parses is in range *)

Lemma foldl_base_bound base l (f : Z → Z) acc :
  (0 < base)%Z → (0 <= acc)%Z → Forall (λ x, 0 <= x < base)%Z l →
  (0 <= foldl (λ acc x, acc * base + x) acc l < (acc + 1) * base ^ zlen l)%Z.
Proof.
  intros Hb. revert acc. induction l as [|x l IH]; intros acc Hacc Hl; cbn [foldl].
  - unfold zlen. cbn. lia.
  - apply Forall_cons in Hl as [Hx Hl]. specialize (IH (acc * base + x)%Z ltac:(nia) Hl).
    rewrite zlen_cons, Z.pow_add_r by (pose proof (zlen_nonneg l); lia). rewrite Z.pow_1_r.
    split; [lia|]. eapply Z.lt_le_trans; [apply IH|].
    assert (0 < base ^ zlen l)%Z by (apply Z.pow_pos_nonneg; [done|apply zlen_nonneg]). nia.
Qed.

Lemma foldl_digits {A} base (g : A → Z) l acc :
  foldl (λ acc c, acc * base + g c)%Z acc l = foldl (λ acc x, acc * base + x)%Z acc (g <$> l).
Proof. revert acc. induction l as [|c l IH]; intros acc; cbn; [done|]. apply IH. Qed.

Lemma span_spec p s d rest : span p s = (d, rest) → s = d ++ rest ∧ Forall (λ c, p c = true) d.
Proof.
  revert d rest. induction s as [|c s IH]; intros d rest; cbn [span]; [by intros [= <- <-]|].
  destruct (p c) eqn:Hc; [|by intros [= <- <-]]. destruct (span p s) as [a r]. intros [= <- <-].
  destruct (IH a r eq_refl) as [-> ?]. split; [done|]. by constructor.
Qed.

Lemma hex_digit_value_range c : is_hex_digit c = true → (0 <= hex_digit_value c < 16)%Z.
Proof.
  unfold is_hex_digit, hex_digit_value, is_ascii_digit, in_range, digit_value. intros Hc.
  destruct (_ && _) eqn:E1; bool_prop; [lia|].
  destruct ((65 <=? _)%Z && _) eqn:E2; bool_prop; lia.
Qed.

Lemma read_octet_range s v rest : read_octet s = Some (v, rest) → (0 <= v < 256)%Z.
Proof.
  unfold read_octet. destruct (span _ s) as [d r] eqn:Hs. destruct (_ || _) eqn:E; [done|]. bool_prop.
  intros [= <- <-]. apply span_spec in Hs as [_ Hd]. split; [|lia].
  apply decimal_value_nonneg. by apply forallb_Forall.
Qed.

Lemma read_group_range s v rest : read_group s = Some (v, rest) → (0 <= v < 65536)%Z.
Proof.
  unfold read_group. destruct (span _ s) as [d r] eqn:Hs. destruct (_ || _) eqn:E; [done|]. bool_prop.
  intros [= <- <-]. apply span_spec in Hs as [_ Hd]. unfold hex_value. rewrite foldl_digits.
  assert (Hrange : Forall (λ x, 0 <= x < 16)%Z (hex_digit_value <$> d))
    by (apply Forall_fmap; eapply Forall_impl; [exact Hd|]; intros c Hc; by apply hex_digit_value_range).
  pose proof (foldl_base_bound 16 _ id 0 ltac:(lia) ltac:(lia) Hrange) as Hb.
  assert (zlen (hex_digit_value <$> d) = zlen d) as Hz by (unfold zlen; by rewrite length_fmap). rewrite Hz in Hb.
  assert (16 ^ zlen d <= 16 ^ 4)%Z by (apply Z.pow_le_mono_r; lia). lia.
Qed.

Lemma read_separator_range {A} (P : A → Prop) c i inner s a rest :
  (∀ s a rest, inner s = Some (a, rest) → P a) → read_separator c i inner s = Some (a, rest) → P a.
Proof.
  intros Hin. unfold read_separator. case_decide; [apply Hin|]. intros (? & _ & ?)%bind_Some. by eapply Hin.
Qed.

Lemma read_ipv4_range s v rest : read_ipv4_addr s = Some (v, rest) → (0 <= v < 2 ^ 32)%Z.
Proof.
  unfold read_ipv4_addr. intros ([a s1] & Ha & Hr)%bind_Some. cbn in Hr.
  apply bind_Some in Hr as ([b s2] & Hb & Hr). cbn in Hr. apply bind_Some in Hr as ([c s3] & Hc & Hr). cbn in Hr.
  apply bind_Some in Hr as ([d s4] & Hd & [= <- <-]).
  pose proof (read_separator_range (λ v, 0 <= v < 256)%Z) as Hs.
  apply (Hs _ _ _ _ _ _ read_octet_range) in Ha, Hb, Hc, Hd. unfold of_octets. cbn. lia.
Qed.

Lemma read_groups_range fuel i limit s groups v4 rest :
  (fuel + i ≤ limit)%nat → read_groups fuel i limit s = (groups, v4, rest) →
  Forall (λ g, 0 <= g < 65536)%Z groups ∧ (length groups + i ≤ limit)%nat.
Proof.
  revert i s groups rest. induction fuel as [|fuel IH]; intros i s groups rest Hf; cbn [read_groups].
  { intros [= <- <- <-]. split; [done|]. cbn. lia. }
  destruct (if decide (i < limit - 1)%nat then _ else None) as [[bits r]|] eqn:Hv4.
  - intros [= <- <- <-]. case_decide; [|done]. apply (read_separator_range _ _ _ _ _ _ _ read_ipv4_range) in Hv4.
    change (2 ^ 32)%Z with (65536 * 65536)%Z in Hv4. split; [|cbn; lia].
    constructor; [|constructor; [|done]].
    + split; [apply Z.div_pos; lia|apply Z.div_lt_upper_bound; lia].
    + apply Z.mod_pos_bound. lia.
  - destruct (read_separator _ _ read_group s) as [[g r]|] eqn:Hg.
    + destruct (read_groups fuel (S i) limit r) as [[gs v] r'] eqn:Hr. intros [= <- <- <-].
      apply (read_separator_range _ _ _ _ _ _ _ read_group_range) in Hg.
      apply IH in Hr as [? ?]; [|lia]. split; [by constructor|]. cbn. lia.
    + intros [= <- <- <-]. split; [done|]. cbn. lia.
Qed.

Lemma of_groups_range l : Forall (λ g, 0 <= g < 65536)%Z l → length l = 8 → (0 <= of_groups l < 2 ^ 128)%Z.
Proof.
  intros Hl H8. pose proof (foldl_base_bound 65536 l id 0 ltac:(lia) ltac:(lia) Hl) as Hb.
  unfold of_groups. unfold zlen in Hb. rewrite H8 in Hb. change (65536 ^ Z.of_nat 8)%Z with (2 ^ 128)%Z in Hb. lia.
Qed.

Lemma read_ipv6_range s v rest : read_ipv6_addr s = Some (v, rest) → (0 <= v < 2 ^ 128)%Z.
Proof.
  unfold read_ipv6_addr. destruct (read_groups 8 0 8 s) as [[head v4] r] eqn:Hh.
  apply read_groups_range in Hh as [Hg Hl]; [|lia]. case_decide as H8; [intros [= <- <-]; by apply of_groups_range|].
  destruct v4; [done|]. intros (r1 & _ & (r2 & _ & Hr)%bind_Some)%bind_Some.
  destruct (read_groups _ 0 _ r2) as [[tl v4] r3] eqn:Ht. injection Hr as <- <-.
  apply read_groups_range in Ht as [Hg' Hl']; [|lia]. apply of_groups_range.
  - apply Forall_app. split; [done|]. apply Forall_app. split; [|done]. apply Forall_replicate. lia.
  - rewrite !length_app, length_replicate. lia.
Qed.

Lemma whole_Some {A} (r : option (A * str)) a : whole r = Some a → r = Some (a, []).
Proof. destruct r as [[? [|]]|]; cbn; congruence. Qed.

Lemma parse_ip_ok s ip : parse_ip s = Some ip → ip_ok ip.
Proof.
  unfold parse_ip. intros Hw%whole_Some. destruct (read_ipv4_addr s) as [[bits r]|] eqn:H4.
  - injection Hw as <- ->. by apply read_ipv4_range in H4.
  - apply fmap_Some in Hw as ([bits r] & H6 & Heq). cbn in Heq. injection Heq as -> <-. by apply read_ipv6_range in H6.
Qed.
