(* ===== verification/Calendar.v ===== *)
(** The reference the two date parsers are checked against: the proleptic
    Gregorian calendar as a successor function on dates, and the rendering of
    an instant as an [IMF-fixdate] (RFC 9110 section 5.6.7). *)
From S2P Require Import Prelude RustStr.
Local Open Scope Z_scope.

(** ** The calendar *)

Definition is_leap (y : Z) : bool :=
  (y mod 4 =? 0) && (negb (y mod 100 =? 0) || (y mod 400 =? 0)).

Definition days_in_month (y m : Z) : Z :=
  if m =? 2 then if is_leap y then 29 else 28
  else if (m =? 4) || (m =? 6) || (m =? 9) || (m =? 11) then 30 else 31.

Record date := mk_date { year : Z; month : Z; day : Z }.

Definition valid_date (x : date) : Prop :=
  1 <= month x <= 12 ∧ 1 <= day x <= days_in_month (year x) (month x).

Definition next_day (x : date) : date :=
  if day x <? days_in_month (year x) (month x) then mk_date (year x) (month x) (day x + 1)
  else if month x <? 12 then mk_date (year x) (month x + 1) 1
  else mk_date (year x + 1) 1 1.

Lemma next_day_valid x : valid_date x → valid_date (next_day x).
Proof.
  destruct x as [y m d]. unfold valid_date, next_day; simpl. intros [Hm Hd].
  assert (Hpos : ∀ y m, 1 <= days_in_month y m).
  { intros y' m'. unfold days_in_month. repeat case_match; lia. }
  destruct (d <? days_in_month y m) eqn:E1; simpl; bool_prop; [lia|].
  destruct (m <? 12) eqn:E2; simpl; bool_prop; split; try lia; split; try lia; apply Hpos.
Qed.

(** ** Rendering *)

Definition digit (n : Z) : ascii := ascii_of_nat (Z.to_nat (48 + n)).
Definition dec2 (n : Z) : str := [digit (n / 10); digit (n mod 10)].
Definition dec4 (n : Z) : str := dec2 (n / 100) ++ dec2 (n mod 100).

Definition month_names : list str :=
  [b#"Jan"; b#"Feb"; b#"Mar"; b#"Apr"; b#"May"; b#"Jun";
   b#"Jul"; b#"Aug"; b#"Sep"; b#"Oct"; b#"Nov"; b#"Dec"].
Definition weekday_names : list str :=
  [b#"Mon"; b#"Tue"; b#"Wed"; b#"Thu"; b#"Fri"; b#"Sat"; b#"Sun"].

Definition month_name (m : Z) : str := default [] (month_names !! Z.to_nat (m - 1)).

Definition hms (h mi s : Z) : str := dec2 h ++ b#":" ++ dec2 mi ++ b#":" ++ dec2 s.

(** [Sun, 06 Nov 1994 08:49:37 GMT]. *)
Definition imf_fixdate (weekday : str) (x : date) (h mi s : Z) : str :=
  weekday ++ b#", " ++ dec2 (day x) ++ b#" " ++ month_name (month x) ++ b#" " ++
  dec4 (year x) ++ b#" " ++ hms h mi s ++ b#" GMT".

(** The fields an [IMF-fixdate] can carry. *)
Definition valid_fields (weekday : str) (x : date) (h mi s : Z) : Prop :=
  weekday ∈ weekday_names ∧ 1601 <= year x <= 9999 ∧ 1 <= month x <= 12 ∧ 1 <= day x <= 31 ∧
  0 <= h <= 23 ∧ 0 <= mi <= 59 ∧ 0 <= s <= 60.

(** ** Facts by enumeration *)

Lemma seqZ_forallb (f : Z → bool) (n : Z) :
  forallb f (seqZ 0 n) = true → ∀ z, 0 <= z < n → f z = true.
Proof.
  intros H%forallb_Forall z Hz. rewrite Forall_forall in H. apply H, elem_of_seqZ. lia.
Qed.

(** Everything a parser asks of a two-digit field. *)
Definition dec2_ok (n : Z) : bool :=
  all_digits (dec2 n) && (decimal_value (dec2 n) =? n).

Definition dec4_ok (n : Z) : bool :=
  all_digits (dec4 n) && (decimal_value (dec4 n) =? n).

Lemma dec2_spec n : 0 <= n < 100 → all_digits (dec2 n) = true ∧ decimal_value (dec2 n) = n.
Proof.
  intros Hn. assert (H : dec2_ok n = true).
  { revert n Hn. apply seqZ_forallb. vm_compute. reflexivity. }
  unfold dec2_ok in H. by bool_prop.
Qed.

Lemma dec4_spec n : 0 <= n < 10000 → all_digits (dec4 n) = true ∧ decimal_value (dec4 n) = n.
Proof.
  intros Hn. assert (H : dec4_ok n = true).
  { revert n Hn. apply seqZ_forallb. vm_compute. reflexivity. }
  unfold dec4_ok in H. by bool_prop.
Qed.

Lemma all_digits_Forall s : all_digits s = true ↔ Forall (λ c, is_ascii_digit c = true) s.
Proof. apply forallb_Forall. Qed.

(** A run of digits contains nothing a parser splits on. *)
Lemma digits_avoid (p : ascii → bool) s :
  (∀ c, is_ascii_digit c = true → p c = false) →
  all_digits s = true → Forall (λ c, p c = false) s.
Proof. intros Hp Hs%all_digits_Forall. eapply Forall_impl; [done|]. auto. Qed.

Lemma month_name_cases m :
  1 <= m <= 12 → ∃ i, (i < 12)%nat ∧ m = Z.of_nat i + 1 ∧ month_names !! i = Some (month_name m).
Proof.
  intros Hm. exists (Z.to_nat (m - 1)). split; [lia|]. split; [lia|]. unfold month_name.
  destruct (month_names !! Z.to_nat (m - 1)) eqn:E; [done|].
  apply lookup_ge_None in E. simpl in E. lia.
Qed.

Lemma weekday_name_cases w (P : str → Prop) :
  Forall P weekday_names → w ∈ weekday_names → P w.
Proof. intros HP. rewrite Forall_forall in HP. auto. Qed.

(** What follows the weekday and its comma. *)
Definition imf_tail (x : date) (h mi s : Z) : str :=
  b#" " ++ dec2 (day x) ++ b#" " ++ month_name (month x) ++ b#" " ++
  dec4 (year x) ++ b#" " ++ hms h mi s ++ b#" GMT".

Lemma imf_fixdate_tail w x h mi s : imf_fixdate w x h mi s = w ++ ","%char :: imf_tail x h mi s.
Proof. done. Qed.

(** The fields of the rendering, between its separators. *)
Lemma split_imf_tail (p : ascii → bool) w x h mi s :
  (∀ c, is_ascii_digit c = true → p c = false) →
  p " "%char = true → p ":"%char = false →
  Forall (Forall (λ c, p c = false)) (b#"GMT" :: month_names) →
  valid_fields w x h mi s →
  split_by p (imf_tail x h mi s) =
  [[]; dec2 (day x); month_name (month x); dec4 (year x); hms h mi s; b#"GMT"].
Proof.
  intros Hdig Hsp Hcol Hnames (Hw & Hy & Hm & Hd & Hh & Hmi & Hs).
  rewrite Forall_cons in Hnames. destruct Hnames as (Hg & Hmo).
  destruct (month_name_cases (month x) Hm) as (i & _ & _ & Hi).
  rewrite Forall_forall in Hmo. specialize (Hmo _ (list_elem_of_lookup_2 _ _ _ Hi)).
  assert (Hdec2 : ∀ n, 0 <= n < 100 → Forall (λ c, p c = false) (dec2 n)).
  { intros n Hn. apply digits_avoid; [done|]. by apply dec2_spec. }
  assert (Hdec4 : Forall (λ c, p c = false) (dec4 (year x))).
  { apply digits_avoid; [done|]. apply dec4_spec. lia. }
  assert (Hhms : Forall (λ c, p c = false) (hms h mi s)).
  { unfold hms. rewrite !Forall_app. repeat split; try (apply Hdec2; lia);
      repeat constructor; done. }
  unfold imf_tail. change (b#" " ++ dec2 ?d ++ ?l) with ([] ++ " "%char :: dec2 d ++ l).
  change (b#" GMT") with (" "%char :: b#"GMT"). repeat change (b#" " ++ ?l) with (" "%char :: l).
  rewrite (split_by_app p []) by done.
  rewrite (split_by_app p (dec2 _)) by done. rewrite (split_by_none p (dec2 _)) by (apply Hdec2; lia).
  rewrite (split_by_app p (month_name _)) by done. rewrite (split_by_none p (month_name _)) by done.
  rewrite (split_by_app p (dec4 _)) by done. rewrite (split_by_none p (dec4 _)) by done.
  rewrite (split_by_app p (hms h mi s)) by done. rewrite (split_by_none p (hms h mi s)) by done.
  by rewrite (split_by_none p b#"GMT").
Qed.

Lemma split_imf_fixdate (p : ascii → bool) w x h mi s :
  (∀ c, is_ascii_digit c = true → p c = false) →
  p " "%char = true → p ","%char = true → p ":"%char = false →
  Forall (Forall (λ c, p c = false)) (b#"GMT" :: weekday_names ++ month_names) →
  valid_fields w x h mi s →
  split_by p (imf_fixdate w x h mi s) =
  [w; []; dec2 (day x); month_name (month x); dec4 (year x); hms h mi s; b#"GMT"].
Proof.
  intros Hdig Hsp Hco Hcol Hnames Hv. rewrite Forall_cons, Forall_app in Hnames.
  destruct Hnames as (Hg & Hwd & Hmo). rewrite Forall_forall in Hwd.
  rewrite imf_fixdate_tail, split_by_app, split_by_none; [|apply Hwd, Hv|done].
  by rewrite (split_imf_tail p w) by (done || by constructor).
Qed.
