(* ===== verification/Extern.v ===== *)
(** The vocabulary of the [http] crate the sources share - methods, status codes,
    versions and header names, which are lower-case strings - and interfaces to the
    third-party crates they call: [psl], [http] and [url].  Each is a class of operations with, where a proof relies on it, a
    class of laws that states documented behaviour.  Every theorem of the
    development that mentions one of these crates is proved against the class;
    [Module Sample] gives small concrete instances for the witnesses. *)
From S2P Require Import Prelude RustStr.

(** ** Methods, statuses, versions, names *)

(** A method is its name. *)
Definition Method : Type := str.
Definition GET : Method := b#"GET".
Definition HEAD : Method := b#"HEAD".
Definition POST : Method := b#"POST".
Definition PUT : Method := b#"PUT".
Definition DELETE : Method := b#"DELETE".
Definition OPTIONS : Method := b#"OPTIONS".
Definition TRACE : Method := b#"TRACE".

Definition StatusCode : Type := Z.
Definition MOVED_PERMANENTLY : StatusCode := 301%Z.
Definition FOUND : StatusCode := 302%Z.
Definition SEE_OTHER : StatusCode := 303%Z.
Definition NOT_MODIFIED : StatusCode := 304%Z.
Definition TEMPORARY_REDIRECT : StatusCode := 307%Z.
Definition PERMANENT_REDIRECT : StatusCode := 308%Z.
Definition TOO_MANY_REQUESTS : StatusCode := 429%Z.
Definition BAD_GATEWAY : StatusCode := 502%Z.
Definition SERVICE_UNAVAILABLE : StatusCode := 503%Z.
Definition GATEWAY_TIMEOUT : StatusCode := 504%Z.

Inductive Version := HTTP_09 | HTTP_10 | HTTP_11 | HTTP_2 | HTTP_3.

Definition AGE : str := b#"age".
Definition AUTHORIZATION : str := b#"authorization".
Definition CACHE_CONTROL : str := b#"cache-control".
Definition CONNECTION : str := b#"connection".
Definition CONTENT_LENGTH : str := b#"content-length".
Definition CONTENT_LOCATION : str := b#"content-location".
Definition CONTENT_TYPE : str := b#"content-type".
Definition COOKIE : str := b#"cookie".
Definition DATE : str := b#"date".
Definition ETAG : str := b#"etag".
Definition EXPIRES : str := b#"expires".
Definition HOST : str := b#"host".
Definition IF_MODIFIED_SINCE : str := b#"if-modified-since".
Definition IF_NONE_MATCH : str := b#"if-none-match".
Definition LAST_MODIFIED : str := b#"last-modified".
Definition LOCATION : str := b#"location".
Definition PRAGMA : str := b#"pragma".
Definition PROXY_AUTHORIZATION : str := b#"proxy-authorization".
Definition RANGE : str := b#"range".
Definition RETRY_AFTER : str := b#"retry-after".
Definition SET_COOKIE : str := b#"set-cookie".
Definition STRICT_TRANSPORT_SECURITY : str := b#"strict-transport-security".
Definition TRANSFER_ENCODING : str := b#"transfer-encoding".
Definition VARY : str := b#"vary".

(** ** The crates *)

(** [psl::domain_str]: the registrable domain (eTLD+1) of a name, when it has
    one.  [psl::domain] is the same query on bytes. *)
Class Psl := psl_domain : str → option str.

(** A visible ASCII byte or TAB: what [HeaderValue::to_str] accepts. *)
Definition visible_ascii (c : ascii) : bool := in_range 32 126 c || (code c =? 9)%Z.

(** [http::HeaderValue]: a value is its bytes.  [from_bytes] is also
    [from_maybe_shared]. *)
Class HeaderValueApi := {
  to_str : str → option str;
  from_str : str → option str;
  from_bytes : str → option str;
}.

Class HeaderValueLaws `{HeaderValueApi} := {
  to_str_Some v s : to_str v = Some s → s = v ∧ Forall (λ c, visible_ascii c = true) s;
  to_str_visible v : Forall (λ c, visible_ascii c = true) v → to_str v = Some v;
  from_str_visible s : Forall (λ c, visible_ascii c = true) s → from_str s = Some s;
  from_str_Some s v : from_str s = Some v → v = s;
  from_bytes_Some s v : from_bytes s = Some v → v = s;
}.

Lemma join_visible sep l :
  Forall (λ c, visible_ascii c = true) sep →
  Forall (Forall (λ c, visible_ascii c = true)) l →
  Forall (λ c, visible_ascii c = true) (join sep l).
Proof.
  intros Hsep. induction 1 as [|s l Hs Hl IH]; simpl; [constructor|].
  destruct l; [done|]. by rewrite !Forall_app.
Qed.

(** [http::HeaderMap], keyed by lower-case names.  [header_name] is
    [HeaderName::from_bytes] and [from_u64] is [HeaderValue::from] on a [u64].
    Growing a map past the crate's limit of 32,768 fields panics; that is not
    part of this interface. *)
Class HeaderMapApi := {
  HeaderMap : Type;
  hm_empty : HeaderMap;
  hm_get_all : HeaderMap → str → list str;
  hm_keys : HeaderMap → list str;
  hm_iter : HeaderMap → list (str * str);
  hm_insert : str → str → HeaderMap → HeaderMap;
  hm_append : str → str → HeaderMap → HeaderMap;
  hm_remove : str → HeaderMap → HeaderMap;
  header_name : str → option str;
  from_u64 : Z → str;
}.

(** [get] is the first value of a field, [contains_key] its presence. *)
Definition hm_get `{HeaderMapApi} (m : HeaderMap) (n : str) : option str := head (hm_get_all m n).
Definition hm_contains_key `{HeaderMapApi} (m : HeaderMap) (n : str) : bool :=
  bool_decide (hm_get_all m n ≠ []).

(** The bytes of a header name, upper case included. *)
Definition is_token (c : ascii) : bool :=
  is_ascii_digit c || in_range 65 90 c || in_range 97 122 c ||
  bool_decide (c ∈ b#"!#$%&'*+-.^_`|~").

Class HeaderMapLaws `{HeaderMapApi} := {
  get_all_empty n : hm_get_all hm_empty n = [];
  get_all_iter m n : (filter (λ kv, kv.1 = n) (hm_iter m)).*2 = hm_get_all m n;
  header_name_Some s n : header_name s = Some n → n = to_ascii_lowercase s;
  header_name_token s :
    s ≠ [] → Forall (λ c, is_token c = true) s → (zlen s <= 65535)%Z →
    header_name s = Some (to_ascii_lowercase s);
  get_all_insert m n v n' :
    hm_get_all (hm_insert n v m) n' = if decide (n = n') then [v] else hm_get_all m n';
  get_all_append m n v n' :
    hm_get_all (hm_append n v m) n' =
    if decide (n = n') then hm_get_all m n' ++ [v] else hm_get_all m n';
  get_all_remove m n n' :
    hm_get_all (hm_remove n m) n' = if decide (n = n') then [] else hm_get_all m n';
  elem_of_keys m n : n ∈ hm_keys m ↔ hm_get_all m n ≠ [];
  keys_NoDup m : NoDup (hm_keys m);
}.

(** The lines of one field, and what appending lines does to a map. *)
Definition lines_of (n : str) (l : list (str * str)) : list str := (filter (λ kv, kv.1 = n) l).*2.

Lemma lines_of_app n l k : lines_of n (l ++ k) = lines_of n l ++ lines_of n k.
Proof. unfold lines_of. by rewrite filter_app, fmap_app. Qed.

Lemma lines_of_cons n kv l :
  lines_of n (kv :: l) = (if decide (kv.1 = n) then [kv.2] else []) ++ lines_of n l.
Proof. unfold lines_of. rewrite filter_cons. by case_decide. Qed.

Lemma lines_of_pairs n m vs : lines_of n (pair m <$> vs) = if decide (m = n) then vs else [].
Proof.
  induction vs as [|v vs IH]; [by case_decide|].
  rewrite fmap_cons, lines_of_cons, IH. cbn [fst snd]. by case_decide.
Qed.

Lemma lines_of_none n l : n ∉ l.*1 → lines_of n l = [].
Proof.
  intros Hn. unfold lines_of. rewrite filter_none; [done|].
  apply Forall_forall. intros kv Hkv <-. apply Hn, list_elem_of_fmap. eauto.
Qed.

Lemma lines_of_filter_keep (P : str * str → Prop) `{∀ kv, Decision (P kv)} n l :
  (∀ kv, kv.1 = n → P kv) → lines_of n (filter P l) = lines_of n l.
Proof.
  intros HP. induction l as [|kv l IH]; [done|]. rewrite filter_cons, (lines_of_cons n kv l).
  case_decide as Hkv; [by rewrite lines_of_cons, IH|]. rewrite IH, decide_False; [done|auto].
Qed.

Lemma lines_of_filter_drop (P : str * str → Prop) `{∀ kv, Decision (P kv)} n l :
  (∀ kv, kv.1 = n → ¬ P kv) → lines_of n (filter P l) = [].
Proof.
  intros HP. apply lines_of_none. intros (kv & -> & [Hkv _]%list_elem_of_filter)%list_elem_of_fmap.
  by apply (HP kv).
Qed.

Section Lines.
Context `{HeaderMapLaws}.

Lemma get_all_append_all l h n :
  hm_get_all (foldl (λ h kv, hm_append kv.1 kv.2 h) h l) n = hm_get_all h n ++ lines_of n l.
Proof.
  revert h. induction l as [|kv l IH]; intros h; cbn [foldl]; [by rewrite app_nil_r|].
  rewrite IH, get_all_append, lines_of_cons. case_decide; [by rewrite <- app_assoc|done].
Qed.

Lemma get_all_append_values k vs h n :
  hm_get_all (foldl (λ h v, hm_append k v h) h vs) n = hm_get_all h n ++ if decide (k = n) then vs else [].
Proof.
  revert h. induction vs as [|v vs IH]; intros h; cbn [foldl]; [case_decide; by rewrite app_nil_r|].
  rewrite IH, get_all_append. case_decide; [by rewrite <- app_assoc|done].
Qed.
End Lines.

(** [url::Url]: the accessors the sources read.  [before_fragment] is the slice
    [url[..Position::AfterQuery]] and [same_origin] compares [Url::origin]. *)
Class UrlApi := {
  Url : Type;
  host_str : Url → option str;
  scheme : Url → str;
  port_or_known_default : Url → option Z;
  path : Url → str;
  before_fragment : Url → str;
  url_join : Url → str → option Url;
  same_origin : Url → Url → bool;
}.

(** The parts of [url::Url] that are edited.  [url_port] is [Url::port], absent
    where it is the scheme's default; [set_scheme] and [clear_port]
    ([set_port(None)]) are [None] where the crate refuses and leaves the URL as
    it was. *)
Class UrlEditApi `{UrlApi} := {
  url_port : Url → option Z;
  set_scheme : str → Url → option Url;
  clear_port : Url → option Url;
}.

(** [http::Uri], kept as the text it displays, and its passage to and from
    [url::Url]: [url_parse] is [Url::parse], [as_str] a URL's text, [uri_parse] a
    [Uri] parsed from text, and [uri_scheme] and [path_and_query] its parts. *)
Class UriApi `{UrlApi} := {
  url_parse : str → option Url;
  as_str : Url → str;
  uri_parse : str → option str;
  uri_scheme : str → option str;
  path_and_query : str → option str;
}.

(** [Url]'s query serializer: [query_pairs_mut] opens it, which by itself gives a URL
    without a query an empty one and takes the fragment away; [append_pair] writes
    one parameter; [drop_pairs] is its drop, which puts the fragment back. *)
Class QueryApi `{UrlApi} := {
  Pairs : Type;
  query_pairs_mut : Url → Pairs;
  append_pair : str → str → Pairs → Pairs;
  drop_pairs : Pairs → Url;
}.

Definition default_port (scheme : str) : option Z :=
  if decide (scheme = b#"http" ∨ scheme = b#"ws") then Some 80%Z
  else if decide (scheme = b#"https" ∨ scheme = b#"wss") then Some 443%Z else None.

(** Documented behaviour of the [http] to [https] rewrite: both are special
    schemes, so it is accepted for a URL with a host; it changes nothing else,
    and a port that is the new scheme's default is not kept. *)
Class UrlEditLaws `{UrlEditApi} := {
  set_scheme_https u h :
    scheme u = b#"http" → host_str u = Some h →
    ∃ u', set_scheme b#"https" u = Some u' ∧ scheme u' = b#"https" ∧ host_str u' = Some h ∧
      path u' = path u ∧
      url_port u' = if decide (url_port u = Some 443%Z) then None else url_port u;
  url_port_not_default u : ∀ p, url_port u = Some p → default_port (scheme u) ≠ Some p;
  known_default u h :
    host_str u = Some h → scheme u = b#"http" ∨ scheme u = b#"https" →
    port_or_known_default u = match url_port u with Some p => Some p | None => default_port (scheme u) end;
}.

(** ** Concrete instances *)

Module Sample.
(** Public suffixes [com] and [s3.aws.com]; every other name below them is
    registered one label up. *)
Definition labels (s : str) : list str := split_by (is_char "."%char) s.

Definition suffix_rules : list (list str) :=
  [ [b#"com"]; [b#"s3"; b#"aws"; b#"com"] ].

Definition last_labels (n : nat) (l : list str) : list str := drop (length l - n) l.

Definition suffix_length (l : list str) : nat :=
  foldr (λ r acc, if decide (last_labels (length r) l = r) then max (length r) acc else acc)
    1 suffix_rules.

#[export] Instance sample_psl : Psl := λ s,
  let l := labels s in
  let n := S (suffix_length l) in
  if decide (length l < n) then None
  else Some (join b#"." (last_labels n l)).

#[export] Instance sample_header_value : HeaderValueApi := {|
  to_str v := if forallb visible_ascii v then Some v else None;
  from_str s := if forallb visible_ascii s then Some s else None;
  from_bytes s := if forallb visible_ascii s then Some s else None;
|}.

#[export] Instance sample_header_value_laws : HeaderValueLaws.
Proof.
  split; simpl; intros *.
  - destruct (forallb visible_ascii v) eqn:E; [|done]. intros [= <-]. split; [done|].
    by apply forallb_Forall.
  - intros H%forallb_Forall. by rewrite H.
  - intros H%forallb_Forall. by rewrite H.
  - destruct (forallb visible_ascii s); naive_solver.
  - destruct (forallb visible_ascii s); naive_solver.
Qed.

Record url := mk_url { u_scheme : str; u_host : str; u_port : Z; u_path : str }.

(** The text of a URL with the default port, and back. *)
Definition url_text (u : url) : str := u_scheme u ++ b#"://" ++ u_host u ++ u_path u.

Definition parse_text (s : str) : option url :=
  '(sch, rest) ← find_str b#"://" s;
  port ← default_port sch;
  Some (match find_str b#"/" rest with
        | Some (host, path) => mk_url sch host port (b#"/" ++ path)
        | None => mk_url sch rest port b#"/"
        end).

#[export] Instance sample_url : UrlApi := {|
  Url := url;
  host_str u := Some (u_host u);
  scheme := u_scheme;
  port_or_known_default u := Some (u_port u);
  path := u_path;
  before_fragment := url_text;
  url_join u s :=
    if starts_with s b#"/" then Some (mk_url (u_scheme u) (u_host u) (u_port u) s) else parse_text s;
  same_origin u v :=
    bool_decide ((u_scheme u, u_host u, u_port u) = (u_scheme v, u_host v, u_port v));
|}.

#[export] Instance sample_uri : UriApi := {|
  url_parse := parse_text;
  as_str := url_text;
  uri_parse := Some;
  uri_scheme s := fst <$> find_str b#"://" s;
  path_and_query s := u_path <$> parse_text s;
|}.

(** No fragments here, so the serializer is the URL it has written so far. *)
Definition sample_with_path (f : str → str) (u : url) : url :=
  mk_url (u_scheme u) (u_host u) (u_port u) (f (u_path u)).

#[export] Instance sample_query : QueryApi := {|
  Pairs := url;
  query_pairs_mut := sample_with_path (λ p, match find_str b#"?" p with Some _ => p | None => p ++ b#"?" end);
  append_pair key value :=
    sample_with_path (λ p, p ++ (if ends_with p b#"?" then [] else b#"&") ++ key ++ b#"=" ++ value);
  drop_pairs u := u;
|}.

Definition sample_port (u : url) : option Z :=
  if decide (default_port (u_scheme u) = Some (u_port u)) then None else Some (u_port u).

#[export] Instance sample_url_edit : UrlEditApi := {|
  url_port := sample_port;
  set_scheme s u :=
    Some (mk_url s (u_host u)
            (match sample_port u with Some p => p | None => default 0%Z (default_port s) end)
            (u_path u));
  clear_port u := Some (mk_url (u_scheme u) (u_host u) (default 0%Z (default_port (u_scheme u))) (u_path u));
|}.

#[export] Instance sample_url_edit_laws : UrlEditLaws.
Proof.
  split; simpl.
  - intros [sch hst p pth] h Hs [= <-]. simpl in Hs. subst sch. eexists. split; [done|]. simpl. repeat (split; [done|]).
    unfold sample_port. simpl. change (default_port b#"http") with (Some 80%Z).
    change (default_port b#"https") with (Some 443%Z). simpl.
    destruct (decide (Some 80%Z = Some p)) as [[= <-]|Hp]; [done|].
    repeat case_decide; naive_solver.
  - intros [sch hst p pth] q. unfold sample_port. simpl. case_decide; naive_solver.
  - intros [sch hst p pth] h _ Hs. unfold sample_port. simpl. case_decide; naive_solver.
Qed.

(** Header fields as the list of their lines. *)
Definition fields : Type := list (str * str).

Definition others (n : str) (m : fields) : fields := filter (λ kv, kv.1 ≠ n) m.

#[export] Instance sample_header_map : HeaderMapApi := {|
  HeaderMap := fields;
  hm_empty := [];
  hm_get_all m n := snd <$> filter (λ kv, kv.1 = n) m;
  hm_keys m := remove_dups (fst <$> m);
  hm_iter m := m;
  hm_insert n v m := others n m ++ [(n, v)];
  hm_append n v m := m ++ [(n, v)];
  hm_remove n m := others n m;
  header_name s := if decide (s = []) then None else Some (to_ascii_lowercase s);
  from_u64 := show_digits 20;
|}.

Lemma values_others n n' m :
  snd <$> filter (λ kv, kv.1 = n') (others n m) =
  if decide (n = n') then [] else snd <$> filter (λ kv, kv.1 = n') m.
Proof.
  unfold others, fields. induction m as [|[k v] m IH]; [by case_decide|].
  rewrite !filter_cons. cbn [fst]. destruct (decide (k ≠ n)) as [Hk|Hk].
  - rewrite filter_cons. cbn [fst]. destruct (decide (k = n')) as [->|Hn']; [|done].
    rewrite !fmap_cons, IH. by rewrite !decide_False by auto.
  - apply dec_stable in Hk as ->. rewrite IH. by repeat case_decide.
Qed.

#[export] Instance sample_header_map_laws : HeaderMapLaws.
Proof.
  split; simpl; unfold fields; intros *.
  - done.
  - done.
  - case_decide; naive_solver.
  - intros Hs _ _. by rewrite decide_False.
  - rewrite filter_app, fmap_app, values_others. rewrite filter_cons. cbn [fst].
    repeat case_decide; try done. by rewrite app_nil_r.
  - rewrite filter_app, fmap_app, filter_cons. cbn [fst].
    repeat case_decide; try done. by rewrite app_nil_r.
  - apply values_others.
  - rewrite elem_of_remove_dups, list_elem_of_fmap. split.
    + intros (kv & -> & Hkv) Hnil. apply fmap_nil_inv in Hnil.
      assert (Hin : kv ∈ filter (λ x, x.1 = kv.1) m) by (by apply list_elem_of_filter).
      rewrite Hnil in Hin. by apply elem_of_nil in Hin.
    + intros Hne. destruct (filter (λ kv, kv.1 = n) m) as [|kv l] eqn:Hf; [done|].
      assert (Hin : kv ∈ filter (λ kv, kv.1 = n) m) by (rewrite Hf; by left).
      apply list_elem_of_filter in Hin as [? ?]. by exists kv.
  - apply NoDup_remove_dups.
Qed.

Example psl_registrable : psl_domain b#"api.example.com" = Some b#"example.com".
Proof. vm_compute. reflexivity. Qed.
Example psl_suffix : psl_domain b#"com" = None.
Proof. vm_compute. reflexivity. Qed.
Example psl_private : psl_domain b#"b.s3.aws.com" = Some b#"b.s3.aws.com".
Proof. vm_compute. reflexivity. Qed.
End Sample.
