(* ===== verification/Body.v ===== *)
(** [chromulate-core]: the body type of requests and responses
    (src/crates/chromulate-core/src/body.rs).

    A boxed stream is the list of what its polls will answer: [Pending], a chunk
    or an error; past the end of the list it is exhausted and every poll answers
    [None].  An [async] read that meets [Pending] resumes at the next event. *)
From S2P Require Import Prelude.
Local Open Scope Z_scope.

Definition bytes : Type := str.

(** [chromulate_core::Error], as far as bodies produce it. *)
Inductive BodyError := BodyTooLarge (limit : Z) | Transport (message : str).

Inductive StreamEvent := SPending | SChunk (chunk : bytes) | SError (error : BodyError).

Inductive Poll (A : Type) := Pending | Ready (a : A).
Arguments Pending {A}.
Arguments Ready {A} a.

Definition ChunkStream : Type := list StreamEvent.

(** [Stream::poll_next] of the boxed stream. *)
Definition stream_poll_next (s : ChunkStream) : Poll (option (bytes + BodyError)) * ChunkStream :=
  match s with
  | [] => (Ready None, [])
  | SPending :: s => (Pending, s)
  | SChunk chunk :: s => (Ready (Some (inl chunk)), s)
  | SError error :: s => (Ready (Some (inr error)), s)
  end.

Inductive Body :=
  | Empty
  | Fixed (chunk : option bytes)
  | Stream (stream : ChunkStream) (length : option Z).

Definition empty_body : Body := Empty.

Definition fixed (b : bytes) : Body := if decide (b = []) then Empty else Fixed (Some b).

Definition is_empty (b : Body) : bool :=
  match b with
  | Empty => true
  | Fixed None => true
  | Fixed (Some chunk) => bool_decide (chunk = [])
  | Stream _ _ => false
  end.

Definition content_length (b : Body) : option Z :=
  match b with
  | Empty => Some 0
  | Fixed chunk => Some (match chunk with Some b => zlen b | None => 0 end)
  | Stream _ length => length
  end.

Definition try_clone (b : Body) : option Body :=
  match b with
  | Empty => Some Empty
  | Fixed chunk => (λ bytes, Fixed (Some bytes)) <$> chunk
  | Stream _ _ => None
  end.

(** The loop of [collect] over a stream; the running total is a [u64]. *)
Fixpoint collect_stream (s : ChunkStream) (limit total : Z) (buf : bytes) : bytes + BodyError :=
  match s with
  | [] => inl buf
  | SPending :: s => collect_stream s limit total buf
  | SError error :: _ => inr error
  | SChunk chunk :: s =>
      let total := total + zlen chunk in
      if limit <? total then inr (BodyTooLarge limit)
      else collect_stream s limit total (buf ++ chunk)
  end.

Definition collect (b : Body) (limit : Z) : bytes + BodyError :=
  match b with
  | Empty => inl []
  | Fixed chunk =>
      let b := default [] chunk in
      if limit <? zlen b then inr (BodyTooLarge limit) else inl b
  | Stream s _ => collect_stream s limit 0 []
  end.

Inductive Frame := Data (chunk : bytes) | Trailers.

Definition poll_frame (b : Body) : Poll (option (Frame + BodyError)) * Body :=
  match b with
  | Empty => (Ready None, Empty)
  | Fixed chunk => (Ready ((λ c, inl (Data c)) <$> chunk), Fixed None)
  | Stream s length =>
      let '(answer, s) := stream_poll_next s in
      (match answer with
       | Pending => Pending
       | Ready None => Ready None
       | Ready (Some (inl chunk)) => Ready (Some (inl (Data chunk)))
       | Ready (Some (inr error)) => Ready (Some (inr error))
       end, Stream s length)
  end.

Definition is_end_stream (b : Body) : bool :=
  match b with
  | Empty => true
  | Fixed chunk => bool_decide (chunk = None)
  | Stream _ _ => false
  end.

(** [size_hint().exact()]. *)
Definition size_hint_exact (b : Body) : option Z := content_length b.

(** ** What a body says *)

(** The chunks a reader sees before the body ends or fails. *)
Fixpoint stream_chunks (s : ChunkStream) : list bytes :=
  match s with
  | SChunk chunk :: s => chunk :: stream_chunks s
  | SPending :: s => stream_chunks s
  | _ => []
  end.

Fixpoint stream_error (s : ChunkStream) : option BodyError :=
  match s with
  | [] => None
  | SError e :: _ => Some e
  | _ :: s => stream_error s
  end.

Definition chunks (b : Body) : list bytes :=
  match b with
  | Empty => []
  | Fixed chunk => match chunk with Some c => [c] | None => [] end
  | Stream s _ => stream_chunks s
  end.

Definition body_error (b : Body) : option BodyError :=
  match b with Stream s _ => stream_error s | _ => None end.

(** How many polls are left in a body before it ends. *)
Definition polls_left (b : Body) : nat :=
  match b with
  | Empty => 0
  | Fixed None => 0
  | Fixed (Some _) => 1
  | Stream s _ => length s
  end.

(** No poll of a body answers a trailers frame. *)
Lemma poll_frame_no_trailers b : (poll_frame b).1 ≠ Ready (Some (inl Trailers)).
Proof. by destruct b as [|[]|[|[] ?] ?]. Qed.

(** One poll takes one event off a body. *)
Lemma poll_frame_spec b :
  let '(answer, b') := poll_frame b in
  match answer with
  | Pending => chunks b' = chunks b ∧ body_error b' = body_error b ∧ (polls_left b' < polls_left b)%nat
  | Ready None => chunks b = [] ∧ body_error b = None
  | Ready (Some (inl Trailers)) => False
  | Ready (Some (inl (Data c))) =>
      chunks b = c :: chunks b' ∧ body_error b' = body_error b ∧ (polls_left b' < polls_left b)%nat
  | Ready (Some (inr e)) =>
      chunks b = [] ∧ body_error b = Some e ∧ (polls_left b' < polls_left b)%nat
  end.
Proof. destruct b as [|[]|[|[] ?] ?]; simpl; auto with lia. Qed.

(** The loop of [collect], in one equation. *)
Lemma collect_stream_spec s limit total buf :
  total <= limit →
  match collect_stream s limit total buf with
  | inl out => out = buf ++ mjoin (stream_chunks s) ∧ stream_error s = None ∧
               total + zlen (mjoin (stream_chunks s)) <= limit
  | inr e => stream_error s = Some e ∨
             (e = BodyTooLarge limit ∧ limit < total + zlen (mjoin (stream_chunks s)))
  end.
Proof.
  revert total buf. induction s as [|[|c|e] s IH]; intros total buf Hle; simpl.
  - rewrite app_nil_r. unfold zlen. simpl. split_and!; [done..|lia].
  - by apply IH.
  - destruct (limit <? total + zlen c) eqn:E; bool_prop.
    + right. split; [done|]. rewrite zlen_app. pose proof (zlen_nonneg (mjoin (stream_chunks s))). lia.
    + specialize (IH (total + zlen c) (buf ++ c) E). rewrite zlen_app.
      destruct (collect_stream _ _ _ _); [|intuition lia].
      destruct IH as (-> & ? & ?). split_and!; [by rewrite <- app_assoc|done|lia].
  - by left.
Qed.

(** Collecting a body gives exactly the concatenation of its chunks when the
    body ends without an error and fits the limit, and an error otherwise - the
    body's own, or [BodyTooLarge] only when the bytes really exceed the limit.
    No more than [limit] bytes are ever returned. *)
Theorem collect_exact b limit :
  0 <= limit →
  match collect b limit with
  | inl out => out = mjoin (chunks b) ∧ body_error b = None ∧ zlen out <= limit
  | inr e => body_error b = Some e ∨ (e = BodyTooLarge limit ∧ limit < zlen (mjoin (chunks b)))
  end.
Proof.
  intros Hl. destruct b as [|[c|]|s len]; simpl.
  - split_and!; [done..|unfold zlen; simpl; lia].
  - rewrite app_nil_r. destruct (limit <? zlen c) eqn:E; bool_prop; [by right|done].
  - destruct (limit <? zlen []) eqn:E; bool_prop; [unfold zlen in E; simpl in E; lia|done].
  - pose proof (collect_stream_spec s limit 0 [] Hl) as Hc.
    destruct (collect_stream _ _ _ _) as [out|e]; [|intuition lia].
    destruct Hc as (-> & ? & ?). simpl. done.
Qed.

Lemma collect_exact_witness :
  collect (Stream [SChunk b#"chro"; SPending; SChunk b#"mulate"] None) 10 = inl b#"chromulate" ∧
  zlen b#"chromulate" <= 10.
Proof.
  split; [reflexivity|].
  pose proof (collect_exact (Stream [SChunk b#"chro"; SPending; SChunk b#"mulate"] None) 10) as H.
  apply H. lia.
Defined.

(** A body that can be cloned for a retry carries the same bytes as its
    clone; a stream, and a fixed body whose chunk is already on the wire, cannot
    be cloned, so a retry never silently sends an empty payload. *)
Lemma try_clone_same_bytes b :
  match try_clone b with
  | Some b' => b' = b ∧ is_end_stream b' = is_end_stream b ∧ ∀ limit, collect b' limit = collect b limit
  | None => (∃ s len, b = Stream s len) ∨ (b = Fixed None ∧ is_end_stream b = true)
  end.
Proof. destruct b as [|[c|]|s len]; simpl; eauto. Qed.
