(* ===== verification/EarlyStop.v ===== *)
(** [chromulate-http]: reading the front of a body
    (src/crates/chromulate-http/src/body.rs, the [early-stop] feature), with the
    polling every body wrapper of that file shares and the deadline wrapper.

    A predicate is caller's code that may keep state: [P] is that state and [call]
    one evaluation.  Buffer capacities are left out: nothing reads them. *)
From S2P Require Import Prelude RustStr Body.
Local Open Scope Z_scope.

(** ** Polling *)

(** [poll_data]; only a trailers frame makes it loop. *)
Fixpoint poll_data (fuel : nat) (b : Body) : option (Poll (option (bytes + BodyError)) * Body) :=
  match fuel with
  | O => None
  | S fuel =>
      let '(answer, b) := poll_frame b in
      match answer with
      | Ready (Some (inl (Data chunk))) => Some (Ready (Some (inl chunk)), b)
      | Ready (Some (inl Trailers)) => poll_data fuel b
      | Ready (Some (inr error)) => Some (Ready (Some (inr error)), b)
      | Ready None => Some (Ready None, b)
      | Pending => Some (Pending, b)
      end
  end.

(** [poll_fn(|cx| poll_data(body, cx)).await]: a pending body is polled again. *)
Fixpoint next_data (fuel : nat) (b : Body) : option (option (bytes + BodyError) * Body) :=
  match fuel with
  | O => None
  | S fuel =>
      match poll_data (S fuel) b with
      | None => None
      | Some (Pending, b) => next_data fuel b
      | Some (Ready answer, b) => Some (answer, b)
      end
  end.

(** [BoundedStream::poll_next], where [due] says whether the timer has fired; the
    error is [Error::Timeout(Phase::ReceiveBody)]. *)
Record Bounded := mk_bounded { bd_inner : Body; bd_expired : bool }.
Inductive BoundedError := TimedOut | Inner (error : BodyError).

Definition bounded_poll (due : bool) (b : Bounded) : option (Poll (option (bytes + BoundedError)) * Bounded) :=
  if bd_expired b then Some (Ready None, b)
  else if due then Some (Ready (Some (inr TimedOut)), mk_bounded (bd_inner b) true)
  else
    '(answer, inner) ← poll_data 1 (bd_inner b);
    Some (match answer with
          | Pending => Pending
          | Ready None => Ready None
          | Ready (Some (inl chunk)) => Ready (Some (inl chunk))
          | Ready (Some (inr error)) => Ready (Some (inr (Inner error)))
          end, mk_bounded inner false).

(** ** Searching *)

(** The loop of [find]: [last_start] is the last place the needle fits. *)
Fixpoint find_loop (fuel : nat) (haystack : bytes) (first : ascii) (rest : bytes) (last_start at_ : nat)
    : option (option nat) :=
  match fuel with
  | O => None
  | S fuel =>
      if decide (at_ ≤ last_start)%nat then
        match find_by (is_char first) (drop at_ (take (S last_start) haystack)) with
        | None => Some None
        | Some offset =>
            let start := (at_ + offset)%nat in
            if decide (take (length rest) (drop (S start) haystack) = rest) then Some (Some start)
            else find_loop fuel haystack first rest last_start (S start)
        end
      else Some None
  end.

Definition find (haystack needle : bytes) : option (option nat) :=
  match needle with
  | [] => Some (Some 0%nat)
  | first :: rest =>
      if decide (length needle ≤ length haystack)%nat then
        find_loop (S (length haystack)) haystack first rest (length haystack - length needle) 0
      else Some None
  end.

(** ** [Stop] *)

Inductive StopReason := EndOfBody | Matched | Budget.

Record Prefix := mk_prefix { pf_bytes : bytes; pf_reason : StopReason; pf_complete : bool }.

(** [Prefix::matched] and [Prefix::is_complete]. *)
Definition matched (p : Prefix) : bool := match pf_reason p with Matched => true | _ => false end.
Definition is_complete (p : Prefix) : bool := pf_complete p.

Definition cut (buf : bytes) (length_ : Z) : bytes := take (Nat.min (Z.to_nat length_) (length buf)) buf.

Section Stop.
Context {P : Type} (call : P → bytes → bool * P).

Inductive Condition := Marker (marker : bytes) | Predicate (predicate : P).

Record Stop := mk_stop { condition : option Condition; extra : Z; budget : option Z }.

Definition with_condition (c : option Condition) : Stop := mk_stop c 0 None.
Definition marker (m : bytes) : Stop := with_condition (Some (Marker m)).
Definition when_ (p : P) : Stop := with_condition (Some (Predicate p)).
Definition plus (s : Stop) (n : Z) : Stop := mk_stop (condition s) n (budget s).
Definition within (s : Stop) (n : Z) : Stop := mk_stop (condition s) (extra s) (Some n).
Definition after (n : Z) : Stop := within (with_condition None) n.

(** [match_point]: the end of the match, and the condition as it is afterwards. *)
Definition match_point (c : option Condition) (buf : bytes) (previous : nat)
    : option (option nat) * option Condition :=
  match c with
  | None => (Some None, None)
  | Some (Marker m) =>
      let from := (previous - (length m - 1))%nat in
      (option_map (option_map (λ at_, (from + at_ + length m)%nat)) (find (drop from buf) m), Some (Marker m))
  | Some (Predicate p) =>
      let '(holds, p) := call p buf in
      (Some (if holds then Some (length buf) else None), Some (Predicate p))
  end.

Fixpoint read_loop (fuel : nat) (c : option Condition) (extra_ budget_ : Z) (body : Body) (buf : bytes)
    (target : option Z) : option (Prefix + BodyError) :=
  match fuel with
  | O => None
  | S fuel =>
      let reached := match target with Some t => t <=? zlen buf | None => false end in
      if reached then Some (inl (mk_prefix (cut buf (default 0 target)) Matched false))
      else if budget_ <=? zlen buf then Some (inl (mk_prefix (cut buf budget_) Budget false))
      else
        match next_data (S (polls_left body)) body with
        | None => None
        | Some (None, _) =>
            Some (inl (mk_prefix buf (match target with Some _ => Matched | None => EndOfBody end) true))
        | Some (Some (inr error), _) => Some (inr error)
        | Some (Some (inl chunk), body) =>
            let previous := length buf in
            let buf := buf ++ chunk in
            match target with
            | Some t => read_loop fuel c extra_ budget_ body buf (Some t)
            | None =>
                let '(point, c) := match_point c buf previous in
                point ← point;
                let target :=
                  match point with
                  | Some point =>
                      let point := Z.of_nat point in
                      if point <=? budget_ then Some (Z.min (saturating_add point extra_) budget_) else None
                  | None => None
                  end in
                read_loop fuel c extra_ budget_ body buf target
            end
        end
  end.

(** [Stop::read]. *)
Definition read (s : Stop) (body : Body) : option (Prefix + BodyError) :=
  read_loop (S (polls_left body)) (condition s) (extra s) (default u64_max (budget s)) body [] None.

End Stop.

(** ** What polling a body answers *)

Lemma poll_data_spec fuel b :
  poll_data (S fuel) b =
    Some (match (poll_frame b).1 with
          | Pending => Pending
          | Ready (Some (inl (Data chunk))) => Ready (Some (inl chunk))
          | Ready (Some (inr error)) => Ready (Some (inr error))
          | _ => Ready None
          end, (poll_frame b).2).
Proof.
  pose proof (poll_frame_no_trailers b) as Hnt. cbn [poll_data].
  destruct (poll_frame b) as [[|[[[chunk|]|error]|]] b']; simpl in *; done.
Qed.

(** The next chunk a reader is given, with what is left of the body; with fuel for
    every poll left one is always found. *)
Lemma next_data_spec fuel b :
  (polls_left b < fuel)%nat →
  ∃ answer b', next_data fuel b = Some (answer, b') ∧
    match answer with
    | Some (inl chunk) => chunks b = chunk :: chunks b' ∧ body_error b = body_error b' ∧ (polls_left b' < polls_left b)%nat
    | Some (inr error) => chunks b = [] ∧ body_error b = Some error
    | None => chunks b = [] ∧ body_error b = None
    end.
Proof.
  revert b. induction fuel as [|fuel IH]; intros b Hf; [lia|]. cbn [next_data]. rewrite poll_data_spec.
  pose proof (poll_frame_spec b) as Hp.
  destruct (poll_frame b) as [[|[[[chunk|]|error]|]] b']; simpl in *.
  - destruct Hp as (Hc & He & Hl). destruct (IH b') as (answer & b2 & Hn & Ha); [lia|].
    exists answer, b2. split; [done|]. destruct answer as [[chunk|error]|]; rewrite <- Hc, <- He; [|done..].
    destruct Ha as (? & ? & ?). split; [done|]. split; [done|lia].
  - destruct Hp as (? & ? & ?). by exists (Some (inl chunk)), b'.
  - done.
  - destruct Hp as (? & ? & ?). by exists (Some (inr error)), b'.
  - by exists None, b'.
Qed.

(** ** What searching finds *)

(** The reference: the first position at which the needle is a prefix. *)
Fixpoint first_at (needle haystack : bytes) : option nat :=
  if decide (needle `prefix_of` haystack) then Some 0%nat
  else match haystack with [] => None | _ :: haystack => S <$> first_at needle haystack end.

Lemma first_at_Some m s i :
  first_at m s = Some i ↔ m `prefix_of` drop i s ∧ (i ≤ length s)%nat ∧ ∀ j, (j < i)%nat → ¬ m `prefix_of` drop j s.
Proof.
  revert i. induction s as [|c s IH]; intros i; cbn [first_at]; case_decide as Hm.
  - split; [intros [= <-]; split; [done|]; split; [done|lia]|]. intros (_ & Hl & _). simpl in Hl. f_equal. lia.
  - split; [done|]. intros (Hp & Hl & _). simpl in Hl. assert (i = 0%nat) as -> by lia. done.
  - split; [intros [= <-]; split; [done|]; split; [lia|lia]|]. intros (_ & _ & Hmin).
    destruct i as [|i]; [done|]. by destruct (Hmin 0%nat); [lia|].
  - rewrite fmap_Some. split.
    + intros (j & (Hp & Hl & Hmin)%IH & ->). simpl. split; [done|]. split; [lia|].
      intros [|k] Hk; [done|]. apply Hmin. lia.
    + intros (Hp & Hl & Hmin). destruct i as [|i]; [done|]. exists i. split; [|done]. apply IH.
      simpl in Hl. split; [done|]. split; [lia|]. intros j Hj. apply (Hmin (S j)). lia.
Qed.

Lemma first_at_None m s : first_at m s = None ↔ ∀ j, (j ≤ length s)%nat → ¬ m `prefix_of` drop j s.
Proof.
  split.
  - intros Hn j Hl Hp. revert j Hl Hp. induction s as [|c s IH]; intros j Hl Hp; cbn [first_at] in Hn;
      case_decide as Hm; try done.
    + by destruct j.
    + apply fmap_None in Hn. destruct j as [|j]; [done|]. apply (IH Hn j); [simpl in Hl; lia|done].
  - intros Hall. destruct (first_at m s) as [i|] eqn:Hi; [|done].
    apply first_at_Some in Hi as (Hp & Hl & _). by destruct (Hall i).
Qed.

Lemma prefix_drop_length (m s : bytes) i : m ≠ [] → m `prefix_of` drop i s → (i + length m ≤ length s)%nat.
Proof.
  intros Hm Hp. pose proof (prefix_length _ _ Hp) as Hl. rewrite length_drop in Hl. destruct m; [done|simpl in *; lia].
Qed.

(** A prefix of the data decides what is found in it, unless the end of a match
    lies beyond. *)
Lemma first_at_app_Some m s t i : m ≠ [] → first_at m s = Some i → first_at m (s ++ t) = Some i.
Proof.
  intros Hm (Hp & Hl & Hmin)%first_at_Some. apply first_at_Some. pose proof (prefix_drop_length m s i Hm Hp).
  split; [|split].
  - rewrite drop_app_le by lia. by apply prefix_app_r.
  - rewrite length_app. lia.
  - intros j Hj Hpj. apply (Hmin j Hj). rewrite drop_app_le in Hpj by lia.
    apply (prefix_weak_total m (drop j s) (drop j s ++ t)) in Hpj as [?|Hlong]; [done| |by apply prefix_app_r].
    pose proof (prefix_length _ _ Hlong) as Hlen. rewrite length_drop in Hlen.
    assert (length m ≤ length (drop j s))%nat as Hle by (rewrite length_drop; lia).
    rewrite length_drop in Hle. apply prefix_length_eq in Hlong; [by rewrite Hlong|by rewrite length_drop].
Qed.

Lemma first_at_app_late m s t i :
  m ≠ [] → first_at m s = None → first_at m (s ++ t) = Some i → (length s < i + length m)%nat.
Proof.
  intros Hm Hn (Hp & Hl & _)%first_at_Some. rewrite first_at_None in Hn.
  destruct (decide (i + length m ≤ length s)%nat) as [Hle|]; [|lia]. exfalso. apply (Hn i); [lia|].
  rewrite drop_app_le in Hp by lia. destruct Hp as [k Hk]. exists (take (length s - i - length m) k).
  apply (f_equal (take (length s - i))) in Hk. rewrite take_app_le, take_ge in Hk by (rewrite length_drop; lia).
  rewrite take_app_ge in Hk by lia. done.
Qed.

Lemma prefix_take_eq (m s : bytes) : m `prefix_of` s ↔ take (length m) s = m.
Proof.
  split; [intros [k ->]; by rewrite take_app_length|]. intros H. exists (drop (length m) s).
  by rewrite <- H at 1; rewrite take_drop.
Qed.

Lemma prefix_cons_at first rest (s : bytes) j :
  first :: rest `prefix_of` drop j s ↔ s !! j = Some first ∧ rest `prefix_of` drop (S j) s.
Proof.
  split.
  - intros [k Hk]. assert (Hj : s !! j = Some first).
    { pose proof (lookup_drop s j 0) as Hl. rewrite Nat.add_0_r in Hl. transitivity (drop j s !! 0%nat); [done|by rewrite Hk]. }
    split; [done|]. rewrite (drop_S _ _ _ Hj) in Hk. simpl in Hk. injection Hk as Hk. by exists k.
  - intros (Hj & [k Hk]). rewrite (drop_S _ _ _ Hj), Hk. by exists k.
Qed.

Lemma find_loop_spec fuel s first rest at_ :
  (length (first :: rest) ≤ length s)%nat →
  (at_ ≤ S (length s - length (first :: rest)) < at_ + fuel)%nat →
  (∀ j, (j < at_)%nat → ¬ first :: rest `prefix_of` drop j s) →
  find_loop fuel s first rest (length s - length (first :: rest)) at_ = Some (first_at (first :: rest) s).
Proof.
  intros Hfit. set (last := (length s - length (first :: rest))%nat) in *. revert at_.
  induction fuel as [|fuel IH]; intros at_ Hfuel Hmin; cbn [find_loop].
  { lia. }
  case_decide as Hat.
  2:{ f_equal. symmetry. apply first_at_None. intros j Hj Hp. apply (Hmin j); [|done].
      apply prefix_drop_length in Hp; [unfold last in *; simpl in *; lia|done]. }
  assert (Hrange : ∀ k, (at_ + k ≤ last)%nat → drop at_ (take (S last) s) !! k = s !! (at_ + k)%nat)
    by (intros k Hk; rewrite lookup_drop, lookup_take_lt; [done|lia]).
  destruct (find_by _ _) as [offset|] eqn:Hf.
  - apply find_by_Some in Hf as (c & Hc & Hfirst & Hbefore). unfold is_char in Hfirst.
    apply bool_decide_eq_true in Hfirst as ->.
    assert (Hlen : (at_ + offset ≤ last)%nat).
    { apply lookup_lt_Some in Hc. rewrite length_drop, length_take in Hc. lia. }
    rewrite Hrange in Hc by done.
    assert (Hmin' : ∀ j, (j < at_ + offset)%nat → ¬ first :: rest `prefix_of` drop j s).
    { intros j Hj Hp. destruct (decide (j < at_)%nat) as [|Hge]; [by apply (Hmin j)|].
      apply prefix_cons_at in Hp as [Hp _]. rewrite Forall_lookup in Hbefore.
      specialize (Hbefore (j - at_)%nat first). rewrite lookup_take_lt, Hrange in Hbefore by lia.
      replace (at_ + (j - at_))%nat with j in Hbefore by lia. specialize (Hbefore Hp).
      unfold is_char in Hbefore. by apply bool_decide_eq_false in Hbefore. }
    case_decide as Hrest.
    + f_equal. symmetry. apply first_at_Some. split; [|split; [|done]].
      * apply prefix_cons_at. split; [done|]. by apply prefix_take_eq.
      * apply lookup_lt_Some in Hc. lia.
    + apply IH; [lia|]. intros j Hj. destruct (decide (j = (at_ + offset)%nat)) as [->|]; [|apply Hmin'; lia].
      intros [_ Hp]%prefix_cons_at. by apply prefix_take_eq in Hp.
  - apply find_by_None in Hf. f_equal. symmetry. apply first_at_None. intros j Hj Hp.
    pose proof (prefix_drop_length (first :: rest) s j (λ H, ltac:(discriminate H)) Hp) as Hjl.
    destruct (decide (j < at_)%nat) as [|Hge]; [by apply (Hmin j)|].
    apply prefix_cons_at in Hp as [Hp _]. rewrite Forall_lookup in Hf.
    specialize (Hf (j - at_)%nat first). rewrite Hrange in Hf by (unfold last; lia).
    replace (at_ + (j - at_))%nat with j in Hf by lia. specialize (Hf Hp).
    unfold is_char in Hf. by apply bool_decide_eq_false in Hf.
Qed.

Lemma find_exact s m : find s m = Some (first_at m s).
Proof.
  destruct m as [|first rest]; [|unfold find; case_decide as Hfit].
  - unfold find. by destruct s; cbn [first_at]; rewrite decide_True by apply prefix_nil.
  - apply find_loop_spec; [done|simpl in *; lia|lia].
  - f_equal. symmetry. apply first_at_None. intros j Hj Hp. apply prefix_drop_length in Hp; [lia|done].
Qed.

Lemma first_at_skip m s n :
  (n ≤ length s)%nat → (∀ j, (j < n)%nat → ¬ m `prefix_of` drop j s) →
  first_at m s = (λ i, n + i)%nat <$> first_at m (drop n s).
Proof.
  intros Hn Hmin. destruct (first_at m (drop n s)) as [i|] eqn:Hi; simpl.
  - apply first_at_Some in Hi as (Hp & Hl & Hm). rewrite drop_drop, length_drop in *.
    apply first_at_Some. split; [done|]. split; [lia|]. intros j Hj Hpj.
    destruct (decide (j < n)%nat); [by apply (Hmin j)|]. apply (Hm (j - n)%nat); [lia|].
    rewrite drop_drop. by replace (n + (j - n))%nat with j by lia.
  - apply first_at_None. rewrite first_at_None in Hi. intros j Hj Hp.
    destruct (decide (j < n)%nat); [by apply (Hmin j)|]. apply (Hi (j - n)%nat); [rewrite length_drop; lia|].
    rewrite drop_drop. by replace (n + (j - n))%nat with j by lia.
Qed.

(** The rescan after a chunk starts just early enough to see every match the chunk
    completes. *)
Lemma match_point_marker {P} (call : P → bytes → bool * P) m buf chunk :
  m ≠ [] → first_at m buf = None →
  match_point call (Some (Marker m)) (buf ++ chunk) (length buf) =
    (Some ((λ i, i + length m)%nat <$> first_at m (buf ++ chunk)), Some (Marker m)).
Proof.
  intros Hm Hn. cbn [match_point]. rewrite find_exact. cbn [option_map]. do 2 f_equal.
  set (from := (length buf - (length m - 1))%nat).
  rewrite (first_at_skip m (buf ++ chunk) from); [by destruct (first_at m (drop from (buf ++ chunk)))|..].
  - rewrite length_app. lia.
  - intros j Hj Hp. rewrite first_at_None in Hn. apply (Hn j); [lia|].
    rewrite drop_app_le in Hp by lia. destruct Hp as [k Hk]. exists (take (length buf - j - length m) k).
    apply (f_equal (take (length buf - j))) in Hk. rewrite take_app_le, take_ge in Hk by (rewrite length_drop; lia).
    assert (length m ≠ 0)%nat by (by destruct m). rewrite take_app_ge in Hk by lia. done.
Qed.

(** ** What [read] returns *)

(** A read that has to reach [t] bytes: the first [t], or all there is. *)
Definition reach (t : Z) (short : StopReason) (full : StopReason) (data : bytes) (error : option BodyError)
    : Prefix + BodyError :=
  if t <=? zlen data then inl (mk_prefix (take (Z.to_nat t) data) full false)
  else match error with
       | Some e => inr e
       | None => inl (mk_prefix data short true)
       end.

(** The specification of a marker read, on the whole of what the body would give. *)
Definition stop_spec (m : bytes) (extra_ budget_ : Z) (data : bytes) (error : option BodyError) : Prefix + BodyError :=
  match (λ i, Z.of_nat (i + length m)) <$> first_at m data with
  | Some point =>
      if point <=? budget_ then
        reach (Z.min (saturating_add point extra_) budget_) Matched Matched data error
      else reach budget_ EndOfBody Budget data error
  | None => reach budget_ EndOfBody Budget data error
  end.

Lemma cut_take buf t : cut buf t = take (Z.to_nat t) buf.
Proof.
  unfold cut. destruct (decide (Z.to_nat t ≤ length buf)%nat); [by rewrite Nat.min_l by lia|].
  rewrite Nat.min_r by lia. by rewrite !take_ge by lia.
Qed.

Lemma zlen_app_ge (buf rest : bytes) : zlen buf <= zlen (buf ++ rest).
Proof. rewrite zlen_app. pose proof (zlen_nonneg rest). lia. Qed.

Lemma reach_early t short full buf rest error :
  t <= zlen buf → reach t short full (buf ++ rest) error = inl (mk_prefix (cut buf t) full false).
Proof.
  intros Ht. unfold reach. pose proof (zlen_app_ge buf rest).
  rewrite (proj2 (Z.leb_le _ _)) by lia. by rewrite cut_take, take_app_le by (unfold zlen in Ht; lia).
Qed.

Lemma reach_short t short full buf error :
  zlen buf < t →
  reach t short full buf error = match error with Some e => inr e | None => inl (mk_prefix buf short true) end.
Proof. intros Ht. unfold reach. by rewrite (proj2 (Z.leb_gt _ _)). Qed.

Section ReadLoop.
Context {P : Type} (call : P → bytes → bool * P).

(** Once there is a target the condition no longer matters. *)
Lemma read_loop_target fuel c extra_ budget_ b buf t :
  (polls_left b < fuel)%nat → t <= budget_ →
  read_loop call fuel c extra_ budget_ b buf (Some t) =
    Some (reach t Matched Matched (buf ++ mjoin (chunks b)) (body_error b)).
Proof.
  revert c b buf. induction fuel as [|fuel IH]; intros c b buf Hf Ht; [lia|]. cbn [read_loop].
  destruct (t <=? zlen buf) eqn:Hr; bool_prop; [by rewrite reach_early|].
  rewrite (proj2 (Z.leb_gt budget_ _)) by lia.
  destruct (next_data_spec (S (polls_left b)) b) as (answer & b' & -> & Ha); [lia|].
  destruct answer as [[chunk|error]|].
  - destruct Ha as (-> & -> & Hl). rewrite IH by (done || lia). cbn. by rewrite <- app_assoc.
  - destruct Ha as [-> ->]. cbn. rewrite app_nil_r. by rewrite reach_short.
  - destruct Ha as [-> ->]. cbn. rewrite app_nil_r. by rewrite reach_short.
Qed.

(** With the budget already spent nothing more is looked at. *)
Lemma read_loop_spent fuel c extra_ budget_ b buf :
  budget_ <= zlen buf →
  read_loop call (S fuel) c extra_ budget_ b buf None = Some (inl (mk_prefix (cut buf budget_) Budget false)).
Proof. intros Hb. cbn [read_loop]. by rewrite (proj2 (Z.leb_le _ _)). Qed.

Lemma read_loop_marker fuel m extra_ budget_ b buf :
  (polls_left b < fuel)%nat → m ≠ [] → first_at m buf = None →
  read_loop call fuel (Some (Marker m)) extra_ budget_ b buf None =
    Some (stop_spec m extra_ budget_ (buf ++ mjoin (chunks b)) (body_error b)).
Proof.
  revert b buf. induction fuel as [|fuel IH]; intros b buf Hf Hm Hn; [lia|].
  destruct (decide (budget_ <= zlen buf)) as [Hb|Hb].
  { rewrite read_loop_spent by done. unfold stop_spec. rewrite reach_early by done.
    destruct (first_at m (buf ++ mjoin (chunks b))) as [i|] eqn:Hi; [|done]. cbn [fmap option_fmap option_map].
    apply first_at_app_late in Hi; [|done..]. by rewrite (proj2 (Z.leb_gt _ _)) by (unfold zlen in Hb; lia). }
  cbn [read_loop]. rewrite (proj2 (Z.leb_gt budget_ _)) by lia.
  destruct (next_data_spec (S (polls_left b)) b) as (answer & b' & -> & Ha); [lia|].
  destruct answer as [[chunk|error]|].
  2,3: destruct Ha as [-> ->]; cbn [mjoin list_join]; rewrite app_nil_r; unfold stop_spec; rewrite Hn; cbn;
    by rewrite reach_short by lia.
  destruct Ha as (Hc & -> & Hl). rewrite match_point_marker by done.
  assert (Hdata : buf ++ mjoin (chunks b) = (buf ++ chunk) ++ mjoin (chunks b')) by (rewrite Hc; cbn; by rewrite app_assoc).
  rewrite Hdata. destruct (first_at m (buf ++ chunk)) as [i|] eqn:Hi; [|by apply IH; [lia|..]].
  cbn. unfold stop_spec. rewrite (first_at_app_Some _ _ _ _ Hm Hi). cbn [fmap option_fmap option_map].
  destruct (_ <=? budget_) eqn:Hp; bool_prop.
  - rewrite read_loop_target by lia. done.
  - assert (budget_ <= zlen (buf ++ chunk)).
    { apply first_at_Some in Hi as (Hi & _ & _). apply prefix_drop_length in Hi; [|done]. unfold zlen. lia. }
    destruct fuel as [|fuel]; [lia|]. rewrite read_loop_spent, reach_early by done. done.
Qed.

Lemma read_loop_none fuel extra_ budget_ b buf :
  (polls_left b < fuel)%nat →
  read_loop call fuel None extra_ budget_ b buf None =
    Some (reach budget_ EndOfBody Budget (buf ++ mjoin (chunks b)) (body_error b)).
Proof.
  revert b buf. induction fuel as [|fuel IH]; intros b buf Hf; [lia|].
  destruct (decide (budget_ <= zlen buf)) as [Hb|Hb]; [by rewrite read_loop_spent, reach_early by done|].
  cbn [read_loop]. rewrite (proj2 (Z.leb_gt budget_ _)) by lia.
  destruct (next_data_spec (S (polls_left b)) b) as (answer & b' & -> & Ha); [lia|].
  destruct answer as [[chunk|error]|].
  - destruct Ha as (-> & -> & Hl). cbn. rewrite IH by lia. by rewrite <- app_assoc.
  - destruct Ha as [-> ->]. cbn. rewrite app_nil_r. by rewrite reach_short by lia.
  - destruct Ha as [-> ->]. cbn. rewrite app_nil_r. by rewrite reach_short by lia.
Qed.

(** The target a match sets never lies past the budget. *)
Definition match_target (point : option nat) (extra_ budget_ : Z) : option Z :=
  match point with
  | Some point =>
      let point := Z.of_nat point in
      if point <=? budget_ then Some (Z.min (saturating_add point extra_) budget_) else None
  | None => None
  end.

Lemma target_of_le point extra_ budget_ t : match_target point extra_ budget_ = Some t → t <= budget_.
Proof. unfold match_target. destruct point as [n|]; [|done]. destruct (_ <=? _); intros [= <-]; lia. Qed.

Lemma match_point_total c buf previous : ∃ point, (match_point call c buf previous).1 = Some point.
Proof.
  destruct c as [[m|p]|]; cbn [match_point]; [rewrite find_exact; by eexists| |by eexists].
  destruct (call p buf) as [holds p']. by eexists.
Qed.

(** Whatever the condition, caller's code included, a read ends, and returns a prefix
    of the body within its budget. *)
Lemma read_loop_sound fuel c extra_ budget_ b buf target :
  (polls_left b < fuel)%nat → 0 <= budget_ → (∀ t, target = Some t → t <= budget_) →
  ∃ answer, read_loop call fuel c extra_ budget_ b buf target = Some answer ∧
    match answer with
    | inl p => pf_bytes p `prefix_of` buf ++ mjoin (chunks b) ∧ zlen (pf_bytes p) <= budget_ ∧
               (pf_complete p = true → pf_bytes p = buf ++ mjoin (chunks b) ∧ body_error b = None)
    | inr error => body_error b = Some error
    end.
Proof.
  intros Hf Hb. revert c b buf target Hf. induction fuel as [|fuel IH]; intros c b buf target Hf Ht; [lia|].
  assert (Hcut : ∀ t, t <= budget_ → cut buf t `prefix_of` buf ++ mjoin (chunks b) ∧ zlen (cut buf t) <= budget_).
  { intros t Hle. rewrite cut_take. split; [apply prefix_app_r, prefix_take|].
    unfold zlen. rewrite length_take. lia. }
  cbn [read_loop]. destruct (match target with Some t => t <=? zlen buf | None => false end) eqn:Hr.
  { eexists. split; [done|]. cbn. destruct target as [t|]; [|done].
    destruct (Hcut t (Ht t eq_refl)). done. }
  destruct (budget_ <=? zlen buf) eqn:Hbud; bool_prop.
  { eexists. split; [done|]. cbn. destruct (Hcut budget_ (Z.le_refl _)). done. }
  destruct (next_data_spec (S (polls_left b)) b) as (answer & b' & -> & Ha); [lia|].
  destruct answer as [[chunk|error]|].
  - destruct Ha as (Hc & He & Hl). rewrite Hc, He. cbn [mjoin list_join]. rewrite app_assoc.
    destruct target as [t|]; [apply IH; [lia|exact Ht]|].
    pose proof (match_point_total c (buf ++ chunk) (length buf)) as [point Hp].
    destruct (match_point _ _ _ _) as [p c']. simpl in Hp. subst p. cbn.
    apply (IH c' b' (buf ++ chunk) (match_target point extra_ budget_)); [lia|]. intros t. apply target_of_le.
  - destruct Ha as [-> He]. eexists. split; [done|]. exact He.
  - destruct Ha as [-> He]. eexists. split; [done|]. cbn. rewrite app_nil_r. split; [done|]. split; [lia|done].
Qed.

End ReadLoop.

(** C12. Where the network splits a body never changes what reading up to a nonempty
    marker returns (a predicate is called chunk by chunk, so its answer may change): the result is a function of the body's bytes and its final error alone -
    everything up to [extra] bytes past the first occurrence of the marker, as long as
    that occurrence ends within the budget, and otherwise what fits the budget.  The
    body's error is reported exactly when the read has to go past it, and nothing is
    returned as complete unless the body was read to its end. *)
Theorem read_chunking {P} (call : P → bytes → bool * P) m extra_ budget_ b :
  m ≠ [] →
  read call (mk_stop (Some (Marker m)) extra_ budget_) b =
    Some (stop_spec m extra_ (default u64_max budget_) (mjoin (chunks b)) (body_error b)).
Proof.
  intros Hm. unfold read. cbn [condition extra budget]. rewrite read_loop_marker; [done|lia|done|].
  apply first_at_None. intros j Hj Hp. apply prefix_drop_length in Hp; [|done].
  assert (length m ≠ 0)%nat by (by destruct m). simpl in *. lia.
Qed.

Lemma read_chunking_witness :
  b#"ld+json" ≠ [] ∧
  read (λ (p : unit) _, (false, p)) (mk_stop (Some (Marker b#"ld+json")) 2 None)
    (Stream [SChunk b#"<head>ld"; SPending; SChunk b#"+js"; SChunk b#"on{}</head>"; SError (BodyTooLarge 1)] None) =
  Some (inl (mk_prefix b#"<head>ld+json{}" Matched false)).
Proof.
  split; [done|]. rewrite read_chunking by done. vm_compute. reflexivity.
Defined.

(** With no condition the read is the budget's alone. *)
Theorem read_after {P} (call : P → bytes → bool * P) n b :
  read call (after n) b = Some (reach n EndOfBody Budget (mjoin (chunks b)) (body_error b)).
Proof. apply read_loop_none. lia. Qed.
