(* ===== verification/Message.v ===== *)
(** [chromulate-core]: requests and responses (src/crates/chromulate-core/src/request.rs),
    as far as the modelled crates read and change them.  A [Request] is its head,
    with the text of its [http::Uri] and the one extension the header engine looks
    for ([UserActivatedNavigation], src/crates/chromulate-header/src/engine.rs); its
    body travels beside it.  A [Response] is generic in its body, and carries
    the one extension the sources set on it: how a cache produced it
    (src/crates/chromulate-cache/src/cache.rs). *)
From S2P Require Import Prelude RustStr Extern.

Inductive CacheStatus := Hit | Revalidated.

Section With_headers.
Context `{HeaderMapApi}.

Record Request := mk_request {
  rq_method : Method;
  rq_uri : str;
  rq_version : Version;
  rq_headers : HeaderMap;
  rq_user_activated : bool;
}.

Definition with_headers (h : HeaderMap) (r : Request) : Request :=
  mk_request (rq_method r) (rq_uri r) (rq_version r) h (rq_user_activated r).

Record Response (B : Type) := mk_response {
  rs_status : StatusCode;
  rs_version : Version;
  rs_headers : HeaderMap;
  rs_body : B;
  rs_cache_status : option CacheStatus;
}.
End With_headers.
Arguments mk_response {_ B} _ _ _ _ _.
Arguments rs_status {_ B} _.
Arguments rs_version {_ B} _.
Arguments rs_headers {_ B} _.
Arguments rs_body {_ B} _.
Arguments rs_cache_status {_ B} _.
