(* ===== verification/Compression.v ===== *)
(** [chromulate-compression]: the content codings with the [Accept-Encoding] value and the
    reading of [Content-Encoding], the streams that undo them, and the guard on how far a
    body may expand (src/crates/chromulate-compression/src/coding.rs, guard.rs and
    stream.rs).

    The decoders are [async-compression]'s, between [tokio-util]'s [StreamReader] and
    [ReaderStream].  What the three do together is a parameter, a reader: for every
    answer it gets from its source it gives a finite list of answers of its own before it
    asks again.  A stream is the list of its answers up to the [None] that ends it, each
    with the count of wire bytes - [WireBytes], shared by the whole chain - as it stands
    when the answer is given.  The counts have no width here; [check_limits] saturates as
    the code does. *)
From S2P Require Import Prelude RustStr Extern Body Message.
Local Open Scope Z_scope.

Definition CONTENT_ENCODING : str := b#"content-encoding".

(** ** Codings *)

Inductive ContentCoding := Gzip | Deflate | Brotli | Zstd | Identity.

#[export] Instance ContentCoding_eq_dec : EqDecision ContentCoding.
Proof. solve_decision. Defined.

Definition BROWSER_CODING_ORDER : list ContentCoding := [Gzip; Deflate; Brotli; Zstd].

(** [ContentCoding::parse]. *)
Definition parse_coding (token : str) : option ContentCoding :=
  let t := trim token in
  if eq_ignore_ascii_case t b#"gzip" then Some Gzip
  else if eq_ignore_ascii_case t b#"x-gzip" then Some Gzip
  else if eq_ignore_ascii_case t b#"deflate" then Some Deflate
  else if eq_ignore_ascii_case t b#"br" then Some Brotli
  else if eq_ignore_ascii_case t b#"zstd" then Some Zstd
  else if eq_ignore_ascii_case t b#"identity" then Some Identity
  else None.

Definition coding_as_str (c : ContentCoding) : str :=
  match c with
  | Gzip => b#"gzip"
  | Deflate => b#"deflate"
  | Brotli => b#"br"
  | Zstd => b#"zstd"
  | Identity => b#"identity"
  end.

(** The cargo features of a build. *)
Record Features := mk_features { f_gzip : bool; f_deflate : bool; f_brotli : bool; f_zstd : bool }.
Definition default_features : Features := mk_features true true true true.

Definition enabled (f : Features) (c : ContentCoding) : bool :=
  match c with
  | Gzip => f_gzip f
  | Deflate => f_deflate f
  | Brotli => f_brotli f
  | Zstd => f_zstd f
  | Identity => false
  end.

Definition compiled_codings (f : Features) : list ContentCoding :=
  (if f_gzip f then [Gzip] else []) ++ (if f_deflate f then [Deflate] else []) ++
  (if f_brotli f then [Brotli] else []) ++ (if f_zstd f then [Zstd] else []).

Definition accept_encoding_value `{HeaderValueApi} (codings : list ContentCoding) : str :=
  if decide (codings = []) then b#"identity"
  else default b#"identity" (from_str (join b#", " (coding_as_str <$> codings))).

(** ** [Content-Encoding] *)

Definition MAX_CONTENT_CODINGS : Z := 8.

(** Why a [Content-Encoding] was refused; they are all [Error::Decode]. *)
Inductive EncodingError := NotText | TooManyCodings (limit : Z) | UnknownCoding (token : str).

(** The loop of [parse_content_encoding] over the tokens of one line. *)
Fixpoint encoding_tokens (tokens : list str) (codings : list ContentCoding) : list ContentCoding + EncodingError :=
  match tokens with
  | [] => inl codings
  | token :: tokens =>
      let token := trim token in
      if decide (token = []) then encoding_tokens tokens codings
      else if zlen codings =? MAX_CONTENT_CODINGS then inr (TooManyCodings MAX_CONTENT_CODINGS)
      else match parse_coding token with
           | None => inr (UnknownCoding token)
           | Some coding => encoding_tokens tokens (codings ++ [coding])
           end
  end.

Fixpoint parse_content_encoding `{HeaderValueApi} (values : list str) (codings : list ContentCoding)
    : list ContentCoding + EncodingError :=
  match values with
  | [] => inl codings
  | value :: values =>
      match to_str value with
      | None => inr NotText
      | Some text =>
          match encoding_tokens (split_by (is_char ",") text) codings with
          | inr e => inr e
          | inl codings => parse_content_encoding values codings
          end
      end
  end.


(** ** What a header says *)

Lemma parse_coding_as_str c : parse_coding (coding_as_str c) = Some c.
Proof. by destruct c. Qed.

Section Header.
Context `{HeaderValueApi}.

(** The tokens of every line one after the other; a line that is not text stands as one
    item that is no token. *)
Definition content_items (values : list str) : list (option str) :=
  v ← values; match to_str v with Some text => Some <$> tokens (split_by (is_char ",") text) | None => [None] end.

(** The codings that the items start with, [n] at most, and the items after them. *)
Fixpoint known_prefix (n : nat) (items : list (option str)) : list ContentCoding * list (option str) :=
  match n, items with
  | S n, Some t :: rest =>
      match parse_coding t with
      | Some c => let '(cs, rest) := known_prefix n rest in (c :: cs, rest)
      | None => ([], items)
      end
  | _, _ => ([], items)
  end.

Definition item_error (full : bool) (item : option str) : EncodingError :=
  match item with
  | None => NotText
  | Some t => if full then TooManyCodings MAX_CONTENT_CODINGS else UnknownCoding t
  end.

(** Reading on, with some codings read already. *)
Definition read_items (codings : list ContentCoding) (items : list (option str)) : list ContentCoding + EncodingError :=
  let '(cs, rest) := known_prefix (Z.to_nat MAX_CONTENT_CODINGS - length codings) items in
  match rest with
  | [] => inl (codings ++ cs)
  | item :: _ => inr (item_error (zlen (codings ++ cs) =? MAX_CONTENT_CODINGS) item)
  end.

Lemma read_items_nil cs : read_items cs [] = inl cs.
Proof. unfold read_items. by destruct (_ - _)%nat; cbn; rewrite app_nil_r. Qed.

Lemma read_items_not_text cs items : read_items cs (None :: items) = inr NotText.
Proof. unfold read_items. by destruct (_ - _)%nat. Qed.

Lemma read_items_token cs t items :
  zlen cs <= MAX_CONTENT_CODINGS →
  read_items cs (Some t :: items) =
    if zlen cs =? MAX_CONTENT_CODINGS then inr (TooManyCodings MAX_CONTENT_CODINGS)
    else match parse_coding t with None => inr (UnknownCoding t) | Some c => read_items (cs ++ [c]) items end.
Proof.
  intros Hn. unfold read_items. change (Z.to_nat MAX_CONTENT_CODINGS) with 8%nat. unfold zlen, MAX_CONTENT_CODINGS in *.
  destruct (Z.eqb_spec (Z.of_nat (length cs)) 8) as [Hl|Hl].
  - replace (8 - length cs)%nat with 0%nat by lia. cbn. rewrite app_nil_r. by rewrite (proj2 (Z.eqb_eq _ _)) by done.
  - replace (8 - length cs)%nat with (S (8 - length (cs ++ [Gzip]))) by (rewrite length_app; cbn; lia).
    cbn. destruct (parse_coding t) as [c|] eqn:Hc.
    + rewrite !length_app. cbn. destruct (known_prefix _ items) as [ds rest].
      by rewrite <- (assoc_L (++) cs [c] ds).
    + cbn. rewrite app_nil_r. by rewrite (proj2 (Z.eqb_neq _ _)) by done.
Qed.

(** One line is read item by item, and what follows it from where it left off. *)
Lemma encoding_tokens_items ts cs items :
  zlen cs <= MAX_CONTENT_CODINGS →
  match encoding_tokens ts cs with
  | inl ds => zlen ds <= MAX_CONTENT_CODINGS ∧ read_items cs ((Some <$> tokens ts) ++ items) = read_items ds items
  | inr e => read_items cs ((Some <$> tokens ts) ++ items) = inr e
  end.
Proof.
  revert cs; induction ts as [|t ts IH]; intros cs Hn; cbn [encoding_tokens]; [done|].
  rewrite tokens_cons. case_decide as Ht; [by apply IH|].
  rewrite fmap_cons. cbn [app]. rewrite read_items_token by done.
  destruct (Z.eqb_spec (zlen cs) MAX_CONTENT_CODINGS) as [Hl|Hl]; [done|].
  destruct (parse_coding (trim t)) as [c|]; [|done].
  apply IH. unfold zlen in *. rewrite length_app. cbn. unfold MAX_CONTENT_CODINGS in *. lia.
Qed.

Lemma parse_content_encoding_spec values cs :
  zlen cs <= MAX_CONTENT_CODINGS → parse_content_encoding values cs = read_items cs (content_items values).
Proof.
  revert cs; induction values as [|v values IH]; intros cs Hn; cbn [parse_content_encoding].
  { by rewrite read_items_nil. }
  unfold content_items. rewrite bind_cons. fold (content_items values).
  destruct (to_str v) as [text|]; [|by symmetry; apply read_items_not_text].
  pose proof (encoding_tokens_items (split_by (is_char ",") text) cs (content_items values) Hn) as Hl.
  destruct (encoding_tokens _ cs) as [ds|e]; [|done]. destruct Hl as [Hd ->]. by apply IH.
Qed.

(** [parse_content_encoding] takes the tokens of all the header's lines one after the
    other, whichever line they are on, leaving out the empty ones: it stops at the first
    line that is not text, at the first token that names no coding, and at the ninth
    token whatever it says; without any of these it gives every token's coding, in
    order. *)
Theorem parse_content_encoding_exact values :
  parse_content_encoding values [] =
    let '(cs, rest) := known_prefix 8 (content_items values) in
    match rest with
    | [] => inl cs
    | None :: _ => inr NotText
    | Some t :: _ => inr (if zlen cs =? 8 then TooManyCodings 8 else UnknownCoding t)
    end.
Proof.
  rewrite parse_content_encoding_spec by done. unfold read_items. change (Z.to_nat MAX_CONTENT_CODINGS - length (@nil ContentCoding))%nat with 8%nat.
  destruct (known_prefix 8 (content_items values)) as [cs [|[t|] rest]]; [done| |done].
  change (zlen ([] ++ cs) =? MAX_CONTENT_CODINGS) with (zlen cs =? 8). by destruct (zlen cs =? 8).
Qed.

(** ** The advertised codings *)

Lemma known_prefix_codings n cs :
  known_prefix n (Some ∘ coding_as_str <$> cs) = (take n cs, Some ∘ coding_as_str <$> drop n cs).
Proof.
  revert n; induction cs as [|c cs IH]; intros [|n]; [done|done|done|].
  rewrite fmap_cons. cbn [known_prefix compose]. rewrite parse_coding_as_str, IH. done.
Qed.

Lemma coding_plain c :
  Forall (λ d, visible_ascii d = true ∧ is_whitespace d = false ∧ d ≠ ","%char) (coding_as_str c).
Proof.
  assert (Hb : forallb (λ d, visible_ascii d && negb (is_whitespace d) && negb (is_char "," d)) (coding_as_str c) = true)
    by by destruct c.
  eapply Forall_impl; [by apply forallb_Forall|]. intros d Hd. cbn beta in Hd.
  rewrite !andb_true_iff, !negb_true_iff in Hd. destruct Hd as [[Hv Hw] Hc]. by apply bool_decide_eq_false in Hc.
Qed.

Lemma coding_visible cs : Forall (λ c, visible_ascii c = true) (join b#", " (coding_as_str <$> cs)).
Proof.
  apply join_visible; [by repeat constructor|]. apply Forall_fmap, Forall_true. intros c.
  eapply Forall_impl; [apply coding_plain|]. by intros d (? & _).
Qed.

Lemma tokens_space s : tokens (split_by (is_char ",") (" "%char :: s)) = tokens (split_by (is_char ",") s).
Proof.
  cbn [split_by]. change (is_char "," " ") with false. cbn [negb].
  pose proof (split_by_nonempty (is_char ",") s) as Hne. destruct (split_by _ s) as [|h ts]; [done|].
  by rewrite !tokens_cons.
Qed.

Lemma tokens_listed c cs :
  tokens (split_by (is_char ",") (join b#", " (coding_as_str <$> c :: cs))) = coding_as_str <$> c :: cs.
Proof.
  assert (Hone : ∀ c, split_by (is_char ",") (coding_as_str c) = [coding_as_str c]).
  { intros d. apply split_by_none. eapply Forall_impl; [apply coding_plain|].
    intros x (? & ? & ?). by apply bool_decide_eq_false. }
  assert (Htrim : ∀ c ts, tokens (coding_as_str c :: ts) = coding_as_str c :: tokens ts).
  { intros d ts. rewrite tokens_cons, trim_id; [by destruct d|].
    eapply Forall_impl; [apply coding_plain|]. by intros x (? & ? & ?). }
  revert c; induction cs as [|d cs IH]; intros c; [cbn [fmap list_fmap join]; by rewrite Hone, Htrim|].
  change (join b#", " (coding_as_str <$> c :: d :: cs))
    with (coding_as_str c ++ ","%char :: " "%char :: join b#", " (coding_as_str <$> d :: cs)).
  rewrite split_by_app, Hone by done. cbn [app]. by rewrite Htrim, tokens_space, IH.
Qed.

Context `{!HeaderValueLaws}.

(** The codings a client advertises with [accept_encoding_value] are what
    [parse_content_encoding] reads from that value, in the same order, when there are at
    most eight; more are refused, and an empty list is advertised and read as
    [identity]. *)
Theorem advertised_reads_back cs :
  parse_content_encoding [accept_encoding_value cs] [] =
    if decide (cs = []) then inl [Identity]
    else if zlen cs <=? 8 then inl cs else inr (TooManyCodings 8).
Proof.
  rewrite parse_content_encoding_spec by done. unfold content_items, accept_encoding_value.
  case_decide as Hcs; rewrite bind_cons.
  { by rewrite to_str_visible by by repeat constructor. }
  destruct cs as [|c cs]; [done|].
  rewrite from_str_visible by apply coding_visible. cbn [from_option id]. rewrite to_str_visible by apply coding_visible.
  rewrite (tokens_listed c cs). rewrite app_nil_r, <- list_fmap_compose. unfold read_items.
  change (Z.to_nat MAX_CONTENT_CODINGS - length (@nil ContentCoding))%nat with 8%nat. rewrite known_prefix_codings.
  destruct (Z.leb_spec (zlen (c :: cs)) 8) as [Hl|Hl]; unfold zlen in Hl.
  - by rewrite drop_ge, take_ge by lia.
  - destruct (drop 8 (c :: cs)) as [|d ds] eqn:Hd.
    + apply (f_equal length) in Hd. rewrite length_drop in Hd. cbn [length] in *. lia.
    + cbn [fmap list_fmap]. replace (zlen ([] ++ take 8 (c :: cs))) with 8; [done|]. cbn [app]. unfold zlen. rewrite length_take, Nat.min_l by lia. done.
Qed.
End Header.

(** ** The guard *)

Definition DEFAULT_MAX_DECOMPRESSED_SIZE : Z := 100 * 1024 * 1024.
Definition DEFAULT_MAX_RATIO : Z := 100.

Record ExpansionGuard := mk_guard { max_decompressed_size : Z; max_ratio : Z }.

Definition default_guard : ExpansionGuard := mk_guard DEFAULT_MAX_DECOMPRESSED_SIZE DEFAULT_MAX_RATIO.

(** ** Streams *)

Inductive Encoded := EncGzip | EncDeflate | EncBrotli | EncZstd.

Definition as_encoded (c : ContentCoding) : option Encoded :=
  match c with
  | Gzip => Some EncGzip
  | Deflate => Some EncDeflate
  | Brotli => Some EncBrotli
  | Zstd => Some EncZstd
  | Identity => None
  end.

(** [chromulate_core::Error], as far as a decoded body produces it. *)
Inductive DecodeError :=
  | Upstream (error : BodyError)
  | TooLarge (limit : Z)
  | Undecodable (coding : ContentCoding)
  | CodingNotCompiled (coding : ContentCoding).

(** An [io::Error]: an upstream error wrapped up, or the decoder's own. *)
Inductive IoError := Wrapped (error : DecodeError) | Malformed.

(** One answer of a poll, but for the [None] at a stream's end. *)
Inductive Answer (E : Type) := Pends | Chunk (bytes : Body.bytes) | Fails (error : E).
Arguments Pends {E}.
Arguments Chunk {E} bytes.
Arguments Fails {E} error.

Inductive ByteStream (E : Type) :=
  | Ends (wire : Z)
  | Answers (answer : Answer E) (wire : Z) (rest : ByteStream E).
Arguments Ends {E} wire.
Arguments Answers {E} answer wire rest.

(** What a reader gets from its source, and what it gives: an answer or the end. *)
Inductive Fed := FedPending | FedChunk (bytes : Body.bytes) | FedError (error : IoError) | FedEnd.
Inductive Given := Gives (answer : Answer IoError) | GivesEnd.

Class ReaderApi := {
  Reader : Type;
  reader_new : Encoded → Reader;
  reader_feed : Reader → Fed → Reader * list Given;
}.

(** The body of a response as [into_data_stream], before any of it is counted. *)
Fixpoint chunk_stream (s : ChunkStream) : ByteStream DecodeError :=
  match s with
  | [] => Ends 0
  | SPending :: s => Answers Pends 0 (chunk_stream s)
  | SChunk c :: s => Answers (Chunk c) 0 (chunk_stream s)
  | SError e :: s => Answers (Fails (Upstream e)) 0 (chunk_stream s)
  end.

Definition data_stream (b : Body) : ChunkStream :=
  match b with
  | Empty => []
  | Fixed chunk => match chunk with Some c => [SChunk c] | None => [] end
  | Stream s _ => s
  end.

(** [CountingStream] of the stage that reads the wire. *)
Fixpoint counting (total : Z) (s : ByteStream DecodeError) : ByteStream DecodeError :=
  match s with
  | Ends _ => Ends total
  | Answers (Chunk c) _ s => Answers (Chunk c) (total + zlen c) (counting (total + zlen c) s)
  | Answers a _ s => Answers a total (counting total s)
  end.

(** [GuardedStream]. *)
Definition classify_io_error (coding : ContentCoding) (e : IoError) : DecodeError :=
  match e with Wrapped original => original | Malformed => Undecodable coding end.

Definition check_limits (g : ExpansionGuard) (encoded decoded : Z) : option DecodeError :=
  if max_decompressed_size g <? decoded then Some (TooLarge (max_decompressed_size g))
  else
    let ratio_limit := saturating_mul encoded (max_ratio g) in
    if (0 <? encoded) && (ratio_limit <? decoded) then Some (TooLarge ratio_limit) else None.

Fixpoint guarded_stream (g : ExpansionGuard) (coding : ContentCoding) (decoded : Z) (s : ByteStream IoError)
    : ByteStream DecodeError :=
  match s with
  | Ends t => Ends t
  | Answers Pends t s => Answers Pends t (guarded_stream g coding decoded s)
  | Answers (Fails e) t s => Answers (Fails (classify_io_error coding e)) t (guarded_stream g coding decoded s)
  | Answers (Chunk c) t s =>
      let decoded := decoded + zlen c in
      Answers (match check_limits g t decoded with Some e => Fails e | None => Chunk c end) t
        (guarded_stream g coding decoded s)
  end.

Section Streams.
Context `{ReaderApi}.

Definition fed_of (a : Answer DecodeError) : Fed :=
  match a with Pends => FedPending | Chunk c => FedChunk c | Fails e => FedError (Wrapped e) end.

(** What a reader gives at a wire count, and then the rest. *)
Fixpoint giving (t : Z) (given : list Given) (rest : ByteStream IoError) : ByteStream IoError :=
  match given with
  | [] => rest
  | GivesEnd :: _ => Ends t
  | Gives a :: given => Answers a t (giving t given rest)
  end.

(** A reader over its source. *)
Fixpoint reading (r : Reader) (s : ByteStream DecodeError) : ByteStream IoError :=
  match s with
  | Ends t => giving t (reader_feed r FedEnd).2 (Ends t)
  | Answers a t s => let '(r, given) := reader_feed r (fed_of a) in giving t given (reading r s)
  end.

(** [wrap_decoder]: none for a coding whose feature is off. *)
Definition wrap_decoder (f : Features) (e : Encoded) : option Reader :=
  match e with
  | EncGzip => if f_gzip f then Some (reader_new EncGzip) else None
  | EncDeflate => if f_deflate f then Some (reader_new EncDeflate) else None
  | EncBrotli => if f_brotli f then Some (reader_new EncBrotli) else None
  | EncZstd => if f_zstd f then Some (reader_new EncZstd) else None
  end.

Definition decode_stream (f : Features) (g : ExpansionGuard) (source : ByteStream DecodeError) (coding : ContentCoding)
    (e : Encoded) (counts_input : bool) : ByteStream DecodeError :=
  let source := if counts_input then counting 0 source else source in
  match wrap_decoder f e with
  | Some reader => guarded_stream g coding 0 (reading reader source)
  | None => Answers (Fails (CodingNotCompiled coding)) 0 (Ends 0)
  end.

Definition decode_layer (f : Features) (g : ExpansionGuard) (s : ByteStream DecodeError) (coding : ContentCoding)
    (counts_input : bool) : ByteStream DecodeError :=
  match as_encoded coding with
  | None => s
  | Some encoded => decode_stream f g s coding encoded counts_input
  end.

(** The loop of [decode_response] over the codings in reverse. *)
Fixpoint decode_layers (f : Features) (g : ExpansionGuard) (codings : list ContentCoding) (reads_the_wire : bool)
    (s : ByteStream DecodeError) : ByteStream DecodeError :=
  match codings with
  | [] => s
  | coding :: codings =>
      let stage := reads_the_wire in
      let reads_the_wire := if decide (coding ≠ Identity) then false else reads_the_wire in
      decode_layers f g codings reads_the_wire (decode_layer f g s coding stage)
  end.

(** [decode]. *)
Definition decode (f : Features) (g : ExpansionGuard) (body : Body) (coding : ContentCoding) : ByteStream DecodeError :=
  decode_layer f g (chunk_stream (data_stream body)) coding true.
End Streams.

(** ** Responses *)

Section Responses.
Context `{HeaderValueApi} `{HeaderMapApi} `{ReaderApi}.

(** A body that was left alone, or one that is decoded as it is read. *)
Inductive DecodedBody := Untouched (body : Body) | Decoded (stream : ByteStream DecodeError).

(** [ExpansionGuard::decode_response]. *)
Definition decode_response (f : Features) (g : ExpansionGuard) (r : Response Body)
    : Response DecodedBody + EncodingError :=
  let response headers body := mk_response (rs_status r) (rs_version r) headers body (rs_cache_status r) in
  if negb (hm_contains_key (rs_headers r) CONTENT_ENCODING) then inl (response (rs_headers r) (Untouched (rs_body r)))
  else
    match parse_content_encoding (hm_get_all (rs_headers r) CONTENT_ENCODING) [] with
    | inr e => inr e
    | inl codings =>
        let body :=
          if forallb (λ c, bool_decide (c = Identity)) codings then Untouched (rs_body r)
          else Decoded (decode_layers f g (reverse codings) true (chunk_stream (data_stream (rs_body r)))) in
        inl (response (hm_remove CONTENT_LENGTH (hm_remove CONTENT_ENCODING (rs_headers r))) body)
    end.
End Responses.

(** ** Reading a body *)

(** The bytes a reader of the body has when it stops, at the end or at the first error,
    and that error. *)
Fixpoint read_body {E} (s : ByteStream E) : bytes * option E :=
  match s with
  | Ends _ => ([], None)
  | Answers Pends _ s => read_body s
  | Answers (Chunk c) _ s => let '(out, e) := read_body s in (c ++ out, e)
  | Answers (Fails e) _ _ => ([], Some e)
  end.

(** Every answer, for a reader that does not stop at an error. *)
Fixpoint answers {E} (s : ByteStream E) : list (Answer E * Z) :=
  match s with Ends _ => [] | Answers a t s => (a, t) :: answers s end.

Definition answer_bytes {E} (a : Answer E) : bytes := match a with Chunk c => c | _ => [] end.
Definition delivered {E} (l : list (Answer E * Z)) : bytes := mjoin (answer_bytes <$> l.*1).

Lemma delivered_cons {E} (a : Answer E) t l : delivered ((a, t) :: l) = answer_bytes a ++ delivered l.
Proof. done. Qed.

(** Every count of a stream satisfies [P]. *)
Fixpoint counts_in {E} (P : Z → Prop) (s : ByteStream E) : Prop :=
  match s with Ends t => P t | Answers _ t s => P t ∧ counts_in P s end.

(** ** The bound *)

(** What a guard promises of the bytes delivered by the time a chunk is, [n] of them, at
    the count [t]. *)
Definition within_guard (g : ExpansionGuard) (t n : Z) : Prop :=
  n <= max_decompressed_size g ∧ (0 < t → n <= t * max_ratio g).

(** The promise at every chunk, with [d] bytes delivered before. *)
Definition bounded (g : ExpansionGuard) (d : Z) (s : ByteStream DecodeError) : Prop :=
  ∀ l c t rest, answers s = l ++ (Chunk c, t) :: rest → within_guard g t (d + zlen (delivered l) + zlen c).

Lemma check_limits_within g t d : check_limits g t d = None → within_guard g t d.
Proof.
  unfold check_limits, within_guard, saturating_mul.
  destruct (Z.ltb_spec (max_decompressed_size g) d); [done|].
  destruct (Z.ltb_spec 0 t); cbn [andb].
  - destruct (Z.ltb_spec (Z.min (t * max_ratio g) u64_max) d); [done|]. intros _. split; lia.
  - intros _. lia.
Qed.

Lemma check_limits_error g t d e :
  check_limits g t d = Some e → ∃ l, e = TooLarge l ∧ l < d.
Proof.
  unfold check_limits. destruct (Z.ltb_spec (max_decompressed_size g) d); [intros [= <-]; eauto|].
  destruct (_ && _) eqn:Hb; [|done]. apply andb_true_iff in Hb as [_ Hb%Z.ltb_lt]. intros [= <-]; eauto.
Qed.

Lemma bounded_mono g d d' s : d' <= d → bounded g d s → bounded g d' s.
Proof. intros Hd Hb l c t rest Ha. specialize (Hb l c t rest Ha). unfold within_guard in *. lia. Qed.

Lemma bounded_cons g d a t s :
  (∀ c, a = Chunk c → within_guard g t (d + zlen c)) →
  bounded g (d + zlen (answer_bytes a)) s → bounded g d (Answers a t s).
Proof.
  intros Ha Hs [|[b u] l] c v rest; cbn [answers app]; intros [= -> -> Heq].
  - replace (d + zlen (delivered []) + zlen c) with (d + zlen c) by (unfold delivered, zlen; cbn; lia). by apply Ha.
  - specialize (Hs l c v rest Heq). rewrite delivered_cons, zlen_app.
    by replace (d + (zlen (answer_bytes b) + zlen (delivered l)) + zlen c)
      with (d + zlen (answer_bytes b) + zlen (delivered l) + zlen c) by lia.
Qed.

Lemma guarded_bounded g coding d s : bounded g d (guarded_stream g coding d s).
Proof.
  revert d; induction s as [t|[|c|e] t s IH]; intros d; cbn [guarded_stream].
  - intros [|? ?] ? ? ?; done.
  - apply bounded_cons; [done|]. cbn. by rewrite Z.add_0_r.
  - apply bounded_cons.
    + intros c' Hc. destruct (check_limits _ _ _) as [e|] eqn:Hl; [done|]. injection Hc as <-.
      by apply check_limits_within.
    + eapply bounded_mono; [|apply IH]. pose proof (zlen_nonneg c).
      destruct (check_limits _ _ _); cbn [answer_bytes]; change (zlen []) with 0; lia.
  - apply bounded_cons; [done|]. cbn. by rewrite Z.add_0_r.
Qed.

Lemma guarded_counts P g coding d s : counts_in P s → counts_in P (guarded_stream g coding d s).
Proof. revert d; induction s as [t|[|c|e] t s IH]; intros d; cbn; naive_solver. Qed.

(** The counts of a body: how many bytes its first answers brought, errors or not. *)
Definition event_bytes (ev : StreamEvent) : bytes := match ev with SChunk c => c | _ => [] end.
Definition arrived (w : ChunkStream) : bytes := mjoin (event_bytes <$> w).
Definition pulled (w : ChunkStream) (t : Z) : Prop := ∃ k, t = zlen (arrived (take k w)).

Lemma pulled_nil w : pulled w 0.
Proof. by exists 0%nat. Qed.

Lemma pulled_cons ev w t : pulled w t → pulled (ev :: w) (zlen (event_bytes ev) + t).
Proof. intros [k ->]. exists (S k). unfold arrived. cbn [take fmap list_fmap mjoin]. by rewrite <- zlen_app. Qed.

Lemma counting_counts (P : Z → Prop) w total :
  (∀ t, pulled w t → P (total + t)) → counts_in P (counting total (chunk_stream w)).
Proof.
  revert total; induction w as [|ev w IH]; intros total HP.
  { cbn. rewrite <- (Z.add_0_r total). apply HP, pulled_nil. }
  assert (Hn : P (total + zlen (event_bytes ev)) ∧
    counts_in P (counting (total + zlen (event_bytes ev)) (chunk_stream w))).
  { split.
    - apply HP. rewrite <- (Z.add_0_r (zlen _)). apply pulled_cons, pulled_nil.
    - apply IH. intros t Ht. rewrite <- Z.add_assoc. by apply HP, pulled_cons. }
  destruct ev; cbn [event_bytes] in Hn; cbn; [|done|]; by rewrite Z.add_0_r in Hn.
Qed.

Lemma counts_answers {E} (P : Z → Prop) (s : ByteStream E) : counts_in P s → Forall (λ at', P at'.2) (answers s).
Proof. induction s as [t|a t s IH]; cbn; [constructor|]. intros [? ?]. constructor; auto. Qed.

Section Bound.
Context `{ReaderApi}.

Lemma giving_counts P t given rest : P t → counts_in P rest → counts_in P (giving t given rest).
Proof. intros Ht Hr. induction given as [|[a|] given IH]; cbn; auto. Qed.

Lemma reading_counts P r s : counts_in P s → counts_in P (reading r s).
Proof.
  revert r; induction s as [t|a t s IH]; intros r Hs; cbn [reading].
  - by apply giving_counts.
  - destruct Hs as [Ht Hs]. destruct (reader_feed r (fed_of a)) as [r' given]. apply giving_counts; auto.
Qed.

(** A decoded layer keeps the promise whatever its source does. *)
Lemma decode_stream_bounded f g s coding e b : bounded g 0 (decode_stream f g s coding e b).
Proof.
  unfold decode_stream. destruct (wrap_decoder f e); [apply guarded_bounded|].
  intros [|? [|? ?]] ? ? ?; cbn; done.
Qed.

Lemma decode_stream_counts P f g s coding e (b : bool) :
  P 0 → counts_in P (if b then counting 0 s else s) → counts_in P (decode_stream f g s coding e b).
Proof.
  intros H0 Hs. unfold decode_stream. destruct (wrap_decoder f e); [|done].
  by apply guarded_counts, reading_counts.
Qed.

Lemma decode_layers_keep P f g codings s :
  P 0 → bounded g 0 s → counts_in P s →
  bounded g 0 (decode_layers f g codings false s) ∧ counts_in P (decode_layers f g codings false s).
Proof.
  intros H0. revert s; induction codings as [|c codings IH]; intros s Hb Hc; cbn [decode_layers]; [done|].
  replace (if decide (c ≠ Identity) then false else false) with false by by case_decide. unfold decode_layer.
  destruct (as_encoded c) as [e|]; apply IH; auto using decode_stream_bounded, decode_stream_counts.
Qed.

Lemma decode_layers_bounded f g codings w :
  Exists (λ c, c ≠ Identity) codings →
  let s := decode_layers f g codings true (chunk_stream w) in bounded g 0 s ∧ counts_in (pulled w) s.
Proof.
  induction 1 as [c codings Hc|c codings Hex IH]; cbn [decode_layers].
  - rewrite decide_True by done. unfold decode_layer. destruct (as_encoded c) as [e|] eqn:He; [|by destruct c].
    apply decode_layers_keep; [apply pulled_nil|apply decode_stream_bounded|].
    apply decode_stream_counts; [apply pulled_nil|]. by apply counting_counts.
  - destruct (decide (c ≠ Identity)) as [Hc|Hc].
    + unfold decode_layer. destruct (as_encoded c) as [e|] eqn:He; [|by destruct c].
      apply decode_layers_keep; [apply pulled_nil|apply decode_stream_bounded|].
      apply decode_stream_counts; [apply pulled_nil|]. by apply counting_counts.
    + apply dec_stable in Hc as ->. apply IH.
Qed.
End Bound.

(** ** What is delivered *)

(** What a reader has given: its bytes, and whether it is still open, has ended or has
    failed. *)
Inductive Given_so_far := Open | Ended | Failed (error : IoError).

Fixpoint read_given (given : list Given) : bytes * Given_so_far :=
  match given with
  | [] => ([], Open)
  | GivesEnd :: _ => ([], Ended)
  | Gives Pends :: given => read_given given
  | Gives (Chunk c) :: given => let '(out, e) := read_given given in (c ++ out, e)
  | Gives (Fails e) :: _ => ([], Failed e)
  end.

Definition fed_bytes (fs : list Fed) : bytes := fs ≫= λ f, match f with FedChunk c => c | _ => [] end.
Definition quiet (f : Fed) : Prop := match f with FedPending | FedChunk _ => True | _ => False end.

Section Feeding.
Context `{ReaderApi}.

Fixpoint feeds (r : Reader) (fs : list Fed) : Reader * list Given :=
  match fs with
  | [] => (r, [])
  | f :: fs =>
      let '(r, given) := reader_feed r f in
      let '(r, more) := feeds r fs in (r, given ++ more)
  end.

Definition given_by (e : Encoded) (fs : list Fed) : bytes * Given_so_far := read_given (feeds (reader_new e) fs).2.

Lemma feeds_snoc r fs f :
  feeds r (fs ++ [f]) =
    let '(r, given) := feeds r fs in let '(r, more) := reader_feed r f in (r, given ++ more).
Proof.
  revert r; induction fs as [|f' fs IH]; intros r; cbn [feeds app].
  { destruct (reader_feed r f) as [r' given]. by rewrite app_nil_r. }
  destruct (reader_feed r f') as [r1 g1]. rewrite IH.
  destruct (feeds r1 fs) as [r2 g2], (reader_feed r2 f) as [r3 g3]. by rewrite (assoc_L (++)).
Qed.
End Feeding.

(** What a correct decoder does with an encoded text that has the plain text [p]: as long
    as it is fed the encoded text's beginning it gives the plain text's beginning, and
    ends only once it has given all of it; fed all of it and the end, it gives all of the
    plain text; and fed an error, it gives that error. *)
Class ReaderLaws `{ReaderApi} (plain : Encoded → bytes → option bytes) := {
  fed_a_prefix e w p fs :
    plain e w = Some p → Forall quiet fs → fed_bytes fs `prefix_of` w →
    match given_by e fs with
    | (q, Open) => q `prefix_of` p
    | (q, Ended) => q = p
    | (_, Failed _) => False
    end;
  fed_all e w p fs :
    plain e w = Some p → Forall quiet fs → fed_bytes fs = w →
    match given_by e (fs ++ [FedEnd]) with
    | (q, Open) | (q, Ended) => q = p
    | (_, Failed _) => False
    end;
  fed_an_error e w p fs error :
    plain e w = Some p → Forall quiet fs → fed_bytes fs `prefix_of` w →
    match given_by e (fs ++ [FedError error]) with
    | (_, Open) => False
    | (q, Ended) => q = p
    | (q, Failed e) => q `prefix_of` p ∧ e = error
    end;
}.

(** A stream that reads the rest of [p] after [q0], as far as it gets: an error it ends
    with satisfies [E]. *)
Definition reads_on {X} (q0 p : bytes) (E : X → Prop) (s : ByteStream X) : Prop :=
  match read_body s with
  | (q, None) => q0 ++ q = p
  | (q, Some e) => (q0 ++ q) `prefix_of` p ∧ E e
  end.

Lemma reads_on_chunk {X} q0 c t p (E : X → Prop) s :
  reads_on q0 p E (Answers (Chunk c) t s) ↔ reads_on (q0 ++ c) p E s.
Proof.
  unfold reads_on. cbn [read_body]. destruct (read_body s) as [q [e|]]; by rewrite (assoc_L (++)).
Qed.

Lemma reads_on_prefix {X} q0 p (E : X → Prop) s : reads_on q0 p E s → q0 `prefix_of` p.
Proof.
  unfold reads_on. destruct (read_body s) as [q [e|]].
  - intros [Hp _]. by eapply prefix_app_l.
  - intros <-. by apply prefix_app_r.
Qed.

Lemma reads_on_impl {X} q0 p (E F : X → Prop) s : (∀ e, E e → F e) → reads_on q0 p E s → reads_on q0 p F s.
Proof. unfold reads_on. intros HEF. destruct (read_body s) as [q [e|]]; [|done]. intros [? ?]; auto. Qed.

Lemma read_given_app g1 g2 :
  read_given (g1 ++ g2) =
    match read_given g1 with
    | (q, Open) => let '(q', o) := read_given g2 in (q ++ q', o)
    | stopped => stopped
    end.
Proof.
  induction g1 as [|[[|c|e]|] g1 IH]; cbn [read_given app]; [by destruct (read_given g2)|done| |done|done].
  rewrite IH. destruct (read_given g1) as [q [| |e]]; [|done|done].
  destruct (read_given g2). by rewrite (assoc_L (++)).
Qed.

Lemma read_giving t given rest :
  read_body (giving t given rest) =
    match read_given given with
    | (q, Open) => let '(q', e) := read_body rest in (q ++ q', e)
    | (q, Ended) => (q, None)
    | (q, Failed e) => (q, Some e)
    end.
Proof.
  induction given as [|[[|c|e]|] given IH]; cbn [read_given giving read_body]; [by destruct (read_body rest)|done| |done|done].
  rewrite IH. destruct (read_given given) as [q [| |e]]; [|done|done].
  destruct (read_body rest). by rewrite (assoc_L (++)).
Qed.

Lemma read_counting total s : read_body (counting total s) = read_body s.
Proof. revert total; induction s as [t|[|c|e] t s IH]; intros total; cbn; rewrite ?IH; done. Qed.

Section Faithful.
Context `{ReaderApi} {plain : Encoded → bytes → option bytes} `{!ReaderLaws plain}.

(** The reader has been fed [fs] and is still open, having given [q0]. *)
Definition midway (e : Encoded) (fs : list Fed) (r : Reader) (q0 : bytes) : Prop :=
  Forall quiet fs ∧ ∃ given, feeds (reader_new e) fs = (r, given) ∧ read_given given = (q0, Open).

Lemma midway_feed e fs r q0 f :
  midway e fs r q0 →
  let '(r', given) := reader_feed r f in
  let '(q, o) := read_given given in
  given_by e (fs ++ [f]) = (q0 ++ q, o) ∧ (quiet f → o = Open → midway e (fs ++ [f]) r' (q0 ++ q)).
Proof.
  intros [Hq (given & Hf & Hg)]. destruct (reader_feed r f) as [r' more] eqn:Hr.
  assert (Ha : feeds (reader_new e) (fs ++ [f]) = (r', given ++ more)) by by rewrite feeds_snoc, Hf, Hr.
  destruct (read_given more) as [q o] eqn:Hm.
  assert (Hall : read_given (given ++ more) = (q0 ++ q, o)) by by rewrite read_given_app, Hg, Hm.
  split; [by unfold given_by; rewrite Ha|]. intros Hqf ->. split; [by apply Forall_app; auto|eauto].
Qed.

Definition wrapped (E : DecodeError → Prop) (io : IoError) : Prop := ∃ e, io = Wrapped e ∧ E e.

(** A quiet answer is read and the rest after it. *)
Lemma reading_step e w p E fs r q0 f given r' t s :
  plain e w = Some p → midway e fs r q0 → quiet f → reader_feed r f = (r', given) →
  fed_bytes (fs ++ [f]) `prefix_of` w →
  (∀ q, midway e (fs ++ [f]) r' (q0 ++ q) → reads_on (q0 ++ q) p (wrapped E) (reading r' s)) →
  reads_on q0 p (wrapped E) (giving t given (reading r' s)).
Proof.
  intros Hp Hm Hf Hr Hw Hnext. pose proof (midway_feed e fs r q0 f Hm) as Hs. rewrite Hr in Hs.
  pose proof (fed_a_prefix e w p (fs ++ [f]) Hp) as Hl. unfold reads_on. rewrite read_giving.
  destruct (read_given given) as [q o]. destruct Hs as [Hg Hs]. rewrite Hg in Hl.
  assert (Hqs : Forall quiet (fs ++ [f])) by (destruct Hm as [? _]; by apply Forall_app; auto).
  specialize (Hl Hqs Hw). destruct o as [| |x]; [|done|done].
  specialize (Hnext q (Hs Hf eq_refl)). unfold reads_on in Hnext.
  destruct (read_body (reading r' s)) as [q' [x|]]; by rewrite <- (assoc_L (++)) in Hnext.
Qed.

Lemma fed_bytes_snoc fs f : fed_bytes (fs ++ [f]) = fed_bytes fs ++ match f with FedChunk c => c | _ => [] end.
Proof. unfold fed_bytes. rewrite bind_app, bind_cons. cbn. by rewrite app_nil_r. Qed.

Lemma reading_reads e w p E s fs r q0 :
  plain e w = Some p → midway e fs r q0 → reads_on (fed_bytes fs) w E s →
  reads_on q0 p (wrapped E) (reading r s).
Proof.
  intros Hp. revert fs r q0; induction s as [t|a t s IH]; intros fs r q0 Hm Hs; cbn [reading].
  - pose proof (midway_feed e fs r q0 FedEnd Hm) as Hf. destruct Hm as [Hqs _].
    unfold reads_on in Hs. cbn in Hs. rewrite app_nil_r in Hs.
    pose proof (fed_all e w p fs Hp Hqs Hs) as Hl. unfold reads_on. rewrite read_giving.
    destruct (reader_feed r FedEnd) as [r' given]. cbn [snd read_body]. destruct (read_given given) as [q o].
    destruct Hf as [Hf _]. rewrite Hf in Hl. destruct o; [|done|done]. by rewrite app_nil_r.
  - destruct (reader_feed r (fed_of a)) as [r' given] eqn:Hr. destruct a as [|c|x]; cbn [fed_of] in Hr.
    + assert (Hs' : reads_on (fed_bytes (fs ++ [FedPending])) w E s) by by rewrite fed_bytes_snoc, app_nil_r.
      eapply reading_step; eauto using reads_on_prefix. done.
    + assert (Hs' : reads_on (fed_bytes (fs ++ [FedChunk c])) w E s) by by rewrite fed_bytes_snoc, <- reads_on_chunk.
      eapply reading_step; eauto using reads_on_prefix. done.
    + pose proof (midway_feed e fs r q0 (FedError (Wrapped x)) Hm) as Hf. destruct Hm as [Hqs _].
      unfold reads_on in Hs. cbn in Hs. rewrite app_nil_r in Hs. destruct Hs as [Hw Hx].
      pose proof (fed_an_error e w p fs (Wrapped x) Hp Hqs Hw) as Hl. unfold reads_on. rewrite read_giving, Hr in *.
      destruct (read_given given) as [q o]. destruct Hf as [Hf _]. rewrite Hf in Hl.
      destruct o as [| |y]; [done|done|]. destruct Hl as [Hq ->]. split; [done|]. by exists x.
Qed.

(** What a layer may add to the errors: it refuses only a plain text longer than the limit
    it names. *)
Definition or_larger (p : bytes) (E : DecodeError → Prop) (e : DecodeError) : Prop :=
  E e ∨ ∃ l, e = TooLarge l ∧ l < zlen p.

Lemma guarded_reads g coding p E s q0 :
  reads_on q0 p (wrapped E) s → reads_on q0 p (or_larger p E) (guarded_stream g coding (zlen q0) s).
Proof.
  revert q0; induction s as [t|[|c|io] t s IH]; intros q0 Hs; cbn [guarded_stream]; [done|by apply IH| |].
  - apply reads_on_chunk in Hs. rewrite <- zlen_app. destruct (check_limits g t (zlen (q0 ++ c))) as [x|] eqn:Hc.
    + apply check_limits_error in Hc as (l & -> & Hl). apply reads_on_prefix in Hs.
      unfold reads_on. cbn. rewrite app_nil_r. split; [by eapply prefix_app_l|].
      right. exists l. split; [done|]. apply prefix_length in Hs. unfold zlen in *. lia.
    + apply reads_on_chunk. by apply IH.
  - unfold reads_on in *. cbn in *. destruct Hs as [Hp (x & -> & Hx)]. split; [done|]. by left.
Qed.

Lemma decode_stream_reads f g s coding e (b : bool) w p E :
  plain e w = Some p → is_Some (wrap_decoder f e) → reads_on [] w E s →
  reads_on [] p (or_larger p E) (decode_stream f g s coding e b).
Proof.
  intros Hp [r Hr] Hs. unfold decode_stream. rewrite Hr.
  assert (r = reader_new e) as -> by (by destruct e; cbn in Hr; repeat case_match; simplify_eq).
  apply (guarded_reads g coding p E _ []). apply (reading_reads e w p E _ [] _ []); [done| |].
  - split; [constructor|]. by exists [].
  - destruct b; [|done]. unfold reads_on. by rewrite read_counting.
Qed.
End Faithful.

(** ** Whole responses *)

Lemma decode_layers_identity `{ReaderApi} f g codings b s :
  decode_layers f g codings b s = decode_layers f g (filter (λ c, c ≠ Identity) codings) b s.
Proof.
  revert b s; induction codings as [|c codings IH]; intros b s; cbn [decode_layers]; [done|].
  rewrite filter_cons. destruct (decide (c ≠ Identity)) as [Hc|Hc]; cbn [decode_layers].
  - by rewrite decide_True, IH.
  - apply dec_stable in Hc as ->. apply IH.
Qed.

Lemma decode_not_compiled `{ReaderApi} f g b c :
  c ≠ Identity → enabled f c = false → read_body (decode f g b c) = ([], Some (CodingNotCompiled c)).
Proof. intros Hc He. destruct c; cbn in He; unfold decode, decode_layer, decode_stream; cbn; by rewrite ?He. Qed.

Lemma read_chunk_stream w :
  read_body (chunk_stream w) = (mjoin (stream_chunks w), Upstream <$> stream_error w).
Proof. induction w as [|[|c|e] w IH]; cbn; rewrite ?IH; done. Qed.

Lemma read_data_stream b : read_body (chunk_stream (data_stream b)) = (mjoin (chunks b), Upstream <$> body_error b).
Proof. destruct b as [|[c|]|w e]; [done|cbn; by rewrite app_nil_r|done|apply read_chunk_stream]. Qed.

Section Whole.
Context `{HeaderValueApi} `{HeaderMapApi} `{ReaderApi}.

(** The body a response is given, for the codings its header names. *)
Definition body_of (f : Features) (g : ExpansionGuard) (codings : list ContentCoding) (b : Body) : DecodedBody :=
  match filter (λ c, c ≠ Identity) (reverse codings) with
  | [] => Untouched b
  | layers => Decoded (decode_layers f g layers true (chunk_stream (data_stream b)))
  end.

Lemma all_identity codings :
  if forallb (λ c, bool_decide (c = Identity)) codings
  then filter (λ c, c ≠ Identity) (reverse codings) = []
  else Exists (λ c, c ≠ Identity) (reverse codings) ∧ filter (λ c, c ≠ Identity) (reverse codings) ≠ [].
Proof.
  assert (Hb : forallb (λ c, bool_decide (c = Identity)) codings = true ↔ Forall (λ c, c = Identity) codings).
  { rewrite forallb_Forall. apply Forall_iff. intros c. apply bool_decide_eq_true. }
  destruct (forallb _ codings).
  - apply proj1 in Hb. specialize (Hb eq_refl). apply Forall_reverse in Hb.
    induction Hb as [|c l Hc Hl IH]; [done|]. rewrite filter_cons, decide_False; [done|]. by intros Hn.
  - assert (Hex : Exists (λ c, c ≠ Identity) (reverse codings)).
    { apply not_Forall_Exists; [intros c; apply _|]. intros Hall. apply Forall_reverse in Hall.
      rewrite reverse_involutive in Hall. by apply Hb in Hall. }
    split; [done|]. intros Hnil. apply Exists_exists in Hex as (c & Hin & Hc).
    assert (Hf : c ∈ filter (λ c, c ≠ Identity) (reverse codings)) by by apply list_elem_of_filter.
    rewrite Hnil in Hf. by apply not_elem_of_nil in Hf.
Qed.

Lemma decode_response_spec f g r :
  decode_response f g r =
    if decide (hm_get_all (rs_headers r) CONTENT_ENCODING = []) then
      inl (mk_response (rs_status r) (rs_version r) (rs_headers r) (Untouched (rs_body r)) (rs_cache_status r))
    else
      match parse_content_encoding (hm_get_all (rs_headers r) CONTENT_ENCODING) [] with
      | inr e => inr e
      | inl codings =>
          inl (mk_response (rs_status r) (rs_version r)
            (hm_remove CONTENT_LENGTH (hm_remove CONTENT_ENCODING (rs_headers r)))
            (body_of f g codings (rs_body r)) (rs_cache_status r))
      end.
Proof.
  unfold decode_response, hm_contains_key. destruct (decide (hm_get_all (rs_headers r) CONTENT_ENCODING = [])) as [Hn|Hn].
  - by rewrite Hn.
  - rewrite bool_decide_true by done. cbn [negb]. destruct (parse_content_encoding _ _) as [cs|e]; [|done].
    do 2 f_equal. unfold body_of. pose proof (all_identity cs) as Hid. rewrite decode_layers_identity.
    destruct (forallb _ cs); [by rewrite Hid|]. destruct Hid as [_ Hne]. by destruct (filter _ _).
Qed.

Lemma decoded_body f g r r' s :
  decode_response f g r = inl r' → rs_body r' = Decoded s →
  ∃ codings, parse_content_encoding (hm_get_all (rs_headers r) CONTENT_ENCODING) [] = inl codings ∧
    Exists (λ c, c ≠ Identity) (reverse codings) ∧
    s = decode_layers f g (reverse codings) true (chunk_stream (data_stream (rs_body r))).
Proof.
  unfold decode_response. destruct (negb _); [intros [= <-] [=]|].
  destruct (parse_content_encoding _ _) as [cs|e]; [|done]. intros [= <-] Hb. cbn in Hb.
  pose proof (all_identity cs) as Hid. destruct (forallb _ cs); [done|].
  destruct Hid as [Hex _]. injection Hb as <-. eauto.
Qed.
End Whole.

Section Properties.
Context `{HeaderValueApi} `{HeaderMapApi} `{!HeaderMapLaws} `{ReaderApi}.

(** [decode_response] leaves a response without [Content-Encoding] as it is; it
    refuses one whose [Content-Encoding] [parse_content_encoding] refuses, with that
    error; any other loses [Content-Encoding] and [Content-Length] and no other header,
    and its body goes through the decoders of its codings other than [identity], the last
    applied first, the first of them reading the wire - or stays as it is when there are
    none. *)
Theorem decode_response_exact f g r :
  match decode_response f g r with
  | inr e =>
      hm_get_all (rs_headers r) CONTENT_ENCODING ≠ [] ∧
      parse_content_encoding (hm_get_all (rs_headers r) CONTENT_ENCODING) [] = inr e
  | inl r' =>
      rs_status r' = rs_status r ∧ rs_version r' = rs_version r ∧ rs_cache_status r' = rs_cache_status r ∧
      ((hm_get_all (rs_headers r) CONTENT_ENCODING = [] ∧ rs_headers r' = rs_headers r ∧
        rs_body r' = Untouched (rs_body r)) ∨
       ∃ codings, parse_content_encoding (hm_get_all (rs_headers r) CONTENT_ENCODING) [] = inl codings ∧
         (∀ n, hm_get_all (rs_headers r') n =
           if decide (n = CONTENT_ENCODING ∨ n = CONTENT_LENGTH) then [] else hm_get_all (rs_headers r) n) ∧
         rs_body r' = match filter (λ c, c ≠ Identity) (reverse codings) with
                      | [] => Untouched (rs_body r)
                      | layers => Decoded (decode_layers f g layers true (chunk_stream (data_stream (rs_body r))))
                      end)
  end.
Proof.
  rewrite decode_response_spec. case_decide as Hn; [cbn; auto 10|].
  destruct (parse_content_encoding _ _) as [cs|e]; [|done]. cbn.
  do 3 (split; [done|]). right. exists cs. split; [done|]. split; [|done].
  intros n. rewrite !get_all_remove. repeat case_decide; naive_solver.
Qed.

End Properties.

(** ** The plain text *)

Section Plain.
Context `{HeaderValueApi} `{HeaderMapApi} `{ReaderApi} {plain : Encoded → bytes → option bytes} `{!ReaderLaws plain}.

(** The texts the layers of a chain decode to, the last of them the plain text. *)
Fixpoint decoded_texts (layers : list ContentCoding) (w : bytes) : option (list bytes) :=
  match layers with
  | [] => Some []
  | c :: layers =>
      match as_encoded c with
      | None => decoded_texts layers w
      | Some e => p ← plain e w; ps ← decoded_texts layers p; Some (p :: ps)
      end
  end.

Definition some_larger (ps : list bytes) (e : DecodeError) : Prop :=
  ∃ l, e = TooLarge l ∧ Exists (λ p, l < zlen p) ps.

Lemma enabled_wrapped f c e : enabled f c = true → as_encoded c = Some e → is_Some (wrap_decoder f e).
Proof. intros He Hc. destruct c; simplify_eq/=; rewrite He; eauto. Qed.

Lemma decode_layers_reads f g layers b s w ps E :
  Forall (λ c, c = Identity ∨ enabled f c = true) layers → decoded_texts layers w = Some ps →
  reads_on [] w E s →
  reads_on [] (default w (last ps)) (λ e, E e ∨ some_larger ps e) (decode_layers f g layers b s).
Proof.
  intros Hen. revert b s w ps E; induction Hen as [|c layers Hc Hen IH]; intros b s w ps E; cbn [decoded_texts decode_layers].
  { intros [= <-]. apply reads_on_impl. auto. }
  unfold decode_layer. destruct (as_encoded c) as [e|] eqn:He; [|intros Hps Hs; by apply IH].
  destruct (plain e w) as [p|] eqn:Hp; [|done]. cbn. destruct (decoded_texts layers p) as [qs|] eqn:Hqs; [|done].
  cbn. intros [= <-] Hs. assert (Hon : enabled f c = true) by (destruct Hc as [->|]; done).
  set (b' := if decide (c ≠ Identity) then false else b).
  pose proof (IH b' _ p qs _ Hqs (decode_stream_reads f g s c e b w p E Hp (enabled_wrapped f c e Hon He) Hs)) as Hr.
  rewrite last_cons. replace (default w (match last qs with Some y => Some y | None => Some p end))
    with (default p (last qs)) by by destruct (last qs).
  eapply reads_on_impl; [|exact Hr]. intros x [[Hx|(l & -> & Hl)]|(l & -> & Hl)]; [by left| |].
  - right. exists l. split; [done|]. by left.
  - right. exists l. split; [done|]. by right.
Qed.

(** C22. What is decoded is right: where the wire carries an encoded text - or breaks off
    within it - and decoding it coding by coding gives the plain text, the body read to
    its end is exactly the plain text.  A body that fails has delivered the plain text's
    beginning, and its error is the one the wire broke off with, as it was, or the guard's:
    and the guard refuses only a body one of whose decoded texts really is longer than
    the limit the error names. *)
Theorem decoded_body_is_plain f g r r' s codings w ps :
  decode_response f g r = inl r' → rs_body r' = Decoded s →
  parse_content_encoding (hm_get_all (rs_headers r) CONTENT_ENCODING) [] = inl codings →
  Forall (λ c, c = Identity ∨ enabled f c = true) codings →
  mjoin (chunks (rs_body r)) `prefix_of` w → (body_error (rs_body r) = None → mjoin (chunks (rs_body r)) = w) →
  decoded_texts (reverse codings) w = Some ps →
  let p := default w (last ps) in
  match read_body s with
  | (q, None) => q = p
  | (q, Some e) =>
      q `prefix_of` p ∧
      (Upstream <$> body_error (rs_body r) = Some e ∨ ∃ l, e = TooLarge l ∧ Exists (λ p, l < zlen p) ps)
  end.
Proof.
  intros Hr Hs Hcs Hen Hw Hfull Hps p. destruct (decoded_body f g r r' s Hr Hs) as (cs & Hcs' & _ & ->).
  rewrite Hcs in Hcs'. injection Hcs' as <-. apply Forall_reverse in Hen.
  apply (decode_layers_reads f g _ true (chunk_stream (data_stream (rs_body r))) w ps
    (λ e, Upstream <$> body_error (rs_body r) = Some e)) in Hps; [exact Hps|done|].
  unfold reads_on. rewrite read_data_stream. destruct (body_error (rs_body r)) as [e|]; cbn; auto.
Qed.
End Plain.

(** ** A reader to look at *)

Import Sample.

Lemma advertised_reads_back_witness :
  parse_content_encoding [accept_encoding_value BROWSER_CODING_ORDER] [] = inl [Gzip; Deflate; Brotli; Zstd].
Proof. exact (advertised_reads_back BROWSER_CODING_ORDER). Defined.

Section Sample.

(** Decoding repeats every byte three times. *)
Definition triple (w : bytes) : bytes := w ≫= λ c, [c; c; c].

#[local] Instance tripling : ReaderApi := {|
  Reader := unit;
  reader_new := λ _, tt;
  reader_feed := λ r f,
    (r, match f with
        | FedPending => [Gives Pends]
        | FedChunk c => if decide (c = []) then [] else [Gives (Chunk (triple c))]
        | FedError e => [Gives (Fails e)]
        | FedEnd => [GivesEnd]
        end);
|}.

Lemma triple_app w v : triple (w ++ v) = triple w ++ triple v.
Proof. apply bind_app. Qed.

Lemma tripling_feeds e fs : Forall quiet fs → given_by e fs = (triple (fed_bytes fs), Open).
Proof.
  intros Hfs. unfold given_by. generalize (reader_new e). induction Hfs as [|f fs Hf Hfs IH]; intros r; [done|].
  unfold fed_bytes. rewrite bind_cons. fold (fed_bytes fs). specialize (IH r).
  destruct f as [|c|e'|]; cbn in *; [| |done|done]; destruct (feeds _ fs) as [r' more]; cbn in *.
  - done.
  - rewrite triple_app. case_decide as Hc; [by rewrite Hc|]. cbn. by rewrite IH.
Qed.

Lemma tripling_last e fs f :
  Forall quiet fs →
  given_by e (fs ++ [f]) =
    match read_given (reader_feed tt f).2 with (q, o) => (triple (fed_bytes fs) ++ q, o) end.
Proof.
  intros Hfs. apply (tripling_feeds e) in Hfs. unfold given_by in *. rewrite feeds_snoc.
  destruct (feeds (reader_new e) fs) as [[] more]. cbn [snd] in Hfs.
  destruct (reader_feed _ f) as [r' given]. cbn [snd]. by rewrite read_given_app, Hfs.
Qed.

#[local] Instance tripling_laws : ReaderLaws (λ _ w, Some (triple w)).
Proof.
  split.
  - intros e w p fs [= <-] Hfs [v ->]. rewrite tripling_feeds by done. rewrite triple_app. by apply prefix_app_r.
  - intros e w p fs [= <-] Hfs <-. rewrite tripling_last by done. cbn. by rewrite app_nil_r.
  - intros e w p fs error [= <-] Hfs [v ->]. rewrite tripling_last by done. cbn. rewrite app_nil_r, triple_app.
    split; [by apply prefix_app_r|done].
Qed.

(** A response in two codings, its body in two chunks. *)
Definition packed : Response Body :=
  mk_response 200 HTTP_11
    (hm_append CONTENT_ENCODING b#"identity, br" (hm_append CONTENT_ENCODING b#"gzip" (hm_insert CONTENT_LENGTH b#"2" hm_empty)))
    (Stream [SChunk b#"a"; SPending; SChunk b#"b"] None) None.

Definition unpacked : ByteStream DecodeError :=
  Answers (Chunk b#"aaaaaaaaa") 1 (Answers Pends 1 (Answers (Chunk b#"bbbbbbbbb") 2 (Ends 2))).

Lemma packed_decodes :
  decode_response default_features default_guard packed =
    inl (mk_response 200 HTTP_11 (hm_remove CONTENT_LENGTH (hm_remove CONTENT_ENCODING (rs_headers packed)))
      (Decoded unpacked) None).
Proof. reflexivity. Qed.


Lemma decode_response_exact_witness :
  ∃ codings, parse_content_encoding (hm_get_all (rs_headers packed) CONTENT_ENCODING) [] = inl codings ∧
    codings = [Gzip; Identity; Brotli].
Proof.
  pose proof (decode_response_exact default_features default_guard packed) as H. rewrite packed_decodes in H.
  destruct H as (_ & _ & _ & [[H _]|(codings & H & _)]); [discriminate H|].
  exists codings. split; [exact H|]. cbn in H. by injection H as <-.
Defined.

Lemma decoded_body_is_plain_witness :
  (b#"aaaaaaaaabbbbbbbbb" : bytes) = triple (triple b#"ab").
Proof.
  exact (decoded_body_is_plain (plain := λ _ w, Some (triple w)) default_features default_guard packed _ unpacked
    [Gzip; Identity; Brotli] b#"ab" [triple b#"ab"; triple (triple b#"ab")] packed_decodes eq_refl eq_refl
    ltac:(repeat constructor; (by left) || (by right)) (reflexivity _) (λ _, eq_refl) eq_refl).
Defined.

(** The guard's stream is not fused: after it refused a chunk for its ratio, the next
    poll may deliver what follows, and the refused bytes are missing. *)
Lemma refusal_is_not_final :
  answers (guarded_stream (mk_guard 100 2) Gzip 0
    (Answers (Chunk b#"aaa") 1 (Answers (Chunk b#"b") 10 (Ends 10)))) =
    [(Fails (TooLarge 2), 1); (Chunk b#"b", 10)].
Proof. reflexivity. Qed.
End Sample.
