(* ===== verification/Multipart.v ===== *)
(** [chromulate]: [multipart/form-data] bodies (src/crates/chromulate/src/multipart.rs).

    A name, a filename and a media type are their bytes.  The random draws of a
    boundary are the list of what they will give; opening a file is an answer of the
    environment.  The body's stream is the state [FormStream] and its poll. *)
From S2P Require Import Prelude RustStr Extern Body.
Local Open Scope Z_scope.

Definition BOUNDARY_PREFIX : str := b#"----WebKitFormBoundary".
Definition BOUNDARY_TAIL : nat := 16.
Definition BOUNDARY_ALPHABET : str := b#"0123456789ABCDEFGHIJKLMNOPQRSTUVWXYZabcdefghijklmnopqrstuvwxyz".

Definition QUOTE : ascii := "034"%char.
Definition CR : ascii := "013"%char.
Definition LF : ascii := "010"%char.
Definition CRLF : str := [CR; LF].

Inductive Source :=
  | InMemory (chunk : option bytes)
  | Streaming (stream : ChunkStream) (length : option Z).

Definition source_length (s : Source) : option Z :=
  match s with
  | InMemory chunk => Some (match chunk with Some c => zlen c | None => 0 end)
  | Streaming _ length => length
  end.

Definition inspectable (s : Source) : option bytes :=
  match s with InMemory chunk => chunk | Streaming _ _ => None end.

(** The error is the media type that could not be used. *)
Record Part := mk_part {
  file_name : option str;
  mime : option str;
  part_error : option str;
  source : Source;
}.

Definition from_source (s : Source) : Part := mk_part None None None s.
Definition part_bytes (content : bytes) : Part := from_source (InMemory (Some content)).
Definition part_stream (content : ChunkStream) : Part := from_source (Streaming content None).
Definition stream_with_length (content : ChunkStream) (length : Z) : Part := from_source (Streaming content (Some length)).

(** [Part::file] of an opened file: its last component, and its length if it is one. *)
Definition part_file (name : option str) (length : option Z) (content : ChunkStream) : Part :=
  mk_part name (Some b#"application/octet-stream") None (Streaming content length).

Definition set_file_name (name : str) (p : Part) : Part := mk_part (Some name) (mime p) (part_error p) (source p).

Definition mime_str `{HeaderValueApi} (m : str) (p : Part) : Part :=
  match from_str m with
  | Some value => mk_part (file_name p) (Some value) (part_error p) (source p)
  | None => mk_part (file_name p) (mime p) (match part_error p with None => Some m | e => e end) (source p)
  end.

Record Form := mk_form { parts : list (str * Part); form_error : option str }.

Definition new : Form := mk_form [] None.

Definition add_part (name : str) (p : Part) (f : Form) : Form :=
  match form_error f with
  | None => mk_form (parts f ++ [(name, mk_part (file_name p) (mime p) None (source p))]) (part_error p)
  | Some e => mk_form (parts f ++ [(name, p)]) (Some e)
  end.

Definition add_text (name value : str) (f : Form) : Form := add_part name (part_bytes value) f.

(** ** Escaping *)

Inductive Slot := Name | FileName.

Definition breaks_out (c : ascii) : bool := bool_decide (c ∈ [QUOTE; CR; LF]).

Fixpoint escape_loop (slot : Slot) (characters : str) : str :=
  match characters with
  | [] => []
  | c :: rest =>
      if decide (c = QUOTE) then b#"%22" ++ escape_loop slot rest
      else if decide (c = CR) then
        match slot with
        | Name =>
            b#"%0D%0A" ++
            match rest with
            | d :: rest' => if decide (d = LF) then escape_loop slot rest' else escape_loop slot rest
            | [] => []
            end
        | FileName => b#"%0D" ++ escape_loop slot rest
        end
      else if decide (c = LF) then
        match slot with Name => b#"%0D%0A" | FileName => b#"%0A" end ++ escape_loop slot rest
      else c :: escape_loop slot rest
  end.

Definition escape_parameter (value : str) (slot : Slot) : str :=
  if existsb breaks_out value then escape_loop slot value else value.

Definition header_block (name : str) (file_name mime : option str) : bytes :=
  b#"Content-Disposition: form-data; name=" ++ [QUOTE] ++ escape_parameter name Name ++ [QUOTE] ++
  match file_name with
  | Some file_name => b#"; filename=" ++ [QUOTE] ++ escape_parameter file_name FileName ++ [QUOTE]
  | None => []
  end ++ CRLF ++
  match file_name with
  | Some _ => b#"Content-Type: " ++ default b#"application/octet-stream" mime ++ CRLF
  | None => []
  end ++ CRLF.

(** ** Encoding *)

Definition collides (boundary : str) (blocks : list bytes) (sources : list Source) : bool :=
  existsb (λ block, contains_str block boundary) blocks
  || existsb (λ content, contains_str content boundary) (omap inspectable sources).

(** [draw_boundary] from the indices the generator gives. *)
Definition draw_boundary (indices : list nat) : str :=
  BOUNDARY_PREFIX ++ ((λ i, default "0"%char (BOUNDARY_ALPHABET !! i)) <$> take BOUNDARY_TAIL indices).

(** The first of the draws that collides with nothing; [None] while there is none. *)
Fixpoint pick_boundary (draws : list str) (blocks : list bytes) (sources : list Source) : option str :=
  match draws with
  | [] => None
  | candidate :: draws =>
      if negb (collides candidate blocks sources) then Some candidate else pick_boundary draws blocks sources
  end.

Record EncodedPart := mk_encoded { head : bytes; e_source : Source }.

Record FormStream := mk_stream {
  remaining : list EncodedPart;
  current : option Source;
  closing : option bytes;
}.

(** [u64::checked_add]. *)
Definition checked_add_u64 (x y : Z) : option Z := if x + y <=? u64_max then Some (x + y) else None.

Definition delimiter (boundary : str) (index : nat) (block : bytes) : bytes :=
  (match index with O => [] | _ => CRLF end) ++ b#"--" ++ boundary ++ CRLF ++ block.

(** The loop over the parts from the [index]th: the encoded parts and the running total. *)
Fixpoint encode_parts (boundary : str) (index : nat) (blocks : list (bytes * Source)) (total : option Z)
    : list EncodedPart * option Z :=
  match blocks with
  | [] => ([], total)
  | (block, source) :: rest =>
      let head := delimiter boundary index block in
      let total :=
        match total, source_length source with
        | Some sum, Some length => sum ← checked_add_u64 sum (zlen head); checked_add_u64 sum length
        | _, _ => None
        end in
      let '(encoded, total) := encode_parts boundary (S index) rest total in
      (mk_encoded head source :: encoded, total)
  end.

Definition closing_of (boundary : str) (empty : bool) : bytes :=
  (if empty then [] else CRLF) ++ b#"--" ++ boundary ++ b#"--" ++ CRLF.

Definition blocks_of (f : Form) : list (bytes * Source) :=
  (λ p, (header_block p.1 (file_name p.2) (mime p.2), source p.2)) <$> parts f.

(** The outer [None] is the loop over the draws still running. *)
Definition encode_with `{HeaderValueApi} (f : Form) (draws : list str)
    : option ((str * FormStream * option Z) + str) :=
  match form_error f with
  | Some error => Some (inr error)
  | None =>
      let blocks := blocks_of f in
      boundary ← pick_boundary draws blocks.*1 blocks.*2;
      Some match from_str (b#"multipart/form-data; boundary=" ++ boundary) with
           | None => inr boundary
           | Some content_type =>
               let '(parts, total) := encode_parts boundary 0 blocks (Some 0) in
               let closing := closing_of boundary (bool_decide (parts = [])) in
               let total := sum ← total; checked_add_u64 sum (zlen closing) in
               inl (content_type, mk_stream parts None (Some closing), total)
           end
  end.

(** ** The stream *)

(** The loop of [poll_next] over a stream's empty chunks: [None] is the stream's end. *)
Fixpoint poll_nonempty (s : ChunkStream) : option (Poll (option (bytes + BodyError)) * ChunkStream) :=
  match s with
  | [] => None
  | SPending :: s => Some (Pending, s)
  | SChunk [] :: s => poll_nonempty s
  | SChunk chunk :: s => Some (Ready (Some (inl chunk)), s)
  | SError error :: s => Some (Ready (Some (inr error)), s)
  end.

Definition next_part (st : FormStream) : Poll (option (bytes + BodyError)) * FormStream :=
  match remaining st with
  | part :: rest => (Ready (Some (inl (head part))), mk_stream rest (Some (e_source part)) (closing st))
  | [] => (Ready (inl <$> closing st), mk_stream [] None None)
  end.

Definition form_poll_next (st : FormStream) : Poll (option (bytes + BodyError)) * FormStream :=
  match current st with
  | None => next_part st
  | Some (InMemory (Some (c :: content))) =>
      (Ready (Some (inl (c :: content))), mk_stream (remaining st) (Some (InMemory None)) (closing st))
  | Some (InMemory _) => next_part st
  | Some (Streaming s length) =>
      match poll_nonempty s with
      | Some (answer, s) => (answer, mk_stream (remaining st) (Some (Streaming s length)) (closing st))
      | None => next_part st
      end
  end.

(** ** The stream as the list of what its polls answer *)

Fixpoint without_empty (s : ChunkStream) : ChunkStream :=
  match s with
  | [] => []
  | SChunk [] :: s => without_empty s
  | e :: s => e :: without_empty s
  end.

Definition source_events (s : Source) : ChunkStream :=
  match s with
  | InMemory (Some (c :: content)) => [SChunk (c :: content)]
  | InMemory _ => []
  | Streaming s _ => without_empty s
  end.

Definition part_events (p : EncodedPart) : ChunkStream := SChunk (head p) :: source_events (e_source p).

Definition current_events (st : FormStream) : ChunkStream :=
  match current st with Some s => source_events s | None => [] end.

Definition form_stream (st : FormStream) : ChunkStream :=
  current_events st
  ++ mjoin (part_events <$> remaining st)
  ++ match closing st with Some c => [SChunk c] | None => [] end.

Lemma poll_nonempty_spec s k :
  match poll_nonempty s with
  | Some (answer, s') =>
      stream_poll_next (without_empty s ++ k) = (answer, without_empty s' ++ k)
  | None => without_empty s = []
  end.
Proof.
  by induction s as [|[|[|c chunk]|e] s IH].
Qed.

Lemma next_part_stream st :
  current_events st = [] →
  let '(answer, st') := next_part st in stream_poll_next (form_stream st) = (answer, form_stream st').
Proof.
  intros Hno. unfold form_stream, next_part. rewrite Hno. destruct (remaining st) as [|p rest].
  - by destruct (closing st).
  - cbn [fmap list_fmap mjoin list_join app]. unfold current_events. cbn [current remaining closing].
    by rewrite <- app_assoc.
Qed.

(** The form's poll is the poll of the stream it stands for: each part's head, then
    its content without empty chunks, then the closing delimiter; an unready or failing
    part is passed through where it stands. *)
Theorem form_stream_refines st :
  let '(answer, st') := form_poll_next st in stream_poll_next (form_stream st) = (answer, form_stream st').
Proof.
  unfold form_poll_next. destruct (current st) as [[[[|c content]|]|s l]|] eqn:Hcur.
  - apply next_part_stream. unfold current_events. by rewrite Hcur.
  - unfold form_stream, current_events. by rewrite Hcur.
  - apply next_part_stream. unfold current_events. by rewrite Hcur.
  - pose proof (poll_nonempty_spec s) as Hp. destruct (poll_nonempty s) as [[answer s']|].
    + unfold form_stream, current_events. rewrite Hcur. apply Hp.
    + apply next_part_stream. unfold current_events. rewrite Hcur. by apply Hp.
  - apply next_part_stream. unfold current_events. by rewrite Hcur.
Qed.

(** ** What is on the wire *)

(** What a source that completes gives. *)
Definition source_content (s : Source) : bytes :=
  match s with InMemory chunk => default [] chunk | Streaming s _ => mjoin (stream_chunks s) end.

(** A source that completes, as long as it said it would be. *)
Definition source_fine (s : Source) : Prop :=
  match s with
  | InMemory _ => True
  | Streaming s length => stream_error s = None ∧ match length with Some n => n = zlen (mjoin (stream_chunks s)) | None => True end
  end.

Fixpoint wire_parts (boundary : str) (index : nat) (blocks : list (bytes * Source)) : bytes :=
  match blocks with
  | [] => []
  | (block, source) :: rest =>
      delimiter boundary index block ++ source_content source ++ wire_parts boundary (S index) rest
  end.

Definition wire (boundary : str) (blocks : list (bytes * Source)) : bytes :=
  wire_parts boundary 0 blocks ++ closing_of boundary (bool_decide (blocks = [])).

Definition stream_bytes (s : ChunkStream) : bytes := mjoin (stream_chunks s).

Lemma stream_chunks_app s k :
  stream_error s = None → stream_chunks (s ++ k) = stream_chunks s ++ stream_chunks k ∧ stream_error (s ++ k) = stream_error k.
Proof. induction s as [|[|c|e] s IH]; cbn; intros He; [done|by apply IH| |done]. destruct (IH He) as [-> ->]. done. Qed.

Lemma without_empty_spec s : stream_bytes (without_empty s) = stream_bytes s ∧ stream_error (without_empty s) = stream_error s.
Proof.
  induction s as [|[|[|c k]|e] s [IH1 IH2]]; try done. split; [|done].
  change ((c :: k) ++ stream_bytes (without_empty s) = (c :: k) ++ stream_bytes s). by rewrite IH1.
Qed.

Lemma source_events_spec s :
  source_fine s → stream_bytes (source_events s) = source_content s ∧ stream_error (source_events s) = None.
Proof.
  destruct s as [[[|c k]|]|s l]; cbn; try done. { by rewrite app_nil_r. }
  intros [He _]. destruct (without_empty_spec s) as [Hb ->]. done.
Qed.

Lemma stream_bytes_app s k :
  stream_error s = None → stream_bytes (s ++ k) = stream_bytes s ++ stream_bytes k ∧ stream_error (s ++ k) = stream_error k.
Proof.
  intros He. destruct (stream_chunks_app s k He) as [Hc He']. split; [|done]. unfold stream_bytes. rewrite Hc. apply join_app.
Qed.

Lemma encode_parts_spec boundary index blocks total :
  Forall (λ b, source_fine b.2) blocks →
  let '(encoded, total') := encode_parts boundary index blocks total in
  let events : ChunkStream := mjoin (part_events <$> encoded) in
  stream_bytes events = wire_parts boundary index blocks ∧ stream_error events = None ∧
  (encoded = [] ↔ blocks = []) ∧
  (∀ n, total' = Some n → ∃ n0, total = Some n0 ∧ n = n0 + zlen (wire_parts boundary index blocks)).
Proof.
  revert index total. induction blocks as [|[block source] blocks IH]; intros index total Hfine; cbn [encode_parts wire_parts].
  { split_and!; try done. intros n ->. exists n. change (zlen []) with 0. split; [done|lia]. }
  apply Forall_cons in Hfine as [Hs Hfine]. cbn [snd] in Hs.
  set (t' := match total with Some _ => _ | None => None end). specialize (IH (S index) t' Hfine).
  destruct (encode_parts boundary (S index) blocks t') as [encoded total']. destruct IH as (Hb & He & _ & Ht).
  destruct (source_events_spec source Hs) as [Hsb Hse].
  set (events := mjoin (part_events <$> encoded) : ChunkStream) in *.
  change (mjoin (part_events <$> (mk_encoded (delimiter boundary index block) source :: encoded)))
    with (SChunk (delimiter boundary index block) :: (source_events source ++ events)).
  destruct (stream_bytes_app (source_events source) events Hse) as [Hab Hae].
  split_and!.
  - change (stream_bytes (SChunk ?d :: ?s)) with (d ++ stream_bytes s). by rewrite Hab, Hsb, Hb.
  - cbn [stream_error]. by rewrite Hae.
  - done.
  - intros n (n1 & Ht' & ->)%Ht. unfold t', checked_add_u64 in Ht'. destruct total as [sum|]; [|done].
    destruct (source_length source) as [len|] eqn:Hlen; [|done].
    destruct (sum + _ <=? u64_max) eqn:?; [|done]. cbn [mbind option_bind] in Ht'. case_match; [|done].
    injection Ht' as <-. exists sum. split; [done|]. rewrite !zlen_app.
    assert (len = zlen (source_content source)); [|lia].
    destruct source as [[c|]|s l]; simpl in *; [by simplify_eq..|]. destruct Hs as [_ Hs]. by rewrite Hlen in Hs.
Qed.

(** ** A reader of forms

    RFC 2046's delimiters and RFC 7578's part headers, read with no knowledge of the
    encoder: a part's content ends at the first line break followed by two dashes and
    the boundary. *)

Definition read_file (s : str) : option (option (str * str) * str) :=
  match strip_prefix (b#"; filename=" ++ [QUOTE]) s with
  | None => rest ← strip_prefix CRLF s; Some (None, rest)
  | Some s =>
      '(file_name, s) ← find_str [QUOTE] s;
      s ← strip_prefix (CRLF ++ b#"Content-Type: ") s;
      '(mime, s) ← find_str CRLF s;
      Some (Some (file_name, mime), s)
  end.

(** One part: its name, its filename and media type if it has them, its content. *)
Definition read_part (s : str) : option (str * option (str * str) * bytes) :=
  s ← strip_prefix (b#"Content-Disposition: form-data; name=" ++ [QUOTE]) s;
  '(name, s) ← find_str [QUOTE] s;
  '(file, s) ← read_file s;
  content ← strip_prefix CRLF s;
  Some (name, file, content).

Fixpoint read_parts (fuel : nat) (boundary s : str) : option (list (str * option (str * str) * bytes)) :=
  match fuel with
  | O => None
  | S fuel =>
      if decide (s = b#"--" ++ CRLF) then Some []
      else
        s ← strip_prefix CRLF s;
        '(part, s) ← find_str (CRLF ++ b#"--" ++ boundary) s;
        part ← read_part part;
        rest ← read_parts fuel boundary s;
        Some (part :: rest)
  end.

Definition read_form (boundary body : str) : option (list (str * option (str * str) * bytes)) :=
  s ← strip_prefix (b#"--" ++ boundary) body; read_parts (S (length s)) boundary s.

(** ** Escaping, against its reference *)

(** The reference of the two modes: newlines normalised to CRLF, and the three bytes
    replaced one by one. *)
Fixpoint normalise_newlines (s : str) : str :=
  match s with
  | [] => []
  | c :: rest =>
      if decide (c = CR) then
        CRLF ++ match rest with
                | d :: rest' => if decide (d = LF) then normalise_newlines rest' else normalise_newlines rest
                | [] => []
                end
      else if decide (c = LF) then CRLF ++ normalise_newlines rest
      else c :: normalise_newlines rest
  end.

Definition escape_byte (c : ascii) : str :=
  if decide (c = QUOTE) then b#"%22" else if decide (c = CR) then b#"%0D" else if decide (c = LF) then b#"%0A" else [c].

Definition escape_reference (slot : Slot) (s : str) : str :=
  mjoin (escape_byte <$> match slot with Name => normalise_newlines s | FileName => s end).

Lemma str_strong_ind (P : str → Prop) : (∀ s, (∀ t, (length t < length s)%nat → P t) → P s) → ∀ s, P s.
Proof.
  intros Hstep s. assert (Hall : ∀ n s, (length s <= n)%nat → P s); [|by eapply Hall].
  induction n as [|n IH]; intros u Hu; apply Hstep; intros t Ht; [lia|apply IH; lia].
Qed.

Lemma escape_loop_reference slot s : escape_loop slot s = escape_reference slot s.
Proof.
  unfold escape_reference. destruct slot.
  - induction s as [[|c s] IH] using str_strong_ind; [done|]. cbn [escape_loop normalise_newlines].
    destruct (decide (c = QUOTE)) as [->|Hq].
    { rewrite !decide_False by done. cbn [fmap list_fmap mjoin list_join]. rewrite (IH s) by (simpl; lia).
      unfold escape_byte at 2. by rewrite decide_True. }
    destruct (decide (c = CR)) as [->|Hc].
    { destruct s as [|d s]; [done|]. case_decide; [rewrite (IH s) by (simpl; lia)|rewrite (IH (d :: s)) by (simpl; lia)]; done. }
    destruct (decide (c = LF)) as [->|Hl]; [rewrite (IH s) by (simpl; lia); done|].
    cbn [fmap list_fmap mjoin list_join]. rewrite (IH s) by (simpl; lia). unfold escape_byte at 2.
    by rewrite !decide_False.
  - induction s as [|c s IH]; [done|]. cbn [escape_loop]. rewrite IH.
    change (mjoin (escape_byte <$> c :: s)) with (escape_byte c ++ mjoin (escape_byte <$> s)).
    generalize (mjoin (escape_byte <$> s)). intros r. unfold escape_byte. repeat case_decide; done.
Qed.

Lemma escape_byte_inert c : Forall (λ d, breaks_out d = false) (escape_byte c).
Proof.
  unfold escape_byte. repeat case_decide; try by repeat constructor. constructor; [|constructor].
  apply bool_decide_eq_false. rewrite !elem_of_cons, elem_of_nil. tauto.
Qed.

Lemma escape_reference_inert slot s : Forall (λ d, breaks_out d = false) (escape_reference slot s).
Proof.
  unfold escape_reference. apply Forall_join, Forall_fmap, Forall_true. intros c. apply escape_byte_inert.
Qed.

Lemma inert_unchanged slot s : existsb breaks_out s = false → escape_reference slot s = s.
Proof.
  intros Hs. assert (Hf : Forall (λ c, breaks_out c = false) s).
  { apply Forall_forall. intros c Hc. apply not_true_is_false. intros Hb. apply not_true_iff_false in Hs. apply Hs.
    apply existsb_exists. exists c. by rewrite <- list_elem_of_In. }
  assert (Hn : normalise_newlines s = s ∧ mjoin (escape_byte <$> s) = s).
  { clear Hs. induction Hf as [|c s Hc Hf [IH1 IH2]]; [done|].
    apply bool_decide_eq_false in Hc. rewrite !elem_of_cons, elem_of_nil in Hc. cbn [normalise_newlines].
    rewrite !decide_False by tauto. rewrite IH1. split; [done|].
    change (escape_byte c ++ mjoin (escape_byte <$> s) = c :: s). rewrite IH2.
    unfold escape_byte. by rewrite !decide_False by tauto. }
  unfold escape_reference. destruct slot; by rewrite ?(proj1 Hn), (proj2 Hn).
Qed.

(** Escaping a name or a filename is replacing each quote, carriage return and line
    feed by its percent escape, after the newlines of a name were normalised; nothing
    else changes, and what remains cannot end the quoted string or the header line. *)
Theorem escape_exact value slot :
  escape_parameter value slot = escape_reference slot value ∧
  Forall (λ c, breaks_out c = false) (escape_parameter value slot) ∧
  (existsb breaks_out value = false → escape_parameter value slot = value).
Proof.
  unfold escape_parameter. assert (He : (if existsb breaks_out value then escape_loop slot value else value) = escape_reference slot value).
  { destruct (existsb breaks_out value) eqn:E; [apply escape_loop_reference|by rewrite inert_unchanged]. }
  rewrite He. split_and!; [done|apply escape_reference_inert|apply inert_unchanged].
Qed.

(** ** What the reader finds *)

Definition line_free (s : str) : Prop := Forall (λ c, c ≠ CR ∧ c ≠ LF) s.

Lemma line_free_head s t c : line_free s → s = c :: t → c ≠ CR.
Proof. intros Hs ->. by apply Forall_cons in Hs as [[? _] _]. Qed.

(** No part of a delimiter matches across the end of what precedes it. *)
Lemma delimiter_first boundary segment rest :
  line_free boundary → contains_str segment boundary = false →
  find_str (CRLF ++ b#"--" ++ boundary) (segment ++ (CRLF ++ b#"--" ++ boundary) ++ rest) = Some (segment, rest).
Proof.
  intros Hb Hno. set (D := CRLF ++ b#"--" ++ boundary). apply find_str_at. intros x c y ->.
  apply eq_None_not_Some. intros [r Hr]. apply strip_prefix_Some in Hr.
  change (c :: y ++ D ++ rest) with ((c :: y) ++ D ++ rest) in Hr.
  apply app_eq_inv in Hr as [(k & Hy & _)|(z & Hz & Hr)].
  - (* the delimiter lies in the segment *)
    apply not_true_iff_false in Hno. apply Hno, contains_str_spec. rewrite Hy. unfold D.
    exists (x ++ CRLF ++ b#"--"), k. by rewrite !app_assoc.
  - (* the segment ends inside the delimiter: the rest of it begins with CR *)
    destruct z as [|d z].
    { rewrite app_nil_r in Hz. apply not_true_iff_false in Hno. apply Hno, contains_str_spec. rewrite <- Hz. unfold D.
      exists (x ++ CRLF ++ b#"--"), []. by rewrite app_nil_r, !app_assoc. }
    injection Hr as Hd Hr. assert (Hcr : d = CR) by done. clear Hr.
    assert (Hin : CR ∈ tail D).
    { rewrite Hz. cbn [tail app]. subst d. rewrite elem_of_app. right. left. }
    change (CR ∈ LF :: "-"%char :: "-"%char :: boundary) in Hin. rewrite !elem_of_cons in Hin.
    destruct Hin as [|[|[|Hin]]]; try done. eapply Forall_forall in Hb; [|exact Hin]. by destruct Hb.
Qed.

Lemma find_quote (s rest : str) :
  Forall (λ c, breaks_out c = false) s → find_str [QUOTE] (s ++ [QUOTE] ++ rest) = Some (s, rest).
Proof. intros Hs. apply find_str_head. eapply Forall_impl; [exact Hs|]. by intros c Hc ->. Qed.

Lemma find_crlf (s rest : str) : line_free s → find_str CRLF (s ++ CRLF ++ rest) = Some (s, rest).
Proof. intros Hs. apply (find_str_head CR [LF]). eapply Forall_impl; [exact Hs|]. by intros c [Hc _]. Qed.

Lemma strip_app (p s : str) : strip_prefix p (p ++ s) = Some s.
Proof. by apply strip_prefix_Some. Qed.

(** What a part says, as its reader sees it. *)
Definition part_seen (name : str) (file_name mime : option str) (content : bytes) : str * option (str * str) * bytes :=
  (escape_parameter name Name,
   (λ f, (escape_parameter f FileName, default b#"application/octet-stream" mime)) <$> file_name, content).

Lemma read_part_block name file_name mime content :
  (∀ m, mime = Some m → line_free m) →
  read_part (header_block name file_name mime ++ content) = Some (part_seen name file_name mime content).
Proof.
  intros Hmime. unfold read_part, header_block, part_seen.
  destruct (escape_exact name Name) as (_ & Hname & _). rewrite <- !app_assoc.
  rewrite (app_assoc _ [QUOTE]), strip_app. cbn [mbind option_bind]. rewrite find_quote by done. cbn [mbind option_bind].
  destruct file_name as [f|]; cbn [fmap option_fmap option_map].
  - destruct (escape_exact f FileName) as (_ & Hf & _). unfold read_file. rewrite <- !app_assoc.
    rewrite (app_assoc _ [QUOTE]), strip_app. rewrite find_quote by done. cbn [mbind option_bind].
    rewrite (app_assoc CRLF), strip_app. cbn [mbind option_bind].
    rewrite find_crlf; [cbn [mbind option_bind]; by rewrite strip_app|].
    destruct mime as [m|]; [by apply Hmime|]. by repeat constructor.
  - cbn [app]. unfold read_file.
    assert (Hno : strip_prefix (b#"; filename=" ++ [QUOTE]) (CRLF ++ CRLF ++ content) = None) by done. rewrite Hno.
    rewrite strip_app. cbn [mbind option_bind]. by rewrite strip_app.
Qed.

Lemma contains_app_free (boundary u v : str) c :
  boundary ≠ [] → c ∉ boundary → contains_str (u ++ [c]) boundary = false → contains_str v boundary = false →
  contains_str ((u ++ [c]) ++ v) boundary = false.
Proof.
  intros Hne Hc Hu Hv. apply not_true_iff_false. intros (x & y & Hxy)%contains_str_spec.
  apply not_true_iff_false in Hu, Hv. rewrite contains_str_spec in Hu, Hv.
  apply app_eq_inv in Hxy as [(k & Hx & Hk)|(z & Hz & Hk)].
  - (* it starts within [u ++ [c]] *)
    apply app_eq_inv in Hk as [(k' & Hb & Hk')|(z & Hb & Hk')].
    + destruct k' as [|d k'].
      { apply Hu. exists x, []. rewrite Hb, !app_nil_r. exact Hx. }
      (* the boundary would go past [c] *)
      assert (Hin : c ∈ k ∨ k = []).
      { destruct k as [|e k] using rev_ind; [by right|left]. rewrite app_assoc in Hx. apply app_inj_tail in Hx as [_ <-].
        apply elem_of_app. right. by left. }
      destruct Hin as [Hin| ->]; [apply Hc; rewrite Hb, elem_of_app; by left|].
      cbn [app] in *. apply Hv. exists [], y. by rewrite Hk', Hb.
    + apply Hu. exists x, z. by rewrite Hx, Hb.
  - apply Hv. exists z, y. by rewrite Hk.
Qed.

(** What follows the first boundary. *)
Fixpoint after_boundary (boundary : str) (blocks : list (bytes * Source)) : bytes :=
  match blocks with
  | [] => b#"--" ++ CRLF
  | (block, source) :: rest =>
      CRLF ++ block ++ source_content source ++ (CRLF ++ b#"--" ++ boundary) ++ after_boundary boundary rest
  end.

Lemma wire_parts_after boundary i blocks :
  wire_parts boundary (S i) blocks ++ closing_of boundary false = (CRLF ++ b#"--" ++ boundary) ++ after_boundary boundary blocks.
Proof.
  revert i. induction blocks as [|[block source] blocks IH]; intros i; cbn [wire_parts after_boundary].
  - unfold closing_of. by rewrite <- !app_assoc.
  - unfold delimiter. rewrite <- !app_assoc. do 4 f_equal. rewrite IH. by rewrite <- !app_assoc.
Qed.

Lemma wire_after boundary blocks : wire boundary blocks = (b#"--" ++ boundary) ++ after_boundary boundary blocks.
Proof.
  unfold wire. destruct blocks as [|[block source] blocks]; cbn [wire_parts after_boundary].
  - unfold closing_of. rewrite bool_decide_true by done. cbn [app]. by rewrite <- !app_assoc.
  - rewrite bool_decide_false by done. unfold delimiter. rewrite <- !app_assoc, wire_parts_after. cbn [app].
    by rewrite <- !app_assoc.
Qed.

Lemma ends_after (s t : str) : (∃ u, t = u ++ [LF]) → ∃ u, s ++ t = u ++ [LF].
Proof. intros [u ->]. exists (s ++ u). apply app_assoc. Qed.

Lemma header_block_ends name file_name mime : ∃ u, header_block name file_name mime = u ++ [LF].
Proof. unfold header_block. do 7 apply ends_after. by exists [CR]. Qed.

Definition in_memory (s : Source) : bool := match s with InMemory _ => true | _ => false end.

Lemma collides_avoids boundary (blocks : list (bytes * Source)) :
  collides boundary blocks.*1 blocks.*2 = false →
  Forall (λ b, in_memory b.2 = true) blocks → boundary ≠ [] →
  Forall (λ b, contains_str b.1 boundary = false ∧ contains_str (source_content b.2) boundary = false) blocks.
Proof.
  intros Hc Hm Hne. apply orb_false_iff in Hc as [Hb Hs]. apply Forall_forall. intros [block source] Hin.
  rewrite Forall_forall in Hm. specialize (Hm _ Hin). split; apply not_true_iff_false; intros Hcon.
  - apply not_true_iff_false in Hb. apply Hb, existsb_exists. exists block. split; [|done].
    apply list_elem_of_In, list_elem_of_fmap. by exists (block, source).
  - apply not_true_iff_false in Hs. apply Hs, existsb_exists. destruct source as [[c|]|]; [|..|done].
    + exists c. split; [|done]. apply list_elem_of_In, list_elem_of_omap. exists (InMemory (Some c)). split; [|done].
      apply list_elem_of_fmap. by exists (block, InMemory (Some c)).
    + cbn [source_content default] in Hcon. apply contains_str_spec in Hcon as (u & v & Huv).
      symmetry in Huv. apply app_nil in Huv as [_ [? _]%app_nil]. done.
Qed.

Definition blocks_seen (ps : list (str * Part)) : list (str * option (str * str) * bytes) :=
  (λ p, part_seen p.1 (file_name p.2) (mime p.2) (source_content (source p.2))) <$> ps.

Lemma read_parts_after boundary ps fuel :
  boundary ≠ [] → line_free boundary →
  Forall (λ p, ∀ m, mime p.2 = Some m → line_free m) ps →
  Forall (λ b, contains_str b.1 boundary = false ∧ contains_str (source_content b.2) boundary = false)
    ((λ p, (header_block p.1 (file_name p.2) (mime p.2), source p.2)) <$> ps) →
  (length ps < fuel)%nat →
  read_parts fuel boundary (after_boundary boundary ((λ p, (header_block p.1 (file_name p.2) (mime p.2), source p.2)) <$> ps)) =
  Some (blocks_seen ps).
Proof.
  intros Hne Hfree. revert fuel. induction ps as [|[name p] ps IH]; intros fuel Hmime Hno Hfuel; (destruct fuel as [|fuel]; [simpl in Hfuel; lia|]).
  { cbn [read_parts fmap list_fmap after_boundary]. by rewrite decide_True. }
  apply Forall_cons in Hmime as [Hm Hmime]. rewrite fmap_cons in *. apply Forall_cons in Hno as [[Hb Hs] Hno].
  cbn [fst snd] in *. cbn [read_parts after_boundary]. rewrite decide_False by done.
  rewrite strip_app. cbn [mbind option_bind]. rewrite (app_assoc (header_block _ _ _)).
  assert (Hcr : (LF : ascii) ∉ boundary) by (intros Hin; eapply Forall_forall in Hfree; [|exact Hin]; by destruct Hfree).
  destruct (header_block_ends name (file_name p) (mime p)) as [u Hu].
  rewrite delimiter_first; [|done|].
  - cbn [mbind option_bind]. rewrite read_part_block by done. cbn [mbind option_bind].
    rewrite IH; [done|done|done|simpl in Hfuel; lia].
  - rewrite Hu in *. by apply contains_app_free.
Qed.

Lemma draw_boundary_ok indices : draw_boundary indices ≠ [] ∧ line_free (draw_boundary indices).
Proof.
  split; [done|]. unfold draw_boundary, line_free. apply Forall_app. split; [by repeat constructor|].
  apply Forall_fmap, Forall_true. intros i. unfold compose.
  assert (Hall : Forall (λ c, c ≠ CR ∧ c ≠ LF) BOUNDARY_ALPHABET) by (by repeat constructor).
  destruct (BOUNDARY_ALPHABET !! i) as [c|] eqn:E; [|by split]. by eapply Forall_lookup in Hall.
Qed.

Lemma pick_boundary_spec draws blocks sources boundary :
  pick_boundary draws blocks sources = Some boundary → boundary ∈ draws ∧ collides boundary blocks sources = false.
Proof.
  induction draws as [|d draws IH]; cbn [pick_boundary]; [done|]. destruct (collides d blocks sources) eqn:E; cbn [negb].
  - intros [? ?]%IH. split; [by right|done].
  - intros [= <-]. split; [by left|done].
Qed.

Lemma after_boundary_length boundary blocks : (length blocks <= length (after_boundary boundary blocks))%nat.
Proof.
  induction blocks as [|[block source] blocks IH]; cbn [after_boundary]; [simpl; lia|].
  rewrite !length_app. cbn [length] in *. change (length CRLF) with 2%nat. lia.
Qed.

(** C13. A form of parts in memory, encoded with any draws and read by a reader that
    knows only the [Content-Type], gives back every part in order: its name and
    filename as escaped, a media type exactly when there is a filename, and its content
    byte for byte, whatever the names and contents hold.  The stream does not fail, and
    a declared length is its length. *)
Theorem form_roundtrip `{HeaderValueLaws} f indices content_type st total :
  Forall (λ p, in_memory (source p.2) = true) (parts f) →
  Forall (λ p, ∀ m, mime p.2 = Some m → line_free m) (parts f) →
  encode_with f (draw_boundary <$> indices) = Some (inl (content_type, st, total)) →
  ∃ boundary, content_type = b#"multipart/form-data; boundary=" ++ boundary ∧
    stream_error (form_stream st) = None ∧
    read_form boundary (stream_bytes (form_stream st)) = Some (blocks_seen (parts f)) ∧
    ∀ n, total = Some n → n = zlen (stream_bytes (form_stream st)).
Proof.
  intros Hmem Hmime. unfold encode_with. destruct (form_error f); [done|].
  destruct (pick_boundary _ _ _) as [boundary|] eqn:Hpick; [|done]. cbn [mbind option_bind].
  apply pick_boundary_spec in Hpick as [(ix & -> & _)%list_elem_of_fmap Hcol]. set (boundary := draw_boundary ix) in *.
  destruct (draw_boundary_ok ix) as [Hne Hfree]. fold boundary in Hne, Hfree.
  destruct (from_str _) as [ct|] eqn:Hct; [|done]. apply from_str_Some in Hct.
  assert (Hm : Forall (λ b, in_memory b.2 = true) (blocks_of f)) by by apply Forall_fmap.
  assert (Hfine : Forall (λ b, source_fine b.2) (blocks_of f)).
  { eapply Forall_impl; [exact Hm|]. intros [? [|]] ?; done. }
  pose proof (encode_parts_spec boundary 0 (blocks_of f) (Some 0) Hfine) as Henc.
  destruct (encode_parts boundary 0 (blocks_of f) (Some 0)) as [encoded t]. destruct Henc as (Hb & He & Hnil & Ht).
  intros [= <- <- <-]. exists boundary. split; [done|].
  set (closing := closing_of boundary (bool_decide (encoded = []))).
  assert (Hwire : stream_bytes (form_stream (mk_stream encoded None (Some closing))) = wire boundary (blocks_of f) ∧
    stream_error (form_stream (mk_stream encoded None (Some closing))) = None).
  { unfold form_stream, current_events. cbn [current remaining Multipart.closing app].
    destruct (stream_bytes_app (mjoin (part_events <$> encoded)) [SChunk closing] He) as [-> ->]. split; [|done].
    rewrite Hb. unfold wire, closing. rewrite (bool_decide_ext _ _ Hnil). f_equal. apply app_nil_r. }
  destruct Hwire as [-> ->]. split_and!; [done| |].
  - unfold read_form. rewrite wire_after, strip_app. cbn [mbind option_bind].
    apply read_parts_after; [done|done|done|by apply collides_avoids|].
    pose proof (after_boundary_length boundary (blocks_of f)) as Hlen. unfold blocks_of in Hlen at 1. rewrite length_fmap in Hlen. lia.
  - intros n. destruct t as [sum|]; [|done]. cbn [mbind option_bind]. unfold checked_add_u64. case_match; [|done]. intros [= <-].
    destruct (Ht sum eq_refl) as (n0 & [= <-] & ->). unfold wire. rewrite zlen_app. unfold closing.
    rewrite (bool_decide_ext _ _ Hnil). lia.
Qed.

(** ** Concrete forms *)

Section Concrete.
Import Sample.

(** A name that tries to end its line, and a content that looks like a delimiter. *)
Definition hostile_form : Form :=
  add_part b#"photo" (set_file_name (b#"a" ++ CRLF ++ b#".png") (mime_str b#"image/png" (part_bytes (CRLF ++ b#"--" ++ BOUNDARY_PREFIX))))
    (add_text (b#"a" ++ [QUOTE; LF] ++ b#"b") b#"hello" new).

(** The first draw of these is in the content of the second form below. *)
Definition two_draws : list (list nat) := [seq 0 16; seq 16 16].

Definition unlucky_form : Form := add_text b#"t" (draw_boundary (seq 0 16)) new.

Definition read_back (f : Form) : option (list (str * option (str * str) * bytes)) :=
  match encode_with f (draw_boundary <$> two_draws) with
  | Some (inl (content_type, st, _)) =>
      boundary ← strip_prefix b#"multipart/form-data; boundary=" content_type; read_form boundary (stream_bytes (form_stream st))
  | _ => None
  end.

Example hostile_form_read :
  read_back hostile_form =
  Some [(b#"a%22%0D%0Ab", None, b#"hello");
        (b#"photo", Some (b#"a%0D%0A.png", b#"image/png"), CRLF ++ b#"--" ++ BOUNDARY_PREFIX)].
Proof. vm_compute. reflexivity. Qed.

(** The draw that collides is drawn again. *)
Example unlucky_form_redrawn :
  (λ r, match r with inl (content_type, _, total) => Some (content_type, total) | inr _ => None end)
    <$> encode_with unlucky_form (draw_boundary <$> two_draws) =
  Some (Some (b#"multipart/form-data; boundary=" ++ draw_boundary (seq 16 16), Some 170)).
Proof. vm_compute. reflexivity. Qed.

(** Two declared lengths that overflow are an unknown length, not a small one. *)
Example overflowing_total_unknown :
  (λ r, match r with inl (_, _, total) => total | inr _ => Some 0 end)
    <$> encode_with (add_part b#"b" (stream_with_length [] u64_max) (add_part b#"a" (stream_with_length [] u64_max) new))
          (draw_boundary <$> two_draws) = Some None.
Proof. vm_compute. reflexivity. Qed.

(** An unusable media type is the form's error, and the first one stays. *)
Example bad_media_type :
  encode_with (add_part b#"c" (mime_str [CR] (part_bytes [])) (add_part b#"b" (mime_str [LF] (part_bytes [])) new)) [] =
  Some (inr [LF]).
Proof. vm_compute. reflexivity. Qed.

Lemma form_roundtrip_witness :
  ∃ content_type st total boundary,
    encode_with hostile_form (draw_boundary <$> two_draws) = Some (inl (content_type, st, total)) ∧
    read_form boundary (stream_bytes (form_stream st)) = Some (blocks_seen (parts hostile_form)).
Proof.
  destruct (encode_with hostile_form (draw_boundary <$> two_draws)) as [[[[ct st] total]|e]|] eqn:E.
  - destruct (form_roundtrip hostile_form two_draws ct st total) as (boundary & _ & _ & Hread & _).
    + by repeat constructor.
    + repeat constructor; cbn; [discriminate|]. intros m [= <-]. by repeat constructor.
    + exact E.
    + exists ct, st, total, boundary. split; [reflexivity|exact Hread].
  - exfalso. revert E. vm_compute. discriminate.
  - exfalso. revert E. vm_compute. discriminate.
Defined.
End Concrete.
