(* ===== verification/CodePoint.v ===== *)
(** [chromulate-fingerprint]: code points, GREASE and the enumerations of a ClientHello
    (src/crates/chromulate-fingerprint/src/ids.rs, grease.rs and error.rs).

    A code point is the integer it wraps; the four newtypes of the source are one type
    here, so what keeps them apart is lost and nothing else.  A draw of the random
    generator is the number it gave. *)
From S2P Require Import Prelude RustStr.
Local Open Scope Z_scope.

Abbreviation ExtensionId := Z (only parsing).
Abbreviation CipherSuite := Z (only parsing).
Abbreviation NamedGroup := Z (only parsing).
Abbreviation SignatureScheme := Z (only parsing).

Definition is_u16 (x : Z) : Prop := 0 <= x < 2 ^ 16.

(** ** GREASE *)

Definition GREASE_ALL : list Z :=
  [0x0a0a; 0x1a1a; 0x2a2a; 0x3a3a; 0x4a4a; 0x5a5a; 0x6a6a; 0x7a7a;
   0x8a8a; 0x9a9a; 0xaaaa; 0xbaba; 0xcaca; 0xdada; 0xeaea; 0xfafa].

Definition is_grease (value : Z) : bool :=
  (Z.shiftr value 8 =? Z.land value 0x00ff) && (Z.land value 0x000f =? 0x000a).

Definition grease_new (value : Z) : option Z := if is_grease value then Some value else None.

Definition grease_index (value : Z) : nat := Z.to_nat (Z.shiftr value 12).

(** [random_range(0..16)] gave [i]; [None] is the index out of bounds. *)
Definition draw (i : nat) : option Z := GREASE_ALL !! i.

(** The second draw is the offset [random_range(1..16)] gave. *)
Definition draw_pair (i offset : nat) : option (Z * Z) :=
  first ← draw i;
  second ← GREASE_ALL !! ((grease_index first + offset) mod length GREASE_ALL)%nat;
  Some (first, second).

(** ** Names *)

Definition SERVER_NAME : ExtensionId := 0x0000.
Definition ALPN : ExtensionId := 0x0010.
Definition PRE_SHARED_KEY : ExtensionId := 0x0029.

Definition hex_digit (n : Z) : ascii := ascii_of_nat (Z.to_nat (if n <? 10 then 48 + n else 87 + n)).

(** [format!("{:04x}")]. *)
Definition hex4 (value : Z) : str :=
  hex_digit <$> [Z.land (Z.shiftr value 12) 15; Z.land (Z.shiftr value 8) 15; Z.land (Z.shiftr value 4) 15; Z.land value 15].

Inductive TlsVersion := Tls10 | Tls11 | Tls12 | Tls13.

#[export] Instance TlsVersion_eq_dec : EqDecision TlsVersion.
Proof. solve_decision. Defined.

Definition version_as_u16 (v : TlsVersion) : Z :=
  match v with Tls10 => 0x0301 | Tls11 => 0x0302 | Tls12 => 0x0303 | Tls13 => 0x0304 end.

Definition version_from_u16 (value : Z) : option TlsVersion :=
  if value =? 0x0301 then Some Tls10
  else if value =? 0x0302 then Some Tls11
  else if value =? 0x0303 then Some Tls12
  else if value =? 0x0304 then Some Tls13
  else None.

Definition ja4_code (v : TlsVersion) : str :=
  match v with Tls10 => b#"10" | Tls11 => b#"11" | Tls12 => b#"12" | Tls13 => b#"13" end.

Inductive Transport := Tcp | Quic.

#[export] Instance Transport_eq_dec : EqDecision Transport.
Proof. solve_decision. Defined.

Definition ja4_char (t : Transport) : ascii := match t with Tcp => "t" | Quic => "q" end%char.

Inductive CertificateCompression := Zlib | Brotli | Zstd | OtherCompression (value : Z).

Definition compression_from_name (name : str) : option CertificateCompression :=
  if decide (name = b#"zlib") then Some Zlib
  else if decide (name = b#"brotli") then Some Brotli
  else if decide (name = b#"zstd") then Some Zstd
  else None.

Definition compression_as_u16 (c : CertificateCompression) : Z :=
  match c with Zlib => 1 | Brotli => 2 | Zstd => 3 | OtherCompression value => value end.

Definition compression_from_u16 (value : Z) : CertificateCompression :=
  if value =? 1 then Zlib else if value =? 2 then Brotli else if value =? 3 then Zstd else OtherCompression value.

Inductive PskKeyExchangeMode := PskKe | PskDheKe | OtherMode (value : Z).

Definition mode_from_name (name : str) : option PskKeyExchangeMode :=
  if decide (name = b#"psk_ke") then Some PskKe
  else if decide (name = b#"psk_dhe_ke") then Some PskDheKe
  else None.

Definition mode_as_u8 (m : PskKeyExchangeMode) : Z :=
  match m with PskKe => 0 | PskDheKe => 1 | OtherMode value => value end.

Definition mode_from_u8 (value : Z) : PskKeyExchangeMode :=
  if value =? 0 then PskKe else if value =? 1 then PskDheKe else OtherMode value.

Inductive EcPointFormat := Uncompressed | AnsiX962CompressedPrime | AnsiX962CompressedChar2 | OtherFormat (value : Z).

Definition format_from_name (name : str) : option EcPointFormat :=
  if decide (name = b#"uncompressed") then Some Uncompressed
  else if decide (name = b#"ansiX962_compressed_prime") then Some AnsiX962CompressedPrime
  else if decide (name = b#"ansiX962_compressed_char2") then Some AnsiX962CompressedChar2
  else None.

Definition format_as_u8 (f : EcPointFormat) : Z :=
  match f with Uncompressed => 0 | AnsiX962CompressedPrime => 1 | AnsiX962CompressedChar2 => 2 | OtherFormat value => value end.

Definition format_from_u8 (value : Z) : EcPointFormat :=
  if value =? 0 then Uncompressed else if value =? 1 then AnsiX962CompressedPrime
  else if value =? 2 then AnsiX962CompressedChar2 else OtherFormat value.

(** ** Errors *)

Inductive SpecError :=
  | DuplicateExtension (value : Z)
  | PreSharedKeyNotLast (index len : nat)
  | MisplacedGrease (value : Z) (index : nat)
  | UnpinnableExtension (value : Z)
  | DuplicatePseudoHeader (name : str).

(** ** Facts *)

Lemma grease_table value : is_u16 value → is_grease value = bool_decide (value ∈ GREASE_ALL).
Proof.
  intros Hv. unfold is_u16 in Hv. unfold is_grease. change 0x00ff with (Z.ones 8). change 0x000f with (Z.ones 4).
  rewrite !Z.land_ones, Z.shiftr_div_pow2 by lia. change (2 ^ 8) with 256. change (2 ^ 4) with 16.
  apply eq_iff_eq_true. rewrite bool_decide_eq_true, andb_true_iff, !Z.eqb_eq. split.
  - intros [Hh Hl]. assert (Hk : ∃ k, value = 4112 * k + 2570 ∧ 0 <= k < 16).
    { exists (value / 256 / 16). assert (Hh' : value = 257 * (value / 256)) by (rewrite (Z.div_mod value 256) at 1; lia).
      assert (0 <= value / 256 < 256) by (split; [apply Z.div_pos; lia|apply Z.div_lt_upper_bound; lia]).
      generalize dependent (value / 256). intros h Hh Hh' Hr. subst value. clear Hh Hv.
      Z.to_euclidean_division_equations. lia. }
    destruct Hk as (k & -> & Hk). clear Hh Hl Hv. unfold GREASE_ALL. rewrite !elem_of_cons. lia.
  - unfold GREASE_ALL. rewrite !elem_of_cons, elem_of_nil. intros Hin. Z.to_euclidean_division_equations. lia.
Qed.

Lemma grease_table_facts i value : GREASE_ALL !! i = Some value → is_grease value = true ∧ is_u16 value ∧ grease_index value = i.
Proof. intros Hi. do 16 (destruct i as [|i]; [injection Hi as <-; by vm_compute|]). done. Qed.

(** Two different GREASE values whatever is drawn. *)
Lemma draw_pair_spec i offset :
  (i < 16)%nat → (1 <= offset < 16)%nat →
  ∃ first second, draw_pair i offset = Some (first, second) ∧ first ≠ second ∧
    first ∈ GREASE_ALL ∧ second ∈ GREASE_ALL.
Proof.
  intros Hi Ho. unfold draw_pair, draw. change (length GREASE_ALL) with 16%nat.
  destruct (lookup_lt_is_Some_2 GREASE_ALL i) as [first Hf]; [done|]. rewrite Hf. cbn [mbind option_bind].
  destruct (grease_table_facts _ _ Hf) as (_ & _ & Hix).
  destruct (lookup_lt_is_Some_2 GREASE_ALL ((grease_index first + offset) mod 16)) as [second Hs].
  { by apply Nat.mod_upper_bound. }
  rewrite Hs. cbn [mbind option_bind]. exists first, second. split_and!; [done| |by eapply list_elem_of_lookup_2|by eapply list_elem_of_lookup_2].
  intros <-. destruct (grease_table_facts _ _ Hs) as (_ & _ & Hix'). rewrite Hix in Hix'. clear -Hi Ho Hix'.
  assert (Hc : (i + offset < 16 ∨ 16 <= i + offset)%nat) by lia. destruct Hc.
  - rewrite Nat.mod_small in Hix' by lia. lia.
  - replace (i + offset)%nat with (i + offset - 16 + 1 * 16)%nat in Hix' by lia. rewrite Nat.Div0.mod_add, Nat.mod_small in Hix' by lia. lia.
Qed.

Lemma code_hex_digit n : 0 <= n < 16 → code (hex_digit n) = if n <? 10 then 48 + n else 87 + n.
Proof. intros Hn. unfold hex_digit. apply code_byte. case_match; lia. Qed.

Lemma hex_digit_inj m n : 0 <= m < 16 → 0 <= n < 16 → hex_digit m = hex_digit n → m = n.
Proof.
  intros Hm Hn Heq. apply (f_equal code) in Heq. rewrite !code_hex_digit in Heq by done. repeat case_match; lia.
Qed.

Lemma hex_digit_plain n c : 0 <= n < 16 → code c < 48 ∨ 57 < code c < 97 → hex_digit n ≠ c.
Proof. intros Hn Hc <-. rewrite code_hex_digit in Hc by done. case_match; lia. Qed.

Lemma nibble x : 0 <= Z.land x 15 < 16.
Proof. change 15 with (Z.ones 4). rewrite Z.land_ones by lia. change (2 ^ 4) with 16. apply Z.mod_pos_bound. lia. Qed.

Lemma hex4_inj x y : is_u16 x → is_u16 y → hex4 x = hex4 y → x = y.
Proof.
  unfold is_u16. intros Hx Hy Heq. unfold hex4 in Heq. cbn [fmap list_fmap] in Heq. injection Heq as H3 H2 H1 H0.
  apply hex_digit_inj in H3, H2, H1, H0; [|apply nibble..].
  rewrite !Z.shiftr_div_pow2 in H3, H2, H1 by lia. change 15 with (Z.ones 4) in *. rewrite !Z.land_ones in * by lia.
  change (2 ^ 4) with 16 in *. change (2 ^ 8) with 256 in *. change (2 ^ 12) with 4096 in *.
  Z.to_euclidean_division_equations. lia.
Qed.

Lemma hex4_plain x : Forall (λ c, c ≠ ","%char ∧ c ≠ "_"%char) (hex4 x).
Proof. unfold hex4. apply Forall_fmap. repeat constructor; (apply hex_digit_plain; [apply nibble|by vm_compute; auto]). Qed.

Lemma version_roundtrip v : version_from_u16 (version_as_u16 v) = Some v.
Proof. by destruct v. Qed.

Lemma version_from_as value v : version_from_u16 value = Some v → value = version_as_u16 v.
Proof. unfold version_from_u16. repeat case_match; bool_prop; intros [= <-]; done. Qed.
