(* ===== verification/ClientHello.v ===== *)
(** [chromulate-fingerprint]: the ClientHello a profile describes
    (src/crates/chromulate-fingerprint/src/client_hello.rs).

    An [ExtensionSet] and a [WireExtensionOrder] are the lists they wrap, with what
    their constructors establish as the predicates [set_ok] and [order_new ids = inl
    ids].  A random generator is what it answers: a shuffle and two draws. *)
From S2P Require Import Prelude RustStr CodePoint.
Local Open Scope Z_scope.

(** ** Sets of extensions *)

Abbreviation ExtensionSet := (list Z) (only parsing).

Definition set_new (ids : list ExtensionId) : ExtensionSet :=
  dedup (sort_by Z.leb (filter (λ id, is_grease id = false) ids)).

(** [slice::binary_search] on a list in strictly ascending order, where the answer is
    the one place of [x], or the one place it could go to. *)
Fixpoint binary_search (x : Z) (l : list Z) : nat + nat :=
  match l with
  | [] => inr O
  | y :: l =>
      if y =? x then inl O
      else if x <? y then inr O
      else match binary_search x l with inl i => inl (S i) | inr i => inr (S i) end
  end.

Definition contains (id : ExtensionId) (s : ExtensionSet) : bool :=
  match binary_search id s with inl _ => true | inr _ => false end.

Definition insert_ext (id : ExtensionId) (s : ExtensionSet) : bool * ExtensionSet :=
  if is_grease id then (false, s)
  else match binary_search id s with
       | inl _ => (false, s)
       | inr index => (true, take index s ++ id :: drop index s)
       end.

Definition remove_ext (id : ExtensionId) (s : ExtensionSet) : bool * ExtensionSet :=
  match binary_search id s with
  | inl index => (true, take index s ++ drop (S index) s)
  | inr _ => (false, s)
  end.

Definition with_ext (id : ExtensionId) (s : ExtensionSet) : ExtensionSet := (insert_ext id s).2.

(** ** Wire orders *)

(** A loop over a list and its indices that returns the first error. *)
Fixpoint first_error {A} (f : nat → A → option SpecError) (index : nat) (l : list A) : option SpecError :=
  match l with
  | [] => None
  | x :: l => match f index x with Some e => Some e | None => first_error f (S index) l end
  end.

(** [Iterator::rposition]. *)
Fixpoint rposition {A} (p : A → bool) (l : list A) : option nat :=
  match l with
  | [] => None
  | x :: l => match rposition p l with Some i => Some (S i) | None => if p x then Some O else None end
  end.

Definition check_place (ids : list ExtensionId) (index : nat) (id : ExtensionId) : option SpecError :=
  if bool_decide (id ∈ take index ids) then Some (DuplicateExtension id)
  else if (id =? PRE_SHARED_KEY) && negb (S index =? length ids)%nat then Some (PreSharedKeyNotLast index (length ids))
  else None.

Definition check_grease (last_non_psk : option nat) (index : nat) (id : ExtensionId) : option SpecError :=
  if is_grease id && negb (index =? 0)%nat && negb (bool_decide (Some index = last_non_psk))
  then Some (MisplacedGrease id index) else None.

Definition order_new (ids : list ExtensionId) : list ExtensionId + SpecError :=
  match first_error (check_place ids) 0 ids with
  | Some error => inr error
  | None =>
      match first_error (check_grease (rposition (λ id, negb (id =? PRE_SHARED_KEY)) ids)) 0 ids with
      | Some error => inr error
      | None => inl ids
      end
  end.

Definition without_grease (ids : list ExtensionId) : list ExtensionId := filter (λ id, is_grease id = false) ids.

(** ** Pins *)

Record ShufflePins := mk_pins { pinned_first : list ExtensionId; pinned_last : list ExtensionId }.

Definition no_pins : ShufflePins := mk_pins [] [].

Fixpoint check_pins (seen ids : list ExtensionId) : option SpecError :=
  match ids with
  | [] => None
  | id :: ids =>
      if id =? PRE_SHARED_KEY then Some (UnpinnableExtension id)
      else if is_grease id then Some (UnpinnableExtension id)
      else if bool_decide (id ∈ seen) then Some (DuplicateExtension id)
      else check_pins (seen ++ [id]) ids
  end.

Definition pins_new (first last : list ExtensionId) : ShufflePins + SpecError :=
  match check_pins [] (first ++ last) with Some error => inr error | None => inl (mk_pins first last) end.

Inductive ExtensionOrder :=
  | Fixed (order : list ExtensionId)
  | Shuffled (pins : ShufflePins).

Definition is_shuffled (o : ExtensionOrder) : bool := match o with Shuffled _ => true | Fixed _ => false end.

Record GreasePlacement := mk_grease {
  g_cipher_suites : bool;
  g_extensions : bool;
  g_supported_groups : bool;
  g_key_shares : bool;
  g_supported_versions : bool;
}.

Definition GREASE_NONE : GreasePlacement := mk_grease false false false false false.

Record ClientHelloSpec := mk_hello {
  transport : Transport;
  record_version : TlsVersion;
  handshake_version : TlsVersion;
  supported_versions : list TlsVersion;
  cipher_suites : list CipherSuite;
  extensions : ExtensionSet;
  extension_order : ExtensionOrder;
  supported_groups : list NamedGroup;
  key_share_groups : list NamedGroup;
  signature_algorithms : list SignatureScheme;
  alpn : list str;
  alps : list str;
  certificate_compression : list CertificateCompression;
  psk_key_exchange_modes : list PskKeyExchangeMode;
  ec_point_formats : list EcPointFormat;
  grease : GreasePlacement;
}.

Definition set_extensions (e : ExtensionSet) (o : ExtensionOrder) (s : ClientHelloSpec) : ClientHelloSpec :=
  mk_hello (transport s) (record_version s) (handshake_version s) (supported_versions s) (cipher_suites s) e o
    (supported_groups s) (key_share_groups s) (signature_algorithms s) (alpn s) (alps s) (certificate_compression s)
    (psk_key_exchange_modes s) (ec_point_formats s) (grease s).

Definition has_sni (s : ClientHelloSpec) : bool := contains SERVER_NAME (extensions s).
Definition first_alpn (s : ClientHelloSpec) : option str := head (alpn s).

(** The derived order of the versions is that of their code points. *)
Definition version_max (a b : TlsVersion) : TlsVersion := if version_as_u16 b <? version_as_u16 a then a else b.

Definition effective_version (s : ClientHelloSpec) : TlsVersion :=
  match supported_versions s with [] => handshake_version s | v :: vs => foldl version_max v vs end.

Definition ciphers_without_grease (s : ClientHelloSpec) : list CipherSuite := without_grease (cipher_suites s).
Definition groups_without_grease (s : ClientHelloSpec) : list NamedGroup := without_grease (supported_groups s).

Definition without_psk (ids : list ExtensionId) : list ExtensionId := filter (λ id, id ≠ PRE_SHARED_KEY) ids.

Definition with_pre_shared_key (s : ClientHelloSpec) : ClientHelloSpec :=
  set_extensions (insert_ext PRE_SHARED_KEY (extensions s)).2
    match extension_order s with
    | Fixed order => Fixed (without_psk order ++ [PRE_SHARED_KEY])
    | Shuffled pins => Shuffled pins
    end s.

Definition without_pre_shared_key (s : ClientHelloSpec) : ClientHelloSpec :=
  set_extensions (remove_ext PRE_SHARED_KEY (extensions s)).2
    match extension_order s with
    | Fixed order => Fixed (without_psk order)
    | Shuffled pins => Shuffled pins
    end s.

(** ** Generating *)

(** What a random generator answers: [SliceRandom::shuffle], then the two numbers of
    [GreaseValue::draw_pair]. *)
Record Draws := mk_draws { shuffle : list ExtensionId → list ExtensionId; d_index : nat; d_offset : nat }.

Definition wire_cipher_suites (s : ClientHelloSpec) (i : nat) : option (list CipherSuite) :=
  if g_cipher_suites (grease s) then (value ← draw i; Some (value :: ciphers_without_grease s))
  else Some (ciphers_without_grease s).

Definition shuffled_body (s : ClientHelloSpec) (pins : ShufflePins) : list ExtensionId :=
  filter (λ id, id ≠ PRE_SHARED_KEY ∧ (id ∉ pinned_first pins) ∧ (id ∉ pinned_last pins)) (extensions s).

Definition assemble (s : ClientHelloSpec) (pins : ShufflePins) (body : list ExtensionId)
    (bracket : option (ExtensionId * ExtensionId)) : list ExtensionId :=
  match bracket with Some (first, _) => [first] | None => [] end
  ++ pinned_first pins ++ body ++ pinned_last pins
  ++ match bracket with Some (_, last) => [last] | None => [] end
  ++ (if contains PRE_SHARED_KEY (extensions s) then [PRE_SHARED_KEY] else []).

Definition wire_extension_order (s : ClientHelloSpec) (d : Draws) : option (list ExtensionId) :=
  match extension_order s with
  | Fixed order => Some order
  | Shuffled pins =>
      let body := shuffle d (shuffled_body s pins) in
      if g_extensions (grease s) then
        (pair ← draw_pair (d_index d) (d_offset d); Some (assemble s pins body (Some pair)))
      else Some (assemble s pins body None)
  end.

Definition reference_extension_order (s : ClientHelloSpec) : list ExtensionId :=
  match extension_order s with
  | Fixed order => order
  | Shuffled pins =>
      assemble s pins (shuffled_body s pins) (if g_extensions (grease s) then Some (0x0a0a, 0x1a1a) else None)
  end.

(** ** Sets *)

Definition set_ok (s : ExtensionSet) : Prop := StronglySorted Z.lt s ∧ Forall (λ id, is_grease id = false) s.

Lemma ascending_NoDup s : StronglySorted Z.lt s → NoDup s.
Proof.
  induction 1 as [|x s Hs IH Hx]; constructor; [|done]. intros Hin. rewrite Forall_forall in Hx. specialize (Hx _ Hin). lia.
Qed.

Lemma set_new_spec ids : set_ok (set_new ids) ∧ ∀ x, x ∈ set_new ids ↔ x ∈ ids ∧ is_grease x = false.
Proof.
  unfold set_new. set (l := filter _ ids).
  assert (Hord : StronglySorted (λ x y, (x <=? y) = true) (sort_by Z.leb l)).
  { apply sort_by_ordered; intros; lia. }
  assert (Hin : ∀ x, x ∈ dedup (sort_by Z.leb l) ↔ x ∈ ids ∧ is_grease x = false).
  { intros x. rewrite elem_of_dedup, (sort_by_perm Z.leb l). unfold l. rewrite list_elem_of_filter. tauto. }
  split; [|exact Hin]. split.
  - apply (dedup_ascends Z.leb) in Hord; [|intros; lia]. eapply StronglySorted_impl; [|exact Hord]. cbn. lia.
  - apply Forall_forall. intros x Hx. by apply Hin in Hx as [_ Hx].
Qed.

Lemma binary_search_spec x s :
  StronglySorted Z.lt s →
  match binary_search x s with
  | inl i => s !! i = Some x
  | inr i => (x ∉ s) ∧ StronglySorted Z.lt (take i s ++ x :: drop i s)
  end.
Proof.
  induction 1 as [|y s Hs IH Hy]; cbn [binary_search].
  { split; [apply not_elem_of_nil|]. cbn. by repeat constructor. }
  destruct (y =? x) eqn:Hyx; bool_prop; [by subst|]. destruct (x <? y) eqn:Hxy; bool_prop.
  - split.
    + intros [->|Hin]%elem_of_cons; [lia|]. rewrite Forall_forall in Hy. specialize (Hy _ Hin). lia.
    + cbn. constructor; [by constructor|]. constructor; [done|]. eapply Forall_impl; [exact Hy|]. cbn. lia.
  - destruct (binary_search x s) as [i|i]; [done|]. destruct IH as [Hni IH]. split.
    + intros [->|Hin]%elem_of_cons; [lia|]. done.
    + cbn [take drop app]. constructor; [exact IH|]. apply Forall_app in Hy as Hy' || idtac.
      rewrite <- (take_drop i s) in Hy. apply Forall_app in Hy as [Hy1 Hy2]. apply Forall_app. split; [done|]. constructor; [lia|done].
Qed.

Lemma contains_spec x s : StronglySorted Z.lt s → contains x s = bool_decide (x ∈ s).
Proof.
  intros Hs. unfold contains. pose proof (binary_search_spec x s Hs) as H. destruct (binary_search x s); symmetry.
  - apply bool_decide_eq_true. by eapply list_elem_of_lookup_2.
  - apply bool_decide_eq_false. tauto.
Qed.

Lemma insert_ext_spec x s :
  set_ok s → set_ok (insert_ext x s).2 ∧
  ∀ y, y ∈ (insert_ext x s).2 ↔ y ∈ s ∨ (y = x ∧ is_grease x = false).
Proof.
  intros [Hs Hg]. unfold insert_ext. destruct (is_grease x) eqn:Hx; [split; [done|]; naive_solver|].
  pose proof (binary_search_spec x s Hs) as H. destruct (binary_search x s) as [i|i]; cbn [snd].
  - split; [done|]. intros y. apply list_elem_of_lookup_2 in H. naive_solver.
  - destruct H as [_ H]. split.
    + split; [done|]. rewrite <- (take_drop i s) in Hg. apply Forall_app in Hg as [Hg1 Hg2]. apply Forall_app. split; [done|]. by constructor.
    + intros y. rewrite elem_of_app, elem_of_cons. rewrite <- (take_drop i s) at 3. rewrite elem_of_app. naive_solver.
Qed.

Lemma remove_ext_spec x s :
  set_ok s → set_ok (remove_ext x s).2 ∧ ∀ y, y ∈ (remove_ext x s).2 ↔ y ∈ s ∧ y ≠ x.
Proof.
  intros [Hs Hg]. unfold remove_ext. pose proof (binary_search_spec x s Hs) as H.
  destruct (binary_search x s) as [i|i]; cbn [snd].
  - pose proof (ascending_NoDup _ Hs) as Hnd.
    assert (Heq : s = take i s ++ x :: drop (S i) s) by by rewrite take_drop_middle.
    rewrite Heq in Hs, Hg, Hnd. rewrite NoDup_app in Hnd. rewrite Forall_app, Forall_cons in Hg. destruct Hg as (? & ? & ?).
    destruct Hnd as (_ & Hd & Hnd). apply NoDup_cons in Hnd as [Hni _]. split.
    + split; [|by apply Forall_app]. revert Hs. generalize (take i s), (drop (S i) s). intros l k.
      induction l as [|a l IH]; intros Hl; inversion Hl; subst; [done|]. cbn [app]. constructor; [by apply IH|].
      match goal with HF : Forall _ (l ++ x :: k) |- _ => apply Forall_app in HF as [? [_ ?]%Forall_cons] end. by apply Forall_app.
    + intros y. rewrite Heq at 3. rewrite !elem_of_app, elem_of_cons. split; [|naive_solver].
      intros [Hy|Hy]; (split; [tauto|]); intros ->; [by apply (Hd x Hy); left|done].
  - split; [done|]. intros y. destruct H as [Hni _]. split; [|naive_solver]. intros Hy. split; [done|]. by intros ->.
Qed.

(** ** Orders *)

Lemma first_error_None {A} (f : nat → A → option SpecError) i l :
  first_error f i l = None ↔ ∀ j x, l !! j = Some x → f (i + j)%nat x = None.
Proof.
  revert i. induction l as [|x l IH]; intros i; cbn [first_error]; [done|]. destruct (f i x) eqn:E.
  - split; [done|]. intros H. specialize (H O x eq_refl). rewrite Nat.add_0_r in H. congruence.
  - rewrite IH. split; intros H.
    + intros [|j] y Hy; [injection Hy as <-; by rewrite Nat.add_0_r|]. rewrite <- Nat.add_succ_comm. by apply H.
    + intros j y Hy. rewrite Nat.add_succ_comm. by apply (H (S j)).
Qed.

Lemma rposition_app {A} (p : A → bool) (l k : list A) :
  Forall (λ x, p x = false) k → rposition p (l ++ k) = rposition p l.
Proof.
  intros Hk. induction l as [|x l IH]; cbn [app rposition]; [|by rewrite IH].
  induction Hk as [|x k Hx Hk IH]; [done|]. cbn [rposition]. by rewrite IH, Hx.
Qed.

Lemma rposition_last {A} (p : A → bool) (l : list A) x : p x = true → rposition p (l ++ [x]) = Some (length l).
Proof. intros Hx. induction l as [|y l IH]; cbn [app rposition length]; [by rewrite Hx|by rewrite IH]. Qed.

(** What a ClientHello can carry: GREASE only as the first and the last extension,
    [pre_shared_key] after everything else. *)
Definition order_shape (ids : list ExtensionId) : Prop :=
  ∃ first mid last psk, ids = (first ++ mid ++ last) ++ psk ∧
    (length first <= 1)%nat ∧ (length last <= 1)%nat ∧
    Forall (λ id, is_grease id = false) mid ∧
    Forall (λ id, id ≠ PRE_SHARED_KEY) (first ++ mid ++ last) ∧
    (psk = [] ∨ psk = [PRE_SHARED_KEY]).

Lemma check_place_None ids :
  first_error (check_place ids) 0 ids = None ↔
  NoDup ids ∧ ∀ i, ids !! i = Some PRE_SHARED_KEY → S i = length ids.
Proof.
  rewrite first_error_None. unfold check_place. split.
  - intros H. split.
    + apply NoDup_alt. intros i j x Hi Hj. destruct (Nat.lt_trichotomy i j) as [Hij|[Hij|Hij]]; [|done|];
        [specialize (H j x Hj)|specialize (H i x Hi)]; rewrite bool_decide_true in H; try done;
        eapply elem_of_take; eauto.
    + intros i Hi. specialize (H i _ Hi). case_bool_decide; [done|]. cbn [Nat.add] in H.
      rewrite Z.eqb_refl in H. cbn [andb] in H. destruct (S i =? length ids)%nat eqn:E; [by apply Nat.eqb_eq|done].
  - intros [Hnd Hpsk] i x Hi. cbn [Nat.add]. rewrite bool_decide_false.
    + destruct (x =? PRE_SHARED_KEY) eqn:E; [|done]. bool_prop. subst x. by rewrite (Hpsk i Hi), Nat.eqb_refl.
    + intros (j & Hj & Hlt)%elem_of_take. rewrite NoDup_alt in Hnd. specialize (Hnd i j x Hi Hj). lia.
Qed.

Lemma order_new_inl ids k :
  order_new ids = inl k ↔ k = ids ∧ first_error (check_place ids) 0 ids = None ∧
    first_error (check_grease (rposition (λ id, negb (id =? PRE_SHARED_KEY)) ids)) 0 ids = None.
Proof. unfold order_new. repeat case_match; naive_solver. Qed.

Lemma rposition_shape u psk :
  Forall (λ id, id ≠ PRE_SHARED_KEY) u → (psk = [] ∨ psk = [PRE_SHARED_KEY]) →
  rposition (λ id, negb (id =? PRE_SHARED_KEY)) (u ++ psk) = match u with [] => None | _ => Some (length u - 1)%nat end.
Proof.
  intros Hu Hpsk. rewrite rposition_app by (destruct Hpsk as [->| ->]; by repeat constructor).
  destruct u as [|x u] using rev_ind; [done|]. apply Forall_app in Hu as [_ [Hx _]%Forall_cons].
  rewrite rposition_last by (apply negb_true_iff, Z.eqb_neq; exact Hx). rewrite length_app. cbn [length].
  destruct u; cbn; f_equal; lia.
Qed.

Lemma accepted_shape ids : order_new ids = inl ids → NoDup ids ∧ order_shape ids.
Proof.
  rewrite order_new_inl, check_place_None, first_error_None. intros (_ & [Hnd Hpsk] & Hg). split; [done|].
  assert (Hu : ∃ u psk, ids = u ++ psk ∧ Forall (λ id, id ≠ PRE_SHARED_KEY) u ∧ (psk = [] ∨ psk = [PRE_SHARED_KEY])).
  { destruct ids as [|x ids _] using rev_ind; [exists [], []; naive_solver|].
    assert (Hno : Forall (λ id, id ≠ PRE_SHARED_KEY) ids).
    { apply Forall_lookup. intros i y Hi ->. rewrite length_app in Hpsk. cbn in Hpsk.
      pose proof (lookup_lt_Some _ _ _ Hi). specialize (Hpsk i). rewrite lookup_app_l in Hpsk by done. specialize (Hpsk Hi). lia. }
    destruct (decide (x = PRE_SHARED_KEY)) as [->|Hx]; [exists ids, [PRE_SHARED_KEY]; naive_solver|].
    exists (ids ++ [x]), []. rewrite app_nil_r. split_and!; [done| |by left]. apply Forall_app. by repeat constructor. }
  destruct Hu as (u & psk & -> & Hu & Hp). rewrite rposition_shape in Hg by done.
  destruct u as [|a u]; [exists [], [], [], psk; naive_solver|].
  destruct u as [|b u _] using rev_ind; [exists [a], [], [], psk; split_and!; naive_solver|].
  exists [a], u, [b], psk. split_and!; [done|simpl; lia|simpl; lia| |done|done].
  apply Forall_lookup. intros i y Hi. pose proof (lookup_lt_Some _ _ _ Hi).
  assert (Hi' : ((a :: u ++ [b]) ++ psk) !! S i = Some y).
  { change (((u ++ [b]) ++ psk) !! i = Some y). by rewrite <- app_assoc, lookup_app_l. }
  specialize (Hg (S i) y Hi'). unfold check_grease in Hg. cbn [Nat.add length] in Hg.
  rewrite length_app in Hg. cbn [length] in Hg. rewrite bool_decide_false in Hg by (intros [= ?]; lia).
  by destruct (is_grease y).
Qed.

Lemma shape_accepted ids : NoDup ids ∧ order_shape ids → order_new ids = inl ids.
Proof.
  rewrite order_new_inl, check_place_None, first_error_None. intros [Hnd (first & mid & last & psk & Heq & Hf & Hl & Hm & Hno & Hp)]. split; [done|]. split; [split; [done|]|].
  + intros i Hi. rewrite Heq in Hi |- *. destruct (decide (i < length (first ++ mid ++ last))%nat) as [Hlt|Hge].
    { rewrite lookup_app_l in Hi by done. eapply Forall_lookup in Hno; [|exact Hi]. done. }
    rewrite lookup_app_r in Hi by lia. rewrite length_app. destruct Hp as [->| ->]; [done|]. cbn [length].
    destruct (i - _)%nat eqn:Hz; [lia|done].
  + intros i x Hi. unfold check_grease. cbn [Nat.add]. destruct (is_grease x) eqn:Hx; [|done].
    rewrite Heq, rposition_shape by done. rewrite Heq in Hi.
    destruct (decide (i < length first)%nat) as [H1|H1]; [by replace i with O by lia|].
    rewrite <- !app_assoc, lookup_app_r in Hi by lia.
    destruct (decide (i - length first < length mid)%nat) as [H2|H2].
    { rewrite lookup_app_l in Hi by done. eapply Forall_lookup in Hm; [|exact Hi]. cbn in Hm. congruence. }
    rewrite lookup_app_r in Hi by lia.
    destruct (decide (i - length first - length mid < length last)%nat) as [H3|H3].
    { assert (Hi' : i = (length (first ++ mid ++ last) - 1)%nat) by (rewrite !length_app; lia).
      destruct (first ++ mid ++ last) as [|y l] eqn:E; [apply (f_equal length) in E; rewrite !length_app in E; cbn in E; lia|].
      rewrite Hi', bool_decide_true by done. by rewrite andb_false_r. }
    rewrite lookup_app_r in Hi by lia. destruct Hp as [->| ->]; [done|].
    apply list_lookup_singleton_Some in Hi as [_ <-]. by vm_compute in Hx.
Qed.

(** The public constructor accepts exactly these. *)
Lemma order_new_shape ids : order_new ids = inl ids ↔ NoDup ids ∧ order_shape ids.
Proof. split; [apply accepted_shape|apply shape_accepted]. Qed.

(** ** What is generated *)

Lemma check_pins_None seen ids :
  check_pins seen ids = None ↔
  NoDup ids ∧ ∀ x, x ∈ ids → (x ∉ seen) ∧ x ≠ PRE_SHARED_KEY ∧ is_grease x = false.
Proof.
  revert seen. induction ids as [|y ids IH]; intros seen; cbn [check_pins]; [split; [split; [constructor|]; by intros x ?%elem_of_nil|done]|].
  rewrite NoDup_cons. destruct (y =? PRE_SHARED_KEY) eqn:Hp; bool_prop.
  { split; [done|]. intros [_ H]. destruct (H y) as (_ & ? & _); [by left|done]. }
  destruct (is_grease y) eqn:Hg.
  { split; [done|]. intros [_ H]. destruct (H y) as (_ & _ & ?); [by left|congruence]. }
  case_bool_decide as Hs.
  { split; [done|]. intros [_ H]. destruct (H y) as (? & _ & _); [by left|done]. }
  rewrite IH. split.
  - intros [Hnd H]. split.
    + split; [|done]. intros Hin. destruct (H y Hin) as [Hni _]. apply Hni, elem_of_app. right. by left.
    + intros x [->|Hin]%elem_of_cons; [done|]. destruct (H x Hin) as [Hni ?]. split; [|done]. intros ?. apply Hni, elem_of_app. by left.
  - intros [[Hni Hnd] H]. split; [done|]. intros x Hin. destruct (H x) as (Hns & ? & ?); [by right|]. split_and!; [|done|done].
    rewrite elem_of_app, list_elem_of_singleton. intros [?| ->]; done.
Qed.

Definition pins_ok (p : ShufflePins) : Prop := pins_new (pinned_first p) (pinned_last p) = inl p.

Lemma pins_ok_spec p :
  pins_ok p → NoDup (pinned_first p ++ pinned_last p) ∧
    ∀ x, x ∈ pinned_first p ++ pinned_last p → x ≠ PRE_SHARED_KEY ∧ is_grease x = false.
Proof.
  unfold pins_ok, pins_new. destruct (check_pins _ _) eqn:E; [done|]. intros _. apply check_pins_None in E as [? H].
  split; [done|]. intros x Hx. by destruct (H x Hx) as [_ ?].
Qed.

(** What the constructors of a specification's parts establish. *)
Record spec_ok (s : ClientHelloSpec) : Prop := {
  ok_set : set_ok (extensions s);
  ok_order : match extension_order s with Fixed order => order_new order = inl order | Shuffled pins => pins_ok pins end;
}.

(** What the documentation of [rand] promises. *)
Record draws_ok (d : Draws) : Prop := {
  shuffle_perm l : shuffle d l ≡ₚ l;
  index_range : (d_index d < 16)%nat;
  offset_range : (1 <= d_offset d < 16)%nat;
}.

(** The free and the pinned extensions, in some order. *)
Lemma middle_ok s pins body :
  set_ok (extensions s) → pins_ok pins → body ≡ₚ shuffled_body s pins →
  let mid := pinned_first pins ++ body ++ pinned_last pins in
  NoDup mid ∧ ∀ x, x ∈ mid → x ≠ PRE_SHARED_KEY ∧ is_grease x = false.
Proof.
  intros [Hs Hg] [Hnd Hp]%pins_ok_spec Hbody mid.
  assert (Hb : ∀ x, x ∈ body → (x ≠ PRE_SHARED_KEY ∧ is_grease x = false) ∧ (x ∉ pinned_first pins) ∧ (x ∉ pinned_last pins)).
  { intros x. rewrite Hbody. unfold shuffled_body. rewrite list_elem_of_filter. rewrite Forall_forall in Hg. intros [? Hx].
    specialize (Hg x Hx). cbn in Hg. tauto. }
  split.
  - unfold mid. rewrite (Permutation_app_comm body), app_assoc. apply NoDup_app. split_and!; [done| |].
    + intros x Hx Hbx. destruct (Hb x Hbx) as [_ [? ?]]. apply elem_of_app in Hx. tauto.
    + rewrite Hbody. apply NoDup_filter, ascending_NoDup, Hs.
  - intros x. unfold mid. rewrite !elem_of_app. intros [Hx|[Hx|Hx]]; [apply Hp, elem_of_app; by left|by apply Hb|apply Hp, elem_of_app; by right].
Qed.

Lemma grease_of x : x ∈ GREASE_ALL → is_grease x = true.
Proof. intros [i Hi]%list_elem_of_lookup. by apply grease_table_facts in Hi as [? _]. Qed.

Definition bracket_ok (bracket : option (ExtensionId * ExtensionId)) : Prop :=
  match bracket with Some (a, b) => a ≠ b ∧ is_grease a = true ∧ is_grease b = true | None => True end.

Lemma assemble_accepted s pins body bracket :
  set_ok (extensions s) → pins_ok pins → body ≡ₚ shuffled_body s pins → bracket_ok bracket →
  order_new (assemble s pins body bracket) = inl (assemble s pins body bracket).
Proof.
  intros Hs Hp Hb Hbr. destruct (middle_ok s pins body Hs Hp Hb) as [Hnd Hmid].
  set (mid := pinned_first pins ++ body ++ pinned_last pins) in *.
  set (f := match bracket with Some (a, _) => [a] | None => [] end). set (l := match bracket with Some (_, b) => [b] | None => [] end).
  set (psk := if contains PRE_SHARED_KEY (extensions s) then [PRE_SHARED_KEY] else []).
  assert (Heq : assemble s pins body bracket = (f ++ mid ++ l) ++ psk) by (unfold assemble, mid; by rewrite <- !app_assoc).
  assert (Hedge : ∀ x, x ∈ f ∨ x ∈ l → is_grease x = true).
  { intros x. unfold f, l. destruct bracket as [[a b]|]; rewrite ?list_elem_of_singleton, ?elem_of_nil; [|tauto].
    destruct Hbr as (_ & ? & ?). by intros [->| ->]. }
  assert (Hno : ∀ x, x ∈ f ++ mid ++ l → x ≠ PRE_SHARED_KEY).
  { intros x. rewrite !elem_of_app. intros [Hx|[Hx|Hx]]; [|by apply Hmid|]; intros ->;
      (assert (is_grease PRE_SHARED_KEY = true) by (apply Hedge; tauto)); by vm_compute in *. }
  apply shape_accepted. rewrite Heq. split.
  - apply NoDup_app. split_and!.
    + apply NoDup_app. split_and!; [unfold f; destruct bracket as [[]|]; by repeat constructor; apply not_elem_of_nil| |].
      * intros x Hx [Hm|Hl]%elem_of_app; [destruct (Hmid x Hm) as [_ Hf]; rewrite Hedge in Hf by tauto; done|].
        revert Hx Hl. unfold f, l. destruct bracket as [[a b]|]; [|by intros ?%elem_of_nil].
        rewrite !list_elem_of_singleton. intros -> ->. by destruct Hbr.
      * apply NoDup_app. split_and!; [done| |unfold l; destruct bracket as [[]|]; by repeat constructor; apply not_elem_of_nil].
        intros x Hm Hl. destruct (Hmid x Hm) as [_ Hf]. rewrite Hedge in Hf by tauto. done.
    + intros x Hx. apply Hno in Hx. unfold psk. case_match; [|apply not_elem_of_nil]. by rewrite list_elem_of_singleton.
    + unfold psk. case_match; [apply NoDup_singleton|constructor].
  - exists f, mid, l, psk. split_and!; [done|unfold f; destruct bracket as [[]|]; simpl; lia|unfold l; destruct bracket as [[]|]; simpl; lia| | |].
    + apply Forall_forall. intros x Hx. by apply Hmid.
    + apply Forall_forall. exact Hno.
    + unfold psk. case_match; auto.
Qed.

Lemma without_psk_accepted o :
  order_new o = inl o →
  order_new (without_psk o) = inl (without_psk o) ∧
  order_new (without_psk o ++ [PRE_SHARED_KEY]) = inl (without_psk o ++ [PRE_SHARED_KEY]).
Proof.
  intros [Hnd (first & mid & last & psk & -> & Hf & Hl & Hm & Hno & Hp)]%accepted_shape.
  assert (Heq : without_psk ((first ++ mid ++ last) ++ psk) = first ++ mid ++ last).
  { unfold without_psk. rewrite filter_app, (filter_all _ _ Hno). destruct Hp as [->| ->]; cbn; by rewrite app_nil_r. }
  rewrite Heq. apply NoDup_app in Hnd as [Hnd _]. split; apply shape_accepted; split.
  - done.
  - exists first, mid, last, []. rewrite app_nil_r. split_and!; auto.
  - apply NoDup_app. split_and!; [done| |apply NoDup_singleton]. intros x Hx. rewrite Forall_forall in Hno. specialize (Hno x Hx).
    by rewrite list_elem_of_singleton.
  - exists first, mid, last, [PRE_SHARED_KEY]. split_and!; auto.
Qed.

Lemma resumption_ok s : spec_ok s → spec_ok (with_pre_shared_key s) ∧ spec_ok (without_pre_shared_key s).
Proof.
  intros [Hs Ho]. split; split; cbn [extensions extension_order set_extensions with_pre_shared_key without_pre_shared_key].
  - by apply insert_ext_spec.
  - destruct (extension_order s) as [o|p]; [by apply without_psk_accepted|done].
  - by apply remove_ext_spec.
  - destruct (extension_order s) as [o|p]; [by apply without_psk_accepted|done].
Qed.

Lemma without_grease_assemble s pins body bracket :
  set_ok (extensions s) → pins_ok pins → body ≡ₚ shuffled_body s pins → bracket_ok bracket →
  without_grease (assemble s pins body bracket) =
  pinned_first pins ++ body ++ pinned_last pins ++ (if contains PRE_SHARED_KEY (extensions s) then [PRE_SHARED_KEY] else []).
Proof.
  intros Hs Hp Hb Hbr. destruct (middle_ok s pins body Hs Hp Hb) as [_ Hmid].
  unfold without_grease, assemble. rewrite !filter_app.
  assert (Hfew : ∀ l : list Z, (∀ x, x ∈ l → x ∈ pinned_first pins ++ body ++ pinned_last pins) → filter (λ id, is_grease id = false) l = l).
  { intros l Hl. apply filter_all, Forall_forall. intros x Hx. by apply Hmid, Hl. }
  rewrite (Hfew (pinned_first pins)), (Hfew body), (Hfew (pinned_last pins)) by (intros x; rewrite !elem_of_app; tauto).
  set (psk := if contains _ _ then [PRE_SHARED_KEY] else []).
  assert (Hpsk : without_grease psk = psk) by (unfold psk; by case_match). unfold without_grease in Hpsk. rewrite Hpsk.
  destruct bracket as [[a b]|]; [|done]. destruct Hbr as (_ & Ha & Hb'). cbn [filter list_filter]. by rewrite !decide_False by congruence.
Qed.

(** The offered extensions and the pinned ones, whatever the order. *)
Lemma elem_of_assembled s pins body bracket x :
  set_ok (extensions s) → pins_ok pins → body ≡ₚ shuffled_body s pins → bracket_ok bracket →
  x ∈ without_grease (assemble s pins body bracket) ↔ x ∈ extensions s ∨ x ∈ pinned_first pins ∨ x ∈ pinned_last pins.
Proof.
  intros Hs Hp Hb Hbr. rewrite without_grease_assemble by done. rewrite !elem_of_app, Hb. unfold shuffled_body.
  rewrite list_elem_of_filter, contains_spec by apply Hs. case_bool_decide as Hpsk.
  - rewrite list_elem_of_singleton. destruct (decide (x = PRE_SHARED_KEY)) as [->|]; [tauto|].
    destruct (decide (x ∈ pinned_first pins)), (decide (x ∈ pinned_last pins)); tauto.
  - rewrite elem_of_nil. destruct (decide (x = PRE_SHARED_KEY)) as [->|]; [|destruct (decide (x ∈ pinned_first pins)), (decide (x ∈ pinned_last pins)); tauto].
    destruct (decide (PRE_SHARED_KEY ∈ pinned_first pins)), (decide (PRE_SHARED_KEY ∈ pinned_last pins)); tauto.
Qed.

(** Every wire order a specification generates, whatever the generator draws, is
    one the public constructor accepts: nothing twice, [pre_shared_key] last, GREASE
    only at the edges.  It is a reordering of the reference order up to the GREASE
    values, and for a shuffled profile it carries the offered and the pinned extensions
    and no others.  The same holds with and without a session ticket. *)
Theorem generated_orders_valid s d s' :
  spec_ok s → draws_ok d → s' ∈ [s; with_pre_shared_key s; without_pre_shared_key s] →
  spec_ok s' ∧
  ∃ ids, wire_extension_order s' d = Some ids ∧ order_new ids = inl ids ∧
    without_grease ids ≡ₚ without_grease (reference_extension_order s') ∧
    order_new (reference_extension_order s') = inl (reference_extension_order s') ∧
    match extension_order s' with
    | Fixed order => ids = order
    | Shuffled pins => ∀ x, x ∈ without_grease ids ↔ x ∈ extensions s' ∨ x ∈ pinned_first pins ∨ x ∈ pinned_last pins
    end.
Proof.
  intros Hs Hd Hin. assert (Hs' : spec_ok s').
  { destruct (resumption_ok s Hs). rewrite !elem_of_cons, elem_of_nil in Hin. destruct Hin as [->|[->|[->|[]]]]; done. }
  clear Hs Hin. split; [done|]. destruct Hs' as [Hset Hord]. unfold wire_extension_order, reference_extension_order.
  destruct (extension_order s') as [o|pins]; [by eexists|].
  pose proof (shuffle_perm _ Hd (shuffled_body s' pins)) as Hperm.
  assert (Href : bracket_ok (if g_extensions (grease s') then Some (0x0a0a, 0x1a1a) else None)) by by case_match.
  assert (Hbr : ∃ bracket, bracket_ok bracket ∧
    (if g_extensions (grease s') then (pair ← draw_pair (d_index d) (d_offset d); Some (assemble s' pins (shuffle d (shuffled_body s' pins)) (Some pair)))
     else Some (assemble s' pins (shuffle d (shuffled_body s' pins)) None)) = Some (assemble s' pins (shuffle d (shuffled_body s' pins)) bracket)).
  { destruct (g_extensions (grease s')); [|by exists None]. destruct (draw_pair_spec (d_index d) (d_offset d)) as (a & b & -> & Hne & Ha & Hb);
      [apply Hd..|]. exists (Some (a, b)). split; [|done]. split_and!; [done|by apply grease_of..]. }
  destruct Hbr as (bracket & Hbr & ->). eexists. split; [done|]. split_and!.
  - by apply assemble_accepted.
  - rewrite !without_grease_assemble by done. by rewrite Hperm.
  - by apply assemble_accepted.
  - intros x. by apply elem_of_assembled.
Qed.

(** ** A concrete specification *)

Definition sample_hello (o : ExtensionOrder) (ids : ExtensionSet) : ClientHelloSpec :=
  mk_hello Tcp Tls10 Tls12 [Tls13; Tls12] [0x1301; 0x1302; 0xc02b] ids o [0x11ec; 0x001d] [0x11ec] [0x0403; 0x0804]
    [b#"h2"; b#"http/1.1"] [] [Brotli] [PskDheKe] [Uncompressed] (mk_grease true true true true true).

Definition sample_shuffled : ClientHelloSpec :=
  sample_hello (Shuffled (mk_pins [0x0010] [0x000a])) (set_new [0x002b; 0x0a0a; 0x0000; 0x000a; 0x0010; 0x000d; 0x000a]).

Definition reversed_draws : Draws := mk_draws (@rev Z) 3 15.

Lemma reversed_draws_ok : draws_ok reversed_draws.
Proof. split; cbn; [intros l; symmetry; apply Permutation_rev|lia|lia]. Qed.

Lemma sample_shuffled_ok : spec_ok sample_shuffled.
Proof. split; [apply set_new_spec|by vm_compute]. Qed.

Example sample_order :
  wire_extension_order (with_pre_shared_key sample_shuffled) reversed_draws =
  Some [0x3a3a; 0x0010; 0x002b; 0x000d; 0x0000; 0x000a; 0x2a2a; 0x0029].
Proof. vm_compute. reflexivity. Qed.

Lemma generated_orders_valid_witness :
  ∃ ids, wire_extension_order (with_pre_shared_key sample_shuffled) reversed_draws = Some ids ∧ order_new ids = inl ids.
Proof.
  destruct (generated_orders_valid sample_shuffled reversed_draws (with_pre_shared_key sample_shuffled)) as (_ & ids & Hw & Hn & _).
  - exact sample_shuffled_ok.
  - exact reversed_draws_ok.
  - right. left.
  - exists ids. split; [exact Hw|exact Hn].
Defined.

(** A pinned extension goes on the wire whether the client offers it or not. *)
Example pinned_but_not_offered :
  let s := sample_hello (Shuffled (mk_pins [0x001b] [])) (set_new [0x0000; 0x002b]) in
  contains 0x001b (extensions s) = false ∧ wire_extension_order s reversed_draws = Some [0x3a3a; 0x001b; 0x002b; 0x0000; 0x2a2a].
Proof. vm_compute. split; reflexivity. Qed.

Example refused_orders :
  (order_new [0x0000; 0x0010; 0x0000], order_new [0x0029; 0x0000], order_new [0x0000; 0x0a0a; 0x0010], order_new [0x0a0a; 0x0000; 0x1a1a; 0x0029]) =
  (inr (DuplicateExtension 0x0000), inr (PreSharedKeyNotLast 0 2), inr (MisplacedGrease 0x0a0a 1), inl [0x0a0a; 0x0000; 0x1a1a; 0x0029]).
Proof. vm_compute. reflexivity. Qed.
