(* ===== verification/Fingerprint.v ===== *)
(** [chromulate-fingerprint]: the JA3, JA4 and Akamai fingerprints and the HTTP/2
    connection they describe (src/crates/chromulate-fingerprint/src/ja3.rs, ja4.rs,
    akamai.rs and http2.rs).

    The digests and the hex encoding are of other crates and are parameters, with what
    is relied on of them: their lengths. *)
From S2P Require Import Prelude RustStr CodePoint ClientHello.
Local Open Scope Z_scope.

Class Digests := {
  md5 : str → str;
  sha256 : str → str;
  hex_encode : str → str;
}.

Class DigestLaws `{Digests} := {
  hex_encode_length s : length (hex_encode s) = (2 * length s)%nat;
  sha256_length s : length (sha256 s) = 32%nat;
}.

(** ** JA3 *)

Definition join_dashes (values : list Z) : str := join b#"-" (show_u16 <$> values).

Definition ja3_with_extension_order (s : ClientHelloSpec) (order : list ExtensionId) : str :=
  show_u16 (version_as_u16 (handshake_version s)) ++ b#"," ++
  join_dashes (ciphers_without_grease s) ++ b#"," ++
  join_dashes (without_grease order) ++ b#"," ++
  join_dashes (groups_without_grease s) ++ b#"," ++
  join_dashes (format_as_u8 <$> ec_point_formats s).

Definition ja3 (s : ClientHelloSpec) : str := ja3_with_extension_order s (reference_extension_order s).

Section Hashing.
Context `{Digests}.

Definition ja3_hash (text : str) : str := hex_encode (md5 text).

(** ** JA4 *)

Definition TRUNCATED_HASH_LEN : nat := 12.
Definition EMPTY_COMPONENT : str := b#"000000000000".

(** [None] is a slice past the end. *)
Definition truncated_sha256 (input : str) : option str :=
  if bool_decide (input = []) then Some EMPTY_COMPONENT
  else
    let digest := hex_encode (sha256 input) in
    if (length digest <? TRUNCATED_HASH_LEN)%nat then None else Some (take TRUNCATED_HASH_LEN digest).

Definition is_ascii_alphanumeric (c : ascii) : bool :=
  is_ascii_digit c || in_range 65 90 c || in_range 97 122 c.

(** [None] is an index out of bounds. *)
Definition alpn_code (alpn : option str) : option str :=
  match alpn with
  | Some (first :: rest) =>
      let final := List.last rest first in
      if is_ascii_alphanumeric first && is_ascii_alphanumeric final then Some [first; final]
      else
        let encoded := hex_encode (first :: rest) in
        first ← head encoded; final ← last encoded; Some [first; final]
  | _ => Some b#"00"
  end.
End Hashing.

(** [format!("{:02}")] of a number below 100. *)
Definition two_digits_of (count : nat) : str :=
  let n := Z.of_nat (Nat.min count 99) in
  [ascii_of_nat (Z.to_nat (48 + n / 10)); ascii_of_nat (Z.to_nat (48 + n mod 10))].

(** The extensions whose identifiers are hashed. *)
Definition hashed_extensions (s : ClientHelloSpec) : list ExtensionId :=
  filter (λ id, is_grease id = false ∧ id ≠ SERVER_NAME ∧ id ≠ ALPN) (extensions s).

Definition hashed_signatures (s : ClientHelloSpec) : list SignatureScheme := without_grease (signature_algorithms s).

Record Ja4Parts := mk_parts {
  p_header : str;
  p_ciphers : str;
  p_extensions : str;
  p_signature_algorithms : str;
}.

Section Ja4.
Context `{Digests}.

Definition ja4_header (s : ClientHelloSpec) (cipher_count extension_count : nat) : option str :=
  alpn ← alpn_code (first_alpn s);
  Some ([ja4_char (transport s)] ++ ja4_code (effective_version s) ++ [if has_sni s then "d" else "i"]%char
        ++ two_digits_of cipher_count ++ two_digits_of extension_count ++ alpn).

Definition parts_of (s : ClientHelloSpec) : option Ja4Parts :=
  let ciphers := hex4 <$> ciphers_without_grease s in
  let cipher_count := length ciphers in
  let ciphers := sort_by str_leb ciphers in
  let extension_count := length (without_grease (extensions s)) in
  let extensions := sort_by str_leb (hex4 <$> hashed_extensions s) in
  let signature_algorithms := join b#"," (hex4 <$> hashed_signatures s) in
  header ← ja4_header s cipher_count extension_count;
  Some (mk_parts header (join b#"," ciphers) (join b#"," extensions) signature_algorithms).

Definition extensions_and_signatures (p : Ja4Parts) : str :=
  if bool_decide (p_signature_algorithms p = []) then p_extensions p
  else p_extensions p ++ b#"_" ++ p_signature_algorithms p.

Definition ja4 (s : ClientHelloSpec) : option str :=
  parts ← parts_of s;
  ciphers ← truncated_sha256 (p_ciphers parts);
  rest ← truncated_sha256 (extensions_and_signatures parts);
  Some (p_header parts ++ b#"_" ++ ciphers ++ b#"_" ++ rest).

Definition ja4_raw (s : ClientHelloSpec) : option str :=
  parts ← parts_of s;
  Some (p_header parts ++ b#"_" ++ p_ciphers parts ++ b#"_" ++ extensions_and_signatures parts).
End Ja4.

(** ** The HTTP/2 connection *)

Record Setting := mk_setting { setting_id : Z; setting_value : Z }.

Record PriorityFrame := mk_frame { stream_id : Z; exclusive : bool; depends_on : Z; weight : Z }.

Record HeadersPriority := mk_headers_priority { hp_depends_on : Z; hp_exclusive : bool; hp_weight : Z }.

Inductive PseudoHeader := PMethod | PAuthority | PScheme | PPath.

#[export] Instance PseudoHeader_eq_dec : EqDecision PseudoHeader.
Proof. solve_decision. Defined.

Definition pseudo_as_str (h : PseudoHeader) : str :=
  match h with PMethod => b#":method" | PAuthority => b#":authority" | PScheme => b#":scheme" | PPath => b#":path" end.

Definition pseudo_code (h : PseudoHeader) : ascii :=
  match h with PMethod => "m" | PAuthority => "a" | PScheme => "s" | PPath => "p" end%char.

Definition pseudo_from_name (name : str) : option PseudoHeader :=
  let name := default name (strip_prefix b#":" name) in
  if decide (name = b#"method") then Some PMethod
  else if decide (name = b#"authority") then Some PAuthority
  else if decide (name = b#"scheme") then Some PScheme
  else if decide (name = b#"path") then Some PPath
  else None.

(** [PseudoHeaderOrder::new]; an order is a list of four. *)
Definition pseudo_order_new (order : list PseudoHeader) : list PseudoHeader + SpecError :=
  match first_error (λ index header,
          if bool_decide (header ∈ take index order) then Some (DuplicatePseudoHeader (pseudo_as_str header)) else None) 0 order with
  | Some error => inr error
  | None => inl order
  end.

Definition order_code (order : list PseudoHeader) : str := join b#"," ((λ h, [pseudo_code h]) <$> order).

Record Http2Spec := mk_http2 {
  settings : list Setting;
  connection_window_update : Z;
  priority_frames : list PriorityFrame;
  headers_priority : option HeadersPriority;
  pseudo_header_order : list PseudoHeader;
}.

(** ** The Akamai fingerprint *)

Definition show_u32 (n : Z) : str := show_digits 10 n.

Definition show_setting (s : Setting) : str := show_u16 (setting_id s) ++ b#":" ++ show_u32 (setting_value s).

Definition show_frame (f : PriorityFrame) : str :=
  show_u32 (stream_id f) ++ b#":" ++ show_u16 (if exclusive f then 1 else 0) ++ b#":" ++
  show_u32 (depends_on f) ++ b#":" ++ show_u16 (weight f).

Definition akamai_http2 (s : Http2Spec) : str :=
  let settings := join b#";" (show_setting <$> settings s) in
  let priority :=
    match priority_frames s with [] => b#"0" | frames => join b#"," (show_frame <$> frames) end in
  settings ++ b#"|" ++ show_u32 (connection_window_update s) ++ b#"|" ++ priority ++ b#"|" ++ order_code (pseudo_header_order s).

Definition akamai_http2_hash `{Digests} (fingerprint : str) : str := hex_encode (md5 fingerprint).

(** ** Ranges *)

(** The widths of the fields a fingerprint prints. *)
Record hello_ranges (s : ClientHelloSpec) : Prop := {
  ciphers_u16 : Forall is_u16 (cipher_suites s);
  extensions_u16 : Forall is_u16 (extensions s);
  groups_u16 : Forall is_u16 (supported_groups s);
  signatures_u16 : Forall is_u16 (signature_algorithms s);
  formats_u8 : Forall (λ f, 0 <= format_as_u8 f < 2 ^ 8) (ec_point_formats s);
}.

Lemma Forall_without_grease (P : Z → Prop) l : Forall P l → Forall P (without_grease l).
Proof. intros Hl. unfold without_grease. apply Forall_forall. intros x [_ Hx]%list_elem_of_filter. by eapply Forall_forall in Hl. Qed.

Lemma u16_digits n : is_u16 n → 0 <= n < 10 ^ Z.of_nat 5.
Proof. unfold is_u16. change (10 ^ Z.of_nat 5) with 100000. lia. Qed.

Lemma show_u16_plain n : is_u16 n → show_u16 n ≠ [] ∧ Forall (λ c, is_ascii_digit c = true) (show_u16 n).
Proof. intros Hn%u16_digits. split; [by apply show_digits_nonempty|by apply show_digits_digits]. Qed.

Lemma show_u16_inj m n : is_u16 m → is_u16 n → show_u16 m = show_u16 n → m = n.
Proof. intros Hm%u16_digits Hn%u16_digits. by apply show_digits_inj. Qed.

Lemma digits_without c s : is_ascii_digit c = false → Forall (λ d, is_ascii_digit d = true) s → Forall (λ d, d ≠ c) s.
Proof. intros Hc Hs. eapply Forall_impl; [exact Hs|]. intros d Hd. by apply digit_differs. Qed.

(** What a joined list of printed pieces gives back. *)
Lemma join_fmap_inj {A} (c : ascii) (show : A → str) (P : A → Prop) (l k : list A) :
  (∀ x, P x → show x ≠ [] ∧ Forall (λ d, d ≠ c) (show x)) →
  (∀ x y, P x → P y → show x = show y → x = y) →
  Forall P l → Forall P k → join [c] (show <$> l) = join [c] (show <$> k) → l = k.
Proof.
  intros Hshow Hinj Hl Hk Heq.
  apply join_inj in Heq; [|apply Forall_fmap; eapply Forall_impl; eauto..]. clear Hshow.
  revert k Hk Heq. induction Hl as [|x l Hx Hl IH]; intros [|y k] Hk Heq; try done.
  apply Forall_cons in Hk as [Hy Hk]. injection Heq as H1 H2. f_equal; [by apply Hinj|by apply IH].
Qed.

Lemma join_dashes_inj l k : Forall is_u16 l → Forall is_u16 k → join_dashes l = join_dashes k → l = k.
Proof.
  apply (join_fmap_inj _ _ is_u16).
  - intros x Hx. destruct (show_u16_plain x Hx) as [? Hd]. split; [done|]. by apply digits_without.
  - apply show_u16_inj.
Qed.

Lemma join_dashes_plain l : Forall is_u16 l → Forall (λ d, d ≠ ","%char) (join_dashes l).
Proof.
  intros Hl. apply Forall_joined; [by repeat constructor|]. apply Forall_fmap. eapply Forall_impl; [exact Hl|].
  intros x Hx. apply digits_without; [done|]. by apply show_u16_plain.
Qed.

Lemma version_u16 v : is_u16 (version_as_u16 v).
Proof. unfold is_u16. destruct v; cbn; lia. Qed.

Lemma formats_are_u16 s : hello_ranges s → Forall is_u16 (format_as_u8 <$> ec_point_formats s).
Proof. intros Hs. apply Forall_fmap. eapply Forall_impl; [apply (formats_u8 _ Hs)|]. unfold is_u16. cbn. lia. Qed.

(** ** JA3 *)

(** The five fields. *)
Definition ja3_fields (s : ClientHelloSpec) (order : list ExtensionId) : list str :=
  [show_u16 (version_as_u16 (handshake_version s)); join_dashes (ciphers_without_grease s); join_dashes (without_grease order);
   join_dashes (groups_without_grease s); join_dashes (format_as_u8 <$> ec_point_formats s)].

Lemma ja3_split s order :
  hello_ranges s → Forall is_u16 order →
  split_by (is_char ","%char) (ja3_with_extension_order s order) = ja3_fields s order.
Proof.
  intros Hs Ho. change (ja3_with_extension_order s order) with (join [","%char] (ja3_fields s order)). apply split_by_join; [done|].
  repeat constructor; try (apply join_dashes_plain).
  - apply digits_without; [done|]. apply show_u16_plain, version_u16.
  - apply Forall_without_grease, Hs.
  - by apply Forall_without_grease.
  - apply Forall_without_grease, Hs.
  - by apply formats_are_u16.
Qed.

(** Two connections have the same JA3 string exactly when they agree on the
    handshake version, on the cipher suites, extensions and groups in their order with
    GREASE left out, and on the point formats. *)
Theorem ja3_exact a o b p :
  hello_ranges a → hello_ranges b → Forall is_u16 o → Forall is_u16 p →
  ja3_with_extension_order a o = ja3_with_extension_order b p ↔
  handshake_version a = handshake_version b ∧ ciphers_without_grease a = ciphers_without_grease b ∧
  without_grease o = without_grease p ∧ groups_without_grease a = groups_without_grease b ∧
  format_as_u8 <$> ec_point_formats a = format_as_u8 <$> ec_point_formats b.
Proof.
  intros Ha Hb Ho Hp. split.
  - intros Heq. apply (f_equal (split_by (is_char ","%char))) in Heq. rewrite !ja3_split in Heq by done.
    injection Heq as Hv Hc He Hg Hf.
    apply show_u16_inj in Hv; [|apply version_u16..].
    apply join_dashes_inj in Hc; [|apply Forall_without_grease; apply ciphers_u16; done..].
    apply join_dashes_inj in He; [|by apply Forall_without_grease..].
    apply join_dashes_inj in Hg; [|apply Forall_without_grease; apply groups_u16; done..].
    apply join_dashes_inj in Hf; [|by apply formats_are_u16..].
    split_and!; try done. by destruct (handshake_version a), (handshake_version b).
  - intros (Hv & Hc & He & Hg & Hf). unfold ja3_with_extension_order. by rewrite Hv, Hc, He, Hg, Hf.
Qed.

(** ** JA4 *)

Lemma separated_inj (c : ascii) (s t u v : str) :
  Forall (λ d, d ≠ c) s → Forall (λ d, d ≠ c) u → s ++ c :: t = u ++ c :: v → s = u ∧ t = v.
Proof.
  intros Hs. revert u. induction Hs as [|d s Hd Hs IH]; intros u Hu Heq.
  - destruct Hu as [|e u He Hu]; [by injection Heq|]. injection Heq as He' _. by symmetry in He'.
  - destruct Hu as [|e u He Hu]; [by injection Heq|]. injection Heq as -> Heq. destruct (IH u Hu Heq) as [-> ->]. done.
Qed.

Lemma two_digits_inj m n : two_digits_of m = two_digits_of n ↔ Nat.min m 99 = Nat.min n 99.
Proof.
  split; [|unfold two_digits_of; by intros ->]. unfold two_digits_of. intros Heq. injection Heq as H1 H2.
  apply (f_equal code) in H1, H2. rewrite !code_byte in H1, H2; Z.to_euclidean_division_equations; lia.
Qed.

Lemma hex4_piece x : hex4 x ≠ [] ∧ Forall (λ d, d ≠ ","%char) (hex4 x).
Proof. split; [done|]. eapply Forall_impl; [apply hex4_plain|]. by intros d [? _]. Qed.

Lemma hex4_fmap_inj l k : Forall is_u16 l → Forall is_u16 k → hex4 <$> l = hex4 <$> k → l = k.
Proof.
  intros Hl. revert k. induction Hl as [|x l Hx Hl IH]; intros [|y k] Hk Heq; try done.
  apply Forall_cons in Hk as [Hy Hk]. injection Heq as H3 H2 H1 H0 Heq. f_equal; [|by apply IH].
  apply hex4_inj; [done|done|]. unfold hex4. cbn [fmap list_fmap]. by rewrite H3, H2, H1, H0.
Qed.

Lemma sorted_hex_inj l k :
  Forall is_u16 l → Forall is_u16 k →
  join b#"," (sort_by str_leb (hex4 <$> l)) = join b#"," (sort_by str_leb (hex4 <$> k)) → l ≡ₚ k.
Proof.
  intros Hl Hk Heq. apply (join_inj ","%char) in Heq; [|rewrite (sort_by_perm str_leb); apply Forall_fmap, Forall_true, hex4_piece..].
  apply sort_by_eq in Heq; [|apply str_leb_total|apply str_leb_trans|apply str_leb_antisym].
  apply Permutation_map_inv in Heq as (k' & Hmap & Hp). rewrite Hp in Hk |- *.
  by rewrite (hex4_fmap_inj l k').
Qed.

Lemma hex_list_inj l k : Forall is_u16 l → Forall is_u16 k → join b#"," (hex4 <$> l) = join b#"," (hex4 <$> k) → l = k.
Proof. apply join_fmap_inj; [intros; apply hex4_piece|intros; by apply hex4_inj]. Qed.

Lemma hex_list_plain ls l : ls ≡ₚ hex4 <$> l → Forall (λ d, d ≠ "_"%char) (join b#"," ls).
Proof.
  intros Hp. apply Forall_joined; [by repeat constructor|]. rewrite Hp. apply Forall_fmap, Forall_true. intros x.
  eapply Forall_impl; [apply hex4_plain|]. by intros d [_ ?].
Qed.

Lemma hex_list_nil l : join b#"," (hex4 <$> l) = [] ↔ l = [].
Proof. split; [|by intros ->]. destruct l as [|x [|y l]]; done. Qed.

Section Ja4_facts.
Context `{DigestLaws}.

Lemma last_cons_Some {A} (x : A) l : is_Some (last (x :: l)).
Proof. apply last_is_Some. done. Qed.

Lemma alpn_code_length a : ∃ code, alpn_code a = Some code ∧ length code = 2%nat.
Proof.
  unfold alpn_code. destruct a as [[|c rest]|]; [by eexists| |by eexists]. case_match; [by eexists|].
  pose proof (hex_encode_length (c :: rest)) as Hlen. cbn [length] in Hlen. destruct (hex_encode (c :: rest)) as [|d encoded]; [simpl in Hlen; lia|].
  cbn [head mbind option_bind]. destruct (last_cons_Some d encoded) as [e ->]. cbn [mbind option_bind]. by eexists.
Qed.

Lemma truncated_sha256_Some s : ∃ h, truncated_sha256 s = Some h.
Proof.
  unfold truncated_sha256. case_bool_decide; [by eexists|]. rewrite hex_encode_length, sha256_length. by eexists.
Qed.

(** What JA4 depends on. *)
Definition cipher_count (s : ClientHelloSpec) : nat := length (ciphers_without_grease s).
Definition extension_count (s : ClientHelloSpec) : nat := length (without_grease (extensions s)).

Record same_ja4 (a b : ClientHelloSpec) : Prop := {
  same_transport : transport a = transport b;
  same_version : effective_version a = effective_version b;
  same_sni : has_sni a = has_sni b;
  same_extension_count : Nat.min (extension_count a) 99 = Nat.min (extension_count b) 99;
  same_alpn : alpn_code (first_alpn a) = alpn_code (first_alpn b);
  same_ciphers : ciphers_without_grease a ≡ₚ ciphers_without_grease b;
  same_extensions : hashed_extensions a ≡ₚ hashed_extensions b;
  same_signatures : hashed_signatures a = hashed_signatures b;
}.

Lemma parts_Some s : ∃ header,
  ja4_header s (cipher_count s) (extension_count s) = Some header ∧ length header = 10%nat ∧
  parts_of s = Some (mk_parts header (join b#"," (sort_by str_leb (hex4 <$> ciphers_without_grease s)))
    (join b#"," (sort_by str_leb (hex4 <$> hashed_extensions s))) (join b#"," (hex4 <$> hashed_signatures s))).
Proof.
  unfold parts_of, ja4_header. rewrite length_fmap. destruct (alpn_code_length (first_alpn s)) as (code & Hc & Hlen).
  rewrite Hc. cbn [mbind option_bind]. eexists. split_and!; [done| |done].
  rewrite !length_app, Hlen. by destruct (effective_version s).
Qed.

Lemma header_inj a b h m n m' n' :
  ja4_header a m n = Some h → ja4_header b m' n' = Some h →
  transport a = transport b ∧ effective_version a = effective_version b ∧ has_sni a = has_sni b ∧
  Nat.min n 99 = Nat.min n' 99 ∧ alpn_code (first_alpn a) = alpn_code (first_alpn b).
Proof.
  unfold ja4_header. destruct (alpn_code_length (first_alpn a)) as (c & -> & Hc), (alpn_code_length (first_alpn b)) as (d & -> & Hd).
  cbn [mbind option_bind]. intros Hb [= <-]. apply (inj Some) in Hb.
  destruct c as [|c0 [|c1 [|]]]; try done. destruct d as [|d0 [|d1 [|]]]; try done.
  assert (Hcode : ∀ v, ∃ x, ja4_code v = ["1"%char; x]) by (intros []; by eexists).
  destruct (Hcode (effective_version a)) as [va Hva], (Hcode (effective_version b)) as [vb Hvb]. rewrite Hva, Hvb in Hb.
  unfold two_digits_of in Hb. cbn [app] in Hb. injection Hb as Ht Hv Hs Hc0 Hc1 He0 He1 Ha0 Ha1.
  split_and!.
  - by destruct (transport a), (transport b).
  - rewrite Hv in Hva. rewrite <- Hva in Hvb. by destruct (effective_version a), (effective_version b).
  - by destruct (has_sni a), (has_sni b).
  - apply two_digits_inj. unfold two_digits_of. by rewrite He0, He1.
  - by rewrite Ha0, Ha1.
Qed.

Lemma hashed_u16 s : hello_ranges s → Forall is_u16 (hashed_extensions s).
Proof. intros Hs. unfold hashed_extensions. apply Forall_forall. intros x [_ Hx]%list_elem_of_filter. by eapply Forall_forall in Hx; [|apply (extensions_u16 _ Hs)]. Qed.

(** The second half of the raw form, taken apart. *)
Lemma signatures_inj e g e' g' :
  Forall (λ d, d ≠ "_"%char) e → Forall (λ d, d ≠ "_"%char) e' →
  (if bool_decide (g = []) then e else e ++ b#"_" ++ g) = (if bool_decide (g' = []) then e' else e' ++ b#"_" ++ g') →
  e = e' ∧ g = g'.
Proof.
  intros He He' Heq. repeat case_bool_decide; [by subst|exfalso|exfalso|by eapply separated_inj].
  - rewrite Heq in He. apply Forall_app in He as [_ [? _]%Forall_cons]. done.
  - rewrite <- Heq in He'. apply Forall_app in He' as [_ [? _]%Forall_cons]. done.
Qed.

Lemma same_ja4_parts a b : same_ja4 a b → parts_of a = parts_of b.
Proof.
  intros [Ht Hv Hs Hec Ha Hc He Hg]. unfold parts_of, ja4_header. rewrite !length_fmap, Ht, Hv, Hs, Ha, Hg.
  apply two_digits_inj in Hec. unfold extension_count in Hec. rewrite (Permutation_length Hc), Hec.
  rewrite (proj2 (sort_by_eq str_leb (hex4 <$> ciphers_without_grease a) (hex4 <$> ciphers_without_grease b)
    str_leb_total str_leb_trans str_leb_antisym)) by by rewrite Hc.
  rewrite (proj2 (sort_by_eq str_leb (hex4 <$> hashed_extensions a) (hex4 <$> hashed_extensions b)
    str_leb_total str_leb_trans str_leb_antisym)) by by rewrite He.
  done.
Qed.

(** C27. JA4 is always computed.  Its raw form is the same for two clients exactly when
    they agree on the transport, the version, whether a server name is sent, the count
    of extensions up to 99, the code of the first protocol, the cipher suites and the
    hashed extensions as multisets, GREASE left out, and the signature algorithms in
    their order; and then the hashed form is the same. *)
Theorem ja4_exact a b :
  hello_ranges a → hello_ranges b →
  is_Some (ja4 a) ∧ is_Some (ja4_raw a) ∧ (ja4_raw a = ja4_raw b ↔ same_ja4 a b) ∧ (same_ja4 a b → ja4 a = ja4 b).
Proof.
  intros Ha Hb. unfold ja4, ja4_raw. split_and!.
  - destruct (parts_Some a) as (h & _ & _ & ->). cbn [mbind option_bind].
    destruct (truncated_sha256_Some (join b#"," (sort_by str_leb (hex4 <$> ciphers_without_grease a)))) as [x Hx].
    cbn [p_ciphers]. rewrite Hx. cbn [mbind option_bind].
    destruct (truncated_sha256_Some (extensions_and_signatures (mk_parts h (join b#"," (sort_by str_leb (hex4 <$> ciphers_without_grease a)))
      (join b#"," (sort_by str_leb (hex4 <$> hashed_extensions a))) (join b#"," (hex4 <$> hashed_signatures a))))) as [y Hy].
    rewrite Hy. cbn [mbind option_bind]. by eexists.
  - destruct (parts_Some a) as (h & _ & _ & ->). by eexists.
  - split; [|by intros ->%same_ja4_parts].
    destruct (parts_Some a) as (h & Hh & Hlen & ->), (parts_Some b) as (h' & Hh' & Hlen' & ->).
    cbn [mbind option_bind p_header p_ciphers]. intros Heq. apply (inj Some) in Heq.
    apply app_inj_1 in Heq as [<- Heq%app_inv_head]; [|by rewrite Hlen, Hlen'].
    destruct (header_inj a b h _ _ _ _ Hh Hh') as (Ht & Hv & Hs & He & Hal).
    apply separated_inj in Heq as [Hc Heq]; [|eapply hex_list_plain, sort_by_perm..].
    apply signatures_inj in Heq as [Hx Hg]; [|eapply hex_list_plain, sort_by_perm..].
    split; try done.
    + apply sorted_hex_inj; [apply Forall_without_grease; by apply ciphers_u16..|done].
    + apply sorted_hex_inj; [by apply hashed_u16..|done].
    + apply hex_list_inj; [apply Forall_without_grease; by apply signatures_u16..|done].
  - by intros ->%same_ja4_parts.
Qed.
End Ja4_facts.

(** ** Akamai *)

Definition is_u32 (x : Z) : Prop := 0 <= x <= u32_max.

Record http2_ranges (s : Http2Spec) : Prop := {
  settings_fit : Forall (λ e, is_u16 (setting_id e) ∧ is_u32 (setting_value e)) (settings s);
  window_fits : is_u32 (connection_window_update s);
  frames_fit : Forall (λ f, is_u32 (stream_id f) ∧ is_u32 (depends_on f) ∧ is_u16 (weight f)) (priority_frames s);
}.

Lemma u32_digits n : is_u32 n → 0 <= n < 10 ^ Z.of_nat 10.
Proof. unfold is_u32, u32_max. change (10 ^ Z.of_nat 10) with 10000000000. lia. Qed.

Lemma show_u32_plain n c : is_u32 n → is_ascii_digit c = false → Forall (λ d, d ≠ c) (show_u32 n).
Proof. intros Hn%u32_digits Hc. apply digits_without; [done|]. by apply show_digits_digits. Qed.

Lemma show_u32_inj m n : is_u32 m → is_u32 n → show_u32 m = show_u32 n → m = n.
Proof. intros Hm%u32_digits Hn%u32_digits. by apply show_digits_inj. Qed.

Lemma show_u16_avoids n c : is_u16 n → is_ascii_digit c = false → Forall (λ d, d ≠ c) (show_u16 n).
Proof. intros Hn Hc. apply digits_without; [done|]. by apply show_u16_plain. Qed.

Lemma flag_u16 (b : bool) : is_u16 (if b then 1 else 0).
Proof. unfold is_u16. destruct b; lia. Qed.

Lemma show_setting_plain e c :
  is_u16 (setting_id e) ∧ is_u32 (setting_value e) → is_ascii_digit c = false → c ≠ ":"%char →
  show_setting e ≠ [] ∧ Forall (λ d, d ≠ c) (show_setting e).
Proof.
  intros [Hi Hv] Hc Hne. unfold show_setting. split; [by intros [_ ?]%app_nil|].
  apply Forall_app. split; [by apply show_u16_avoids|]. constructor; [by symmetry|by apply show_u32_plain].
Qed.

Lemma show_setting_inj e f :
  is_u16 (setting_id e) ∧ is_u32 (setting_value e) → is_u16 (setting_id f) ∧ is_u32 (setting_value f) →
  show_setting e = show_setting f → e = f.
Proof.
  intros [Hi Hv] [Hi' Hv'] Heq. unfold show_setting in Heq.
  apply separated_inj in Heq as [H1 H2]; [|by apply show_u16_avoids..].
  apply show_u16_inj in H1; [|done..]. apply show_u32_inj in H2; [|done..]. destruct e, f; simpl in *. by subst.
Qed.

Definition frame_fits (f : PriorityFrame) : Prop := is_u32 (stream_id f) ∧ is_u32 (depends_on f) ∧ is_u16 (weight f).

Lemma show_frame_plain f c :
  frame_fits f → is_ascii_digit c = false → c ≠ ":"%char → show_frame f ≠ [] ∧ Forall (λ d, d ≠ c) (show_frame f).
Proof.
  intros (Hs & Hd & Hw) Hc Hne. unfold show_frame. split; [by intros [_ ?]%app_nil|].
  apply Forall_app. split; [by apply show_u32_plain|]. constructor; [by symmetry|].
  apply Forall_app. split; [apply show_u16_avoids; [apply flag_u16|done]|]. constructor; [by symmetry|].
  apply Forall_app. split; [by apply show_u32_plain|]. constructor; [by symmetry|]. by apply show_u16_avoids.
Qed.

Lemma show_frame_inj f g : frame_fits f → frame_fits g → show_frame f = show_frame g → f = g.
Proof.
  intros (Hs & Hd & Hw) (Hs' & Hd' & Hw') Heq. unfold show_frame in Heq.
  apply separated_inj in Heq as [H1 Heq]; [|by apply show_u32_plain..].
  apply separated_inj in Heq as [H2 Heq]; [|by (apply show_u16_avoids; [apply flag_u16|])..].
  apply separated_inj in Heq as [H3 H4]; [|by apply show_u32_plain..].
  apply show_u32_inj in H1, H3; [|done..]. apply show_u16_inj in H2; [|apply flag_u16..]. apply show_u16_inj in H4; [|done..].
  destruct f as [? e1 ? ?], g as [? e2 ? ?]; simpl in *. subst. f_equal. by destruct e1, e2.
Qed.

Definition priority_text (frames : list PriorityFrame) : str :=
  match frames with [] => b#"0" | frames => join b#"," (show_frame <$> frames) end.

Lemma frames_not_zero f frames : join b#"," (show_frame <$> (f :: frames)) ≠ b#"0".
Proof.
  intros Heq. assert (Hin : ":"%char ∈ join b#"," (show_frame <$> (f :: frames))).
  { assert (Hf : ":"%char ∈ show_frame f) by (unfold show_frame; rewrite elem_of_app; right; left).
    rewrite fmap_cons. destruct (show_frame <$> frames) as [|t l]; [done|].
    change (":"%char ∈ show_frame f ++ b#"," ++ join b#"," (t :: l)). rewrite elem_of_app. by left. }
  rewrite Heq in Hin. by apply list_elem_of_singleton in Hin.
Qed.

Lemma priority_text_inj l k : Forall frame_fits l → Forall frame_fits k → priority_text l = priority_text k → l = k.
Proof.
  intros Hl Hk. unfold priority_text. destruct l as [|f l], k as [|g k]; [done|..]; intros Heq.
  - by apply symmetry, frames_not_zero in Heq.
  - by apply frames_not_zero in Heq.
  - eapply (join_fmap_inj _ _ frame_fits); [|by apply show_frame_inj|done|done|exact Heq].
    intros x Hx. by apply show_frame_plain.
Qed.

Lemma priority_text_plain l : Forall frame_fits l → Forall (λ d, d ≠ "|"%char) (priority_text l).
Proof.
  intros Hl. unfold priority_text. destruct l as [|f l]; [by repeat constructor|].
  apply Forall_joined; [by repeat constructor|]. apply Forall_fmap. eapply Forall_impl; [exact Hl|].
  intros x Hx. by apply show_frame_plain.
Qed.

Lemma order_code_inj l k : order_code l = order_code k → l = k.
Proof.
  apply (join_fmap_inj _ _ (λ _, True)); [|by intros [] [] _ _|by apply Forall_true..].
  intros x _. split; [done|]. destruct x; by repeat constructor.
Qed.

(** Two HTTP/2 connections have the same Akamai fingerprint exactly when they agree
    on the settings in their order, the window update, the priority frames and the
    order of the pseudo-headers. *)
Theorem akamai_exact a b :
  http2_ranges a → http2_ranges b →
  akamai_http2 a = akamai_http2 b ↔
  settings a = settings b ∧ connection_window_update a = connection_window_update b ∧
  priority_frames a = priority_frames b ∧ pseudo_header_order a = pseudo_header_order b.
Proof.
  intros [Hsa Hwa Hfa] [Hsb Hwb Hfb]. split; [|intros (H1 & H2 & H3 & H4); unfold akamai_http2; by rewrite H1, H2, H3, H4].
  assert (Hshape : ∀ s, akamai_http2 s = join b#";" (show_setting <$> settings s) ++ b#"|" ++ show_u32 (connection_window_update s)
    ++ b#"|" ++ priority_text (priority_frames s) ++ b#"|" ++ order_code (pseudo_header_order s)) by (intros s; unfold akamai_http2, priority_text; by destruct (priority_frames s)).
  rewrite !Hshape. intros Heq.
  assert (Hplain : ∀ l, Forall (λ e, is_u16 (setting_id e) ∧ is_u32 (setting_value e)) l →
    Forall (λ d, d ≠ "|"%char) (join b#";" (show_setting <$> l))).
  { intros l Hl. apply Forall_joined; [by repeat constructor|]. apply Forall_fmap. eapply Forall_impl; [exact Hl|].
    intros x Hx. by apply show_setting_plain. }
  apply separated_inj in Heq as [H1 Heq]; [|by apply Hplain..].
  apply separated_inj in Heq as [H2 Heq]; [|by apply show_u32_plain..].
  apply separated_inj in Heq as [H3 H4]; [|by apply priority_text_plain..].
  split_and!.
  - eapply (join_fmap_inj _ _ (λ e, is_u16 (setting_id e) ∧ is_u32 (setting_value e))); [|by apply show_setting_inj|done|done|exact H1].
    intros x Hx. by apply show_setting_plain.
  - by apply show_u32_inj.
  - by apply priority_text_inj.
  - by apply order_code_inj.
Qed.


(** ** Concrete fingerprints *)

Section Concrete.

Definition sample_digests : Digests := {|
  md5 s := replicate 16 "m"%char;
  sha256 s := replicate 32 "s"%char;
  hex_encode s := mjoin ((λ c, [hex_digit (code c / 16); hex_digit (code c mod 16)]) <$> s);
|}.
Local Existing Instance sample_digests.

Local Instance sample_digest_laws : DigestLaws.
Proof. split; [|done]. intros s. induction s as [|c s IH]; [done|].
  change (hex_encode (c :: s)) with ([hex_digit (code c / 16); hex_digit (code c mod 16)] ++ hex_encode s). rewrite length_app, IH. simpl. lia.
Qed.

(** The same client on two connections: other GREASE values, other orders. *)
Definition connection_a : ClientHelloSpec := sample_shuffled.
Definition connection_b : ClientHelloSpec :=
  mk_hello Tcp Tls10 Tls12 [Tls12; Tls13] [0x3a3a; 0xc02b; 0x1302; 0x1301] (extensions sample_shuffled) (Fixed [])
    [0x5a5a; 0x11ec; 0x001d] [0x11ec] [0x0403; 0x0804] [b#"h2"] [] [] [] [Uncompressed] GREASE_NONE.

Example ja3_a : ja3 connection_a = b#"771,4865-4866-49195,16-0-13-43-10,4588-29,0".
Proof. vm_compute. reflexivity. Qed.

Example ja4_raw_a : ja4_raw connection_a = Some b#"t13d0305h2_1301,1302,c02b_000a,000d,002b_0403,0804".
Proof. vm_compute. reflexivity. Qed.

Lemma connection_a_ranges : hello_ranges connection_a.
Proof. split; repeat constructor; cbn; lia. Qed.

Lemma connection_b_ranges : hello_ranges connection_b.
Proof. split; repeat constructor; cbn; lia. Qed.

Lemma connections_agree : same_ja4 connection_a connection_b.
Proof.
  split; try (vm_compute; reflexivity).
  change (([0x1301; 0x1302; 0xc02b] : list Z) ≡ₚ reverse [0x1301; 0x1302; 0xc02b]). by rewrite reverse_Permutation.
Qed.

Lemma ja4_exact_witness : ja4 connection_a = ja4 connection_b.
Proof.
  destruct (ja4_exact connection_a connection_b) as (_ & _ & _ & H).
  - exact connection_a_ranges.
  - exact connection_b_ranges.
  - apply H. exact connections_agree.
Defined.

Lemma ja3_exact_witness :
  ja3_with_extension_order connection_a [0x0a0a; 0x0010; 0x0000; 0x1a1a] = ja3_with_extension_order connection_a [0x0010; 0x2a2a; 0x0000].
Proof.
  apply (ja3_exact connection_a [0x0a0a; 0x0010; 0x0000; 0x1a1a] connection_a [0x0010; 0x2a2a; 0x0000]).
  - exact connection_a_ranges.
  - exact connection_a_ranges.
  - repeat constructor; cbn; lia.
  - repeat constructor; cbn; lia.
  - split_and!; reflexivity.
Defined.

Definition chrome_http2 (window : Z) (frames : list PriorityFrame) : Http2Spec :=
  mk_http2 [mk_setting 1 65536; mk_setting 2 0; mk_setting 4 6291456; mk_setting 6 262144] window frames None
    [PMethod; PAuthority; PScheme; PPath].

Example akamai_chrome : akamai_http2 (chrome_http2 15663105 []) = b#"1:65536;2:0;4:6291456;6:262144|15663105|0|m,a,s,p".
Proof. vm_compute. reflexivity. Qed.

Lemma chrome_ranges window : 0 <= window <= u32_max → http2_ranges (chrome_http2 window []).
Proof. unfold u32_max. intros Hw. split; cbn; unfold is_u16, is_u32, u32_max; repeat constructor; cbn; lia. Qed.

Lemma akamai_exact_witness : akamai_http2 (chrome_http2 15663105 []) ≠ akamai_http2 (chrome_http2 15663104 []).
Proof.
  intros Heq. destruct (akamai_exact (chrome_http2 15663105 []) (chrome_http2 15663104 [])) as [H _].
  - apply chrome_ranges. unfold u32_max. lia.
  - apply chrome_ranges. unfold u32_max. lia.
  - destruct (H Heq) as (_ & Hw & _). discriminate Hw.
Defined.

Example refused_pseudo_order : pseudo_order_new [PMethod; PPath; PMethod; PScheme] = inr (DuplicatePseudoHeader b#":method").
Proof. vm_compute. reflexivity. Qed.
End Concrete.
