(* ===== verification/Capture.v ===== *)
(** [chromulate-fingerprint]: turning a recorded capture into specifications
    (src/crates/chromulate-fingerprint/src/capture.rs).

    A document is what [serde] makes of it; the fields no specification is built from,
    the provenance and the recorded digests among them, are left out, and so are the
    texts of the errors. *)
From S2P Require Import Prelude RustStr RustNet CodePoint ClientHello Fingerprint.
Local Open Scope Z_scope.

Inductive CaptureError :=
  | UnknownCodePoint (field value : str)
  | UnknownName (field value : str)
  | UnknownGreasePosition (value : str)
  | InconsistentExtensionSet (value : Z) (ja3_order : list Z)
  | MalformedJa3 (reason : nat + str)
  | InvalidPseudoHeaderOrder (value : str)
  | ValueOutOfRange (field : str) (value : Z)
  | InvalidSpec (error : SpecError).

(** The [?] of a fallible step. *)
Definition and_then {A B E} (r : A + E) (k : A → B + E) : B + E :=
  match r with inl x => k x | inr e => inr e end.

Definition ok_or {A E} (o : option A) (e : E) : A + E := match o with Some x => inl x | None => inr e end.

Definition map_err {A E F} (f : E → F) (r : A + E) : A + F := match r with inl x => inl x | inr e => inr (f e) end.

Local Notation "x ←? r ; k" := (and_then r (λ x, k)) (at level 20, r at level 100, k at level 200).
Local Notation "' x ←? r ; k" := (and_then r (λ x, k)) (at level 20, x pattern, r at level 100, k at level 200).

(** ** The document *)

Inductive CodePoint := Number (value : Z) | Text (text : str).

Record ClientHelloCapture := mk_hello_capture {
  c_record_version : Z;
  c_handshake_version : Z;
  cipher_suites_in_wire_order : list CodePoint;
  extension_set_sorted : list Z;
  extension_set_with_resumption_sorted : option (list Z);
  c_supported_groups : list CodePoint;
  c_key_share_groups : list CodePoint;
  c_supported_versions : list CodePoint;
  c_signature_algorithms : list CodePoint;
  c_alpn : list str;
  c_alps : list str;
  c_certificate_compression : list str;
  c_psk_key_exchange_modes : list str;
  c_ec_point_formats : list str;
  grease_positions : list str;
}.

Record Http2Capture := mk_http2_capture {
  settings_in_order : list (Z * Z);
  connection_window_update_increment : Z;
  c_pseudo_header_order : list str;
  headers_frame_priority : option HeadersPriority;
  c_priority_frames : list PriorityFrame;
}.

Record Capture := mk_capture {
  finding_verified : option bool;
  sample_ja3 : str;
  c_client_hello : ClientHelloCapture;
  c_http2 : Http2Capture;
}.

(** ** Reading *)

(** [u16::from_str_radix(digits, 16)]. *)
Definition u16_from_hex (s : str) : option Z :=
  let digits := match s with c :: s' => if decide (c = "+"%char) then s' else s | [] => [] end in
  if bool_decide (digits = []) || negb (forallb is_hex_digit digits) then None
  else let v := hex_value digits in if v <=? 65535 then Some v else None.

(** [None] is a GREASE marker. *)
Definition code_point_value (field : str) (c : CodePoint) : option Z + CaptureError :=
  match c with
  | Number value => inl (Some value)
  | Text text =>
      if eq_ignore_ascii_case text b#"GREASE" then inl None
      else
        let unknown := UnknownCodePoint field text in
        digits ←? ok_or (match strip_prefix b#"0x" text with Some d => Some d | None => strip_prefix b#"0X" text end) unknown;
        value ←? ok_or (u16_from_hex digits) unknown;
        inl (Some value)
  end.

(** The values, and whether a GREASE marker was seen. *)
Fixpoint resolve (field : str) (values : list CodePoint) : (list Z * bool) + CaptureError :=
  match values with
  | [] => inl ([], false)
  | value :: values =>
      v ←? code_point_value field value;
      '(resolved, grease) ←? resolve field values;
      inl match v with Some v => (v :: resolved, grease) | None => (resolved, true) end
  end.

Fixpoint parse_all (pieces : list str) : list Z + str :=
  match pieces with
  | [] => inl []
  | piece :: pieces =>
      value ←? ok_or (parse_unsigned 65535 piece) piece;
      values ←? parse_all pieces;
      inl (value :: values)
  end.

Definition parse_dashed (field : str) : list Z + str :=
  if bool_decide (field = []) then inl [] else parse_all (split_by (is_char "-"%char) field).

Definition ja3_extensions (text : str) : list ExtensionId + CaptureError :=
  match split_by (is_char ","%char) text with
  | [_; _; extensions; _; _] => map_err (λ value, MalformedJa3 (inr value)) (parse_dashed extensions)
  | fields => inr (MalformedJa3 (inl (length fields)))
  end.

Definition ja3_extension_order (text : str) : list ExtensionId + CaptureError :=
  ids ←? ja3_extensions text; map_err InvalidSpec (order_new ids).

Definition version_of (field : str) (value : Z) : TlsVersion + CaptureError :=
  ok_or (version_from_u16 value) (ValueOutOfRange field value).

Fixpoint versions_of (field : str) (values : list Z) : list TlsVersion + CaptureError :=
  match values with
  | [] => inl []
  | value :: values => v ←? version_of field value; vs ←? versions_of field values; inl (v :: vs)
  end.

Fixpoint named {T} (names : list str) (field : str) (lookup : str → option T) : list T + CaptureError :=
  match names with
  | [] => inl []
  | name :: names => x ←? ok_or (lookup name) (UnknownName field name); xs ←? named names field lookup; inl (x :: xs)
  end.

Definition place_grease (position : str) (p : GreasePlacement) : GreasePlacement + CaptureError :=
  if decide (position = b#"first cipher suite") then
    inl (mk_grease true (g_extensions p) (g_supported_groups p) (g_key_shares p) (g_supported_versions p))
  else if decide (position = b#"first extension" ∨ position = b#"last extension") then
    inl (mk_grease (g_cipher_suites p) true (g_supported_groups p) (g_key_shares p) (g_supported_versions p))
  else if decide (position = b#"first supported group") then
    inl (mk_grease (g_cipher_suites p) (g_extensions p) true (g_key_shares p) (g_supported_versions p))
  else if decide (position = b#"first key share") then
    inl (mk_grease (g_cipher_suites p) (g_extensions p) (g_supported_groups p) true (g_supported_versions p))
  else if decide (position = b#"first supported version") then
    inl (mk_grease (g_cipher_suites p) (g_extensions p) (g_supported_groups p) (g_key_shares p) true)
  else inr (UnknownGreasePosition position).

Fixpoint grease_placement_from (p : GreasePlacement) (positions : list str) : GreasePlacement + CaptureError :=
  match positions with
  | [] => inl p
  | position :: positions => p ←? place_grease position p; grease_placement_from p positions
  end.

Definition grease_placement (c : ClientHelloCapture) : GreasePlacement + CaptureError :=
  grease_placement_from GREASE_NONE (grease_positions c).

Definition extension_order_is_randomised (c : Capture) : bool := default false (finding_verified c).

(** The set's first extension that the recorded order does not carry. *)
Definition missing_from (order : list ExtensionId) (s : ExtensionSet) : option ExtensionId :=
  head (filter (λ id, id ∉ order) s).

Definition recorded_order (c : Capture) (s : ExtensionSet) : ExtensionOrder + CaptureError :=
  if extension_order_is_randomised c then inl (Shuffled no_pins)
  else
    order ←? ja3_extension_order (sample_ja3 c);
    match missing_from order s with
    | Some missing => inr (InconsistentExtensionSet missing order)
    | None => inl (Fixed order)
    end.

Definition client_hello (c : Capture) : ClientHelloSpec + CaptureError :=
  let hello := c_client_hello c in
  '(ciphers, grease_ciphers) ←? resolve b#"cipher_suites_in_wire_order" (cipher_suites_in_wire_order hello);
  '(groups, grease_groups) ←? resolve b#"supported_groups" (c_supported_groups hello);
  '(key_shares, grease_key_shares) ←? resolve b#"key_share_groups" (c_key_share_groups hello);
  '(versions, grease_versions) ←? resolve b#"supported_versions" (c_supported_versions hello);
  '(signatures, _) ←? resolve b#"signature_algorithms" (c_signature_algorithms hello);
  recorded ←? ja3_extensions (sample_ja3 c);
  let extensions := foldl (λ s id, (insert_ext id s).2) (set_new (extension_set_sorted hello)) recorded in
  p ←? grease_placement hello;
  let grease := mk_grease (g_cipher_suites p || grease_ciphers) (g_extensions p) (g_supported_groups p || grease_groups)
                  (g_key_shares p || grease_key_shares) (g_supported_versions p || grease_versions) in
  order ←? recorded_order c extensions;
  supported_versions ←? versions_of b#"supported_versions" versions;
  record_version ←? version_of b#"record_version" (c_record_version hello);
  handshake_version ←? version_of b#"handshake_version" (c_handshake_version hello);
  compression ←? named (c_certificate_compression hello) b#"certificate_compression" compression_from_name;
  modes ←? named (c_psk_key_exchange_modes hello) b#"psk_key_exchange_modes" mode_from_name;
  formats ←? named (c_ec_point_formats hello) b#"ec_point_formats" format_from_name;
  inl (mk_hello (if bool_decide (b#"h3" ∈ c_alpn hello) then Quic else Tcp) record_version handshake_version supported_versions
         ciphers extensions order groups key_shares signatures (c_alpn hello) (c_alps hello) compression modes formats grease).

Fixpoint pseudo_headers (all names : list str) : list PseudoHeader + CaptureError :=
  match names with
  | [] => inl []
  | name :: names =>
      h ←? ok_or (pseudo_from_name name) (InvalidPseudoHeaderOrder (join b#"," all));
      hs ←? pseudo_headers all names;
      inl (h :: hs)
  end.

Definition http2 (c : Capture) : Http2Spec + CaptureError :=
  let http2 := c_http2 c in
  order ←? pseudo_headers (c_pseudo_header_order http2) (c_pseudo_header_order http2);
  if negb (length order =? 4)%nat then inr (InvalidPseudoHeaderOrder (join b#"," (c_pseudo_header_order http2)))
  else
    order ←? map_err InvalidSpec (pseudo_order_new order);
    inl (mk_http2 ((λ s, mk_setting s.1 s.2) <$> settings_in_order http2) (connection_window_update_increment http2)
           (c_priority_frames http2) (headers_frame_priority http2) order).

Definition resumption_extensions (c : Capture) : option ExtensionSet :=
  set_new <$> extension_set_with_resumption_sorted (c_client_hello c).

(** ** Facts *)

Lemma and_then_inl {A B E} (r : A + E) (k : A → B + E) b : and_then r k = inl b → ∃ a, r = inl a ∧ k a = inl b.
Proof. destruct r; [eauto|done]. Qed.

Lemma ok_or_inl {A E} (o : option A) (e : E) a : ok_or o e = inl a ↔ o = Some a.
Proof. destruct o; naive_solver. Qed.

Lemma map_err_inl {A E F} (f : E → F) (r : A + E) a : map_err f r = inl a ↔ r = inl a.
Proof. destruct r; naive_solver. Qed.

(** Takes the next fallible step of a successful computation apart. *)
Tactic Notation "step" hyp(H) "as" simple_intropattern(x) simple_intropattern(Hx) :=
  let H' := fresh in apply and_then_inl in H as (x & Hx & H'); cbv beta in H'; rename H' into H.

Definition code_point_u16 (c : CodePoint) : Prop := match c with Number value => is_u16 value | Text _ => True end.

Lemma hex_value_nonneg s : forallb is_hex_digit s = true → 0 <= hex_value s.
Proof.
  intros Hs%forallb_Forall. unfold hex_value.
  assert (Hacc : ∀ acc, 0 <= acc → 0 <= foldl (λ acc c, acc * 16 + hex_digit_value c) acc s); [|apply Hacc; lia].
  induction Hs as [|c s Hc Hs IH]; intros acc Hacc; cbn [foldl]; [done|]. apply IH.
  pose proof (hex_digit_value_range c Hc). lia.
Qed.

Lemma u16_from_hex_range s v : u16_from_hex s = Some v → is_u16 v.
Proof.
  unfold u16_from_hex. set (digits := match s with [] => [] | _ => _ end). destruct (_ || _) eqn:E; [done|]. bool_prop.
  case_match; [|done]. intros [= <-]. destruct E as [_ Hd]. pose proof (hex_value_nonneg _ Hd). unfold is_u16. bool_prop. lia.
Qed.

Lemma code_point_value_u16 field c v : code_point_u16 c → code_point_value field c = inl (Some v) → is_u16 v.
Proof.
  destruct c as [value|text]; cbn [code_point_value]; [by intros ? [= <-]|]. intros _. destruct (eq_ignore_ascii_case _ _); [done|].
  intros H. step H as digits Hd. step H as value Hv. injection H as <-. apply ok_or_inl in Hv. by eapply u16_from_hex_range.
Qed.

Lemma resolve_u16 field values resolved g :
  Forall code_point_u16 values → resolve field values = inl (resolved, g) → Forall is_u16 resolved.
Proof.
  intros Hv. revert resolved g. induction Hv as [|c values Hc Hv IH]; intros resolved g; cbn [resolve]; [by intros [= <- <-]|].
  intros H. step H as v Hval. step H as r Hr. destruct r as [rest g']. specialize (IH rest g' Hr).
  destruct v as [v|]; injection H as <- _; [|done]. constructor; [|done]. by eapply code_point_value_u16.
Qed.

Lemma parse_all_u16 pieces l : parse_all pieces = inl l → Forall is_u16 l.
Proof.
  revert l. induction pieces as [|p pieces IH]; intros l; cbn [parse_all]; [by intros [= <-]|].
  intros H. step H as v Hv. step H as vs Hvs. injection H as <-. constructor; [|by apply IH].
  apply ok_or_inl, parse_unsigned_range in Hv. unfold is_u16. lia.
Qed.

Lemma ja3_extensions_u16 text l : ja3_extensions text = inl l → Forall is_u16 l.
Proof.
  unfold ja3_extensions. destruct (split_by _ text) as [|? [|? [|e [|? [|? [|]]]]]]; try done. rewrite map_err_inl.
  unfold parse_dashed. case_bool_decide; [by intros [= <-]|apply parse_all_u16].
Qed.

(** ** What was printed reads back *)

Lemma parse_all_show l : Forall is_u16 l → parse_all (show_u16 <$> l) = inl l.
Proof.
  induction 1 as [|x l Hx Hl IH]; [done|]. rewrite fmap_cons. cbn [parse_all]. unfold show_u16 at 1.
  rewrite parse_show_digits; [|done|by apply u16_digits|unfold is_u16 in Hx; lia]. cbn [ok_or and_then]. by rewrite IH.
Qed.

Lemma parse_dashed_join l : Forall is_u16 l → parse_dashed (join_dashes l) = inl l.
Proof.
  intros Hl. unfold parse_dashed. destruct l as [|x l]; [done|]. rewrite bool_decide_false.
  - unfold join_dashes. rewrite (split_by_join "-"%char); [by apply parse_all_show|done|].
    apply Forall_fmap. eapply Forall_impl; [exact Hl|]. intros y Hy. by apply show_u16_avoids.
  - apply Forall_cons in Hl as [Hx _]. unfold join_dashes. rewrite fmap_cons. destruct (show_u16_plain x Hx) as [Hne _].
    destruct (show_u16 <$> l) as [|t k]; [done|]. intros Hnil. apply Hne. cbn [join] in Hnil. by apply app_nil in Hnil as [? _].
Qed.

(** The extension list read from the JA3 string of a connection is that of the
    connection with GREASE left out. *)
Theorem ja3_reads_back s order :
  hello_ranges s → Forall is_u16 order → ja3_extensions (ja3_with_extension_order s order) = inl (without_grease order).
Proof.
  intros Hs Ho. unfold ja3_extensions. rewrite ja3_split by done. unfold ja3_fields.
  rewrite parse_dashed_join by by apply Forall_without_grease. done.
Qed.

(** ** What a capture loads as *)

(** The document's numbers are of their types. *)
Record capture_u16 (c : Capture) : Prop := {
  suites_fit : Forall code_point_u16 (cipher_suites_in_wire_order (c_client_hello c));
  set_fits : Forall is_u16 (extension_set_sorted (c_client_hello c));
  groups_fit : Forall code_point_u16 (c_supported_groups (c_client_hello c));
  signatures_fit : Forall code_point_u16 (c_signature_algorithms (c_client_hello c));
}.

Lemma insert_all_spec s ids :
  set_ok s → set_ok (foldl (λ s id, (insert_ext id s).2) s ids) ∧
  ∀ x, x ∈ foldl (λ s id, (insert_ext id s).2) s ids ↔ x ∈ s ∨ (x ∈ ids ∧ is_grease x = false).
Proof.
  revert s. induction ids as [|y ids IH]; intros s Hs; cbn [foldl].
  { split; [done|]. intros x. rewrite elem_of_nil. tauto. }
  destruct (insert_ext_spec y s Hs) as [Hs' Hin]. destruct (IH _ Hs') as [Hok Hin']. split; [done|].
  intros x. rewrite Hin', Hin, elem_of_cons. naive_solver.
Qed.

Lemma missing_from_None order s : missing_from order s = None ↔ ∀ x, x ∈ s → x ∈ order.
Proof.
  unfold missing_from. split.
  - intros Hnone x Hx. destruct (decide (x ∈ order)) as [|Hni]; [done|].
    assert (Hin : x ∈ filter (λ id, id ∉ order) s) by by apply list_elem_of_filter.
    destruct (filter _ s); [by apply elem_of_nil in Hin|done].
  - intros H. rewrite filter_none; [done|]. apply Forall_forall. intros x Hx Hni. by apply Hni, H.
Qed.

Lemma named_formats names l :
  named names b#"ec_point_formats" format_from_name = inl l → Forall (λ f, 0 <= format_as_u8 f < 2 ^ 8) l.
Proof.
  revert l. induction names as [|n names IH]; intros l; cbn [named]; [by intros [= <-]|].
  intros H. step H as f Hf. step H as fs Hfs. injection H as <-. constructor; [|by apply IH]. apply ok_or_inl in Hf.
  unfold format_from_name in Hf. repeat case_decide; simplify_eq; cbn; lia.
Qed.

Lemma recorded_order_inl c s o :
  recorded_order c s = inl o →
  if extension_order_is_randomised c then o = Shuffled no_pins
  else ∃ recorded, ja3_extensions (sample_ja3 c) = inl recorded ∧ order_new recorded = inl recorded ∧ o = Fixed recorded ∧
    ∀ x, x ∈ s → x ∈ recorded.
Proof.
  unfold recorded_order. destruct (extension_order_is_randomised c); [by intros [= <-]|].
  intros H. step H as order Horder. destruct (missing_from order s) eqn:Hm; [done|]. injection H as <-.
  unfold ja3_extension_order in Horder. step Horder as ids Hids. apply map_err_inl in Horder.
  pose proof Horder as Hnew. apply order_new_inl in Horder as [-> _]. exists ids. split_and!; [done|done|done|]. by apply missing_from_None.
Qed.

(** A capture that loads gives a specification whose wire orders the constructor
    accepts and whose numbers have their widths; it offers exactly the extensions the
    set lists or the JA3 string records, GREASE left out.  A client verified to permute
    is shuffled with nothing pinned; any other gets the recorded order, which carries
    all it offers, and its JA3 string reads back as the recorded one. *)
Theorem loaded_hello_exact c s :
  capture_u16 c → client_hello c = inl s →
  spec_ok s ∧ hello_ranges s ∧
  ∃ recorded, ja3_extensions (sample_ja3 c) = inl recorded ∧
    (∀ x, x ∈ extensions s ↔ (x ∈ extension_set_sorted (c_client_hello c) ∨ x ∈ recorded) ∧ is_grease x = false) ∧
    if extension_order_is_randomised c then extension_order s = Shuffled no_pins
    else extension_order s = Fixed recorded ∧ (∀ x, x ∈ extensions s ↔ x ∈ without_grease recorded) ∧
      ja3_extensions (ja3 s) = inl (without_grease recorded).
Proof.
  intros Hc H. unfold client_hello in H.
  step H as [ciphers gc] Hci. step H as [groups gg] Hgr. step H as [shares gk] Hks. step H as [versions gv] Hve. step H as [signatures gs] Hsi.
  step H as recorded Hrec. step H as p Hp. step H as order Ho. step H as sv Hsv. step H as rv Hrv. step H as hv Hhv.
  step H as comp Hcomp. step H as modes Hmodes. step H as formats Hformats.
  set (listed := extension_set_sorted (c_client_hello c)) in *. set (exts := foldl _ _ recorded) in *.
  destruct (set_new_spec listed) as [Hnew Hnewin]. destruct (insert_all_spec (set_new listed) recorded Hnew) as [Hset Hin].
  fold exts in Hset, Hin. pose proof (ja3_extensions_u16 _ _ Hrec) as Hru.
  assert (Hext : ∀ x, x ∈ exts ↔ (x ∈ listed ∨ x ∈ recorded) ∧ is_grease x = false) by (intros x; rewrite Hin, Hnewin; tauto).
  assert (Heu : Forall is_u16 exts).
  { pose proof (set_fits _ Hc) as Hl. rewrite Forall_forall in Hl, Hru. apply Forall_forall. intros x [[Hx|Hx] _]%Hext; auto. }
  apply recorded_order_inl in Ho. injection H as <-.
  assert (Hranges : hello_ranges (mk_hello (if bool_decide (b#"h3" ∈ c_alpn (c_client_hello c)) then Quic else Tcp) rv hv sv ciphers exts order
    groups shares signatures (c_alpn (c_client_hello c)) (c_alps (c_client_hello c)) comp modes formats
    (mk_grease (g_cipher_suites p || gc) (g_extensions p) (g_supported_groups p || gg) (g_key_shares p || gk) (g_supported_versions p || gv)))).
  { split; cbn; [eapply resolve_u16; [apply (suites_fit _ Hc)|exact Hci]|exact Heu|eapply resolve_u16; [apply (groups_fit _ Hc)|exact Hgr]
      |eapply resolve_u16; [apply (signatures_fit _ Hc)|exact Hsi]|by eapply named_formats]. }
  split; [|split; [done|]].
  - split; [done|]. cbn [extension_order]. destruct (extension_order_is_randomised c); [by rewrite Ho|]. by destruct Ho as (r & _ & ? & -> & _).
  - exists recorded. split; [done|]. split; [exact Hext|]. destruct (extension_order_is_randomised c); [done|].
    destruct Ho as (r & Hr & Hon & -> & Hall). assert (r = recorded) as -> by congruence. cbn [extension_order extensions]. split_and!; [done| |].
    + intros x. unfold without_grease. rewrite list_elem_of_filter. split; [|rewrite Hext; tauto].
      intros Hx. split; [by apply Hext in Hx as [_ ?]|by apply Hall].
    + unfold ja3, reference_extension_order. cbn [extension_order]. by apply ja3_reads_back.
Qed.

(** ** The shipped capture

    The document of src/crates/chromulate-profile/data/chrome-151-macos.json. *)

Section Chrome_151.
Local Existing Instance sample_digests.

Definition GREASE_MARK : CodePoint := Text b#"GREASE".

Definition chrome_suites : list Z :=
  [4865; 4866; 4867; 49195; 49199; 49196; 49200; 52393; 52392; 49171; 49172; 156; 157; 47; 53].

Definition chrome_hello : ClientHelloCapture :=
  mk_hello_capture 771 771 (GREASE_MARK :: (Number <$> chrome_suites))
    [5; 10; 11; 13; 16; 18; 23; 27; 35; 43; 45; 51; 17613; 65037; 65281]
    (Some [5; 10; 11; 13; 16; 18; 23; 27; 35; 41; 43; 45; 51; 17613; 65037; 65281])
    (GREASE_MARK :: (Number <$> [4588; 29; 23; 24])) (GREASE_MARK :: (Number <$> [4588; 29])) (GREASE_MARK :: (Number <$> [772; 771]))
    (Text <$> [b#"0x0904"; b#"0x0905"; b#"0x0906"; b#"0x0403"; b#"0x0804"; b#"0x0401"; b#"0x0503"; b#"0x0805"; b#"0x0501"; b#"0x0806"; b#"0x0601"])
    [b#"h2"; b#"http/1.1"] [b#"h2"] [b#"brotli"] [b#"psk_dhe_ke"] [b#"uncompressed"]
    [b#"first cipher suite"; b#"first extension"; b#"last extension"; b#"first supported group"; b#"first key share"; b#"first supported version"].

Definition chrome_connection : Http2Capture :=
  mk_http2_capture [(1, 65536); (2, 0); (4, 6291456); (6, 262144)] 15663105 [b#":method"; b#":authority"; b#":scheme"; b#":path"]
    (Some (mk_headers_priority 0 true 256)) [].

Definition chrome_ja3 : str :=
  b#"771,4865-4866-4867-49195-49199-49196-49200-52393-52392-49171-49172-156-157-47-53,0-51-45-35-16-5-27-18-23-11-17613-65281-43-13-65037-10,4588-29-23-24,0".

Definition chrome_capture (verified : option bool) : Capture := mk_capture verified chrome_ja3 chrome_hello chrome_connection.

Definition loaded (verified : option bool) : option ClientHelloSpec :=
  match client_hello (chrome_capture verified) with inl s => Some s | inr _ => None end.

(** What was observed is what the loaded profile computes: JA4 on a fresh and on a
    resumed connection, the Akamai string, and JA3 in the recorded order. *)
Example chrome_151_observed :
  (s ← loaded (Some true); ja4_raw s) =
    Some b#"t13d1516h2_002f,0035,009c,009d,1301,1302,1303,c013,c014,c02b,c02c,c02f,c030,cca8,cca9_0005,000a,000b,000d,0012,0017,001b,0023,002b,002d,0033,44cd,fe0d,ff01_0904,0905,0906,0403,0804,0401,0503,0805,0501,0806,0601" ∧
  (s ← loaded (Some true); ja4_raw (with_pre_shared_key s)) =
    Some b#"t13d1517h2_002f,0035,009c,009d,1301,1302,1303,c013,c014,c02b,c02c,c02f,c030,cca8,cca9_0005,000a,000b,000d,0012,0017,001b,0023,0029,002b,002d,0033,44cd,fe0d,ff01_0904,0905,0906,0403,0804,0401,0503,0805,0501,0806,0601" ∧
  (s ← loaded None; Some (ja3 s)) = Some chrome_ja3 ∧
  map_err (λ _, tt) (s ←? http2 (chrome_capture None); inl (akamai_http2 s)) = inl b#"1:65536;2:0;4:6291456;6:262144|15663105|0|m,a,s,p".
Proof. vm_compute. repeat split. Qed.

(** Loaded without the finding that it permutes, a client that brackets its extensions
    with GREASE sends none: the recorded JA3 string has it left out, and nothing puts it
    back into a fixed order. *)
Theorem fixed_order_loses_grease :
  (s ← loaded None; order ← wire_extension_order s reversed_draws;
   Some (g_extensions (grease s), existsb is_grease order)) = Some (true, false).
Proof. vm_compute. reflexivity. Qed.

Lemma chrome_capture_u16 verified : capture_u16 (chrome_capture verified).
Proof. split; cbn [c_client_hello chrome_capture]; repeat constructor; cbn; lia. Qed.

Lemma loaded_hello_exact_witness : ∃ s, client_hello (chrome_capture None) = inl s ∧ spec_ok s ∧ hello_ranges s.
Proof.
  destruct (client_hello (chrome_capture None)) as [s|e] eqn:E.
  - destruct (loaded_hello_exact (chrome_capture None) s) as (Hok & Hr & _).
    + exact (chrome_capture_u16 None).
    + exact E.
    + exists s. split; [reflexivity|]. split; [exact Hok|exact Hr].
  - exfalso. revert E. vm_compute. discriminate.
Defined.

Lemma connection_a_order_u16 : Forall is_u16 (reference_extension_order connection_a).
Proof.
  assert (Heq : reference_extension_order connection_a = [0x0a0a; 16; 0; 13; 43; 10; 0x1a1a]) by by vm_compute.
  rewrite Heq. repeat constructor; cbn; lia.
Qed.

Lemma ja3_reads_back_witness : ja3_extensions (ja3 connection_a) = inl [16; 0; 13; 43; 10].
Proof.
  etrans; [apply (ja3_reads_back connection_a (reference_extension_order connection_a))|].
  - exact connection_a_ranges.
  - exact connection_a_order_u16.
  - vm_compute. reflexivity.
Defined.

Example refused_captures :
  (code_point_value b#"f" (Text b#"1301"), code_point_value b#"f" (Text b#"0x+1301"), ja3_extensions b#"771,1,2-x,3,4", ja3_extensions b#"771,1",
   place_grease b#"second extension" GREASE_NONE) =
  (inr (UnknownCodePoint b#"f" b#"1301"), inl (Some 0x1301), inr (MalformedJa3 (inr b#"x")), inr (MalformedJa3 (inl 2%nat)),
   inr (UnknownGreasePosition b#"second extension")).
Proof. vm_compute. reflexivity. Qed.
End Chrome_151.
