(* ===== verification/Http2.v ===== *)
(** [chromulate-http]: how much of a profile's HTTP/2 preface hyper is made to send, and
    what is reported of the rest (src/crates/chromulate-http/src/http2.rs).

    hyper's builder is the knobs the file turns.  What [h2] makes of them is a class
    whose laws are what the file says of that crate; the texts of a report, which are
    only displayed, are the things they name. *)
From S2P Require Import Prelude RustStr Fingerprint.
Local Open Scope Z_scope.

Definition DEFAULT_CONNECTION_WINDOW : Z := 65535.

(** [SettingId] (src/crates/chromulate-fingerprint/src/http2.rs). *)
Definition HEADER_TABLE_SIZE : Z := 1.
Definition ENABLE_PUSH : Z := 2.
Definition MAX_CONCURRENT_STREAMS : Z := 3.
Definition INITIAL_WINDOW_SIZE : Z := 4.
Definition MAX_FRAME_SIZE : Z := 5.
Definition MAX_HEADER_LIST_SIZE : Z := 6.

(** [PseudoHeaderOrder::CHROME]. *)
Definition CHROME_ORDER : list PseudoHeader := [PMethod; PAuthority; PScheme; PPath].

(** hyper's builder.  A window or list size that was not set is hyper's own; the others
    are sent only when set. *)
Record H2Builder := mk_h2 {
  header_table_size : option Z;
  max_concurrent_streams : option Z;
  initial_stream_window_size : option Z;
  max_frame_size : option Z;
  max_header_list_size : option Z;
  initial_connection_window_size : option Z;
}.

(** As hyper hands it out: it would send a frame size of 16 KiB. *)
Definition fresh_builder : H2Builder := mk_h2 None None None (Some 16384) None None.

(** [UnsupportedSetting]. *)
Inductive Unsupported :=
  | PushWanted
  | NoSetter (id value : Z)
  | ListSizeUnlisted
  | WindowUnlisted
  | SettingsOrder
  | PseudoOrder (order : list PseudoHeader)
  | PriorityFrames (count : nat)
  | PriorityFields.

Record Http2Fidelity := mk_http2_fidelity { applied : list Setting; unsupported : list Unsupported; target : str }.

Definition is_exact (f : Http2Fidelity) : bool := match unsupported f with [] => true | _ => false end.

(** One turn of the loop over the settings: the knob it turns, or what it reports. *)
Definition apply_setting (s : Setting) (b : H2Builder) : H2Builder + Unsupported :=
  let value := setting_value s in
  let '(mk_h2 table streams window frame lists connection) := b in
  if setting_id s =? HEADER_TABLE_SIZE then inl (mk_h2 (Some value) streams window frame lists connection)
  else if setting_id s =? MAX_CONCURRENT_STREAMS then inl (mk_h2 table (Some value) window frame lists connection)
  else if setting_id s =? INITIAL_WINDOW_SIZE then inl (mk_h2 table streams (Some value) frame lists connection)
  else if setting_id s =? MAX_FRAME_SIZE then inl (mk_h2 table streams window (Some value) lists connection)
  else if setting_id s =? MAX_HEADER_LIST_SIZE then inl (mk_h2 table streams window frame (Some value) connection)
  else if setting_id s =? ENABLE_PUSH then if value =? 0 then inl b else inr PushWanted
  else inr (NoSetter (setting_id s) value).

Fixpoint apply_settings (l : list Setting) (b : H2Builder) : H2Builder * list Setting * list Unsupported :=
  match l with
  | [] => (b, [], [])
  | s :: l =>
      match apply_setting s b with
      | inl b => let '(b, done_, missing) := apply_settings l b in (b, s :: done_, missing)
      | inr u => let '(b, done_, missing) := apply_settings l b in (b, done_, u :: missing)
      end
  end.

Definition saw (id : Z) (l : list Setting) : bool := existsb (λ s, setting_id s =? id) l.

Fixpoint is_ascending_by_id (l : list Setting) : bool :=
  match l with
  | a :: ((b :: _) as rest) => (setting_id a <=? setting_id b) && is_ascending_by_id rest
  | _ => true
  end.

Definition report (missing : bool) (u : Unsupported) : list Unsupported := if missing then [u] else [].

(** [configure], with the builder it leaves. *)
Definition configure (b : H2Builder) (spec : Http2Spec) : Http2Fidelity * H2Builder :=
  let b := mk_h2 (header_table_size b) (max_concurrent_streams b) (initial_stream_window_size b) None
             (max_header_list_size b) (initial_connection_window_size b) in
  let '(b, done_, missing) := apply_settings (settings spec) b in
  let window := Z.min (connection_window_update spec + DEFAULT_CONNECTION_WINDOW) u32_max in
  let b := mk_h2 (header_table_size b) (max_concurrent_streams b) (initial_stream_window_size b) (max_frame_size b)
             (max_header_list_size b) (Some window) in
  (mk_http2_fidelity done_
     (missing
      ++ report (negb (saw MAX_HEADER_LIST_SIZE (settings spec))) ListSizeUnlisted
      ++ report (negb (saw INITIAL_WINDOW_SIZE (settings spec))) WindowUnlisted
      ++ report (negb (is_ascending_by_id (settings spec))) SettingsOrder
      ++ [PseudoOrder (pseudo_header_order spec)]
      ++ report (match priority_frames spec with [] => false | _ => true end) (PriorityFrames (length (priority_frames spec)))
      ++ report (match headers_priority spec with Some _ => true | None => false end) PriorityFields)
     (akamai_http2 spec), b).

(** ** What is sent *)

(** [h2]: the SETTINGS frame it sends for a builder, and the windows and list size hyper
    falls back on. *)
Class H2Client := {
  own_window : Z;
  own_list_size : Z;
  sent_settings : H2Builder → list Setting;
}.

(** The value a builder sends for one identifier. *)
Definition knob `{H2Client} (b : H2Builder) (id : Z) : option Z :=
  if id =? HEADER_TABLE_SIZE then header_table_size b
  else if id =? ENABLE_PUSH then Some 0
  else if id =? MAX_CONCURRENT_STREAMS then max_concurrent_streams b
  else if id =? INITIAL_WINDOW_SIZE then Some (default own_window (initial_stream_window_size b))
  else if id =? MAX_FRAME_SIZE then max_frame_size b
  else if id =? MAX_HEADER_LIST_SIZE then Some (default own_list_size (max_header_list_size b))
  else None.

(** As the file documents that crate: settings go out in ascending order of their
    identifiers, server push is always refused, and the windows and the list size are
    always there. *)
Class H2Laws `{H2Client} := {
  sent_ascending b : StronglySorted (λ s t, setting_id s < setting_id t) (sent_settings b);
  sent_knobs b s : s ∈ sent_settings b ↔ knob b (setting_id s) = Some (setting_value s);
}.

(** The part of a report that is about the SETTINGS frame. *)
Definition about_settings (u : Unsupported) : bool :=
  match u with PseudoOrder _ | PriorityFrames _ | PriorityFields => false | _ => true end.

Definition settings_reported (f : Http2Fidelity) : list Unsupported := filter (λ u, about_settings u = true) (unsupported f).

(** ** The report is the truth about the SETTINGS frame *)

Definition settable (s : Setting) : Prop :=
  setting_id s ∈ [HEADER_TABLE_SIZE; MAX_CONCURRENT_STREAMS; INITIAL_WINDOW_SIZE; MAX_FRAME_SIZE; MAX_HEADER_LIST_SIZE] ∨
  setting_id s = ENABLE_PUSH ∧ setting_value s = 0.

(** What was set of one knob. *)
Definition turned (b : H2Builder) (id : Z) : option Z :=
  if id =? HEADER_TABLE_SIZE then header_table_size b
  else if id =? MAX_CONCURRENT_STREAMS then max_concurrent_streams b
  else if id =? INITIAL_WINDOW_SIZE then initial_stream_window_size b
  else if id =? MAX_FRAME_SIZE then max_frame_size b
  else if id =? MAX_HEADER_LIST_SIZE then max_header_list_size b
  else None.

Definition values_of (id : Z) (l : list Setting) : list Z := setting_value <$> filter (λ s, setting_id s = id) l.

Ltac setting_ids :=
  unfold HEADER_TABLE_SIZE, ENABLE_PUSH, MAX_CONCURRENT_STREAMS, INITIAL_WINDOW_SIZE, MAX_FRAME_SIZE, MAX_HEADER_LIST_SIZE in *.

Lemma apply_setting_spec s b :
  match apply_setting s b with
  | inl b' =>
      settable s ∧ ∀ id, id ≠ ENABLE_PUSH → turned b' id = if decide (setting_id s = id) then Some (setting_value s) else turned b id
  | inr _ => ¬ settable s
  end.
Proof.
  destruct s as [id value], b. unfold apply_setting, settable, turned. cbn [setting_id setting_value]. setting_ids.
  repeat (match goal with |- context [if (?x =? ?y) then _ else _] => destruct (Z.eqb_spec x y) as [->|] end; simpl).
  all: try (split; [set_solver|intros k Hk; simpl]).
  all: try (repeat match goal with |- context [?x =? ?y] => destruct (Z.eqb_spec x y) as [->|] end; simpl;
            repeat case_decide; congruence).
  all: set_solver.
Qed.

Lemma last_values_cons id s l :
  last (values_of id (s :: l)) =
    match last (values_of id l) with
    | Some v => Some v
    | None => if decide (setting_id s = id) then Some (setting_value s) else None
    end.
Proof.
  unfold values_of. rewrite filter_cons. case_decide as Hs; [|by destruct (last _)].
  rewrite fmap_cons. rewrite last_cons. by destruct (last _).
Qed.

Lemma apply_settings_spec l b :
  let '(b', done_, missing) := apply_settings l b in
  (missing = [] ↔ Forall settable l) ∧
  Forall (λ u, about_settings u = true) missing ∧
  (missing = [] → done_ = l ∧ ∀ id, id ≠ ENABLE_PUSH →
     turned b' id = match last (values_of id l) with Some v => Some v | None => turned b id end).
Proof.
  revert b. induction l as [|s l IH]; intros b; cbn [apply_settings].
  { split_and!; [done|constructor|done]. }
  pose proof (apply_setting_spec s b) as Hs. destruct (apply_setting s b) as [b1|u] eqn:Ha.
  - specialize (IH b1). destruct (apply_settings l b1) as [[b' done_] missing].
    destruct Hs as [Hs Hknob], IH as (Hm & Ht & Hv). split_and!; [|done|].
    + rewrite Forall_cons, Hm. tauto.
    + intros Hnil. destruct (Hv Hnil) as [-> Hl]. split; [done|]. intros id Hid.
      rewrite Hl, last_values_cons, Hknob by done. destruct (last _); [done|]. by case_decide.
  - specialize (IH b). destruct (apply_settings l b) as [[b' done_] missing]. split_and!; [|constructor|done].
    + rewrite Forall_cons. split; [done|tauto].
    + destruct s as [id value], b. unfold apply_setting in Ha.
      repeat (match type of Ha with context [if ?c then _ else _] => destruct c end); by simplify_eq.
    + by destruct IH as (_ & ? & _).
Qed.

Lemma last_values_NoDup l s :
  NoDup (setting_id <$> l) → last (values_of (setting_id s) l) = Some (setting_value s) ↔ s ∈ l.
Proof.
  destruct s as [id v]. cbn [setting_id setting_value]. induction l as [|t l IH]; cbn [fmap list_fmap].
  { intros _. split; [done|by intros ?%elem_of_nil]. }
  intros [Hn Hnd]%NoDup_cons. rewrite last_values_cons, elem_of_cons. specialize (IH Hnd).
  destruct (decide (setting_id t = id)) as [<-|Hne].
  - assert (Hnone : values_of (setting_id t) l = []).
    { unfold values_of. rewrite filter_none; [done|]. apply Forall_forall. intros x Hx Hid. apply Hn.
      rewrite <- Hid. by apply list_elem_of_fmap_2. }
    rewrite Hnone. cbn [last]. split.
    + intros [= <-]. left. by destruct t.
    + intros [He|Hin]; [by rewrite <- He|]. destruct Hn. apply list_elem_of_fmap. by exists (mk_setting (setting_id t) v).
  - rewrite <- IH. transitivity (last (values_of id l) = Some v); [by destruct (last _)|].
    split; [by right|]. intros [He|?]; [by destruct Hne; rewrite <- He|done].
Qed.

Lemma settings_NoDup l : StronglySorted (λ s t, setting_id s < setting_id t) l → NoDup (setting_id <$> l).
Proof.
  induction 1 as [|s l _ IH Hs]; cbn; constructor; [|done].
  intros (t & Heq & Ht)%list_elem_of_fmap. rewrite Forall_forall in Hs. specialize (Hs t Ht). lia.
Qed.

Lemma ascending_sorted l :
  is_ascending_by_id l = true ∧ NoDup (setting_id <$> l) ↔ StronglySorted (λ s t, setting_id s < setting_id t) l.
Proof.
  split.
  - intros [Ha Hnd]. apply Sorted_StronglySorted; [intros ? ? ?; lia|].
    induction l as [|s l IH]; [constructor|]. apply NoDup_cons in Hnd as [Hn Hnd]. destruct l as [|t l].
    { by repeat constructor. }
    cbn [is_ascending_by_id] in Ha. bool_prop. destruct Ha as [Hle Ha]. constructor; [by apply IH|].
    constructor. assert (setting_id s ≠ setting_id t) by (intros He; apply Hn; rewrite He; left). lia.
  - intros Hs. split; [|by apply settings_NoDup]. induction Hs as [|s l Hs IH Hall]; [done|].
    destruct l as [|t l]; [done|]. apply Forall_cons in Hall as [Hlt _].
    change ((setting_id s <=? setting_id t) && is_ascending_by_id (t :: l) = true). rewrite IH, andb_true_r. apply Z.leb_le. lia.
Qed.

Lemma saw_elem id l : saw id l = true ↔ id ∈ setting_id <$> l.
Proof.
  unfold saw. rewrite existsb_exists, list_elem_of_fmap. split.
  - intros (s & Hs & Hid). bool_prop. exists s. split; [done|]. by apply list_elem_of_In.
  - intros (s & -> & Hs). exists s. split; [by apply list_elem_of_In|]. apply Z.eqb_refl.
Qed.

Lemma filter_report missing u :
  filter (λ u, about_settings u = true) (report missing u) = if missing && about_settings u then [u] else [].
Proof. destruct missing; [|done]. cbn [report]. rewrite filter_cons. cbn [andb]. by destruct (about_settings u). Qed.

(** A report that says nothing of the SETTINGS frame, and what the builder then holds. *)
Lemma configure_spec spec :
  let '(f, b) := configure fresh_builder spec in
  (settings_reported f = [] ↔
     Forall settable (settings spec) ∧ MAX_HEADER_LIST_SIZE ∈ setting_id <$> settings spec ∧
     INITIAL_WINDOW_SIZE ∈ setting_id <$> settings spec ∧ is_ascending_by_id (settings spec) = true) ∧
  (Forall settable (settings spec) →
     applied f = settings spec ∧
     ∀ id, id ≠ ENABLE_PUSH → turned b id = last (values_of id (settings spec))).
Proof.
  unfold configure. set (b0 := mk_h2 _ _ _ _ _ _). pose proof (apply_settings_spec (settings spec) b0) as Hs.
  destruct (apply_settings (settings spec) b0) as [[b done_] missing]. destruct Hs as (Hm & Habout & Hv).
  cbn [settings_reported unsupported applied]. split.
  - unfold settings_reported. cbn [unsupported]. rewrite !filter_app, !filter_report. cbn [about_settings].
    rewrite !andb_false_r, !andb_true_r. cbn [app].
    assert (Hmiss : filter (λ u, about_settings u = true) missing = missing).
    { clear -Habout. induction Habout as [|u l Hu _ IH]; [done|]. by rewrite filter_cons, decide_True, IH. }
    rewrite Hmiss, !app_nil, Hm, <- !saw_elem.
    destruct (saw MAX_HEADER_LIST_SIZE _), (saw INITIAL_WINDOW_SIZE _), (is_ascending_by_id _); cbn; naive_solver.
  - intros Hall. destruct (Hv (proj2 Hm Hall)) as [-> Hl]. split; [done|]. intros id Hid. specialize (Hl id Hid).
    transitivity (turned b id); [by destruct b|]. rewrite Hl. destruct (last _); [done|].
    unfold turned, b0. by repeat case_match.
Qed.

Section Sent.
Context `{H2Laws}.

(** What is sent for a builder whose every setting took. *)
Lemma sent_exactly_listed spec b :
  Forall settable (settings spec) → NoDup (setting_id <$> settings spec) →
  ENABLE_PUSH ∈ setting_id <$> settings spec → MAX_HEADER_LIST_SIZE ∈ setting_id <$> settings spec →
  INITIAL_WINDOW_SIZE ∈ setting_id <$> settings spec →
  (∀ id, id ≠ ENABLE_PUSH → turned b id = last (values_of id (settings spec))) →
  ∀ s, s ∈ sent_settings b ↔ s ∈ settings spec.
Proof.
  intros Hall Hnd Hpush Hlist Hwin Hb s. rewrite sent_knobs. rewrite Forall_forall in Hall.
  assert (Hlisted : ∀ id, id ∈ setting_id <$> settings spec → last (values_of id (settings spec)) ≠ None).
  { intros id (t & -> & Ht)%list_elem_of_fmap. apply (last_values_NoDup _ t Hnd) in Ht. by rewrite Ht. }
  destruct (decide (setting_id s = ENABLE_PUSH)) as [Hid|Hid].
  - assert (Hzero : ∀ t, t ∈ settings spec → setting_id t = ENABLE_PUSH → setting_value t = 0).
    { intros t Ht Hti. destruct (Hall t Ht) as [Hin|[_ ?]]; [|done]. rewrite Hti in Hin. setting_ids. set_solver. }
    rewrite Hid. unfold knob. cbn. split.
    + intros [= Hv]. apply list_elem_of_fmap in Hpush as (t & Hti & Ht). destruct s, t. cbn in *.
      by rewrite Hid, Hti, <- Hv, <- (Hzero _ Ht).
    + intros Hs. by rewrite (Hzero s Hs Hid).
  - rewrite <- (last_values_NoDup _ s Hnd), <- (Hb _ Hid). unfold knob.
    assert (Hw := Hlisted _ Hwin). assert (Hl := Hlisted _ Hlist). rewrite <- Hb in Hw, Hl by done.
    destruct b. unfold turned in *. cbn in *. setting_ids.
    destruct (setting_id s =? 1); [done|]. destruct (Z.eqb_spec (setting_id s) 2); [done|].
    destruct (setting_id s =? 3); [done|]. destruct (setting_id s =? 4); [by destruct initial_stream_window_size0|].
    destruct (setting_id s =? 5); [done|]. destruct (setting_id s =? 6); [by destruct max_header_list_size0|done].
Qed.

(** C28. The report is the truth about the SETTINGS frame: what is sent is entry for entry
    what the profile lists exactly when nothing about it is reported, no identifier is
    listed twice and server push is listed; then every entry is reported as applied.
    The connection window is the profile's increment on top of the protocol's window,
    without wrapping for any increment a WINDOW_UPDATE can carry. *)
Theorem preface_report_exact spec :
  let '(f, b) := configure fresh_builder spec in
  (sent_settings b = settings spec ↔
     settings_reported f = [] ∧ NoDup (setting_id <$> settings spec) ∧ ENABLE_PUSH ∈ setting_id <$> settings spec) ∧
  (settings_reported f = [] → applied f = settings spec) ∧
  (connection_window_update spec <= 2 ^ 31 - 1 →
     initial_connection_window_size b = Some (connection_window_update spec + DEFAULT_CONNECTION_WINDOW)).
Proof.
  pose proof (configure_spec spec) as Hc. destruct (configure fresh_builder spec) as [f b] eqn:Hconf.
  destruct Hc as [Hrep Happ]. split_and!.
  - rewrite Hrep. split.
    + intros Hsent. pose proof (sent_ascending b) as Hasc. pose proof (sent_knobs b) as Hk. rewrite Hsent in Hasc, Hk.
      apply ascending_sorted in Hasc as [Hasc Hnd].
      assert (Hin : ∀ id v, knob b id = Some v → id ∈ setting_id <$> settings spec).
      { intros id v Hv. apply list_elem_of_fmap. exists (mk_setting id v). split; [done|]. by apply Hk. }
      split_and!; [|by eapply Hin|by eapply Hin|done..|by eapply Hin].
      apply Forall_forall. intros s Hs%Hk. unfold knob, settable in *. setting_ids.
      repeat case_match; bool_prop; set_solver.
    + intros ((Hall & Hlist & Hwin & Hasc) & Hnd & Hpush). destruct (Happ Hall) as [_ Hb].
      assert (Hsorted : StronglySorted (λ s t, setting_id s < setting_id t) (settings spec)) by (by apply ascending_sorted).
      apply (StronglySorted_unique_strong (λ s t, setting_id s < setting_id t)); [intros; lia|apply sent_ascending|done|].
      apply NoDup_Permutation.
      * apply (NoDup_fmap_1 setting_id), settings_NoDup, sent_ascending.
      * by apply (NoDup_fmap_1 setting_id).
      * by apply sent_exactly_listed.
  - intros (Hall & _)%Hrep. by apply Happ.
  - intros Hw. unfold configure in Hconf. destruct (apply_settings _ _) as [[b1 done_] missing].
    injection Hconf as _ <-. cbn [initial_connection_window_size]. f_equal.
    unfold DEFAULT_CONNECTION_WINDOW, u32_max. lia.
Qed.
End Sent.

(** ** What is reported without being true, and what is true without being reported *)

(** No profile is ever reported as reproduced: the pseudo-header order is reported
    whatever it is, the one [h2] sends included. *)
Theorem never_exact b spec : is_exact (configure b spec).1 = false.
Proof.
  unfold configure. destruct (apply_settings _ _) as [[b1 done_] missing]. unfold is_exact. cbn [fst unsupported].
  by destruct missing, (report _ ListSizeUnlisted), (report _ WindowUnlisted), (report _ SettingsOrder).
Qed.

(** A client that keeps the laws: the settings of a builder in ascending order. *)
#[local] Instance sample_h2 : H2Client := {|
  own_window := 2097152;
  own_list_size := 16384;
  sent_settings b :=
    omap (λ id, mk_setting id <$> @knob {| own_window := 2097152; own_list_size := 16384; sent_settings := λ _, [] |} b id)
      [HEADER_TABLE_SIZE; ENABLE_PUSH; MAX_CONCURRENT_STREAMS; INITIAL_WINDOW_SIZE; MAX_FRAME_SIZE; MAX_HEADER_LIST_SIZE];
|}.

#[local] Instance sample_h2_laws : H2Laws.
Proof.
  split.
  - intros [[] [] [] [] [] c]; cbn; repeat constructor.
  - intros b [id v]. cbn [setting_id setting_value]. change (sent_settings b) with
      (omap (λ id, mk_setting id <$> knob b id)
         [HEADER_TABLE_SIZE; ENABLE_PUSH; MAX_CONCURRENT_STREAMS; INITIAL_WINDOW_SIZE; MAX_FRAME_SIZE; MAX_HEADER_LIST_SIZE]).
    rewrite list_elem_of_omap. split.
    + intros (id' & _ & Hk). apply fmap_Some in Hk as (v' & Hk & [= -> ->]). done.
    + intros Hk. exists id. rewrite Hk. split; [|done]. unfold knob in Hk. setting_ids.
      repeat case_match; bool_prop; set_solver.
Qed.

Definition sample_preface : Http2Spec :=
  chrome_http2 15663105 [].

Lemma preface_report_exact_witness :
  settings_reported (configure fresh_builder sample_preface).1 = [] ∧
  sent_settings (configure fresh_builder sample_preface).2 = settings sample_preface ∧
  initial_connection_window_size (configure fresh_builder sample_preface).2 = Some 15728640.
Proof.
  split; [reflexivity|]. pose proof (preface_report_exact sample_preface) as Hr.
  destruct (configure fresh_builder sample_preface) as [f b] eqn:Hc. destruct Hr as (Hs & _ & Hw).
  split; [|apply Hw; vm_compute; discriminate].
  apply Hs. injection Hc as <- <-. split; [reflexivity|]. cbn. split; [|right; left].
  apply (bool_decide_unpack _). reflexivity.
Defined.

(** A profile that lists no server push is sent one refusal of it, and one that lists a
    setting twice is sent it once; neither is reported. *)
Theorem unlisted_push_is_sent :
  let sends l := let '(f, b) := configure fresh_builder (mk_http2 l 0 [] None CHROME_ORDER) in
                 (settings_reported f, sent_settings b) in
  sends [mk_setting 4 6291456; mk_setting 6 262144] =
    ([], [mk_setting 2 0; mk_setting 4 6291456; mk_setting 6 262144]) ∧
  sends [mk_setting 2 0; mk_setting 4 1; mk_setting 4 2; mk_setting 6 9] =
    ([], [mk_setting 2 0; mk_setting 4 2; mk_setting 6 9]).
Proof. vm_compute. done. Qed.
