(* ===== verification/TlsSessions.v ===== *)
(** [chromulate-tls]'s store of resumption material
    (src/crates/chromulate-tls/src/resumption.rs).

    Server names, groups and the values rustls keeps - TLS 1.2 sessions and TLS 1.3
    tickets - are parameters: the store never looks into them.  Every method holds the
    lock for all it does, so that what callers on any number of threads do is a sequence
    of operations. *)
From S2P Require Import Prelude.
Local Open Scope Z_scope.

Definition DEFAULT_CAPACITY : Z := 256.
Definition TICKETS_PER_HOST : nat := 8.

Section Store.
Context {ServerName NamedGroup Tls12Session Ticket : Type} `{Countable ServerName}.

Record HostSessions := mk_host {
  h_kx_hint : option NamedGroup;
  h_tls12 : option Tls12Session;
  h_tls13 : list Ticket;
}.
Definition no_sessions : HostSessions := mk_host None None [].

(** [State]; the least recently used name first. *)
Record State := mk_state { hosts : gmap ServerName HostSessions; recency : list ServerName }.

Record SessionStore := mk_store { capacity : Z; state : State }.

Definition with_state (s : State) (store : SessionStore) : SessionStore := mk_store (capacity store) s.

(** [SessionStore::new]. *)
Definition new_sessions (capacity : Z) : SessionStore := mk_store (Z.max capacity 1) (mk_state ∅ []).

(** [State::touch]. *)
Definition touch_name (n : ServerName) (s : State) : State :=
  mk_state (hosts s) (filter (λ held, held ≠ n) (recency s) ++ [n]).

(** [State::evict_to]. *)
Fixpoint evict_loop (capacity : Z) (hosts : gmap ServerName HostSessions) (recency : list ServerName) : State :=
  if capacity <? Z.of_nat (size hosts) then
    match recency with
    | oldest :: recency => evict_loop capacity (delete oldest hosts) recency
    | [] => mk_state ∅ []
    end
  else mk_state hosts recency.

Definition evict_to (capacity : Z) (s : State) : State := evict_loop capacity (hosts s) (recency s).

(** [SessionStore::with_host]; every [edit] the store makes returns nothing. *)
Definition write_host (n : ServerName) (edit : HostSessions → HostSessions) (store : SessionStore) : SessionStore :=
  let s := touch_name n (state store) in
  let s := mk_state (<[n := edit (default no_sessions (hosts s !! n))]> (hosts s)) (recency s) in
  with_state (evict_to (capacity store) s) store.

(** [SessionStore::read_host]. *)
Definition read_host {R} (n : ServerName) (read : HostSessions → R * HostSessions) (store : SessionStore)
    : option R * SessionStore :=
  match hosts (state store) !! n with
  | None => (None, store)
  | Some host =>
      let '(result, host) := read host in
      (Some result, with_state (touch_name n (mk_state (<[n := host]> (hosts (state store))) (recency (state store)))) store)
  end.

Definition set_kx_hint (n : ServerName) (group : NamedGroup) : SessionStore → SessionStore :=
  write_host n (λ h, mk_host (Some group) (h_tls12 h) (h_tls13 h)).

Definition kx_hint (n : ServerName) (store : SessionStore) : option NamedGroup * SessionStore :=
  let '(r, store) := read_host n (λ h, (h_kx_hint h, h)) store in (mjoin r, store).

Definition set_tls12_session (n : ServerName) (value : Tls12Session) : SessionStore → SessionStore :=
  write_host n (λ h, mk_host (h_kx_hint h) (Some value) (h_tls13 h)).

Definition tls12_session (n : ServerName) (store : SessionStore) : option Tls12Session * SessionStore :=
  let '(r, store) := read_host n (λ h, (h_tls12 h, h)) store in (mjoin r, store).

Definition remove_tls12_session (n : ServerName) (store : SessionStore) : SessionStore :=
  (read_host n (λ h, (tt, mk_host (h_kx_hint h) None (h_tls13 h))) store).2.

(** [pop_front] when there are [TICKETS_PER_HOST], then [push_back]. *)
Definition push_ticket (value : Ticket) (tickets : list Ticket) : list Ticket :=
  (if decide (length tickets = TICKETS_PER_HOST) then drop 1 tickets else tickets) ++ [value].

Definition insert_tls13_ticket (n : ServerName) (value : Ticket) : SessionStore → SessionStore :=
  write_host n (λ h, mk_host (h_kx_hint h) (h_tls12 h) (push_ticket value (h_tls13 h))).

(** [VecDeque::pop_back]. *)
Definition pop_ticket (tickets : list Ticket) : option Ticket * list Ticket := (last tickets, removelast tickets).

Definition take_tls13_ticket (n : ServerName) (store : SessionStore) : option Ticket * SessionStore :=
  let '(r, store) :=
    read_host n (λ h, let '(t, rest) := pop_ticket (h_tls13 h) in (t, mk_host (h_kx_hint h) (h_tls12 h) rest)) store in
  (mjoin r, store).

Definition has_ticket (n : ServerName) (store : SessionStore) : bool :=
  match hosts (state store) !! n with
  | None => false
  | Some h => bool_decide (h_tls13 h ≠ []) || bool_decide (is_Some (h_tls12 h))
  end.

Definition forget_host (n : ServerName) (store : SessionStore) : SessionStore :=
  let s := state store in
  match hosts s !! n with
  | None => store
  | Some _ => with_state (mk_state (delete n (hosts s)) (filter (λ held, held ≠ n) (recency s))) store
  end.

Definition clear_sessions (store : SessionStore) : SessionStore := with_state (mk_state ∅ []) store.
Definition sessions_len (store : SessionStore) : Z := Z.of_nat (size (hosts (state store))).

(** ** What callers do *)

Inductive Op :=
  | SetKxHint (n : ServerName) (group : NamedGroup)
  | KxHint (n : ServerName)
  | SetTls12 (n : ServerName) (value : Tls12Session)
  | GetTls12 (n : ServerName)
  | RemoveTls12 (n : ServerName)
  | InsertTicket (n : ServerName) (value : Ticket)
  | TakeTicket (n : ServerName)
  | HasTicket (n : ServerName)
  | Forget (n : ServerName)
  | ClearAll
  | Len.

Inductive Answer :=
  | Nothing
  | TheGroup (group : option NamedGroup)
  | TheTls12 (value : option Tls12Session)
  | TheTicket (value : option Ticket)
  | Whether (b : bool)
  | Count (n : Z).

Definition step (op : Op) (s : SessionStore) : Answer * SessionStore :=
  match op with
  | SetKxHint n g => (Nothing, set_kx_hint n g s)
  | KxHint n => let '(r, s) := kx_hint n s in (TheGroup r, s)
  | SetTls12 n v => (Nothing, set_tls12_session n v s)
  | GetTls12 n => let '(r, s) := tls12_session n s in (TheTls12 r, s)
  | RemoveTls12 n => (Nothing, remove_tls12_session n s)
  | InsertTicket n v => (Nothing, insert_tls13_ticket n v s)
  | TakeTicket n => let '(r, s) := take_tls13_ticket n s in (TheTicket r, s)
  | HasTicket n => (Whether (has_ticket n s), s)
  | Forget n => (Nothing, forget_host n s)
  | ClearAll => (Nothing, clear_sessions s)
  | Len => (Count (sessions_len s), s)
  end.

Fixpoint run (ops : list Op) (s : SessionStore) : list Answer * SessionStore :=
  match ops with
  | [] => ([], s)
  | op :: ops => let '(a, s) := step op s in let '(answers, s) := run ops s in (a :: answers, s)
  end.

(** ** One list *)

(** The specification: the hosts in one list, the least recently used first, cut at the
    front when there are more than [cap]. *)
Abbreviation Lru := (list (ServerName * HostSessions)).

Definition others (n : ServerName) (l : Lru) : Lru := filter (λ p, p.1 ≠ n) l.
Definition material (n : ServerName) (l : Lru) : option HostSessions := snd <$> head (filter (λ p, p.1 = n) l).
Definition used (n : ServerName) (h : HostSessions) (l : Lru) : Lru := others n l ++ [(n, h)].
Definition newest (cap : Z) (l : Lru) : Lru := drop (length l - Z.to_nat cap) l.

Definition lru_edit (cap : Z) (n : ServerName) (edit : HostSessions → HostSessions) (l : Lru) : Lru :=
  newest cap (used n (edit (default no_sessions (material n l))) l).

Definition lru_read {R} (n : ServerName) (read : HostSessions → R * HostSessions) (l : Lru) : option R * Lru :=
  match material n l with
  | None => (None, l)
  | Some h => let '(r, h) := read h in (Some r, used n h l)
  end.

Definition lru_step (cap : Z) (op : Op) (l : Lru) : Answer * Lru :=
  match op with
  | SetKxHint n g => (Nothing, lru_edit cap n (λ h, mk_host (Some g) (h_tls12 h) (h_tls13 h)) l)
  | KxHint n => let '(r, l) := lru_read n (λ h, (h_kx_hint h, h)) l in (TheGroup (mjoin r), l)
  | SetTls12 n v => (Nothing, lru_edit cap n (λ h, mk_host (h_kx_hint h) (Some v) (h_tls13 h)) l)
  | GetTls12 n => let '(r, l) := lru_read n (λ h, (h_tls12 h, h)) l in (TheTls12 (mjoin r), l)
  | RemoveTls12 n =>
      let '(_, l) := lru_read n (λ h, (tt, mk_host (h_kx_hint h) None (h_tls13 h))) l in (Nothing, l)
  | InsertTicket n v =>
      (Nothing, lru_edit cap n (λ h, mk_host (h_kx_hint h) (h_tls12 h) (push_ticket v (h_tls13 h))) l)
  | TakeTicket n =>
      let '(r, l) := lru_read n (λ h, (last (h_tls13 h), mk_host (h_kx_hint h) (h_tls12 h) (removelast (h_tls13 h)))) l in
      (TheTicket (mjoin r), l)
  | HasTicket n =>
      (Whether (match material n l with
                | Some h => bool_decide (h_tls13 h ≠ [] ∨ is_Some (h_tls12 h))
                | None => false
                end), l)
  | Forget n => (Nothing, others n l)
  | ClearAll => (Nothing, [])
  | Len => (Count (zlen l), l)
  end.

(** What the store holds is the list: its queue is the list's names, its map the list. *)
Definition stands_for (s : SessionStore) (l : Lru) : Prop :=
  1 <= capacity s ∧ recency (state s) = l.*1 ∧ hosts (state s) = list_to_map l ∧ NoDup l.*1 ∧
  zlen l <= capacity s ∧ Forall (λ p, (length (h_tls13 p.2) <= TICKETS_PER_HOST)%nat) l.

(** ** The list and the map *)

Abbreviation as_map l := (list_to_map (M := gmap ServerName HostSessions) l).

Lemma material_cons n k h l : material n ((k, h) :: l) = if decide (k = n) then Some h else material n l.
Proof. unfold material. rewrite filter_cons. cbn [fst]. by case_decide. Qed.

Lemma others_cons n k h l : others n ((k, h) :: l) = if decide (k = n) then others n l else (k, h) :: others n l.
Proof. unfold others. rewrite filter_cons. cbn [fst]. repeat case_decide; done. Qed.

Lemma material_map n (l : Lru) : as_map l !! n = material n l.
Proof.
  induction l as [|[k h] l IH]; [apply lookup_empty|]. rewrite material_cons. cbn.
  case_decide as Hk; [subst; by rewrite lookup_insert_eq|by rewrite lookup_insert_ne].
Qed.

Lemma others_map n (l : Lru) : as_map (others n l) = delete n (as_map l).
Proof.
  induction l as [|[k h] l IH]; [symmetry; apply delete_empty|]. rewrite others_cons. cbn.
  case_decide as Hk; [subst; by rewrite delete_insert_eq|]. cbn. by rewrite delete_insert_ne, IH.
Qed.

Lemma others_names n (l : Lru) : (others n l).*1 = filter (λ k, k ≠ n) l.*1.
Proof.
  induction l as [|[k h] l IH]; [done|]. rewrite others_cons, fmap_cons, filter_cons. cbn [fst].
  rewrite <- IH. repeat case_decide; naive_solver.
Qed.

Lemma others_absent n (l : Lru) : n ∉ (others n l).*1.
Proof. rewrite others_names, list_elem_of_filter. naive_solver. Qed.

Lemma others_NoDup n (l : Lru) : NoDup l.*1 → NoDup (others n l).*1.
Proof. rewrite others_names. apply NoDup_filter. Qed.

Lemma others_length n (l : Lru) :
  NoDup l.*1 → zlen (others n l) = match material n l with Some _ => zlen l - 1 | None => zlen l end.
Proof.
  induction l as [|[k h] l IH]; [done|]. rewrite fmap_cons, NoDup_cons. intros [Hk Hl]. specialize (IH Hl).
  rewrite others_cons, material_cons, zlen_cons. case_decide as Hd; [|rewrite zlen_cons, IH; destruct (material n l); lia].
  subst. rewrite IH. rewrite <- material_map, (not_elem_of_list_to_map_1 l); [lia|done].
Qed.

Lemma others_none n (l : Lru) : material n l = None → others n l = l.
Proof.
  induction l as [|[k h] l IH]; [done|]. rewrite material_cons, others_cons. case_decide; [done|]. intros Hm. by rewrite IH.
Qed.

Lemma used_names n h (l : Lru) : (used n h l).*1 = filter (λ k, k ≠ n) l.*1 ++ [n].
Proof. unfold used. by rewrite fmap_app, others_names. Qed.

Lemma used_map n h (l : Lru) : as_map (used n h l) = <[n := h]> (as_map l).
Proof.
  unfold used. rewrite list_to_map_snoc by apply others_absent. by rewrite others_map, insert_delete_eq.
Qed.

Lemma used_NoDup n h (l : Lru) : NoDup l.*1 → NoDup (used n h l).*1.
Proof.
  intros Hl. unfold used. rewrite fmap_app. apply NoDup_app. split; [by apply others_NoDup|].
  split; [|apply NoDup_singleton]. intros k Hk ->%list_elem_of_singleton. by apply others_absent in Hk.
Qed.

Lemma newest_cons cap p (l : Lru) : (Z.to_nat cap < length (p :: l))%nat → newest cap (p :: l) = newest cap l.
Proof. intros Hl. unfold newest. by replace (length (p :: l) - Z.to_nat cap)%nat with (S (length l - Z.to_nat cap)) by (cbn in *; lia). Qed.

Lemma newest_small cap (l : Lru) : (length l <= Z.to_nat cap)%nat → newest cap l = l.
Proof. intros Hl. unfold newest. by replace (length l - Z.to_nat cap)%nat with 0%nat by lia. Qed.

Lemma evict_loop_spec cap (l : Lru) :
  0 <= cap → NoDup l.*1 → evict_loop cap (as_map l) l.*1 = mk_state (as_map (newest cap l)) (newest cap l).*1.
Proof.
  intros Hcap. induction l as [|[k h] l IH]; intros Hl.
  - cbn. by rewrite (proj2 (Z.ltb_ge _ _)) by done.
  - rewrite fmap_cons. cbn [evict_loop fst]. rewrite map_size_list_to_map by done.
    apply NoDup_cons in Hl as [Hk Hl]. destruct (Z.ltb_spec cap (Z.of_nat (length ((k, h) :: l)))) as [Hc|Hc].
    + rewrite newest_cons, <- IH by (done || lia). cbn [list_to_map foldr curry].
      change (as_map ((k, h) :: l)) with (<[k := h]> (as_map l)).
      by rewrite delete_insert_eq, delete_id by by apply not_elem_of_list_to_map_1.
    + by rewrite newest_small by lia.
Qed.

Lemma newest_stands cap (l : Lru) (P : ServerName * HostSessions → Prop) :
  0 <= cap → NoDup l.*1 → Forall P l → NoDup (newest cap l).*1 ∧ zlen (newest cap l) <= cap ∧ Forall P (newest cap l).
Proof.
  intros Hcap Hl HP. unfold newest. rewrite fmap_drop. split; [|split].
  - eapply sublist_NoDup; [exact Hl|apply sublist_drop].
  - unfold zlen. rewrite length_drop. lia.
  - by apply Forall_drop.
Qed.

Definition few_tickets (h : HostSessions) : Prop := (length (h_tls13 h) <= TICKETS_PER_HOST)%nat.

Lemma used_few n h (l : Lru) : few_tickets h → Forall (λ p, few_tickets p.2) l → Forall (λ p, few_tickets p.2) (used n h l).
Proof. intros Hh Hl. apply Forall_app. split; [|by constructor].
  apply Forall_forall. intros p [_ Hp]%list_elem_of_filter. by eapply Forall_forall in Hl. Qed.

Lemma material_few n h (l : Lru) : Forall (λ p, few_tickets p.2) l → material n l = Some h → few_tickets h.
Proof.
  induction 1 as [|[k h'] l Hh Hl IH]; [done|]. rewrite material_cons. case_decide; [|done]. by intros [= <-].
Qed.

(** ** The operations *)

Lemma with_host_spec n edit s l :
  (∀ h, few_tickets h → few_tickets (edit h)) →
  stands_for s l → stands_for (write_host n edit s) (lru_edit (capacity s) n edit l).
Proof.
  intros Hedit (Hcap & Hrec & Hhosts & Hnd & Hlen & Hfew).
  assert (Hmat : hosts (touch_name n (state s)) !! n = material n l) by (cbn; by rewrite Hhosts, material_map).
  assert (Hh : few_tickets (edit (default no_sessions (material n l)))).
  { apply Hedit. destruct (material n l) as [h|] eqn:Hm; [by eapply material_few|]. unfold few_tickets. cbn. lia. }
  set (h := edit (default no_sessions (material n l))) in *.
  assert (Hs : state (write_host n edit s) =
    mk_state (as_map (newest (capacity s) (used n h l))) (newest (capacity s) (used n h l)).*1).
  { unfold write_host, evict_to. rewrite Hmat. cbn [state with_state hosts recency touch_name]. fold h.
    rewrite Hhosts, Hrec, <- used_map, <- (used_names n h).
    apply evict_loop_spec; [lia|by apply used_NoDup]. }
  unfold stands_for, lru_edit. fold h. rewrite Hs. cbn [capacity write_host with_state hosts recency].
  destruct (newest_stands (capacity s) (used n h l) (λ p, few_tickets p.2)) as (Hn & Hl & Hf);
    [lia|by apply used_NoDup|by apply used_few|]. auto 10.
Qed.

Lemma read_host_spec {R} n (read : HostSessions → R * HostSessions) s l :
  (∀ h, few_tickets h → few_tickets (read h).2) →
  stands_for s l →
  let '(r, s') := read_host n read s in
  let '(r', l') := lru_read n read l in
  r = r' ∧ stands_for s' l' ∧ capacity s' = capacity s.
Proof.
  intros Hread (Hcap & Hrec & Hhosts & Hnd & Hlen & Hfew).
  unfold read_host, lru_read. rewrite Hhosts, material_map.
  destruct (material n l) as [h|] eqn:Hm; [|by unfold stands_for; auto 10].
  pose proof (Hread h (material_few n h l Hfew Hm)) as Hh. destruct (read h) as [r h'] eqn:Hr. cbn [snd] in Hh.
  split; [done|]. split; [|done]. unfold stands_for. cbn [state with_state touch_name hosts recency capacity].
  rewrite Hrec, <- used_map, <- (used_names n h'). split_and!; auto using used_NoDup, used_few.
  unfold used. rewrite zlen_app, others_length, Hm by done. change (zlen [_]) with 1. lia.
Qed.

Lemma push_few v (l : list Ticket) :
  (length l <= TICKETS_PER_HOST)%nat → (length (push_ticket v l) <= TICKETS_PER_HOST)%nat.
Proof.
  unfold push_ticket, TICKETS_PER_HOST. rewrite length_app. cbn. case_decide; [rewrite length_drop|]; lia.
Qed.

Lemma removelast_few (l : list Ticket) :
  (length l <= TICKETS_PER_HOST)%nat → (length (removelast l) <= TICKETS_PER_HOST)%nat.
Proof. rewrite removelast_firstn_len, length_firstn. lia. Qed.

(** Reading through a host's entry, as each reading method does it. *)
Lemma read_step_spec {R} n (read : HostSessions → option R * HostSessions) (answer : option R → Answer) s l :
  (∀ h, few_tickets h → few_tickets (read h).2) → stands_for s l →
  let '(a, s') := (let '(r, s) := read_host n read s in (answer (mjoin r), s)) in
  let '(a', l') := (let '(r, l) := lru_read n read l in (answer (mjoin r), l)) in
  a = a' ∧ stands_for s' l' ∧ capacity s' = capacity s.
Proof.
  intros Hread Hs. pose proof (read_host_spec n read s l Hread Hs) as Hr.
  destruct (read_host _ _ _) as [r s'], (lru_read _ _ _) as [r' l']. by destruct Hr as (-> & ? & ?).
Qed.

Lemma forget_spec n s l : stands_for s l → stands_for (forget_host n s) (others n l).
Proof.
  intros (Hcap & Hrec & Hhosts & Hnd & Hlen & Hfew). pose proof (others_length n l Hnd) as Ho.
  assert (Hf : Forall (λ p, few_tickets p.2) (others n l)).
  { apply Forall_forall. intros p [_ Hp]%list_elem_of_filter. by eapply Forall_forall in Hfew. }
  unfold forget_host. rewrite Hhosts, material_map. destruct (material n l) as [h|] eqn:Hm.
  - unfold stands_for. cbn. rewrite Hrec, <- others_names, others_map. split_and!; auto using others_NoDup; lia.
  - by rewrite others_none.
Qed.

Lemma empty_stands cap : 1 <= cap → stands_for (mk_store cap (mk_state ∅ [])) [].
Proof.
  intros Hcap. unfold stands_for. cbn [capacity state recency hosts]. change (zlen []) with 0.
  repeat (split; [done || constructor || lia|]). constructor.
Qed.

Lemma step_spec op s l :
  stands_for s l →
  let '(a, s') := step op s in
  let '(a', l') := lru_step (capacity s) op l in
  a = a' ∧ stands_for s' l' ∧ capacity s' = capacity s.
Proof.
  intros Hs. destruct op as [n g|n|n v|n|n|n v|n|n|n| |]; cbn [step lru_step].
  - split_and!; [done|by apply with_host_spec|done].
  - pose proof (read_step_spec n (λ h, (h_kx_hint h, h)) TheGroup s l (λ h Hh, Hh) Hs) as Hr.
    unfold kx_hint. by destruct (read_host _ _ _), (lru_read _ _ _).
  - split_and!; [done|by apply with_host_spec|done].
  - pose proof (read_step_spec n (λ h, (h_tls12 h, h)) TheTls12 s l (λ h Hh, Hh) Hs) as Hr.
    unfold tls12_session. by destruct (read_host _ _ _), (lru_read _ _ _).
  - pose proof (read_host_spec n (λ h, (tt, mk_host (h_kx_hint h) None (h_tls13 h))) s l (λ h Hh, Hh) Hs) as Hr.
    unfold remove_tls12_session. destruct (read_host _ _ _), (lru_read _ _ _). by destruct Hr as (_ & ? & ?).
  - split_and!; [done|apply with_host_spec; [|done]|done]. intros h. apply push_few.
  - pose proof (read_step_spec n (λ h, (last (h_tls13 h), mk_host (h_kx_hint h) (h_tls12 h) (removelast (h_tls13 h))))
      TheTicket s l (λ h, removelast_few _) Hs) as Hr.
    unfold take_tls13_ticket, pop_ticket. by destruct (read_host _ _ _), (lru_read _ _ _).
  - split_and!; [|done|done]. destruct Hs as (_ & _ & Hhosts & _). unfold has_ticket. rewrite Hhosts, material_map.
    destruct (material n l) as [h|]; [|done]. by rewrite <- bool_decide_or.
  - split_and!; [done|by apply forget_spec|]. unfold forget_host. by destruct (hosts _ !! n).
  - split_and!; [done| |done]. apply empty_stands. by destruct Hs.
  - split_and!; [|done|done]. destruct Hs as (_ & _ & Hhosts & Hnd & _). unfold sessions_len.
    by rewrite Hhosts, map_size_list_to_map.
Qed.

(** ** Theorems *)

Fixpoint lru_run (cap : Z) (ops : list Op) (l : Lru) : list Answer * Lru :=
  match ops with
  | [] => ([], l)
  | op :: ops => let '(a, l) := lru_step cap op l in let '(answers, l) := lru_run cap ops l in (a :: answers, l)
  end.

Lemma sessions_run_spec ops s l :
  stands_for s l →
  let '(answers, s') := run ops s in
  let '(answers', l') := lru_run (capacity s) ops l in answers = answers' ∧ stands_for s' l'.
Proof.
  revert s l; induction ops as [|op ops IH]; intros s l Hs; cbn [run lru_run]; [done|].
  pose proof (step_spec op s l Hs) as Hstep. destruct (step op s) as [a s1], (lru_step _ op l) as [a' l1].
  destruct Hstep as (-> & H1 & Hcap). specialize (IH s1 l1 H1). rewrite Hcap in IH.
  destruct (run ops s1) as [as' s2], (lru_run _ ops l1) as [bs l2]. by destruct IH as [-> ?].
Qed.

(** C23. Whatever sequence of calls is made of a new store, each is answered as by one
    list of hosts kept in the order of their last use, which a write cuts to the store's
    capacity by dropping the least recently used: the queue of names is the list's
    names, the map holds each of them once and nothing else, there are never more hosts
    than the capacity, which is at least one, nor more than eight tickets for a host.
    No host's material is read, changed or lost by a call that names another, but for
    the one host a write evicts. *)
Theorem sessions_are_one_lru cap ops :
  let '(answers, s) := run ops (new_sessions cap) in
  let '(answers', l) := lru_run (Z.max cap 1) ops [] in answers = answers' ∧ stands_for s l.
Proof. apply sessions_run_spec, empty_stands. lia. Qed.

(** *** Tickets *)

Definition tickets_of (n : ServerName) (s : SessionStore) : list Ticket := from_option h_tls13 [] (hosts (state s) !! n).

Definition stored_by (n : ServerName) (op : Op) : list Ticket :=
  match op with InsertTicket m v => if decide (m = n) then [v] else [] | _ => [] end.

Definition taken_by (n : ServerName) (op : Op) (a : Answer) : list Ticket :=
  match op, a with TakeTicket m, TheTicket (Some v) => if decide (m = n) then [v] else [] | _, _ => [] end.

Definition stored_for (n : ServerName) (ops : list Op) : list Ticket := ops ≫= stored_by n.
Definition taken_for (n : ServerName) (ops : list Op) (answers : list Answer) : list Ticket :=
  zip ops answers ≫= λ oa, taken_by n oa.1 oa.2.

Lemma evict_loop_subset cap m r : hosts (evict_loop cap m r) ⊆ m.
Proof.
  revert m; induction r as [|n r IH]; intros m; cbn; destruct (_ <? _); cbn; [apply map_empty_subseteq|done| |done].
  etrans; [apply IH|apply delete_subseteq].
Qed.

(** A write leaves a host what it had, what the write gave it, or nothing. *)
Lemma tickets_with_host m n edit s :
  tickets_of n (write_host m edit s) =
    (if decide (m = n) then h_tls13 (edit (default no_sessions (hosts (state s) !! n))) else tickets_of n s) ∨
  tickets_of n (write_host m edit s) = [].
Proof.
  unfold tickets_of, write_host, evict_to. cbn [state with_state hosts touch_name].
  set (edited := <[m := _]> (hosts (state s))). set (queue := recency _).
  destruct (hosts (evict_loop (capacity s) edited queue) !! n) as [h|] eqn:Hn; [left|by right].
  eapply lookup_weaken in Hn; [|apply evict_loop_subset]. unfold edited in Hn. cbn [from_option].
  case_decide as Hm; [subst; rewrite lookup_insert_eq in Hn; by injection Hn as <-|].
  rewrite lookup_insert_ne in Hn by done. by rewrite Hn.
Qed.

Lemma tickets_read_host {R} m n (read : HostSessions → R * HostSessions) s :
  tickets_of n (read_host m read s).2 =
    if decide (m = n) then from_option (λ h, h_tls13 (read h).2) [] (hosts (state s) !! n) else tickets_of n s.
Proof.
  unfold read_host, tickets_of. destruct (hosts (state s) !! m) as [h|] eqn:Hm.
  - destruct (read h) as [r h'] eqn:Hr. cbn [snd state with_state touch_name hosts].
    case_decide as Hd; [subst|by rewrite lookup_insert_ne].
    rewrite lookup_insert_eq, Hm. cbn. by rewrite Hr.
  - cbn [snd]. case_decide as Hd; [subst; by rewrite Hm|done].
Qed.

Lemma read_keeps_tickets {R} m n (read : HostSessions → R * HostSessions) s :
  (∀ h, h_tls13 (read h).2 = h_tls13 h) → tickets_of n (read_host m read s).2 = tickets_of n s.
Proof.
  intros Hread. rewrite tickets_read_host. case_decide as Hd; [|done]. unfold tickets_of.
  destruct (hosts (state s) !! n); [apply Hread|done].
Qed.

Lemma push_ticket_submseteq v (l : list Ticket) : push_ticket v l ⊆+ l ++ [v].
Proof.
  unfold push_ticket. case_decide; [|done]. apply submseteq_skips_r, sublist_submseteq, sublist_drop.
Qed.

Lemma write_tickets m n edit s :
  (∀ h, h_tls13 (edit h) = h_tls13 h) → tickets_of n (write_host m edit s) ⊆+ tickets_of n s.
Proof.
  intros Hedit. destruct (tickets_with_host m n edit s) as [->| ->]; [|apply submseteq_nil_l].
  case_decide; [|done]. rewrite Hedit. unfold tickets_of. by destruct (hosts (state s) !! n).
Qed.

(** One call moves a host's tickets only from what it stores to what it hands out. *)
Lemma step_tickets n op s :
  taken_by n op (step op s).1 ++ tickets_of n (step op s).2 ⊆+ tickets_of n s ++ stored_by n op.
Proof.
  destruct op as [m g|m|m v|m|m|m v|m|m|m| |]; cbn [step stored_by];
    rewrite ?app_nil_r; cbn [taken_by app fst snd].
  - by apply write_tickets.
  - unfold kx_hint. pose proof (read_keeps_tickets m n (λ h, (h_kx_hint h, h)) s (λ _, eq_refl)) as Hr.
    destruct (read_host _ _ _). cbn in *. by rewrite Hr.
  - by apply write_tickets.
  - unfold tls12_session. pose proof (read_keeps_tickets m n (λ h, (h_tls12 h, h)) s (λ _, eq_refl)) as Hr.
    destruct (read_host _ _ _). cbn in *. by rewrite Hr.
  - unfold remove_tls12_session. by rewrite read_keeps_tickets.
  - destruct (tickets_with_host m n (λ h, mk_host (h_kx_hint h) (h_tls12 h) (push_ticket v (h_tls13 h))) s) as [Ht|Ht];
      unfold insert_tls13_ticket; rewrite Ht; [|apply submseteq_nil_l].
    case_decide; [|by rewrite app_nil_r]. etrans; [apply push_ticket_submseteq|]. apply submseteq_app; [|done].
    unfold tickets_of. by destruct (hosts (state s) !! n).
  - unfold take_tls13_ticket, pop_ticket.
    set (read := λ h, (last (h_tls13 h), mk_host (h_kx_hint h) (h_tls12 h) (removelast (h_tls13 h)))).
    pose proof (tickets_read_host m n read s) as Ht. destruct (decide (m = n)) as [<-|Hm].
    + unfold read_host, tickets_of in *. destruct (hosts (state s) !! m) as [h|] eqn:Hh; cbn in *; rewrite Ht.
      * destruct (last (h_tls13 h)) as [v|] eqn:Hl; cbn.
        -- apply last_Some in Hl as [l' ->]. rewrite removelast_last. by rewrite (Permutation_cons_append l' v).
        -- by apply last_None in Hl as ->.
      * done.
    + destruct (read_host m read s) as [r s']. cbn in *. rewrite Ht. by destruct (mjoin r); cbn; rewrite ?decide_False.
  - done.
  - unfold forget_host, tickets_of. destruct (hosts (state s) !! m) as [h|] eqn:Hm; [|done]. cbn.
    destruct (decide (m = n)) as [->|Hd]; [rewrite lookup_delete_eq; apply submseteq_nil_l|by rewrite lookup_delete_ne].
  - change (tickets_of n (clear_sessions s)) with (@nil Ticket). apply submseteq_nil_l.
  - done.
Qed.

(** C24. Tickets are single-use and stay at home: over any sequence of calls of a store,
    what is handed out for a server name, ticket by ticket and counting repetitions, with
    what the store then still holds for it, was stored for that same name. *)
Theorem tickets_are_single_use cap ops n :
  let '(answers, s) := run ops (new_sessions cap) in
  taken_for n ops answers ++ tickets_of n s ⊆+ stored_for n ops.
Proof.
  assert (Hrun : ∀ s0, taken_for n ops (run ops s0).1 ++ tickets_of n (run ops s0).2 ⊆+ tickets_of n s0 ++ stored_for n ops).
  { induction ops as [|op ops IH]; intros s0; [cbn; by rewrite app_nil_r|]. cbn [run].
    pose proof (step_tickets n op s0) as Hs. destruct (step op s0) as [a s1]. specialize (IH s1).
    destruct (run ops s1) as [answers s2]. cbn [fst snd] in *. unfold taken_for, stored_for. cbn [zip_with].
    rewrite !bind_cons. fold (taken_for n ops answers) (stored_for n ops). cbn [fst snd].
    rewrite <- (assoc_L (++)). etrans; [apply submseteq_app; [done|exact IH]|].
    rewrite !(assoc_L (++)). by apply submseteq_app. }
  specialize (Hrun (new_sessions cap)). destruct (run ops (new_sessions cap)) as [answers s].
  exact Hrun.
Qed.
End Store.

(** The least recently used name goes, and a hint's reading counts as a use. *)
Example least_recently_used_goes :
  (run (ServerName := Z) (NamedGroup := Z) (Tls12Session := Z) (Ticket := Z)
    [SetKxHint 1 29; SetKxHint 2 23; KxHint 1; InsertTicket 3 7; KxHint 2; KxHint 1; TakeTicket 3; TakeTicket 3; Len]
    (new_sessions 2)).1 =
  [Nothing; Nothing; TheGroup (Some 29); Nothing; TheGroup None; TheGroup (Some 29);
   TheTicket (Some 7); TheTicket None; Count 2].
Proof. reflexivity. Qed.
