(* ===== verification/TlsEngine.v ===== *)
(** [chromulate-tls]'s engine: what a profile's ClientHello becomes in rustls's
    configuration, where trust comes from, and the names connections are made to
    (src/crates/chromulate-tls/src/provider.rs, trust.rs, fidelity.rs, engine.rs and
    server_name.rs).

    The recording backend flattens a ClientHello into the numbers a TLS library takes and
    rebuilds it from them alone (recording.rs); [String::from_utf8_lossy] is an argument
    where it is used.

    rustls is a parameter: the suites and groups its provider lists, with their code
    points; whether it takes a selection of versions; the certificates the bundled and
    the platform's stores hold and which of them it can use.  So are [url::Host] and
    [DnsName].  A session store handed in is a number. *)
From S2P Require Import Prelude RustStr CodePoint ClientHello Fingerprint TlsSessions.
Local Open Scope Z_scope.

(** ** The recording backend *)

Record RecordedClientHello := mk_recorded {
  r_transport : Transport;
  r_record_version : Z;
  r_handshake_version : Z;
  r_supported_versions : list Z;
  r_cipher_suites : list Z;
  r_extensions : list Z;
  r_fixed_extension_order : option (list Z);
  r_supported_groups : list Z;
  r_key_share_groups : list Z;
  r_signature_algorithms : list Z;
  r_alpn : list str;
  r_alps : list str;
  r_certificate_compression : list Z;
  r_psk_key_exchange_modes : list Z;
  r_ec_point_formats : list Z;
  r_grease_cipher_suites : bool;
  r_grease_extensions : bool;
  r_grease_supported_groups : bool;
  r_grease_key_shares : bool;
  r_grease_supported_versions : bool;
}.

(** [RecordedClientHello::of]. *)
Definition recorded_of (s : ClientHelloSpec) : RecordedClientHello :=
  mk_recorded (transport s) (version_as_u16 (record_version s)) (version_as_u16 (handshake_version s))
    (version_as_u16 <$> supported_versions s) (cipher_suites s) (extensions s)
    (match extension_order s with Fixed order => Some order | Shuffled _ => None end)
    (supported_groups s) (key_share_groups s) (signature_algorithms s) (alpn s) (alps s)
    (compression_as_u16 <$> certificate_compression s) (mode_as_u8 <$> psk_key_exchange_modes s)
    (format_as_u8 <$> ec_point_formats s) (g_cipher_suites (grease s)) (g_extensions (grease s))
    (g_supported_groups (grease s)) (g_key_shares (grease s)) (g_supported_versions (grease s)).

(** The closure of [to_spec]; the error carries the version it could not read. *)
Definition known_version (value : Z) : TlsVersion + Z :=
  match version_from_u16 value with Some v => inl v | None => inr value end.

Fixpoint known_versions (values : list Z) : list TlsVersion + Z :=
  match values with
  | [] => inl []
  | value :: values =>
      match known_version value with
      | inr e => inr e
      | inl v => match known_versions values with inr e => inr e | inl vs => inl (v :: vs) end
      end
  end.

Section Rebuilding.
Context (from_utf8_lossy : str → str).

(** [RecordedClientHello::to_spec]. *)
Definition to_spec (r : RecordedClientHello) : ClientHelloSpec + Z :=
  match known_version (r_record_version r) with
  | inr e => inr e
  | inl record =>
  match known_version (r_handshake_version r) with
  | inr e => inr e
  | inl handshake =>
  match known_versions (r_supported_versions r) with
  | inr e => inr e
  | inl versions =>
      inl (mk_hello (r_transport r) record handshake versions (r_cipher_suites r) (set_new (r_extensions r))
        (Shuffled no_pins) (r_supported_groups r) (r_key_share_groups r) (r_signature_algorithms r)
        (from_utf8_lossy <$> r_alpn r) (from_utf8_lossy <$> r_alps r)
        (compression_from_u16 <$> r_certificate_compression r) (mode_from_u8 <$> r_psk_key_exchange_modes r)
        (format_from_u8 <$> r_ec_point_formats r)
        (mk_grease (r_grease_cipher_suites r) (r_grease_extensions r) (r_grease_supported_groups r)
          (r_grease_key_shares r) (r_grease_supported_versions r)))
  end end end.
End Rebuilding.

(** [TargetIdentity::of]. *)
Record TargetIdentity := mk_identity { ti_ja3 : str; ti_ja3_hash : str; ti_ja4 : option str }.
Definition target_identity `{Digests} (s : ClientHelloSpec) : TargetIdentity :=
  mk_identity (ja3 s) (ja3_hash (ja3 s)) (ja4 s).

(** ** What is rebuilt *)

(** A value of an open enumeration that has a name of its own, by that name. *)
Definition named_compression (c : CertificateCompression) : CertificateCompression := compression_from_u16 (compression_as_u16 c).
Definition named_mode (m : PskKeyExchangeMode) : PskKeyExchangeMode := mode_from_u8 (mode_as_u8 m).
Definition named_format (f : EcPointFormat) : EcPointFormat := format_from_u8 (format_as_u8 f).

(** The specification a recording stands for: in no order of its own. *)
Definition rebuilt (s : ClientHelloSpec) : ClientHelloSpec :=
  mk_hello (transport s) (record_version s) (handshake_version s) (supported_versions s) (cipher_suites s) (extensions s)
    (Shuffled no_pins) (supported_groups s) (key_share_groups s) (signature_algorithms s) (alpn s) (alps s)
    (named_compression <$> certificate_compression s) (named_mode <$> psk_key_exchange_modes s)
    (named_format <$> ec_point_formats s) (grease s).

Lemma named_compression_code c : compression_as_u16 (named_compression c) = compression_as_u16 c.
Proof.
  destruct c as [| | |v]; try done. unfold named_compression, compression_from_u16. cbn.
  repeat (case_match; [by rewrite <- (proj1 (Z.eqb_eq v _)) by eassumption|]). done.
Qed.

Lemma named_mode_code m : mode_as_u8 (named_mode m) = mode_as_u8 m.
Proof.
  destruct m as [| |v]; try done. unfold named_mode, mode_from_u8. cbn.
  repeat (case_match; [by rewrite <- (proj1 (Z.eqb_eq v _)) by eassumption|]). done.
Qed.

Lemma named_format_code f : format_as_u8 (named_format f) = format_as_u8 f.
Proof.
  destruct f as [| | |v]; try done. unfold named_format, format_from_u8. cbn.
  repeat (case_match; [by rewrite <- (proj1 (Z.eqb_eq v _)) by eassumption|]). done.
Qed.

Lemma known_versions_of vs : known_versions (version_as_u16 <$> vs) = inl vs.
Proof. induction vs as [|v vs IH]; [done|]. cbn. unfold known_version. by rewrite version_roundtrip, IH. Qed.

#[local] Instance lt_antisymm : AntiSymm (=) Z.lt.
Proof. intros x y Hx Hy. lia. Qed.

Lemma set_new_id ids : set_ok ids → set_new ids = ids.
Proof.
  intros Hok. destruct (set_new_spec ids) as [Hnew Hin].
  apply (StronglySorted_unique Z.lt); [apply Hnew|apply Hok|].
  apply NoDup_Permutation; [apply ascending_NoDup, Hnew|apply ascending_NoDup, Hok|].
  intros x. rewrite Hin. split; [by intros [? _]|]. intros Hx. split; [done|].
  destruct Hok as [_ Hg]. by eapply Forall_forall in Hg.
Qed.

Lemma fmap_named {A B} (f : A → A) (g : A → B) (l : list A) : (∀ x, g (f x) = g x) → g <$> (f <$> l) = g <$> l.
Proof. intros Hfg. rewrite <- list_fmap_compose. apply list_fmap_ext. intros i x _. apply Hfg. Qed.

Lemma rebuilt_code s : recorded_of (rebuilt s) = recorded_of (set_extensions (extensions s) (Shuffled no_pins) s).
Proof.
  unfold recorded_of, rebuilt. cbn.
  by rewrite (fmap_named _ _ _ named_compression_code), (fmap_named _ _ _ named_mode_code), (fmap_named _ _ _ named_format_code).
Qed.

Lemma rebuilt_ja4 `{Digests} s : same_ja4 (rebuilt s) s.
Proof. by split. Qed.

Lemma rebuilt_ja3 s : extension_order s = Shuffled no_pins → ja3 (rebuilt s) = ja3 s.
Proof.
  intros Ho. unfold ja3, reference_extension_order. rewrite Ho. unfold ja3_with_extension_order. cbn [rebuilt ec_point_formats].
  by rewrite (fmap_named _ _ _ named_format_code).
Qed.

(** C26. A profile survives being flattened: from the numbers alone a specification is
    rebuilt, the one recorded but for the order of its extensions, which is left to the
    shuffle, and with every value under the name its number has; it flattens to the same
    numbers and has the same JA4, and the same JA3 where the profile leaves the order to
    the shuffle without pins. *)
Theorem recording_roundtrip `{Digests} lossy s :
  (∀ t, is_utf8 t = true → lossy t = t) →
  set_ok (extensions s) → Forall (λ t, is_utf8 t = true) (alpn s ++ alps s) →
  to_spec lossy (recorded_of s) = inl (rebuilt s) ∧
  recorded_of (rebuilt s) = recorded_of (set_extensions (extensions s) (Shuffled no_pins) s) ∧
  ja4 (rebuilt s) = ja4 s ∧ ja4_raw (rebuilt s) = ja4_raw s ∧
  (extension_order s = Shuffled no_pins → target_identity (rebuilt s) = target_identity s).
Proof.
  intros Hlossy Hset [Halpn Halps]%Forall_app.
  assert (Hid : ∀ l, Forall (λ t, is_utf8 t = true) l → lossy <$> l = l).
  { induction 1 as [|t l Ht Hl IH]; [done|]. by rewrite fmap_cons, IH, Hlossy. }
  pose proof (same_ja4_parts _ _ (rebuilt_ja4 s)) as Hparts.
  assert (H4 : ja4 (rebuilt s) = ja4 s) by (unfold ja4; by rewrite Hparts).
  split; [|split_and!; [apply rebuilt_code|done|unfold ja4_raw; by rewrite Hparts|]].
  - unfold to_spec. change (r_extensions (recorded_of s)) with (extensions s). rewrite set_new_id by done.
    unfold recorded_of. cbn. unfold known_version. rewrite !version_roundtrip, known_versions_of, !Hid by done.
    unfold rebuilt, named_compression, named_mode, named_format. rewrite <- !list_fmap_compose. by destruct (grease s).
  - intros Ho. unfold target_identity. by rewrite rebuilt_ja3, H4.
Qed.

(** ** The sample connection *)

Section Concrete.
Local Existing Instance sample_digests.

Lemma recording_roundtrip_witness :
  ja4 (rebuilt connection_a) = ja4 connection_a ∧ to_spec id (recorded_of connection_a) = inl (rebuilt connection_a).
Proof.
  destruct (recording_roundtrip id connection_a (λ _ _, eq_refl) (ok_set _ sample_shuffled_ok)
    ltac:(repeat constructor)) as (Hspec & _ & H4 & _).
  split; [exact H4|exact Hspec].
Defined.
End Concrete.

(** ** ALPN and names *)

Inductive Alpn := AlpnHttp2 | AlpnHttp11 | AlpnOther (name : str).

Definition alpn_from_wire (from_utf8_lossy : str → str) (value : str) : Alpn :=
  if decide (value = b#"h2") then AlpnHttp2
  else if decide (value = b#"http/1.1") then AlpnHttp11
  else AlpnOther (from_utf8_lossy value).

Definition alpn_name (a : Alpn) : str :=
  match a with AlpnHttp2 => b#"h2" | AlpnHttp11 => b#"http/1.1" | AlpnOther other => other end.

Inductive UrlHost := HostDomain (domain : str) | HostIpv4 (address : Z) | HostIpv6 (address : Z).
Inductive ServerName := DnsName (name : str) | IpAddress (address : UrlHost).
Inductive NameError := NoHost | UnusableHost | NotADnsName.

Section Names.
Context (parse_host : str → option UrlHost) (dns_name : str → option str).

Definition server_name (host : str) : ServerName + NameError :=
  let trimmed := default host (strip_suffix b#"." host) in
  if decide (trimmed = []) then inr NoHost
  else match parse_host trimmed with
       | None => inr UnusableHost
       | Some (HostDomain domain) =>
           match dns_name domain with Some name => inl (DnsName name) | None => inr NotADnsName end
       | Some address => inl (IpAddress address)
       end.
End Names.

Definition sends_sni (n : ServerName) : bool := match n with DnsName _ => true | IpAddress _ => false end.

(** ** The provider *)

Inductive ConfigError :=
  | NoCipherSuite
  | NoNamedGroup
  | NoVersion
  | VersionsRejected
  | UnverifiedNotCompiledIn
  | PlatformNotCompiledIn
  | NoPlatformRoot
  | UnusableRoot
  | NoRoot.

(** A profile's versions, highest first, each once. *)
Definition ordered_versions (s : ClientHelloSpec) : list TlsVersion :=
  let versions := if decide (supported_versions s = []) then [handshake_version s] else supported_versions s in
  dedup (sort_by (λ a b, version_as_u16 b <=? version_as_u16 a) versions).

(** The versions rustls has a constant for. *)
Definition rustls_version (v : TlsVersion) : option TlsVersion :=
  match v with Tls13 => Some Tls13 | Tls12 => Some Tls12 | _ => None end.

Section Selecting.
Context {Entry : Type} (id_of : Entry → Z).

(** The loops of [for_spec]: what the provider has of the wanted, in the wanted order,
    the wanted it has, and the wanted it has not. *)
Fixpoint select_from (available : list Entry) (wanted : list Z) : list Entry * list Z * list Z :=
  match wanted with
  | [] => ([], [], [])
  | id :: wanted =>
      let '(chosen, offered, dropped) := select_from available wanted in
      match find (λ e, id_of e =? id) available with
      | Some e => (e :: chosen, id :: offered, dropped)
      | None => (chosen, offered, id :: dropped)
      end
  end.
End Selecting.

Fixpoint select_versions (wanted : list TlsVersion) : list TlsVersion * list TlsVersion :=
  match wanted with
  | [] => ([], [])
  | v :: wanted =>
      let '(versions, dropped) := select_versions wanted in
      match rustls_version v with Some p => (p :: versions, dropped) | None => (versions, v :: dropped) end
  end.

Class Rustls := {
  Suite : Type;
  suite_id : Suite → Z;
  Group : Type;
  group_id : Group → Z;
  provider_suites : list Suite;
  provider_groups : list Group;
  takes_versions : list TlsVersion → bool;
  Certificate : Type;
  webpki_roots : list Certificate;
  native_certs : list Certificate;
  parsable : Certificate → bool;
}.

(** The cargo features of a build. *)
Record TlsFeatures := mk_tls_features { platform_roots_feature : bool; dangerous_configuration : bool }.

Inductive RootSource := WebPki | Platform | NoRoots.
Inductive TrustPolicy := Verified (roots : Z) | DangerouslyUnverified.

Section Engine.
Context `{Rustls}.

Record SelectedProvider := mk_selected {
  sp_suites : list Suite;
  sp_groups : list Group;
  sp_versions : list TlsVersion;
  sp_offered_cipher_suites : list Z;
  sp_dropped_cipher_suites : list Z;
  sp_offered_groups : list Z;
  sp_dropped_groups : list Z;
  sp_dropped_versions : list TlsVersion;
}.

(** [SelectedProvider::for_spec]. *)
Definition for_spec (s : ClientHelloSpec) : SelectedProvider + ConfigError :=
  let '(suites, offered_suites, dropped_suites) := select_from suite_id provider_suites (ciphers_without_grease s) in
  let '(groups, offered_groups, dropped_groups) := select_from group_id provider_groups (groups_without_grease s) in
  let '(versions, dropped_versions) := select_versions (ordered_versions s) in
  match suites, groups, versions with
  | [], _, _ => inr NoCipherSuite
  | _, [], _ => inr NoNamedGroup
  | _, _, [] => inr NoVersion
  | _, _, _ =>
      inl (mk_selected suites groups versions offered_suites dropped_suites offered_groups dropped_groups dropped_versions)
  end.

(** ** Trust *)

Definition platform_roots (f : TlsFeatures) (store : list Certificate) : list Certificate + ConfigError :=
  if platform_roots_feature f then
    let added := filter (λ c, parsable c = true) native_certs in
    if decide (added = []) then inr NoPlatformRoot else inl (store ++ added)
  else inr PlatformNotCompiledIn.

Fixpoint add_roots (extra store : list Certificate) : list Certificate + ConfigError :=
  match extra with
  | [] => inl store
  | certificate :: extra => if parsable certificate then add_roots extra (store ++ [certificate]) else inr UnusableRoot
  end.

(** [root_store]. *)
Definition root_store (f : TlsFeatures) (source : RootSource) (extra : list Certificate) : list Certificate + ConfigError :=
  match (match source with
         | WebPki => inl webpki_roots
         | Platform => platform_roots f []
         | NoRoots => inl []
         end) with
  | inr e => inr e
  | inl store =>
      match add_roots extra store with
      | inr e => inr e
      | inl store => if decide (store = []) then inr NoRoot else inl store
      end
  end.

(** ** The engine *)

Inductive SharedSessions := Existing (id : nat) | Fresh (capacity : Z).

Record TlsEngineBuilder := mk_builder {
  b_spec : ClientHelloSpec;
  b_alpn : option (list str);
  b_roots : RootSource;
  b_extra_roots : list Certificate;
  b_sessions : option nat;
  b_session_capacity : Z;
  b_accept_invalid_certs : bool;
}.

(** [TlsEngineBuilder::new]. *)
Definition new_builder (s : ClientHelloSpec) : TlsEngineBuilder := mk_builder s None WebPki [] None DEFAULT_CAPACITY false.

Record Fidelity := mk_fidelity {
  fi_offered_cipher_suites : list Z;
  fi_dropped_cipher_suites : list Z;
  fi_offered_groups : list Z;
  fi_dropped_groups : list Z;
  fi_dropped_versions : list TlsVersion;
  fi_alpn : list str;
  fi_target : TargetIdentity;
}.

Definition all_primitives_available (fi : Fidelity) : bool :=
  bool_decide (fi_dropped_cipher_suites fi = []) && bool_decide (fi_dropped_groups fi = [])
  && bool_decide (fi_dropped_versions fi = []).

(** [EngineInner]; the verifier is the roots, or none when every certificate is
    accepted. *)
Record TlsEngine := mk_engine {
  e_suites : list Suite;
  e_groups : list Group;
  e_versions : list TlsVersion;
  e_verifier : option (list Certificate);
  e_alpn_protocols : list str;
  e_target : ClientHelloSpec;
  e_fidelity : Fidelity;
  e_trust : TrustPolicy;
  e_sessions : SharedSessions;
}.

(** [TlsEngineBuilder::build]. *)
Definition build_engine `{Digests} (f : TlsFeatures) (b : TlsEngineBuilder) : TlsEngine + ConfigError :=
  match for_spec (b_spec b) with
  | inr e => inr e
  | inl selected =>
      let alpn := default (alpn (b_spec b)) (b_alpn b) in
      if negb (takes_versions (sp_versions selected)) then inr VersionsRejected
      else
        match (if b_accept_invalid_certs b then
                 if dangerous_configuration f then inl (None, DangerouslyUnverified) else inr UnverifiedNotCompiledIn
               else
                 match root_store f (b_roots b) (b_extra_roots b) with
                 | inr e => inr e
                 | inl roots => inl (Some roots, Verified (zlen roots))
                 end) with
        | inr e => inr e
        | inl (verifier, trust) =>
            inl (mk_engine (sp_suites selected) (sp_groups selected) (sp_versions selected) verifier alpn (b_spec b)
              (mk_fidelity (sp_offered_cipher_suites selected) (sp_dropped_cipher_suites selected)
                (sp_offered_groups selected) (sp_dropped_groups selected) (sp_dropped_versions selected) alpn
                (target_identity (b_spec b)))
              trust (match b_sessions b with Some id => Existing id | None => Fresh (b_session_capacity b) end))
        end
  end.
End Engine.

(** ** What is selected *)

Section Selected.
Context {Entry : Type} (id_of : Entry → Z).

Definition has (available : list Entry) (id : Z) : bool := existsb (λ e, id_of e =? id) available.

Lemma find_has available id :
  match find (λ e, id_of e =? id) available with
  | Some e => has available id = true ∧ e ∈ available ∧ id_of e = id
  | None => has available id = false
  end.
Proof.
  induction available as [|a available IH]; [done|]. cbn. destruct (Z.eqb_spec (id_of a) id) as [Ha|Ha].
  - split; [done|]. split; [by left|done].
  - cbn. destruct (find _ available) as [e|]; [|done]. destruct IH as (? & ? & ?). split_and!; [done|by right|done].
Qed.

Lemma select_from_spec available wanted :
  let '(chosen, offered, dropped) := select_from id_of available wanted in
  id_of <$> chosen = offered ∧ Forall (λ e, e ∈ available) chosen ∧
  offered = filter (λ id, has available id = true) wanted ∧ dropped = filter (λ id, has available id = false) wanted.
Proof.
  induction wanted as [|id wanted IH]; [by split_and!|]. cbn [select_from]. destruct (select_from id_of available wanted) as [[chosen offered] dropped].
  destruct IH as (Hc & Hf & Ho & Hd). pose proof (find_has available id) as Hfind. rewrite !filter_cons.
  destruct (find _ available) as [e|].
  - destruct Hfind as (Hh & Hin & <-). rewrite decide_True, decide_False by congruence.
    split_and!; [by rewrite fmap_cons, Hc|by constructor|by rewrite Ho|done].
  - rewrite decide_False, decide_True by congruence. by rewrite Hd.
Qed.
End Selected.

Definition modern (v : TlsVersion) : Prop := v = Tls12 ∨ v = Tls13.
#[export] Instance modern_dec v : Decision (modern v).
Proof. unfold modern. apply _. Defined.

Lemma select_versions_spec wanted :
  select_versions wanted = (filter modern wanted, filter (λ v, ¬ modern v) wanted).
Proof.
  induction wanted as [|v wanted IH]; [done|]. cbn [select_versions]. rewrite IH, !filter_cons.
  destruct v; cbn [rustls_version]; repeat (rewrite decide_True by (unfold modern; naive_solver) || rewrite decide_False by (unfold modern; naive_solver)); done.
Qed.

Definition version_gt (a b : TlsVersion) : Prop := version_as_u16 b < version_as_u16 a.

Lemma ordered_versions_spec s :
  StronglySorted version_gt (ordered_versions s) ∧
  ∀ v, v ∈ ordered_versions s ↔
    if decide (supported_versions s = []) then v = handshake_version s else v ∈ supported_versions s.
Proof.
  unfold ordered_versions. set (vs := if decide _ then _ else _). set (le := λ a b, version_as_u16 b <=? version_as_u16 a).
  assert (Hanti : ∀ a b, le a b = true → le b a = true → a = b) by (intros [] []; done).
  assert (Hord : StronglySorted (λ a b, le a b = true) (sort_by le vs)).
  { apply sort_by_ordered; [intros [] []; auto|intros [] [] []; done]. }
  split.
  - apply (dedup_ascends le) in Hord; [|done]. eapply StronglySorted_impl; [|exact Hord]. cbn.
    intros a b [Hab Hne]. unfold version_gt, le in *. apply Z.leb_le in Hab.
    assert (version_as_u16 a ≠ version_as_u16 b) by (by destruct a, b). lia.
  - intros v. rewrite elem_of_dedup, (sort_by_perm le vs). unfold vs. case_decide; [by rewrite list_elem_of_singleton|done].
Qed.

Section Whole.
Context `{Rustls}.

(** The first of the three things that a profile and rustls have none of in common. *)
Definition nothing_common (s : ClientHelloSpec) : option ConfigError :=
  if decide (filter (λ id, has suite_id provider_suites id = true) (ciphers_without_grease s) = []) then Some NoCipherSuite
  else if decide (filter (λ id, has group_id provider_groups id = true) (groups_without_grease s) = []) then Some NoNamedGroup
  else if decide (filter modern (ordered_versions s) = []) then Some NoVersion
  else None.

(** What rustls is configured with is what the profile names, in the profile's
    order, less what rustls has not: the suites and groups have the code points that are
    reported as offered, those are the profile's without GREASE that the provider lists,
    and every other one is reported as dropped; the versions are TLS 1.2 and 1.3 as far
    as the profile names them, highest first, each once.  There is an error exactly when
    one of the three has nothing in common, for the first that has. *)
Theorem selection_exact s :
  match for_spec s with
  | inl sp =>
      nothing_common s = None ∧
      suite_id <$> sp_suites sp = sp_offered_cipher_suites sp ∧ Forall (λ e, e ∈ provider_suites) (sp_suites sp) ∧
      sp_offered_cipher_suites sp = filter (λ id, has suite_id provider_suites id = true) (ciphers_without_grease s) ∧
      sp_dropped_cipher_suites sp = filter (λ id, has suite_id provider_suites id = false) (ciphers_without_grease s) ∧
      group_id <$> sp_groups sp = sp_offered_groups sp ∧ Forall (λ e, e ∈ provider_groups) (sp_groups sp) ∧
      sp_offered_groups sp = filter (λ id, has group_id provider_groups id = true) (groups_without_grease s) ∧
      sp_dropped_groups sp = filter (λ id, has group_id provider_groups id = false) (groups_without_grease s) ∧
      sp_versions sp = filter modern (ordered_versions s) ∧
      sp_dropped_versions sp = filter (λ v, ¬ modern v) (ordered_versions s)
  | inr e => nothing_common s = Some e
  end ∧
  StronglySorted version_gt (ordered_versions s) ∧
  ∀ v, v ∈ ordered_versions s ↔
    if decide (supported_versions s = []) then v = handshake_version s else v ∈ supported_versions s.
Proof.
  split; [|apply ordered_versions_spec]. unfold for_spec, nothing_common. rewrite select_versions_spec.
  pose proof (select_from_spec suite_id provider_suites (ciphers_without_grease s)) as Hs.
  pose proof (select_from_spec group_id provider_groups (groups_without_grease s)) as Hg.
  destruct (select_from suite_id _ _) as [[suites o] d], (select_from group_id _ _) as [[groups o'] d'].
  destruct Hs as (Hs1 & Hs2 & Hs3 & Hs4), Hg as (Hg1 & Hg2 & Hg3 & Hg4).
  rewrite <- Hs3, <- Hg3. destruct suites as [|e suites].
  { rewrite decide_True; [done|by rewrite <- Hs1]. }
  rewrite decide_False by (by rewrite <- Hs1). destruct groups as [|e' groups].
  { rewrite decide_True; [done|by rewrite <- Hg1]. }
  rewrite decide_False by (by rewrite <- Hg1).
  destruct (filter modern (ordered_versions s)) as [|v versions]; [done|].
  rewrite decide_False by done. cbn. by split_and!.
Qed.

(** ** Trust *)

(** The certificates a source stands for. *)
Definition source_roots (source : RootSource) : list Certificate :=
  match source with
  | WebPki => webpki_roots
  | Platform => filter (λ c, parsable c = true) native_certs
  | NoRoots => []
  end.

Lemma add_roots_spec extra store :
  add_roots extra store = if forallb parsable extra then inl (store ++ extra) else inr UnusableRoot.
Proof.
  revert store; induction extra as [|c extra IH]; intros store; cbn; [by rewrite app_nil_r|].
  destruct (parsable c); [|done]. rewrite IH. by rewrite <- (assoc_L (++)).
Qed.

Lemma root_store_spec f source extra roots :
  root_store f source extra = inl roots ↔
    roots = source_roots source ++ extra ∧ roots ≠ [] ∧ Forall (λ c, parsable c = true) extra ∧
    (source = Platform → platform_roots_feature f = true ∧ source_roots Platform ≠ []).
Proof.
  assert (Hrest : ∀ store, match add_roots extra store with inr e => inr e
    | inl store => if decide (store = []) then inr NoRoot else inl store end = inl roots ↔
    roots = store ++ extra ∧ roots ≠ [] ∧ Forall (λ c, parsable c = true) extra).
  { intros store. rewrite add_roots_spec. pose proof (forallb_Forall parsable extra) as Hf.
    destruct (forallb parsable extra); [|naive_solver]. case_decide; naive_solver. }
  unfold root_store, platform_roots. destruct source; cbn [source_roots].
  - rewrite Hrest. naive_solver.
  - destruct (platform_roots_feature f); [|naive_solver]. cbn zeta. case_decide; [naive_solver|].
    rewrite Hrest. cbn [app]. naive_solver.
  - rewrite Hrest. naive_solver.
Qed.

(** C25. Certificates go unverified only where a caller asked for it in a build compiled
    for it.  Any other engine verifies against the roots its policy counts: exactly those
    of the chosen source and the ones the caller added, every one of these usable, and at
    least one; a platform store that yields none is an error and never falls back to the
    bundled roots. *)
Theorem trust_is_earned `{Digests} f b e :
  build_engine f b = inl e →
  match e_trust e with
  | DangerouslyUnverified =>
      e_verifier e = None ∧ b_accept_invalid_certs b = true ∧ dangerous_configuration f = true
  | Verified n =>
      b_accept_invalid_certs b = false ∧
      ∃ roots, e_verifier e = Some roots ∧ n = zlen roots ∧ 0 < n ∧ roots = source_roots (b_roots b) ++ b_extra_roots b ∧
        Forall (λ c, parsable c = true) (b_extra_roots b) ∧
        (b_roots b = Platform → platform_roots_feature f = true ∧ source_roots Platform ≠ [])
  end.
Proof.
  unfold build_engine. destruct (for_spec (b_spec b)) as [sp|]; [|done]. destruct (negb _); [done|].
  destruct (b_accept_invalid_certs b).
  - destruct (dangerous_configuration f); [|done]. by intros [= <-].
  - destruct (root_store f (b_roots b) (b_extra_roots b)) as [roots|] eqn:Hr; [|done]. intros [= <-]. cbn.
    apply root_store_spec in Hr as (Hroots & Hne & Hextra & Hplatform). split; [done|]. exists roots.
    split_and!; try done. destruct roots; [done|]. rewrite zlen_cons. pose proof (zlen_nonneg roots). lia.
Qed.
End Whole.

Lemma alpn_reads_back lossy v : lossy v = v → alpn_name (alpn_from_wire lossy v) = v.
Proof. intros Hv. unfold alpn_from_wire. repeat case_decide; by subst. Qed.

(** ** A provider to look at *)

Section Sample.
Local Existing Instance sample_digests.

#[local] Instance small_rustls : Rustls := {|
  Suite := Z;
  suite_id := id;
  Group := Z;
  group_id := id;
  provider_suites := [0x1302; 0x1301; 0xc02b];
  provider_groups := [29; 23];
  takes_versions := λ _, true;
  Certificate := bool;
  webpki_roots := [true; true];
  native_certs := [false; true];
  parsable := id;
|}.

Definition small_hello : ClientHelloSpec :=
  mk_hello Tcp Tls10 Tls12 [Tls12; Tls13; Tls11; Tls13] [0x0a0a; 0x1301; 0x1303; 0xc02b] [] (Shuffled no_pins)
    [0x4588; 29; 23] [29] [] [b#"h2"] [] [] [] [] GREASE_NONE.

Example small_selection :
  match for_spec small_hello with
  | inl sp => (sp_suites sp, sp_dropped_cipher_suites sp, sp_groups sp, sp_dropped_groups sp, sp_versions sp) =
      ([0x1301; 0xc02b], [0x1303], [29; 23], [0x4588], [Tls13; Tls12])
  | inr _ => False
  end.
Proof. reflexivity. Qed.

Definition stock : TlsFeatures := mk_tls_features true false.

Lemma trust_is_earned_witness :
  ∃ e n, build_engine stock (new_builder small_hello) = inl e ∧ e_trust e = Verified n ∧ 0 < n.
Proof.
  destruct (build_engine stock (new_builder small_hello)) as [e|] eqn:Hb; [|discriminate Hb].
  assert (Ht : e_trust e = Verified 2) by (injection Hb as <-; reflexivity).
  pose proof (trust_is_earned stock (new_builder small_hello) e Hb) as H. rewrite Ht in H.
  destruct H as (_ & roots & _ & _ & Hn & _). exists e, 2. exact (conj eq_refl (conj Ht Hn)).
Defined.
End Sample.
