(* ===== verification/Origin.v ===== *)
(** [chromulate-core]: the tuple origin of a URL (src/crates/chromulate-core/src/uri.rs)
    and the site relationship a cookie store decides with
    (src/crates/chromulate-core/src/request.rs). *)
From S2P Require Import Prelude RustStr Extern.

Record Origin := mk_origin { o_scheme : str; o_host : str; o_port : Z }.

#[export] Instance Origin_eq_dec : EqDecision Origin.
Proof. solve_decision. Defined.

#[export] Instance Origin_countable : Countable Origin.
Proof.
  refine (inj_countable' (λ o, (o_scheme o, o_host o, o_port o)) (λ x, mk_origin x.1.1 x.1.2 x.2) _). by intros [].
Defined.

Inductive OriginError := NoHost | NoDefaultPort.

Section With_url.
Context `{UrlApi}.

(** [Origin::of]. *)
Definition origin_of (url : Url) : Origin + OriginError :=
  match host_str url with
  | None => inr NoHost
  | Some host =>
      match port_or_known_default url with
      | None => inr NoDefaultPort
      | Some port =>
          inl {| o_scheme := to_ascii_lowercase (scheme url);
                 o_host := to_ascii_lowercase host;
                 o_port := port |}
      end
  end.
End With_url.

(** [Origin::is_secure]. *)
Definition is_secure (o : Origin) : bool :=
  bool_decide (o_scheme o = b#"https") || bool_decide (o_scheme o = b#"wss").

(** [CookieContext]. *)
Record CookieContext := mk_cookie_context {
  initiator : option Origin;
  is_top_level_navigation : bool;
}.

(** [CookieContext::conservative_default]. *)
Definition conservative_default : CookieContext :=
  {| initiator := None; is_top_level_navigation := true |}.
