(* ===== verification/Pool.v ===== *)
(** [chromulate-http]: the connection pool and the key that decides what may be
    reused (src/crates/chromulate-http/src/pool.rs).

    A connection's sender belongs to hyper: a number names the connection it speaks
    to, a clone of an HTTP/2 sender names the same one, and [is_closed] is what the
    sender answers while the operation holds the lock.  [Instant::now] is an argument
    for every place that reads it.  A panic is [None]. *)
From S2P Require Import Prelude RustStr RustTime Extern.
Local Open Scope Z_scope.

Inductive Protocol := Http11 | Http2.

#[export] Instance Protocol_eq_dec : EqDecision Protocol.
Proof. solve_decision. Defined.
#[export] Instance Protocol_countable : Countable Protocol.
Proof.
  refine (inj_countable' (λ p, match p with Http11 => true | Http2 => false end)
    (λ b : bool, if b then Http11 else Http2) _). by intros [].
Defined.

Definition alpn_as_str (p : Protocol) : str :=
  match p with Http11 => b#"http/1.1" | Http2 => b#"h2" end.

Definition protocol_version (p : Protocol) : Version :=
  match p with Http11 => HTTP_11 | Http2 => HTTP_2 end.

(** Equality is the code's: the cached hash first, then the text. *)
Record ConnectionIdentity := mk_identity { id_text : str; content_hash : Z }.

#[export] Instance ConnectionIdentity_eq_dec : EqDecision ConnectionIdentity.
Proof. solve_decision. Defined.
#[export] Instance ConnectionIdentity_countable : Countable ConnectionIdentity.
Proof.
  refine (inj_countable' (λ i, (id_text i, content_hash i)) (λ x, mk_identity x.1 x.2) _). by intros [].
Defined.

(** [ConnectionIdentity::of], with the default hasher as a parameter. *)
Definition identity_of (hash : str → Z) (ja4 akamai_http2 user_agent : str) : ConnectionIdentity :=
  let text := ja4 ++ b#"|" ++ akamai_http2 ++ b#"|" ++ user_agent in
  mk_identity text (hash text).

Record PoolKey := mk_pool_key {
  k_scheme : str;
  k_host : str;
  k_port : Z;
  k_proxy : option str;
  k_identity : ConnectionIdentity;
  k_protocol : Protocol;
}.

#[export] Instance PoolKey_eq_dec : EqDecision PoolKey.
Proof. solve_decision. Defined.
#[export] Instance PoolKey_countable : Countable PoolKey.
Proof.
  refine (inj_countable'
    (λ k, (k_scheme k, k_host k, k_port k, k_proxy k, k_identity k, k_protocol k))
    (λ x, let '(s, h, p, x, i, r) := x in mk_pool_key s h p x i r) _). by intros [].
Defined.

Inductive Connection := Http1Conn (sender : nat) | Http2Conn (sender : nat).

#[export] Instance Connection_eq_dec : EqDecision Connection.
Proof. solve_decision. Defined.

Definition sender (c : Connection) : nat := match c with Http1Conn s => s | Http2Conn s => s end.

Definition protocol_of (c : Connection) : Protocol :=
  match c with Http1Conn _ => Http11 | Http2Conn _ => Http2 end.

Record PoolConfig := mk_pool_config { idle_timeout : Duration; max_per_host : Z; max_total : Z }.

Definition default_pool_config : PoolConfig := mk_pool_config (from_secs 90) 6 100.

(** [Instant]s are counted like [SystemTime]; [duration_since] saturates at zero. *)
Record Idle := mk_idle { idle_connection : Connection; since : SystemTime }.

Record PoolState := mk_pool {
  idle : gmap PoolKey (list Idle);
  multiplexed : gmap PoolKey Connection;
  idle_held : Z;
  last_sweep : SystemTime;
}.

Definition new_pool (now : SystemTime) : PoolState := mk_pool ∅ ∅ 0 now.

Definition held (s : PoolState) : Z := idle_held s + Z.of_nat (size (multiplexed s)).

(** [idle_held -= 1] on a [usize]. *)
Definition less_one (n : Z) : option Z := if n =? 0 then None else Some (n - 1).

Section Pool.
Context (closed : nat → bool).

Definition is_usable (c : Connection) : bool := negb (closed (sender c)).

(** The test both [checkout] and the sweep make of an idle entry. *)
Definition keeps (timeout : Duration) (now : SystemTime) (e : Idle) : bool :=
  (since_or_zero now (since e) <? timeout) && is_usable (idle_connection e).

(** The loop of [checkout], popping from the end of the bucket. *)
Fixpoint pop_usable (timeout : Duration) (now : SystemTime) (held : Z) (newest_first : list Idle)
    : option (option Connection * list Idle * Z) :=
  match newest_first with
  | [] => Some (None, [], held)
  | e :: rest =>
      held ← less_one held;
      if keeps timeout now e then Some (Some (idle_connection e), rest, held)
      else pop_usable timeout now held rest
  end.

Definition checkout (config : PoolConfig) (key : PoolKey) (now : SystemTime) (s : PoolState)
    : option (option Connection * PoolState) :=
  let probe :=
    match multiplexed s !! key with
    | Some c =>
        if is_usable c then
          match c with Http2Conn sender => inl (Http2Conn sender) | Http1Conn _ => inr (multiplexed s) end
        else inr (delete key (multiplexed s))
    | None => inr (multiplexed s)
    end in
  match probe with
  | inl shared => Some (Some shared, s)
  | inr multiplexed =>
      match idle s !! key with
      | None => Some (None, mk_pool (idle s) multiplexed (idle_held s) (last_sweep s))
      | Some entries =>
          '(found, rest, held) ← pop_usable (idle_timeout config) now (idle_held s) (reverse entries);
          let idle :=
            match found with
            | Some _ => <[key := reverse rest]> (idle s)
            | None => delete key (idle s)
            end in
          Some (found, mk_pool idle multiplexed held (last_sweep s))
      end
  end.

Definition evict_expired (timeout : Duration) (now : SystemTime) (s : PoolState) : PoolState :=
  let idle := omap (λ entries,
    let kept := filter (λ e, keeps timeout now e = true) entries in
    if decide (kept = []) then None else Some kept) (idle s) in
  mk_pool idle (filter (λ kv, is_usable kv.2 = true) (multiplexed s)) (map_zsum zlen idle) (last_sweep s).

Definition sweep_if_due (config : PoolConfig) (now now' : SystemTime) (s : PoolState) : PoolState :=
  if since_or_zero now (last_sweep s) <? idle_timeout config / 4 then s
  else evict_expired (idle_timeout config) now' (mk_pool (idle s) (multiplexed s) (idle_held s) now).

(** The oldest entry of one bucket, as [min_by_key] over its enumeration. *)
Definition oldest_in (key : PoolKey) (entries : list Idle) : option (PoolKey * nat * SystemTime) :=
  (λ x, (key, x.1, since x.2)) <$> min_by_key (λ x, since x.2) (imap pair entries).

Definition oldest (s : PoolState) : option (PoolKey * nat * SystemTime) :=
  min_by_key snd (omap (λ kv, oldest_in kv.1 kv.2) (map_to_list (idle s))).

Definition evict_oldest (s : PoolState) : option PoolState :=
  match oldest s with
  | None => Some s
  | Some (key, index, _) =>
      match idle s !! key with
      | None => Some s
      | Some entries =>
          held ← less_one (idle_held s);
          let entries := delete index entries in
          Some (mk_pool (if decide (entries = []) then delete key (idle s) else <[key := entries]> (idle s))
                  (multiplexed s) held (last_sweep s))
      end
  end.

Definition release_multiplexed (config : PoolConfig) (key : PoolKey) (c : Connection) (s : PoolState) : PoolState :=
  let put := mk_pool (idle s) (<[key := c]> (multiplexed s)) (idle_held s) (last_sweep s) in
  match multiplexed s !! key with
  | Some existing => if is_usable existing then s else put
  | None => if max_total config <=? Z.of_nat (size (multiplexed s)) then s else put
  end.

(** The end of [release]: [Vec::remove(0)] panics on an empty vector. *)
Definition push_idle (config : PoolConfig) (key : PoolKey) (c : Connection) (now : SystemTime) (s : PoolState)
    : option PoolState :=
  let entries := default [] (idle s !! key) in
  '(entries, held) ←
    (if max_per_host config <=? zlen entries then
       match entries with
       | [] => None
       | _ :: rest => held ← less_one (idle_held s); Some (rest, held)
       end
     else Some (entries, idle_held s));
  Some (mk_pool (<[key := entries ++ [mk_idle c now]]> (idle s)) (multiplexed s) (held + 1) (last_sweep s)).

(** [release] reads the clock for the sweep's period, for the sweep and for the
    entry it pushes. *)
Definition release (config : PoolConfig) (key : PoolKey) (c : Connection) (now now' now'' : SystemTime)
    (s : PoolState) : option PoolState :=
  if negb (is_usable c) then Some s
  else
    let s := sweep_if_due config now now' s in
    match c with
    | Http2Conn _ => Some (release_multiplexed config key c s)
    | Http1Conn _ =>
        s ← (if max_total config <=? idle_held s then evict_oldest s else Some s);
        push_idle config key c now'' s
    end.

Definition clear (s : PoolState) : PoolState := mk_pool ∅ ∅ 0 (last_sweep s).

End Pool.

(** ** What the pool holds *)

(** The idle connections of a key, oldest first. *)
Definition waiting (s : PoolState) (key : PoolKey) : list Idle := default [] (idle s !! key).

(** The counter is exact, both caps hold, and a connection is kept with the
    population its protocol belongs to. *)
Record pool_ok (config : PoolConfig) (s : PoolState) : Prop := {
  pk_held : idle_held s = map_zsum zlen (idle s);
  pk_host key : zlen (waiting s key) <= max_per_host config;
  pk_total : idle_held s <= Z.max (max_total config) 1;
  pk_multiplexed : Z.of_nat (size (multiplexed s)) <= max_total config;
  pk_http1 key e : e ∈ waiting s key → protocol_of (idle_connection e) = Http11;
  pk_http2 key c : multiplexed s !! key = Some c → protocol_of c = Http2;
}.

(** Limits a pool can keep to: a cap of no connection per key makes [release]
    panic ([zero_per_host_panics]). *)
Definition config_ok (config : PoolConfig) : Prop := 1 <= max_per_host config ∧ 0 <= max_total config.

Lemma waiting_sum s key : default 0 (zlen <$> idle s !! key) = zlen (waiting s key).
Proof. unfold waiting. by destruct (idle s !! key). Qed.

Lemma waiting_le s key : zlen (waiting s key) <= map_zsum zlen (idle s).
Proof.
  unfold waiting. destruct (idle s !! key) as [es|] eqn:He; simpl.
  - apply (map_zsum_lookup zlen (idle s) key es); [apply zlen_nonneg|done].
  - apply map_zsum_nonneg, zlen_nonneg.
Qed.

Lemma less_one_Some n : 0 < n → less_one n = Some (n - 1).
Proof. intros Hn. unfold less_one. by rewrite (proj2 (Z.eqb_neq n 0)) by lia. Qed.

Lemma waiting_insert m mx h t key es key' :
  waiting (mk_pool (<[key := es]> m) mx h t) key' = if decide (key' = key) then es else default [] (m !! key').
Proof.
  unfold waiting. cbn [idle]. case_decide as Hk; [subst; by rewrite lookup_insert_eq|by rewrite lookup_insert_ne].
Qed.

Lemma waiting_delete m mx h t key key' :
  waiting (mk_pool (delete key m) mx h t) key' = if decide (key' = key) then [] else default [] (m !! key').
Proof.
  unfold waiting. cbn [idle]. case_decide as Hk; [subst; by rewrite lookup_delete_eq|by rewrite lookup_delete_ne].
Qed.

(** Replacing one bucket, by another or by none. *)
Definition set_bucket (key : PoolKey) (es : option (list Idle)) (m : gmap PoolKey (list Idle)) : gmap PoolKey (list Idle) :=
  match es with Some es => <[key := es]> m | None => delete key m end.

Lemma pool_ok_bucket config s mx t key es h :
  pool_ok config s →
  h = idle_held s - zlen (waiting s key) + zlen (default [] es) → h <= Z.max (max_total config) 1 →
  zlen (default [] es) <= max_per_host config →
  (∀ e, e ∈ default [] es → protocol_of (idle_connection e) = Http11) →
  mx ⊆ multiplexed s →
  pool_ok config (mk_pool (set_bucket key es (idle s)) mx h t).
Proof.
  intros [Hh Hp Ht Hm H1 H2] -> Hcap Hhost Hes Hmx.
  assert (Hw : ∀ key', waiting (mk_pool (set_bucket key es (idle s)) mx
    (idle_held s - zlen (waiting s key) + zlen (default [] es)) t) key' =
    if decide (key' = key) then default [] es else waiting s key').
  { intros key'. destruct es; [apply waiting_insert|apply waiting_delete]. }
  split; cbn [idle multiplexed idle_held]; [|intros k|done| |intros k e|].
  - rewrite Hh, <- waiting_sum. destruct es; simpl; [by rewrite map_zsum_insert|rewrite map_zsum_delete].
    unfold zlen at 3. simpl. lia.
  - rewrite Hw. case_decide; [done|apply Hp].
  - etransitivity; [|done]. apply inj_le, map_subseteq_size, Hmx.
  - rewrite Hw. case_decide; [apply Hes|apply H1].
  - intros k c Hc. apply (H2 k). by eapply lookup_weaken.
Qed.

Section PoolFacts.
Context (closed : nat → bool).
Abbreviation keeps := (Pool.keeps closed).
Abbreviation is_usable := (Pool.is_usable closed).

(** ** Checking out *)

(** Popping stops at the newest entry that may still be used. *)
Lemma pop_usable_spec timeout now h l :
  zlen l <= h →
  ∃ found rest h', pop_usable closed timeout now h l = Some (found, rest, h') ∧
    h' = h - (zlen l - zlen rest) ∧
    match found with
    | Some c => ∃ dead e, l = dead ++ e :: rest ∧ idle_connection e = c ∧ keeps timeout now e = true ∧
        Forall (λ e, keeps timeout now e = false) dead
    | None => rest = [] ∧ Forall (λ e, keeps timeout now e = false) l
    end.
Proof.
  revert h. induction l as [|e l IH]; intros h Hl; cbn [pop_usable].
  { exists None, [], h. split; [done|]. split; [unfold zlen; simpl; lia|done]. }
  rewrite zlen_cons in Hl. pose proof (zlen_nonneg l). rewrite less_one_Some by lia. cbn [mbind option_bind].
  destruct (keeps timeout now e) eqn:Hk.
  - exists (Some (idle_connection e)), l, (h - 1). split; [done|]. split; [rewrite zlen_cons; lia|].
    exists [], e. by repeat constructor.
  - destruct (IH (h - 1)) as (found & rest & h' & -> & -> & Hf); [lia|].
    exists found, rest, (h - 1 - (zlen l - zlen rest)). split; [done|]. split; [rewrite zlen_cons; lia|].
    destruct found as [c|].
    + destruct Hf as (dead & e' & -> & ? & ? & ?). exists (e :: dead), e'. split; [done|]. by repeat constructor.
    + destruct Hf as [-> ?]. split; [done|]. by constructor.
Qed.

(** The outcome of a checkout. *)
Inductive checked_out (config : PoolConfig) (key : PoolKey) (now : SystemTime) (s s' : PoolState)
    : option Connection → Prop :=
  | Shared n :
      multiplexed s !! key = Some (Http2Conn n) → closed n = false → s' = s →
      checked_out config key now s s' (Some (Http2Conn n))
  | Taken older e dead :
      waiting s key = older ++ e :: dead → waiting s' key = older →
      (∀ c, multiplexed s !! key = Some c → is_usable c = false) →
      keeps (idle_timeout config) now e = true →
      Forall (λ e, keeps (idle_timeout config) now e = false) dead →
      checked_out config key now s s' (Some (idle_connection e))
  | Nothing :
      Forall (λ e, keeps (idle_timeout config) now e = false) (waiting s key) → waiting s' key = [] →
      (∀ c, multiplexed s !! key = Some c → is_usable c = false) →
      checked_out config key now s s' None.

Lemma checkout_spec config key now s :
  pool_ok config s →
  ∃ found s', checkout closed config key now s = Some (found, s') ∧
    pool_ok config s' ∧ checked_out config key now s s' found ∧
    multiplexed s' ⊆ multiplexed s ∧ (∀ key', key' ≠ key → waiting s' key' = waiting s key').
Proof.
  intros Hok. unfold checkout.
  set (probe := match multiplexed s !! key with Some _ => _ | None => _ end).
  assert (Hprobe : (∃ n, probe = inl (Http2Conn n) ∧ multiplexed s !! key = Some (Http2Conn n) ∧ closed n = false) ∨
    ∃ mx, probe = inr mx ∧ mx ⊆ multiplexed s ∧ ∀ c, multiplexed s !! key = Some c → is_usable c = false).
  { unfold probe. destruct (multiplexed s !! key) as [c|] eqn:Hc; [|right; by exists (multiplexed s)].
    destruct (is_usable c) eqn:Hu.
    - pose proof (pk_http2 _ _ Hok _ _ Hc) as Hp. destruct c as [n|n]; [done|]. left. exists n.
      split; [done|]. split; [done|]. unfold Pool.is_usable in Hu. by apply negb_true_iff in Hu.
    - right. exists (delete key (multiplexed s)). split; [done|]. split; [apply delete_subseteq|]. by intros ? [= <-]. }
  destruct Hprobe as [(n & -> & Hn & Hopen)|(mx & -> & Hmx & Hdead)].
  { exists (Some (Http2Conn n)), s. split; [done|]. split; [done|]. split; [by apply Shared|done]. }
  destruct (idle s !! key) as [entries|] eqn:He.
  2:{ exists None, (mk_pool (idle s) mx (idle_held s) (last_sweep s)).
      assert (Hw : waiting s key = []) by (unfold waiting; by rewrite He).
      split; [done|]. split; [|split; [apply Nothing; [by rewrite Hw|done..]|done]].
      destruct Hok as [? ? ? Hm ? H2]. split; try done; cbn [multiplexed].
      - etransitivity; [|done]. apply inj_le, map_subseteq_size, Hmx.
      - intros k c Hc. apply (H2 k). by eapply lookup_weaken. }
  assert (Hw : waiting s key = entries) by (unfold waiting; by rewrite He).
  assert (Hz : ∀ l : list Idle, zlen (reverse l) = zlen l) by (intros l; unfold zlen; by rewrite length_reverse).
  pose proof (waiting_le s key) as Hle. rewrite Hw in Hle.
  destruct (pop_usable_spec (idle_timeout config) now (idle_held s) (reverse entries)) as (found & rest & h & Hpop & -> & Hf).
  { rewrite Hz, (pk_held _ _ Hok). done. }
  rewrite Hpop. cbn [mbind option_bind]. rewrite Hz.
  set (es := match found with Some _ => Some (reverse rest) | None => None end).
  set (s' := mk_pool _ mx _ _).
  assert (Hs' : s' = mk_pool (set_bucket key es (idle s)) mx (idle_held s - (zlen entries - zlen rest)) (last_sweep s))
    by (unfold s', es; by destruct found).
  assert (Hes : default [] es = match found with Some _ => reverse rest | None => [] end) by (unfold es; by destruct found).
  assert (Hsub : ∃ dead, entries = default [] es ++ dead ∧ zlen (default [] es) = zlen rest).
  { rewrite Hes. destruct found as [c|].
    - destruct Hf as (dead & e & Hr & _). exists (e :: reverse dead). split; [|by rewrite Hz].
      rewrite <- (reverse_involutive entries), Hr, reverse_app, reverse_cons, <- app_assoc. done.
    - destruct Hf as [-> _]. by exists entries. }
  destruct Hsub as (dead0 & Hent & Hlen).
  exists found, s'. split; [done|]. split; [|split; [|split; [done|]]].
  - rewrite Hs'. pose proof (pk_host _ _ Hok key) as Hh. rewrite Hw, Hent, zlen_app in Hh. pose proof (zlen_nonneg dead0).
    pose proof (pk_total _ _ Hok). rewrite Hent, zlen_app.
    apply pool_ok_bucket; [done|rewrite Hw, Hent, zlen_app; lia|lia|lia| |done].
    intros e Hin. apply (pk_http1 _ _ Hok key). rewrite Hw, Hent. apply elem_of_app. by left.
  - assert (Hw' : waiting s' key = default [] es).
    { rewrite Hs'. destruct es; simpl; [rewrite waiting_insert|rewrite waiting_delete]; by rewrite decide_True. }
    rewrite Hes in Hw'. destruct found as [c|].
    + destruct Hf as (dead & e & Hr & <- & Hk & Hd). apply (Taken _ _ _ _ _ (reverse rest) e (reverse dead)); try done.
      * rewrite Hw, <- (reverse_involutive entries), Hr, reverse_app, reverse_cons, <- app_assoc. done.
      * by rewrite Forall_reverse.
    + destruct Hf as [_ Hd]. apply Nothing; [|done..]. rewrite Hw. by rewrite Forall_reverse in Hd.
  - intros key' Hne. rewrite Hs'. destruct es; simpl; [rewrite waiting_insert|rewrite waiting_delete]; by rewrite decide_False.
Qed.

(** ** Sweeping and evicting *)

(** A change that only drops connections. *)
Definition drops (s s' : PoolState) : Prop :=
  (∀ key, waiting s' key `sublist_of` waiting s key) ∧ multiplexed s' ⊆ multiplexed s.

Lemma drops_refl s : drops s s.
Proof. done. Qed.

Lemma drops_trans s1 s2 s3 : drops s1 s2 → drops s2 s3 → drops s1 s3.
Proof. intros [H1 H2] [H3 H4]. split; [intros key; by transitivity (waiting s2 key)|by transitivity (multiplexed s2)]. Qed.

Lemma zlen_sublist {A} (l k : list A) : l `sublist_of` k → zlen l <= zlen k.
Proof. intros Hl%sublist_length. unfold zlen. lia. Qed.

(** Whatever only drops connections and counts what is left keeps the invariant. *)
Lemma drops_ok config s s' :
  pool_ok config s → drops s s' → idle_held s' = map_zsum zlen (idle s') → pool_ok config s'.
Proof.
  intros [Hh Hp Ht Hm H1 H2] [Hi Hmx] Hcount. split; [done| | | | |].
  - intros key. etransitivity; [apply zlen_sublist, Hi|apply Hp].
  - etransitivity; [|apply Ht]. rewrite Hcount, Hh. apply map_zsum_le; [apply zlen_nonneg|].
    intros key. rewrite !waiting_sum. apply zlen_sublist, Hi.
  - etransitivity; [|done]. apply inj_le, map_subseteq_size, Hmx.
  - intros key e He. apply (H1 key). eapply elem_of_sublist; [exact He|apply Hi].
  - intros key c Hc. apply (H2 key). by eapply lookup_weaken.
Qed.

Lemma evict_expired_spec timeout now s :
  drops s (evict_expired closed timeout now s) ∧
  idle_held (evict_expired closed timeout now s) = map_zsum zlen (idle (evict_expired closed timeout now s)) ∧
  (∀ key, waiting (evict_expired closed timeout now s) key = filter (λ e, keeps timeout now e = true) (waiting s key)) ∧
  last_sweep (evict_expired closed timeout now s) = last_sweep s.
Proof.
  assert (Hw : ∀ key, waiting (evict_expired closed timeout now s) key =
    filter (λ e, keeps timeout now e = true) (waiting s key)).
  { intros key. unfold waiting, evict_expired. cbn [idle]. rewrite lookup_omap.
    destruct (idle s !! key) as [es|]; [|done]. cbn. by case_decide as Hk; rewrite ?Hk. }
  split; [|done]. split; [intros key; rewrite Hw; apply sublist_filter|apply map_filter_subseteq].
Qed.

Lemma sweep_if_due_spec config now now' s :
  pool_ok config s →
  pool_ok config (sweep_if_due closed config now now' s) ∧ drops s (sweep_if_due closed config now now' s).
Proof.
  intros Hok. unfold sweep_if_due. destruct (_ <? _); [split; [done|apply drops_refl]|].
  destruct (evict_expired_spec (idle_timeout config) now' (mk_pool (idle s) (multiplexed s) (idle_held s) now))
    as (Hd & Hc & _).
  assert (Hd' : drops s (evict_expired closed (idle_timeout config) now'
    (mk_pool (idle s) (multiplexed s) (idle_held s) now))) by exact Hd.
  split; [|done]. by eapply drops_ok.
Qed.

(** The entry [evict_oldest] picks. *)
Lemma oldest_in_Some key es k i t :
  oldest_in key es = Some (k, i, t) →
  k = key ∧ (∃ e, es !! i = Some e ∧ since e = t) ∧ ∀ e, e ∈ es → t <= since e.
Proof.
  intros ([j e] & Hm & Heq)%fmap_Some. cbn [fst snd] in Heq. injection Heq as -> -> ->.
  apply min_by_key_spec in Hm as [Hi Hall]. cbn [fst snd] in *.
  apply elem_of_lookup_imap in Hi as (? & ? & [= <- <-] & He). split; [done|]. split; [by exists e|].
  intros e0 [j0 Hj]%list_elem_of_lookup. apply (Hall (j0, e0)). apply elem_of_lookup_imap. by exists j0, e0.
Qed.

Lemma oldest_in_None key es : oldest_in key es = None → es = [].
Proof. intros Hn%fmap_None. by destruct es. Qed.

Lemma elem_of_oldest s key i t :
  (key, i, t) ∈ omap (λ kv, oldest_in kv.1 kv.2) (map_to_list (idle s)) ↔
  oldest_in key (waiting s key) = Some (key, i, t).
Proof.
  rewrite list_elem_of_omap. unfold waiting. split.
  - intros ([k es] & Hk%elem_of_map_to_list & Ho). cbn [fst snd] in *.
    pose proof Ho as (-> & _)%oldest_in_Some. by rewrite Hk.
  - destruct (idle s !! key) as [es|] eqn:He; [|done]. intros Ho. exists (key, es). by rewrite elem_of_map_to_list.
Qed.

Lemma oldest_Some s key i t :
  oldest s = Some (key, i, t) →
  (∃ e, waiting s key !! i = Some e ∧ since e = t) ∧ ∀ k e, e ∈ waiting s k → t <= since e.
Proof.
  intros [Hk Hmin]%min_by_key_spec. apply elem_of_oldest in Hk. apply oldest_in_Some in Hk as (_ & He & _).
  split; [done|]. intros k e Hin. destruct (oldest_in k (waiting s k)) as [[[k' j] t']|] eqn:Ho.
  - pose proof Ho as (-> & _ & Hall)%oldest_in_Some. apply elem_of_oldest in Ho.
    specialize (Hmin _ Ho). cbn [snd] in Hmin. specialize (Hall e Hin). lia.
  - apply oldest_in_None in Ho. rewrite Ho in Hin. by apply elem_of_nil in Hin.
Qed.

Lemma oldest_None s key : oldest s = None → waiting s key = [].
Proof.
  unfold oldest. intros Hn. apply (oldest_in_None key).
  destruct (oldest_in key (waiting s key)) as [[[k i] t]|] eqn:Ho; [|done].
  pose proof Ho as (-> & _)%oldest_in_Some. apply elem_of_oldest in Ho.
  destruct (omap _ _); [by apply elem_of_nil in Ho|done].
Qed.

Lemma delete_gone {A} (l : list A) i x : x ∈ l → x ∉ delete i l → l !! i = Some x.
Proof.
  intros [j Hj]%list_elem_of_lookup Hgone. destruct (decide (j = i)) as [->|Hne]; [done|].
  exfalso. apply Hgone, list_elem_of_lookup. destruct (decide (j < i)%nat).
  - exists j. by rewrite list_lookup_delete_lt.
  - exists (j - 1)%nat. rewrite list_lookup_delete_ge by lia. by replace (S (j - 1)) with j by lia.
Qed.

Lemma nothing_held config s : pool_ok config s → (∀ key, waiting s key = []) → idle_held s = 0.
Proof.
  intros Hok Hempty. rewrite (pk_held _ _ Hok). apply Z.le_antisymm; [|apply map_zsum_nonneg, zlen_nonneg].
  rewrite <- (map_zsum_empty (K := PoolKey) (zlen (A := Idle))). apply map_zsum_le; [apply zlen_nonneg|].
  intros key. rewrite waiting_sum, Hempty. by rewrite lookup_empty.
Qed.

(** Eviction frees one slot when anything is held, and what goes has been idle at
    least as long as everything that stays. *)
Lemma evict_oldest_spec config s :
  pool_ok config s →
  ∃ s', evict_oldest s = Some s' ∧ pool_ok config s' ∧ drops s s' ∧ multiplexed s' = multiplexed s ∧
    (idle_held s' = idle_held s - 1 ∨ (idle_held s = 0 ∧ s' = s)) ∧
    ∀ key e, e ∈ waiting s key → e ∉ waiting s' key → ∀ key' e', e' ∈ waiting s' key' → since e <= since e'.
Proof.
  intros Hok. unfold evict_oldest. destruct (oldest s) as [[[key index] t]|] eqn:Ho.
  2:{ exists s. split; [done|]. split; [done|]. split; [apply drops_refl|]. split; [done|]. split; [|done].
      right. split; [|done]. apply (nothing_held config); [done|]. intros key. by apply oldest_None. }
  apply oldest_Some in Ho as ((e & He & Ht) & Hall).
  destruct (idle s !! key) as [es|] eqn:Hes; [|by unfold waiting in He; rewrite Hes in He; destruct index].
  assert (Hw : waiting s key = es) by (unfold waiting; by rewrite Hes). rewrite Hw in He.
  assert (Hlen : zlen (delete index es) = zlen es - 1).
  { unfold zlen. rewrite length_delete by (by exists e). apply lookup_lt_Some in He. lia. }
  pose proof (waiting_le s key) as Hle. rewrite Hw in Hle. pose proof (zlen_nonneg (delete index es)).
  rewrite less_one_Some by (rewrite (pk_held _ _ Hok); lia). cbn [mbind option_bind].
  set (s' := mk_pool _ _ _ _).
  set (es' := if decide (delete index es = []) then None else Some (delete index es)).
  assert (Hd : default [] es' = delete index es) by (unfold es'; by case_decide as Hx; rewrite ?Hx).
  assert (Hs' : s' = mk_pool (set_bucket key es' (idle s)) (multiplexed s) (idle_held s - 1) (last_sweep s))
    by (unfold s', es'; by case_decide).
  assert (Hw' : ∀ key', waiting s' key' = if decide (key' = key) then delete index es else waiting s key').
  { intros key'. rewrite Hs', <- Hd. destruct es'; [apply waiting_insert|apply waiting_delete]. }
  assert (Hdrops : drops s s').
  { split; [|done]. intros key'. rewrite Hw'.
    destruct (decide (key' = key)) as [->|]; [rewrite Hw; apply sublist_delete|done]. }
  exists s'. split; [done|]. split; [|split; [done|split; [done|split]]].
  - rewrite Hs'. pose proof (pk_host _ _ Hok key) as Hh. rewrite Hw in Hh. pose proof (pk_total _ _ Hok).
    apply pool_ok_bucket; rewrite ?Hw, ?Hd; [done|lia|lia|lia| |done].
    intros e0 He0. apply (pk_http1 _ _ Hok key). rewrite Hw. eapply elem_of_sublist; [exact He0|apply sublist_delete].
  - left. by rewrite Hs'.
  - intros k0 e0 He0 Hgone k1 e1 He1. rewrite Hw' in Hgone.
    destruct (decide (k0 = key)) as [->|]; [rewrite Hw in He0|done].
    pose proof (delete_gone _ _ _ He0 Hgone). assert (e0 = e) as -> by congruence. rewrite Ht. apply (Hall k1).
    eapply elem_of_sublist; [exact He1|apply Hdrops].
Qed.

(** ** Releasing *)

Lemma push_idle_spec config key c now s :
  config_ok config → pool_ok config s → protocol_of c = Http11 → idle_held s < Z.max (max_total config) 1 →
  ∃ s', push_idle config key c now s = Some s' ∧ pool_ok config s' ∧ multiplexed s' = multiplexed s ∧
    (∀ key', key' ≠ key → waiting s' key' = waiting s key') ∧
    waiting s' key =
      (if max_per_host config <=? zlen (waiting s key) then tail (waiting s key) else waiting s key) ++ [mk_idle c now].
Proof.
  intros [Hhost _] Hok Hc Hroom. unfold push_idle. fold (waiting s key).
  set (kept := if max_per_host config <=? zlen (waiting s key) then tail (waiting s key) else waiting s key).
  pose proof (waiting_le s key) as Hle. rewrite <- (pk_held _ _ Hok) in Hle. pose proof (pk_host _ _ Hok key) as Hh.
  pose proof (zlen_nonneg (waiting s key)).
  assert (Hstep : (if max_per_host config <=? zlen (waiting s key) then
       match waiting s key with
       | [] => None
       | _ :: rest => held ← less_one (idle_held s); Some (rest, held)
       end else Some (waiting s key, idle_held s)) = Some (kept, idle_held s - zlen (waiting s key) + zlen kept) ∧
     zlen kept < max_per_host config ∧ zlen kept <= zlen (waiting s key) ∧ (∀ e, e ∈ kept → e ∈ waiting s key)).
  { unfold kept. destruct (_ <=? _) eqn:Hfull; bool_prop.
    - destruct (waiting s key) as [|e es]; [unfold zlen in Hfull; simpl in Hfull; lia|]. rewrite zlen_cons in *. cbn [tail].
      pose proof (zlen_nonneg es). rewrite less_one_Some by lia. cbn [mbind option_bind].
      split; [repeat f_equal; lia|]. split; [lia|]. split; [lia|]. intros e0. by apply list_elem_of_further.
    - split; [repeat f_equal; lia|]. split; [lia|]. split; [lia|done]. }
  destruct Hstep as (-> & Hlt & Hle' & Hin). cbn [mbind option_bind].
  set (s' := mk_pool _ _ _ _). exists s'. split; [done|].
  assert (Hz : zlen (kept ++ [mk_idle c now]) = zlen kept + 1) by (rewrite zlen_app; unfold zlen at 2; simpl; lia).
  split; [|split; [done|split]].
  - apply (pool_ok_bucket config s (multiplexed s) (last_sweep s) key (Some (kept ++ [mk_idle c now]))); cbn [default];
      rewrite ?Hz; [done|unfold id; rewrite Hz; lia|lia|unfold id; rewrite Hz; lia| |done].
    intros e [He|Heq]%elem_of_app; [by apply (pk_http1 _ _ Hok key), Hin|]. by apply list_elem_of_singleton in Heq as ->.
  - intros key' Hne. unfold s'. rewrite waiting_insert. by rewrite decide_False.
  - unfold s'. rewrite waiting_insert. by rewrite decide_True.
Qed.

Lemma release_multiplexed_spec config key c s :
  pool_ok config s → protocol_of c = Http2 →
  pool_ok config (release_multiplexed closed config key c s) ∧
  (∀ key', waiting (release_multiplexed closed config key c s) key' = waiting s key') ∧
  (release_multiplexed closed config key c s = s ∨
   multiplexed (release_multiplexed closed config key c s) = <[key := c]> (multiplexed s)).
Proof.
  intros Hok Hc. unfold release_multiplexed.
  assert (Hput : Z.of_nat (size (<[key := c]> (multiplexed s))) <= max_total config →
    pool_ok config (mk_pool (idle s) (<[key := c]> (multiplexed s)) (idle_held s) (last_sweep s))).
  { intros Hsize. destruct Hok as [? ? ? ? ? H2]. split; try done. cbn [multiplexed].
    intros k c' [[<- <-]|[_ Hk]]%lookup_insert_Some; [done|by eapply H2]. }
  destruct (multiplexed s !! key) as [existing|] eqn:He.
  - destruct (is_usable existing); [by auto|]. split; [|by auto]. apply Hput.
    rewrite map_size_insert_Some by (by exists existing). apply Hok.
  - destruct (_ <=? _) eqn:Hfull; bool_prop; [by auto|]. split; [|by auto]. apply Hput.
    rewrite map_size_insert_None by done. lia.
Qed.

(** Everything a release may do: nothing for a dead connection; otherwise other
    connections may be dropped, and this one is filed under its key - an HTTP/1.1
    connection as the newest of its bucket, an HTTP/2 one unless its key has a
    living one or the cap is reached. *)
Inductive released (key : PoolKey) (c : Connection) (at_ : SystemTime) (s s' : PoolState) : Prop :=
  | Dropped : drops s s' → released key c at_ s s'
  | Filed kept :
      protocol_of c = Http11 → is_usable c = true → multiplexed s' ⊆ multiplexed s →
      (∀ key', key' ≠ key → waiting s' key' `sublist_of` waiting s key') →
      kept `sublist_of` waiting s key → waiting s' key = kept ++ [mk_idle c at_] →
      released key c at_ s s'
  | Registered mx :
      protocol_of c = Http2 → is_usable c = true → (∀ key', waiting s' key' `sublist_of` waiting s key') →
      mx ⊆ multiplexed s → multiplexed s' = <[key := c]> mx →
      released key c at_ s s'.

Lemma sublist_tail {A} (l : list A) : tail l `sublist_of` l.
Proof. destruct l; [done|]. by apply sublist_cons. Qed.

Lemma release_spec config key c now now' now'' s :
  config_ok config → pool_ok config s →
  ∃ s', release closed config key c now now' now'' s = Some s' ∧ pool_ok config s' ∧ released key c now'' s s' ∧
    (protocol_of c = Http11 → is_usable c = true → ∃ kept, waiting s' key = kept ++ [mk_idle c now'']).
Proof.
  intros Hconf Hok. unfold release. destruct (is_usable c) eqn:Hu; cbn [negb].
  2:{ exists s. split; [done|]. split; [done|]. split; [by apply Dropped|done]. }
  destruct (sweep_if_due_spec config now now' s Hok) as [Hok1 Hd1].
  set (s1 := sweep_if_due _ _ _ _ _) in *. destruct c as [n|n].
  - assert (He : ∃ s2, (if max_total config <=? idle_held s1 then evict_oldest s1 else Some s1) = Some s2 ∧
      pool_ok config s2 ∧ drops s1 s2 ∧ idle_held s2 < Z.max (max_total config) 1).
    { pose proof (pk_total _ _ Hok1). destruct (_ <=? _) eqn:Hfull; bool_prop.
      - destruct (evict_oldest_spec config s1 Hok1) as (s2 & -> & ? & ? & _ & [Hh|[Hh ->]] & _);
          [exists s2|exists s1]; (split; [done|]); (split; [done|]); (split; [done|]); lia.
      - exists s1. split; [done|]. split; [done|]. split; [apply drops_refl|lia]. }
    destruct He as (s2 & -> & Hok2 & Hd2 & Hroom). cbn [mbind option_bind].
    destruct (push_idle_spec config key (Http1Conn n) now'' s2 Hconf Hok2 eq_refl Hroom)
      as (s' & -> & Hok' & Hmx & Hother & Hkey).
    destruct (drops_trans _ _ _ Hd1 Hd2) as [Hd Hdm].
    exists s'. split; [done|]. split; [done|]. split; [|by eauto]. eapply Filed; [done|done|by rewrite Hmx| |  |exact Hkey].
    + intros key' Hne. rewrite Hother by done. apply Hd.
    + destruct (_ <=? _); [|apply Hd]. transitivity (waiting s2 key); [apply sublist_tail|apply Hd].
  - destruct (release_multiplexed_spec config key (Http2Conn n) s1 Hok1 eq_refl) as (Hok' & Hw & Hmx).
    eexists. split; [done|]. split; [done|]. split; [|done]. destruct Hd1 as [Hd Hdm]. destruct Hmx as [->|Hmx].
    + by apply Dropped.
    + eapply Registered; [done|done| |exact Hdm|done]. intros key'. by rewrite Hw.
Qed.

Lemma new_pool_ok config now : config_ok config → pool_ok config (new_pool now).
Proof.
  intros [Hh Ht]. split; cbn [new_pool idle multiplexed idle_held].
  - by rewrite map_zsum_empty.
  - intros key. unfold waiting. cbn [new_pool idle]. rewrite lookup_empty. unfold zlen. simpl. lia.
  - lia.
  - rewrite map_size_empty. lia.
  - intros key e. unfold waiting. cbn [new_pool idle]. rewrite lookup_empty. by intros ?%elem_of_nil.
  - intros key c. by rewrite lookup_empty.
Qed.

Lemma clear_ok config s : config_ok config → pool_ok config (clear s).
Proof. intros Hc. by destruct (new_pool_ok config (last_sweep s) Hc). Qed.

(** C8. Configured with at least one connection per host, the pool keeps to its limits
    and its arithmetic never fails: checking out and releasing any connection keep the
    invariant - the idle counter is exactly the number of idle connections, no key has
    more than [max_per_host], neither population more than [max_total], or one where
    that is zero - and neither operation panics.  An idle HTTP/1.1 connection is handed
    out only when it is open and within the idle timeout, the newest such first, and
    leaves the pool as it is.  Without that configuration a release does panic
    ([zero_per_host_panics]). *)
Theorem pool_keeps_ok config key c now now' now'' s :
  config_ok config → pool_ok config s →
  (∃ found s', checkout closed config key now s = Some (found, s') ∧ pool_ok config s' ∧
     checked_out config key now s s' found) ∧
  (∃ s', release closed config key c now now' now'' s = Some s' ∧ pool_ok config s' ∧ released key c now'' s s').
Proof.
  intros Hconf Hok. split.
  - destruct (checkout_spec config key now s Hok) as (found & s' & ? & ? & ? & _). by exists found, s'.
  - destruct (release_spec config key c now now' now'' s Hconf Hok) as (s' & ? & ? & ? & _). by exists s'.
Qed.

(** A connection that comes back to its pool is the next one its key is given. *)
Lemma release_then_checkout config key n now now' now'' later s s' :
  config_ok config → pool_ok config s → closed n = false → multiplexed s !! key = None →
  since_or_zero later now'' < idle_timeout config →
  release closed config key (Http1Conn n) now now' now'' s = Some s' →
  ∃ s'', checkout closed config key later s' = Some (Some (Http1Conn n), s'').
Proof.
  intros Hconf Hok Hopen Hmx Hfresh Hrel.
  assert (Hu : is_usable (Http1Conn n) = true) by (unfold Pool.is_usable; simpl; by rewrite Hopen).
  destruct (release_spec config key (Http1Conn n) now now' now'' s Hconf Hok) as (s1 & Hs1 & Hok' & Hr & Hf).
  rewrite Hrel in Hs1. injection Hs1 as <-. destruct (Hf eq_refl Hu) as (kept & Hw).
  assert (Hmx' : multiplexed s' !! key = None).
  { destruct (multiplexed s' !! key) as [c'|] eqn:Hc; [|done].
    destruct Hr as [[_ Hd]|? _ _ Hd _ _ _|? Hp _ _ _ _]; [..|done]; by rewrite (lookup_weaken _ _ _ _ Hc Hd) in Hmx. }
  destruct (checkout_spec config key later s' Hok') as (found & s'' & Hck & _ & Hout & _). exists s''. rewrite Hck.
  assert (Hkeep : keeps (idle_timeout config) later (mk_idle (Http1Conn n) now'') = true).
  { unfold Pool.keeps. cbn [since idle_connection]. rewrite Hu, andb_true_r. by apply Z.ltb_lt. }
  do 2 f_equal. destruct Hout as [m Hm _ _|older e dead Hw' _ _ Hk Hdead|Hdead _ _].
  - congruence.
  - destruct dead as [|d dead _] using rev_ind.
    + rewrite Hw in Hw'. apply app_inj_tail in Hw' as [_ <-]. done.
    + rewrite Hw, app_comm_cons, app_assoc in Hw'. apply app_inj_tail in Hw' as [_ <-].
      apply Forall_app in Hdead as [_ [Hd _]%Forall_cons]. by destruct (eq_true_false_abs _ Hkeep Hd).
  - rewrite Hw in Hdead. apply Forall_app in Hdead as [_ [Hd _]%Forall_cons]. by destruct (eq_true_false_abs _ Hkeep Hd).
Qed.

End PoolFacts.

(** A cap of no connection per key does not disable pooling: the first connection
    that comes back removes the first entry of an empty bucket, which panics. *)
Lemma zero_per_host_panics closed key n now timeout total :
  closed n = false → 0 < total → 0 < timeout / 4 →
  release closed (mk_pool_config timeout 0 total) key (Http1Conn n) now now now (new_pool now) = None.
Proof.
  intros Hopen Htotal Htimeout. unfold release, is_usable. cbn [sender]. rewrite Hopen. cbn [negb].
  unfold sweep_if_due. cbn [last_sweep new_pool idle_timeout max_total].
  rewrite since_or_zero_spec, Z.sub_diag, (proj2 (Z.ltb_lt (Z.max 0 0) (timeout / 4))) by (simpl; lia). cbn [max_total new_pool idle_held]. rewrite (proj2 (Z.leb_gt total 0)) by lia. cbn [mbind option_bind]. unfold push_idle. cbn [idle new_pool].
  by rewrite lookup_empty.
Qed.

(** Nor does a cap of no connection at all: one is kept all the same. *)
Lemma zero_total_keeps_one closed key n now timeout :
  closed n = false → 0 < timeout / 4 →
  ∃ s, release closed (mk_pool_config timeout 6 0) key (Http1Conn n) now now now (new_pool now) = Some s ∧
    waiting s key = [mk_idle (Http1Conn n) now].
Proof.
  intros Hopen Htimeout. unfold release, is_usable. cbn [sender]. rewrite Hopen. cbn [negb].
  unfold sweep_if_due. cbn [last_sweep new_pool idle_timeout max_total].
  rewrite since_or_zero_spec, Z.sub_diag, (proj2 (Z.ltb_lt (Z.max 0 0) (timeout / 4))) by (simpl; lia). cbn [max_total new_pool idle_held Z.leb Z.compare].
  unfold evict_oldest, oldest. cbn [idle new_pool]. rewrite map_to_list_empty. cbn [omap list_omap min_by_key mbind option_bind].
  unfold push_idle. cbn [idle new_pool]. rewrite lookup_empty. cbn [default]. eexists. split; [done|].
  by rewrite waiting_insert, decide_True.
Qed.

Definition demo_key : PoolKey :=
  mk_pool_key b#"https" b#"a.example" 443 None (mk_identity b#"ja4|akamai|ua" 7) Http11.

Lemma pool_keeps_ok_witness :
  ∃ s, release (λ _, false) default_pool_config demo_key (Http1Conn 3) 5 6 7 (new_pool 0) = Some s ∧
    pool_ok default_pool_config s.
Proof.
  assert (Hc : config_ok default_pool_config) by done.
  destruct (pool_keeps_ok (λ _, false) default_pool_config demo_key (Http1Conn 3) 5 6 7 (new_pool 0)
    Hc (new_pool_ok _ 0 Hc)) as (_ & s & Hs & Hok & _).
  by exists s.
Defined.
