(* ===== verification/Exchange.v ===== *)
(** [chromulate-http]: how exchanges come by connections and give them back - the
    routes and keys of src/crates/chromulate-http/src/connect.rs, [acquire] and
    [send_on] of engine.rs, and the body that returns its connection of body.rs.

    Exchanges run concurrently over one pool, so what they do is a step relation:
    each step is one operation under the pool's lock or one event of the network,
    and any exchange may take the next.  Dialling, handshakes and deadlines happen
    between the steps; the identities differ between the engines that share a pool. *)
From S2P Require Import Prelude RustStr RustTime Origin Body EarlyStop Pool.
Local Open Scope Z_scope.

(** ** Routes and keys *)

(** The proxy itself is only dialled; its redacted URL is the label. *)
Record Route := mk_route { rt_origin : Origin; rt_label : option str }.

Definition key_of (identity : ConnectionIdentity) (r : Route) (p : Protocol) : PoolKey :=
  mk_pool_key (o_scheme (rt_origin r)) (o_host (rt_origin r)) (o_port (rt_origin r)) (rt_label r) identity p.

Definition candidate_keys (identity : ConnectionIdentity) (r : Route) : list PoolKey :=
  let preferred := key_of identity r (if is_secure (rt_origin r) then Http2 else Http11) in
  if is_secure (rt_origin r) then
    [preferred;
     mk_pool_key (k_scheme preferred) (k_host preferred) (k_port preferred) (k_proxy preferred)
       (k_identity preferred) Http11]
  else [preferred].

(** The protocol of a new connection: what ALPN chose, without TLS HTTP/1.1. *)
Definition negotiated (r : Route) (alpn : option Protocol) : Protocol :=
  if is_secure (rt_origin r) then
    if bool_decide (default Http11 alpn = Http2) then Http2 else Http11
  else Http11.

(** ** The body that returns its connection *)

Record PoolSlot := mk_slot { sl_key : PoolKey; sl_connection : option Connection }.

(** [ReleasingStream]. *)
Record Releasing := mk_releasing { rl_inner : Body; rl_slot : option PoolSlot }.

Definition returning_to_pool (body : Body) (key : PoolKey) (c : Connection) : Releasing :=
  mk_releasing body (Some (mk_slot key (Some c))).

Section Returning.
Context (closed : nat → bool) (config : PoolConfig).

Definition slot_release (slot : PoolSlot) (now now' now'' : SystemTime) (pool : PoolState) : option PoolState :=
  match sl_connection slot with
  | Some c => release closed config (sl_key slot) c now now' now'' pool
  | None => Some pool
  end.

(** [ReleasingStream::poll_next]. *)
Definition releasing_poll (r : Releasing) (now now' now'' : SystemTime) (pool : PoolState)
    : option (Poll (option (bytes + BodyError)) * Releasing * PoolState) :=
  '(answer, inner) ← poll_data 1 (rl_inner r);
  match answer with
  | Ready None =>
      pool ← (match rl_slot r with Some slot => slot_release slot now now' now'' pool | None => Some pool end);
      Some (answer, mk_releasing inner None, pool)
  | Ready (Some (inr error)) => Some (answer, mk_releasing inner None, pool)
  | _ => Some (answer, mk_releasing inner (rl_slot r), pool)
  end.
End Returning.

(** ** Exchanges *)

(** Trying the candidate keys in turn; holding a new HTTP/2 connection that is not
    in the pool yet; holding a connection while the request is on it; reading the
    response body of an HTTP/1.1 connection. *)
Inductive Stage :=
  | Acquiring (keys : list PoolKey)
  | Sharing (key : PoolKey) (sender : nat)
  | Sending (key : PoolKey) (c : Connection)
  | Reading (r : Releasing).

Definition holds (st : Stage) : option (PoolKey * Connection) :=
  match st with
  | Acquiring _ => None
  | Sharing key n => Some (key, Http2Conn n)
  | Sending key c => Some (key, c)
  | Reading r => slot ← rl_slot r; c ← sl_connection slot; Some (sl_key slot, c)
  end.

Record Exchange := mk_exchange { ex_identity : ConnectionIdentity; ex_route : Route; ex_stage : Stage }.

Definition with_stage (e : Exchange) (st : Stage) : Exchange := mk_exchange (ex_identity e) (ex_route e) st.

(** The key every connection was opened with, by its number; the connections that
    have a response on them that has not been read to its end; and those that are
    closed. *)
Record World := mk_world {
  w_pool : PoolState;
  w_opened : list PoolKey;
  w_unread : gset nat;
  w_closed : gset nat;
  w_exchanges : list Exchange;
}.

Definition is_closed (w : World) (n : nat) : bool := bool_decide (n ∈ w_closed w).

Definition with_exchanges (w : World) (es : list Exchange) : World :=
  mk_world (w_pool w) (w_opened w) (w_unread w) (w_closed w) es.
Definition with_pool (w : World) (p : PoolState) : World :=
  mk_world p (w_opened w) (w_unread w) (w_closed w) (w_exchanges w).

(** A connection that [acquire] has just opened: an HTTP/2 one goes into the pool
    before it is used. *)
Definition opened_stage (key : PoolKey) (n : nat) (p : Protocol) : Stage :=
  match p with Http11 => Sending key (Http1Conn n) | Http2 => Sharing key n end.

(** [send_on] once the head has arrived: what is left to read, if the connection
    travels with it. *)
Definition answered (key : PoolKey) (c : Connection) (body : Body) : option Releasing :=
  match c with Http1Conn _ => Some (returning_to_pool body key c) | Http2Conn _ => None end.

(** Reading a body to its end clears its connection. *)
Definition read_to_end (r : Releasing) (answer : Poll (option (bytes + BodyError))) (unread : gset nat) : gset nat :=
  match answer, rl_slot r with
  | Ready None, Some slot => match sl_connection slot with Some c => unread ∖ {[sender c]} | None => unread end
  | _, _ => unread
  end.

Inductive step (config : PoolConfig) (w : World) : World → Prop :=
  | Step_begin identity r :
      step config w (with_exchanges w (mk_exchange identity r (Acquiring (candidate_keys identity r)) :: w_exchanges w))
  | Step_probe e es1 es2 key keys now found pool :
      w_exchanges w = es1 ++ e :: es2 → ex_stage e = Acquiring (key :: keys) →
      checkout (is_closed w) config key now (w_pool w) = Some (found, pool) →
      step config w (with_exchanges (with_pool w pool)
        (es1 ++ with_stage e (match found with Some c => Sending key c | None => Acquiring keys end) :: es2))
  | Step_open e es1 es2 alpn :
      w_exchanges w = es1 ++ e :: es2 → ex_stage e = Acquiring [] →
      let p := negotiated (ex_route e) alpn in
      let key := key_of (ex_identity e) (ex_route e) p in
      step config w (mk_world (w_pool w) (w_opened w ++ [key]) (w_unread w) (w_closed w)
        (es1 ++ with_stage e (opened_stage key (length (w_opened w)) p) :: es2))
  | Step_share e es1 es2 key n now now' now'' pool :
      w_exchanges w = es1 ++ e :: es2 → ex_stage e = Sharing key n →
      release (is_closed w) config key (Http2Conn n) now now' now'' (w_pool w) = Some pool →
      step config w (with_exchanges (with_pool w pool) (es1 ++ with_stage e (Sending key (Http2Conn n)) :: es2))
  | Step_answer e es1 es2 key c body :
      w_exchanges w = es1 ++ e :: es2 → ex_stage e = Sending key c →
      step config w (match answered key c body with
        | Some r => mk_world (w_pool w) (w_opened w) ({[sender c]} ∪ w_unread w) (w_closed w)
                      (es1 ++ with_stage e (Reading r) :: es2)
        | None => with_exchanges w (es1 ++ es2)
        end)
  | Step_poll e es1 es2 r now now' now'' answer r' pool :
      w_exchanges w = es1 ++ e :: es2 → ex_stage e = Reading r →
      releasing_poll (is_closed w) config r now now' now'' (w_pool w) = Some (answer, r', pool) →
      step config w (mk_world pool (w_opened w) (read_to_end r answer (w_unread w)) (w_closed w)
        (es1 ++ with_stage e (Reading r') :: es2))
  | Step_drop e es1 es2 :
      w_exchanges w = es1 ++ e :: es2 → step config w (with_exchanges w (es1 ++ es2))
  | Step_close n :
      step config w (mk_world (w_pool w) (w_opened w) (w_unread w) ({[n]} ∪ w_closed w) (w_exchanges w))
  | Step_clear : step config w (with_pool w (clear (w_pool w))).

Definition start (now : SystemTime) : World := mk_world (new_pool now) [] ∅ ∅ [].

Inductive reachable (config : PoolConfig) : World → Prop :=
  | Reach_start now : reachable config (start now)
  | Reach_step w w' : reachable config w → step config w w' → reachable config w'.

(** ** The invariant *)

(** The connections waiting under a key, by number. *)
Definition ids (p : PoolState) (key : PoolKey) : list nat := (sender ∘ idle_connection) <$> waiting p key.

(** The HTTP/1.1 connection a stage holds for itself. *)
Definition exclusive_of (st : Stage) : option nat :=
  match holds st with Some (_, Http1Conn n) => Some n | _ => None end.

Definition exclusive (es : list Exchange) : list nat := omap (exclusive_of ∘ ex_stage) es.

(** What an exchange tries and holds is for its own identity, origin and exit. *)
Definition exchange_ok (opened : list PoolKey) (e : Exchange) : Prop :=
  match ex_stage e with
  | Acquiring keys => ∀ key, key ∈ keys → ∃ p, key = key_of (ex_identity e) (ex_route e) p
  | st => ∀ key c, holds st = Some (key, c) →
      opened !! sender c = Some key ∧ key = key_of (ex_identity e) (ex_route e) (protocol_of c)
  end.

Record world_ok (config : PoolConfig) (w : World) : Prop := {
  ok_pool : pool_ok config (w_pool w);
  ok_exchange e : e ∈ w_exchanges w → exchange_ok (w_opened w) e;
  ok_idle key n : n ∈ ids (w_pool w) key →
    w_opened w !! n = Some key ∧ k_protocol key = Http11 ∧ n ∉ w_unread w;
  ok_shared key c : multiplexed (w_pool w) !! key = Some c →
    w_opened w !! sender c = Some key ∧ k_protocol key = Http2;
  ok_once key : NoDup (ids (w_pool w) key);
  ok_exclusive : NoDup (exclusive (w_exchanges w));
  ok_apart n key : n ∈ exclusive (w_exchanges w) → n ∉ ids (w_pool w) key;
  ok_unread n : n ∈ w_unread w → (n < length (w_opened w))%nat;
  ok_clean e key n : e ∈ w_exchanges w → ex_stage e = Sending key (Http1Conn n) → n ∉ w_unread w;
}.

Lemma elem_of_ids p key n : n ∈ ids p key ↔ ∃ e, e ∈ waiting p key ∧ sender (idle_connection e) = n.
Proof. unfold ids. rewrite list_elem_of_fmap. naive_solver. Qed.

Lemma ids_sublist p p' key : waiting p' key `sublist_of` waiting p key → ids p' key `sublist_of` ids p key.
Proof. apply fmap_sublist. Qed.

(** A pool with fewer connections is as good. *)
Lemma world_ok_fewer config w p :
  world_ok config w → pool_ok config p → drops (w_pool w) p → world_ok config (with_pool w p).
Proof.
  intros Hok Hp [Hi Hm]. destruct Hok as [_ He Hid Hsh Hon Hex Hap Hun Hcl].
  assert (Hids : ∀ key n, n ∈ ids p key → n ∈ ids (w_pool w) key)
    by (intros key n Hn; eapply elem_of_sublist, ids_sublist; [exact Hn|apply Hi]).
  split; cbn [with_pool w_pool w_opened w_unread w_closed w_exchanges]; auto.
  - intros key c Hc. apply Hsh. by eapply lookup_weaken.
  - intros key. eapply sublist_NoDup; [apply Hon|apply ids_sublist, Hi].
  - intros n key Hn Hn'. by apply (Hap n key Hn), Hids.
Qed.

(** An HTTP/2 connection may be filed under the key it was opened with. *)
Lemma world_ok_register config w p key c mx :
  world_ok config w → pool_ok config p → (∀ key', waiting p key' `sublist_of` waiting (w_pool w) key') →
  mx ⊆ multiplexed (w_pool w) → multiplexed p = <[key := c]> mx →
  w_opened w !! sender c = Some key → k_protocol key = Http2 →
  world_ok config (with_pool w p).
Proof.
  intros Hok Hp Hi Hm Hput Hopen Hproto. destruct Hok as [_ He Hid Hsh Hon Hex Hap Hun Hcl].
  assert (Hids : ∀ key n, n ∈ ids p key → n ∈ ids (w_pool w) key)
    by (intros k n Hn; eapply elem_of_sublist, ids_sublist; [exact Hn|apply Hi]).
  split; cbn [with_pool w_pool w_opened w_unread w_closed w_exchanges]; auto.
  - intros k x. rewrite Hput. intros [[<- <-]|[_ Hx]]%lookup_insert_Some; [done|]. apply Hsh. by eapply lookup_weaken.
  - intros k. eapply sublist_NoDup; [apply Hon|apply ids_sublist, Hi].
  - intros n k Hn Hn'. by apply (Hap n k Hn), Hids.
Qed.

Lemma exclusive_app es1 es2 : exclusive (es1 ++ es2) = exclusive es1 ++ exclusive es2.
Proof. apply omap_app. Qed.

Lemma exclusive_middle es1 e es2 :
  exclusive (es1 ++ e :: es2) = exclusive es1 ++ option_list (exclusive_of (ex_stage e)) ++ exclusive es2.
Proof. rewrite exclusive_app. cbn. by destruct (exclusive_of (ex_stage e)). Qed.

Lemma elem_of_exclusive_middle n es1 e es2 :
  n ∈ exclusive (es1 ++ e :: es2) ↔ exclusive_of (ex_stage e) = Some n ∨ n ∈ exclusive (es1 ++ es2).
Proof. rewrite exclusive_middle, exclusive_app. destruct (exclusive_of (ex_stage e)); set_solver. Qed.

Lemma exclusive_subset_NoDup es1 e es2 :
  NoDup (exclusive (es1 ++ e :: es2)) → NoDup (exclusive (es1 ++ es2)).
Proof.
  rewrite exclusive_middle, exclusive_app. intros Hn. eapply sublist_NoDup; [exact Hn|].
  apply sublist_app; [done|]. by apply sublist_inserts_l.
Qed.

(** An exchange may end at any time. *)
Lemma world_ok_end config w es1 e es2 :
  world_ok config w → w_exchanges w = es1 ++ e :: es2 → world_ok config (with_exchanges w (es1 ++ es2)).
Proof.
  intros [Hp He Hid Hsh Hon Hex Hap Hun Hcl] Hes. rewrite Hes in *.
  assert (Hin : ∀ x, x ∈ es1 ++ es2 → x ∈ es1 ++ e :: es2) by set_solver.
  split; cbn [with_exchanges w_pool w_opened w_unread w_closed w_exchanges]; auto.
  - by eapply exclusive_subset_NoDup.
  - intros n key Hn. apply Hap, elem_of_exclusive_middle. by right.
  - intros x key n Hx. by eapply Hcl, Hin.
Qed.

(** An exchange may start, or change its stage, as long as what it then holds was
    opened for it and is held by no one else, nor waiting in the pool, nor - before
    it sends - has unread bytes. *)
Lemma world_ok_stage config w es1 es2 e :
  world_ok config (with_exchanges w (es1 ++ es2)) → exchange_ok (w_opened w) e →
  (∀ n, exclusive_of (ex_stage e) = Some n →
     (n ∉ exclusive (es1 ++ es2)) ∧ (∀ key, n ∉ ids (w_pool w) key) ∧
     (∀ key, ex_stage e = Sending key (Http1Conn n) → n ∉ w_unread w)) →
  world_ok config (with_exchanges w (es1 ++ e :: es2)).
Proof.
  intros [Hp He Hid Hsh Hon Hex Hap Hun Hcl] Hexch Hn.
  cbn [with_exchanges w_pool w_opened w_unread w_closed w_exchanges] in *.
  assert (Hin : ∀ x, x ∈ es1 ++ e :: es2 → x = e ∨ x ∈ es1 ++ es2) by set_solver.
  split; cbn [with_exchanges w_pool w_opened w_unread w_closed w_exchanges]; auto.
  - intros x [->|Hx]%Hin; [done|by apply He].
  - rewrite exclusive_middle. rewrite exclusive_app in Hex.
    destruct (exclusive_of (ex_stage e)) as [n|] eqn:Hh; cbn [option_list]; [|done].
    destruct (Hn n eq_refl) as [Hfresh _]. rewrite exclusive_app in Hfresh.
    apply NoDup_app in Hex as (H1 & H12 & H2). apply NoDup_app. split; [done|]. split.
    + intros x Hx. set_solver.
    + apply NoDup_cons. set_solver.
  - intros n key [Hh|Hin']%elem_of_exclusive_middle; [by apply (Hn n)|by apply Hap].
  - intros x key n [->|Hx]%Hin Hst; [|by eapply Hcl]. apply (Hn n) with (key := key); [|done].
    unfold exclusive_of. by rewrite Hst.
Qed.

Lemma checked_out_drops config closed key now s s' found :
  checked_out closed config key now s s' found → multiplexed s' ⊆ multiplexed s →
  (∀ key', key' ≠ key → waiting s' key' = waiting s key') → drops s s'.
Proof.
  intros Hout Hm Hother. split; [|done]. intros key'.
  destruct (decide (key' = key)) as [->|Hne]; [|by rewrite Hother].
  destruct Hout as [n _ _ ->|older e dead Hw -> _ _ _|_ -> _]; [done| |apply sublist_nil_l].
  rewrite Hw. by apply sublist_inserts_r.
Qed.

(** A connection handed out of the pool was opened for its key, and is nobody
    else's if it is exclusive. *)
Lemma checked_out_fresh config w key now s' c :
  world_ok config w → checked_out (is_closed w) config key now (w_pool w) s' (Some c) →
  (∀ key', key' ≠ key → waiting s' key' = waiting (w_pool w) key') →
  w_opened w !! sender c = Some key ∧ k_protocol key = protocol_of c ∧
  ∀ n, c = Http1Conn n → (n ∉ exclusive (w_exchanges w)) ∧ (∀ key', n ∉ ids s' key') ∧ n ∉ w_unread w.
Proof.
  intros Hok Hout Hother. remember (Some c) as found eqn:Hfound.
  destruct Hout as [m Hm Hopen ->|older e dead Hw Hw' _ _ _|]; [| |done]; injection Hfound as <-.
  - destruct (ok_shared _ _ Hok _ _ Hm) as [? ?]. done.
  - assert (Hin : e ∈ waiting (w_pool w) key) by (rewrite Hw; set_solver).
    pose proof (pk_http1 _ _ (ok_pool _ _ Hok) key e Hin) as Hp.
    destruct (ok_idle _ _ Hok key (sender (idle_connection e))) as (Ho & Hk & Hu); [apply elem_of_ids; by exists e|].
    split; [done|]. split; [by rewrite Hp|]. intros n Hc. rewrite Hc in *. cbn [sender] in *.
    assert (Hids : n ∈ ids (w_pool w) key) by (apply elem_of_ids; exists e; by rewrite Hc).
    split; [|split; [|done]].
    + intros Hx. by apply (ok_apart _ _ Hok n key Hx).
    + intros key' Hin'. destruct (decide (key' = key)) as [->|Hne].
      * pose proof (ok_once _ _ Hok key) as Hn. unfold ids in Hn, Hin'. rewrite Hw' in Hin'. rewrite Hw, fmap_app in Hn.
        apply NoDup_app in Hn as (_ & Hn & _). apply (Hn n Hin'). cbn. rewrite Hc. apply list_elem_of_here.
      * assert (n ∈ ids (w_pool w) key') as Hin2 by (unfold ids in *; by rewrite <- Hother).
        destruct (ok_idle _ _ Hok key' n Hin2) as (Ho' & _). congruence.
Qed.

(** More connections may be opened. *)
Lemma world_ok_open config w key :
  world_ok config w →
  world_ok config (mk_world (w_pool w) (w_opened w ++ [key]) (w_unread w) (w_closed w) (w_exchanges w)).
Proof.
  intros [Hp He Hid Hsh Hon Hex Hap Hun Hcl].
  assert (Hl : ∀ n k, w_opened w !! n = Some k → (w_opened w ++ [key]) !! n = Some k)
    by (intros n k Hn; by apply lookup_app_l_Some).
  split; cbn [w_pool w_opened w_unread w_closed w_exchanges]; auto.
  - intros e Hin. specialize (He e Hin). unfold exchange_ok in *.
    destruct (ex_stage e); [done|..]; intros k c0 Hc; by destruct (He k c0 Hc) as [?%Hl ?].
  - intros k n Hn. destruct (Hid k n Hn) as (? & ? & ?). auto.
  - intros k c Hc. destruct (Hsh k c Hc) as [? ?]. auto.
  - intros n Hn. rewrite length_app. specialize (Hun n Hn). lia.
Qed.

Lemma world_ok_unread config w u :
  world_ok config w →
  (∀ n, n ∈ u → n ∈ w_unread w ∨
     ((n < length (w_opened w))%nat ∧ (∀ key, n ∉ ids (w_pool w) key) ∧ n ∉ exclusive (w_exchanges w))) →
  world_ok config (mk_world (w_pool w) (w_opened w) u (w_closed w) (w_exchanges w)).
Proof.
  intros [Hp He Hid Hsh Hon Hex Hap Hun Hcl] Hu.
  split; cbn [w_pool w_opened w_unread w_closed w_exchanges]; auto.
  - intros key n Hn. destruct (Hid key n Hn) as (? & ? & ?). split; [done|]. split; [done|].
    intros [?|(_ & Hnot & _)]%Hu; [done|by apply (Hnot key)].
  - intros n [?|(? & _)]%Hu; auto.
  - intros e key n Hin Hst [Hn|(_ & _ & Hnot)]%Hu; [by eapply Hcl|]. apply Hnot.
    apply list_elem_of_omap. exists e. split; [done|]. cbn. unfold exclusive_of. by rewrite Hst.
Qed.

(** A drained connection may be filed under the key it was opened with. *)
Lemma world_ok_file config w p key n t kept :
  world_ok config w → pool_ok config p → multiplexed p ⊆ multiplexed (w_pool w) →
  (∀ key', key' ≠ key → waiting p key' `sublist_of` waiting (w_pool w) key') →
  kept `sublist_of` waiting (w_pool w) key → waiting p key = kept ++ [mk_idle (Http1Conn n) t] →
  w_opened w !! n = Some key → k_protocol key = Http11 → n ∉ w_unread w →
  (n ∉ exclusive (w_exchanges w)) → (∀ key', n ∉ ids (w_pool w) key') →
  world_ok config (with_pool w p).
Proof.
  intros [_ He Hid Hsh Hon Hex Hap Hun Hcl] Hp Hm Hother Hkept Hkey Hopen Hproto Hread Hfree Hnew.
  assert (Hids : ∀ k x, x ∈ ids p k → x ∈ ids (w_pool w) k ∨ (x = n ∧ k = key)).
  { intros k x Hx. destruct (decide (k = key)) as [->|Hne].
    - unfold ids in Hx. rewrite Hkey, fmap_app in Hx. apply elem_of_app in Hx as [Hx|Hx].
      + left. eapply elem_of_sublist; [exact Hx|]. by apply fmap_sublist.
      + right. by apply list_elem_of_singleton in Hx.
    - left. eapply elem_of_sublist; [exact Hx|]. by apply ids_sublist, Hother. }
  split; cbn [with_pool w_pool w_opened w_unread w_closed w_exchanges]; auto.
  - intros k x [Hx|[-> ->]]%Hids; auto.
  - intros k c Hc. apply Hsh. by eapply lookup_weaken.
  - intros k. destruct (decide (k = key)) as [->|Hne].
    + unfold ids. rewrite Hkey, fmap_app. apply NoDup_app. split; [|split].
      * eapply sublist_NoDup; [apply (Hon key)|]. by apply fmap_sublist.
      * intros x Hx Hx'. apply list_elem_of_singleton in Hx' as ->. apply (Hnew key).
        eapply elem_of_sublist; [exact Hx|]. by apply fmap_sublist.
      * apply NoDup_singleton.
    + eapply sublist_NoDup; [apply (Hon k)|]. by apply ids_sublist, Hother.
  - intros x k Hx [Hin|[-> ->]]%Hids; [by apply (Hap x k)|done].
Qed.

(** ** Every step keeps the invariant *)

Lemma exchange_ok_idle opened e : holds (ex_stage e) = None → (∀ keys, ex_stage e ≠ Acquiring keys) → exchange_ok opened e.
Proof.
  intros Hh Hst. unfold exchange_ok. destruct (ex_stage e) as [keys| | |]; [by destruct (Hst keys)|..];
    intros k c0 Hc; congruence.
Qed.

Lemma exchange_ok_holds opened e key c :
  exchange_ok opened e → holds (ex_stage e) = Some (key, c) →
  opened !! sender c = Some key ∧ key = key_of (ex_identity e) (ex_route e) (protocol_of c).
Proof. unfold exchange_ok. destruct (ex_stage e); [done|..]; auto. Qed.

Lemma exclusive_of_Some st n : exclusive_of st = Some n → ∃ key, holds st = Some (key, Http1Conn n).
Proof. unfold exclusive_of. destruct (holds st) as [[key [m|m]]|]; try done. intros [= ->]. by exists key. Qed.

Lemma candidate_keys_of identity r key :
  key ∈ candidate_keys identity r → ∃ p, key = key_of identity r p.
Proof.
  unfold candidate_keys. destruct (is_secure (rt_origin r)); intros Hin; set_unfold; naive_solver.
Qed.

Section Steps.
Context (config : PoolConfig) (Hconf : config_ok config).
Implicit Types w : World.

Lemma step_probe_ok w e es1 es2 key keys now found pool :
  world_ok config w → w_exchanges w = es1 ++ e :: es2 → ex_stage e = Acquiring (key :: keys) →
  checkout (is_closed w) config key now (w_pool w) = Some (found, pool) →
  world_ok config (with_exchanges (with_pool w pool)
    (es1 ++ with_stage e (match found with Some c => Sending key c | None => Acquiring keys end) :: es2)).
Proof.
  intros Hok Hes Hst Hck.
  destruct (checkout_spec (is_closed w) config key now (w_pool w) (ok_pool _ _ Hok))
    as (found' & pool' & Hck' & Hp & Hout & Hm & Hother).
  rewrite Hck in Hck'. injection Hck' as <- <-.
  pose proof (checked_out_drops _ _ _ _ _ _ _ Hout Hm Hother) as Hdrops.
  pose proof (world_ok_fewer _ _ _ Hok Hp Hdrops) as Hfewer.
  pose proof (ok_exchange _ _ Hok e ltac:(rewrite Hes; set_solver)) as Hexch.
  unfold exchange_ok in Hexch. rewrite Hst in Hexch.
  apply world_ok_stage; [by apply (world_ok_end _ (with_pool w pool) es1 e es2)|..].
  - destruct found as [c|]; cbn.
    + intros k c' [= <- <-]. destruct (checked_out_fresh _ _ _ _ _ _ Hok Hout Hother) as (Ho & Hpr & _).
      split; [done|]. destruct (Hexch key) as [p Hkey]; [apply list_elem_of_here|]. rewrite <- Hpr. by rewrite Hkey.
    + intros k Hk. apply Hexch. by apply list_elem_of_further.
  - intros n Hn. destruct found as [c|]; [|done]. destruct c as [m|m]; [|done]. injection Hn as ->.
    destruct (checked_out_fresh _ _ _ _ _ _ Hok Hout Hother) as (_ & _ & Hfree).
    destruct (Hfree n eq_refl) as (Hx & Hids & Hu). split; [|by split; [|intros]].
    intros Hin. apply Hx. rewrite Hes, elem_of_exclusive_middle. by right.
Qed.

Lemma step_open_ok w e es1 es2 p :
  world_ok config w → w_exchanges w = es1 ++ e :: es2 → ex_stage e = Acquiring [] →
  world_ok config (mk_world (w_pool w) (w_opened w ++ [key_of (ex_identity e) (ex_route e) p]) (w_unread w) (w_closed w)
    (es1 ++ with_stage e (opened_stage (key_of (ex_identity e) (ex_route e) p) (length (w_opened w)) p) :: es2)).
Proof.
  intros Hok Hes Hst. set (key := key_of _ _ p). set (n := length (w_opened w)).
  pose proof (world_ok_open _ _ key Hok) as Hopen. set (w1 := mk_world _ _ _ _ _) in Hopen.
  assert (Hlast : w_opened w1 !! n = Some key) by apply list_lookup_middle, eq_refl.
  apply (world_ok_stage config w1); [by apply (world_ok_end _ w1 es1 e es2)|..].
  - destruct p; cbn; intros k c [= <- <-]; done.
  - intros m Hm. assert (m = n) as -> by (destruct p; cbn in Hm; congruence).
    assert (Hnew : ∀ k, w_opened w !! n ≠ Some k) by (intros k Hk%lookup_lt_Some; unfold n in Hk; lia).
    split; [|split].
    + intros Hin. apply list_elem_of_omap in Hin as (e' & Hin & Hx). cbn in Hx.
      assert (He' : e' ∈ w_exchanges w) by (rewrite Hes; set_solver).
      pose proof (ok_exchange _ _ Hok e' He') as Hexch. apply exclusive_of_Some in Hx as (k & Hk).
      destruct (exchange_ok_holds _ _ _ _ Hexch Hk) as [Ho _]. by apply (Hnew k).
    + intros k Hin. by apply (ok_idle _ _ Hok), proj1, Hnew in Hin.
    + intros _ _ Hin%(ok_unread _ _ Hok). unfold n in Hin. lia.
Qed.

Lemma step_share_ok w e es1 es2 key n now now' now'' pool :
  world_ok config w → w_exchanges w = es1 ++ e :: es2 → ex_stage e = Sharing key n →
  release (is_closed w) config key (Http2Conn n) now now' now'' (w_pool w) = Some pool →
  world_ok config (with_exchanges (with_pool w pool) (es1 ++ with_stage e (Sending key (Http2Conn n)) :: es2)).
Proof.
  intros Hok Hes Hst Hrel.
  pose proof (ok_exchange _ _ Hok e ltac:(rewrite Hes; set_solver)) as Hexch.
  unfold exchange_ok in Hexch. rewrite Hst in Hexch. destruct (Hexch key (Http2Conn n) eq_refl) as [Ho Hkey].
  destruct (release_spec (is_closed w) config key (Http2Conn n) now now' now'' (w_pool w) Hconf (ok_pool _ _ Hok))
    as (pool' & Hrel' & Hp & Hr & _). rewrite Hrel in Hrel'. injection Hrel' as <-.
  assert (Hw : world_ok config (with_pool w pool)).
  { destruct Hr as [Hd|? ? _ _ _ _ _|mx _ _ Hw Hm Hput]; [by apply world_ok_fewer|done|].
    eapply world_ok_register; try done. by rewrite Hkey. }
  apply world_ok_stage; [by apply (world_ok_end _ (with_pool w pool) es1 e es2)|..]; [|done].
  cbn. intros k c [= <- <-]. done.
Qed.

Lemma step_answer_ok w e es1 es2 key n body :
  world_ok config w → w_exchanges w = es1 ++ e :: es2 → ex_stage e = Sending key (Http1Conn n) →
  world_ok config (mk_world (w_pool w) (w_opened w) ({[n]} ∪ w_unread w) (w_closed w)
    (es1 ++ with_stage e (Reading (returning_to_pool body key (Http1Conn n))) :: es2)).
Proof.
  intros Hok Hes Hst.
  pose proof (ok_exchange _ _ Hok e ltac:(rewrite Hes; set_solver)) as Hexch.
  unfold exchange_ok in Hexch. rewrite Hst in Hexch. pose proof (Hexch key (Http1Conn n) eq_refl) as [Ho Hkey].
  assert (Hx : exclusive_of (ex_stage e) = Some n) by (by rewrite Hst).
  assert (Hfree : n ∉ exclusive (es1 ++ es2)).
  { pose proof (ok_exclusive _ _ Hok) as Hn. rewrite Hes, exclusive_middle, Hx in Hn. rewrite exclusive_app.
    apply NoDup_app in Hn as (_ & H1 & [H2 _]%NoDup_cons). set_solver. }
  assert (Hids : ∀ k, n ∉ ids (w_pool w) k).
  { intros k. apply (ok_apart _ _ Hok). rewrite Hes, elem_of_exclusive_middle. by left. }
  pose proof (world_ok_end _ _ _ _ _ Hok Hes) as Hend.
  apply (world_ok_unread _ _ ({[n]} ∪ w_unread w)) in Hend.
  2:{ cbn. intros m [->%elem_of_singleton|Hm]%elem_of_union; [right|by left]. split; [|done].
      by apply lookup_lt_Some in Ho. }
  set (w1 := mk_world (w_pool w) (w_opened w) ({[n]} ∪ w_unread w) (w_closed w) (w_exchanges w)).
  change (world_ok config (with_exchanges w1 (es1 ++ es2))) in Hend.
  change (world_ok config (with_exchanges w1
    (es1 ++ with_stage e (Reading (returning_to_pool body key (Http1Conn n))) :: es2))).
  apply world_ok_stage; [done|..].
  - cbn. intros k c [= <- <-]. done.
  - intros m Hm. injection Hm as <-. done.
Qed.

(** Giving a drained connection back. *)
Lemma slot_release_ok w slot now now' now'' pool :
  world_ok config w →
  (∀ c, sl_connection slot = Some c →
     w_opened w !! sender c = Some (sl_key slot) ∧ k_protocol (sl_key slot) = protocol_of c ∧
     ∀ n, c = Http1Conn n → (n ∉ exclusive (w_exchanges w)) ∧ (∀ key, n ∉ ids (w_pool w) key) ∧ n ∉ w_unread w) →
  slot_release (is_closed w) config slot now now' now'' (w_pool w) = Some pool →
  world_ok config (with_pool w pool).
Proof.
  intros Hok Hslot Hrel. unfold slot_release in Hrel. destruct (sl_connection slot) as [c|].
  2:{ injection Hrel as <-. by apply world_ok_fewer; [|apply (ok_pool _ _ Hok)|]. }
  destruct (Hslot c eq_refl) as (Ho & Hproto & Hfree).
  destruct (release_spec (is_closed w) config (sl_key slot) c now now' now'' (w_pool w) Hconf (ok_pool _ _ Hok))
    as (pool' & Hrel' & Hp & Hr & _). rewrite Hrel in Hrel'. injection Hrel' as <-.
  destruct Hr as [Hd|kept H1 _ Hm Hother Hkept Hkey|mx H2 _ Hw Hm Hput]; [by apply world_ok_fewer| |].
  - destruct c as [n|n]; [|done]. destruct (Hfree n eq_refl) as (? & ? & ?). by eapply world_ok_file.
  - eapply world_ok_register; try done. congruence.
Qed.

Lemma step_poll_ok w e es1 es2 r now now' now'' answer r' pool :
  world_ok config w → w_exchanges w = es1 ++ e :: es2 → ex_stage e = Reading r →
  releasing_poll (is_closed w) config r now now' now'' (w_pool w) = Some (answer, r', pool) →
  world_ok config (mk_world pool (w_opened w) (read_to_end r answer (w_unread w)) (w_closed w)
    (es1 ++ with_stage e (Reading r') :: es2)).
Proof.
  intros Hok Hes Hst Hpoll.
  pose proof (ok_exchange _ _ Hok e ltac:(rewrite Hes; set_solver)) as Hexch.
  assert (Hhold : ∀ slot c, rl_slot r = Some slot → sl_connection slot = Some c → holds (ex_stage e) = Some (sl_key slot, c))
    by (intros slot c Hs Hc; rewrite Hst; cbn; rewrite Hs; cbn; by rewrite Hc).
  assert (Halone : ∀ n key, holds (ex_stage e) = Some (key, Http1Conn n) →
    (n ∉ exclusive (es1 ++ es2)) ∧ ∀ k, n ∉ ids (w_pool w) k).
  { intros n key Hh. assert (Hx : exclusive_of (ex_stage e) = Some n) by (unfold exclusive_of; by rewrite Hh). split.
    - pose proof (ok_exclusive _ _ Hok) as Hn. rewrite Hes, exclusive_middle, Hx in Hn. rewrite exclusive_app.
      apply NoDup_app in Hn as (_ & H1 & [H2 _]%NoDup_cons). set_solver.
    - intros k. apply (ok_apart _ _ Hok). rewrite Hes, elem_of_exclusive_middle. by left. }
  set (w1 := mk_world (w_pool w) (w_opened w) (read_to_end r answer (w_unread w)) (w_closed w) (es1 ++ es2)).
  assert (Hw1 : world_ok config w1).
  { apply (world_ok_unread config (with_exchanges w (es1 ++ es2))); [by eapply world_ok_end|].
    intros n Hn. left. unfold read_to_end in Hn. cbn.
    destruct answer as [|[]], (rl_slot r) as [slot|]; try done. destruct (sl_connection slot); set_solver. }
  unfold releasing_poll in Hpoll. rewrite poll_data_spec in Hpoll. cbn [mbind option_bind] in Hpoll.
  set (a := match (poll_frame (rl_inner r)).1 with Pending => _ | Ready _ => _ end) in Hpoll.
  set (inner := (poll_frame (rl_inner r)).2) in Hpoll.
  assert (Hsame : (answer = Ready None → rl_slot r = None) → pool = w_pool w → (rl_slot r' = rl_slot r ∨ rl_slot r' = None) →
    world_ok config (with_exchanges (with_pool w1 pool) (es1 ++ with_stage e (Reading r') :: es2))).
  { intros Hend -> Hslot. apply world_ok_stage; [done| |].
    - intros key c Hh. apply (exchange_ok_holds _ _ _ _ Hexch). rewrite Hst. cbn in *. by destruct Hslot as [<-|Hx]; [|rewrite Hx in Hh].
    - intros n Hn. apply exclusive_of_Some in Hn as (key & Hn).
      assert (Hh : holds (ex_stage e) = Some (key, Http1Conn n)).
      { rewrite Hst. cbn in *. by destruct Hslot as [<-|Hx]; [|rewrite Hx in Hn]. }
      destruct (Halone n key Hh) as [? ?]. done. }
  destruct a as [|[[chunk|error]|]].
  - injection Hpoll as <- <- <-. apply Hsame; [done|done|by left].
  - injection Hpoll as <- <- <-. apply Hsame; [done|done|by left].
  - injection Hpoll as <- <- <-. apply Hsame; [done|done|by right].
  - destruct (rl_slot r) as [slot|] eqn:Hs; [|injection Hpoll as <- <- <-; apply Hsame; [done|done|by right]].
    destruct (slot_release _ _ _ _ _ _ _) as [pool'|] eqn:Hrel; [|done]. cbn [mbind option_bind] in Hpoll.
    injection Hpoll as <- <- <-.
    apply (world_ok_stage config (with_pool w1 pool')); [|by intros ? ?|done].
    change (world_ok config (with_pool w1 pool')). eapply slot_release_ok; [exact Hw1| |exact Hrel].
    intros c Hc. pose proof (Hhold slot c eq_refl Hc) as Hh.
    destruct (exchange_ok_holds _ _ _ _ Hexch Hh) as [Ho Hkey]. split; [done|]. split; [by rewrite Hkey|].
    intros n ->. destruct (Halone n _ Hh) as [? ?]. split; [done|]. split; [done|]. cbn.
    unfold read_to_end. rewrite Hs, Hc. cbn. set_solver.
Qed.

Lemma exchange_step_ok w w' : world_ok config w → step config w w' → world_ok config w'.
Proof.
  intros Hok Hstep. destruct Hstep as
    [identity r|e es1 es2 key keys now found pool Hes Hst Hck|e es1 es2 alpn Hes Hst p key
    |e es1 es2 key n now now' now'' pool Hes Hst Hrel|e es1 es2 key c body Hes Hst
    |e es1 es2 r now now' now'' answer r' pool Hes Hst Hpoll|e es1 es2 Hes|n|].
  - apply (world_ok_stage config w [] (w_exchanges w)); [by destruct w| |done].
    intros key. apply candidate_keys_of.
  - by eapply step_probe_ok.
  - by apply step_open_ok.
  - by eapply step_share_ok.
  - destruct c as [n|n]; [by apply (step_answer_ok w e es1 es2 key n)|by eapply world_ok_end].
  - by eapply step_poll_ok.
  - by eapply world_ok_end.
  - by destruct Hok.
  - apply world_ok_fewer; [done|apply clear_ok; done|]. split; [|apply map_empty_subseteq].
    intros key. unfold waiting. cbn [clear idle]. rewrite lookup_empty. apply sublist_nil_l.
Qed.

Lemma exchanges_reachable_ok w : reachable config w → world_ok config w.
Proof.
  induction 1 as [now|w w' _ IH Hstep]; [|by eapply exchange_step_ok].
  assert (Hnone : ∀ key, ids (new_pool now) key = []).
  { intros key. unfold ids, waiting. cbn [new_pool idle]. by rewrite lookup_empty. }
  split; cbn [start w_pool w_opened w_unread w_closed w_exchanges].
  - by apply new_pool_ok.
  - by intros e ?%elem_of_nil.
  - intros key n. rewrite Hnone. by intros ?%elem_of_nil.
  - intros key c. cbn [new_pool multiplexed]. by rewrite lookup_empty.
  - intros key. rewrite Hnone. apply NoDup_nil_2.
  - apply NoDup_nil_2.
  - by intros n key ?%elem_of_nil.
  - set_solver.
  - by intros e key n ?%elem_of_nil.
Qed.
End Steps.

Lemma NoDup_omap_once {A B} (f : A → option B) l i j a b x :
  NoDup (omap f l) → l !! i = Some a → l !! j = Some b → f a = Some x → f b = Some x → i = j.
Proof.
  revert i j. induction l as [|c l IH]; intros i j Hn Hi Hj Ha Hb; [done|]. cbn in Hn.
  assert (Hin : ∀ k d, l !! k = Some d → f d = Some x → x ∈ omap f l)
    by (intros k d Hk Hd; apply list_elem_of_omap; exists d; split; [by eapply list_elem_of_lookup_2|done]).
  destruct i as [|i], j as [|j]; cbn in Hi, Hj; simplify_eq; [done|..].
  - rewrite Ha in Hn. apply NoDup_cons in Hn as [Hx _]. by destruct (Hx (Hin j b Hj Hb)).
  - rewrite Hb in Hn. apply NoDup_cons in Hn as [Hx _]. by destruct (Hx (Hin i a Hi Ha)).
  - f_equal. apply (IH i j); try done. destruct (f c); [by apply NoDup_cons in Hn as [_ ?]|done].
Qed.

(** C6. Requests never meet on a connection they should not share, however they
    interleave: a connection an exchange uses was opened for exactly its scheme, host,
    port, exit, profile identity and protocol; an HTTP/1.1 connection is used by one
    exchange at a time and is not in the pool meanwhile; and a connection waiting in
    the pool, or one a request is about to be sent on, has no part of an earlier
    response left on it - a body that failed or was abandoned takes its connection
    with it. *)
Theorem exchanges_never_cross config w :
  config_ok config → reachable config w →
  (∀ e key c, e ∈ w_exchanges w → holds (ex_stage e) = Some (key, c) →
     key = key_of (ex_identity e) (ex_route e) (protocol_of c) ∧ w_opened w !! sender c = Some key) ∧
  (∀ i j e e' key key' n, w_exchanges w !! i = Some e → w_exchanges w !! j = Some e' →
     holds (ex_stage e) = Some (key, Http1Conn n) → holds (ex_stage e') = Some (key', Http1Conn n) → i = j) ∧
  (∀ key x, x ∈ waiting (w_pool w) key →
     (sender (idle_connection x) ∉ w_unread w) ∧
     ∀ e key', e ∈ w_exchanges w → holds (ex_stage e) ≠ Some (key', idle_connection x)) ∧
  (∀ e key n, e ∈ w_exchanges w → ex_stage e = Sending key (Http1Conn n) → n ∉ w_unread w) ∧
  pool_ok config (w_pool w).
Proof.
  intros Hconf Hreach. pose proof (exchanges_reachable_ok config Hconf w Hreach) as Hok.
  assert (Hx : ∀ st key n, holds st = Some (key, Http1Conn n) → exclusive_of st = Some n)
    by (intros st key n Hh; unfold exclusive_of; by rewrite Hh).
  split; [|split; [|split; [|split]]].
  - intros e key c Hin Hh. destruct (exchange_ok_holds _ _ _ _ (ok_exchange _ _ Hok e Hin) Hh). done.
  - intros i j e e' key key' n Hi Hj Hh Hh'.
    apply (NoDup_omap_once _ _ _ _ _ _ n (ok_exclusive _ _ Hok) Hi Hj); by eapply Hx.
  - intros key x Hin. assert (Hids : sender (idle_connection x) ∈ ids (w_pool w) key) by (apply elem_of_ids; by exists x).
    split; [by apply (ok_idle _ _ Hok key)|]. intros e key' He Hh.
    pose proof (pk_http1 _ _ (ok_pool _ _ Hok) key x Hin) as Hp. destruct (idle_connection x) as [n|n]; [|done].
    apply (ok_apart _ _ Hok n key); [|done]. apply list_elem_of_omap. exists e. split; [done|]. by eapply Hx.
  - apply (ok_clean _ _ Hok).
  - apply Hok.
Qed.

Definition demo_route : Route := mk_route (mk_origin b#"http" b#"a.example" 80) None.
Definition demo_identity : ConnectionIdentity := mk_identity b#"t13d|1:2|ua" 7.

Lemma exchanges_never_cross_witness :
  ∃ w, reachable default_pool_config w ∧
    holds <$> (ex_stage <$> w_exchanges w) = [Some (key_of demo_identity demo_route Http11, Http1Conn 0)] ∧
    w_opened w !! 0%nat = Some (key_of demo_identity demo_route Http11).
Proof.
  set (key := key_of demo_identity demo_route Http11).
  set (e st := mk_exchange demo_identity demo_route st).
  set (w1 := with_exchanges (start 0) [e (Acquiring [key])]).
  set (w2 := with_exchanges w1 [e (Acquiring [])]).
  set (w3 := mk_world (w_pool w2) [key] ∅ ∅ [e (Sending key (Http1Conn 0))]).
  assert (Hr : reachable default_pool_config w3).
  { apply (Reach_step _ w2); [apply (Reach_step _ w1); [apply (Reach_step _ (start 0)); [apply Reach_start|]|]|].
    - apply (Step_begin _ (start 0) demo_identity demo_route).
    - apply (Step_probe _ w1 (e (Acquiring [key])) [] [] key [] 0 None (w_pool w1)); reflexivity.
    - apply (Step_open _ w2 (e (Acquiring [])) [] [] None); reflexivity. }
  assert (Hc : config_ok default_pool_config) by (split; vm_compute; congruence).
  destruct (exchanges_never_cross _ _ Hc Hr) as (Hown & _).
  exists w3. split; [exact Hr|]. split; [reflexivity|].
  apply (Hown (e (Sending key (Http1Conn 0))) key (Http1Conn 0)); [apply list_elem_of_here|reflexivity].
Defined.
