(* ===== verification/CoreError.v ===== *)
(** [chromulate-core]: the error hierarchy (src/crates/chromulate-core/src/error.rs).

    A variant keeps what the sources branch on; message texts and boxed causes,
    which are only displayed, are left out. *)
From S2P Require Import Prelude.
Local Open Scope Z_scope.

Inductive Phase := Build | Resolving | Connecting | Handshake | Send | AwaitResponse | ReceiveBody.

#[export] Instance Phase_eq_dec : EqDecision Phase.
Proof. solve_decision. Defined.

Inductive Error :=
  | Builder | InvalidUrl | UnsupportedScheme
  | Resolve (host : str) | Connect (target : str) | Proxy (proxy : str) | Tls (target : str)
  | Protocol | Timeout (phase : Phase)
  | TooManyRedirects (limit : Z) | Redirect
  | BodyFailed (phase : Phase) | Decode | BodyExceeds (limit : Z)
  | Middleware (name : str) | Shutdown | Config.

#[export] Instance Error_eq_dec : EqDecision Error.
Proof. solve_decision. Defined.

Definition is_retryable (e : Error) : bool :=
  match e with
  | Resolve _ | Connect _ => true
  | Tls _ => false
  | Timeout phase =>
      match phase with Resolving | Connecting | Handshake | AwaitResponse => true | _ => false end
  | Proxy _ => true
  | Protocol => false
  | BodyFailed _ => false
  | _ => false
  end.

Definition is_timeout (e : Error) : bool := match e with Timeout _ => true | _ => false end.

Definition is_tls (e : Error) : bool := match e with Tls _ => true | _ => false end.

Definition is_user_error (e : Error) : bool :=
  match e with Builder | InvalidUrl | UnsupportedScheme | Config => true | _ => false end.

Definition phase_of (e : Error) : option Phase :=
  match e with
  | Builder | InvalidUrl | UnsupportedScheme | Config => Some Build
  | Resolve _ => Some Resolving
  | Connect _ | Proxy _ => Some Connecting
  | Tls _ => Some Handshake
  | Timeout phase => Some phase
  | BodyFailed phase => Some phase
  | Decode | BodyExceeds _ => Some ReceiveBody
  | _ => None
  end.

(** Retrying is only ever considered before the body is on its way: no error of
    the [Send] or [ReceiveBody] phase is retryable, nor one the caller caused. *)
Lemma retryable_phase e :
  is_retryable e = true →
  is_user_error e = false ∧
  ∃ p, phase_of e = Some p ∧ p ∈ [Resolving; Connecting; Handshake; AwaitResponse].
Proof. destruct e as [| | | | | | | |[]| | | | | | | |]; simpl; try done; intros _; (split; [done|]); set_solver. Qed.
