(* ===== verification/Connect.v ===== *)
(** [chromulate-http] and [chromulate-core]: the deadline of a request, the opening of a
    connection under it, and where the time of a request went
    (src/crates/chromulate-http/src/deadline.rs and connect.rs,
    src/crates/chromulate-core/src/timings.rs, and the time of [hop] and [run] in
    src/crates/chromulate-http/src/engine.rs).

    What a future does is when it completes, given when it starts, and with what; or that
    it never does.  Code between two awaits takes no time.  [tokio::time::timeout] polls
    the future before its timer; when the timer fires for a wait that starts at an instant
    is a parameter, which may be late.  The resolver, the proxy, the sockets, TLS and
    hyper are futures of this kind. *)
From S2P Require Import Prelude RustStr RustTime Origin Pool Exchange CoreError.
Local Open Scope Z_scope.

(** ** Deadlines *)

Definition Timed (A : Type) : Type := SystemTime → option (SystemTime * (A + Error)).

Record Deadline := mk_deadline { d_at : option SystemTime }.

Definition starting_now (total : option Duration) (now : SystemTime) : Deadline :=
  mk_deadline (total ← total; checked_add now total).

Definition remaining (d : Deadline) (now : SystemTime) : option Duration :=
  (λ at_, since_or_zero at_ now) <$> d_at d.

Definition deadline_expired (d : Deadline) (now : SystemTime) : bool := bool_decide (remaining d now = Some 0).

Definition check_deadline (d : Deadline) (phase : Phase) (now : SystemTime) : unit + Error :=
  if deadline_expired d now then inr (Timeout phase) else inl tt.

Definition phase_limit (remaining cap : option Duration) : option Duration :=
  match remaining, cap with
  | Some remaining, Some cap => Some (Z.min remaining cap)
  | Some remaining, None => Some remaining
  | None, cap => cap
  end.

Section Timer.
Context (fires : SystemTime → Duration → SystemTime).

(** [tokio::time::timeout], with [None] for [Elapsed]. *)
Definition timeout {A} (limit : Duration) (future : Timed A) (now : SystemTime) : SystemTime * option (A + Error) :=
  let alarm := fires now limit in
  match future now with
  | Some (t, result) => if t <=? alarm then (t, Some result) else (alarm, None)
  | None => (alarm, None)
  end.

(** [Deadline::run]. *)
Definition run_under {A} (d : Deadline) (phase : Phase) (cap : option Duration) (future : Timed A) : Timed A := λ now,
  match phase_limit (remaining d now) cap with
  | None => future now
  | Some limit =>
      if decide (limit = 0) then Some (now, inr (Timeout phase))
      else match timeout limit future now with
           | (t, Some result) => Some (t, result)
           | (t, None) => Some (t, inr (Timeout phase))
           end
  end.
End Timer.

(** ** Timings *)

Record Timings := mk_timings {
  tm_started : SystemTime;
  tm_redirect : Duration;
  tm_resolve : option Duration;
  tm_connect : option Duration;
  tm_handshake : option Duration;
  tm_head : Duration;
}.

Definition timings_now (now : SystemTime) : Timings := mk_timings now 0 None None None 0.
Definition elapsed (now : SystemTime) (t : Timings) : Duration := since_or_zero now (tm_started t).
Definition record_hop_start (now : SystemTime) (t : Timings) : Timings :=
  mk_timings (tm_started t) (elapsed now t) None None None (tm_head t).
Definition record_resolve (d : Duration) (t : Timings) : Timings :=
  mk_timings (tm_started t) (tm_redirect t) (Some d) (tm_connect t) (tm_handshake t) (tm_head t).
Definition record_connect (d : Duration) (t : Timings) : Timings :=
  mk_timings (tm_started t) (tm_redirect t) (tm_resolve t) (Some d) (tm_handshake t) (tm_head t).
Definition record_handshake (d : Duration) (t : Timings) : Timings :=
  mk_timings (tm_started t) (tm_redirect t) (tm_resolve t) (tm_connect t) (Some d) (tm_head t).
Definition record_head (now : SystemTime) (t : Timings) : Timings :=
  mk_timings (tm_started t) (tm_redirect t) (tm_resolve t) (tm_connect t) (tm_handshake t) (elapsed now t).

(** ** Asynchronous code that times itself *)

Definition Task (A : Type) : Type := SystemTime → Timings → option (SystemTime * Timings * (A + Error)).

Definition task_ret {A} (a : A) : Task A := λ now tm, Some (now, tm, inl a).
Definition task_bind {A B} (m : Task A) (k : A → Task B) : Task B := λ now tm,
  match m now tm with
  | Some (now, tm, inl a) => k a now tm
  | Some (now, tm, inr e) => Some (now, tm, inr e)
  | None => None
  end.
Definition await {A} (future : Timed A) : Task A := λ now tm,
  match future now with Some (now, r) => Some (now, tm, r) | None => None end.
Definition task_of {A} (r : A + Error) : Task A := λ now tm, Some (now, tm, r).
Definition clock : Task SystemTime := λ now tm, Some (now, tm, inl now).
Definition note (edit : SystemTime → Timings → Timings) : Task unit := λ now tm, Some (now, edit now tm, inl tt).

Declare Scope task_scope.
Delimit Scope task_scope with task.
Notation "x <-! m ; k" := (task_bind m (λ x, k)) (at level 100, m at next level, right associativity) : task_scope.
Local Open Scope task_scope.

(** ** Connecting *)

Section Connector.
Context (fires : SystemTime → Duration → SystemTime).
Context {Px Address Socket Tls : Type}.

(** What a connector reaches. *)
Record Net := mk_net {
  n_proxy_connect : Px → str * Z → Duration → Timed Socket;
  n_resolve : str * Z → Timed (list Address);
  n_tcp_connect : Address → Timed Socket;
  n_server_name : str → str + Error;
  n_tls_connect : Socket → str → Timed (Tls * option Pool.Protocol);
  n_protocol_handshake : Socket + Tls → Pool.Protocol → Origin → Timed Connection;
}.

Record Connector := mk_connector {
  cn_identity : ConnectionIdentity;
  cn_connect_timeout : option Duration;
}.

Definition DEFAULT_PROXY_BUDGET : Duration := from_secs 30.

(** [Connector::route], of what the provider gave: a proxy this host bypasses is none. *)
Definition connector_route (bypasses : Px → str → bool) (label : Px → str) (origin : Origin) (next : option Px)
    : Route * option Px :=
  let proxy := match next with Some p => if bypasses p (o_host origin) then None else Some p | None => None end in
  (mk_route origin (label <$> proxy), proxy).

(** [dial]: each address in turn, keeping the last failure to report. *)
Fixpoint dial_each (net : Net) (addresses : list Address) (target : str) : Timed Socket := λ now,
  match addresses with
  | [] => Some (now, inr (CoreError.Connect target))
  | address :: addresses =>
      match n_tcp_connect net address now with
      | Some (now, inl socket) => Some (now, inl socket)
      | Some (now, inr _) => dial_each net addresses target now
      | None => None
      end
  end.

Definition show_target (target : str * Z) : str := target.1 ++ b#":" ++ show_u16 target.2.

(** The three parts of [Connector::connect]: the transport, *)
Definition open_stream (net : Net) (c : Connector) (route : Route * option Px) (d : Deadline) : Task Socket :=
  let target := (o_host (rt_origin route.1), o_port (rt_origin route.1)) in
  let cap := cn_connect_timeout c in
  match route.2 with
  | Some proxy =>
      started <-! clock;
      let budget := default DEFAULT_PROXY_BUDGET (phase_limit cap (remaining d started)) in
      stream <-! await (run_under fires d Connecting cap (n_proxy_connect net proxy target budget));
      _ <-! note (λ now, record_connect (since_or_zero now started));
      task_ret stream
  | None =>
      started <-! clock;
      addresses <-! await (run_under fires d Resolving cap (n_resolve net target));
      resolved <-! clock;
      _ <-! note (λ _, record_resolve (since_or_zero resolved started));
      stream <-! await (run_under fires d Connecting cap (dial_each net addresses (show_target target)));
      _ <-! note (λ now, record_connect (since_or_zero now resolved));
      task_ret stream
  end.

(** TLS with the ALPN it settled on, [h2] or anything else, *)
Definition secure_stream (net : Net) (c : Connector) (origin : Origin) (d : Deadline) (stream : Socket)
    : Task ((Socket + Tls) * option Pool.Protocol) :=
  if is_secure origin then
    started <-! clock;
    name <-! task_of (n_server_name net (o_host origin));
    secured <-! await (run_under fires d Handshake (cn_connect_timeout c) (n_tls_connect net stream name));
    _ <-! note (λ now, record_handshake (since_or_zero now started));
    task_ret (inr secured.1, secured.2)
  else task_ret (inl stream, None).

(** and the protocol. *)
Definition connect (net : Net) (c : Connector) (route : Route * option Px) (d : Deadline) : Task (PoolKey * Connection) :=
  let origin := rt_origin route.1 in
  stream <-! open_stream net c route d;
  secured <-! secure_stream net c origin d stream;
  let protocol := negotiated route.1 secured.2 in
  connection <-! await
    (run_under fires d Handshake (cn_connect_timeout c) (n_protocol_handshake net secured.1 protocol origin));
  task_ret (key_of (cn_identity c) route.1 protocol, connection).

(** ** One hop, as far as it takes time *)

(** [Engine::hop], with what [acquire] found in the pool. *)
Definition hop_timed {R} (net : Net) (c : Connector) (route : Route * option Px) (d : Deadline)
    (head_timeout : option Duration) (pooled : option (PoolKey * Connection)) (send : PoolKey * Connection → Timed R) : Task R :=
  _ <-! note record_hop_start;
  now <-! clock;
  _ <-! task_of (check_deadline d Connecting now);
  connection <-! (match pooled with Some connection => task_ret connection | None => connect net c route d end);
  response <-! await (run_under fires d AwaitResponse head_timeout (send connection));
  _ <-! note record_head;
  task_ret response.

(** The part of [Engine::run] around one hop: a response from the cache is not a hop, and
    a response that is followed is drained. *)
Definition hop_or_cache {R} (cached : option R) (hop : Task R) (drained : option (R → Timed unit)) : Task R :=
  response <-! (match cached with Some response => task_ret response | None => hop end);
  _ <-! (match drained with Some drain => await (drain response) | None => task_ret tt end);
  task_ret response.

(** ** Time *)

(** A future that completes does so after it started. *)
Definition onward {A} (future : Timed A) : Prop := ∀ now t r, future now = Some (t, r) → now <= t.

Record net_onward (net : Net) : Prop := {
  proxy_onward p target budget : onward (n_proxy_connect net p target budget);
  resolve_onward target : onward (n_resolve net target);
  tcp_onward a : onward (n_tcp_connect net a);
  tls_onward s n : onward (n_tls_connect net s n);
  handshake_onward s p o : onward (n_protocol_handshake net s p o);
}.

(** The timer fires at most [slack] late; it may fire early, as it does for a wait that
    the clock cannot represent the end of. *)
Context (slack : Duration).
Definition timer_ok : Prop := 0 <= slack ∧ ∀ now l, 0 <= l → now <= fires now l <= now + l + slack.

Lemma dial_onward net addresses target : net_onward net → onward (dial_each net addresses target).
Proof.
  intros Hnet. induction addresses as [|a addresses IH]; intros now t r; cbn; [by intros [= <- _]|].
  destruct (n_tcp_connect net a now) as [[u [s|e]]|] eqn:Ha; [| |done]; apply (tcp_onward _ Hnet) in Ha.
  - by intros [= <- _].
  - intros Hd. apply IH in Hd. lia.
Qed.

(** What a phase does: it ends with what its future ends with, when that is in time, and
    otherwise with a timeout that names it. *)
Lemma run_under_spec {A} d phase cap (future : Timed A) now t r :
  run_under fires d phase cap future now = Some (t, r) → future now = Some (t, r) ∨ r = inr (Timeout phase).
Proof.
  unfold run_under, timeout. destruct (phase_limit _ _) as [l|]; [|by left].
  destruct (decide (l = 0)); [intros [= <- <-]; by right|].
  destruct (future now) as [[u s]|]; [|intros [= <- <-]; by right].
  destruct (u <=? _); intros [= <- <-]; auto.
Qed.

Lemma run_under_onward {A} d phase cap (future : Timed A) :
  timer_ok → (∀ c, cap = Some c → 0 <= c) → onward future → onward (run_under fires d phase cap future).
Proof.
  intros [Hs Ht] Hcap Hf now t r. unfold run_under, timeout.
  destruct (phase_limit (remaining d now) cap) as [l|] eqn:Hl; [|apply Hf].
  assert (Hl0 : 0 <= l).
  { unfold phase_limit, remaining in Hl. destruct (d_at d) as [D|]; cbn in Hl; [pose proof (since_or_zero_spec D now)|];
      destruct cap as [c|]; try specialize (Hcap c eq_refl); simplify_eq; lia. }
  specialize (Ht now l Hl0). destruct (decide (l = 0)); [intros [= <- _]; lia|].
  destruct (future now) as [[u s]|] eqn:Hu; [|intros [= <- _]; lia]. apply Hf in Hu.
  destruct (u <=? _); intros [= <- _]; lia.
Qed.

(** Everything ends, by a bound [B k] where [k] counts the phases. *)
Section Ending.
Context (B : nat → SystemTime → SystemTime → Prop).

Definition ends {A} (k : nat) (m : Task A) : Prop := ∀ now tm, ∃ t tm' r, m now tm = Some (t, tm', r) ∧ B k now t.

Record bound_ok : Prop := {
  bound_refl now : B 0 now now;
  bound_trans j k now t u : B j now t → B k t u → B (j + k) now u;
  bound_mono j k now t : (j <= k)%nat → B j now t → B k now t;
}.

Context (HB : bound_ok).

Lemma ends_ret {A} (a : A) : ends 0 (task_ret a).
Proof using HB. intros now tm. exists now, tm, (inl a). split; [done|]. by apply bound_refl. Qed.

Lemma ends_clock : ends 0 clock.
Proof using HB. intros now tm. exists now, tm, (inl now). split; [done|]. by apply bound_refl. Qed.

Lemma ends_note edit : ends 0 (note edit).
Proof using HB. intros now tm. exists now, (edit now tm), (inl tt). split; [done|]. by apply bound_refl. Qed.

Lemma ends_task_of {A} (r : A + Error) : ends 0 (task_of r).
Proof using HB. intros now tm. exists now, tm, r. split; [done|]. by apply bound_refl. Qed.

Lemma ends_bind {A C} j k (m : Task A) (f : A → Task C) : ends j m → (∀ a, ends k (f a)) → ends (j + k) (task_bind m f).
Proof using HB.
  intros Hm Hf now tm. unfold task_bind. destruct (Hm now tm) as (t & tm' & r & -> & Ht). destruct r as [a|e].
  - destruct (Hf a t tm') as (u & tm2 & r & -> & Hu). exists u, tm2, r. split; [done|]. by eapply bound_trans.
  - exists t, tm', (inr e). split; [done|]. eapply bound_mono; [done| |exact Ht]. lia.
Qed.

Lemma ends_mono {A} j k (m : Task A) : (j <= k)%nat → ends j m → ends k m.
Proof using HB. intros Hjk Hm now tm. destruct (Hm now tm) as (t & tm' & r & ? & ?). exists t, tm', r. split; [done|]. by eapply bound_mono. Qed.

Context (net : Net) (c : Connector) (d : Deadline).
Context (Hnet : net_onward net).
Context (Hphase : ∀ (A : Type) phase (future : Timed A),
  onward future → ends 1 (await (run_under fires d phase (cn_connect_timeout c) future))).

Lemma connect_ends route : ends 4 (connect net c route d).
Proof using HB Hnet Hphase.
  destruct Hnet as [Hproxy Hresolve Htcp Htls Hhandshake]. unfold connect.
  apply (ends_bind 2 2).
  - unfold open_stream. destruct route.2 as [proxy|].
    + apply (ends_mono 1); [lia|]. apply (ends_bind 0 1); [apply ends_clock|]. intros started.
      apply (ends_bind 1 0); [by apply Hphase|]. intros stream. apply (ends_bind 0 0); [apply ends_note|]. intros _. apply ends_ret.
    + apply (ends_bind 0 2); [apply ends_clock|]. intros started. apply (ends_bind 1 1); [by apply Hphase|]. intros addresses.
      apply (ends_bind 0 1); [apply ends_clock|]. intros resolved. apply (ends_bind 0 1); [apply ends_note|]. intros _.
      apply (ends_bind 1 0); [by apply Hphase, dial_onward|]. intros stream.
      apply (ends_bind 0 0); [apply ends_note|]. intros _. apply ends_ret.
  - intros stream. apply (ends_bind 1 1).
    + unfold secure_stream. destruct (is_secure _); [|apply (ends_mono 0); [lia|apply ends_ret]].
      apply (ends_bind 0 1); [apply ends_clock|]. intros started. apply (ends_bind 0 1); [apply ends_task_of|]. intros name.
      apply (ends_bind 1 0); [by apply Hphase|]. intros secured. apply (ends_bind 0 0); [apply ends_note|]. intros _. apply ends_ret.
    + intros secured. apply (ends_bind 1 0); [by apply Hphase|]. intros connection. apply ends_ret.
Qed.
End Ending.

(** With a deadline everything ends by it, with a connect timeout in so many of them. *)
Definition by_deadline (D : SystemTime) (_ : nat) (now t : SystemTime) : Prop := now <= t <= Z.max now (D + slack).
Definition in_phases (u : Duration) (k : nat) (now t : SystemTime) : Prop := now <= t <= now + Z.of_nat k * u.

Lemma by_deadline_ok D : bound_ok (by_deadline D).
Proof. unfold by_deadline. split; intros; lia. Qed.

Lemma in_phases_ok u : 0 <= u → bound_ok (in_phases u).
Proof. intros Hu. unfold in_phases. split; intros; [lia|rewrite Nat2Z.inj_add; lia|nia]. Qed.

Lemma run_under_limited {A} d phase cap (future : Timed A) now l :
  timer_ok → onward future → phase_limit (remaining d now) cap = Some l → 0 <= l →
  ∃ t r, run_under fires d phase cap future now = Some (t, r) ∧ now <= t <= now + (if decide (l = 0) then 0 else l + slack).
Proof.
  intros [Hs Ht] Hf Hl Hl0. unfold run_under, timeout. rewrite Hl. specialize (Ht now l Hl0).
  destruct (decide (l = 0)) as [_|_]; [eexists _, _; split; [done|lia]|].
  destruct (future now) as [[u s]|] eqn:Hu; [|eexists _, _; split; [done|lia]].
  apply Hf in Hu. destruct (Z.leb_spec u (fires now l)); eexists _, _; (split; [done|lia]).
Qed.

Lemma phase_by_deadline {A} d D phase cap (future : Timed A) k :
  timer_ok → (∀ c, cap = Some c → 0 <= c) → d_at d = Some D → onward future →
  ends (by_deadline D) k (await (run_under fires d phase cap future)).
Proof.
  intros Ht Hcap Hd Hf now tm. unfold await, by_deadline. pose proof (since_or_zero_spec D now) as Hsince.
  destruct (phase_limit (remaining d now) cap) as [l|] eqn:Hl; [|unfold phase_limit, remaining in Hl; rewrite Hd in Hl; cbn in Hl; by destruct cap].
  assert (Hl0 : 0 <= l <= since_or_zero D now).
  { unfold phase_limit, remaining in Hl. rewrite Hd in Hl. cbn in Hl. destruct cap as [c|]; [specialize (Hcap c eq_refl)|]; simplify_eq; lia. }
  destruct (run_under_limited d phase cap future now l Ht Hf Hl ltac:(lia)) as (t & r & -> & Hr).
  exists t, tm, r. split; [done|]. destruct Ht as [Hs _]. destruct (decide (l = 0)); lia.
Qed.

Lemma phase_in_phases {A} d cap c phase (future : Timed A) :
  timer_ok → cap = Some c → 0 <= c → onward future →
  ends (in_phases (c + slack)) 1 (await (run_under fires d phase cap future)).
Proof.
  intros Ht -> Hc Hf now tm. unfold await, in_phases.
  assert (Hl : ∃ l, phase_limit (remaining d now) (Some c) = Some l ∧ 0 <= l <= c).
  { unfold remaining. destruct (d_at d) as [D|]; cbn; [pose proof (since_or_zero_spec D now); eexists; split; [done|lia]|eexists; split; [done|lia]]. }
  destruct Hl as (l & Hl & Hl0).
  destruct (run_under_limited d phase (Some c) future now l Ht Hf Hl ltac:(lia)) as (t & r & -> & Hr).
  exists t, tm, r. split; [done|]. destruct Ht as [Hs _]. destruct (decide (l = 0)); lia.
Qed.

(** C7. Opening a connection ends, whatever the resolver, the proxy, the addresses, TLS
    and the server do or leave undone: under a deadline not later than the timer may
    after it, and under a connect timeout within four of them - resolving, dialling all
    the addresses, TLS, the protocol - however many addresses there are. *)
Theorem connect_is_bounded net c d route now tm :
  timer_ok → net_onward net → (∀ u, cn_connect_timeout c = Some u → 0 <= u) →
  (∀ D, d_at d = Some D →
    ∃ t tm' r, connect net c route d now tm = Some (t, tm', r) ∧ now <= t <= Z.max now (D + slack)) ∧
  (∀ u, cn_connect_timeout c = Some u →
    ∃ t tm' r, connect net c route d now tm = Some (t, tm', r) ∧ now <= t <= now + 4 * (u + slack)).
Proof.
  intros Ht Hnet Hcap. split.
  - intros D Hd. apply (connect_ends (by_deadline D)); [apply by_deadline_ok|done|].
    intros A phase future Hf. by apply phase_by_deadline.
  - intros u Hu. pose proof (Hcap u Hu) as Hu0.
    apply (connect_ends (in_phases (u + slack))); [apply in_phases_ok; destruct Ht; lia|done|].
    intros A phase future Hf. rewrite Hu. by apply phase_in_phases.
Qed.

(** ** What the timings say *)

Lemma bind_inv {A B} (m : Task A) (k : A → Task B) now tm t tm' b :
  task_bind m k now tm = Some (t, tm', inl b) → ∃ u tmu a, m now tm = Some (u, tmu, inl a) ∧ k a u tmu = Some (t, tm', inl b).
Proof. unfold task_bind. destruct (m now tm) as [[[u tmu] [a|e]]|]; [|done|done]. eauto. Qed.

Lemma await_inv {A} (future : Timed A) now tm t tm' a :
  await future now tm = Some (t, tm', inl a) → future now = Some (t, inl a) ∧ tm' = tm.
Proof. unfold await. destruct (future now) as [[u r]|]; [|done]. by intros [= -> <- ->]. Qed.

Ltac step_task H :=
  let u := fresh "u" in let tmu := fresh "tmu" in let a := fresh "a" in let Ha := fresh "Ha" in
  apply bind_inv in H as (u & tmu & a & Ha & H);
  first [ injection Ha as <- <- <- | apply await_inv in Ha as [Ha ->] | idtac ].

(** The connection phases a hop has recorded, and all of them together. *)
Definition phases_total (tm : Timings) : Duration :=
  default 0 (tm_resolve tm) + default 0 (tm_connect tm) + default 0 (tm_handshake tm).

Definition same_bounds (a b : Timings) : Prop :=
  tm_started a = tm_started b ∧ tm_redirect a = tm_redirect b ∧ tm_head a = tm_head b.

Section Spent.
Context (net : Net) (c : Connector) (d : Deadline).
Context (Htimer : timer_ok) (Hnet : net_onward net) (Hcap : ∀ u, cn_connect_timeout c = Some u → 0 <= u).

(** Nothing recorded yet, as after the start of a hop. *)
Definition fresh (tm : Timings) : Prop := tm_resolve tm = None ∧ tm_connect tm = None ∧ tm_handshake tm = None.

Lemma open_stream_timings route now tm t tm' s :
  fresh tm → open_stream net c route d now tm = Some (t, tm', inl s) →
  same_bounds tm tm' ∧ now <= t ∧ tm_handshake tm' = None ∧ 0 <= phases_total tm' <= t - now ∧
  (is_Some (tm_resolve tm') ↔ route.2 = None) ∧ is_Some (tm_connect tm').
Proof using Htimer Hnet Hcap.
  intros (Hr & Hc & Hh). unfold open_stream, phases_total. destruct route.2 as [proxy|]; intros Hrun.
  - step_task Hrun. step_task Hrun. step_task Hrun. injection Hrun as <- <- <-.
    apply run_under_onward in Ha; [|done|done|by apply proxy_onward].
    cbn. rewrite Hr, Hh, since_or_zero_spec. cbn. split_and!; try done; try lia; naive_solver eauto.
  - step_task Hrun. step_task Hrun. step_task Hrun. step_task Hrun. step_task Hrun. step_task Hrun. injection Hrun as <- <- <-.
    apply run_under_onward in Ha; [|done|done|by apply resolve_onward].
    apply run_under_onward in Ha0; [|done|done|by apply dial_onward].
    cbn. rewrite Hh, !since_or_zero_spec. cbn. split_and!; try done; try lia; naive_solver eauto.
Qed.

Lemma secure_stream_timings origin stream now tm t tm' s :
  tm_handshake tm = None → secure_stream net c origin d stream now tm = Some (t, tm', inl s) →
  same_bounds tm tm' ∧ now <= t ∧ tm_resolve tm' = tm_resolve tm ∧ tm_connect tm' = tm_connect tm ∧
  0 <= default 0 (tm_handshake tm') <= t - now ∧ (is_Some (tm_handshake tm') ↔ is_secure origin = true).
Proof using Htimer Hnet Hcap.
  intros Hh. unfold secure_stream. destruct (is_secure origin); intros Hrun.
  - step_task Hrun. step_task Hrun. step_task Hrun. step_task Hrun. injection Hrun as <- <- <-.
    unfold task_of in Ha. injection Ha as -> -> _.
    apply run_under_onward in Ha0; [|done|done|by apply tls_onward].
    cbn. rewrite since_or_zero_spec. split_and!; try done; try lia; naive_solver eauto.
  - injection Hrun as <- <- <-. rewrite Hh. cbn. split_and!; try done; try lia; naive_solver eauto.
Qed.

Lemma connect_timings route now tm t tm' r :
  fresh tm → connect net c route d now tm = Some (t, tm', inl r) →
  same_bounds tm tm' ∧ now <= t ∧ 0 <= phases_total tm' <= t - now ∧
  (is_Some (tm_resolve tm') ↔ route.2 = None) ∧ is_Some (tm_connect tm') ∧
  (is_Some (tm_handshake tm') ↔ is_secure (rt_origin route.1) = true) ∧
  ∃ alpn, r.1 = key_of (cn_identity c) route.1 (negotiated route.1 alpn).
Proof using Htimer Hnet Hcap.
  intros Hf Hrun. unfold connect in Hrun.
  apply bind_inv in Hrun as (u & tmu & stream & Hs & Hrun). apply open_stream_timings in Hs as (Hb & Hu & Hh & Hp & Hr & Hc); [|done].
  apply bind_inv in Hrun as (v & tmv & secured & Hs & Hrun). apply secure_stream_timings in Hs as (Hb' & Hv & Hr' & Hc' & Hp' & Hsec); [|done].
  step_task Hrun. injection Hrun as <- <- <-. apply run_under_onward in Ha; [|done|done|by apply handshake_onward].
  unfold phases_total in *. rewrite Hh in Hp. cbn in Hp. rewrite Hr', Hc'.
  split_and!; [|lia|lia|lia|done|done|done|eauto].
  destruct Hb as (? & ? & ?), Hb' as (? & ? & ?). unfold same_bounds. split_and!; congruence.
Qed.
End Spent.

(** The timings of a hop that was sent add up: its redirect time is all the time
    before it and its head time all the time to its response, from the start of the
    request; name resolution, dialling and the TLS handshake are parts of the time in
    between that do not overlap.  A hop served by a pooled connection records none of the
    three; one that connected records the dialling, the resolution exactly without a
    proxy and the handshake exactly to a secure origin. *)
Theorem hop_timings_add_up {R} net c route d head_timeout pooled (send : PoolKey * Connection → Timed R) now tm t tm' resp :
  timer_ok → net_onward net → (∀ u, cn_connect_timeout c = Some u → 0 <= u) →
  (∀ u, head_timeout = Some u → 0 <= u) → (∀ k, onward (send k)) → tm_started tm <= now →
  hop_timed net c route d head_timeout pooled send now tm = Some (t, tm', inl resp) →
  tm_redirect tm' = now - tm_started tm ∧ tm_head tm' = t - tm_started tm ∧ now <= t ∧
  0 <= phases_total tm' <= tm_head tm' - tm_redirect tm' ∧
  match pooled with
  | Some _ => tm_resolve tm' = None ∧ tm_connect tm' = None ∧ tm_handshake tm' = None
  | None => is_Some (tm_connect tm') ∧ (is_Some (tm_resolve tm') ↔ route.2 = None) ∧
      (is_Some (tm_handshake tm') ↔ is_secure (rt_origin route.1) = true)
  end.
Proof.
  intros Ht Hnet Hcap Hhead Hsend Hstart Hrun. unfold hop_timed in Hrun.
  step_task Hrun. step_task Hrun. step_task Hrun. unfold task_of in Ha. injection Ha as <- <- _.
  apply bind_inv in Hrun as (v & tmv & conn & Hconn & Hrun). step_task Hrun. step_task Hrun. injection Hrun as <- <- <-.
  apply run_under_onward in Ha; [|done|done|apply Hsend].
  cbn. unfold elapsed, phases_total in *. cbn. rewrite !since_or_zero_spec.
  destruct pooled as [k|].
  - injection Hconn as <- <- <-. unfold record_hop_start, elapsed. cbn. rewrite ?since_or_zero_spec. split_and!; (done || lia).
  - apply connect_timings in Hconn as ((Hb1 & Hb2 & _) & Hv & Hp & Hr & Hc & Hh & _); [|done..|by split_and!].
    unfold record_hop_start, elapsed in Hb1, Hb2. cbn in Hb1, Hb2. rewrite since_or_zero_spec in Hb2.
    rewrite <- Hb1, <- Hb2. unfold phases_total in *.
    split_and!; (done || lia).
Qed.
End Connector.

(** ** A network to look at *)

Section Sample.

(** Completes [d] later with [r]. *)
Definition after_wait {A} (d : Duration) (r : A + Error) : Timed A := λ now, Some (now + d, r).
Definition never {A} : Timed A := λ _, None.
Definition on_time (now : SystemTime) (l : Duration) : SystemTime := now + l.

Lemma on_time_ok : timer_ok on_time 2.
Proof. unfold timer_ok, on_time. split; intros; lia. Qed.

Lemma after_wait_onward {A} d (r : A + Error) : 0 <= d → onward (after_wait d r).
Proof. intros Hd now t s [= <- _]. lia. Qed.

Lemma never_onward {A} : onward (never (A := A)).
Proof. by intros ? ? ?. Qed.

(** Two addresses, the first of them refused; and a network where nothing answers. *)
Definition small_net : Net (Px := unit) (Address := bool) (Socket := unit) (Tls := unit) :=
  mk_net (λ _ _ _, after_wait 9 (inl tt)) (λ _, after_wait 5 (inl [false; true]))
    (λ a, if a then after_wait 7 (inl tt) else after_wait 3 (inr (CoreError.Connect b#"refused")))
    (λ host, inl host) (λ _ _, after_wait 11 (inl (tt, Some Http2))) (λ _ _ _, after_wait 1 (inl (Http2Conn 4))).

Definition dead_net : Net (Px := unit) (Address := bool) (Socket := unit) (Tls := unit) :=
  mk_net (λ _ _ _, never) (λ _, after_wait 5 (inl [false; true])) (λ _, never) (λ host, inl host) (λ _ _, never) (λ _ _ _, never).

Lemma small_net_onward : net_onward small_net.
Proof. split; intros; try (apply after_wait_onward; lia). destruct a; by apply after_wait_onward. Qed.

Lemma dead_net_onward : net_onward dead_net.
Proof. split; intros; try apply never_onward. by apply after_wait_onward. Qed.

Definition small_route : Route * option unit := (mk_route (mk_origin b#"https" b#"a.example" 443) None, None).
Definition small_connector : Connector := mk_connector (mk_identity b#"chrome" 7) (Some 20).

Lemma connect_is_bounded_witness :
  ∃ t tm' r, connect on_time dead_net small_connector small_route (mk_deadline (Some 100)) 90 (timings_now 90) =
    Some (t, tm', r) ∧ 90 <= t <= 102.
Proof.
  destruct (connect_is_bounded on_time 2 dead_net small_connector (mk_deadline (Some 100)) small_route 90 (timings_now 90)
    on_time_ok dead_net_onward ltac:(intros u [= <-]; lia)) as [Hd _].
  destruct (Hd 100 eq_refl) as (t & tm' & r & Hrun & Ht). exists t, tm', r. split; [exact Hrun|]. lia.
Defined.

Definition small_hop (pooled : option (PoolKey * Connection)) : Task Z :=
  hop_timed on_time small_net small_connector small_route (mk_deadline None) None pooled (λ _, after_wait 13 (inl 301)).

Definition small_timings : Timings := mk_timings 0 50 (Some 5) (Some 10) (Some 11) 90.

Lemma small_hop_runs : small_hop None 50 (timings_now 0) = Some (90, small_timings, inl 301).
Proof. reflexivity. Qed.

Lemma hop_timings_add_up_witness :
  tm_redirect small_timings = 50 - 0 ∧ phases_total small_timings <= tm_head small_timings - tm_redirect small_timings.
Proof.
  destruct (hop_timings_add_up on_time 2 small_net small_connector small_route (mk_deadline None) None None
    (λ _, after_wait 13 (inl 301)) 50 (timings_now 0) 90 small_timings 301 on_time_ok small_net_onward
    ltac:(intros u [= <-]; lia) ltac:(intros u [=]) ltac:(intros k; by apply after_wait_onward) ltac:(cbn; lia) small_hop_runs)
    as (Hr & _ & _ & Hp & _).
  split; [exact Hr|apply Hp].
Defined.

(** A redirect answered by the network, and what it leads to by the cache: the timings
    are those of the first hop, with no redirect time and a handshake that the response
    at hand never made. *)
Lemma cached_hop_keeps_the_timings :
  (_ <-! hop_or_cache None (small_hop None) (Some (λ _, after_wait 4 (inl tt)));
   hop_or_cache (Some 200) (small_hop None) None) 0 (timings_now 0) =
    Some (44, mk_timings 0 0 (Some 5) (Some 10) (Some 11) 40, inl 200).
Proof. reflexivity. Qed.
End Sample.
