(* ===== verification/Dns.v ===== *)
(** [chromulate-dns]: the caching resolver with its single flight
    (src/crates/chromulate-dns/src/caching.rs), the address-family preference, the
    system and the static resolver, and the dialling of what they answer ([dial] of
    src/crates/chromulate-http/src/connect.rs).

    A shared lookup lives as long as a caller holds it: lookups are kept in an arena,
    a caller holds a number, and a marker in the cache - a weak handle - upgrades
    exactly while its lookup is held.  Callers interleave at the cache's lock, so what
    they do is a step relation.  An [Instant] is counted like a [SystemTime], with the
    range it has on a Unix target. *)
From S2P Require Import Prelude RustStr RustTime RustNet CoreError.
Local Open Scope Z_scope.

(** ** Targets and addresses *)

(** [HostPort] (src/crates/chromulate-core/src/traits.rs). *)
Record HostPort := mk_host_port { hp_host : str; hp_port : Z }.

#[export] Instance HostPort_eq_dec : EqDecision HostPort.
Proof. solve_decision. Defined.
#[export] Instance HostPort_countable : Countable HostPort.
Proof. refine (inj_countable' (λ t, (hp_host t, hp_port t)) (λ x, mk_host_port x.1 x.2) _). by intros []. Defined.

Record SocketAddr := mk_socket_addr { sa_ip : IpAddr; sa_port : Z }.

#[export] Instance SocketAddr_eq_dec : EqDecision SocketAddr.
Proof. solve_decision. Defined.

Definition is_ipv4 (a : SocketAddr) : bool := match sa_ip a with V4 _ => true | V6 _ => false end.
Definition is_ipv6 (a : SocketAddr) : bool := match sa_ip a with V6 _ => true | V4 _ => false end.

Inductive IpVersionPreference := Ipv4Only | Ipv6Only | PreferIpv6.

(** [sort_by_key] is stable. *)
Definition reorder (p : IpVersionPreference) (addrs : list SocketAddr) : list SocketAddr :=
  match p with
  | Ipv4Only => filter (λ a, is_ipv4 a = true) addrs
  | Ipv6Only => filter (λ a, is_ipv6 a = true) addrs
  | PreferIpv6 => sort_by (λ a b, Nat.b2n (is_ipv4 a) <=? Nat.b2n (is_ipv4 b))%nat addrs
  end.

(** ** The resolvers that answer at once *)

(** [SystemResolver::resolve], on what [lookup_host] answered. *)
Definition system_resolve (preference : IpVersionPreference) (target : HostPort)
    (looked_up : option (list SocketAddr)) : list SocketAddr + Error :=
  match looked_up with
  | None => inr (Resolve (hp_host target))
  | Some addrs =>
      if decide (addrs = []) then inr (Resolve (hp_host target)) else inl (reorder preference addrs)
  end.

(** [StaticResolver]. *)
Definition StaticResolver := gmap str (list SocketAddr).

Definition with_host (r : StaticResolver) (host : str) (addrs : list SocketAddr) : StaticResolver :=
  <[host := addrs]> r.

Definition static_resolve (r : StaticResolver) (target : HostPort) : list SocketAddr + Error :=
  match r !! hp_host target with
  | Some addrs => inl ((λ a, mk_socket_addr (sa_ip a) (hp_port target)) <$> addrs)
  | None => inr (Resolve (hp_host target))
  end.

(** [dial]: each address in turn. *)
Fixpoint dial (connect : SocketAddr → bool) (addresses : list SocketAddr) (target : str) : SocketAddr + Error :=
  match addresses with
  | [] => inr (Connect target)
  | address :: addresses => if connect address then inl address else dial connect addresses target
  end.

(** ** The cache *)

Definition DEFAULT_POSITIVE_TTL : Duration := from_secs 60.
Definition DEFAULT_NEGATIVE_TTL : Duration := from_secs 5.
Definition MIN_SWEEP_SIZE : Z := 64.

Inductive CacheOutcome := Found (addrs : list SocketAddr) | Failed (message : str).

Inductive Slot :=
  | InFlight (lookup : nat)
  | Cached (outcome : CacheOutcome) (expires_at : option SystemTime).

Record Slots := mk_slots { entries : gmap HostPort Slot; sweep_at : Z }.

Record Ttls := mk_ttls { positive_ttl : Duration; negative_ttl : Duration }.

Definition default_ttls : Ttls := mk_ttls DEFAULT_POSITIVE_TTL DEFAULT_NEGATIVE_TTL.
Definition new_slots : Slots := mk_slots ∅ MIN_SWEEP_SIZE.

Definition ttl_of (t : Ttls) (o : CacheOutcome) : Duration :=
  match o with Found _ => positive_ttl t | Failed _ => negative_ttl t end.

(** [expires_at.is_none_or(|at| at > now)]. *)
Definition unexpired (now : SystemTime) (expires_at : option SystemTime) : bool :=
  match expires_at with None => true | Some at_ => now <? at_ end.

Section Cache.
(** Which lookups a caller still holds. *)
Context (live : nat → bool).

Definition stays (now : SystemTime) (slot : Slot) : bool :=
  match slot with
  | Cached _ expires_at => unexpired now expires_at
  | InFlight lookup => live lookup
  end.

Definition sweep (now : SystemTime) (s : Slots) : Slots :=
  let entries := filter (λ kv, stays now kv.2 = true) (entries s) in
  mk_slots entries (Z.max (Z.of_nat (size entries) * 2) MIN_SWEEP_SIZE).

Inductive Action := UseCached (outcome : CacheOutcome) | Await (lookup : nat).

(** What [shared_outcome] decides under the lock; a lookup it starts gets the
    number [fresh].  The arm for a [downgrade] that fails is left out: it is the
    handle just made. *)
Definition lookup_or_start (fresh : nat) (target : HostPort) (now : SystemTime) (s : Slots) : Action * Slots :=
  let existing :=
    match entries s !! target with
    | Some (Cached outcome expires_at) => if unexpired now expires_at then Some (UseCached outcome) else None
    | Some (InFlight lookup) => if live lookup then Some (Await lookup) else None
    | None => None
    end in
  match existing with
  | Some action => (action, s)
  | None =>
      let s := if sweep_at s <=? Z.of_nat (size (entries s)) then sweep now s else s in
      (Await fresh, mk_slots (<[target := InFlight fresh]> (entries s)) (sweep_at s))
  end.

Definition settle (t : Ttls) (target : HostPort) (outcome : CacheOutcome) (now : SystemTime) (s : Slots) : Slots :=
  sweep now (mk_slots (<[target := Cached outcome (checked_add now (ttl_of t outcome))]> (entries s)) (sweep_at s)).

End Cache.

(** [resolve]: the answer a caller makes of an outcome. *)
Definition answer_of (target : HostPort) (outcome : CacheOutcome) : list SocketAddr + Error :=
  match outcome with
  | Found addrs => inl addrs
  | Failed _ => inr (Resolve (hp_host target))
  end.

(** What a lookup makes of the inner resolver's answer; the message is the error's. *)
Definition outcome_of (answer : list SocketAddr + str) : CacheOutcome :=
  match answer with inl addrs => Found addrs | inr message => Failed message end.

(** ** Callers *)

(** One call of the inner resolver; its outcome once it has answered, with the
    instant it was settled at, which only the theorems look at. *)
Record Lookup := mk_lookup { lk_target : HostPort; lk_outcome : option (CacheOutcome * SystemTime) }.

(** The callers waiting, by target and lookup. *)
Record World := mk_world {
  w_slots : Slots;
  w_lookups : list Lookup;
  w_waiting : list (HostPort * nat);
}.

Definition is_live (w : World) (n : nat) : bool := bool_decide (n ∈ snd <$> w_waiting w).

Definition finish (n : nat) (outcome : CacheOutcome) (now : SystemTime) (l : list Lookup) : list Lookup :=
  alter (λ k, mk_lookup (lk_target k) (Some (outcome, now))) n l.

(** A caller asks, and is answered from the cache or waits for a lookup; the inner
    resolver answers a lookup some caller is polling, which settles its slot; a
    caller takes the outcome of a finished lookup, or gives up. *)
Inductive step (t : Ttls) (w : World) : World → option (HostPort * CacheOutcome) → Prop :=
  | Step_cached target now outcome s :
      lookup_or_start (is_live w) (length (w_lookups w)) target now (w_slots w) = (UseCached outcome, s) →
      step t w (mk_world s (w_lookups w) (w_waiting w)) (Some (target, outcome))
  | Step_join target now n s :
      lookup_or_start (is_live w) (length (w_lookups w)) target now (w_slots w) = (Await n, s) →
      (n < length (w_lookups w))%nat →
      step t w (mk_world s (w_lookups w) ((target, n) :: w_waiting w)) None
  | Step_start target now n s :
      lookup_or_start (is_live w) (length (w_lookups w)) target now (w_slots w) = (Await n, s) →
      n = length (w_lookups w) →
      step t w (mk_world s (w_lookups w ++ [mk_lookup target None]) ((target, n) :: w_waiting w)) None
  | Step_settle n target answer now :
      n ∈ snd <$> w_waiting w → w_lookups w !! n = Some (mk_lookup target None) →
      let outcome := outcome_of answer in
      step t w (mk_world (settle (is_live w) t target outcome now (w_slots w)) (finish n outcome now (w_lookups w))
                  (w_waiting w)) None
  | Step_receive l1 l2 target n k outcome at_ :
      w_waiting w = l1 ++ (target, n) :: l2 → w_lookups w !! n = Some (mk_lookup k (Some (outcome, at_))) →
      step t w (mk_world (w_slots w) (w_lookups w) (l1 ++ l2)) (Some (target, outcome))
  | Step_abandon l1 l2 target n :
      w_waiting w = l1 ++ (target, n) :: l2 →
      step t w (mk_world (w_slots w) (w_lookups w) (l1 ++ l2)) None.

Definition start : World := mk_world new_slots [] [].

Inductive reachable (t : Ttls) : World → Prop :=
  | Reach_start : reachable t start
  | Reach_step w w' a : reachable t w → step t w w' a → reachable t w'.

(** ** Addresses *)

Lemma reorder_subset p addrs a : a ∈ reorder p addrs → a ∈ addrs.
Proof.
  destruct p; cbn [reorder]; [by intros [_ ?]%list_elem_of_filter|by intros [_ ?]%list_elem_of_filter|].
  by rewrite sort_by_perm.
Qed.

(** IPv6 comes first, and the resolver's order is kept within a family. *)
Lemma reorder_prefer_ipv6 addrs :
  reorder PreferIpv6 addrs =
    filter (λ a, is_ipv6 a = true) addrs ++ filter (λ a, is_ipv4 a = true) addrs.
Proof.
  assert (H46 : ∀ a, is_ipv6 a = negb (is_ipv4 a)) by (intros [[]]; done).
  cbn [reorder]. induction addrs as [|a addrs IH]; [done|]. cbn [sort_by]. rewrite IH. clear IH.
  rewrite !filter_cons, !H46.
  set (sixes := filter (λ a, is_ipv6 a = true) addrs). set (fours := filter (λ a, is_ipv4 a = true) addrs).
  assert (Hsix : Forall (λ b, is_ipv4 b = false) sixes).
  { apply Forall_forall. intros b [Hb _]%list_elem_of_filter. rewrite H46 in Hb. by apply negb_true_iff in Hb. }
  assert (Hfour : Forall (λ b, is_ipv4 b = true) fours) by (apply Forall_forall; by intros b [Hb _]%list_elem_of_filter).
  destruct (is_ipv4 a) eqn:Ha; cbn [negb].
  - rewrite decide_False, decide_True by done. induction Hsix as [|b sixes Hb _ IH]; cbn.
    + destruct Hfour as [|c fours Hc _]; cbn; [done|]. by rewrite Ha, Hc.
    + rewrite Ha, Hb. cbn. by rewrite IH.
  - rewrite decide_True, decide_False by done. cbn. destruct (sixes ++ fours) as [|b l]; cbn; [done|]. by rewrite Ha.
Qed.

(** Dialling uses the first address that answers, and fails only when none does. *)
Lemma dial_spec connect addresses target :
  match dial connect addresses target with
  | inl a => ∃ before after, addresses = before ++ a :: after ∧ connect a = true ∧ Forall (λ b, connect b = false) before
  | inr e => e = Connect target ∧ Forall (λ b, connect b = false) addresses
  end.
Proof.
  induction addresses as [|a addresses IH]; cbn [dial]; [done|]. destruct (connect a) eqn:Ha.
  - exists [], addresses. by repeat constructor.
  - destruct (dial _ _ _) as [b|e].
    + destruct IH as (before & after & -> & ? & ?). exists (a :: before), after. by repeat constructor.
    + destruct IH as [-> ?]. split; [done|]. by constructor.
Qed.

(** A host with no address of the only family asked for resolves, to no address at
    all: the check for an empty answer comes before the filter. *)
Lemma only_ipv4_of_ipv6_host target :
  system_resolve Ipv4Only target (Some [mk_socket_addr (V6 1) 443]) = inl [].
Proof. reflexivity. Qed.

(** ** What the cache holds *)

Record world_ok (t : Ttls) (w : World) : Prop := {
  ok_flight n target : n ∈ snd <$> w_waiting w → w_lookups w !! n = Some (mk_lookup target None) →
    entries (w_slots w) !! target = Some (InFlight n);
  ok_marker target n : entries (w_slots w) !! target = Some (InFlight n) →
    w_lookups w !! n = Some (mk_lookup target None);
  ok_waiting target n : (target, n) ∈ w_waiting w → ∃ o, w_lookups w !! n = Some (mk_lookup target o);
  ok_cached target o e : entries (w_slots w) !! target = Some (Cached o e) →
    ∃ n now, w_lookups w !! n = Some (mk_lookup target (Some (o, now))) ∧ e = checked_add now (ttl_of t o);
  ok_sweep : Z.of_nat (size (entries (w_slots w))) <= sweep_at (w_slots w) ∧ MIN_SWEEP_SIZE <= sweep_at (w_slots w);
}.

Lemma sweep_lookup live now s target slot :
  entries (sweep live now s) !! target = Some slot ↔ entries s !! target = Some slot ∧ stays live now slot = true.
Proof. unfold sweep. cbn [entries]. by rewrite map_lookup_filter_Some. Qed.

Lemma sweep_size live now s :
  Z.of_nat (size (entries (sweep live now s))) <= sweep_at (sweep live now s) ∧
  MIN_SWEEP_SIZE <= sweep_at (sweep live now s) ∧
  (Z.of_nat (size (entries (sweep live now s))) < sweep_at (sweep live now s)).
Proof. unfold sweep, MIN_SWEEP_SIZE. cbn [entries sweep_at]. lia. Qed.

(** Looking up serves a fresh answer, joins the lookup in flight, or registers a new
    one in place of nothing worth keeping. *)
Lemma lookup_or_start_spec live fresh target now s a s' :
  lookup_or_start live fresh target now s = (a, s') →
  (∃ o e, a = UseCached o ∧ s' = s ∧ entries s !! target = Some (Cached o e) ∧ unexpired now e = true) ∨
  (∃ n, a = Await n ∧ s' = s ∧ entries s !! target = Some (InFlight n) ∧ live n = true) ∨
  (a = Await fresh ∧ (∀ slot, entries s !! target = Some slot → stays live now slot = false) ∧
   entries s' !! target = Some (InFlight fresh) ∧
   (∀ k slot, k ≠ target → entries s' !! k = Some slot → entries s !! k = Some slot) ∧
   (∀ k n, k ≠ target → entries s !! k = Some (InFlight n) → live n = true → entries s' !! k = Some (InFlight n)) ∧
   (Z.of_nat (size (entries s)) <= sweep_at s ∧ MIN_SWEEP_SIZE <= sweep_at s →
    Z.of_nat (size (entries s')) <= sweep_at s' ∧ MIN_SWEEP_SIZE <= sweep_at s')).
Proof.
  unfold lookup_or_start. set (existing := match entries s !! target with Some _ => _ | None => _ end). intros Heq.
  assert (Hex : match existing with
    | Some (UseCached o) => ∃ e, entries s !! target = Some (Cached o e) ∧ unexpired now e = true
    | Some (Await n) => entries s !! target = Some (InFlight n) ∧ live n = true
    | None => ∀ slot, entries s !! target = Some slot → stays live now slot = false
    end).
  { unfold existing. destruct (entries s !! target) as [[n|o e]|]; [..|done].
    - destruct (live n) eqn:Hn; [done|]. by intros ? [= <-].
    - destruct (unexpired now e) eqn:He; [by exists e|]. by intros ? [= <-]. }
  destruct existing as [[o|n]|]; [| |].
  - injection Heq as <- <-. destruct Hex as (e & ? & ?). left. by exists o, e.
  - injection Heq as <- <-. destruct Hex as [? ?]. right. left. by exists n.
  - right. right. injection Heq as <- <-. split; [done|]. split; [done|]. cbn [entries sweep_at].
    set (s1 := if sweep_at s <=? _ then _ else _).
    assert (Hsub : ∀ k slot, entries s1 !! k = Some slot → entries s !! k = Some slot)
      by (intros k slot; unfold s1; destruct (_ <=? _); [by intros [? _]%sweep_lookup|done]).
    assert (Hkeep : ∀ k n, entries s !! k = Some (InFlight n) → live n = true → entries s1 !! k = Some (InFlight n))
      by (intros k n Hk Hn; unfold s1; destruct (_ <=? _); [by apply sweep_lookup|done]).
    split; [apply lookup_insert_eq|]. split; [|split].
    + intros k slot Hne. rewrite lookup_insert_ne by done. apply Hsub.
    + intros k n Hne Hk Hn. rewrite lookup_insert_ne by done. by apply Hkeep.
    + intros [Hle Hmin]. assert (Hroom : Z.of_nat (size (entries s1)) < sweep_at s1 ∧ MIN_SWEEP_SIZE <= sweep_at s1).
      { unfold s1. destruct (_ <=? _) eqn:Hfull; bool_prop; [|lia].
        destruct (sweep_size live now s) as (_ & ? & ?). done. }
      destruct Hroom. split; [|done]. destruct (entries s1 !! target) eqn:Ht.
      * rewrite map_size_insert_Some by done. lia.
      * rewrite map_size_insert_None by done. lia.
Qed.

Lemma start_ok t : world_ok t start.
Proof.
  split; cbn [start w_slots w_lookups w_waiting new_slots entries sweep_at].
  - by intros n target ?%elem_of_nil.
  - intros target n. by rewrite lookup_empty.
  - by intros target n ?%elem_of_nil.
  - intros target o e. by rewrite lookup_empty.
  - rewrite map_size_empty. unfold MIN_SWEEP_SIZE. lia.
Qed.

(** A caller may leave at any time, or join a lookup for its target. *)
Lemma world_ok_waiting t w l :
  world_ok t w →
  (∀ target n, (target, n) ∈ l → (target, n) ∈ w_waiting w ∨ entries (w_slots w) !! target = Some (InFlight n)) →
  world_ok t (mk_world (w_slots w) (w_lookups w) l).
Proof.
  intros [Hf Hm Hw Hc Hs] Hl. split; cbn [w_slots w_lookups w_waiting]; auto.
  - intros n target ([k m] & Heq & Hin)%list_elem_of_fmap Hn. cbn in Heq. subst m.
    destruct (Hl k n Hin) as [Hin'|He].
    + apply Hf; [|done]. apply list_elem_of_fmap. by exists (k, n).
    + pose proof (Hm k n He) as Hn'. rewrite Hn in Hn'. by injection Hn' as ->.
  - intros target n Hin. destruct (Hl target n Hin) as [?|He]; [by apply Hw|]. eexists. by apply Hm.
Qed.

Lemma world_ok_start t w target now s :
  world_ok t w →
  lookup_or_start (is_live w) (length (w_lookups w)) target now (w_slots w) = (Await (length (w_lookups w)), s) →
  world_ok t (mk_world s (w_lookups w ++ [mk_lookup target None]) ((target, length (w_lookups w)) :: w_waiting w)).
Proof.
  intros [Hf Hm Hw Hc Hs] Hq. set (fresh := length (w_lookups w)) in *.
  assert (Hnew : ∀ l, w_lookups w !! fresh ≠ Some l) by (intros l Hl%lookup_lt_Some; unfold fresh in Hl; lia).
  apply lookup_or_start_spec in Hq as [(o & e & ? & _)|[(n & [= <-] & _ & He & _)|(_ & Hgone & Hat & Hsub & Hkeep & Hsize)]];
    [done|by apply Hm, Hnew in He|].
  assert (Hold : ∀ n l, w_lookups w !! n = Some l → (w_lookups w ++ [mk_lookup target None]) !! n = Some l)
    by (intros n l Hn; by apply lookup_app_l_Some).
  assert (Hlast : (w_lookups w ++ [mk_lookup target None]) !! fresh = Some (mk_lookup target None))
    by (unfold fresh; by rewrite lookup_app_r, Nat.sub_diag by done).
  assert (Hlookup : ∀ n l, (w_lookups w ++ [mk_lookup target None]) !! n = Some l →
    (n = fresh ∧ l = mk_lookup target None) ∨ w_lookups w !! n = Some l).
  { intros n l [Hn|[Hge Hn]]%lookup_app_Some; [by right|]. left. apply list_lookup_singleton_Some in Hn as [Hz <-].
    split; [unfold fresh; lia|done]. }
  split; cbn [w_slots w_lookups w_waiting]; [| | | |by apply Hsize].
  - intros n k Hin [[-> [= ->]]|Hn]%Hlookup; [done|].
    rewrite fmap_cons in Hin. cbn in Hin. apply elem_of_cons in Hin as [->|Hin]; [by apply Hnew in Hn|].
    pose proof (Hf n k Hin Hn) as He. destruct (decide (k = target)) as [->|Hne].
    + apply Hgone in He. cbn in He. unfold is_live in He. by apply bool_decide_eq_false in He.
    + apply Hkeep; [done|done|]. by apply bool_decide_eq_true.
  - intros k n Hk. destruct (decide (k = target)) as [->|Hne].
    + rewrite Hat in Hk. by injection Hk as <-.
    + by apply Hold, Hm, Hsub.
  - intros k n [[= -> ->]|Hin]%elem_of_cons; [by eexists|]. destruct (Hw k n Hin) as [o Ho]. eauto.
  - intros k o e Hk. destruct (decide (k = target)) as [->|Hne]; [by rewrite Hat in Hk|].
    destruct (Hc k o e (Hsub _ _ Hne Hk)) as (n & at_ & Hn & ->). eauto.
Qed.

Lemma lookup_finish n outcome now l m k :
  finish n outcome now l !! m = Some k ↔
    (m ≠ n ∧ l !! m = Some k) ∨ (m = n ∧ ∃ k0, l !! n = Some k0 ∧ k = mk_lookup (lk_target k0) (Some (outcome, now))).
Proof.
  unfold finish. destruct (decide (m = n)) as [->|Hne].
  - rewrite list_lookup_alter_eq, fmap_Some. naive_solver.
  - rewrite list_lookup_alter_ne by done. naive_solver.
Qed.

Lemma world_ok_settle t w n target outcome now :
  world_ok t w → n ∈ snd <$> w_waiting w → w_lookups w !! n = Some (mk_lookup target None) →
  world_ok t (mk_world (settle (is_live w) t target outcome now (w_slots w)) (finish n outcome now (w_lookups w))
                (w_waiting w)).
Proof.
  intros [Hf Hm Hw Hc Hs] Hlive Hn. pose proof (Hf n target Hlive Hn) as Hslot.
  assert (Hentry : ∀ k slot, entries (settle (is_live w) t target outcome now (w_slots w)) !! k = Some slot →
    (k = target ∧ slot = Cached outcome (checked_add now (ttl_of t outcome))) ∨
    (k ≠ target ∧ entries (w_slots w) !! k = Some slot)).
  { intros k slot [Hk _]%sweep_lookup. cbn [entries] in Hk. apply lookup_insert_Some in Hk as [[<- <-]|[? ?]]; auto. }
  split; cbn [w_slots w_lookups w_waiting].
  - intros m k Hin [[Hne Hk]|[-> (k0 & Hk0 & Hx)]]%lookup_finish; [|done].
    pose proof (Hf m k Hin Hk) as He. apply sweep_lookup. cbn [entries]. split.
    + rewrite lookup_insert_ne; [done|]. intros <-. congruence.
    + by apply bool_decide_eq_true.
  - intros k m [[-> ?]|[Hne He]]%Hentry; [done|]. apply lookup_finish. left. split; [|by apply Hm].
    intros ->. apply Hm in He. congruence.
  - intros k m Hin. destruct (Hw k m Hin) as [o Ho]. destruct (decide (m = n)) as [->|Hne].
    + exists (Some (outcome, now)). apply lookup_finish. right. split; [done|]. eexists. by split.
    + exists o. apply lookup_finish. by left.
  - intros k o e [[-> [= -> ->]]|[Hne He]]%Hentry.
    + exists n, now. split; [|done]. apply lookup_finish. right. split; [done|]. eexists. by split.
    + destruct (Hc k o e He) as (m & at_ & Hm' & ->). exists m, at_. split; [|done]. apply lookup_finish. left.
      split; [|done]. intros ->. congruence.
  - destruct (sweep_size (is_live w) now
      (mk_slots (<[target := Cached outcome (checked_add now (ttl_of t outcome))]> (entries (w_slots w))) (sweep_at (w_slots w))))
      as (? & ? & _). done.
Qed.

Lemma lookup_step_ok t w w' a : world_ok t w → step t w w' a → world_ok t w'.
Proof.
  intros Hok Hstep. destruct Hstep as [target now o s Hq|target now n s Hq Hlt|target now n s Hq ->
    |n target answer now Hlive Hn|l1 l2 target n k o at_ Hl Hn|l1 l2 target n Hl].
  - apply lookup_or_start_spec in Hq as [(? & ? & _ & -> & _)|[(? & ? & _)|(? & _)]]; [by destruct w|done..].
  - apply lookup_or_start_spec in Hq as [(? & ? & ? & _)|[(m & [= <-] & -> & He & _)|([= ->] & _)]]; [done| |lia].
    apply world_ok_waiting; [done|]. intros k m [[= -> ->]|?]%elem_of_cons; auto.
  - by eapply world_ok_start.
  - by apply world_ok_settle.
  - apply world_ok_waiting; [done|]. rewrite Hl. intros; left. set_solver.
  - apply world_ok_waiting; [done|]. rewrite Hl. intros; left. set_solver.
Qed.

Lemma lookups_reachable_ok t w : reachable t w → world_ok t w.
Proof. induction 1; [apply start_ok|by eapply lookup_step_ok]. Qed.


Definition demo_target : HostPort := mk_host_port b#"a.example" 443.

Definition demo_slots : Slots := mk_slots (<[demo_target := InFlight 0]> ∅) MIN_SWEEP_SIZE.

(** Two callers wait for one lookup. *)
Definition demo_world : World :=
  mk_world demo_slots [mk_lookup demo_target None] [(demo_target, 0%nat); (demo_target, 0%nat)].

Lemma demo_world_reachable : reachable default_ttls demo_world.
Proof.
  set (w1 := mk_world demo_slots [mk_lookup demo_target None] [(demo_target, 0%nat)]).
  apply (Reach_step _ w1 _ None); [apply (Reach_step _ start _ None); [apply Reach_start|]|].
  - apply (Step_start _ start demo_target 0 0 demo_slots); reflexivity.
  - apply (Step_join _ w1 demo_target 0 0 demo_slots); [reflexivity|simpl; lia].
Defined.


(** Nobody waits in vain: as soon as the inner resolver answers, a caller waiting for
    a lookup is served, whoever started it and whoever has given up since. *)
Theorem waiting_is_served t w target n answer (now : SystemTime) :
  reachable t w → (target, n) ∈ w_waiting w →
  ∃ w1 w2 o, (w1 = w ∨ step t w w1 None) ∧ step t w1 w2 (Some (target, o)) ∧
    (w_lookups w !! n = Some (mk_lookup target None) → o = outcome_of answer).
Proof.
  intros Hok%lookups_reachable_ok Hin. destruct (ok_waiting _ _ Hok target n Hin) as [[[o at_]|] Hn];
    apply list_elem_of_split in Hin as Hsplit; destruct Hsplit as (l1 & l2 & Hl).
  - exists w. eexists. exists o. split; [by left|]. split; [by eapply Step_receive|]. congruence.
  - eexists. eexists. exists (outcome_of answer). split; [right|].
    + apply (Step_settle t w n target answer now); [|done]. apply list_elem_of_fmap. by exists (target, n).
    + split; [|done]. eapply Step_receive; [exact Hl|]. cbn [w_lookups]. apply lookup_finish. right.
      split; [done|]. eexists. by split.
Qed.

Lemma waiting_is_served_witness :
  ∃ w1 w2 o, (w1 = demo_world ∨ step default_ttls demo_world w1 None) ∧
    step default_ttls w1 w2 (Some (demo_target, o)) ∧
    (w_lookups demo_world !! 0%nat = Some (mk_lookup demo_target None) → o = outcome_of (inr b#"no such host")).
Proof.
  apply (waiting_is_served default_ttls demo_world demo_target 0 (inr b#"no such host") 5); [exact demo_world_reachable|].
  apply list_elem_of_here.
Defined.
