(* ===== verification/NoProxy.v ===== *)
(** [chromulate-proxy]: the [no_proxy] convention
    (src/crates/chromulate-proxy/src/no_proxy.rs).  The values are ASCII, so trimming
    and lowercasing are RustStr's. *)
From S2P Require Import Prelude RustStr RustNet CoreError.
Local Open Scope Z_scope.

Inductive Entry :=
  | Exact (host : str)
  | Suffix (suffix : str)
  | Localhost
  | Cidr (network : IpAddr) (prefix : Z).

Record NoProxy := mk_no_proxy { np_entries : list Entry; match_all : bool }.

Definition none : NoProxy := mk_no_proxy [] false.

Definition max_prefix (ip : IpAddr) : Z := match ip with V4 _ => 32 | V6 _ => 128 end.

Definition parse_cidr (network prefix : str) : Entry + Error :=
  match parse_ip network with
  | None => inr Config
  | Some ip =>
      match parse_unsigned 255 prefix with
      | None => inr Config
      | Some prefix => if max_prefix ip <? prefix then inr Config else inl (Cidr ip prefix)
      end
  end.

(** One token of the loop of [parse], after trimming. *)
Definition parse_token (token : str) : option Entry + Error :=
  if eq_ignore_ascii_case token b#"localhost" then inl (Some Localhost)
  else
    match split_once "/"%char token with
    | Some (network, prefix) =>
        match parse_cidr network prefix with inl entry => inl (Some entry) | inr e => inr e end
    | None =>
        match strip_prefix b#"." token with
        | Some suffix => inl (Some (Suffix (to_ascii_lowercase suffix)))
        | None => inl (Some (Exact (to_ascii_lowercase token)))
        end
    end.

Fixpoint parse_tokens (tokens : list str) (entries : list Entry) (all : bool) : NoProxy + Error :=
  match tokens with
  | [] => inl (mk_no_proxy entries all)
  | token :: tokens =>
      let token := trim token in
      if decide (token = []) then parse_tokens tokens entries all
      else if decide (token = b#"*") then parse_tokens tokens entries true
      else
        match parse_token token with
        | inl entry => parse_tokens tokens (entries ++ option_list entry) all
        | inr e => inr e
        end
  end.

Definition parse (raw : str) : NoProxy + Error := parse_tokens (split_by (is_char ","%char) raw) [] false.

(** [u32::MAX << (32 - prefix)], and the same at 128 bits. *)
Definition mask (width prefix : Z) : Z :=
  if prefix =? 0 then 0 else Z.land (Z.shiftl (2 ^ width - 1) (width - prefix)) (2 ^ width - 1).

Definition ip_in_cidr (candidate network : IpAddr) (prefix : Z) : bool :=
  match candidate, network with
  | V4 candidate, V4 network => Z.land candidate (mask 32 prefix) =? Z.land network (mask 32 prefix)
  | V6 candidate, V6 network => Z.land candidate (mask 128 prefix) =? Z.land network (mask 128 prefix)
  | _, _ => false
  end.

(** The normalised host, and the test of one entry. *)
Definition normalised (host : str) : str := to_ascii_lowercase (trim_end_matches "."%char host).

Definition hits (host : str) (as_ip : option IpAddr) (e : Entry) : bool :=
  match e with
  | Exact exact => bool_decide (host = exact)
  | Suffix suffix => bool_decide (host = suffix) || ends_with host (b#"." ++ suffix)
  | Localhost => bool_decide (host = b#"localhost") || match as_ip with Some ip => is_loopback ip | None => false end
  | Cidr network prefix => match as_ip with Some ip => ip_in_cidr ip network prefix | None => false end
  end.

Definition matches_host (np : NoProxy) (host : str) : bool :=
  if match_all np then true
  else
    let host := normalised host in
    let as_ip := parse_ip host in
    existsb (hits host as_ip) (np_entries np).

(** ** Prefixes of addresses *)

Lemma mask_testbit width prefix i :
  0 <= prefix <= width → 0 <= i →
  Z.testbit (mask width prefix) i = (width - prefix <=? i) && (i <? width).
Proof.
  intros Hp Hi. unfold mask. destruct (prefix =? 0) eqn:Hz; bool_prop.
  - rewrite Z.bits_0. symmetry. apply andb_false_iff. rewrite Z.leb_gt, Z.ltb_ge. lia.
  - assert (Hones : ∀ j, 0 <= j → Z.testbit (2 ^ width - 1) j = (j <? width)).
    { intros j Hj. rewrite Z.sub_1_r, <- Z.ones_equiv. destruct (j <? width) eqn:E; bool_prop.
      - apply Z.ones_spec_low. lia.
      - apply Z.ones_spec_high. lia. }
    rewrite Z.land_spec, Hones, Z.shiftl_spec by lia.
    destruct (width - prefix <=? i) eqn:E; [apply Z.leb_le in E|apply Z.leb_gt in E].
    + rewrite Hones by lia. destruct (i <? width) eqn:E'; [apply Z.ltb_lt in E'|by rewrite andb_false_r].
      rewrite (proj2 (Z.ltb_lt (i - (width - prefix)) width)) by lia. done.
    + rewrite Z.testbit_neg_r by lia. done.
Qed.

(** Two addresses agree under the mask exactly when their first [prefix] bits do. *)
Lemma masked_eq width prefix a b :
  0 <= prefix <= width → 0 <= a < 2 ^ width → 0 <= b < 2 ^ width →
  Z.land a (mask width prefix) = Z.land b (mask width prefix) ↔
  Z.shiftr a (width - prefix) = Z.shiftr b (width - prefix).
Proof.
  intros Hp Ha Hb.
  assert (Hhigh : ∀ x i, 0 <= x < 2 ^ width → width <= i → Z.testbit x i = false).
  { intros x i Hx Hi. destruct (decide (x = 0)) as [->|]; [apply Z.bits_0|].
    apply Z.bits_above_log2; [lia|]. apply Z.lt_le_trans with width; [|done]. apply Z.log2_lt_pow2; lia. }
  split; intros Heq; apply Z.bits_inj'; intros i Hi.
  - rewrite !Z.shiftr_spec by lia. destruct (decide (i + (width - prefix) < width)) as [Hlt|Hge].
    + apply (f_equal (λ z, Z.testbit z (i + (width - prefix)))) in Heq. rewrite !Z.land_spec, mask_testbit in Heq by lia.
      rewrite (proj2 (Z.leb_le (width - prefix) (i + (width - prefix)))),
        (proj2 (Z.ltb_lt (i + (width - prefix)) width)), !andb_true_r in Heq by lia. done.
    + by rewrite !Hhigh by (done || lia).
  - rewrite !Z.land_spec, mask_testbit by lia.
    destruct (width - prefix <=? i) eqn:E; bool_prop; [|by rewrite !andb_false_r].
    apply (f_equal (λ z, Z.testbit z (i - (width - prefix)))) in Heq. rewrite !Z.shiftr_spec in Heq by lia.
    by replace (i - (width - prefix) + (width - prefix)) with i in Heq by lia; rewrite Heq.
Qed.

(** ** What a value means *)

Definition same_prefix (a b : IpAddr) (prefix : Z) : Prop :=
  match a, b with
  | V4 a, V4 b => Z.shiftr a (32 - prefix) = Z.shiftr b (32 - prefix)
  | V6 a, V6 b => Z.shiftr a (128 - prefix) = Z.shiftr b (128 - prefix)
  | _, _ => False
  end.

(** The hosts a token stands for. *)
Definition covers (host token : str) : Prop :=
  if decide (token = b#"*") then True
  else if decide (to_ascii_lowercase token = b#"localhost") then
    host = b#"localhost" ∨ ∃ ip, parse_ip host = Some ip ∧ is_loopback ip = true
  else
    match split_once "/"%char token with
    | Some (network, prefix) =>
        ∃ ip net p, parse_ip host = Some ip ∧ parse_ip network = Some net ∧ parse_unsigned 255 prefix = Some p ∧
          same_prefix ip net p
    | None =>
        match strip_prefix b#"." token with
        | Some suffix => host = to_ascii_lowercase suffix ∨ ∃ label, host = label ++ b#"." ++ to_ascii_lowercase suffix
        | None => host = to_ascii_lowercase token
        end
    end.

(** The tokens that parse: all but a malformed network. *)
Definition token_ok (token : str) : Prop :=
  token = b#"*" ∨ to_ascii_lowercase token = b#"localhost" ∨
  match split_once "/"%char token with
  | Some (network, prefix) =>
      ∃ net p, parse_ip network = Some net ∧ parse_unsigned 255 prefix = Some p ∧ p <= max_prefix net
  | None => True
  end.

Lemma ip_in_cidr_spec a b prefix :
  ip_ok a → ip_ok b → 0 <= prefix <= max_prefix b →
  ip_in_cidr a b prefix = true ↔ same_prefix a b prefix.
Proof.
  destruct a, b; cbn; intros Ha Hb Hp; try done; rewrite Z.eqb_eq; by apply masked_eq.
Qed.

Lemma covers_other host token :
  token ≠ b#"*" → to_ascii_lowercase token ≠ b#"localhost" →
  covers host token =
    match split_once "/"%char token with
    | Some (network, prefix) =>
        ∃ ip net p, parse_ip host = Some ip ∧ parse_ip network = Some net ∧ parse_unsigned 255 prefix = Some p ∧
          same_prefix ip net p
    | None =>
        match strip_prefix b#"." token with
        | Some suffix => host = to_ascii_lowercase suffix ∨ ∃ label, host = label ++ b#"." ++ to_ascii_lowercase suffix
        | None => host = to_ascii_lowercase token
        end
    end.
Proof. intros Hstar Hl. unfold covers. by rewrite !decide_False. Qed.

Lemma hits_cidr host net p :
  ip_ok net → 0 <= p <= max_prefix net →
  hits host (parse_ip host) (Cidr net p) = true ↔ ∃ ip, parse_ip host = Some ip ∧ same_prefix ip net p.
Proof.
  intros Hnet Hp. cbn [hits]. destruct (parse_ip host) as [ip|] eqn:Hip; [|naive_solver].
  rewrite ip_in_cidr_spec; [naive_solver|by eapply parse_ip_ok|done|done].
Qed.

Lemma parse_token_spec token :
  token ≠ b#"*" →
  match parse_token token with
  | inl (Some e) => token_ok token ∧ ∀ host, hits host (parse_ip host) e = true ↔ covers host token
  | inl None => False
  | inr err => err = Config ∧ ¬ token_ok token
  end.
Proof.
  intros Hstar. unfold parse_token, token_ok, eq_ignore_ascii_case.
  change (to_ascii_lowercase b#"localhost") with b#"localhost". case_bool_decide as Hl.
  { split; [auto|]. intros host. unfold covers. rewrite decide_False, decide_True by done. cbn [hits].
    rewrite orb_true_iff, bool_decide_eq_true. destruct (parse_ip host) as [ip|]; naive_solver. }
  destruct (split_once "/"%char token) as [[network prefix]|] eqn:Hs.
  - unfold parse_cidr. destruct (parse_ip network) as [net|] eqn:Hn; [|split; [done|naive_solver]].
    destruct (parse_unsigned 255 prefix) as [p|] eqn:Hp; [|split; [done|naive_solver]].
    destruct (_ <? p) eqn:Hmax; bool_prop.
    { split; [done|]. intros [?|[?|(net' & p' & [= <-] & [= <-] & ?)]]; [done..|lia]. }
    split; [right; right; by exists net, p|]. intros host.
    rewrite hits_cidr, covers_other, Hs by (done || by eapply parse_ip_ok || by apply parse_unsigned_range in Hp; lia).
    rewrite Hn, Hp. naive_solver.
  - destruct (strip_prefix b#"." token) as [suffix|] eqn:Hd; (split; [auto|]); intros host;
      rewrite covers_other, Hs, Hd by done; cbn [hits].
    + rewrite orb_true_iff, bool_decide_eq_true, ends_with_spec. done.
    + by rewrite bool_decide_eq_true.
Qed.

Definition matches_any (np : NoProxy) (host : str) : Prop :=
  match_all np = true ∨ ∃ e, e ∈ np_entries np ∧ hits host (parse_ip host) e = true.

Lemma parse_tokens_spec ts entries all :
  match parse_tokens ts entries all with
  | inl np => Forall token_ok (tokens ts) ∧
      ∀ host, matches_any np host ↔ matches_any (mk_no_proxy entries all) host ∨ ∃ t, t ∈ tokens ts ∧ covers host t
  | inr e => e = Config ∧ ∃ t, t ∈ tokens ts ∧ ¬ token_ok t
  end.
Proof.
  revert entries all. induction ts as [|t ts IH]; intros entries all; cbn [parse_tokens].
  { split; [constructor|]. intros host. split; [auto|]. intros [?|(t & Ht & _)]; [done|by apply elem_of_nil in Ht]. }
  rewrite tokens_cons. destruct (decide (trim t = [])) as [Ht|Ht]; [apply IH|].
  destruct (decide (trim t = b#"*")) as [Hstar|Hstar].
  - specialize (IH entries true). destruct (parse_tokens ts entries true) as [np|e].
    + destruct IH as [Hok Hm]. split; [constructor; [by left|done]|]. intros host. rewrite Hm. unfold matches_any.
      cbn [match_all np_entries]. split; intros _; [right; exists (trim t)|left; by left].
      split; [apply list_elem_of_here|]. unfold covers. by rewrite decide_True.
    + destruct IH as [-> (x & Hx & ?)]. split; [done|]. exists x. split; [by apply list_elem_of_further|done].
  - pose proof (parse_token_spec (trim t) Hstar) as Hp. destruct (parse_token (trim t)) as [[e|]|err]; [|done|].
    + destruct Hp as [Hok Hhits]. change (option_list (Some e)) with [e]. specialize (IH (entries ++ [e]) all).
      destruct (parse_tokens ts (entries ++ [e]) all) as [np|err].
      * destruct IH as [Hoks Hm]. split; [by constructor|]. intros host. rewrite Hm. unfold matches_any.
        cbn [match_all np_entries]. setoid_rewrite elem_of_app. setoid_rewrite list_elem_of_singleton.
        setoid_rewrite elem_of_cons. specialize (Hhits host). naive_solver.
      * destruct IH as [-> (x & Hx & ?)]. split; [done|]. exists x. split; [by apply list_elem_of_further|done].
    + destruct Hp as [-> Hbad]. split; [done|]. exists (trim t). split; [apply list_elem_of_here|done].
Qed.

Lemma matches_host_spec np host : matches_host np host = true ↔ matches_any np (normalised host).
Proof.
  unfold matches_host, matches_any. destruct (match_all np); [naive_solver|].
  rewrite existsb_exists. setoid_rewrite list_elem_of_In. naive_solver.
Qed.

(** A [no_proxy] value bypasses exactly the hosts its tokens name: [*] every host;
    [localhost] itself and every loopback address; a network the literal addresses
    of its family whose first bits agree with it, as many as its prefix length says;
    a leading dot the domain and everything below it at a label boundary; any other
    token the very host - case and trailing dots aside.  A value is refused exactly
    when one of its networks is malformed. *)
Theorem no_proxy_exact raw host :
  match parse raw with
  | inl np =>
      Forall token_ok (tokens (split_by (is_char ","%char) raw)) ∧
      (matches_host np host = true ↔
       ∃ t, t ∈ tokens (split_by (is_char ","%char) raw) ∧ covers (normalised host) t)
  | inr e => e = Config ∧ ∃ t, t ∈ tokens (split_by (is_char ","%char) raw) ∧ ¬ token_ok t
  end.
Proof.
  unfold parse. pose proof (parse_tokens_spec (split_by (is_char ","%char) raw) [] false) as Hs.
  destruct (parse_tokens _ _ _) as [np|e]; [|done]. destruct Hs as [Hok Hm]. split; [done|].
  rewrite matches_host_spec, Hm. unfold matches_any. cbn [match_all np_entries].
  split; [intros [[?|(e & ?%elem_of_nil & _)]|?]; done|auto].
Qed.

(** The host an IPv6 URL is looked up by keeps its brackets, and in brackets it is no
    address: neither [localhost] nor a network covers it. *)
Lemma bracketed_loopback_is_not_local :
  (λ np, (matches_host np b#"::1", matches_host np b#"[::1]")) <$>
    match parse b#"localhost,::/0" with inl np => Some np | inr _ => None end = Some (true, false).
Proof. vm_compute. reflexivity. Qed.
