(* ===== verification/Tunnel.v ===== *)
(** [chromulate-proxy]: proxy URLs (src/crates/chromulate-proxy/src/url.rs) and
    tunnelling by SOCKS5 (RFC 1928 and 1929, src/crates/chromulate-proxy/src/socks5.rs),
    over a stream that [dial] has connected.

    The stream is what the proxy will send, in order, and what has been written to
    it; a write may fail.  Running out of bytes is the end of the stream.  Errors are
    those of CoreError, whose messages are left out.  The local resolver is an
    argument. *)
From S2P Require Import Prelude RustStr RustNet CoreError Dns.
Local Open Scope Z_scope.

(** ** The stream *)

Record Conn := mk_conn { cn_in : str; cn_out : str; cn_writes_fail : bool }.

Definition Io (A : Type) : Type := Conn → (A + Error) * Conn.

#[export] Instance Io_ret : MRet Io := λ A a c, (inl a, c).
#[export] Instance Io_bind : MBind Io := λ A B f m c,
  match m c with (inl a, c) => f a c | (inr e, c) => (inr e, c) end.

Definition fail {A} (e : Error) : Io A := λ c, (inr e, c).

(** Reading [n] bytes, or failing at the end of the stream. *)
Definition read_bytes (n : nat) (e : Error) : Io str := λ c,
  if decide (n ≤ length (cn_in c))%nat then
    (inl (take n (cn_in c)), mk_conn (drop n (cn_in c)) (cn_out c) (cn_writes_fail c))
  else (inr e, mk_conn [] (cn_out c) (cn_writes_fail c)).

Definition write_bytes (buf : str) (e : Error) : Io unit := λ c,
  if cn_writes_fail c then (inr e, c) else (inl tt, mk_conn (cn_in c) (cn_out c ++ buf) (cn_writes_fail c)).

(** ** Bytes *)

Definition byte (n : Z) : ascii := ascii_of_nat (Z.to_nat (n mod 256)).

(** [to_be_bytes] and [octets], [n] bytes wide. *)
Fixpoint be_bytes (n : nat) (v : Z) : str :=
  match n with O => [] | S n => be_bytes n (v / 256) ++ [byte v] end.

(** ** Proxies *)

Inductive ProxyScheme := SchemeHttp | SchemeHttps | SchemeSocks5 | SchemeSocks5h.

#[export] Instance ProxyScheme_eq_dec : EqDecision ProxyScheme.
Proof. solve_decision. Defined.

Record ProxyUrl := mk_proxy_url {
  px_scheme : ProxyScheme;
  px_host : str;
  px_port : Z;
  px_username : option str;
  px_password : option str;
}.

Definition has_credentials (p : ProxyUrl) : bool :=
  bool_decide (is_Some (px_username p)) || bool_decide (is_Some (px_password p)).

Definition client_resolves_target (s : ProxyScheme) : bool := bool_decide (s = SchemeSocks5).
Definition is_socks5 (s : ProxyScheme) : bool := bool_decide (s = SchemeSocks5) || bool_decide (s = SchemeSocks5h).

Definition scheme_str (s : ProxyScheme) : str :=
  match s with
  | SchemeHttp => b#"http" | SchemeHttps => b#"https" | SchemeSocks5 => b#"socks5" | SchemeSocks5h => b#"socks5h"
  end.

(** [Display] of [HostPort]: an IPv6 literal is bracketed. *)
Definition show_host_port (host : str) (port : Z) : str :=
  if bool_decide (":"%char ∈ host) then b#"[" ++ host ++ b#"]:" ++ show_u16 port
  else host ++ b#":" ++ show_u16 port.

(** [Display] of [ProxyUrl], which hides the credentials. *)
Definition show_proxy (p : ProxyUrl) : str :=
  scheme_str (px_scheme p) ++ b#"://" ++ (if has_credentials p then b#"***@" else [])
    ++ show_host_port (px_host p) (px_port p).

Definition proxy_error (p : ProxyUrl) : Error := Proxy (show_proxy p).

(** ** SOCKS5 *)

Definition VERSION : Z := 0x05.
Definition METHOD_NO_AUTH : Z := 0x00.
Definition METHOD_USERNAME_PASSWORD : Z := 0x02.
Definition METHOD_NO_ACCEPTABLE : Z := 0xFF.
Definition CMD_CONNECT : Z := 0x01.
Definition ATYP_V4 : Z := 0x01.
Definition ATYP_DOMAIN : Z := 0x03.
Definition ATYP_V6 : Z := 0x04.
Definition AUTH_SUBNEGOTIATION_VERSION : Z := 0x01.
Definition AUTH_SUCCESS : Z := 0x00.

Section Socks5.
Context (lookup : HostPort → option (list SocketAddr)) (proxy : ProxyUrl).

Definition write_all (buf : str) : Io unit := write_bytes buf (proxy_error proxy).
Definition read_exact (n : nat) : Io str := read_bytes n (proxy_error proxy).

(** One byte of what was read. *)
Definition at_ (i : nat) (buf : str) : Z := from_option code 0 (buf !! i).

Definition check_credential_length (value : str) : Io unit :=
  if 255 <? zlen value then fail Builder else mret tt.

Definition authenticate : Io unit :=
  let username := default [] (px_username proxy) in
  let password := default [] (px_password proxy) in
  _ ← check_credential_length username;
  _ ← check_credential_length password;
  _ ← write_all ([byte AUTH_SUBNEGOTIATION_VERSION; byte (zlen username)] ++ username
                  ++ [byte (zlen password)] ++ password);
  response ← read_exact 2;
  if negb (at_ 0 response =? AUTH_SUBNEGOTIATION_VERSION) then fail (proxy_error proxy)
  else if negb (at_ 1 response =? AUTH_SUCCESS) then fail (proxy_error proxy)
  else mret tt.

Definition methods_of : list Z :=
  if has_credentials proxy then [METHOD_USERNAME_PASSWORD; METHOD_NO_AUTH] else [METHOD_NO_AUTH].

Definition handshake : Io unit :=
  let methods := methods_of in
  _ ← write_all ([byte VERSION; byte (zlen methods)] ++ (byte <$> methods));
  selection ← read_exact 2;
  if negb (at_ 0 selection =? VERSION) then fail (proxy_error proxy)
  else
    let selected := at_ 1 selection in
    if selected =? METHOD_NO_ACCEPTABLE then fail (proxy_error proxy)
    else if negb (bool_decide (selected ∈ methods)) then fail (proxy_error proxy)
    else if selected =? METHOD_NO_AUTH then mret tt
    else if selected =? METHOD_USERNAME_PASSWORD then authenticate
    else fail (proxy_error proxy).

Definition push_ip_address (buf : str) (ip : IpAddr) (port : Z) : str :=
  match ip with
  | V4 bits => buf ++ [byte ATYP_V4] ++ be_bytes 4 bits
  | V6 bits => buf ++ [byte ATYP_V6] ++ be_bytes 16 bits
  end ++ be_bytes 2 port.

Definition push_domain_address (buf host : str) (port : Z) : str + Error :=
  if 255 <? zlen host then inr Builder
  else inl (buf ++ [byte ATYP_DOMAIN; byte (zlen host)] ++ host ++ be_bytes 2 port).

Definition encode_address (buf : str) (target : HostPort) : str + Error :=
  match parse_ip (hp_host target) with
  | Some ip => inl (push_ip_address buf ip (hp_port target))
  | None =>
      if decide (px_scheme proxy = SchemeSocks5h) then push_domain_address buf (hp_host target) (hp_port target)
      else
        match lookup target with
        | None => inr (Resolve (hp_host target))
        | Some [] => inr (Resolve (hp_host target))
        | Some (resolved :: _) => inl (push_ip_address buf (sa_ip resolved) (hp_port target))
        end
  end.

Definition reply_to_result (reply : Z) : Io unit := if reply =? 0x00 then mret tt else fail (proxy_error proxy).

Definition discard (n : nat) : Io unit := _ ← read_exact n; mret tt.

(** The match on [address_type] that ends [request_connect]. *)
Definition skip_bound_address (address_type : Z) : Io unit :=
  if address_type =? ATYP_V4 then discard (4 + 2)
  else if address_type =? ATYP_V6 then discard (16 + 2)
  else if address_type =? ATYP_DOMAIN then
    len ← read_exact 1;
    discard (Z.to_nat (at_ 0 len) + 2)
  else fail (proxy_error proxy).

Definition request_connect (target : HostPort) : Io unit :=
  match encode_address [byte VERSION; byte CMD_CONNECT; byte 0x00] target with
  | inr e => fail e
  | inl request =>
      _ ← write_all request;
      head ← read_exact 4;
      if negb (at_ 0 head =? VERSION) then fail (proxy_error proxy)
      else
        _ ← reply_to_result (at_ 1 head);
        skip_bound_address (at_ 3 head)
  end.

(** [socks5::connect], once dialled. *)
Definition socks5_connect (target : HostPort) : Io unit :=
  _ ← handshake; request_connect target.

End Socks5.

(** ** Exchanges

    [talk c sent received c']: from [c] to [c'], [sent] was written and [received] read. *)

Definition talk (c : Conn) (sent received : str) (c' : Conn) : Prop :=
  cn_in c = received ++ cn_in c' ∧ cn_out c' = cn_out c ++ sent ∧
  cn_writes_fail c = false ∧ cn_writes_fail c' = false.

Lemma bind_inl {A B} (m : Io A) (f : A → Io B) c y c' :
  (m ≫= f) c = (inl y, c') ↔ ∃ x c1, m c = (inl x, c1) ∧ f x c1 = (inl y, c').
Proof. unfold mbind, Io_bind. destruct (m c) as [[x|e] c1]; naive_solver. Qed.

Lemma ret_inl {A} (x : A) c y c' : (mret x : Io A) c = (inl y, c') ↔ y = x ∧ c' = c.
Proof. unfold mret, Io_ret. naive_solver. Qed.

Lemma fail_inl {A} e c (y : A) c' : fail e c = (inl y, c') ↔ False.
Proof. unfold fail. naive_solver. Qed.

Lemma guard_inl {A} (b : bool) e (m : Io A) c y c' :
  (if b then fail e else m) c = (inl y, c') ↔ b = false ∧ m c = (inl y, c').
Proof. destruct b; [rewrite fail_inl|]; naive_solver. Qed.

Lemma read_inl n e c x c' :
  cn_writes_fail c = false → read_bytes n e c = (inl x, c') ↔ length x = n ∧ talk c [] x c'.
Proof.
  intros Hf. unfold read_bytes, talk. case_decide as Hn.
  - split.
    + intros [= <- <-]. cbn. rewrite length_take, take_drop, app_nil_r. split; [lia|done].
    + intros (Hx & Hin & Hout & _ & Hf'). rewrite Hin, <- Hx, take_app_length, drop_app_length.
      rewrite app_nil_r in Hout. destruct c' as [i o w]. cbn in *. by rewrite Hf, <- Hout, Hf'.
  - split; [done|]. intros (Hx & Hin & _). rewrite Hin, length_app in Hn. lia.
Qed.

Lemma write_inl buf e c u c' : write_bytes buf e c = (inl u, c') ↔ talk c buf [] c'.
Proof.
  unfold write_bytes, talk. destruct c as [i o [|]], c' as [i' o' w']; cbn; destruct u; naive_solver.
Qed.

Lemma talk_trans c s r c1 s' r' c2 : talk c s r c1 → talk c1 s' r' c2 → talk c (s ++ s') (r ++ r') c2.
Proof. unfold talk. intros (-> & Ho & ? & ?) (-> & -> & ? & ?). rewrite Ho, <- !app_assoc. done. Qed.

(** What was said and heard in turn can be taken apart again. *)
Lemma talk_app c s s' r r' c2 :
  talk c (s ++ s') (r ++ r') c2 ↔ ∃ c1, talk c s r c1 ∧ talk c1 s' r' c2.
Proof.
  split; [|intros (? & ? & ?); by eapply talk_trans].
  intros (Hi & Ho & Hf & Hf'). exists (mk_conn (r' ++ cn_in c2) (cn_out c ++ s) false).
  unfold talk. cbn. by rewrite Hi, Ho, <- !app_assoc, Hf, Hf'.
Qed.

Lemma talk_live c s r c' : talk c s r c' → cn_writes_fail c' = false.
Proof. unfold talk. naive_solver. Qed.

(** ** Bytes on the wire *)

Lemma code_of_byte n : 0 <= n < 256 → code (byte n) = n.
Proof. intros Hn. unfold byte. rewrite Z.mod_small by done. by apply code_byte. Qed.

Lemma code_range c : 0 <= code c < 256.
Proof. unfold code. pose proof (nat_ascii_bounded c). lia. Qed.

Lemma byte_of_code c : byte (code c) = c.
Proof. apply code_inj, code_of_byte, code_range. Qed.

(** Reading one byte as a number. *)
Lemma byte_is n c : 0 <= n < 256 → code c = n ↔ c = byte n.
Proof. intros Hn. split; [intros <-; by rewrite byte_of_code|intros ->; by apply code_of_byte]. Qed.

Lemma be_bytes_length n v : length (be_bytes n v) = n.
Proof. revert v. induction n as [|n IH]; intros v; cbn; [done|]. rewrite length_app, IH. cbn. lia. Qed.

(** The number a big-endian field spells. *)
Definition be_value (s : str) : Z := foldl (λ acc c, acc * 256 + code c) 0 s.

Lemma be_value_bytes n v : 0 <= v < 256 ^ Z.of_nat n → be_value (be_bytes n v) = v.
Proof.
  revert v. induction n as [|n IH]; intros v Hv; [cbn in *; lia|].
  rewrite Nat2Z.inj_succ, Z.pow_succ_r in Hv by lia. unfold be_value. cbn [be_bytes]. rewrite foldl_app. cbn [foldl].
  fold (be_value (be_bytes n (v / 256))). rewrite IH.
  - unfold byte. rewrite code_byte by (apply Z.mod_pos_bound; lia). pose proof (Z.div_mod v 256). lia.
  - split; [apply Z.div_pos; lia|apply Z.div_lt_upper_bound; lia].
Qed.

(** ** What SOCKS5 says and hears (RFC 1928 and 1929) *)

Section Protocol.
Context (lookup : HostPort → option (list SocketAddr)) (proxy : ProxyUrl).

Definition greeting : str :=
  [byte VERSION; byte (zlen (methods_of proxy))] ++ (byte <$> methods_of proxy).

Definition credentials : str :=
  let username := default [] (px_username proxy) in
  let password := default [] (px_password proxy) in
  [byte 1; byte (zlen username)] ++ username ++ [byte (zlen password)] ++ password.

Definition credentials_fit : Prop :=
  zlen (default [] (px_username proxy)) <= 255 ∧ zlen (default [] (px_password proxy)) <= 255.

(** A bound address and port of each address type. *)
Inductive bound_address : Z → str → Prop :=
  | bound_v4 a : length a = (4 + 2)%nat → bound_address 1 a
  | bound_v6 a : length a = (16 + 2)%nat → bound_address 4 a
  | bound_domain n a : length a = (Z.to_nat (code n) + 2)%nat → bound_address 3 (n :: a).

(** A successful reply: version 5, reply 0, a reserved byte, then the bound address. *)
Inductive success_reply : str → Prop :=
  | succeeded reserved address_type a :
      bound_address (code address_type) a → success_reply ([byte 5; byte 0; reserved; address_type] ++ a).

(** The handshake with the method the proxy picks. *)
Inductive negotiation : str → str → Prop :=
  | no_auth : negotiation greeting [byte 5; byte 0]
  | with_credentials :
      has_credentials proxy = true → credentials_fit →
      negotiation (greeting ++ credentials) ([byte 5; byte 2] ++ [byte 1; byte 0]).

Lemma two_bytes (s : str) : length s = 2%nat → s = [byte (at_ 0 s); byte (at_ 1 s)].
Proof. destruct s as [|a [|b [|]]]; try done. intros _. cbn. by rewrite !byte_of_code. Qed.

Lemma check_inl value c u c' : check_credential_length value c = (inl u, c') ↔ zlen value <= 255 ∧ c' = c.
Proof. unfold check_credential_length. rewrite guard_inl, ret_inl, Z.ltb_ge. destruct u. naive_solver. Qed.

Lemma authenticate_inl c u c' :
  cn_writes_fail c = false →
  authenticate proxy c = (inl u, c') ↔ credentials_fit ∧ talk c credentials [byte 1; byte 0] c'.
Proof.
  intros Hf. unfold authenticate, credentials_fit. destruct u.
  setoid_rewrite bind_inl. setoid_rewrite check_inl. split.
  - intros (? & ? & [Hu ->] & Ha). apply bind_inl in Ha as (? & ? & [Hp ->]%check_inl & Ha).
    apply bind_inl in Ha as (? & c1 & Hw%write_inl & Ha). apply bind_inl in Ha as (r & c2 & Hr & Ha).
    apply read_inl in Hr as [Hl Hr]; [|by eapply talk_live]. rewrite !guard_inl, ret_inl in Ha.
    destruct Ha as (Hv & Hs & _ & ->). split; [done|]. bool_prop.
    rewrite (two_bytes r Hl), Hv, Hs in Hr. pose proof (talk_trans _ _ _ _ _ _ _ Hw Hr) as Ht.
    by rewrite app_nil_r in Ht.
  - intros [[Hu Hp] Ht]. exists tt, c. split; [done|]. apply bind_inl. exists tt, c. split; [by apply check_inl|].
    rewrite <- (app_nil_r credentials) in Ht. apply (talk_app _ _ _ [] [byte 1; byte 0]) in Ht as (c1 & Hw & Hr).
    apply bind_inl. exists tt, c1. split; [by apply write_inl|]. apply bind_inl. exists [byte 1; byte 0], c'.
    split; [|done]. apply read_inl; [by eapply talk_live|done].
Qed.

Lemma selected_cases :
  (methods_of proxy = [METHOD_USERNAME_PASSWORD; METHOD_NO_AUTH] ∧ has_credentials proxy = true) ∨
  (methods_of proxy = [METHOD_NO_AUTH] ∧ has_credentials proxy = false).
Proof. unfold methods_of. destruct (has_credentials proxy); auto. Qed.

Lemma handshake_inl c u c' :
  handshake proxy c = (inl u, c') ↔ ∃ sent received, negotiation sent received ∧ talk c sent received c'.
Proof.
  destruct u. unfold handshake. rewrite bind_inl. split.
  - intros (? & c1 & Hw%write_inl & Hr). apply bind_inl in Hr as (sel & c2 & Hr & Hs).
    apply read_inl in Hr as [Hl Hr]; [|by eapply talk_live]. rewrite guard_inl in Hs. destruct Hs as [Hv Hs].
    bool_prop. rewrite (two_bytes sel Hl), Hv in Hr. pose proof (talk_trans _ _ _ _ _ _ _ Hw Hr) as Ht.
    rewrite app_nil_r in Ht. revert Hs. destruct (at_ 1 sel =? METHOD_NO_ACCEPTABLE); [by rewrite fail_inl|].
    case_bool_decide as Hin; cbn [negb]; [|by rewrite fail_inl].
    destruct (at_ 1 sel =? METHOD_NO_AUTH) eqn:H0; bool_prop.
    { intros [_ ->]%ret_inl. rewrite H0 in Ht. do 2 eexists. split; [apply no_auth|exact Ht]. }
    destruct (at_ 1 sel =? METHOD_USERNAME_PASSWORD) eqn:H2; bool_prop; [|by rewrite fail_inl].
    intros [Hfit Ha]%authenticate_inl; [|by eapply talk_live]. rewrite H2 in Ht. do 2 eexists.
    split; [apply with_credentials; [|done]|by eapply talk_trans].
    destruct selected_cases as [[_ ?]|[Hm _]]; [done|]. rewrite Hm, H2 in Hin. by inversion Hin as [|? ? ? Hn]; inversion Hn.
  - intros (sent & received & Hn & Ht). exists tt. inversion Hn as [Hs|Hc Hfit Hs]; subst sent received.
    + rewrite <- (app_nil_r greeting) in Ht. apply (talk_app _ _ _ [] _) in Ht as (c1 & Hw & Hr).
      exists c1. split; [by apply write_inl|]. apply bind_inl. exists [byte 5; byte 0], c'.
      split; [apply read_inl; [by eapply talk_live|done]|].
      cbn. rewrite bool_decide_eq_true_2; [done|]. unfold methods_of. destruct (has_credentials proxy); set_solver.
    + apply talk_app in Ht as (c2 & Ht & Ha). rewrite <- (app_nil_r greeting) in Ht.
      apply (talk_app _ _ _ [] _) in Ht as (c1 & Hw & Hr). exists c1. split; [by apply write_inl|].
      apply bind_inl. exists [byte 5; byte 2], c2. split; [apply read_inl; [by eapply talk_live|done]|].
      cbn. rewrite bool_decide_eq_true_2 by (unfold methods_of; rewrite Hc; set_solver). cbn [negb].
      apply authenticate_inl; [by eapply talk_live|done].
Qed.

Lemma discard_inl n c u c' :
  cn_writes_fail c = false → discard proxy n c = (inl u, c') ↔ ∃ a, length a = n ∧ talk c [] a c'.
Proof.
  intros Hf. unfold discard. setoid_rewrite bind_inl. destruct u. split.
  - intros (a & c1 & [? ?]%read_inl & [_ ->]%ret_inl); [|done]. eauto.
  - intros (a & ? & ?). exists a, c'. split; [by apply read_inl|done].
Qed.

Lemma skip_bound_inl t c u c' :
  cn_writes_fail c = false →
  skip_bound_address proxy t c = (inl u, c') ↔ ∃ a, bound_address t a ∧ talk c [] a c'.
Proof.
  intros Hf. destruct u. unfold skip_bound_address. split.
  - destruct (t =? ATYP_V4) eqn:H4; [|destruct (t =? ATYP_V6) eqn:H6; [|destruct (t =? ATYP_DOMAIN) eqn:Hd]];
      bool_prop; subst; [| | |by rewrite fail_inl].
    1, 2: intros (a & ? & ?)%discard_inl; [|done]; exists a; split; [by constructor|done].
    intros (n & c1 & [Hn1 Hn]%read_inl & Ha)%bind_inl; [|done].
    apply discard_inl in Ha as (a & Hla & Ha); [|by eapply talk_live]. destruct n as [|n [|]]; try done.
    exists (n :: a). split; [by constructor|]. exact (talk_trans _ _ _ _ _ _ _ Hn Ha).
  - intros (a & Hb & Ht). inversion Hb as [? Hl|? Hl|n a' Hl]; subst; cbn.
    1, 2: apply discard_inl; [done|]; eauto.
    apply bind_inl. apply (talk_app _ [] [] [n] a') in Ht as (c1 & Hn & Ha). exists [n], c1.
    split; [by apply read_inl|]. apply discard_inl; [by eapply talk_live|]. eauto.
Qed.

Lemma request_connect_inl target c u c' :
  request_connect lookup proxy target c = (inl u, c') ↔
  ∃ request reply, encode_address lookup proxy [byte 5; byte 1; byte 0] target = inl request ∧
    success_reply reply ∧ talk c request reply c'.
Proof.
  unfold request_connect. change (byte VERSION) with (byte 5). change (byte CMD_CONNECT) with (byte 1).
  change (byte 0x00) with (byte 0). destruct (encode_address _ _ _ target) as [request|e]; [|rewrite fail_inl; naive_solver].
  destruct u. rewrite bind_inl. split.
  - intros (? & c1 & Hw%write_inl & Hr). apply bind_inl in Hr as (h & c2 & Hr & Hs).
    apply read_inl in Hr as [Hl Hr]; [|by eapply talk_live]. rewrite guard_inl in Hs. destruct Hs as [Hv Hs].
    apply bind_inl in Hs as (? & ? & Hz & Hs). unfold reply_to_result in Hz.
    destruct (at_ 1 h =? 0) eqn:H0; [|done]. injection Hz as _ <-. bool_prop.
    apply skip_bound_inl in Hs as (a & Hb & Ha); [|by eapply talk_live].
    destruct h as [|h0 [|h1 [|h2 [|h3 [|]]]]]; try done. cbn in Hv, H0, Hb.
    apply byte_is in Hv as ->; [|done]. apply byte_is in H0 as ->; [|done].
    eexists request, _. split; [done|]. split; [by apply (succeeded h2)|]. rewrite <- (app_nil_r request).
    apply (talk_trans _ _ [] _ _ _ _ Hw). exact (talk_trans _ _ _ _ _ _ _ Hr Ha).
  - intros (request' & reply & [= <-] & Hrep & Ht). inversion Hrep as [r t a Hb Heq]; subst reply.
    rewrite <- (app_nil_r request) in Ht. apply (talk_app _ _ _ [] _) in Ht as (c1 & Hw & Ht).
    apply (talk_app _ [] []) in Ht as (c2 & Hh & Ha). exists tt, c1. split; [by apply write_inl|].
    apply bind_inl. exists [byte 5; byte 0; r; t], c2. split; [apply read_inl; [by eapply talk_live|done]|].
    cbn. apply bind_inl. exists tt, c2. split; [done|]. apply skip_bound_inl; [by eapply talk_live|eauto].
Qed.

(** What [handshake] has written when it ends, however it ends. *)
Lemma handshake_outputs c :
  cn_out (handshake proxy c).2 = cn_out c ∨ cn_out (handshake proxy c).2 = cn_out c ++ greeting ∨
  (has_credentials proxy = true ∧ take 2 (cn_in c) = [byte 5; byte 2]).
Proof.
  unfold handshake, mbind, Io_bind, write_all, write_bytes. fold greeting.
  destruct (cn_writes_fail c); [by left|]. cbn [read_exact]. unfold read_exact, read_bytes. cbn [cn_in].
  case_decide as Hl; [|by right; left]. set (sel := take 2 (cn_in c)).
  assert (length sel = 2)%nat as Hsel by (unfold sel; rewrite length_take; lia).
  destruct (at_ 0 sel =? VERSION) eqn:Hv; [|by right; left]. cbn [negb].
  destruct (at_ 1 sel =? METHOD_NO_ACCEPTABLE); [by right; left|]. case_bool_decide as Hin; [|by right; left]. cbn [negb].
  destruct (at_ 1 sel =? METHOD_NO_AUTH); [by right; left|].
  destruct (at_ 1 sel =? METHOD_USERNAME_PASSWORD) eqn:H2; [|by right; left]. bool_prop.
  right; right. rewrite (two_bytes sel Hsel), Hv, H2. split; [|done].
  destruct selected_cases as [[_ ?]|[Hm _]]; [done|]. rewrite Hm, H2 in Hin. set_solver.
Qed.

(** The reads that follow a request write nothing. *)
Lemma read_writes_nothing n e c : cn_out (read_bytes n e c).2 = cn_out c.
Proof. unfold read_bytes. by case_decide. Qed.

Lemma skip_bound_outputs t c : cn_out (skip_bound_address proxy t c).2 = cn_out c.
Proof.
  assert (Hd : ∀ n c, cn_out (discard proxy n c).2 = cn_out c).
  { intros n c0. unfold discard, mbind, Io_bind, read_exact.
    pose proof (read_writes_nothing n (proxy_error proxy) c0) as Hr. by destruct (read_bytes _ _ _) as [[]]. }
  unfold skip_bound_address. repeat case_match; try done.
  unfold mbind, Io_bind, read_exact. pose proof (read_writes_nothing 1 (proxy_error proxy) c) as Hr.
  destruct (read_bytes _ _ _) as [[] c1]; [|done]. cbn in Hr. by rewrite Hd.
Qed.

Lemma request_outputs target c :
  cn_out (request_connect lookup proxy target c).2 = cn_out c ∨
  ∃ request, encode_address lookup proxy [byte 5; byte 1; byte 0] target = inl request ∧
    cn_out (request_connect lookup proxy target c).2 = cn_out c ++ request.
Proof.
  unfold request_connect. change (byte VERSION) with (byte 5). change (byte CMD_CONNECT) with (byte 1).
  change (byte 0x00) with (byte 0). destruct (encode_address _ _ _ target) as [request|e]; [|by left].
  unfold mbind, Io_bind, write_all, write_bytes. destruct (cn_writes_fail c); [by left|].
  right. exists request. split; [done|]. unfold read_exact.
  match goal with |- context [read_bytes ?n ?e ?c] => pose proof (read_writes_nothing n e c) as Hr;
    destruct (read_bytes n e c) as [[h|] c1] end; [|done]. cbn in Hr. destruct (negb _); [done|].
  unfold reply_to_result. destruct (_ =? 0); [|done]. cbn. by rewrite skip_bound_outputs.
Qed.
End Protocol.

Section Tunnels.
Context (lookup : HostPort → option (list SocketAddr)) (proxy : ProxyUrl).

(** C9. [socks5::connect] succeeds exactly when the proxy answers as RFC 1928 and 1929
    say: it picks a method that was offered, accepts the credentials when it asked for
    them, and sends a successful reply.  Then exactly the greeting, the credentials if
    asked for, and the request were written, and the stream is left at the first byte
    of the tunnel: not one byte of the target's is consumed. *)
Theorem socks5_exact target input out c' :
  socks5_connect lookup proxy target (mk_conn input out false) = (inl tt, c') ↔
  ∃ said heard request reply rest,
    negotiation proxy said heard ∧
    encode_address lookup proxy [byte 5; byte 1; byte 0] target = inl request ∧
    success_reply reply ∧
    input = heard ++ reply ++ rest ∧
    c' = mk_conn rest (out ++ said ++ request) false.
Proof.
  unfold socks5_connect. rewrite bind_inl. setoid_rewrite handshake_inl. setoid_rewrite request_connect_inl. split.
  - intros (? & c1 & (sa & he & Hn & Ht) & (rq & rp & He & Hs & Ht')).
    destruct (talk_trans _ _ _ _ _ _ _ Ht Ht') as (Hi & Ho & _ & Hf). exists sa, he, rq, rp, (cn_in c').
    cbn in Hi, Ho. rewrite <- app_assoc in Hi. destruct c'. cbn in *. by subst.
  - intros (sa & he & rq & rp & rest & Hn & He & Hs & -> & ->).
    destruct (proj1 (talk_app (mk_conn (he ++ rp ++ rest) out false) sa rq he rp (mk_conn rest (out ++ sa ++ rq) false)))
      as (c1 & Ht & Ht'); [unfold talk; cbn; by rewrite <- !app_assoc|].
    exists tt, c1. split; [by exists sa, he|]. by exists rq, rp.
Qed.

(** C10. Credentials are only ever disclosed to a proxy that was offered the
    username/password method and asked for it: on every other input, whatever happens
    next, nothing beyond the greeting and the request has been written. *)
Theorem credentials_need_consent target input out fails :
  has_credentials proxy = false ∨ take 2 input ≠ [byte 5; byte 2] →
  let written := cn_out (socks5_connect lookup proxy target (mk_conn input out fails)).2 in
  written = out ∨ written = out ++ greeting proxy ∨
  ∃ request, encode_address lookup proxy [byte 5; byte 1; byte 0] target = inl request ∧
    written = out ++ greeting proxy ++ request.
Proof.
  intros Hno written. set (c := mk_conn input out fails) in *.
  assert (Hw : written = match handshake proxy c with
    | (inl _, c1) => cn_out (request_connect lookup proxy target c1).2 | (inr _, c1) => cn_out c1 end).
  { unfold written, socks5_connect, mbind, Io_bind. by destruct (handshake proxy c) as [[] ?]. }
  clearbody written. subst written. pose proof (handshake_outputs proxy c) as Ho.
  destruct (handshake proxy c) as [[u|e] c1] eqn:Hh; cbn [snd] in *.
  - apply handshake_inl in Hh as (sa & he & Hn & (Hi & Hout & _)).
    assert (sa = greeting proxy) as ->.
    { inversion Hn as [|Hc _]; subst; [done|]. cbn in Hi. rewrite Hi in Hno. destruct Hno; [congruence|done]. }
    change (cn_out c1 = out ++ greeting proxy) in Hout.
    destruct (request_outputs lookup proxy target c1) as [->|(rq & He & ->)]; [by right; left|].
    right; right. exists rq. rewrite Hout, <- app_assoc. by split.
  - destruct Ho as [?|[?|[? ?]]]; [auto|auto|]. destruct Hno; [congruence|done].
Qed.
End Tunnels.

(** ** Who is asked for *)

(** The destination a request names: an address literal as it is; a name, under
    [socks5h], itself; and under [socks5] the first address it resolves to. *)
Definition destination (lookup : HostPort → option (list SocketAddr)) (proxy : ProxyUrl) (target : HostPort)
    : option (IpAddr + str) :=
  match parse_ip (hp_host target) with
  | Some ip => Some (inl ip)
  | None =>
      if decide (px_scheme proxy = SchemeSocks5h) then Some (inr (hp_host target))
      else addrs ← lookup target; resolved ← head addrs; Some (inl (sa_ip resolved))
  end.

(** A proxy's reading of a request (RFC 1928, section 4). *)
Definition read_destination (address_type : Z) (s : str) : option ((IpAddr + str) * Z) :=
  if decide (address_type = 1 ∧ length s = 6%nat) then Some (inl (V4 (be_value (take 4 s))), be_value (drop 4 s))
  else if decide (address_type = 4 ∧ length s = 18%nat) then Some (inl (V6 (be_value (take 16 s))), be_value (drop 16 s))
  else
    match s with
    | n :: s =>
        let n := Z.to_nat (code n) in
        if decide (address_type = 3 ∧ length s = (n + 2)%nat) then Some (inr (take n s), be_value (drop n s)) else None
    | [] => None
    end.

Definition read_request (s : str) : option ((IpAddr + str) * Z) :=
  match s with
  | version :: command :: reserved :: address_type :: s =>
      if decide (code version = 5 ∧ code command = 1 ∧ code reserved = 0) then read_destination (code address_type) s
      else None
  | _ => None
  end.

Lemma read_pushed_ip ip port :
  ip_ok ip → 0 <= port < 65536 →
  read_request (push_ip_address [byte 5; byte 1; byte 0] ip port) = Some (inl ip, port).
Proof.
  intros Hip Hport.
  assert (Hsplit : ∀ n v, be_value (take n (be_bytes n v ++ be_bytes 2 port)) = be_value (be_bytes n v)
    ∧ be_value (drop n (be_bytes n v ++ be_bytes 2 port)) = port).
  { intros n v. rewrite take_app_length', drop_app_length' by (symmetry; apply be_bytes_length).
    split; [done|]. by apply be_value_bytes. }
  destruct ip as [v|v]; unfold push_ip_address; rewrite <- !app_assoc; cbn [app read_request];
    rewrite decide_True by done; unfold read_destination.
  - rewrite decide_True by (split; [done|]; by rewrite length_app, !be_bytes_length).
    destruct (Hsplit 4%nat v) as [-> ->]. by rewrite be_value_bytes.
  - rewrite decide_False by (intros [? _]; done). rewrite decide_True by (split; [done|]; by rewrite length_app, !be_bytes_length).
    destruct (Hsplit 16%nat v) as [-> ->]. by rewrite be_value_bytes.
Qed.

Lemma read_pushed_domain host port request :
  0 <= port < 65536 → push_domain_address [byte 5; byte 1; byte 0] host port = inl request →
  read_request request = Some (inr host, port).
Proof.
  intros Hport. unfold push_domain_address. destruct (255 <? zlen host) eqn:Hl; [done|]. bool_prop. intros Heq%(inj inl). subst request.
  pose proof (zlen_nonneg host). pose proof (be_bytes_length 2 port) as Hn.
  pose proof (be_value_bytes 2 port Hport) as Hp. generalize dependent (be_bytes 2 port). intros field Hn Hp.
  cbn [app read_request]. rewrite decide_True by done. unfold read_destination.
  rewrite decide_False by (intros [? _]; done). rewrite decide_False by (intros [? _]; done).
  rewrite (code_of_byte (zlen host)) by lia. unfold zlen. rewrite Nat2Z.id.
  rewrite decide_True by (split; [done|]; by rewrite length_app, Hn).
  by rewrite take_app_length, drop_app_length, Hp.
Qed.

(** The request names the target: a proxy that reads it as RFC 1928 says finds the
    target's port and its destination, which for [socks5h] is the host name as it
    stands, whatever the local resolver would have said. *)
Theorem request_names_target lookup proxy target request :
  0 <= hp_port target < 65536 →
  (∀ addrs, lookup target = Some addrs → Forall (λ a, ip_ok (sa_ip a)) addrs) →
  encode_address lookup proxy [byte 5; byte 1; byte 0] target = inl request →
  ∃ d, destination lookup proxy target = Some d ∧ read_request request = Some (d, hp_port target).
Proof.
  intros Hport Hl. unfold encode_address, destination.
  destruct (parse_ip (hp_host target)) as [ip|] eqn:Hip.
  { intros [= <-]. eexists. split; [done|]. apply read_pushed_ip; [by eapply parse_ip_ok|done]. }
  case_decide; [intros ?; eexists; split; [done|]; by apply read_pushed_domain|].
  destruct (lookup target) as [[|a addrs]|]; [done| |done]. intros [= <-].
  eexists. split; [done|]. apply read_pushed_ip; [|done]. specialize (Hl _ eq_refl). by inversion Hl.
Qed.

(** ** An exchange *)

Definition demo_proxy : ProxyUrl := mk_proxy_url SchemeSocks5h b#"proxy.test" 1080 (Some b#"u") (Some b#"pw").
Definition demo_request_target : HostPort := mk_host_port b#"a.example" 443.
Definition demo_answer : str :=
  (byte <$> [5; 2; 1; 0]) ++ (byte <$> [5; 0; 0; 1; 10; 0; 0; 1; 31; 144]) ++ b#"tunnel".

Example demo_socks5 :
  socks5_connect (λ _, None) demo_proxy demo_request_target (mk_conn demo_answer [] false)
  = (inl tt, mk_conn b#"tunnel"
      ((byte <$> [5; 2; 2; 0; 1; 1]) ++ b#"u" ++ [byte 2] ++ b#"pw"
        ++ (byte <$> [5; 1; 0; 3; 9]) ++ b#"a.example" ++ (byte <$> [1; 187])) false).
Proof. vm_compute. reflexivity. Qed.

Lemma credentials_need_consent_witness :
  let c := mk_conn (byte <$> [5; 0; 5; 0; 0; 9]) [] false in
  let written := cn_out (socks5_connect (λ _, None) demo_proxy demo_request_target c).2 in
  written = [] ∨ written = greeting demo_proxy ∨
  ∃ request, encode_address (λ _, None) demo_proxy [byte 5; byte 1; byte 0] demo_request_target = inl request ∧
    written = greeting demo_proxy ++ request.
Proof. apply (credentials_need_consent (λ _, None) demo_proxy demo_request_target). right. done. Defined.

Lemma request_names_target_witness :
  ∃ d, destination (λ _, None) demo_proxy demo_request_target = Some d ∧
    read_request ((byte <$> [5; 1; 0; 3; 9]) ++ b#"a.example" ++ (byte <$> [1; 187])) = Some (d, 443).
Proof.
  apply (request_names_target (λ _, None) demo_proxy demo_request_target); [cbn; lia|done|].
  vm_compute. reflexivity.
Defined.
