(* ===== verification/HttpConnect.v ===== *)
(** [chromulate-proxy]: tunnelling by HTTP [CONNECT]
    (src/crates/chromulate-proxy/src/http_connect.rs), over the stream of Tunnel.v.

    The base64 encoding, another crate's, is an argument.  The reason phrase is only
    displayed, so [sanitize_reason] has no counterpart. *)
From S2P Require Import Prelude RustStr RustNet CoreError Dns Tunnel.
Local Open Scope Z_scope.

Definition CR : ascii := "013"%char.
Definition LF : ascii := "010"%char.
Definition CRLF : str := [CR; LF].
Definition SP : ascii := " "%char.

Definition MAX_HEAD_BYTES : Z := 16 * 1024.

(** The loop of [read_head]: the head read so far grows by a byte at a time. *)
Fixpoint read_head_from (head input : str) : option str * str :=
  match input with
  | [] => (None, [])
  | b :: input =>
      let head := head ++ [b] in
      if ends_with head (CRLF ++ CRLF) then (Some head, input)
      else if MAX_HEAD_BYTES <? zlen head then (None, input)
      else read_head_from head input
  end.

Definition read_head (e : Error) : Io str := λ c,
  let '(head, input) := read_head_from [] (cn_in c) in
  (match head with Some head => inl head | None => inr e end, mk_conn input (cn_out c) (cn_writes_fail c)).

(** The first piece of [splitn] at a space, and the rest if there is one. *)
Definition next_part (s : str) : str * option str :=
  match split_once SP s with Some (a, rest) => (a, Some rest) | None => (s, None) end.

Definition parse_status_line (head : str) : option (Z * str) :=
  line_end ← find_by (is_char LF) head;
  let line := take line_end head in
  if negb (is_utf8 line) then None
  else
    let '(version, rest) := next_part (trim_end_matches CR line) in
    if negb (starts_with version b#"HTTP/") then None
    else
      rest ← rest;
      let '(status, reason) := next_part rest in
      if negb (bool_decide (length status = 3%nat)) || negb (forallb is_ascii_digit status) then None
      else
        status ← parse_unsigned 65535 status;
        Some (status, default [] reason).

Section Connect.
Context (base64_encode : str → str) (proxy : ProxyUrl).

Definition basic_auth_header_value : option str :=
  if negb (has_credentials proxy) then None
  else
    let username := default [] (px_username proxy) in
    let password := default [] (px_password proxy) in
    Some (b#"Basic " ++ base64_encode (username ++ b#":" ++ password)).

Definition connect_request (target : HostPort) : str :=
  let authority := show_host_port (hp_host target) (hp_port target) in
  b#"CONNECT " ++ authority ++ b#" HTTP/1.1" ++ CRLF ++ b#"Host: " ++ authority ++ CRLF
    ++ match basic_auth_header_value with
       | Some auth => b#"Proxy-Authorization: " ++ auth ++ CRLF
       | None => []
       end
    ++ CRLF.

(** [tunnel]. *)
Definition http_tunnel (target : HostPort) : Io unit :=
  _ ← write_all proxy (connect_request target);
  head ← read_head (proxy_error proxy);
  match parse_status_line head with
  | None => fail (proxy_error proxy)
  | Some (status, _) =>
      if negb ((200 <=? status) && (status <? 300)) then fail (proxy_error proxy) else mret tt
  end.
End Connect.

(** ** The head *)

(** A complete head: it ends in a blank line and no shorter prefix does. *)
Definition complete_head (head : str) : Prop :=
  ends_with head (CRLF ++ CRLF) = true ∧
  ∀ shorter rest, head = shorter ++ rest → rest ≠ [] → ends_with shorter (CRLF ++ CRLF) = false.

Lemma read_head_from_spec seen input head rest :
  (∀ shorter r, seen = shorter ++ r → ends_with shorter (CRLF ++ CRLF) = false) →
  zlen seen <= MAX_HEAD_BYTES →
  read_head_from seen input = (Some head, rest) ↔
  complete_head head ∧ zlen head <= MAX_HEAD_BYTES + 1 ∧ ∃ more, head = seen ++ more ∧ input = more ++ rest.
Proof.
  revert seen. induction input as [|b input IH]; intros seen Hseen Hlen; cbn [read_head_from].
  { split; [done|]. intros ([He _] & _ & more & -> & Heq). symmetry in Heq. apply app_nil in Heq as [-> ->].
    rewrite app_nil_r in He. by rewrite (Hseen seen []) in He by (by rewrite app_nil_r). }
  assert (Hprefix : ∀ shorter r, seen ++ [b] = shorter ++ r → r ≠ [] → ends_with shorter (CRLF ++ CRLF) = false).
  { intros shorter r Heq Hr. destruct (exists_last Hr) as (r' & b' & ->). rewrite app_assoc in Heq.
    apply app_inj_tail in Heq as [Heq _]. by eapply Hseen. }
  destruct (ends_with (seen ++ [b]) (CRLF ++ CRLF)) eqn:He.
  - split.
    + intros [= <- <-]. split; [by split|]. split; [rewrite zlen_app; unfold zlen at 2; cbn; lia|]. by exists [b].
    + intros ([Hh Hshort] & _ & more & -> & Hin). destruct more as [|b' more].
      { rewrite app_nil_r in Hh. by rewrite (Hseen seen []) in Hh by (by rewrite app_nil_r). }
      injection Hin as -> ->. destruct more as [|b'' more]; [done|].
      rewrite (Hshort (seen ++ [b']) (b'' :: more)) in He; [done|by rewrite <- app_assoc|done].
  - assert (Hmore : complete_head head → (∃ more, head = seen ++ more ∧ b :: input = more ++ rest) ↔
      ∃ more, head = (seen ++ [b]) ++ more ∧ input = more ++ rest).
    { intros [Hh _]. split.
      - intros ([|b' more] & -> & Hin).
        + rewrite app_nil_r in Hh. by rewrite (Hseen seen []) in Hh by (by rewrite app_nil_r).
        + injection Hin as -> ->. exists more. by rewrite <- app_assoc.
      - intros (more & -> & ->). exists (b :: more). by rewrite <- app_assoc. }
    destruct (MAX_HEAD_BYTES <? _) eqn:Hmax; bool_prop.
    + split; [done|]. intros (Hc & Hl & Hex). pose proof Hc as [Hh _]. apply (Hmore Hc) in Hex as (more & -> & _).
      destruct more as [|c more]; [rewrite app_nil_r in Hh; congruence|]. rewrite zlen_app, zlen_cons in Hl.
      pose proof (zlen_nonneg more). lia.
    + rewrite IH; [naive_solver| |done]. intros shorter r Heq. destruct (decide (r = [])) as [->|]; [|by eapply Hprefix].
      rewrite app_nil_r in Heq. by rewrite <- Heq.
Qed.

(** ** The status line *)

(** [HTTP/x SP ddd SP reason], up to the first line feed. *)
Inductive status_line : str → Z → str → Prop :=
  | status_line_of line rest version digits tail reason :
      LF ∉ line → is_utf8 line = true →
      trim_end_matches CR line = version ++ [SP] ++ digits ++ tail →
      SP ∉ version → (∃ v, version = b#"HTTP/" ++ v) →
      length digits = 3%nat → all_digits digits = true →
      (tail = [] ∧ reason = [] ∨ tail = SP :: reason) →
      status_line (line ++ LF :: rest) (decimal_value digits) reason.

Lemma is_char_notin c s : Forall (λ d, is_char c d = false) s ↔ c ∉ s.
Proof.
  rewrite Forall_forall. unfold is_char. setoid_rewrite bool_decide_eq_false. naive_solver.
Qed.

Lemma next_part_spec s a rest :
  next_part s = (a, rest) ↔ (SP ∉ a) ∧ s = a ++ match rest with Some r => SP :: r | None => [] end.
Proof.
  unfold next_part. split.
  - destruct (split_once SP s) as [[x y]|] eqn:E.
    + intros [= <- <-]. apply split_once_Some in E as [-> Hx]. by apply is_char_notin in Hx.
    + intros [= <- <-]. destruct (split_once_cases SP s) as [[_ Hs]|(? & ? & ? & _)]; [|congruence].
      rewrite app_nil_r. by apply is_char_notin in Hs.
  - intros [Ha ->]. apply is_char_notin in Ha. destruct rest as [r|].
    + by rewrite split_once_app.
    + rewrite app_nil_r. by rewrite split_once_None.
Qed.

Lemma digits_no_space s : all_digits s = true → SP ∉ s.
Proof. intros Hd Hs. unfold all_digits in Hd. rewrite forallb_Forall, Forall_forall in Hd. by apply Hd in Hs. Qed.

Lemma three_digits s : length s = 3%nat → all_digits s = true → parse_unsigned 65535 s = Some (decimal_value s).
Proof.
  intros Hl Hd. apply parse_unsigned_digits; [done|by destruct s|]. destruct s as [|x [|y [|z [|]]]]; try done.
  unfold all_digits in Hd. cbn in Hd. rewrite !andb_true_iff in Hd. destruct Hd as (Hx & Hy & Hz & _).
  apply digit_value_range in Hx, Hy, Hz. unfold decimal_value. cbn. lia.
Qed.

Lemma parse_status_line_spec head n reason :
  parse_status_line head = Some (n, reason) ↔ status_line head n reason.
Proof.
  unfold parse_status_line. split.
  - intros (i & Hi & H)%bind_Some. apply find_by_Some in Hi as (c & Hc & Hlf & Hall).
    unfold is_char in Hlf. apply bool_decide_eq_true in Hlf as ->. apply is_char_notin in Hall.
    destruct (is_utf8 (take i head)) eqn:Hu; [|done]. cbn [negb] in H.
    destruct (next_part (trim_end_matches _ _)) as [version rest] eqn:Hv. apply next_part_spec in Hv as [Hvs Hv].
    destruct (starts_with version _) eqn:Hp; [|done]. apply starts_with_spec in Hp as Hp. cbn [negb] in H.
    apply bind_Some in H as (r & -> & H). destruct (next_part r) as [digits tail] eqn:Hr.
    apply next_part_spec in Hr as [_ Hr]. destruct (_ || _) eqn:E; [done|].
    rewrite orb_false_iff, !negb_false_iff, bool_decide_eq_true in E. destruct E as [Hl Hd].
    rewrite three_digits in H by done. cbn in H. injection H as <- <-.
    rewrite <- (take_drop_middle head i LF Hc).
    apply (status_line_of _ _ version digits (match tail with Some x => SP :: x | None => [] end)); try done.
    + by rewrite Hv, Hr.
    + destruct tail; [by right|by left].
  - intros [line rest version digits tail r Hlf Hu Hline Hv Hp Hl Hd Ht].
    assert (Hfind : find_by (is_char LF) (line ++ LF :: rest) = Some (length line)).
    { apply find_by_Some. exists LF. rewrite lookup_app_r, Nat.sub_diag by lia. split; [done|].
      split; [done|]. rewrite take_app_length. by apply is_char_notin. }
    rewrite Hfind. cbn [mbind option_bind]. rewrite take_app_length, Hu, Hline. cbn [negb].
    rewrite (proj2 (next_part_spec _ version (Some (digits ++ tail)))) by done.
    rewrite (proj2 (starts_with_spec _ _) Hp). cbn [negb mbind option_bind].
    rewrite (proj2 (next_part_spec _ digits (match tail with [] => None | _ :: x => Some x end))).
    + rewrite bool_decide_eq_true_2 by done. unfold all_digits in Hd. rewrite Hd. cbn. rewrite three_digits by done. cbn.
      by destruct Ht as [[-> ->]| ->].
    + split; [by apply digits_no_space|]. by destruct Ht as [[-> _]| ->].
Qed.

(** The [CONNECT] tunnel opens exactly when what the proxy sends starts with a
    complete response head of at most one byte over the limit whose status line is
    well formed and has a status from 200 to 299.  Then exactly the request was
    written and the stream is left at the first byte after the head: nothing the
    target sent is consumed. *)
Theorem connect_exact base64_encode proxy target input out c' :
  http_tunnel base64_encode proxy target (mk_conn input out false) = (inl tt, c') ↔
  ∃ head rest status reason,
    input = head ++ rest ∧ complete_head head ∧ zlen head <= MAX_HEAD_BYTES + 1 ∧
    status_line head status reason ∧ 200 <= status < 300 ∧
    c' = mk_conn rest (out ++ connect_request base64_encode proxy target) false.
Proof.
  unfold http_tunnel. rewrite bind_inl. unfold write_all, read_head.
  assert (Hread : ∀ head rest, read_head_from [] input = (Some head, rest) ↔
    complete_head head ∧ zlen head <= MAX_HEAD_BYTES + 1 ∧ input = head ++ rest).
  { intros head rest. rewrite read_head_from_spec; [naive_solver| |done].
    intros shorter r Heq. symmetry in Heq. by apply app_nil in Heq as [-> _]. }
  split.
  - intros (? & c1 & [= _ <-] & H). apply bind_inl in H as (head & c2 & Hr & H). cbn in Hr.
    pose proof (Hread head) as Hh. destruct (read_head_from [] input) as [[h|] rest]; [|done].
    injection Hr as -> <-. destruct (proj1 (Hh rest) eq_refl) as (? & ? & ?). destruct (parse_status_line head) as [[status reason]|] eqn:Hs; [|done].
    rewrite guard_inl in H. destruct H as [Hst [_ ->]%ret_inl]. bool_prop.
    apply parse_status_line_spec in Hs. exists head, rest, status, reason. done.
  - intros (head & rest & status & reason & Hin & Hc & Hl & Hs & Hst & ->). eexists tt, _. split; [done|].
    apply bind_inl. eexists head, _. cbn. rewrite (proj2 (Hread head rest)) by done. split; [done|].
    rewrite (proj2 (parse_status_line_spec _ _ _) Hs), guard_inl. split; [|done].
    rewrite (proj2 (Z.leb_le 200 status)), (proj2 (Z.ltb_lt status 300)) by lia. done.
Qed.

Example demo_connect :
  http_tunnel (λ _, b#"dTpwdw==") (mk_proxy_url SchemeHttp b#"proxy.test" 80 (Some b#"u") (Some b#"pw"))
    (mk_host_port b#"::1" 8443) (mk_conn (b#"HTTP/1.1 200 OK" ++ CRLF ++ CRLF ++ b#"hello") [] false)
  = (inl tt, mk_conn b#"hello"
      (b#"CONNECT [::1]:8443 HTTP/1.1" ++ CRLF ++ b#"Host: [::1]:8443" ++ CRLF
        ++ b#"Proxy-Authorization: Basic dTpwdw==" ++ CRLF ++ CRLF) false).
Proof. vm_compute. reflexivity. Qed.

Example signed_status : parse_status_line (b#"HTTP/1.1 +20 ok" ++ CRLF) = None.
Proof. vm_compute. reflexivity. Qed.

(** A target named as an origin names its IPv6 host, in brackets, is bracketed twice,
    and SOCKS5 takes it for a domain name. *)
Lemma bracketed_target_misread proxy :
  px_scheme proxy = SchemeSocks5h →
  show_host_port b#"[::1]" 443 = b#"[[::1]]:443" ∧
  encode_address (λ _, None) proxy [] (mk_host_port b#"[::1]" 443)
    = inl ([byte ATYP_DOMAIN; byte 5] ++ b#"[::1]" ++ be_bytes 2 443).
Proof.
  intros Hs. split; [by vm_compute|]. unfold encode_address. cbn [hp_host].
  change (parse_ip b#"[::1]") with (@None IpAddr). by rewrite decide_True.
Qed.
