(* ===== verification/Proxy.v ===== *)
(** [chromulate-proxy]: parsing proxy URLs (src/crates/chromulate-proxy/src/url.rs),
    configured proxies and the environment (proxy.rs), and rotation over a pool
    (provider.rs).

    [Url::parse], percent-decoding, base64, the environment, the local resolver, the
    dialled stream and the random choice are arguments.  A provider's state is what
    its atomics hold; a call to [next] or [report_failure] runs to its end, except in
    the last section, which interleaves the callers of [RoundRobin::next]. *)
From S2P Require Import Prelude RustStr RustNet CoreError Dns NoProxy Tunnel HttpConnect.
Local Open Scope Z_scope.

#[export] Instance Entry_eq_dec : EqDecision Entry.
Proof. solve_decision. Defined.
#[export] Instance NoProxy_eq_dec : EqDecision NoProxy.
Proof. solve_decision. Defined.
#[export] Instance ProxyUrl_eq_dec : EqDecision ProxyUrl.
Proof. solve_decision. Defined.

(** ** Proxy URLs (url.rs) *)

Definition parse_scheme (scheme : str) : ProxyScheme + Error :=
  let scheme := to_ascii_lowercase scheme in
  if decide (scheme = b#"http") then inl SchemeHttp
  else if decide (scheme = b#"https") then inl SchemeHttps
  else if decide (scheme = b#"socks5") then inl SchemeSocks5
  else if decide (scheme = b#"socks5h") then inl SchemeSocks5h
  else inr UnsupportedScheme.

Definition default_port (s : ProxyScheme) : Z :=
  match s with SchemeHttp => 80 | SchemeHttps => 443 | SchemeSocks5 | SchemeSocks5h => 1080 end.

(** What [Url::parse] gives. *)
Record UrlParts := mk_url_parts {
  up_scheme : str;
  up_host_str : option str;
  up_port : option Z;
  up_username : str;
  up_password : option str;
}.

Section Parsing.
Context (url_parse : str → option UrlParts) (percent_decode_utf8 : str → option str).

Definition decode_userinfo (raw : str) : option str + Error :=
  if decide (raw = []) then inl None
  else match percent_decode_utf8 raw with Some decoded => inl (Some decoded) | None => inr InvalidUrl end.

Definition parse_proxy_url (input : str) : ProxyUrl + Error :=
  match url_parse input with
  | None => inr InvalidUrl
  | Some url =>
      match parse_scheme (up_scheme url) with
      | inr e => inr e
      | inl scheme =>
          match up_host_str url with
          | None => inr InvalidUrl
          | Some host =>
              let host := trim_end_matches "]"%char (trim_start_matches "["%char host) in
              let port := default (default_port scheme) (up_port url) in
              match decode_userinfo (up_username url) with
              | inr e => inr e
              | inl username =>
                  match up_password url with
                  | None => inl (mk_proxy_url scheme host port username None)
                  | Some raw =>
                      match decode_userinfo raw with
                      | inr e => inr e
                      | inl password => inl (mk_proxy_url scheme host port username (Some (default [] password)))
                      end
                  end
              end
          end
      end
  end.

(** ** The environment (proxy.rs) *)

Record ProxyEnvironment := mk_environment {
  env_http : option ProxyUrl;
  env_https : option ProxyUrl;
  env_no_proxy : NoProxy;
}.

Section From_lookup.
Context (lookup : str → option str).

Definition not_empty (v : option str) : option str := v ← v; if decide (v = []) then None else Some v.

Definition read_pair (lower upper : str) : option str :=
  match not_empty (lookup lower) with Some v => Some v | None => not_empty (lookup upper) end.

Definition parse_env_proxy (raw : str) : option ProxyUrl :=
  match parse_proxy_url raw with inl url => Some url | inr _ => None end.

Definition parse_env_no_proxy (raw : str) : option NoProxy :=
  match NoProxy.parse raw with inl np => Some np | inr _ => None end.

Definition or_else {A} (a b : option A) : option A := match a with Some _ => a | None => b end.

Definition from_lookup : ProxyEnvironment :=
  let all := read_pair b#"all_proxy" b#"ALL_PROXY" in
  let http_raw := or_else (read_pair b#"http_proxy" b#"HTTP_PROXY") all in
  let https_raw := or_else (read_pair b#"https_proxy" b#"HTTPS_PROXY") all in
  let no_proxy_raw := read_pair b#"no_proxy" b#"NO_PROXY" in
  mk_environment (http_raw ≫= parse_env_proxy) (https_raw ≫= parse_env_proxy)
    (default none (no_proxy_raw ≫= parse_env_no_proxy)).
End From_lookup.
End Parsing.

Record Proxy := mk_proxy { pr_url : ProxyUrl; pr_no_proxy : NoProxy }.

#[export] Instance Proxy_eq_dec : EqDecision Proxy.
Proof. solve_decision. Defined.

Definition proxy_new (url : ProxyUrl) : Proxy := mk_proxy url none.
Definition with_no_proxy (np : NoProxy) (p : Proxy) : Proxy := mk_proxy (pr_url p) np.
Definition bypasses (p : Proxy) (host : str) : bool := matches_host (pr_no_proxy p) host.

Definition for_scheme (env : ProxyEnvironment) (scheme : str) : option Proxy :=
  url ← (if eq_ignore_ascii_case scheme b#"https" then or_else (env_https env) (env_http env)
         else or_else (env_http env) (env_https env));
  Some (with_no_proxy (env_no_proxy env) (proxy_new url)).

(** [Proxy::connect]: [expired] says whether the timeout fires first, and [dialled] is
    the connection to the proxy itself. *)
Definition proxy_connect (base64_encode : str → str) (resolver : HostPort → option (list SocketAddr))
    (p : Proxy) (target : HostPort) (expired : bool) (dialled : option Conn) : Conn + Error :=
  if expired then inr (Timeout Connecting)
  else
    match dialled with
    | None => inr (Connect (show_proxy (pr_url p)))
    | Some stream =>
        let tunnel :=
          match px_scheme (pr_url p) with
          | SchemeHttp | SchemeHttps => http_tunnel base64_encode (pr_url p) target
          | SchemeSocks5 | SchemeSocks5h => socks5_connect resolver (pr_url p) target
          end in
        match tunnel stream with (inl _, stream) => inl stream | (inr e, _) => inr e end
    end.

(** ** Rotation (provider.rs) *)

Record Single := mk_single { sg_proxy : Proxy; sg_failed : bool }.

Definition single_next (s : Single) : option Proxy := if sg_failed s then None else Some (sg_proxy s).
Definition single_report_failure (s : Single) : Single := mk_single (sg_proxy s) true.

Definition index_of (pool : list Proxy) (p : Proxy) : option nat := fst <$> list_find (λ q, q = p) pool.

Definition park (pool : list Proxy) (failed : list bool) (p : Proxy) : list bool :=
  match index_of pool p with Some index => <[index := true]> failed | None => failed end.

Record RoundRobin := mk_round_robin { rr_pool : list Proxy; rr_failed : list bool; rr_cursor : Z }.

Definition round_robin_new (pool : list Proxy) : RoundRobin :=
  mk_round_robin pool ((λ _, false) <$> pool) 0.

Definition set_cursor (rr : RoundRobin) (cursor : Z) : RoundRobin :=
  mk_round_robin (rr_pool rr) (rr_failed rr) cursor.

(** Where a cursor points in a pool of [len]. *)
Definition position (cursor len : Z) : nat := Z.to_nat (cursor mod len).

(** [failed[index]], which the source reads in bounds. *)
Definition parked (rr : RoundRobin) (index : nat) : bool := default true (rr_failed rr !! index).

(** The loop of [next], of at most [tries] turns. *)
Fixpoint next_alive (tries : nat) (rr : RoundRobin) : option Proxy * RoundRobin :=
  match tries with
  | O => (None, rr)
  | S tries =>
      let index := position (rr_cursor rr) (zlen (rr_pool rr)) in
      let rr := set_cursor rr (wrap64 (rr_cursor rr + 1)) in
      if parked rr index then next_alive tries rr else (rr_pool rr !! index, rr)
  end.

Definition next (rr : RoundRobin) : option Proxy * RoundRobin :=
  if decide (rr_pool rr = []) then (None, rr) else next_alive (length (rr_pool rr)) rr.

Definition report_failure (p : Proxy) (rr : RoundRobin) : RoundRobin :=
  mk_round_robin (rr_pool rr) (park (rr_pool rr) (rr_failed rr) p) (rr_cursor rr).

Record Random := mk_random { rd_pool : list Proxy; rd_failed : list bool }.

(** [Random::next], with [pick] for [random_range(0..available.len())]. *)
Definition available (r : Random) : list nat :=
  filter (λ index, default true (rd_failed r !! index) = false) (seq 0 (length (rd_pool r))).

Definition random_next (pick : nat → nat) (r : Random) : option Proxy :=
  if decide (available r = []) then None
  else index ← available r !! pick (length (available r)); rd_pool r !! index.

Definition random_report_failure (p : Proxy) (r : Random) : Random :=
  mk_random (rd_pool r) (park (rd_pool r) (rd_failed r) p).

(** The provider after [n] calls to [next]. *)
Fixpoint after_calls (n : nat) (rr : RoundRobin) : RoundRobin :=
  match n with O => rr | S n => after_calls n (next rr).2 end.

(** ** Whose turn it is *)

Section Turns.
Context (rr : RoundRobin).
Local Abbreviation len := (zlen (rr_pool rr)).
Local Abbreviation cursor := (rr_cursor rr).

Definition rotation_ok : Prop :=
  rr_pool rr ≠ [] ∧ length (rr_failed rr) = length (rr_pool rr) ∧ 0 <= cursor ∧ cursor + len < 2 ^ 64.

(** The member [k] turns away. *)
Definition turn (k : nat) : nat := position (cursor + Z.of_nat k) len.

Lemma len_pos : rotation_ok → 0 < len.
Proof. intros (Hne & _). unfold zlen. destruct (rr_pool rr); [done|]. cbn. lia. Qed.

Lemma turn_lt k : rotation_ok → (turn k < length (rr_pool rr))%nat.
Proof.
  intros Hok. pose proof (len_pos Hok) as Hp. pose proof (Z.mod_pos_bound (cursor + Z.of_nat k) len Hp).
  unfold turn, position. unfold zlen in *. lia.
Qed.

(** Every member's turn comes within one round. *)
Lemma turn_of i :
  rotation_ok → (i < length (rr_pool rr))%nat → ∃ k, (k < length (rr_pool rr))%nat ∧ turn k = i.
Proof.
  intros Hok Hi. pose proof (len_pos Hok) as Hp. destruct Hok as (_ & _ & Hc & _).
  pose proof (Z.mod_pos_bound (Z.of_nat i - cursor) len Hp) as Hm.
  exists (Z.to_nat ((Z.of_nat i - cursor) mod len)). split; [unfold zlen in *; lia|].
  unfold turn, position. rewrite Z2Nat.id by lia. rewrite Zplus_mod_idemp_r.
  replace (cursor + (Z.of_nat i - cursor)) with (Z.of_nat i) by lia.
  rewrite Z.mod_small by (unfold zlen; lia). lia.
Qed.
End Turns.

Lemma turn_advance rr k n :
  turn (set_cursor rr (rr_cursor rr + Z.of_nat n)) k = turn rr (n + k).
Proof. unfold turn, set_cursor. cbn. f_equal. lia. Qed.

Lemma set_cursor_twice rr a b : set_cursor (set_cursor rr a) b = set_cursor rr b.
Proof. done. Qed.

Lemma next_alive_spec tries rr r rr' :
  0 <= rr_cursor rr → rr_cursor rr + Z.of_nat tries < 2 ^ 64 →
  next_alive tries rr = (r, rr') →
  (∃ k, (k < tries)%nat ∧ (∀ j, (j < k)%nat → parked rr (turn rr j) = true) ∧ parked rr (turn rr k) = false ∧
     r = rr_pool rr !! turn rr k ∧ rr' = set_cursor rr (rr_cursor rr + Z.of_nat (S k))) ∨
  (r = None ∧ (∀ j, (j < tries)%nat → parked rr (turn rr j) = true) ∧
     rr' = set_cursor rr (rr_cursor rr + Z.of_nat tries)).
Proof.
  revert rr. induction tries as [|tries IH]; intros rr Hc Hb; cbn [next_alive].
  { intros [= <- <-]. right. split; [done|]. split; [lia|]. destruct rr. unfold set_cursor. cbn. by rewrite Z.add_0_r. }
  assert (Hw : wrap64 (rr_cursor rr + 1) = rr_cursor rr + Z.of_nat 1) by (unfold wrap64; rewrite Z.mod_small by lia; lia).
  assert (H0 : position (rr_cursor rr) (zlen (rr_pool rr)) = turn rr 0) by (unfold turn; by rewrite Z.add_0_r).
  rewrite Hw, H0. change (parked (set_cursor rr (rr_cursor rr + Z.of_nat 1))) with (parked rr).
  destruct (parked rr (turn rr 0)) eqn:Hp.
  - intros Hn. apply IH in Hn; [|cbn; lia|cbn; lia]. cbn [rr_cursor set_cursor] in Hn.
    assert (Hparked : ∀ t, (∀ j, (j < t)%nat → parked rr (turn (set_cursor rr (rr_cursor rr + Z.of_nat 1)) j) = true) →
      ∀ j, (j < S t)%nat → parked rr (turn rr j) = true).
    { intros t Hall [|j] Hj; [done|]. change (S j) with (1 + j)%nat; rewrite <- turn_advance. apply Hall. lia. }
    destruct Hn as [(k & Hk & Hall & Halive & Hr & Hrr)|(Hr & Hall & Hrr)].
    + left. exists (S k). rewrite (turn_advance rr k 1) in *. split; [lia|]. split; [by apply Hparked|].
      split; [done|]. split; [done|]. rewrite Hrr, set_cursor_twice. f_equal. lia.
    + right. split; [done|]. split; [by apply Hparked|]. rewrite Hrr, set_cursor_twice. f_equal. lia.
  - intros [= <- <-]. left. exists 0%nat. split; [lia|]. split; [lia|]. done.
Qed.

Lemma parked_lookup rr i : rotation_ok rr → (i < length (rr_pool rr))%nat → parked rr i = false ↔ rr_failed rr !! i = Some false.
Proof.
  intros (_ & Hl & _) Hi. unfold parked. rewrite <- Hl in Hi. apply lookup_lt_is_Some_2 in Hi as [b Hb]. rewrite Hb.
  cbn. naive_solver.
Qed.

Lemma round_robin_exact_aux rr r rr' :
  rotation_ok rr → next rr = (r, rr') →
  match r with
  | Some p => ∃ k, (k < length (rr_pool rr))%nat ∧ rr_pool rr !! turn rr k = Some p ∧
      rr_failed rr !! turn rr k = Some false ∧ (∀ j, (j < k)%nat → rr_failed rr !! turn rr j = Some true) ∧
      rr' = set_cursor rr (rr_cursor rr + Z.of_nat (S k))
  | None => Forall (λ failed, failed = true) (rr_failed rr) ∧ rr' = set_cursor rr (rr_cursor rr + zlen (rr_pool rr))
  end.
Proof.
  intros Hok. pose proof Hok as (Hne & Hl & Hc & Hb). unfold next. rewrite decide_False by done. intros Hn.
  assert (Htrue : ∀ j, parked rr (turn rr j) = true → rr_failed rr !! turn rr j = Some true).
  { intros j Hj. pose proof (turn_lt rr j Hok) as Hlt. rewrite <- Hl in Hlt. apply lookup_lt_is_Some_2 in Hlt as [b Hlk].
    unfold parked in Hj. rewrite Hlk in Hj |- *. cbn in Hj. by subst. }
  apply next_alive_spec in Hn as [(k & Hk & Hall & Hp & -> & ->)|(-> & Hall & ->)]; [| |done|unfold zlen in Hb; lia].
  - pose proof (turn_lt rr k Hok) as Hlt. apply parked_lookup in Hp; [|done..].
    destruct (lookup_lt_is_Some_2 _ _ Hlt) as [p Hpool]. rewrite Hpool. exists k. split; [done|]. split; [done|]. eauto.
  - split; [|done]. apply Forall_lookup. intros i b Hi. pose proof (lookup_lt_Some _ _ _ Hi) as Hlt. rewrite Hl in Hlt.
    destruct (turn_of rr i Hok Hlt) as (k & Hk & <-). specialize (Htrue k (Hall k Hk)). congruence.
Qed.

Lemma after_calls_pool n rr : rr_pool (after_calls n rr) = rr_pool rr ∧ rr_failed (after_calls n rr) = rr_failed rr.
Proof.
  assert (Ha : ∀ tries rr, rr_pool (next_alive tries rr).2 = rr_pool rr ∧ rr_failed (next_alive tries rr).2 = rr_failed rr).
  { induction tries as [|tries IH]; intros rr0; cbn [next_alive]; [done|]. destruct (parked _ _); [|done]. by rewrite !(proj1 (IH _)), !(proj2 (IH _)). }
  revert rr. induction n as [|n IH]; intros rr; cbn [after_calls]; [done|]. rewrite (proj1 (IH _)), (proj2 (IH _)).
  unfold next. case_decide; [done|]. apply Ha.
Qed.

Lemma gets_turn k rr p :
  rotation_ok rr → rr_cursor rr + zlen (rr_pool rr) + Z.of_nat k + 1 < 2 ^ 64 → (k < length (rr_pool rr))%nat →
  rr_failed rr !! turn rr k = Some false → rr_pool rr !! turn rr k = Some p →
  ∃ n, (n ≤ k)%nat ∧ (next (after_calls n rr)).1 = Some p.
Proof.
  revert rr. induction (lt_wf k) as [k _ IH]. intros rr Hok Hb Hk Halive Hpool.
  destruct (next rr) as [r rr'] eqn:Hn. pose proof (round_robin_exact_aux rr r rr' Hok Hn) as Hr.
  destruct r as [q|].
  - destruct Hr as (j & Hj & Hq & Hja & Hbefore & Hrr).
    destruct (lt_eq_lt_dec j k) as [[Hlt| ->]|Hgt].
    + destruct (IH (k - S j)%nat ltac:(lia) rr') as (n & Hnk & Hnext); rewrite ?Hrr; cbn [rr_pool rr_failed rr_cursor set_cursor].
      * destruct Hok as (? & ? & ? & ?). repeat split; cbn; try done; lia.
      * lia.
      * lia.
      * rewrite turn_advance. by replace (S j + (k - S j))%nat with k by lia.
      * rewrite turn_advance. by replace (S j + (k - S j))%nat with k by lia.
      * exists (S n). split; [lia|]. cbn [after_calls]. by rewrite Hn.
    + exists 0%nat. split; [lia|]. cbn. rewrite Hn. cbn. congruence.
    + specialize (Hbefore k Hgt). congruence.
  - destruct Hr as [Hall _]. rewrite Forall_lookup in Hall. by specialize (Hall _ _ Halive).
Qed.

(** No member starves: as long as no one reports it, a member of a round-robin pool
    is handed out by one of the next calls, as many as the pool has members. *)
Theorem every_member_gets_its_turn rr i p :
  rotation_ok rr → rr_cursor rr + 2 * zlen (rr_pool rr) < 2 ^ 64 →
  rr_pool rr !! i = Some p → rr_failed rr !! i = Some false →
  ∃ n, (n < length (rr_pool rr))%nat ∧ (next (after_calls n rr)).1 = Some p.
Proof.
  intros Hok Hb Hp Hf. destruct (turn_of rr i Hok (lookup_lt_Some _ _ _ Hp)) as (k & Hk & <-).
  destruct (gets_turn k rr p Hok) as (n & ? & ?); [unfold zlen in *; lia|done..|]. exists n. split; [lia|done].
Qed.

(** ** What reporting does *)

Inductive Call := CallNext | CallReport (p : Proxy).

Definition run_call (c : Call) (rr : RoundRobin) : RoundRobin :=
  match c with CallNext => (next rr).2 | CallReport p => report_failure p rr end.

Definition run_calls (cs : list Call) (rr : RoundRobin) : RoundRobin := foldl (λ rr c, run_call c rr) rr cs.

(** A reported member is never tried again: no call takes a report back. *)
Lemma parked_for_good cs rr i : rr_failed rr !! i = Some true → rr_failed (run_calls cs rr) !! i = Some true.
Proof.
  revert rr. induction cs as [|[|p] cs IH]; intros rr Hi; [done| |]; apply IH; cbn [run_call].
  - pose proof (proj2 (after_calls_pool 1 rr)) as Hf. cbn [after_calls] in Hf. by rewrite Hf.
  - unfold report_failure, park. cbn [rr_failed]. destruct (index_of _ p) as [j|]; [|done].
    destruct (decide (i = j)) as [->|Hij]; [|by rewrite list_lookup_insert_ne].
    apply list_lookup_insert_eq. by eapply lookup_lt_Some.
Qed.

(** Reporting a member parks the first of its copies, and only that one. *)
Lemma duplicate_stays p reports :
  (next (run_calls (replicate reports (CallReport p)) (round_robin_new [p; p]))).1 = Some p.
Proof.
  assert (Hindex : index_of [p; p] p = Some 0%nat) by (unfold index_of; cbn; by rewrite decide_True).
  set (state := λ b, mk_round_robin [p; p] [b; false] 0).
  assert (Hrun : ∀ n b, ∃ b', run_calls (replicate n (CallReport p)) (state b) = state b').
  { induction n as [|n IH]; intros b; [by exists b|]. cbn [replicate run_calls foldl run_call].
    assert (Hr : report_failure p (state b) = state true)
      by (unfold report_failure, park, state; cbn [rr_pool rr_failed rr_cursor]; by rewrite Hindex).
    unfold run_calls in IH. rewrite Hr. apply IH. }
  destruct (Hrun reports false) as [b Hb]. change (round_robin_new [p; p]) with (state false). rewrite Hb. by destruct b.
Qed.

(** ** Callers that race

    A caller inside [next] has some turns left; each turn takes an index from the
    shared cursor and looks at that member. *)

Record Race := mk_race { rc_provider : RoundRobin; rc_callers : gmap nat nat }.

Inductive race_step (w : Race) : option (nat * option Proxy) → Race → Prop :=
  | caller_enters id :
      rc_callers w !! id = None → rr_pool (rc_provider w) ≠ [] →
      race_step w None (mk_race (rc_provider w) (<[id := length (rr_pool (rc_provider w))]> (rc_callers w)))
  | caller_passes id n :
      let rr := rc_provider w in
      rc_callers w !! id = Some (S n) →
      parked rr (position (rr_cursor rr) (zlen (rr_pool rr))) = true →
      race_step w None (mk_race (set_cursor rr (wrap64 (rr_cursor rr + 1))) (<[id := n]> (rc_callers w)))
  | caller_takes id n :
      let rr := rc_provider w in
      let index := position (rr_cursor rr) (zlen (rr_pool rr)) in
      rc_callers w !! id = Some (S n) → parked rr index = false →
      race_step w (Some (id, rr_pool rr !! index))
        (mk_race (set_cursor rr (wrap64 (rr_cursor rr + 1))) (delete id (rc_callers w)))
  | caller_gives_up id :
      rc_callers w !! id = Some 0%nat →
      race_step w (Some (id, None)) (mk_race (rc_provider w) (delete id (rc_callers w))).

Inductive races : Race → Race → Prop :=
  | races_refl w : races w w
  | races_step w l w1 w2 : race_step w l w1 → races w1 w2 → races w w2.

(** A caller can leave empty-handed although a member is alive all along: another
    caller takes the living member's turn, and the first only ever sees the other. *)
Lemma exhausted_while_alive a b :
  let rr := mk_round_robin [a; b] [true; false] 0 in
  ∃ w w', races (mk_race rr ∅) w ∧ race_step w (Some (1%nat, None)) w' ∧ rr_failed (rc_provider w) !! 1%nat = Some false.
Proof.
  intros rr. eexists _, _. split; [|split].
  - eapply races_step; [by apply (caller_enters _ 1)|].
    eapply races_step; [by apply (caller_enters _ 2)|].
    eapply races_step; [by apply (caller_passes _ 1 1)|].
    eapply races_step; [by apply (caller_takes _ 2 1)|].
    eapply races_step; [by apply (caller_passes _ 1 0)|].
    apply races_refl.
  - by apply (caller_gives_up _ 1).
  - done.
Qed.

(** ** The environment *)

Section Environment.
Context (url_parse : str → option UrlParts) (percent_decode_utf8 : str → option str) (lookup : str → option str).

(** The value of the first of some variables that is set and not empty. *)
Definition first_set (variables : list str) : option str :=
  head (omap (λ v, not_empty (lookup v)) variables).

Definition proxy_of (variables : list str) : option ProxyUrl :=
  first_set variables ≫= parse_env_proxy url_parse percent_decode_utf8.

Lemma read_pair_first lower upper : read_pair lookup lower upper = first_set [lower; upper].
Proof. unfold read_pair, first_set. cbn. by repeat case_match. Qed.

Lemma first_set_app vs ws : first_set (vs ++ ws) = or_else (first_set vs) (first_set ws).
Proof.
  unfold first_set. rewrite omap_app. by destruct (omap _ vs).
Qed.

(** The proxy of a request is the one of its own scheme's variable, in lower case
    before upper case, else of [all_proxy]; and when that gives none, because nothing
    is set or because the value does not parse, the other scheme's.  The bypass list
    travels with it either way, and is empty if [no_proxy] does not parse. *)
Theorem environment_precedence scheme :
  let env := from_lookup url_parse percent_decode_utf8 lookup in
  let http := proxy_of [b#"http_proxy"; b#"HTTP_PROXY"; b#"all_proxy"; b#"ALL_PROXY"] in
  let https := proxy_of [b#"https_proxy"; b#"HTTPS_PROXY"; b#"all_proxy"; b#"ALL_PROXY"] in
  let bypass := default none (first_set [b#"no_proxy"; b#"NO_PROXY"] ≫= parse_env_no_proxy) in
  for_scheme env scheme =
    (λ url, mk_proxy url bypass) <$>
      (if eq_ignore_ascii_case scheme b#"https" then or_else https http else or_else http https).
Proof.
  unfold for_scheme, from_lookup, proxy_of. rewrite !read_pair_first, <- !first_set_app. cbn [app env_http env_https env_no_proxy].
  unfold or_else. by destruct (eq_ignore_ascii_case _ _), (first_set _ ≫= _), (first_set [b#"http_proxy"; _; _; _] ≫= _).
Qed.
End Environment.

Definition demo_member (host : str) : Proxy := proxy_new (mk_proxy_url SchemeHttp host 80 None None).
Definition demo_rotation : RoundRobin :=
  mk_round_robin [demo_member b#"a"; demo_member b#"b"; demo_member b#"c"] [false; true; false] 1.

Lemma every_member_gets_its_turn_witness :
  ∃ n, (n < 3)%nat ∧ (next (after_calls n demo_rotation)).1 = Some (demo_member b#"a").
Proof.
  apply (every_member_gets_its_turn demo_rotation 0); [|vm_compute; done|done|done].
  split; [done|]. split; [done|]. split; vm_compute; done.
Defined.
