(* ===== verification/AltSvc.v ===== *)
(** [chromulate-h3]: the [Alt-Svc] field and the cache of alternative services
    (src/crates/chromulate-h3/src/alt_svc.rs, RFC 7838).

    Percent-decoding to UTF-8 is an argument.  Field values are ASCII where they are
    trimmed; the brackets of an authority are counted without a width. *)
From S2P Require Import Prelude RustStr RustTime Extern Origin.
Local Open Scope Z_scope.

Definition DEFAULT_MAX_AGE : Duration := from_secs 86400.
Definition H3_ALPN : str := b#"h3".

(** ** The field *)

Record Alternative := mk_alternative {
  protocol_id : str;
  alt_host : option str;
  alt_port : Z;
  max_age : Duration;
  persist : bool;
}.

Inductive AltSvc := Clear | Alternatives (list_ : list Alternative).

Definition quote_mark : ascii := "034"%char.
Definition backslash : ascii := "\"%char.

Definition push_front (c : ascii) (l : list str) : list str :=
  match l with [] => [[c]] | h :: t => (c :: h) :: t end.

(** [split_outside_quotes], with the state of its loop as arguments. *)
Fixpoint split_outside_quotes (sep : ascii) (in_quotes escaped : bool) (s : str) : list str :=
  match s with
  | [] => [[]]
  | c :: s =>
      if escaped then push_front c (split_outside_quotes sep in_quotes false s)
      else if in_quotes && bool_decide (c = backslash) then push_front c (split_outside_quotes sep in_quotes true s)
      else if bool_decide (c = quote_mark) then push_front c (split_outside_quotes sep (negb in_quotes) false s)
      else if bool_decide (c = sep) && negb in_quotes then [] :: split_outside_quotes sep in_quotes false s
      else push_front c (split_outside_quotes sep in_quotes false s)
  end.

(** The loop of [unquote] over what is between the quotes. *)
Fixpoint unescape (escaped : bool) (s : str) : option str :=
  match s with
  | [] => if escaped then None else Some []
  | c :: s =>
      if escaped then cons c <$> unescape false s
      else if decide (c = backslash) then unescape true s
      else if decide (c = quote_mark) then None
      else cons c <$> unescape false s
  end.

Definition unquote (raw : str) : option str :=
  match raw with
  | [] => Some raw
  | first :: rest =>
      if decide (first = quote_mark) then
        match reverse rest with
        | last :: inner => if decide (last = quote_mark) then unescape false (reverse inner) else None
        | [] => None
        end
      else Some raw
  end.

(** The loop of [parse_alt_authority]: the last colon outside brackets. *)
Fixpoint last_colon (depth : Z) (index : nat) (split_at : option nat) (s : str) : option nat :=
  match s with
  | [] => split_at
  | c :: s =>
      if decide (c = "["%char) then last_colon (depth + 1) (S index) split_at s
      else if decide (c = "]"%char) then last_colon (depth - 1) (S index) split_at s
      else if bool_decide (c = ":"%char) && (depth =? 0) then last_colon depth (S index) (Some index) s
      else last_colon depth (S index) split_at s
  end.

Definition parse_alt_authority (authority : str) : option (option str * Z) :=
  split_at ← last_colon 0 0 None authority;
  port ← parse_unsigned 65535 (drop (S split_at) authority);
  let host := take split_at authority in
  Some (if decide (host = []) then None else Some (to_ascii_lowercase host), port).

Definition is_tchar (c : ascii) : bool :=
  is_ascii_digit c || in_range 65 90 c || in_range 97 122 c || bool_decide (c ∈ b#"!#$%&'*+-.^_`|~").

(** One parameter of [parse_alt_value]. *)
Definition apply_parameter (acc : Duration * bool) (parameter : str) : Duration * bool :=
  match split_once "="%char (trim parameter) with
  | None => acc
  | Some (name, raw) =>
      match unquote (trim raw) with
      | None => acc
      | Some value =>
          let name := to_ascii_lowercase (trim name) in
          if decide (name = b#"ma") then
            match parse_u64 value with Some seconds => (from_secs seconds, acc.2) | None => acc end
          else if decide (name = b#"persist") then (acc.1, bool_decide (value = b#"1"))
          else acc
      end
  end.

Section Parsing.
Context (percent_decode_utf8 : str → option str).

Definition decode_protocol_id (raw : str) : option str :=
  if bool_decide (raw = []) || negb (forallb is_tchar raw) then None
  else
    decoded ← percent_decode_utf8 raw;
    if decide (decoded = []) then None else Some decoded.

Definition parse_alt_value (element : str) : option Alternative :=
  if decide (element = []) then None
  else
    match split_outside_quotes ";"%char false false element with
    | [] => None
    | first :: parameters =>
        '(protocol_id, authority) ← split_once "="%char (trim first);
        protocol_id ← decode_protocol_id (trim protocol_id);
        authority ← unquote (trim authority);
        '(host, port) ← parse_alt_authority authority;
        let '(max_age, persist) := foldl apply_parameter (DEFAULT_MAX_AGE, false) parameters in
        Some (mk_alternative protocol_id host port max_age persist)
    end.

Definition parse_alt_svc (value : str) : AltSvc :=
  let trimmed := trim value in
  if decide (trimmed = b#"clear") then Clear
  else Alternatives (omap (λ element, parse_alt_value (trim element)) (split_outside_quotes ","%char false false trimmed)).

(** ** The cache *)

Record CachedAlternative := mk_cached { cached_alternative : Alternative; expires_at : SystemTime }.

Definition authority_for (c : CachedAlternative) (origin : Origin) : str :=
  default (o_host origin) (alt_host (cached_alternative c)) ++ b#":" ++ show_u16 (alt_port (cached_alternative c)).

Definition is_live (now : SystemTime) (c : CachedAlternative) : bool := now <? expires_at c.

Definition DEFAULT_ORIGIN_CAPACITY : Z := 10000.

Record AltSvcCache := mk_cache { entries : gmap Origin (list CachedAlternative); capacity : Z }.

Definition with_capacity (capacity : Z) : AltSvcCache := mk_cache ∅ (Z.max capacity 1).
Definition new_cache : AltSvcCache := with_capacity DEFAULT_ORIGIN_CAPACITY.

Definition alternatives (c : AltSvcCache) (origin : Origin) (now : SystemTime) : list CachedAlternative :=
  default [] (filter (λ e, is_live now e = true) <$> entries c !! origin).

Definition h3_alternative (c : AltSvcCache) (origin : Origin) (now : SystemTime) : option CachedAlternative :=
  l ← entries c !! origin;
  snd <$> list_find (λ e, is_live now e = true ∧ protocol_id (cached_alternative e) = H3_ALPN) l.

Definition purge_expired (now : SystemTime) (c : AltSvcCache) : AltSvcCache :=
  mk_cache
    (omap (λ l, let l := filter (λ e, is_live now e = true) l in if decide (l = []) then None else Some l) (entries c))
    (capacity c).

(** The earliest expiry of each origin. *)
Definition expiries (c : AltSvcCache) : list (SystemTime * Origin) :=
  omap (λ kv, (λ e, (expires_at e, kv.1)) <$> min_by_key expires_at kv.2) (map_to_list (entries c)).

Definition make_room_for (origin : Origin) (now : SystemTime) (c : AltSvcCache) : AltSvcCache :=
  if (Z.of_nat (size (entries c)) <? capacity c) || bool_decide (is_Some (entries c !! origin)) then c
  else
    let c := purge_expired now c in
    if Z.of_nat (size (entries c)) <? capacity c then c
    else
      match min_by_key fst (expiries c) with
      | Some (_, key) => mk_cache (delete key (entries c)) (capacity c)
      | None => c
      end.

Inductive AltSvcError := InsecureOrigin (origin : Origin).

(** What of a field is remembered, and until when. *)
Definition remembered (value : str) (now : SystemTime) : list CachedAlternative :=
  omap (λ a, mk_cached a <$> checked_add now (max_age a))
    (match parse_alt_svc value with Clear => [] | Alternatives l => l end).

Definition record (origin : Origin) (value : str) (now : SystemTime) (c : AltSvcCache)
    : (unit + AltSvcError) * AltSvcCache :=
  if negb (is_secure origin) then (inr (InsecureOrigin origin), c)
  else
    let cached := remembered value now in
    if decide (cached = []) then (inl tt, mk_cache (delete origin (entries c)) (capacity c))
    else
      let c := make_room_for origin now c in
      (inl tt, mk_cache (<[origin := cached]> (entries c)) (capacity c)).
End Parsing.

Example alt_svc_two :
  parse_alt_svc Some ([("h"%char); "3"%char; "="%char; quote_mark] ++ b#":443" ++ [quote_mark] ++ b#"; ma=60; persist=1, h2=alt.example:80")
  = Alternatives [mk_alternative b#"h3" None 443 (from_secs 60) true;
                  mk_alternative b#"h2" (Some b#"alt.example") 80 DEFAULT_MAX_AGE false].
Proof. vm_compute. reflexivity. Qed.

(** ** Writing a field *)

Fixpoint escape (s : str) : str :=
  match s with
  | [] => []
  | c :: s => (if bool_decide (c = backslash) || bool_decide (c = quote_mark) then [backslash] else []) ++ c :: escape s
  end.

Definition quote (s : str) : str := [quote_mark] ++ escape s ++ [quote_mark].

Definition render_authority (a : Alternative) : str := default [] (alt_host a) ++ b#":" ++ show_u16 (alt_port a).

Definition render_alternative (a : Alternative) : str :=
  join b#"; " ([protocol_id a ++ b#"=" ++ quote (render_authority a); b#"ma=" ++ show_digits 20 (as_secs (max_age a))]
               ++ if persist a then [b#"persist=1"] else []).

Definition render_field (l : list Alternative) : str := join b#", " (render_alternative <$> l).

(** Prefixing the first piece of a split. *)
Definition push_str (s : str) (l : list str) : list str := foldr push_front l s.

Lemma push_str_app s t l : push_str (s ++ t) l = push_str s (push_str t l).
Proof. unfold push_str. by rewrite foldr_app. Qed.

Lemma push_str_cons s h t : push_str s (h :: t) = (s ++ h) :: t.
Proof. induction s as [|c s IH]; [done|]. cbn. unfold push_str in IH. by rewrite IH. Qed.

(** A text that neither splits nor leaves a quoted string open. *)
Definition whole_piece (sep : ascii) (s : str) : Prop :=
  ∀ rest, split_outside_quotes sep false false (s ++ rest) = push_str s (split_outside_quotes sep false false rest).

Lemma whole_app sep s t : whole_piece sep s → whole_piece sep t → whole_piece sep (s ++ t).
Proof. intros Hs Ht rest. by rewrite <- app_assoc, Hs, Ht, push_str_app. Qed.

Lemma whole_plain sep s : Forall (λ c, c ≠ sep ∧ c ≠ quote_mark) s → whole_piece sep s.
Proof.
  intros Hs rest. induction Hs as [|c s [Hc Hq] _ IH]; [done|]. cbn [app split_outside_quotes push_str foldr].
  rewrite andb_false_l, (bool_decide_eq_false_2 _ Hq), (bool_decide_eq_false_2 _ Hc). cbn. by rewrite IH.
Qed.

Lemma split_escaped sep s rest :
  split_outside_quotes sep true false (escape s ++ rest) = push_str (escape s) (split_outside_quotes sep true false rest).
Proof.
  induction s as [|c s IH]; [done|]. cbn [escape]. rewrite <- app_assoc, push_str_app. destruct (_ || _) eqn:E.
  - cbn [app split_outside_quotes push_str foldr]. cbn. f_equal. by rewrite IH.
  - apply orb_false_iff in E as [Hb Hq]. cbn [app split_outside_quotes push_str foldr].
    rewrite Hb, Hq, andb_false_r. cbn. by rewrite (andb_false_r (bool_decide (c = sep))), IH.
Qed.

Lemma whole_quote sep s : sep ≠ quote_mark → whole_piece sep (quote s).
Proof.
  intros Hsep rest. unfold quote. rewrite <- !app_assoc. cbn [app]. cbn [split_outside_quotes].
  change (bool_decide (quote_mark = quote_mark)) with true. cbn [andb negb]. rewrite split_escaped. cbn [app split_outside_quotes].
  change (bool_decide (quote_mark = backslash)) with false. change (bool_decide (quote_mark = quote_mark)) with true.
  cbn [andb negb]. change (quote_mark :: escape s ++ [quote_mark]) with ([quote_mark] ++ escape s ++ [quote_mark]).
  by rewrite !push_str_app.
Qed.

Lemma unescape_escape s : unescape false (escape s) = Some s.
Proof.
  induction s as [|c s IH]; [done|]. cbn [escape]. destruct (_ || _) eqn:E; cbn [app unescape].
  - rewrite decide_True by done. by rewrite IH.
  - bool_prop. destruct E as [Hb Hq]. rewrite !decide_False by done. by rewrite IH.
Qed.

Lemma unquote_quote s : unquote (quote s) = Some s.
Proof.
  unfold quote, unquote. cbn [app]. rewrite decide_True by done. rewrite reverse_snoc, decide_True by done.
  by rewrite reverse_involutive, unescape_escape.
Qed.

Lemma unquote_plain c s : c ≠ quote_mark → unquote (c :: s) = Some (c :: s).
Proof. intros Hc. unfold unquote. by rewrite decide_False. Qed.

(** The pieces of a field are its elements. *)
Lemma split_join sep l :
  Forall (whole_piece sep) l → l ≠ [] → sep ≠ quote_mark → sep ≠ " "%char →
  split_outside_quotes sep false false (join (sep :: b#" ") l) =
    match l with [] => [] | s :: l => s :: (cons " "%char <$> l) end.
Proof.
  intros Hl Hne Hsep Hsp. destruct l as [|s l]; [done|]. clear Hne. revert s Hl.
  induction l as [|t l IH]; intros s Hl; apply Forall_cons in Hl as [Hs Hl].
  - cbn [join]. rewrite <- (app_nil_r s) at 1. rewrite Hs. cbn [split_outside_quotes]. by rewrite push_str_cons, app_nil_r.
  - change (join (sep :: b#" ") (s :: t :: l)) with (s ++ (sep :: b#" ") ++ join (sep :: b#" ") (t :: l)).
    rewrite Hs. cbn [app]. cbn [split_outside_quotes]. rewrite andb_false_l, bool_decide_eq_false_2 by done.
    rewrite bool_decide_eq_true_2 by done. cbn [andb negb]. rewrite push_str_cons, app_nil_r.
    change (" "%char :: join (sep :: b#" ") (t :: l)) with (b#" " ++ join (sep :: b#" ") (t :: l)).
    rewrite (whole_plain sep b#" ") by (repeat constructor; done). by rewrite IH.
Qed.

(** ** Reading it back *)

Fixpoint bracket_depth (s : str) : Z :=
  match s with
  | [] => 0
  | c :: s => bracket_depth s + (if decide (c = "["%char) then 1 else if decide (c = "]"%char) then -1 else 0)
  end.

(** What a field can say of an alternative. *)
Record alternative_ok (a : Alternative) : Prop := {
  ok_protocol : protocol_id a ≠ [] ∧ Forall (λ c, is_tchar c = true ∧ c ≠ "%"%char) (protocol_id a);
  ok_host : ∀ h, alt_host a = Some h → h ≠ [] ∧ to_ascii_lowercase h = h ∧ bracket_depth h = 0;
  ok_port : 0 <= alt_port a <= 65535;
  ok_max_age : ∃ s, 0 <= s <= u64_max ∧ max_age a = from_secs s;
}.

Lemma last_colon_app d i acc s t :
  last_colon d i acc (s ++ t) = last_colon (d + bracket_depth s) (i + length s) (last_colon d i acc s) t.
Proof.
  revert d i acc. induction s as [|c s IH]; intros d i acc; cbn [app last_colon bracket_depth length].
  { by rewrite Z.add_0_r, Nat.add_0_r. }
  rewrite <- Nat.add_succ_comm. destruct (decide (c = "["%char)); [rewrite IH; f_equal; lia|].
  destruct (decide (c = "]"%char)); [rewrite IH; f_equal; lia|].
  destruct (_ && _); rewrite IH; f_equal; lia.
Qed.

Lemma last_colon_digits d i acc s : all_digits s = true → last_colon d i acc s = acc.
Proof.
  revert i. induction s as [|c s IH]; intros i; [done|]. unfold all_digits. cbn [forallb last_colon]. intros [Hc Hs]%andb_true_iff.
  rewrite !decide_False by (intros ->; done). rewrite bool_decide_eq_false_2 by (intros ->; done). by apply IH.
Qed.

Lemma authority_roundtrip a : alternative_ok a → parse_alt_authority (render_authority a) = Some (alt_host a, alt_port a).
Proof.
  intros [_ Hhost Hport _]. unfold parse_alt_authority, render_authority. set (h := default [] (alt_host a)).
  assert (Hh : bracket_depth h = 0 ∧ to_ascii_lowercase h = h).
  { unfold h. destruct (alt_host a) as [x|]; [|done]. by destruct (Hhost x eq_refl) as (_ & ? & ?). }
  destruct (show_digits_value 5 (alt_port a)) as [Hd _]; [cbn; lia|].
  rewrite last_colon_app, (proj1 Hh), Z.add_0_r, Nat.add_0_l.
  change (last_colon 0 (length h) ?acc (b#":" ++ ?t)) with (last_colon 0 (S (length h)) (Some (length h)) t).
  rewrite last_colon_digits by done. cbn [mbind option_bind].
  replace (drop (S (length h)) (h ++ b#":" ++ show_u16 (alt_port a))) with (show_u16 (alt_port a))
    by (rewrite drop_app_ge, Nat.sub_succ_l, Nat.sub_diag by lia; done).
  unfold show_u16. rewrite parse_show_digits by (cbn; lia). cbn [mbind option_bind].
  rewrite take_app_length, (proj2 Hh). f_equal. f_equal. unfold h. destruct (alt_host a) as [x|]; [|done].
  rewrite decide_False; [done|]. by destruct (Hhost x eq_refl).
Qed.

Lemma tchar_plain c : is_tchar c = true → is_whitespace c = false ∧ c ≠ "="%char ∧ c ≠ ";"%char ∧ c ≠ ","%char ∧ c ≠ quote_mark.
Proof. destruct c as [[] [] [] [] [] [] [] []]; vm_compute; naive_solver. Qed.

Lemma digit_plain c : is_ascii_digit c = true → is_tchar c = true.
Proof. intros Hc. unfold is_tchar. by rewrite Hc. Qed.

Section Roundtrip.
Context (percent_decode_utf8 : str → option str).
Hypothesis decode_plain :
  ∀ s, Forall (λ c, is_tchar c = true ∧ c ≠ "%"%char) s → percent_decode_utf8 s = Some s.

Lemma seconds_digits a : alternative_ok a → Forall (λ c, is_tchar c = true) (show_digits 20 (as_secs (max_age a))).
Proof.
  intros [_ _ _ (s & Hs & ->)]. unfold as_secs, from_secs. rewrite Z.div_mul by done.
  destruct (show_digits_value 20 s) as [Hd _]; [unfold u64_max in Hs; cbn; lia|].
  apply forallb_Forall in Hd. eapply Forall_impl; [exact Hd|]. apply digit_plain.
Qed.

(** The parts of an alternative: no separator but inside the quotes. *)
Lemma parts_whole a sep :
  alternative_ok a → sep = ","%char ∨ sep = ";"%char →
  whole_piece sep (protocol_id a ++ b#"=" ++ quote (render_authority a)) ∧
  whole_piece sep (b#"ma=" ++ show_digits 20 (as_secs (max_age a))) ∧ whole_piece sep b#"persist=1".
Proof.
  intros Hok Hsep.
  assert (Ht : ∀ s, Forall (λ c, is_tchar c = true) s → whole_piece sep s).
  { intros s Hs. apply whole_plain. eapply Forall_impl; [exact Hs|]. intros c (_ & _ & ? & ? & ?)%tchar_plain.
    by destruct Hsep as [->| ->]. }
  assert (Heq : whole_piece sep b#"=") by (apply whole_plain; constructor; [destruct Hsep as [->| ->]; done|constructor]).
  split; [|split].
  - apply whole_app; [|apply whole_app; [done|apply whole_quote; by destruct Hsep as [->| ->]]].
    apply Ht. destruct (ok_protocol a Hok) as [_ Hp]. eapply Forall_impl; [exact Hp|]. by intros c [? _].
  - change b#"ma=" with (b#"ma" ++ b#"="). rewrite <- app_assoc.
    apply whole_app; [apply Ht; by repeat constructor|]. apply whole_app; [done|]. by apply Ht, seconds_digits.
  - change b#"persist=1" with (b#"persist" ++ b#"=" ++ b#"1").
    apply whole_app; [apply Ht; by repeat constructor|]. apply whole_app; [done|]. apply Ht. by repeat constructor.
Qed.

Lemma trim_tchars s : Forall (λ c, is_tchar c = true) s → trim s = s.
Proof. intros Hs. apply trim_id. eapply Forall_impl; [exact Hs|]. by intros c [? _]%tchar_plain. Qed.

Lemma trim_quote s : trim (quote s) = quote s.
Proof. by apply (trim_ends quote_mark quote_mark _ (escape s ++ [quote_mark]) (quote_mark :: escape s)). Qed.

Lemma ma_parameter a acc :
  alternative_ok a →
  apply_parameter acc (" "%char :: b#"ma=" ++ show_digits 20 (as_secs (max_age a))) = (max_age a, acc.2).
Proof.
  intros Hok. pose proof (seconds_digits a Hok) as Hd. destruct (ok_max_age a Hok) as (s & Hs & Hma).
  set (digits := show_digits 20 (as_secs (max_age a))) in *.
  assert (Hparse : parse_u64 digits = Some s).
  { unfold digits. rewrite Hma. unfold as_secs, from_secs. rewrite Z.div_mul by done.
    apply parse_show_digits; [done|unfold u64_max in Hs; cbn; lia|lia]. }
  assert (Hne : ∃ c t, digits = c :: t).
  { destruct digits as [|c t]; [done|]. eauto. }
  destruct Hne as (c & t & Hct).
  assert (Htrim : trim (" "%char :: b#"ma=" ++ digits) = b#"ma=" ++ digits).
  { change (trim (" "%char :: b#"ma=" ++ digits)) with (trim (b#"ma=" ++ digits)).
    destruct (exists_last (l := digits)) as (u & d & Hu); [by rewrite Hct|].
    apply (trim_ends "m"%char d _ (b#"a=" ++ digits) (b#"ma=" ++ u)); [done|by rewrite Hu, app_assoc|done|].
    rewrite Hu in Hd. apply Forall_app in Hd as [_ Hd]. apply Forall_cons in Hd as [Hd _]. by apply tchar_plain. }
  unfold apply_parameter. rewrite Htrim. change (b#"ma=" ++ digits) with (b#"ma" ++ "="%char :: digits).
  rewrite split_once_app by (by repeat constructor). rewrite (trim_tchars digits Hd).
  rewrite Hct, unquote_plain, <- Hct; [|rewrite Hct in Hd; apply Forall_cons in Hd as [Hc _]; by apply tchar_plain].
  change (trim b#"ma") with b#"ma". rewrite decide_True by done. by rewrite Hparse, <- Hma.
Qed.

Lemma persist_parameter acc : apply_parameter acc (" "%char :: b#"persist=1") = (acc.1, true).
Proof. by vm_compute. Qed.

Lemma alternative_roundtrip a :
  alternative_ok a → parse_alt_value percent_decode_utf8 (render_alternative a) = Some a.
Proof.
  intros Hok. destruct (parts_whole a ";"%char Hok) as (Hh & Hm & Hp); [by right|].
  unfold parse_alt_value, render_alternative.
  set (head := protocol_id a ++ b#"=" ++ quote (render_authority a)) in *.
  set (ma := b#"ma=" ++ show_digits 20 (as_secs (max_age a))) in *.
  rewrite decide_False by (destruct (persist a); by intros [_ ?]%app_nil).
  change b#"; " with (";"%char :: b#" "). rewrite split_join; [| |done|done|done].
  2: { constructor; [done|]. constructor; [done|]. destruct (persist a); by repeat constructor. }
  cbn [app]. destruct (ok_protocol a Hok) as [Hne Hpid].
  assert (Htchars : Forall (λ c, is_tchar c = true) (protocol_id a)) by (eapply Forall_impl; [exact Hpid|]; by intros c [? _]).
  assert (Htrim : trim head = head).
  { destruct (protocol_id a) as [|c t] eqn:E; [done|]. unfold head.
    apply (trim_ends c quote_mark _ (t ++ b#"=" ++ quote (render_authority a))
      ((c :: t) ++ b#"=" ++ [quote_mark] ++ escape (render_authority a))); [done| | |done].
    - unfold quote. by rewrite <- !app_assoc.
    - apply Forall_cons in Htchars as [Hc _]. by apply tchar_plain. }
  rewrite Htrim. unfold head. change (b#"=" ++ quote (render_authority a)) with ("="%char :: quote (render_authority a)).
  rewrite split_once_app.
  2: { eapply Forall_impl; [exact Htchars|]. intros c Hc. unfold is_char. apply bool_decide_eq_false. by apply tchar_plain. }
  cbn [mbind option_bind]. rewrite (trim_tchars _ Htchars). unfold decode_protocol_id.
  rewrite (bool_decide_eq_false_2 _ Hne), (proj2 (forallb_Forall _ _) Htchars). cbn [negb orb].
  rewrite decode_plain by done. cbn [mbind option_bind]. rewrite decide_False by done.
  rewrite trim_quote, unquote_quote. cbn [mbind option_bind]. rewrite authority_roundtrip by done. cbn [mbind option_bind fmap list_fmap foldl].
  unfold ma. rewrite ma_parameter by done. destruct a as [pid host port age [|]]; cbn; [|done].
  by rewrite persist_parameter.
Qed.

(** An element begins and ends with something else than white space. *)
Lemma render_ends a :
  alternative_ok a → ∃ c d t u, render_alternative a = c :: t ∧ render_alternative a = u ++ [d] ∧
    is_whitespace c = false ∧ is_whitespace d = false.
Proof.
  intros Hok. pose proof (seconds_digits a Hok) as Hd. destruct (ok_protocol a Hok) as [Hne Hpid].
  destruct (protocol_id a) as [|c pid] eqn:E; [done|]. apply Forall_cons in Hpid as [[Hc _] _].
  destruct (exists_last (l := show_digits 20 (as_secs (max_age a)))) as (digits & d & Hl); [by apply show_digits_nonempty|].
  rewrite Hl in Hd. apply Forall_app in Hd as [_ Hd]. apply Forall_cons in Hd as [Hd _].
  unfold render_alternative. rewrite E, Hl. destruct (persist a); cbn [app join].
  - eexists c, "1"%char, _, _. split; [done|]. split; [|split; [by apply tchar_plain|done]].
    change b#"persist=1" with (b#"persist=" ++ [("1"%char)]). by rewrite !app_comm_cons, !app_assoc.
  - eexists c, d, _, _. split; [done|]. split; [|split; by apply tchar_plain]. by rewrite !app_comm_cons, !app_assoc.
Qed.

Lemma render_whole a : alternative_ok a → whole_piece ","%char (render_alternative a).
Proof.
  intros Hok. destruct (parts_whole a ","%char Hok) as (Hh & Hm & Hp); [by left|].
  assert (Hsep : whole_piece ","%char b#"; ") by (apply whole_plain; by repeat constructor).
  unfold render_alternative. destruct (persist a); cbn [app join]; auto using whole_app.
Qed.

Lemma trim_render a : alternative_ok a → trim (render_alternative a) = render_alternative a.
Proof. intros Hok. destruct (render_ends a Hok) as (c & d & t & u & Hc & Hd & ? & ?). by apply (trim_ends c d _ t u). Qed.

Lemma trim_field l : Forall alternative_ok l → trim (render_field l) = render_field l.
Proof.
  intros Hl. destruct l as [|a l]; [done|]. apply Forall_cons in Hl as [Ha Hl].
  destruct (render_ends a Ha) as (c & _ & t & _ & Hc & _ & Hwc & _).
  assert (Hlast : ∀ a l, alternative_ok a → Forall alternative_ok l → ∃ u d, render_field (a :: l) = u ++ [d] ∧ is_whitespace d = false).
  { clear. intros a l. revert a. induction l as [|b l IH]; intros a Ha Hl.
    - destruct (render_ends a Ha) as (_ & d & _ & u & _ & Hd & _ & ?). by exists u, d.
    - apply Forall_cons in Hl as [Hb Hl]. destruct (IH b Hb Hl) as (u & d & Hu & ?).
      exists (render_alternative a ++ b#", " ++ u), d. split; [|done]. rewrite <- !app_assoc, <- Hu. done. }
  destruct (Hlast a l Ha Hl) as (u & d & Hu & Hwd).
  apply (trim_ends c d _ (drop 1 (render_field (a :: l))) u); [|done|done|done].
  unfold render_field. cbn [fmap list_fmap join]. rewrite Hc. by destruct (render_alternative <$> l).
Qed.

Lemma alt_svc_field l :
  Forall alternative_ok l → parse_alt_svc percent_decode_utf8 (render_field l) = Alternatives l.
Proof.
  intros Hl. unfold parse_alt_svc. rewrite trim_field by done. rewrite decide_False.
  - f_equal. destruct l as [|a l]; [done|]. unfold render_field. change b#", " with (","%char :: b#" ").
    rewrite split_join; [|by apply Forall_fmap; eapply Forall_impl; [exact Hl|]; intros; by apply render_whole|done..].
    assert (Hread : ∀ a, alternative_ok a → parse_alt_value percent_decode_utf8 (trim (render_alternative a)) = Some a)
      by (intros b Hb; rewrite trim_render by done; by apply alternative_roundtrip).
    apply Forall_cons in Hl as [Ha Hl]. cbn [fmap list_fmap omap list_omap]. rewrite Hread by done. f_equal.
    induction Hl as [|b l Hb Hl IH]; [done|]. cbn [fmap list_fmap omap list_omap].
    change (trim (" "%char :: render_alternative b)) with (trim (render_alternative b)). rewrite Hread by done. by f_equal.
  - intros Hclear. destruct l as [|a l]; [done|].
    assert (Hno : "="%char ∉ b#"clear") by by apply (bool_decide_eq_false_1 _). apply Hno. rewrite <- Hclear.
    assert (Hin : "="%char ∈ render_alternative a).
    { assert (H : "="%char ∈ protocol_id a ++ b#"=" ++ quote (render_authority a))
        by (apply elem_of_app; right; apply list_elem_of_here).
      unfold render_alternative. destruct (persist a); cbn [app join]; apply elem_of_app; by left. }
    unfold render_field. cbn [fmap list_fmap join]. destruct (render_alternative <$> l); [done|]. apply elem_of_app. by left.
Qed.
End Roundtrip.

(** What an origin can say of its alternatives survives being written down: reading
    the field back gives the same alternatives, in order, whatever their hosts hold
    of separators, quotes and backslashes. *)
Theorem alt_svc_roundtrip percent_decode_utf8 l :
  (∀ s, Forall (λ c, is_tchar c = true ∧ c ≠ "%"%char) s → percent_decode_utf8 s = Some s) →
  Forall alternative_ok l →
  parse_alt_svc percent_decode_utf8 (render_field l) = Alternatives l.
Proof. intros Hdecode Hl. by apply alt_svc_field. Qed.

(** ** The cache *)

Record cache_ok (c : AltSvcCache) : Prop := {
  ok_capacity : 1 <= capacity c;
  ok_size : Z.of_nat (size (entries c)) <= capacity c;
  ok_some origin : entries c !! origin ≠ Some [];
}.

Lemma new_cache_ok n : cache_ok (with_capacity n).
Proof. split; cbn; [lia|rewrite map_size_empty; lia|]. intros o. by rewrite lookup_empty. Qed.

(** What a cache still offers after it forgot some: for every instant from [now] on,
    all but the victim's alternatives. *)
Definition offers_but (victim : option Origin) (now : SystemTime) (c c' : AltSvcCache) : Prop :=
  ∀ o later, Some o ≠ victim → now <= later → alternatives c' o later = alternatives c o later.

Lemma purge_lookup now c o :
  entries (purge_expired now c) !! o =
    (entries c !! o ≫= λ l, let l := filter (λ e, is_live now e = true) l in if decide (l = []) then None else Some l).
Proof. unfold purge_expired. cbn. apply lookup_omap. Qed.

Lemma purge_offers now c : offers_but None now c (purge_expired now c).
Proof.
  intros o later _ Hle. unfold alternatives. rewrite purge_lookup. destruct (entries c !! o) as [l|]; [|done]. cbn.
  assert (Hlive : filter (λ e, is_live later e = true) (filter (λ e, is_live now e = true) l)
                  = filter (λ e, is_live later e = true) l).
  { apply list_filter_filter_l. intros e He. unfold is_live in *. bool_prop. lia. }
  case_decide as Hnil; cbn; [by rewrite <- Hlive, Hnil|done].
Qed.

Lemma purge_ok now c : cache_ok c → cache_ok (purge_expired now c) ∧ ∀ o, is_Some (entries (purge_expired now c) !! o) → is_Some (entries c !! o).
Proof.
  intros [Hc Hs Hn]. assert (Hsub : ∀ o, is_Some (entries (purge_expired now c) !! o) → is_Some (entries c !! o)).
  { intros o. rewrite purge_lookup. destruct (entries c !! o); [eauto|by intros [? ?]]. }
  split; [|done]. split; [done| |].
  - apply Z.le_trans with (Z.of_nat (size (entries c))); [|done]. apply Nat2Z.inj_le.
    rewrite <- !size_dom. apply subseteq_size. intros o. rewrite !elem_of_dom. apply Hsub.
  - intros o. rewrite purge_lookup. destruct (entries c !! o) as [l|]; [|done]. cbn. case_decide; [done|]. congruence.
Qed.

(** The earliest expiry of an origin. *)
Definition expires_first (c : AltSvcCache) (o : Origin) (at_ : SystemTime) : Prop :=
  ∃ l e, entries c !! o = Some l ∧ e ∈ l ∧ expires_at e = at_ ∧ ∀ e', e' ∈ l → at_ <= expires_at e'.

Lemma elem_of_expiries c at_ o : cache_ok c → (at_, o) ∈ expiries c → expires_first c o at_.
Proof.
  intros Hok. unfold expiries. rewrite list_elem_of_omap. intros ([k l] & Hin & Heq). cbn in Heq.
  apply elem_of_map_to_list in Hin. apply fmap_Some in Heq as (e & He & [= -> ->]). apply min_by_key_spec in He as [? ?].
  exists l, e. done.
Qed.

Lemma expiries_cover c o l : cache_ok c → entries c !! o = Some l → ∃ at_, (at_, o) ∈ expiries c ∧ expires_first c o at_.
Proof.
  intros Hok Hl. assert (Hne : l ≠ []) by (intros ->; by apply (ok_some c Hok o)).
  destruct (min_by_key expires_at l) as [e|] eqn:He; [|by destruct l].
  assert (Hin : (expires_at e, o) ∈ expiries c).
  { unfold expiries. apply list_elem_of_omap. exists (o, l). split; [by apply elem_of_map_to_list|]. cbn. by rewrite He. }
  exists (expires_at e). split; [done|]. by apply elem_of_expiries.
Qed.

(** The origin forgotten to make room: the first to expire, and only in a cache full of
    live alternatives. *)
Definition forgotten (now : SystemTime) (c : AltSvcCache) (victim : Origin) : Prop :=
  capacity c <= Z.of_nat (size (entries (purge_expired now c))) ∧
  ∃ at_, expires_first (purge_expired now c) victim at_ ∧
    ∀ o at', expires_first (purge_expired now c) o at' → at_ <= at'.

Lemma make_room_spec origin now c :
  cache_ok c → ∃ victim, offers_but victim now c (make_room_for origin now c) ∧
    (∀ v, victim = Some v → forgotten now c v) ∧ cache_ok (make_room_for origin now c) ∧
    capacity (make_room_for origin now c) = capacity c ∧
    (Z.of_nat (size (entries (make_room_for origin now c))) < capacity c ∨ is_Some (entries (make_room_for origin now c) !! origin)).
Proof.
  intros Hok. unfold make_room_for. destruct (_ || _) eqn:E.
  { exists None. split; [done|]. split; [done|]. split; [done|]. split; [done|]. bool_prop. naive_solver. }
  bool_prop. destruct E as [Hfull Hnone]. destruct (purge_ok now c Hok) as [Hp Hsub].
  destruct (_ <? _) eqn:Hroom; bool_prop.
  { exists None. split; [apply purge_offers|]. split; [done|]. split; [done|]. split; [done|]. by left. }
  destruct (min_by_key fst _) as [[at_ v]|] eqn:Hmin.
  - pose proof (min_by_key_spec _ _ _ Hmin) as [Hin Hle]. exists (Some v).
    pose proof (elem_of_expiries _ _ _ Hp Hin) as Hfirst. pose proof Hfirst as (l & _ & Hl & _).
    split; [|split; [|split; [|split]]].
    + intros o later Hv Hnow. rewrite <- (purge_offers now c o later) by done. unfold alternatives. cbn [entries].
      rewrite lookup_delete_ne; [done|congruence].
    + intros ? [= <-]. split; [done|]. exists at_. split; [done|]. intros o at' Ho.
      destruct Ho as (l' & e & Hl' & He & Hat & Hlow). destruct (expiries_cover _ _ _ Hp Hl') as (at'' & Hin' & Hf).
      apply Z.le_trans with at''; [by apply (Hle (at'', o))|].
      destruct Hf as (l'' & e' & Hl'' & He' & Hat' & Hlow'). rewrite Hl' in Hl''. injection Hl'' as <-. rewrite <- Hat. by apply Hlow'.
    + destruct Hp as [? Hps Hpn]. split; cbn [entries capacity]; [done| |].
      * rewrite map_size_delete, Hl. lia.
      * intros o. destruct (decide (o = v)) as [->|]; [by rewrite lookup_delete_eq|by rewrite lookup_delete_ne].
    + done.
    + left. cbn [entries capacity]. rewrite map_size_delete, Hl. pose proof (ok_size _ Hp) as Hs.
      assert (size (entries (purge_expired now c)) ≠ 0%nat); [|change (capacity (purge_expired now c)) with (capacity c) in Hs; lia].
      intros H0. apply map_size_empty_inv in H0. rewrite H0 in Hl. by rewrite lookup_empty in Hl.
  - exfalso. destruct (expiries (purge_expired now c)) as [|x l] eqn:Hx; [|done].
    assert (Hpos : size (entries (purge_expired now c)) ≠ 0%nat) by (pose proof (ok_capacity _ Hp); lia).
    apply map_size_ne_0_lookup in Hpos as (o & l & Hl).
    destruct (expiries_cover _ _ _ Hp Hl) as (at_ & Hin & _). rewrite Hx in Hin. by apply elem_of_nil in Hin.
Qed.

(** Recording a field: an insecure origin teaches nothing and is refused; a secure
    one has its alternatives replaced by exactly what the field says and the clock can
    hold.  Every other origin keeps, from now on, all it had, except one that is the
    first to expire when the cache is full of live alternatives.  The cache never
    exceeds its capacity. *)
Theorem alt_svc_record_exact percent_decode_utf8 origin value now c :
  cache_ok c →
  let '(result, c') := record percent_decode_utf8 origin value now c in
  if is_secure origin then
    result = inl tt ∧ cache_ok c' ∧ capacity c' = capacity c ∧
    entries c' !! origin = (let l := remembered percent_decode_utf8 value now in if decide (l = []) then None else Some l) ∧
    ∃ victim, (∀ v, victim = Some v → forgotten now c v) ∧
      ∀ o later, o ≠ origin → Some o ≠ victim → now <= later → alternatives c' o later = alternatives c o later
  else result = inr (InsecureOrigin origin) ∧ c' = c.
Proof.
  intros Hok. unfold record. destruct (is_secure origin); cbn [negb]; [|done].
  set (l := remembered percent_decode_utf8 value now). destruct (decide (l = [])) as [Hl|Hl].
  - split; [done|]. split; [|split; [done|split; [apply lookup_delete_eq|]]].
    + destruct Hok as [Hc Hs Hn]. split; cbn [entries capacity]; [done| |].
      * rewrite map_size_delete. destruct (entries c !! origin); unfold id; lia.
      * intros o. destruct (decide (o = origin)) as [->|]; [by rewrite lookup_delete_eq|by rewrite lookup_delete_ne].
    + exists None. split; [done|]. intros o later Ho _ _. unfold alternatives. cbn [entries]. by rewrite lookup_delete_ne.
  - destruct (make_room_spec origin now c Hok) as (victim & Hoff & Hv & [Hc Hs Hn] & Hcap & Hroom).
    split; [done|]. split; [|split; [done|split; [apply lookup_insert_eq|]]].
    + split; cbn [entries capacity]; [done| |].
      * rewrite map_size_insert. destruct Hroom as [Hlt|[x Hx]]; [|rewrite Hx; exact Hs].
        destruct (entries _ !! origin); unfold id; lia.
      * intros o. destruct (decide (o = origin)) as [->|]; [rewrite lookup_insert_eq; congruence|by rewrite lookup_insert_ne].
    + exists victim. split; [done|]. intros o later Ho Hne Hnow. rewrite <- (Hoff o later Hne Hnow).
      unfold alternatives. cbn [entries]. by rewrite lookup_insert_ne.
Qed.

(** The HTTP/3 alternative is the first of the live ones. *)
Lemma h3_alternative_first c origin now :
  h3_alternative c origin now =
    head (filter (λ e, protocol_id (cached_alternative e) = H3_ALPN) (alternatives c origin now)).
Proof.
  unfold h3_alternative, alternatives. generalize H3_ALPN as h3. intros h3.
  destruct (entries c !! origin) as [l|]; [|done]. cbn.
  induction l as [|e l IH]; [done|]. cbn [list_find]. rewrite filter_cons.
  destruct (decide (is_live now e = true)) as [Hlive|Hlive].
  - rewrite filter_cons. destruct (decide (protocol_id (cached_alternative e) = h3)) as [Hp|Hp].
    + case_decide as Hx; [done|]. exfalso. by apply Hx.
    + case_decide as Hx; [by destruct Hx|]. rewrite <- IH. by destruct (list_find _ l) as [[]|].
  - case_decide as Hx; [by destruct Hx|]. rewrite <- IH. by destruct (list_find _ l) as [[]|].
Qed.

Definition demo_alternative : Alternative :=
  mk_alternative b#"h3" (Some (b#"a;b,c\" ++ [quote_mark])) 443 (from_secs 60) true.
Definition demo_origin : Origin := mk_origin b#"https" b#"a.example" 443.

Lemma demo_alternative_ok : alternative_ok demo_alternative.
Proof.
  split.
  - split; [done|]. by repeat (constructor; [done|]).
  - intros h [= <-]. by repeat split.
  - cbn. lia.
  - exists 60. split; [unfold u64_max; lia|done].
Qed.

Lemma alt_svc_roundtrip_witness :
  parse_alt_svc Some (render_field [demo_alternative; demo_alternative]) = Alternatives [demo_alternative; demo_alternative].
Proof.
  pose proof demo_alternative_ok as Hok. apply (alt_svc_roundtrip Some); [done|].
  apply Forall_cons; split; [exact Hok|]. by apply Forall_singleton.
Defined.

Lemma alt_svc_record_exact_witness :
  let '(result, c') := record Some demo_origin (render_field [demo_alternative]) 5 new_cache in
  result = inl tt ∧ cache_ok c' ∧ alternatives c' demo_origin 6 = [mk_cached demo_alternative (5 + from_secs 60)].
Proof.
  pose proof (alt_svc_record_exact Some demo_origin (render_field [demo_alternative]) 5 new_cache (new_cache_ok _)) as H.
  destruct (record _ _ _ _ _) as [result c'].
  change (is_secure demo_origin) with true in H. destruct H as (Hr & Hok & _ & He & _).
  split; [exact Hr|]. split; [exact Hok|]. unfold alternatives. rewrite He. vm_compute. reflexivity.
Defined.
