(* ===== verification/Redirect.v ===== *)
(** What a 3xx means and the request that follows it
    (src/crates/chromulate-http/src/redirect.rs, [rebuild] and [effective_policy] of
    src/crates/chromulate-http/src/engine.rs), with the referrer policy of
    src/crates/chromulate-core/src/uri.rs and the redirect policy of
    src/crates/chromulate-core/src/request.rs. *)
From S2P Require Import Prelude RustStr Extern CoreError Origin.
Local Open Scope Z_scope.

(** ** The policy (request.rs) *)

Inductive RedirectPolicy := Follow (limit : Z) | NoRedirects.

#[export] Instance RedirectPolicy_eq_dec : EqDecision RedirectPolicy.
Proof. solve_decision. Defined.

Definition DEFAULT_LIMIT : Z := 20.
Definition default_policy : RedirectPolicy := Follow DEFAULT_LIMIT.

(** [effective_policy]: the default stands for "not stated". *)
Definition effective_policy (stated fallback : RedirectPolicy) : RedirectPolicy :=
  if decide (stated = default_policy) then fallback else stated.

(** The limit the redirect loop runs under. *)
Definition redirect_limit (p : RedirectPolicy) : option Z :=
  match p with Follow limit => Some limit | NoRedirects => None end.

(** ** The decision (redirect.rs) *)

Definition is_redirect (status : StatusCode) : bool :=
  bool_decide (status ∈ [MOVED_PERMANENTLY; FOUND; SEE_OTHER; TEMPORARY_REDIRECT; PERMANENT_REDIRECT]).

Definition method_after (status : StatusCode) (method : Method) : Method :=
  if bool_decide (status = MOVED_PERMANENTLY ∨ status = FOUND) && bool_decide (method = POST) then GET
  else if bool_decide (status = SEE_OTHER) && negb (bool_decide (method = GET))
          && negb (bool_decide (method = HEAD)) then GET
  else method.

Definition CREDENTIAL_HEADERS : list str := [AUTHORIZATION; COOKIE; PROXY_AUTHORIZATION].

Section With_extern.
Context `{HeaderValueApi} `{HeaderMapApi} `{UrlApi}.

Record Hop := mk_hop {
  hop_url : Url;
  hop_method : Method;
  drop_body : bool;
  cross_origin : bool;
}.

Inductive Decision := Stop | FollowHop (hop : Hop).

Definition crosses_origin (from to : Url) : bool :=
  match origin_of from, origin_of to with
  | inl from, inl to => negb (bool_decide (from = to))
  | _, _ => true
  end.

Definition strip_credentials (headers : HeaderMap) : HeaderMap :=
  foldl (λ h name, hm_remove name h) headers CREDENTIAL_HEADERS.

Definition resolve_location (current : Url) (location : str) : Url + Error :=
  match to_str location with
  | None => inr Redirect
  | Some raw => match url_join current (trim raw) with Some url => inl url | None => inr Redirect end
  end.

Definition decide_redirect (status : StatusCode) (headers : HeaderMap) (current : Url) (method : Method)
    (limit : option Z) (hops : Z) : Decision + Error :=
  if negb (is_redirect status) then inl Stop
  else
    match limit with
    | None => inl Stop
    | Some limit =>
        match hm_get headers LOCATION with
        | None => inl Stop
        | Some location =>
            if limit <=? hops then inr (TooManyRedirects limit)
            else
              match resolve_location current location with
              | inr e => inr e
              | inl url =>
                  if negb (bool_decide (scheme url = b#"http")) && negb (bool_decide (scheme url = b#"https"))
                  then inr Redirect
                  else
                    let next_method := method_after status method in
                    inl (FollowHop (mk_hop url next_method (negb (bool_decide (next_method = method)))
                                      (crosses_origin current url)))
              end
        end
    end.

(** [rebuild]: the headers of the next request.  Its method and URL are the
    hop's; the body is the caller's to choose. *)
Definition rebuild (headers : HeaderMap) (hop : Hop) : HeaderMap :=
  let headers := if cross_origin hop then strip_credentials headers else headers in
  let headers :=
    if drop_body hop
    then hm_remove TRANSFER_ENCODING (hm_remove CONTENT_TYPE (hm_remove CONTENT_LENGTH headers))
    else headers in
  hm_remove HOST headers.
End With_extern.

(** ** The referrer (uri.rs) *)

Definition ascii_serialization (o : Origin) : str :=
  let default_port :=
    if bool_decide (o_scheme o = b#"http") || bool_decide (o_scheme o = b#"ws") then 80
    else if bool_decide (o_scheme o = b#"https") || bool_decide (o_scheme o = b#"wss") then 443
    else 0 in
  if o_port o =? default_port then o_scheme o ++ b#"://" ++ o_host o
  else o_scheme o ++ b#"://" ++ o_host o ++ b#":" ++ show_u16 (o_port o).

(** [to_string] of the [url] crate after the fragment, the user name and the
    password were cleared. *)
Class UrlReferrer `{UrlApi} := without_fragment_and_userinfo : Url → str.

Definition referrer_for `{UrlReferrer} (from to : Url) : option str :=
  match origin_of from, origin_of to with
  | inl from_origin, inl to_origin =>
      if is_secure from_origin && negb (is_secure to_origin) then None
      else if decide (from_origin = to_origin) then Some (without_fragment_and_userinfo from)
      else Some (ascii_serialization from_origin ++ b#"/")
  | _, _ => None
  end.

(** ** What a redirect may do *)

Section Facts.
Context `{HeaderValueApi} `{HeaderMapApi} `{UrlApi}.

Lemma method_after_spec status method :
  (method_after status method = method ∨ method_after status method = GET) ∧
  (method = GET ∨ method = HEAD → method_after status method = method) ∧
  (status = TEMPORARY_REDIRECT ∨ status = PERMANENT_REDIRECT → method_after status method = method) ∧
  (status = SEE_OTHER → method_after status method = method → method = GET ∨ method = HEAD).
Proof.
  unfold method_after.
  destruct (bool_decide (method = POST)) eqn:Hp, (bool_decide (method = GET)) eqn:Hg,
    (bool_decide (method = HEAD)) eqn:Hh; bool_prop; subst; try done;
  repeat case_bool_decide; simpl; repeat split; intros; try done; naive_solver.
Qed.

Lemma crosses_origin_false from to :
  crosses_origin from to = false ↔ ∃ o, origin_of from = inl o ∧ origin_of to = inl o.
Proof.
  unfold crosses_origin. destruct (origin_of from) as [o|], (origin_of to) as [o'|]; try naive_solver.
  rewrite negb_false_iff, bool_decide_eq_true. naive_solver.
Qed.

(** What following a redirect says about the limit, the origin and the status. *)
Lemma decide_follow status headers current method limit hops hop :
  decide_redirect status headers current method limit hops = inl (FollowHop hop) →
  is_redirect status = true ∧ (∃ l, limit = Some l ∧ hops < l) ∧
  cross_origin hop = crosses_origin current (hop_url hop).
Proof.
  unfold decide_redirect. destruct (is_redirect status); simpl; [|done].
  destruct limit as [l|]; [|done]. destruct (hm_get headers LOCATION) as [v|]; [|done].
  destruct (l <=? hops) eqn:El; bool_prop; [done|].
  destruct (resolve_location current v) as [url|]; [|done]. destruct (_ && _); [done|].
  intros [= <-]. eauto.
Qed.

Lemma decide_stop status headers current method limit hops :
  decide_redirect status headers current method limit hops = inl Stop →
  is_redirect status = false ∨ limit = None ∨ hm_get headers LOCATION = None.
Proof.
  unfold decide_redirect. destruct (is_redirect status); simpl; [|by left].
  destruct limit as [l|]; [|by right; left]. destruct (hm_get headers LOCATION) as [v|]; [|by right; right].
  destruct (l <=? hops); [done|]. destruct (resolve_location current v); [|done]. by destruct (_ && _).
Qed.

(** The rules, apart from the code.  A response redirects under five statuses, if
    redirects are followed at all and it names a target. *)
Definition redirects_to (status : StatusCode) (headers : HeaderMap) (limit : option Z) (l : Z) (location : str) : Prop :=
  status ∈ [301; 302; 303; 307; 308] ∧ limit = Some l ∧ hm_get headers LOCATION = Some location.

(** A target is a URL over [http] or [https] that the field's text resolves to. *)
Definition target_is (current : Url) (location : str) (url : Url) : Prop :=
  ∃ raw, to_str location = Some raw ∧ url_join current (trim raw) = Some url ∧
         (scheme url = b#"http" ∨ scheme url = b#"https").

(** The method of the next request: a [POST] becomes a [GET] under 301 and 302, and
    anything but a [GET] or a [HEAD] under 303. *)
Definition becomes_get (status : StatusCode) (method : Method) : Prop :=
  status ∈ [301; 302] ∧ method = POST ∨ status = 303 ∧ method ≠ GET ∧ method ≠ HEAD.

#[local] Instance becomes_get_dec status method : base.Decision (becomes_get status method).
Proof. unfold becomes_get. apply _. Defined.

Lemma method_after_rule status method :
  method_after status method = if decide (becomes_get status method) then GET else method.
Proof.
  unfold method_after, becomes_get, MOVED_PERMANENTLY, FOUND, SEE_OTHER.
  repeat case_bool_decide; simpl; case_decide; try done; set_solver.
Qed.

(** A method that becomes [GET] was another. *)
Lemma becomes_get_changes status method : becomes_get status method → method ≠ GET.
Proof. unfold becomes_get, POST, GET. intros [[_ ->]|(_ & ? & _)]; done. Qed.

Lemma decide_redirect_none status headers current method limit hops :
  (¬ ∃ l location, redirects_to status headers limit l location) →
  decide_redirect status headers current method limit hops = inl Stop.
Proof.
  intros Hno. unfold decide_redirect. destruct (is_redirect status) eqn:Hs; [|done]. cbn [negb].
  destruct limit as [l|]; [|done]. destruct (hm_get headers LOCATION) as [v|] eqn:Hv; [|done].
  destruct Hno. exists l, v. split; [|done]. unfold is_redirect in Hs. by bool_prop.
Qed.

Lemma decide_redirect_some status headers current method limit hops l location :
  redirects_to status headers limit l location →
  decide_redirect status headers current method limit hops =
    if decide (l <= hops) then inr (TooManyRedirects l)
    else match (text ← to_str location; url_join current (trim text)) with
         | Some url =>
             if decide (scheme url = b#"http" ∨ scheme url = b#"https") then
               inl (FollowHop (mk_hop url (if decide (becomes_get status method) then GET else method)
                                 (bool_decide (becomes_get status method)) (crosses_origin current url)))
             else inr Redirect
         | None => inr Redirect
         end.
Proof.
  intros (Hs & -> & Hv). unfold decide_redirect. unfold is_redirect. rewrite bool_decide_eq_true_2 by done. cbn [negb].
  rewrite Hv. destruct (l <=? hops) eqn:Hl; bool_prop; [by rewrite decide_True by lia|rewrite decide_False by lia].
  unfold resolve_location. destruct (to_str location) as [raw|]; [|done]. cbn [mbind option_bind].
  destruct (url_join current (trim raw)) as [url|]; [|done].
  destruct (negb _ && negb _) eqn:Hsch; bool_prop.
  { by rewrite decide_False by tauto. }
  rewrite decide_True by tauto. rewrite method_after_rule. do 3 f_equal. destruct (decide (becomes_get status method)) as [Hb|Hb].
  - rewrite (bool_decide_eq_true_2 (becomes_get status method)) by done. rewrite bool_decide_eq_false_2; [done|].
    intros Hm. by destruct (becomes_get_changes status method Hb).
  - by rewrite (bool_decide_eq_false_2 (becomes_get status method)), bool_decide_eq_true_2 by done.
Qed.

Lemma redirects_dec status headers limit :
  (∃ l location, redirects_to status headers limit l location) ∨ ¬ ∃ l location, redirects_to status headers limit l location.
Proof.
  unfold redirects_to. destruct (decide (status ∈ [301; 302; 303; 307; 308])); [|right; naive_solver].
  destruct limit as [l|]; [|right; naive_solver].
  destruct (hm_get headers LOCATION) as [v|]; [left; eauto|right; naive_solver].
Qed.

Lemma redirects_to_unique status headers limit l l' v v' :
  redirects_to status headers limit l v → redirects_to status headers limit l' v' → l' = l ∧ v' = v.
Proof. intros (_ & -> & Hv) (_ & [= ->] & Hv'). split; [done|congruence]. Qed.

(** What the rules say of a hop taken for [url]. *)
Lemma hop_fields status current method url hop :
  hop = mk_hop url (if decide (becomes_get status method) then GET else method)
          (bool_decide (becomes_get status method)) (crosses_origin current url) ↔
  hop_url hop = url ∧ hop_method hop = (if decide (becomes_get status method) then GET else method) ∧
  (drop_body hop = true ↔ hop_method hop ≠ method) ∧
  (cross_origin hop = false ↔ ∃ o, origin_of current = inl o ∧ origin_of url = inl o).
Proof.
  rewrite <- crosses_origin_false. pose proof (becomes_get_changes status method) as Hch. split.
  - intros ->. cbn. split_and!; [done..| |done]. rewrite bool_decide_eq_true.
    case_decide as Hb; (split; [|done]); [intros _ He; by apply Hch|]. intros ?. done.
  - destruct hop as [u m d x]. cbn. intros (-> & -> & Hd & Hx). f_equal.
    + case_bool_decide as Hb; case_decide; try done.
      * apply Hd. intros He. by apply Hch.
      * destruct d; [|done]. by destruct (proj1 Hd eq_refl).
    + destruct x, (crosses_origin current url); naive_solver.
Qed.

(** What the rules say of the hop a redirect is followed by. *)
Definition hop_by_rules (status : StatusCode) (current : Url) (method : Method) (hop : Hop) : Prop :=
  hop_method hop = (if decide (becomes_get status method) then GET else method) ∧
  (drop_body hop = true ↔ hop_method hop ≠ method) ∧
  (cross_origin hop = false ↔ ∃ o, origin_of current = inl o ∧ origin_of (hop_url hop) = inl o).

(** A response that redirects: refused at the limit, refused without a target, or followed. *)
Lemma redirect_taken status headers current method limit hops l location :
  redirects_to status headers limit l location →
  let outcome := decide_redirect status headers current method limit hops in
  outcome ≠ inl Stop ∧
  (∀ l', outcome = inr (TooManyRedirects l') ↔ l <= hops ∧ l' = l) ∧
  (outcome = inr Redirect ↔ hops < l ∧ ¬ ∃ url, target_is current location url) ∧
  (∀ hop, outcome = inl (FollowHop hop) ↔
     hops < l ∧ target_is current location (hop_url hop) ∧ hop_by_rules status current method hop).
Proof.
  intros Hr. cbv zeta. rewrite (decide_redirect_some _ _ _ _ _ hops _ _ Hr).
  assert (Htarget : ∀ u, target_is current location u ↔
    (text ← to_str location; url_join current (trim text)) = Some u ∧ (scheme u = b#"http" ∨ scheme u = b#"https")).
  { unfold target_is. destruct (to_str location) as [raw|]; cbn [mbind option_bind]; naive_solver. }
  setoid_rewrite Htarget. case_decide as Hl.
  { split_and!; [done|intros l'|..|intros hop]; split; try done; naive_solver lia. }
  destruct (text ← to_str location; url_join current (trim text)) as [url|].
  2:{ split_and!; [done|intros l'|..|intros hop]; split; try done; naive_solver lia. }
  case_decide as Hs.
  - split_and!; [done|intros l'|..|intros hop]; split; try done; [naive_solver lia..| |].
    + intros [= Hhop]. symmetry in Hhop. apply hop_fields in Hhop as (<- & Hfields). split; [lia|done].
    + intros (_ & [[= Hurl] _] & Hfields). do 2 f_equal. symmetry. apply hop_fields. rewrite Hurl. done.
  - split_and!; [done|intros l'|..|intros hop]; split; try done; naive_solver lia.
Qed.

(** C39. What is done with a response, exactly.  It is handed to the caller if and only if
    its status is not one of 301, 302, 303, 307 and 308, or redirects are off, or it
    names no target - the limit then is never looked at.  Otherwise it is refused as one
    redirect too many if and only if the limit is reached; refused as malformed if and
    only if the limit is not reached and its [Location] resolves to no [http] or
    [https] URL; and followed if and only if it does - to that URL, with [GET] exactly
    where the rules change the method and the method kept elsewhere, the body dropped
    exactly when the method changed, and "same origin" exactly for equal origins.
    There is no other outcome. *)
Theorem redirect_decision status headers current method limit hops :
  let outcome := decide_redirect status headers current method limit hops in
  (outcome = inl Stop ↔ ¬ ∃ l location, redirects_to status headers limit l location) ∧
  (∀ l, outcome = inr (TooManyRedirects l) ↔
     l <= hops ∧ ∃ location, redirects_to status headers limit l location) ∧
  (outcome = inr Redirect ↔
     ∃ l location, redirects_to status headers limit l location ∧ hops < l ∧ ¬ ∃ url, target_is current location url) ∧
  (∀ hop, outcome = inl (FollowHop hop) ↔
     ∃ l location, redirects_to status headers limit l location ∧ hops < l ∧
       target_is current location (hop_url hop) ∧ hop_by_rules status current method hop).
Proof.
  cbv zeta. destruct (redirects_dec status headers limit) as [(l & v & Hr)|Hno].
  2:{ rewrite (decide_redirect_none _ _ _ _ _ _ Hno). split_and!; [done|intros l'|..|intros hop]; split; try done; naive_solver. }
  destruct (redirect_taken _ _ current method _ hops _ _ Hr) as (Hstop & Hmany & Hbad & Hhop).
  assert (Hu : ∀ l' v', redirects_to status headers limit l' v' → l' = l ∧ v' = v)
    by (intros l' v'; by apply redirects_to_unique).
  split_and!; [|intros l'|..|intros hop].
  - split; [done|naive_solver].
  - rewrite Hmany. naive_solver.
  - rewrite Hbad. naive_solver.
  - rewrite Hhop. naive_solver.
Qed.
End Facts.

Section Rebuild.
Context `{HeaderMapLaws} `{UrlApi}.

Lemma get_all_strip_credentials h n :
  hm_get_all (strip_credentials h) n =
  if decide (n ∈ CREDENTIAL_HEADERS) then [] else hm_get_all h n.
Proof.
  unfold strip_credentials, CREDENTIAL_HEADERS. cbn [foldl]. rewrite !get_all_remove.
  repeat case_decide; try done; set_solver.
Qed.

(** The fields of the next request: exactly the previous ones, less the
    credentials when the origin changes, less what described a dropped body, and
    less [Host]. *)
Lemma get_all_rebuild h hop n :
  hm_get_all (rebuild h hop) n =
  if decide (n = HOST ∨ (cross_origin hop = true ∧ n ∈ CREDENTIAL_HEADERS) ∨
             (drop_body hop = true ∧ n ∈ [CONTENT_LENGTH; CONTENT_TYPE; TRANSFER_ENCODING]))
  then [] else hm_get_all h n.
Proof.
  unfold rebuild. destruct (cross_origin hop), (drop_body hop);
    rewrite ?get_all_remove, ?get_all_strip_credentials; repeat case_decide; try done; set_solver.
Qed.
End Rebuild.

(** The referrer never carries a secure page's address to a plaintext one, and
    carries no more than the origin to another origin. *)
Lemma referrer_for_spec `{UrlReferrer} from to r o o' :
  origin_of from = inl o → origin_of to = inl o' → referrer_for from to = Some r →
  (is_secure o = true → is_secure o' = true) ∧ (o ≠ o' → r = ascii_serialization o ++ b#"/").
Proof.
  unfold referrer_for. intros -> ->. destruct (is_secure o) eqn:E, (is_secure o') eqn:E'; simpl; try done;
  case_decide; naive_solver.
Qed.
