(* ===== verification/Retry.v ===== *)
(** [chromulate-http]: the bounded retry in front of an exchange
    (src/crates/chromulate-http/src/middleware/retry.rs).

    The exchange it repeats is a state-passing function: each call may answer
    differently.  [jitter n d] is the outcome of multiplying [d] by the random
    factor drawn for attempt [n].  Sleeping is recorded, not performed. *)
From S2P Require Import Prelude RustStr RustTime Extern CoreError Body Message.
Local Open Scope Z_scope.

Inductive RetryOn := IdempotentMethods | AnyMethod.

Record RetryPolicy := mk_retry_policy {
  max_retries : Z;
  base_delay : Duration;
  max_delay : Duration;
  retry_on : RetryOn;
  use_jitter : bool;
  honour_retry_after : bool;
}.

Definition from_millis (ms : Z) : Duration := ms * 10 ^ 6.

Definition default_retry : RetryPolicy :=
  mk_retry_policy 2 (from_millis 250) (from_secs 10) IdempotentMethods true true.

(** [2u32.saturating_pow(attempt)] and [Duration::saturating_mul]. *)
Definition backoff (p : RetryPolicy) (attempt : Z) : Duration :=
  let factor := Z.min (2 ^ attempt) u32_max in
  Z.min (Z.min (base_delay p * factor) duration_max) (max_delay p).

Definition is_idempotent (method : Method) : bool :=
  bool_decide (method ∈ [GET; HEAD; PUT; DELETE; OPTIONS; TRACE]).

Definition should_retry_status (status : StatusCode) : bool :=
  bool_decide (status ∈ [TOO_MANY_REQUESTS; BAD_GATEWAY; SERVICE_UNAVAILABLE; GATEWAY_TIMEOUT]).

Definition may_replay (p : RetryPolicy) (method : Method) (body : Body) : bool :=
  match retry_on p with AnyMethod => true | IdempotentMethods => is_idempotent method end
  && bool_decide (is_Some (try_clone body)).

Section With_extern.
Context `{HeaderValueApi} `{HeaderMapApi}.
Context (jitter : Z → Duration → Duration).

Definition parse_retry_after (value : option str) : option Duration :=
  value ← value; text ← to_str value; seconds ← parse_u64 (trim text); Some (from_secs seconds).

Definition delay (p : RetryPolicy) (attempt : Z) (retry_after : option Duration) : Duration :=
  let delay := backoff p attempt in
  let delay := if use_jitter p then jitter attempt delay else delay in
  match retry_after with
  | Some after => if honour_retry_after p then Z.min (Z.max delay after) (max_delay p) else delay
  | None => delay
  end.

Definition outcome : Type := Response Body + Error.

(** Whether an outcome is worth another attempt, and the wait it asks for. *)
Definition retry_after_of (o : outcome) : option (option Duration) :=
  match o with
  | inl response =>
      if should_retry_status (rs_status response)
      then Some (parse_retry_after (hm_get (rs_headers response) RETRY_AFTER)) else None
  | inr error => if is_retryable error then Some None else None
  end.

Context {W : Type} (inner : Request → Body → W → outcome * W).

Fixpoint retry_loop (fuel : nat) (p : RetryPolicy) (attempt : Z) (parts : Request) (body : Body) (w : W)
    (slept : list Duration) : option (outcome * W * list Duration) :=
  match fuel with
  | O => None
  | S fuel =>
      match try_clone body with
      | None => let '(o, w) := inner parts body w in Some (o, w, slept)
      | Some replay =>
          let '(o, w) := inner parts replay w in
          match retry_after_of o with
          | None => Some (o, w, slept)
          | Some retry_after =>
              if max_retries p <=? attempt then Some (o, w, slept)
              else retry_loop fuel p (attempt + 1) parts body w (slept ++ [delay p attempt retry_after])
          end
      end
  end.

(** [Retrying::exchange]. *)
Definition retrying_exchange (p : RetryPolicy) (parts : Request) (body : Body) (w : W)
    : option (outcome * W * list Duration) :=
  if (max_retries p =? 0) || negb (may_replay p (rq_method parts) body)
  then let '(o, w) := inner parts body w in Some (o, w, [])
  else retry_loop (S (Z.to_nat (max_retries p))) p 0 parts body w [].

(** ** What it does *)

(** The exchange called once per outcome, always with the same request. *)
Fixpoint calls (parts : Request) (body : Body) (os : list outcome) (w w' : W) : Prop :=
  match os with
  | [] => w' = w
  | o :: os => ∃ w1, inner parts body w = (o, w1) ∧ calls parts body os w1 w'
  end.

Definition retryable (o : outcome) : Prop := is_Some (retry_after_of o).

(** The waits between the attempts [os], the first of them attempt [n]. *)
Fixpoint waits (p : RetryPolicy) (n : Z) (os : list outcome) : list Duration :=
  match os with
  | [] => []
  | o :: os => delay p n (default None (retry_after_of o)) :: waits p (n + 1) os
  end.

Lemma try_clone_same b b' : try_clone b = Some b' → b' = b.
Proof. destruct b as [|[c|]|]; simpl; congruence. Qed.

Lemma retry_loop_spec fuel p n parts body w slept :
  max_retries p - n < Z.of_nat fuel → 0 <= n <= max_retries p → is_Some (try_clone body) →
  ∃ os o w', retry_loop fuel p n parts body w slept = Some (o, w', slept ++ waits p n os) ∧
    calls parts body (os ++ [o]) w w' ∧ Forall retryable os ∧
    n + zlen os <= max_retries p ∧ (retryable o → n + zlen os = max_retries p).
Proof.
  revert n w slept. induction fuel as [|fuel IH]; intros n w slept Hfuel Hn Hb; [lia|].
  cbn [retry_loop]. destruct Hb as [b' Hb]. rewrite Hb. apply try_clone_same in Hb as Heq. subst b'.
  destruct (inner parts body w) as [o w1] eqn:Hi.
  destruct (retry_after_of o) as [ra|] eqn:Hr.
  2:{ exists [], o, w1. rewrite app_nil_r. split; [done|]. split; [simpl; eauto|]. split; [constructor|].
      unfold zlen. simpl. split; [lia|]. unfold retryable. rewrite Hr. by intros []. }
  destruct (max_retries p <=? n) eqn:Em; bool_prop.
  { exists [], o, w1. rewrite app_nil_r. split; [done|]. split; [simpl; eauto|]. split; [constructor|].
    unfold zlen. simpl. split; lia. }
  destruct (IH (n + 1) w1 (slept ++ [delay p n ra])) as (os & o' & w' & Hl & Hc & Hf & Hle & Hmax);
    [lia|lia|by eauto|].
  exists (o :: os), o', w'. rewrite Hl, zlen_cons. split.
  { cbn [waits]. rewrite Hr. simpl. by rewrite <- app_assoc. }
  split; [simpl; eauto|]. split; [constructor; [by exists ra|done]|]. split; [lia|]. intros Ho. specialize (Hmax Ho). lia.
Qed.

Lemma retrying_exchange_spec p parts body w :
  0 <= max_retries p →
  ∃ os o w', retrying_exchange p parts body w = Some (o, w', waits p 0 os) ∧
    calls parts body (os ++ [o]) w w' ∧ Forall retryable os ∧ zlen os <= max_retries p ∧
    (os ≠ [] → may_replay p (rq_method parts) body = true) ∧
    (may_replay p (rq_method parts) body = true → retryable o → zlen os = max_retries p).
Proof.
  intros Hmax. unfold retrying_exchange. destruct (_ || _) eqn:E.
  - destruct (inner parts body w) as [o w1] eqn:Hi. exists [], o, w1. split; [done|].
    split; [simpl; eauto|]. split; [constructor|]. unfold zlen. simpl. split; [lia|]. split; [done|].
    intros Hm. rewrite Hm in E. bool_prop. destruct E; [lia|done].
  - apply orb_false_iff in E as [_ E]. apply negb_false_iff in E. rewrite E.
    destruct (retry_loop_spec (S (Z.to_nat (max_retries p))) p 0 parts body w [])
      as (os & o & w' & Hl & Hc & Hf & Hle & Hlast); [lia|lia| |].
    { unfold may_replay in E. apply andb_true_iff in E as [_ E]. by apply bool_decide_eq_true in E. }
    exists os, o, w'. split; [done|]. split; [done|]. split; [done|]. split; [lia|]. split; [done|].
    intros _ Ho. specialize (Hlast Ho). lia.
Qed.

(** C40. Retrying ends, and means: the exchange is called with the same request at
    most [max_retries + 1] times, every outcome but the last was worth retrying, the
    caller gets the last one, and it is one worth retrying only when the attempts
    ran out; a request that may not be replayed - a method that is not idempotent,
    unless the policy says otherwise, or a body that cannot be sent twice - is sent
    exactly once.  The waits are exactly the policy's. *)
Theorem retry_exact p parts body w :
  0 <= max_retries p →
  ∃ os o w', retrying_exchange p parts body w = Some (o, w', waits p 0 os) ∧
    calls parts body (os ++ [o]) w w' ∧ Forall retryable os ∧ zlen os <= max_retries p ∧
    (os ≠ [] → may_replay p (rq_method parts) body = true) ∧
    (may_replay p (rq_method parts) body = true → retryable o → zlen os = max_retries p).
Proof. apply retrying_exchange_spec. Qed.

Lemma calls_det parts body os os' w w1 w2 :
  calls parts body os w w1 → calls parts body os' w w2 → length os = length os' → os = os' ∧ w1 = w2.
Proof.
  revert os' w. induction os as [|o os IH]; intros [|o' os'] w; simpl; try done.
  - by intros -> ->.
  - intros (a & Ha & Hc) (b & Hb & Hc') [= Hlen]. rewrite Ha in Hb. injection Hb as <- <-.
    destruct (IH os' a Hc Hc' Hlen) as [-> ->]. done.
Qed.

Lemma calls_prefix parts body os os' w w' :
  calls parts body (os ++ os') w w' → ∃ w1, calls parts body os w w1.
Proof.
  revert w. induction os as [|o os IH]; intros w; simpl; [eauto|].
  intros (w1 & Ho & Hc). destruct (IH w1 Hc) as [w2 ?]. eauto.
Qed.

(** A transient failure is survived: when the origin fails no more than
    [max_retries] times and then answers, a request that may be replayed gets that
    answer. *)
Theorem retry_recovers p parts body w os o w' :
  may_replay p (rq_method parts) body = true →
  calls parts body (os ++ [o]) w w' → Forall retryable os → ¬ retryable o → zlen os <= max_retries p →
  retrying_exchange p parts body w = Some (o, w', waits p 0 os).
Proof.
  intros Hm Hc Hf Ho Hle. pose proof (zlen_nonneg os).
  destruct (retrying_exchange_spec p parts body w) as (os1 & o1 & w1 & -> & Hc1 & Hf1 & Hle1 & _ & Hlast);
    [lia|]. specialize (Hlast Hm).
  enough (Hlen : length os1 = length os).
  { destruct (calls_det parts body (os1 ++ [o1]) (os ++ [o]) w w1 w') as [Heq ->];
      [done|done|rewrite !length_app; simpl; lia|].
    by apply app_inj_tail in Heq as [-> ->]. }
  assert (Hcmp : ∀ a x b y v v', calls parts body (a ++ [x]) w v → calls parts body (b ++ [y]) w v' →
    Forall retryable b → ¬ retryable x → (length a < length b)%nat → False).
  { intros a x b y v v' Ha Hb Hb' Hx Hlt.
    rewrite <- (take_drop (length a + 1) b), <- app_assoc in Hb. apply calls_prefix in Hb as [v1 Hb].
    destruct (calls_det _ _ _ _ _ _ _ Ha Hb) as [Heq _]; [rewrite length_app, length_take; simpl; lia|].
    apply Hx. rewrite Forall_forall in Hb'. apply Hb'.
    rewrite <- (take_drop (length a + 1) b), <- Heq. set_solver. }
  destruct (Nat.lt_trichotomy (length os1) (length os)) as [Hlt|[?|Hlt]]; [|done|].
  - destruct (decide (retry_after_of o1 = None)) as [Hn|Hr].
    + exfalso. eapply (Hcmp os1 o1 os o w1 w'); [done|done|done| |done].
      unfold retryable. rewrite Hn. by intros [].
    + assert (retryable o1) as Hr1 by (unfold retryable; by destruct (retry_after_of o1)).
      specialize (Hlast Hr1). unfold zlen in *. lia.
  - exfalso. by eapply (Hcmp os o os1 o1 w' w1).
Qed.

(** No wait is longer than [max_delay], whatever the origin asks for, and without
    jitter every wait is at least as long as the back-off before it. *)
Lemma delay_bounded p n ra :
  (∀ k d, 0 <= d <= max_delay p → 0 <= jitter k d <= d) → 0 <= n → 0 <= base_delay p → 0 <= max_delay p →
  0 <= delay p n ra <= max_delay p.
Proof.
  intros Hj Hn Hb Hm. unfold delay.
  assert (Hbo : 0 <= backoff p n <= max_delay p).
  { unfold backoff. cbv zeta. pose proof (Z.pow_nonneg 2 n) as Hpow.
    assert (0 <= base_delay p * Z.min (2 ^ n) u32_max).
    { apply Z.mul_nonneg_nonneg; [done|]. unfold u32_max. lia. }
    assert (0 <= duration_max) by done. lia. }
  assert (Hd : 0 <= (if use_jitter p then jitter n (backoff p n) else backoff p n) <= max_delay p).
  { destruct (use_jitter p); [|done]. specialize (Hj n (backoff p n) Hbo). lia. }
  cbv zeta. set (d := if use_jitter p then _ else _) in *. clearbody d. destruct ra as [after|]; [|done]. destruct (honour_retry_after p); [lia|done].
Qed.

Lemma backoff_monotone p n : 0 <= n → 0 <= base_delay p → backoff p n <= backoff p (n + 1).
Proof.
  intros Hn Hb. unfold backoff. rewrite Z.pow_add_r by lia. pose proof (Z.pow_nonneg 2 n) as Hpow.
  cbv zeta. assert (base_delay p * Z.min (2 ^ n) u32_max <= base_delay p * Z.min (2 ^ n * 2 ^ 1) u32_max).
  { apply Z.mul_le_mono_nonneg_l; [done|]. lia. }
  lia.
Qed.
End With_extern.
