(* ===== verification/Fetch.v ===== *)
(** [chromulate-core]: the per-request fetch context
    (src/crates/chromulate-core/src/request.rs), and the site relationship the header
    engine reports for it (src/crates/chromulate-header/src/fetch_site.rs). *)
From S2P Require Import Prelude RustStr RustTime RustNet Extern Origin Redirect.

Inductive FetchMode := Navigate | Cors | NoCors | SameOriginMode | Websocket.

#[export] Instance FetchMode_eq_dec : EqDecision FetchMode.
Proof. solve_decision. Defined.

Definition mode_as_str (m : FetchMode) : str :=
  match m with
  | Navigate => b#"navigate"
  | Cors => b#"cors"
  | NoCors => b#"no-cors"
  | SameOriginMode => b#"same-origin"
  | Websocket => b#"websocket"
  end.

Inductive FetchDest := Document | Iframe | Script | Style | Image | Font | Empty.

#[export] Instance FetchDest_eq_dec : EqDecision FetchDest.
Proof. solve_decision. Defined.

Definition dest_as_str (d : FetchDest) : str :=
  match d with
  | Document => b#"document"
  | Iframe => b#"iframe"
  | Script => b#"script"
  | Style => b#"style"
  | Image => b#"image"
  | Font => b#"font"
  | Empty => b#"empty"
  end.

Section Options.
Context `{UrlApi}.

Record RequestOptions := mk_options {
  opt_timeout : option Duration;
  opt_head_timeout : option Duration;
  opt_redirect : RedirectPolicy;
  opt_mode : FetchMode;
  opt_dest : FetchDest;
  opt_initiator : option Origin;
  opt_referrer : option Url;
  preserve_caller_headers : bool;
}.

Definition default_options : RequestOptions :=
  mk_options None None default_policy Cors Empty None None false.

Definition navigation : RequestOptions :=
  mk_options None None default_policy Navigate Document None None false.

Definition api : RequestOptions := mk_options None None default_policy Cors Empty None None false.

(** [RequestOptions::cookie_context]. *)
Definition cookie_context (o : RequestOptions) : CookieContext :=
  match opt_initiator o with
  | None => conservative_default
  | Some i =>
      {| initiator := Some i; is_top_level_navigation := bool_decide (opt_mode o = Navigate) |}
  end.
End Options.

(** ** [Sec-Fetch-Site] (fetch_site.rs) *)

Inductive FetchSite := NoSite | SameOrigin | SameSite | CrossSite.

#[export] Instance FetchSite_eq_dec : EqDecision FetchSite.
Proof. solve_decision. Defined.

Definition site_as_str (s : FetchSite) : str :=
  match s with
  | NoSite => b#"none"
  | SameOrigin => b#"same-origin"
  | SameSite => b#"same-site"
  | CrossSite => b#"cross-site"
  end.

(** [is_ip_literal] of fetch_site.rs. *)
Definition fetch_is_ip_literal (host : str) : bool :=
  let unbracketed :=
    match strip_prefix b#"[" host with
    | Some rest => default host (strip_suffix b#"]" rest)
    | None => host
    end in
  parses_ip unbracketed.

Section Site.
Context `{Psl}.

Definition registrable_domain (host : str) : str :=
  if fetch_is_ip_literal host then host else default host (psl_domain host).

Definition schemeful_same_site (a b : Origin) : bool :=
  bool_decide (o_scheme a = o_scheme b) &&
  bool_decide (registrable_domain (o_host a) = registrable_domain (o_host b)).

(** [FetchSite::compute]. *)
Definition fetch_site (initiator : option Origin) (target : Origin) : FetchSite :=
  match initiator with
  | None => NoSite
  | Some i =>
      if decide (i = target) then SameOrigin
      else if schemeful_same_site i target then SameSite
      else CrossSite
  end.

(** Two different addresses are never reported as one site, whatever the public
    suffix list says of their digits. *)
Lemma address_never_same_site i target :
  fetch_is_ip_literal (o_host target) = true → fetch_site (Some i) target = SameSite →
  fetch_is_ip_literal (o_host i) = true → o_host i = o_host target.
Proof.
  unfold fetch_site, schemeful_same_site, registrable_domain. intros Ht Hs Hi.
  rewrite Ht, Hi in Hs. case_decide; [done|].
  destruct (bool_decide (o_scheme i = _)); simpl in Hs; [|done]. by case_bool_decide.
Qed.

(** The report is symmetric and only origins of one scheme are one site. *)
Lemma fetch_site_sym a b : fetch_site (Some a) b = fetch_site (Some b) a.
Proof.
  unfold fetch_site, schemeful_same_site.
  destruct (decide (a = b)) as [->|Hab]; [by rewrite decide_True|].
  rewrite (decide_False (P := b = a)) by congruence.
  repeat case_bool_decide; simpl; congruence.
Qed.

Lemma same_site_scheme a b :
  fetch_site (Some a) b = SameOrigin ∨ fetch_site (Some a) b = SameSite → o_scheme a = o_scheme b.
Proof.
  unfold fetch_site, schemeful_same_site. case_decide as Hab; [by intros _; subst|].
  destruct (_ && _) eqn:E; bool_prop; naive_solver.
Qed.
End Site.
