(* ===== verification/Profile.v ===== *)
(** [chromulate-profile]: a browser's observable identity
    (src/crates/chromulate-profile/src/profile.rs): what it is called, what its user
    agent says, and the [Sec-CH-UA] brand list with its parser and printer.

    [Profile] has the fields the header engine reads; the TLS and HTTP/2 shapes
    and the provenance, which belong to [chromulate-fingerprint], are not kept.
    Captures are taken to be ASCII, as browsers' header values are. *)
From S2P Require Import Prelude RustStr CoreError.

Definition dquote : ascii := ascii_of_nat 34.

Inductive Platform := MacOs | Windows | Linux | Android | Ios | OtherPlatform (name : str).

Definition client_hint (p : Platform) : str :=
  match p with
  | MacOs => b#"macOS"
  | Windows => b#"Windows"
  | Linux => b#"Linux"
  | Android => b#"Android"
  | Ios => b#"iOS"
  | OtherPlatform name => name
  end.

Definition from_user_agent (user_agent : str) : option Platform :=
  if contains_str user_agent b#"Android" then Some Android
  else if contains_str user_agent b#"iPhone" || contains_str user_agent b#"iPad"
          || contains_str user_agent b#"iPod" then Some Ios
  else if contains_str user_agent b#"Macintosh" || contains_str user_agent b#"Mac OS X" then Some MacOs
  else if contains_str user_agent b#"Windows" then Some Windows
  else if contains_str user_agent b#"Linux" || contains_str user_agent b#"X11" then Some Linux
  else None.

Definition PRODUCTS : list (str * str) :=
  [ (b#"Edg/", b#"edge"); (b#"OPR/", b#"opera"); (b#"Chrome/", b#"chrome");
    (b#"Firefox/", b#"firefox"); (b#"Version/", b#"safari") ].

(** The loop of [browser_identity], over the products still to try. *)
Fixpoint identify (products : list (str * str)) (user_agent : str) : option (str * str) :=
  match products with
  | [] => None
  | (token, name) :: rest =>
      match split_nth_1 token user_agent with
      | Some text =>
          let version := take_while (λ c, is_ascii_digit c || is_char "."%char c) text in
          if decide (version = []) then identify rest user_agent else Some (name, version)
      | None => identify rest user_agent
      end
  end.

Definition browser_identity (user_agent : str) : option (str * str) := identify PRODUCTS user_agent.

(** ** The brand list *)

Record Brand := mk_brand { brand : str; brand_version : str }.

#[export] Instance Brand_eq_dec : EqDecision Brand.
Proof. solve_decision. Defined.

Definition render_brand (b : Brand) : str :=
  [dquote] ++ brand b ++ [dquote] ++ b#";v=" ++ [dquote] ++ brand_version b ++ [dquote].

Definition render_brand_list (brands : list Brand) : str := join b#", " (render_brand <$> brands).

(** [split_outside_quotes], with the state of its loop as an argument. *)
Fixpoint split_outside_quotes (quoted : bool) (s : str) : list str :=
  match s with
  | [] => [[]]
  | c :: s' =>
      let push l := match l with [] => [[c]] | h :: t => (c :: h) :: t end in
      if decide (c = dquote) then push (split_outside_quotes (negb quoted) s')
      else if bool_decide (c = ","%char) && negb quoted then [] :: split_outside_quotes quoted s'
      else push (split_outside_quotes quoted s')
  end.

Definition read_quoted (input : str) : (str * str) + Error :=
  match strip_prefix [dquote] input with
  | None => inr Config
  | Some rest =>
      match find_by (is_char dquote) rest with
      | None => inr Config
      | Some i => inl (take i rest, drop (S i) rest)
      end
  end.

Definition parse_brand (entry : str) : Brand + Error :=
  match read_quoted entry with
  | inr e => inr e
  | inl (brand, rest) =>
      match strip_prefix b#";" (trim_start rest) ≫= (λ rest, strip_prefix b#"v=" (trim_start rest)) with
      | None => inr Config
      | Some rest =>
          match read_quoted rest with
          | inr e => inr e
          | inl (version, tail) => if decide (trim tail = []) then inl (mk_brand brand version) else inr Config
          end
      end
  end.

Fixpoint parse_entries (entries : list str) : list Brand + Error :=
  match entries with
  | [] => inl []
  | entry :: entries =>
      let entry := trim entry in
      if decide (entry = []) then parse_entries entries
      else
        match parse_brand entry with
        | inr e => inr e
        | inl b => match parse_entries entries with inr e => inr e | inl bs => inl (b :: bs) end
        end
  end.

Definition parse_brand_list (value : str) : list Brand + Error :=
  parse_entries (split_outside_quotes false value).

(** ** The profile *)

Record HeaderOrder := mk_header_order {
  navigate_order : list str;
  subresource_order : option (list str);
}.

Definition subresource_or_navigate (o : HeaderOrder) : list str :=
  default (navigate_order o) (subresource_order o).

Record Profile := mk_profile {
  profile_name : str;
  profile_version : str;
  platform : Platform;
  user_agent : str;
  client_hint_brands : list Brand;
  accept : str;
  accept_language : str;
  accept_encoding : str;
  header_order : HeaderOrder;
  observed_headers : gmap str str;
}.

Definition sec_ch_ua (p : Profile) : str := render_brand_list (client_hint_brands p).
Definition sec_ch_ua_platform (p : Profile) : str :=
  [dquote] ++ client_hint (platform p) ++ [dquote].

(** [header]: a captured value, empty when it was not recorded. *)
Definition captured_header (headers : gmap str str) (name : str) : str := default [] (headers !! name).

(** [from_parsed_capture], from the parts of a capture it reads. *)
Definition from_parsed_capture (ua : str) (headers : gmap str str) (order : HeaderOrder) : Profile + Error :=
  match browser_identity ua with
  | None => inr Config
  | Some (name, version) =>
      match from_user_agent ua with
      | None => inr Config
      | Some platform =>
          match (match headers !! b#"sec-ch-ua" with
                 | Some value => parse_brand_list value
                 | None => inl []
                 end) with
          | inr e => inr e
          | inl brands =>
              inl (mk_profile name version platform ua brands (captured_header headers b#"accept")
                     (captured_header headers b#"accept-language") (captured_header headers b#"accept-encoding")
                     order headers)
          end
      end
  end.

(** ** The brand list round-trips *)

Definition unquoted (s : str) : Prop := Forall (λ c, is_char dquote c = false) s.

Lemma split_outside_quotes_nonempty q s : split_outside_quotes q s ≠ [].
Proof.
  destruct s as [|c s]; cbn [split_outside_quotes]; [done|].
  destruct (decide (c = dquote)); [by destruct (split_outside_quotes (negb q) s)|].
  destruct (_ && _); [done|]. by destruct (split_outside_quotes q s).
Qed.

Lemma split_quotes_plain q s t :
  unquoted s → (q = false → Forall (λ c, is_char ","%char c = false) s) →
  ∃ h l, split_outside_quotes q t = h :: l ∧ split_outside_quotes q (s ++ t) = (s ++ h) :: l.
Proof.
  intros Hs. revert t. induction Hs as [|c s Hc Hs IH]; intros t Hq.
  { pose proof (split_outside_quotes_nonempty q t) as Hne.
    cbn [app]. destruct (split_outside_quotes q t) as [|h l]; [done|]. by exists h, l. }
  destruct (IH t) as (h & l & Ht & Heq).
  { intros ->. specialize (Hq eq_refl). by inversion Hq. }
  exists h, l. split; [done|]. cbn [app split_outside_quotes]. rewrite Heq.
  unfold is_char in Hc. apply bool_decide_eq_false in Hc. rewrite decide_False by done.
  destruct (_ && _) eqn:E; [|done]. bool_prop. destruct E as [-> ->].
  specialize (Hq eq_refl). by inversion Hq.
Qed.

Lemma split_quotes_toggle q t :
  ∃ h l, split_outside_quotes (negb q) t = h :: l ∧
    split_outside_quotes q (dquote :: t) = (dquote :: h) :: l.
Proof.
  destruct (split_quotes_plain (negb q) [] t) as (h & l & Ht & _); [constructor|by constructor|].
  exists h, l. split; [done|]. cbn [split_outside_quotes]. by rewrite decide_True, Ht by done.
Qed.

Definition brand_ok (b : Brand) : Prop := unquoted (brand b) ∧ unquoted (brand_version b).

Lemma render_brand_app b t :
  render_brand b ++ t = dquote :: brand b ++ dquote :: b#";v=" ++ dquote :: brand_version b ++ dquote :: t.
Proof. unfold render_brand. cbn [app]. f_equal. rewrite <- app_assoc. f_equal. cbn. by rewrite <- app_assoc. Qed.

(** A rendered brand is one entry, whatever commas it quotes. *)
Lemma split_quotes_brand b t :
  brand_ok b →
  ∃ h l, split_outside_quotes false t = h :: l ∧
    split_outside_quotes false (render_brand b ++ t) = (render_brand b ++ h) :: l.
Proof.
  intros [Hb Hv].
  set (t4 := dquote :: t). set (t3 := brand_version b ++ t4). set (t2 := dquote :: t3).
  set (t1 := dquote :: b#";v=" ++ t2).
  destruct (split_quotes_toggle true t) as (h & l & Ht & H4); cbn [negb] in *. fold t4 in H4.
  destruct (split_quotes_plain true (brand_version b) t4 Hv) as (h3 & l3 & E3 & H3); [done|].
  rewrite H4 in E3. injection E3 as <- <-. fold t3 in H3.
  destruct (split_quotes_toggle false t3) as (h2 & l2 & E2 & H2); cbn [negb] in *.
  rewrite H3 in E2. injection E2 as <- <-. fold t2 in H2.
  destruct (split_quotes_plain false b#";v=" t2) as (hs & ls & Es & Hs);
    [by repeat constructor|intros _; by repeat constructor|].
  rewrite H2 in Es. injection Es as <- <-.
  destruct (split_quotes_toggle true (b#";v=" ++ t2)) as (h1 & l1 & E1 & H1); cbn [negb] in *.
  rewrite Hs in E1. injection E1 as <- <-. fold t1 in H1.
  destruct (split_quotes_plain true (brand b) t1 Hb) as (h0 & l0 & E0 & H0); [done|].
  rewrite H1 in E0. injection E0 as <- <-.
  destruct (split_quotes_toggle false (brand b ++ t1)) as (hx & lx & Ex & Hx); cbn [negb] in *.
  rewrite H0 in Ex. injection Ex as <- <-.
  exists h, l. split; [done|]. rewrite !render_brand_app. exact Hx.
Qed.

Lemma read_quoted_app s t : unquoted s → read_quoted (dquote :: s ++ dquote :: t) = inl (s, t).
Proof.
  intros Hs. unfold read_quoted. cbn [strip_prefix]. rewrite decide_True by done.
  pose proof (split_once_app dquote s t Hs) as Hsplit. unfold split_once in Hsplit.
  destruct (find_by _ _) as [i|]; [|done]. cbn [fmap option_fmap option_map] in Hsplit.
  by injection Hsplit as -> ->.
Qed.

Lemma parse_render_brand b : brand_ok b → parse_brand (render_brand b) = inl b.
Proof.
  intros [Hb Hv]. unfold parse_brand. rewrite <- (app_nil_r (render_brand b)), render_brand_app.
  rewrite read_quoted_app by done.
  set (rest := dquote :: brand_version b ++ [dquote]).
  assert ((strip_prefix b#";" (trim_start (b#";v=" ++ rest)) ≫=
    (λ rest, strip_prefix b#"v=" (trim_start rest))) = Some rest) as -> by done.
  unfold rest. rewrite read_quoted_app by done. by destruct b.
Qed.

Lemma render_brand_nonempty b : render_brand b ≠ [].
Proof. done. Qed.

Lemma trim_render_brand b : trim (b#" " ++ render_brand b) = render_brand b ∧ trim (render_brand b) = render_brand b.
Proof.
  assert (Ht : trim (render_brand b) = render_brand b).
  { eapply (trim_ends dquote dquote); [done| |done|done].
    unfold render_brand. rewrite !app_assoc. done. }
  split; [exact Ht|done].
Qed.

Local Opaque render_brand.

(** A printed brand list reads back as the list it was printed from, commas and
    semicolons in a brand included: only a quote cannot be carried. *)
Theorem brand_list_roundtrip brands :
  Forall brand_ok brands → parse_brand_list (render_brand_list brands) = inl brands.
Proof.
  unfold parse_brand_list, render_brand_list.
  assert (Hstep : ∀ b, brand_ok b → ∀ sp, sp = [] ∨ sp = b#" " → ∀ entries,
    parse_entries ((sp ++ render_brand b) :: entries) =
    match parse_entries entries with inl bs => inl (b :: bs) | inr e => inr e end).
  { intros b Hb sp Hsp entries. cbn [parse_entries]. destruct (trim_render_brand b) as [Ht1 Ht2].
    assert (trim (sp ++ render_brand b) = render_brand b) as -> by (by destruct Hsp as [->| ->]).
    rewrite (decide_False (P := render_brand b = [])) by apply render_brand_nonempty.
    rewrite parse_render_brand by done. by destruct (parse_entries entries). }
  destruct 1 as [|b bs Hb Hbs]; [done|]. revert b Hb.
  assert (Hgen : ∀ sp, sp = [] ∨ sp = b#" " → ∀ b, brand_ok b →
    parse_entries (split_outside_quotes false (sp ++ join b#", " (render_brand <$> b :: bs))) = inl (b :: bs));
    [|intros b Hb; exact (Hgen [] (or_introl eq_refl) b Hb)].
  induction Hbs as [|b' bs Hb' Hbs IH]; intros sp Hsp b Hb.
  - cbn [fmap list_fmap join]. rewrite <- (app_nil_r (render_brand b)).
    destruct (split_quotes_brand b [] Hb) as (h & l & [= <- <-] & Heq).
    destruct (split_quotes_plain false sp (render_brand b ++ [])) as (h1 & l1 & E1 & Hsplit);
      [by destruct Hsp as [->| ->]; repeat constructor..|].
    rewrite Heq in E1. injection E1 as <- <-. rewrite Hsplit, app_nil_r, Hstep by done. done.
  - change (join b#", " (render_brand <$> b :: b' :: bs))
      with (render_brand b ++ b#"," ++ b#" " ++ join b#", " (render_brand <$> b' :: bs)).
    specialize (IH b#" " (or_intror eq_refl) b' Hb').
    set (rest := b#" " ++ _) in *. clearbody rest.
    destruct (split_quotes_brand b (b#"," ++ rest) Hb) as (h & l & [= <- <-] & Heq).
    destruct (split_quotes_plain false sp (render_brand b ++ b#"," ++ rest)) as (h1 & l1 & E1 & Hsplit);
      [by destruct Hsp as [->| ->]; repeat constructor..|].
    rewrite Heq in E1. injection E1 as <- <-. rewrite Hsplit, app_nil_r, Hstep by done.
    by rewrite IH.
Qed.

(** ** The registry (registry.rs) *)

(** Profiles by name, in lower case. *)
Abbreviation ProfileRegistry := (gmap str Profile).

Section Registry.
Context (chrome_stable : Profile).

Definition new_registry : ProfileRegistry := ∅.

Definition with_builtin : ProfileRegistry :=
  <[b#"chrome-stable" := chrome_stable]> (<[b#"chrome" := chrome_stable]> new_registry).
End Registry.

(** An insertion answers what it replaced. *)
Definition register_as (name : str) (p : Profile) (r : ProfileRegistry) : option Profile * ProfileRegistry :=
  let name := to_ascii_lowercase name in (r !! name, <[name := p]> r).

Definition register_profile (p : Profile) (r : ProfileRegistry) : option Profile * ProfileRegistry :=
  let name := to_ascii_lowercase (profile_name p) in (r !! name, <[name := p]> r).

Definition find_profile (name : str) (r : ProfileRegistry) : option Profile := r !! to_ascii_lowercase name.

(** [require]; [None] is the configuration error. *)
Definition require_profile (name : str) (r : ProfileRegistry) : option Profile := find_profile name r.

Definition alias (name target : str) (r : ProfileRegistry) : option ProfileRegistry :=
  profile ← find_profile target r; Some (<[to_ascii_lowercase name := profile]> r).

Definition remove_profile (name : str) (r : ProfileRegistry) : option Profile * ProfileRegistry :=
  let name := to_ascii_lowercase name in (r !! name, delete name r).

(** A call on a registry, and the registry after it. *)
Inductive RegistryCall :=
  | Register (p : Profile)
  | RegisterAs (name : str) (p : Profile)
  | Alias (name target : str)
  | Remove (name : str).

Definition run_registry (r : ProfileRegistry) (c : RegistryCall) : ProfileRegistry :=
  match c with
  | Register p => (register_profile p r).2
  | RegisterAs name p => (register_as name p r).2
  | Alias name target => default r (alias name target r)
  | Remove name => (remove_profile name r).2
  end.

(** The name a call is about. *)
Definition call_name (c : RegistryCall) : str :=
  match c with Register p => profile_name p | RegisterAs name _ | Alias name _ | Remove name => name end.

(** Names differ only by more than case; a name keeps its profile until a call about it;
    an alias is the profile its target had, whatever the target becomes. *)
Lemma registry_names r c name :
  to_ascii_lowercase name ≠ to_ascii_lowercase (call_name c) → find_profile name (run_registry r c) = find_profile name r.
Proof.
  intros Hne. destruct c as [p|n p|n target|n]; cbn in *; unfold find_profile; cbn;
    [by rewrite lookup_insert_ne|by rewrite lookup_insert_ne| |by rewrite lookup_delete_ne].
  unfold alias. destruct (find_profile target r); [cbn; by rewrite lookup_insert_ne|done].
Qed.

Theorem alias_outlives_target r name target p calls :
  find_profile target r = Some p →
  Forall (λ c, to_ascii_lowercase (call_name c) ≠ to_ascii_lowercase name) calls →
  find_profile name (foldl run_registry (run_registry r (Alias name target)) calls) = Some p.
Proof.
  intros Ht. assert (Hnow : find_profile name (run_registry r (Alias name target)) = Some p).
  { cbn. unfold alias. rewrite Ht. cbn. apply lookup_insert_eq. }
  revert Hnow. generalize (run_registry r (Alias name target)). intros r' Hnow Hcalls. revert r' Hnow.
  induction Hcalls as [|c calls Hc _ IH]; intros r' Hnow; [done|]. cbn. apply IH. by rewrite registry_names.
Qed.
