(* ===== verification/ClientHints.v ===== *)
(** [chromulate-header]: high-entropy client hints and the memory of which origin
    asked for them (src/crates/chromulate-header/src/client_hints.rs).

    A grant's last access is an atomic the readers bump; the eviction index keeps
    the sequence a grant was filed under, and [evict] reconciles the two lazily. *)
From S2P Require Import Prelude RustStr Extern Origin.
Local Open Scope Z_scope.

Inductive HighEntropyHint := PlatformVersion | Arch | Bitness | FullVersionList | Model.

#[export] Instance HighEntropyHint_eq_dec : EqDecision HighEntropyHint.
Proof. solve_decision. Defined.

Definition hint_code (h : HighEntropyHint) : nat :=
  match h with PlatformVersion => 0 | Arch => 1 | Bitness => 2 | FullVersionList => 3 | Model => 4 end.

Definition hint_of_code (n : nat) : option HighEntropyHint :=
  [PlatformVersion; Arch; Bitness; FullVersionList; Model] !! n.

#[export] Program Instance HighEntropyHint_countable : Countable HighEntropyHint :=
  inj_countable hint_code hint_of_code _.
Next Obligation. by intros []. Qed.

Definition ALL_IN_EMIT_ORDER : list HighEntropyHint :=
  [PlatformVersion; Arch; Bitness; Model; FullVersionList].

Definition hint_header_name (h : HighEntropyHint) : str :=
  match h with
  | PlatformVersion => b#"sec-ch-ua-platform-version"
  | Arch => b#"sec-ch-ua-arch"
  | Bitness => b#"sec-ch-ua-bitness"
  | FullVersionList => b#"sec-ch-ua-full-version-list"
  | Model => b#"sec-ch-ua-model"
  end.

Definition from_token (token : str) : option HighEntropyHint :=
  let t := to_ascii_lowercase (trim token) in
  if decide (t = b#"sec-ch-ua-platform-version") then Some PlatformVersion
  else if decide (t = b#"sec-ch-ua-arch") then Some Arch
  else if decide (t = b#"sec-ch-ua-bitness") then Some Bitness
  else if decide (t = b#"sec-ch-ua-full-version-list") then Some FullVersionList
  else if decide (t = b#"sec-ch-ua-model") then Some Model
  else None.

Definition parse_accept_ch (value : str) : gset HighEntropyHint :=
  list_to_set (omap from_token (split_by (is_char ","%char) value)).

(** ** The store *)

Record Grant := mk_grant { hints : gset HighEntropyHint; filed_seq : Z; last_access_seq : Z }.

Record AcceptChStore := mk_accept_ch {
  granted : gmap Origin Grant;
  by_access : gmap Z Origin;
  next_seq : Z;
  origins_limit : Z;
}.

Definition DEFAULT_ORIGIN_CAPACITY : Z := 10000.

Definition accept_ch_with_limits (origins : Z) : AcceptChStore := mk_accept_ch ∅ ∅ 0 origins.
Definition new_accept_ch : AcceptChStore := accept_ch_with_limits DEFAULT_ORIGIN_CAPACITY.

Definition clear (s : AcceptChStore) : AcceptChStore :=
  mk_accept_ch ∅ ∅ (next_seq s) (origins_limit s).

Definition forget (o : Origin) (s : AcceptChStore) : bool * AcceptChStore :=
  match granted s !! o with
  | Some grant =>
      (true, mk_accept_ch (delete o (granted s)) (delete (filed_seq grant) (by_access s))
               (next_seq s) (origins_limit s))
  | None => (false, s)
  end.

(** [next_seq]: [fetch_add] on the store's counter. *)
Definition bump_seq (s : AcceptChStore) : Z * AcceptChStore :=
  (next_seq s, mk_accept_ch (granted s) (by_access s) (wrap64 (next_seq s + 1)) (origins_limit s)).

(** [BTreeMap::pop_first]. *)
Definition pop_first (m : gmap Z Origin) : option (Z * Origin * gmap Z Origin) :=
  '(k, o) ← min_by_key fst (map_to_list m); Some (k, o, delete k m).

Fixpoint evict (fuel : nat) (s : AcceptChStore) : AcceptChStore :=
  match fuel with
  | O => s
  | S fuel =>
      if origins_limit s <? Z.of_nat (size (granted s)) then
        match pop_first (by_access s) with
        | None => s
        | Some (filed, o, rest) =>
            match granted s !! o with
            | None => evict fuel (mk_accept_ch (granted s) rest (next_seq s) (origins_limit s))
            | Some grant =>
                let last_access := last_access_seq grant in
                if filed <? last_access then
                  evict fuel (mk_accept_ch
                    (<[o := mk_grant (hints grant) last_access last_access]> (granted s))
                    (<[last_access := o]> rest) (next_seq s) (origins_limit s))
                else
                  evict fuel (mk_accept_ch (delete o (granted s)) rest (next_seq s) (origins_limit s))
            end
        end
      else s
  end.

Definition record (o : Origin) (accept_ch_value : str) (s : AcceptChStore) : AcceptChStore :=
  let hints := parse_accept_ch accept_ch_value in
  if decide (hints = ∅) then (forget o s).2
  else
    let '(seq, s) := bump_seq s in
    let index :=
      match granted s !! o with
      | Some previous => delete (filed_seq previous) (by_access s)
      | None => by_access s
      end in
    let s := mk_accept_ch (<[o := mk_grant hints seq seq]> (granted s)) (<[seq := o]> index)
               (next_seq s) (origins_limit s) in
    evict (2 * size (by_access s)) s.

Definition granted_for (o : Origin) (s : AcceptChStore) : gset HighEntropyHint * AcceptChStore :=
  match granted s !! o with
  | Some grant =>
      let '(seq, s) := bump_seq s in
      (hints grant, mk_accept_ch (<[o := mk_grant (hints grant) (filed_seq grant) seq]> (granted s))
                      (by_access s) (next_seq s) (origins_limit s))
  | None => (∅, s)
  end.

(** The values a profile can supply. *)
Record HighEntropyHints := mk_hints {
  platform_version : option str;
  arch : option str;
  bitness : option str;
  full_version_list : option str;
  model : option str;
}.

Definition no_hints : HighEntropyHints := mk_hints None None None None None.

Definition value_for (v : HighEntropyHints) (h : HighEntropyHint) : option str :=
  match h with
  | PlatformVersion => platform_version v
  | Arch => arch v
  | Bitness => bitness v
  | FullVersionList => full_version_list v
  | Model => model v
  end.

(** ** The store's invariant *)

(** The index files every grant under exactly one sequence number, no later than
    its last access, and no two origins share a number. *)
Record accept_ch_ok (s : AcceptChStore) : Prop := {
  ok_index seq o :
    by_access s !! seq = Some o ↔ ∃ g, granted s !! o = Some g ∧ filed_seq g = seq;
  ok_seq o g : granted s !! o = Some g → 0 <= filed_seq g <= last_access_seq g ∧ last_access_seq g < next_seq s;
  ok_unique o g o' g' :
    granted s !! o = Some g → granted s !! o' = Some g' → o ≠ o' →
    last_access_seq g ≠ last_access_seq g' ∧ filed_seq g ≠ last_access_seq g';
}.

Definition stale (m : gmap Origin Grant) : gmap Origin Grant :=
  filter (λ kv, filed_seq kv.2 < last_access_seq kv.2) m.

Lemma pop_first_spec m k o rest :
  pop_first m = Some (k, o, rest) →
  m !! k = Some o ∧ rest = delete k m ∧ ∀ k' o', m !! k' = Some o' → k <= k'.
Proof.
  unfold pop_first. destruct (min_by_key fst (map_to_list m)) as [[k0 o0]|] eqn:E; [|done].
  simpl. intros [= <- <- <-]. apply min_by_key_spec in E as [Hin Hmin].
  apply elem_of_map_to_list in Hin. split; [done|]. split; [done|].
  intros k' o' Hk'. apply (Hmin (k', o')). by apply elem_of_map_to_list.
Qed.

Lemma pop_first_None m : pop_first m = None → m = ∅.
Proof.
  unfold pop_first. destruct (min_by_key fst (map_to_list m)) as [[k o]|] eqn:E; [done|].
  intros _. destruct (map_to_list m) eqn:Hl; [by apply map_to_list_empty_iff|done].
Qed.

(** As many index entries as grants. *)
Lemma index_size s : accept_ch_ok s → (size (granted s) ≤ size (by_access s))%nat.
Proof.
  intros Hok. rewrite <- (size_dom (D := gset Origin) (granted s)).
  transitivity (size (list_to_set (map_to_list (by_access s)).*2 : gset Origin)).
  - apply subseteq_size. intros o [g Hg]%elem_of_dom. apply elem_of_list_to_set, list_elem_of_fmap.
    exists (filed_seq g, o). split; [done|]. apply elem_of_map_to_list, (ok_index s Hok). eauto.
  - etransitivity; [apply size_list_to_set_le|]. by rewrite length_fmap, length_map_to_list.
Qed.

(** Removing a grant together with its index entry. *)
Lemma hints_remove_ok s o g :
  accept_ch_ok s → granted s !! o = Some g →
  accept_ch_ok (mk_accept_ch (delete o (granted s)) (delete (filed_seq g) (by_access s))
                  (next_seq s) (origins_limit s)).
Proof.
  intros Hok Hg. split; simpl.
  - intros seq x. rewrite lookup_delete_Some, (ok_index s Hok). split.
    + intros (Hne & g' & Hg' & <-). exists g'. split; [|done]. rewrite lookup_delete_Some.
      split; [|done]. intros ->. congruence.
    + intros (g' & [Hne Hg']%lookup_delete_Some & <-). split; [|eauto]. intros Heq.
      assert (by_access s !! filed_seq g = Some o) as Ho by (apply (ok_index s Hok); eauto).
      assert (by_access s !! filed_seq g = Some x) as Hx by (apply (ok_index s Hok); eauto).
      congruence.
  - intros x g' [_ Hg']%lookup_delete_Some. by eapply (ok_seq s Hok).
  - intros x g1 y g2 [_ H1]%lookup_delete_Some [_ H2]%lookup_delete_Some Hxy. by apply (ok_unique s Hok x g1 y g2).
Qed.

(** Filing a grant under its last access. *)
Lemma refile_ok s o g :
  accept_ch_ok s → granted s !! o = Some g →
  accept_ch_ok (mk_accept_ch
    (<[o := mk_grant (hints g) (last_access_seq g) (last_access_seq g)]> (granted s))
    (<[last_access_seq g := o]> (delete (filed_seq g) (by_access s))) (next_seq s) (origins_limit s)).
Proof.
  intros Hok Hg. pose proof (ok_seq s Hok o g Hg) as Hseq. split; simpl.
  - intros seq x. rewrite lookup_insert_Some, lookup_delete_Some, (ok_index s Hok). split.
    + intros [[<- <-]|(Hne & Hne' & g' & Hg' & <-)].
      * rewrite lookup_insert_eq. eauto.
      * exists g'. split; [|done]. rewrite lookup_insert_ne; [done|]. intros <-. congruence.
    + intros (g' & [[<- <-]|[Hne Hg']]%lookup_insert_Some & <-); [by left|]. right.
      destruct (ok_unique s Hok x g' o g) as [_ Hu]; [done|done|done|].
      split; [done|]. split; [|eauto]. intros Heq.
      assert (by_access s !! filed_seq g = Some o) as Ho by (apply (ok_index s Hok); eauto).
      assert (by_access s !! filed_seq g = Some x) as Hx by (apply (ok_index s Hok); eauto).
      congruence.
  - intros x g' [[_ <-]|[_ Hg']]%lookup_insert_Some; simpl; [lia|by apply (ok_seq s Hok) in Hg'].
  - intros x g1 y g2 [[<- <-]|[Hx H1]]%lookup_insert_Some [[<- <-]|[Hy H2]]%lookup_insert_Some Hxy;
      simpl; try done.
    + destruct (ok_unique s Hok o g y g2) as [? ?]; [done..|]. done.
    + destruct (ok_unique s Hok x g1 o g) as [? ?]; [done..|]. done.
    + by apply (ok_unique s Hok x g1 y g2).
Qed.

Lemma stale_le m : (size (stale m) ≤ size m)%nat.
Proof. apply map_subseteq_size, map_filter_subseteq. Qed.

(** What eviction keeps. *)
Record evicted (s s' : AcceptChStore) : Prop := {
  ev_ok : accept_ch_ok s';
  ev_size : Z.of_nat (size (granted s')) = Z.min (origins_limit s) (Z.of_nat (size (granted s)));
  ev_frame : next_seq s' = next_seq s ∧ origins_limit s' = origins_limit s;
  ev_kept o g' : granted s' !! o = Some g' →
    ∃ g, granted s !! o = Some g ∧ hints g' = hints g ∧ last_access_seq g' = last_access_seq g;
  ev_lru o g o' g' :
    granted s !! o = Some g → granted s' !! o = None → granted s' !! o' = Some g' →
    last_access_seq g < last_access_seq g';
}.

(** Refiling a stale head of the index changes no grant's last access. *)
Lemma refile_grants s o g x gx :
  granted s !! o = Some g →
  (<[o := mk_grant (hints g) (last_access_seq g) (last_access_seq g)]> (granted s)) !! x = Some gx →
  ∃ g0, granted s !! x = Some g0 ∧ hints gx = hints g0 ∧ last_access_seq gx = last_access_seq g0.
Proof. intros Hg [[<- <-]|[_ Hx]]%lookup_insert_Some; eauto. Qed.

Lemma refile_stale m o g :
  m !! o = Some g → filed_seq g < last_access_seq g →
  S (size (stale (<[o := mk_grant (hints g) (last_access_seq g) (last_access_seq g)]> m))) = size (stale m).
Proof.
  intros Hg Hlt. unfold stale. rewrite map_filter_insert_False by (simpl; lia).
  assert (Hin : filter (λ kv : Origin * Grant, filed_seq kv.2 < last_access_seq kv.2) m !! o = Some g)
    by (by apply map_lookup_filter_Some).
  rewrite map_filter_delete, map_size_delete_Some by (by exists g).
  assert (size (filter (λ kv : Origin * Grant, filed_seq kv.2 < last_access_seq kv.2) m) ≠ 0%nat); [|lia].
  intros H0%map_size_empty_inv. by rewrite H0, lookup_empty in Hin.
Qed.

Lemma evicted_refl s :
  accept_ch_ok s → Z.of_nat (size (granted s)) <= origins_limit s → evicted s s.
Proof. intros. split; try done; [lia|eauto|congruence]. Qed.

(** One turn of the loop on a stale head, then the rest. *)
Lemma evicted_refile s o g s' :
  granted s !! o = Some g →
  evicted (mk_accept_ch (<[o := mk_grant (hints g) (last_access_seq g) (last_access_seq g)]> (granted s))
             (<[last_access_seq g := o]> (delete (filed_seq g) (by_access s)))
             (next_seq s) (origins_limit s)) s' →
  evicted s s'.
Proof.
  intros Hg [Ho Hs Hf Hk Hl]. cbn [granted next_seq origins_limit] in *. split; [done| |done| |].
  - by rewrite Hs, map_size_insert_Some by (by exists g).
  - intros x g' Hx. destruct (Hk x g' Hx) as (gx & Hgx & -> & ->). by eapply refile_grants.
  - intros x gx y gy Hx Hnone Hy. destruct (decide (x = o)) as [->|Hne].
    + assert (gx = g) as -> by congruence.
      apply (Hl o (mk_grant (hints g) (last_access_seq g) (last_access_seq g)) y gy); [|done|done].
      apply lookup_insert_eq.
    + apply (Hl x gx y gy); [|done|done]. by rewrite lookup_insert_ne.
Qed.

(** One turn of the loop on an up-to-date head: the grant goes. *)
Lemma evicted_drop s o g s' :
  accept_ch_ok s → granted s !! o = Some g → filed_seq g = last_access_seq g →
  origins_limit s < Z.of_nat (size (granted s)) →
  (∀ k o', by_access s !! k = Some o' → filed_seq g <= k) →
  evicted (mk_accept_ch (delete o (granted s)) (delete (filed_seq g) (by_access s))
             (next_seq s) (origins_limit s)) s' →
  evicted s s'.
Proof.
  intros Hok Hg Heq Hover Hmin [Ho Hs Hf Hk Hl]. cbn [granted next_seq origins_limit] in *.
  assert (Hsub : ∀ y gy, granted s' !! y = Some gy →
    ∃ g0, granted s !! y = Some g0 ∧ y ≠ o ∧ hints gy = hints g0 ∧ last_access_seq gy = last_access_seq g0).
  { intros y gy Hy. destruct (Hk y gy Hy) as (g0 & [Hne Hg0]%lookup_delete_Some & Hh & Hla).
    exists g0. auto. }
  split; [done| |done| |].
  - rewrite Hs, map_size_delete_Some by (by exists g). lia.
  - intros y gy Hy. destruct (Hsub y gy Hy) as (g0 & ? & _ & ? & ?). eauto.
  - intros x gx y gy Hx Hnone Hy. destruct (decide (x = o)) as [->|Hne].
    + assert (gx = g) as -> by congruence. destruct (Hsub y gy Hy) as (g0 & Hg0 & Hyo & _ & ->).
      assert (filed_seq g <= filed_seq g0) by (apply (Hmin _ y), (ok_index s Hok); eauto).
      pose proof (ok_seq s Hok y g0 Hg0). destruct (ok_unique s Hok o g y g0) as [? _]; [done..|]. lia.
    + apply (Hl x gx y gy); [|done|done]. by rewrite lookup_delete_ne.
Qed.

Lemma hints_evict_spec fuel s :
  accept_ch_ok s → 0 <= origins_limit s →
  (size (granted s) + size (stale (granted s)) ≤ fuel)%nat → evicted s (evict fuel s).
Proof.
  revert s. induction fuel as [|fuel IH]; intros s Hok Hlim Hfuel; cbn [evict].
  { apply evicted_refl; [done|lia]. }
  destruct (_ <? _) eqn:E; bool_prop; [|apply evicted_refl; [done|lia]].
  destruct (pop_first (by_access s)) as [[[k o] rest]|] eqn:Hp.
  2:{ apply pop_first_None in Hp. pose proof (index_size s Hok) as Hsz.
      rewrite Hp, map_size_empty in Hsz. lia. }
  apply pop_first_spec in Hp as (Hk & -> & Hmin). apply (ok_index s Hok) in Hk as (g & Hg & <-).
  rewrite Hg. pose proof (ok_seq s Hok o g Hg) as Hseq.
  destruct (_ <? _) eqn:Est; bool_prop.
  - apply (evicted_refile s o g _ Hg), IH; [by apply refile_ok|done|]. cbn [granted].
    rewrite map_size_insert_Some by (by exists g). pose proof (refile_stale _ _ _ Hg Est). lia.
  - apply (evicted_drop s o g); [done|done|lia|lia|done|].
    apply IH; [by apply hints_remove_ok|done|]. cbn [granted].
    assert (size (stale (delete o (granted s))) ≤ size (stale (granted s)))%nat
      by (apply map_subseteq_size; unfold stale; rewrite map_filter_delete; apply delete_subseteq).
    rewrite map_size_delete_Some by (by exists g). assert (size (granted s) ≠ 0%nat); lia.
Qed.

(** The grant used last is never the one dropped. *)
Lemma evicted_newest s s' o g :
  evicted s s' → 1 <= origins_limit s → granted s !! o = Some g →
  (∀ x gx, granted s !! x = Some gx → x ≠ o → last_access_seq gx < last_access_seq g) →
  ∃ g', granted s' !! o = Some g' ∧ hints g' = hints g.
Proof.
  intros [_ Hs _ Hk Hl] Hlim Hg Hnewest. destruct (granted s' !! o) as [g'|] eqn:Hg'.
  { exists g'. split; [done|]. destruct (Hk o g' Hg') as (g0 & Hg0 & -> & _). congruence. }
  destruct (map_choose (granted s')) as (x & gx & Hx).
  { intros H0. rewrite H0, map_size_empty in Hs.
    assert (size (granted s) ≠ 0%nat); [|lia]. intros H2%map_size_empty_inv. by rewrite H2, lookup_empty in Hg. }
  pose proof (Hl o g x gx Hg Hg' Hx) as Hlt. destruct (Hk x gx Hx) as (g0 & Hg0 & _ & Hla).
  assert (x ≠ o) as Hxo by congruence. specialize (Hnewest x g0 Hg0 Hxo). lia.
Qed.

Lemma evict_within fuel s : Z.of_nat (size (granted s)) <= origins_limit s → evict fuel s = s.
Proof. intros H. destruct fuel; [done|]. cbn [evict]. by rewrite (proj2 (Z.ltb_ge _ _)). Qed.

Definition hints_for (s : AcceptChStore) (o : Origin) : gset HighEntropyHint := (granted_for o s).1.

Lemma hints_for_eq s o : hints_for s o = default ∅ (hints <$> granted s !! o).
Proof. unfold hints_for, granted_for. by destruct (granted s !! o). Qed.

Definition accept_ch_bounded (s : AcceptChStore) : Prop :=
  accept_ch_ok s ∧ 1 <= origins_limit s ∧ Z.of_nat (size (granted s)) <= origins_limit s.

Lemma bump_seq_fits s : 0 <= next_seq s < u64_max → next_seq (bump_seq s).2 = next_seq s + 1.
Proof. unfold bump_seq, wrap64, u64_max. simpl. intros. rewrite Z.mod_small; lia. Qed.

(** Filing a fresh grant for an origin. *)
Lemma file_ok s o (h : gset HighEntropyHint) :
  accept_ch_ok s → granted s !! o = None → 0 <= next_seq s →
  accept_ch_ok (mk_accept_ch (<[o := mk_grant h (next_seq s) (next_seq s)]> (granted s))
                  (<[next_seq s := o]> (by_access s)) (next_seq s + 1) (origins_limit s)).
Proof.
  intros Hok Hnone Hpos. split; simpl.
  - intros seq x. rewrite lookup_insert_Some, (ok_index s Hok). split.
    + intros [[<- <-]|(Hne & g & Hg & <-)]; [rewrite lookup_insert_eq; eauto|].
      exists g. split; [|done]. rewrite lookup_insert_ne; [done|]. intros <-. congruence.
    + intros (g & [[<- <-]|[Hne Hg]]%lookup_insert_Some & <-); [by left|]. right.
      pose proof (ok_seq s Hok x g Hg). split; [lia|eauto].
  - intros x g [[_ <-]|[_ Hg]]%lookup_insert_Some; simpl; [lia|].
    pose proof (ok_seq s Hok x g Hg). lia.
  - intros x g1 y g2 [[<- <-]|[Hx H1]]%lookup_insert_Some [[<- <-]|[Hy H2]]%lookup_insert_Some Hxy;
      simpl; try done.
    + pose proof (ok_seq s Hok y g2 H2). lia.
    + pose proof (ok_seq s Hok x g1 H1). lia.
    + by apply (ok_unique s Hok x g1 y g2).
Qed.

Lemma granted_for_ok o s :
  accept_ch_bounded s → 0 <= next_seq s < u64_max → accept_ch_bounded (granted_for o s).2.
Proof.
  intros (Hok & Hlim & Hsize) Hseq. unfold granted_for.
  destruct (granted s !! o) as [g|] eqn:Hg; [|done]. pose proof (bump_seq_fits s Hseq) as Hb.
  unfold bump_seq in *. cbn [snd next_seq] in Hb. cbn [snd]. rewrite Hb.
  pose proof (ok_seq s Hok o g Hg) as Hg'. split; [|split; [done|]; cbn [granted origins_limit];
    by rewrite map_size_insert_Some by (by exists g)].
  split; cbn [granted by_access next_seq].
  - intros seq x. rewrite (ok_index s Hok). split.
    + intros (gx & Hx & <-). destruct (decide (x = o)) as [->|Hne].
      * assert (gx = g) as -> by congruence. rewrite lookup_insert_eq. eauto.
      * rewrite lookup_insert_ne by done. eauto.
    + intros (gx & [[<- <-]|[_ Hx]]%lookup_insert_Some & <-); simpl; eauto.
  - intros x gx [[<- <-]|[_ Hx]]%lookup_insert_Some; simpl; [lia|].
    pose proof (ok_seq s Hok x gx Hx). lia.
  - intros x g1 y g2 [[<- <-]|[Hx H1]]%lookup_insert_Some [[<- <-]|[Hy H2]]%lookup_insert_Some Hxy;
      simpl; try done.
    + pose proof (ok_seq s Hok y g2 H2). split; [lia|]. by apply (ok_unique s Hok o g y g2).
    + pose proof (ok_seq s Hok x g1 H1). lia.
    + by apply (ok_unique s Hok x g1 y g2).
Qed.

(** Forgetting an origin. *)
Lemma forget_bounded o s :
  accept_ch_bounded s →
  accept_ch_bounded (forget o s).2 ∧ granted (forget o s).2 = delete o (granted s).
Proof.
  intros (Hok & Hlim & Hsize). unfold forget. destruct (granted s !! o) as [g|] eqn:Hg; cbn [snd granted].
  - split; [|done]. split; [by apply hints_remove_ok|]. split; [done|]. cbn [granted origins_limit].
    rewrite map_size_delete_Some by (by exists g). lia.
  - by rewrite delete_id.
Qed.

(** The store once an origin's new grant is filed, before eviction. *)
Definition filed_anew (s : AcceptChStore) (o : Origin) (h : gset HighEntropyHint) : AcceptChStore :=
  mk_accept_ch (<[o := mk_grant h (next_seq s) (next_seq s)]> (granted s))
    (<[next_seq s := o]>
      match granted s !! o with
      | Some previous => delete (filed_seq previous) (by_access s)
      | None => by_access s
      end) (next_seq s + 1) (origins_limit s).

Lemma filed_anew_ok s o h :
  accept_ch_ok s → 0 <= next_seq s → accept_ch_ok (filed_anew s o h).
Proof.
  intros Hok Hpos. set (index := match granted s !! o with
    | Some previous => delete (filed_seq previous) (by_access s) | None => by_access s end).
  assert (Hdel : accept_ch_ok (mk_accept_ch (delete o (granted s)) index (next_seq s) (origins_limit s))).
  { unfold index. destruct (granted s !! o) as [g|] eqn:Hg; [by apply hints_remove_ok|].
    rewrite delete_id by done. by destruct s. }
  pose proof (file_ok _ o h Hdel (lookup_delete_eq _ _) Hpos) as Hfile.
  cbn [granted by_access next_seq origins_limit] in Hfile. by rewrite insert_delete_eq in Hfile.
Qed.

Lemma record_filed o v s :
  0 <= next_seq s < u64_max → parse_accept_ch v ≠ ∅ →
  record o v s =
    evict (2 * size (by_access (filed_anew s o (parse_accept_ch v)))) (filed_anew s o (parse_accept_ch v)).
Proof.
  intros Hseq Hv. unfold record. case_decide as Hv'; [done|]. pose proof (bump_seq_fits s Hseq) as Hb.
  unfold bump_seq in *. cbn [snd next_seq] in Hb. by rewrite Hb.
Qed.

Lemma record_evicted o v s :
  accept_ch_bounded s → 0 <= next_seq s < u64_max → parse_accept_ch v ≠ ∅ →
  evicted (filed_anew s o (parse_accept_ch v)) (record o v s).
Proof.
  intros (Hok & Hlim & Hsize) Hseq Hv. rewrite record_filed by done.
  set (s2 := filed_anew s o _).
  assert (Hfile : accept_ch_ok s2) by (apply filed_anew_ok; [done|lia]).
  apply hints_evict_spec; [done|simpl; lia|].
  pose proof (index_size s2 Hfile). pose proof (stale_le (granted s2)). lia.
Qed.

(** The memory of client hints is bounded and least recently used: an
    [Accept-CH] replaces what its origin was granted - clearing it when it names
    nothing - touches no other origin's grant except to drop whole grants when the
    store is full, and a dropped grant was last used before every grant kept, however
    the lazily maintained index had fallen behind.  The eviction loop always ends. *)
Theorem accept_ch_record_lru o v s :
  accept_ch_bounded s → 0 <= next_seq s < u64_max →
  let s' := record o v s in
  accept_ch_bounded s' ∧ hints_for s' o = parse_accept_ch v ∧
  ∀ o' g, o' ≠ o → granted s !! o' = Some g →
    hints_for s' o' = hints g ∨
    (granted s' !! o' = None ∧ Z.of_nat (size (granted s')) = origins_limit s ∧
     ∀ x gx, granted s' !! x = Some gx → last_access_seq g < last_access_seq gx).
Proof.
  intros Hb Hseq. cbv zeta. destruct (decide (parse_accept_ch v = ∅)) as [Hv|Hv].
  { assert (record o v s = (forget o s).2) as -> by (unfold record; by rewrite decide_True).
    destruct (forget_bounded o s Hb) as [Hb' Hg]. split; [done|].
    rewrite hints_for_eq, Hg, lookup_delete_eq, Hv. split; [done|].
    intros o' g Hne Ho'. left. by rewrite hints_for_eq, Hg, lookup_delete_ne, Ho' by done. }
  pose proof (record_evicted o v s Hb Hseq Hv) as Hev. destruct Hb as (Hok & Hlim & Hsize).
  pose proof Hev as [Ho Hs [_ Hf] Hk Hl]. split; [|split].
  - split; [done|]. rewrite Hf. split; [done|]. rewrite Hs. simpl. lia.
  - destruct (evicted_newest _ _ o (mk_grant (parse_accept_ch v) (next_seq s) (next_seq s)) Hev) as (g' & Hg' & Hh);
      [done|apply lookup_insert_eq| |by rewrite hints_for_eq, Hg'].
    intros x gx Hx Hne. cbn [filed_anew granted] in Hx. rewrite lookup_insert_ne in Hx by done.
    by apply (ok_seq s Hok) in Hx as [_ ?].
  - intros o' g Hne Hg.
    assert (Hg2 : granted (filed_anew s o (parse_accept_ch v)) !! o' = Some g)
      by (unfold filed_anew; cbn [granted]; by rewrite lookup_insert_ne by done).
    destruct (granted (record o v s) !! o') as [g'|] eqn:Hg'.
    + left. destruct (Hk o' g' Hg') as (g0 & Hg0 & Hh & _). rewrite hints_for_eq, Hg'. simpl. congruence.
    + right. split; [done|]. split; [|intros x gx Hx; by apply (Hl o' g x gx)].
      rewrite Hs. apply Z.min_l. destruct (decide (origins_limit s <= Z.of_nat (size (granted (filed_anew s o (parse_accept_ch v)))))); [done|].
      rewrite record_filed, evict_within in Hg' by (simpl in *; done || lia). congruence.
Qed.
