(* ===== verification/HeaderOrdering.v ===== *)
(** [chromulate-header]: positions in a header order
    (src/crates/chromulate-header/src/order.rs). *)
From S2P Require Import Prelude RustStr.

(** [Named]: an order entry that knows its wire name. *)
Class Named (T : Type) := order_name : T → str.

Section Order.
Context `{Named T}.
Implicit Types order : list T.

Definition contains order (name : str) : bool :=
  existsb (λ e, bool_decide (order_name e = name)) order.

(** [iter().position(..)]. *)
Definition position order (name : str) : option nat :=
  fst <$> list_find (λ e, order_name e = name) order.

(** [Vec::insert], for an index within the vector. *)
Definition insert_at (i : nat) (x : T) order : list T := take i order ++ x :: drop i order.

Definition insert_before (anchor : str) (entry : T) order : list T :=
  if contains order (order_name entry) then order
  else insert_at (default (length order) (position order anchor)) entry order.

Definition insert_after (anchor : str) (entry : T) order : list T :=
  if contains order (order_name entry) then order
  else insert_at (from_option S (length order) (position order anchor)) entry order.

(** ** What an insertion does *)

Lemma contains_true order name : contains order name = true ↔ ∃ e, e ∈ order ∧ order_name e = name.
Proof.
  unfold contains. rewrite existsb_exists. setoid_rewrite bool_decide_eq_true.
  by setoid_rewrite list_elem_of_In.
Qed.

Lemma contains_names order name : contains order name = bool_decide (name ∈ order_name <$> order).
Proof.
  apply eq_true_iff_eq. rewrite contains_true, bool_decide_eq_true, list_elem_of_fmap. naive_solver.
Qed.

Lemma sublist_insert_at i x order : sublist order (insert_at i x order).
Proof.
  unfold insert_at. rewrite <- (take_drop i order) at 1. apply sublist_app; [done|by constructor].
Qed.

Lemma elem_of_insert_at i x order y : y ∈ insert_at i x order ↔ y = x ∨ y ∈ order.
Proof.
  unfold insert_at. rewrite elem_of_app, elem_of_cons.
  rewrite <- (take_drop i order) at 3. rewrite elem_of_app. tauto.
Qed.

(** Whatever the anchor, an entry already listed is left alone and a new one is
    added once, and the order of the others is kept. *)
Definition inserted (entry : T) order order' : Prop :=
  sublist order order' ∧
  (∀ y, y ∈ order' ↔ y ∈ order ∨ (y = entry ∧ contains order (order_name entry) = false)).

Lemma insert_before_inserted anchor entry order : inserted entry order (insert_before anchor entry order).
Proof.
  unfold insert_before, inserted. destruct (contains _ _); [naive_solver|].
  split; [apply sublist_insert_at|]. intros y. rewrite elem_of_insert_at. naive_solver.
Qed.

Lemma insert_after_inserted anchor entry order : inserted entry order (insert_after anchor entry order).
Proof.
  unfold insert_after, inserted. destruct (contains _ _); [naive_solver|].
  split; [apply sublist_insert_at|]. intros y. rewrite elem_of_insert_at. naive_solver.
Qed.

(** The index an insertion uses is within the vector, so it cannot panic. *)
Lemma position_lt order name i : position order name = Some i → (i < length order)%nat.
Proof.
  unfold position. intros ((i' & e) & Hf & ->)%fmap_Some.
  apply list_find_Some in Hf as (Hi & _). by eapply lookup_lt_Some.
Qed.

(** The neighbour an insertion picks: the entry lands directly before (after) the
    anchor when the anchor is listed, and last otherwise. *)
Lemma insert_before_anchor anchor entry order a :
  contains order (order_name entry) = false → NoDup (order_name <$> order) → a ∈ order → order_name a = anchor →
  ∃ l r, order = l ++ a :: r ∧ insert_before anchor entry order = l ++ entry :: a :: r.
Proof.
  intros Hc Hnd Ha Hn. unfold insert_before. rewrite Hc. unfold position.
  destruct (list_find (λ e, order_name e = anchor) order) as [[i e]|] eqn:Hf.
  - apply list_find_Some in Hf as (Hi & He & _). exists (take i order), (drop (S i) order).
    assert (e = a) as ->.
    { apply list_elem_of_lookup in Ha as [j Hj].
      assert (i = j) as ->; [|congruence].
      eapply NoDup_lookup; [done| |]; rewrite list_lookup_fmap; [by rewrite Hi; simpl; rewrite He|by rewrite Hj; simpl; rewrite Hn]. }
    split; [by rewrite take_drop_middle|].
    change (insert_at i entry order = take i order ++ entry :: a :: drop (S i) order).
    unfold insert_at. by rewrite (drop_S _ _ _ Hi).
  - apply list_find_None in Hf. rewrite Forall_forall in Hf. by destruct (Hf a Ha).
Qed.
End Order.
