(* ===== verification/HeaderEngine.v ===== *)
(** [chromulate-header]: turning a profile and a request's context into the exact,
    ordered header list (src/crates/chromulate-header/src/engine.rs, accept.rs and
    priority.rs).

    [apply] works on the request in place: it answers with the request it leaves
    behind, the client-hint store whose access record it touched, and the wire
    order or the error.  What a profile fixes once ([Prepared]) is built by
    [build]; its result is [None] where the code's [expect] would panic, which
    [build_total] shows never happens. *)
From S2P Require Import Prelude RustStr Extern Message CoreError Origin Redirect Fetch Profile.
From S2P Require Import ClientHints HeaderOrdering.

(** ** Per-destination values *)

Definition STYLE : str := b#"text/css,*/*;q=0.1".
Definition IMAGE : str := b#"image/avif,image/webp,image/apng,image/svg+xml,*/*;q=0.8".
Definition WILDCARD : str := b#"*/*".

Definition accept_fallback (dest : FetchDest) : option str :=
  match dest with
  | Document | Iframe => None
  | Style => Some STYLE
  | Image => Some IMAGE
  | _ => Some WILDCARD
  end.

Definition priority_for (dest : FetchDest) : str :=
  match dest with
  | Document | Iframe => b#"u=0, i"
  | Style | Font => b#"u=0"
  | Script => b#"u=1"
  | _ => b#"u=3"
  end.

(** ** Slots *)

Inductive DynamicValue :=
  | DynAccept | DynSecFetchSite | DynSecFetchMode | DynSecFetchDest | DynSecFetchUser
  | DynUpgradeInsecureRequests | DynPriority | DynReferer | DynOrigin | DynHost
  | DynHint (hint : HighEntropyHint).

Inductive SlotValue :=
  | Constant (value : str)
  | Dynamic (dynamic : DynamicValue)
  | Invalid (value : str)
  | Absent.

Inductive PreparedValue := Valid (value : str) | InvalidValue (value : str) | Missing.

Record Slot := mk_slot { s_name : str; s_header_name : str; s_value : SlotValue }.

#[export] Instance Slot_named : Named Slot := s_name.

Section With_extern.
Context `{HeaderValueApi} `{HeaderMapApi} `{UrlEditApi} `{!UrlReferrer} `{Psl}.

Definition slot (name : str) (value : SlotValue) : option Slot :=
  n ← header_name name; Some (mk_slot name n value).

Definition known_slot (name : str) (dynamic : DynamicValue) : option Slot := slot name (Dynamic dynamic).

Definition constant (value : str) : SlotValue :=
  match from_str value with Some encoded => Constant encoded | None => Invalid value end.

Definition prepared_value (value : str) : PreparedValue :=
  match from_str value with Some encoded => Valid encoded | None => InvalidValue value end.

Definition classify (name : str) (profile : Profile) : SlotValue :=
  if decide (name = b#"sec-ch-ua") then constant (sec_ch_ua profile)
  else if decide (name = b#"sec-ch-ua-mobile") then
    match observed_headers profile !! b#"sec-ch-ua-mobile" with
    | Some value => constant value
    | None => Absent
    end
  else if decide (name = b#"sec-ch-ua-platform") then constant (sec_ch_ua_platform profile)
  else if decide (name = b#"sec-ch-ua-platform-version") then Dynamic (DynHint PlatformVersion)
  else if decide (name = b#"sec-ch-ua-arch") then Dynamic (DynHint Arch)
  else if decide (name = b#"sec-ch-ua-bitness") then Dynamic (DynHint Bitness)
  else if decide (name = b#"sec-ch-ua-full-version-list") then Dynamic (DynHint FullVersionList)
  else if decide (name = b#"sec-ch-ua-model") then Dynamic (DynHint Model)
  else if decide (name = b#"upgrade-insecure-requests") then Dynamic DynUpgradeInsecureRequests
  else if decide (name = b#"user-agent") then constant (user_agent profile)
  else if decide (name = b#"accept") then Dynamic DynAccept
  else if decide (name = b#"sec-fetch-site") then Dynamic DynSecFetchSite
  else if decide (name = b#"sec-fetch-mode") then Dynamic DynSecFetchMode
  else if decide (name = b#"sec-fetch-user") then Dynamic DynSecFetchUser
  else if decide (name = b#"sec-fetch-dest") then Dynamic DynSecFetchDest
  else if decide (name = b#"referer") then Dynamic DynReferer
  else if decide (name = b#"origin") then Dynamic DynOrigin
  else if decide (name = b#"accept-encoding") then constant (accept_encoding profile)
  else if decide (name = b#"accept-language") then constant (accept_language profile)
  else if decide (name = b#"priority") then Dynamic DynPriority
  else if decide (name = b#"host") then Dynamic DynHost
  else Absent.

Definition plan_of (order : list str) (profile : Profile) : list Slot :=
  omap (λ name, slot name (classify name profile)) order.

(** ** What a profile fixes once *)

Record Prepared := mk_prepared {
  p_navigate : list Slot;
  p_subresource : list Slot;
  p_host : Slot;
  p_origin : Slot;
  p_referer : Slot;
  p_sec_fetch_user : Slot;
  p_hints : list Slot;
  p_document_accept : PreparedValue;
  p_hint_values : list PreparedValue;
}.

Definition build (profile : Profile) (high_entropy : HighEntropyHints) : option Prepared :=
  let navigate := plan_of (navigate_order (header_order profile)) profile in
  let subresource := plan_of (subresource_or_navigate (header_order profile)) profile in
  let hints := omap (λ hint, slot (hint_header_name hint) (Dynamic (DynHint hint))) ALL_IN_EMIT_ORDER in
  let hint_values :=
    (λ hint, match value_for high_entropy hint with
             | Some value => prepared_value value
             | None => Missing
             end) <$> ALL_IN_EMIT_ORDER in
  host ← known_slot b#"host" DynHost;
  origin ← known_slot b#"origin" DynOrigin;
  referer ← known_slot b#"referer" DynReferer;
  sec_fetch_user ← known_slot b#"sec-fetch-user" DynSecFetchUser;
  Some (mk_prepared navigate subresource host origin referer sec_fetch_user hints
          (prepared_value (accept profile)) hint_values).

(** [Prepared::hint_value]; the index is always within [hint_values]. *)
Definition hint_value (p : Prepared) (hint : HighEntropyHint) : PreparedValue :=
  let position := from_option fst 0 (list_find (λ candidate, candidate = hint) ALL_IN_EMIT_ORDER) in
  default Missing (p_hint_values p !! position).

Record HeaderEngine := mk_engine {
  e_profile : Profile;
  e_high_entropy : HighEntropyHints;
  e_prepared : Prepared;
}.

(** [HeaderEngine::new]. *)
Definition new_engine (profile : Profile) : option HeaderEngine :=
  prepared ← build profile no_hints; Some (mk_engine profile no_hints prepared).

Definition with_high_entropy_hints (hints : HighEntropyHints) (e : HeaderEngine) : option HeaderEngine :=
  prepared ← build (e_profile e) hints; Some (mk_engine (e_profile e) hints prepared).

(** ** One request *)

Record Ctx := mk_ctx {
  c_options : RequestOptions;
  c_fetch_site : FetchSite;
  c_referer : option str;
  c_origin_header : option str;
  c_host_value : option str;
  c_user_activated : bool;
  c_granted : gset HighEntropyHint;
}.

Definition needs_host (version : Version) : bool :=
  match version with HTTP_09 | HTTP_10 | HTTP_11 => true | _ => false end.

Definition host_header_value (url : Url) : option str :=
  host ← host_str url;
  Some (match url_port url with Some port => host ++ b#":" ++ show_u16 port | None => host end).

Definition origin_header_value (mode : FetchMode) (method : Method) (initiator : option Origin)
    (target : Origin) : option str :=
  initiator ← initiator;
  let unsafe_method := negb (bool_decide (method = GET) || bool_decide (method = HEAD)) in
  let needed :=
    match mode with
    | Navigate => unsafe_method
    | _ => unsafe_method || negb (bool_decide (initiator = target))
    end in
  if needed then Some (ascii_serialization initiator) else None.

(** The hint slots of [build_order]: inserted after the anchor one behind the
    other, or appended when there is none. *)
Fixpoint insert_hints (anchor : option nat) (inserted : nat) (granted : gset HighEntropyHint)
    (hint_slots : list Slot) (order : list Slot) : list Slot :=
  match hint_slots with
  | [] => order
  | hint_slot :: rest =>
      match s_value hint_slot with
      | Dynamic (DynHint hint) =>
          if negb (bool_decide (hint ∈ granted)) || contains order (s_name hint_slot)
          then insert_hints anchor inserted granted rest order
          else
            match anchor with
            | Some anchor =>
                insert_hints (Some anchor) (S inserted) granted rest
                  (insert_at (anchor + 1 + inserted) hint_slot order)
            | None => insert_hints None inserted granted rest (order ++ [hint_slot])
            end
      | _ => insert_hints anchor inserted granted rest order
      end
  end.

Definition build_order (base : list Slot) (p : Prepared) (needs_host needs_origin needs_referer user_activated : bool)
    (granted : gset HighEntropyHint) : list Slot :=
  let order := base in
  let order := if needs_host && negb (contains order b#"host") then p_host p :: order else order in
  let order :=
    if decide (granted = ∅) then order
    else insert_hints (position order b#"sec-ch-ua-platform") 0 granted (p_hints p) order in
  let order := if needs_origin then insert_before b#"sec-fetch-site" (p_origin p) order else order in
  let order := if user_activated then insert_before b#"sec-fetch-dest" (p_sec_fetch_user p) order else order in
  if needs_referer then insert_after b#"sec-fetch-dest" (p_referer p) order else order.

Section Engine.
Context (e : HeaderEngine).

Definition accept_value (ctx : Ctx) : str + Error :=
  match accept_fallback (opt_dest (c_options ctx)) with
  | Some fallback => inl fallback
  | None =>
      match p_document_accept (e_prepared e) with
      | Valid value => inl value
      | InvalidValue _ => inr Config
      | Missing => inr Config
      end
  end.

Definition dynamic_value (dynamic : DynamicValue) (ctx : Ctx) : option str + Error :=
  match dynamic with
  | DynAccept => match accept_value ctx with inl value => inl (Some value) | inr e => inr e end
  | DynSecFetchSite => inl (Some (site_as_str (c_fetch_site ctx)))
  | DynSecFetchMode => inl (Some (mode_as_str (opt_mode (c_options ctx))))
  | DynSecFetchDest => inl (Some (dest_as_str (opt_dest (c_options ctx))))
  | DynSecFetchUser => inl (if c_user_activated ctx then Some b#"?1" else None)
  | DynUpgradeInsecureRequests =>
      inl (if decide (opt_mode (c_options ctx) = Navigate) then Some b#"1" else None)
  | DynPriority => inl (Some (priority_for (opt_dest (c_options ctx))))
  | DynReferer => inl (c_referer ctx)
  | DynOrigin => inl (c_origin_header ctx)
  | DynHost => inl (c_host_value ctx)
  | DynHint hint =>
      if negb (bool_decide (hint ∈ c_granted ctx)) then inl None
      else
        match hint_value (e_prepared e) hint with
        | Valid value => inl (Some value)
        | InvalidValue _ => inr Config
        | Missing => inl None
        end
  end.

Definition slot_value (ctx : Ctx) (s : Slot) : option str + Error :=
  match s_value s with
  | Constant value => inl (Some value)
  | Absent => inl None
  | Invalid _ => inr Config
  | Dynamic dynamic => dynamic_value dynamic ctx
  end.

(** The loop over the order; [seen] is the names of the slots already passed. *)
Fixpoint fill (caller : HeaderMap) (ctx : Ctx) (seen : list str) (slots : list Slot)
    (headers : HeaderMap) (result : list (str * str)) : HeaderMap * (list (str * str) + Error) :=
  match slots with
  | [] => (headers, inl result)
  | s :: slots =>
      let n := s_header_name s in
      if decide (n ∈ seen) then fill caller ctx (n :: seen) slots headers result
      else
        match hm_get_all caller n with
        | first :: extra =>
            fill caller ctx (n :: seen) slots
              (foldl (λ h v, hm_append n v h) (hm_insert n first headers) extra)
              (result ++ (n, first) :: (pair n <$> extra))
        | [] =>
            match slot_value ctx s with
            | inr e => (headers, inr e)
            | inl None => fill caller ctx (n :: seen) slots headers result
            | inl (Some v) => fill caller ctx (n :: seen) slots (hm_insert n v headers) (result ++ [(n, v)])
            end
        end
  end.

(** [request_value]: [?] on an optional computed value. *)
Definition request_value (value : option str) : option str + Error :=
  match value with
  | None => inl None
  | Some v => match from_bytes v with Some v => inl (Some v) | None => inr Config end
  end.

(** The facts about one request, or the error that stops it before its headers
    are touched; the grants it reads are the store's to record. *)
Definition context_of (rq : Request) (url : Url) (options : RequestOptions) (granted : gset HighEntropyHint)
    (target : Origin) : Ctx + Error :=
  match request_value (origin_header_value (opt_mode options) (rq_method rq) (opt_initiator options) target) with
  | inr e => inr e
  | inl origin_header =>
      match request_value (from ← opt_referrer options; referrer_for from url) with
      | inr e => inr e
      | inl referer =>
          match (if needs_host (rq_version rq) then request_value (host_header_value url) else inl None) with
          | inr e => inr e
          | inl host_value =>
              inl (mk_ctx options (fetch_site (opt_initiator options) target) referer origin_header host_value
                     (rq_user_activated rq) granted)
          end
      end
  end.

Definition base_order (options : RequestOptions) : list Slot :=
  if decide (opt_mode options = Navigate) then p_navigate (e_prepared e) else p_subresource (e_prepared e).

Definition order_for (options : RequestOptions) (ctx : Ctx) : list Slot :=
  build_order (base_order options) (e_prepared e) (bool_decide (is_Some (c_host_value ctx)))
    (bool_decide (is_Some (c_origin_header ctx))) (bool_decide (is_Some (c_referer ctx)))
    (c_user_activated ctx) (c_granted ctx).

(** Every slot's name, in order. *)
Definition order_names (order : list Slot) : list str := s_header_name <$> order.

(** [HeaderEngine::apply]. *)
Definition apply (rq : Request) (url : Url) (options : RequestOptions) (accept_ch : AcceptChStore) :
    Request * AcceptChStore * (list (str * str) + Error) :=
  match origin_of url with
  | inr _ => (rq, accept_ch, inr InvalidUrl)
  | inl target =>
      let '(granted, touched) := granted_for target accept_ch in
      match context_of rq url options granted target with
      | inr err => (rq, accept_ch, inr err)
      | inl ctx =>
          let order := order_for options ctx in
          let caller := rq_headers rq in
          match fill caller ctx [] order hm_empty [] with
          | (headers, inr err) => (with_headers headers rq, touched, inr err)
          | (headers, inl result) =>
              let rest := filter (λ kv, kv.1 ∉ order_names order) (hm_iter caller) in
              (with_headers (foldl (λ h kv, hm_append kv.1 kv.2 h) headers rest) rq, touched,
               inl (result ++ rest))
          end
      end
  end.
End Engine.
End With_extern.
