(* ===== verification/HeaderBehaviour.v ===== *)
(** [chromulate-header]: what the header engine puts on the wire. *)
From S2P Require Import Prelude RustStr Extern Message CoreError Origin Redirect Fetch Profile.
From S2P Require Import ClientHints HeaderOrdering HeaderEngine.

Section Facts.
Context `{HeaderValueApi} `{HeaderMapLaws} `{UrlEditApi} `{!UrlReferrer} `{Psl}.
Context (e : HeaderEngine).
Implicit Types (s : Slot) (order : list Slot) (ctx : Ctx).

(** ** The loop over the order *)

(** The first slot of each name. *)
Fixpoint firsts (seen : list str) order : list Slot :=
  match order with
  | [] => []
  | s :: order =>
      if decide (s_header_name s ∈ seen) then firsts (s_header_name s :: seen) order
      else s :: firsts (s_header_name s :: seen) order
  end.

(** What a slot contributes: the caller's values when there are any, otherwise at
    most one of the engine's. *)
Definition wire_values (caller : HeaderMap) ctx s : list str :=
  match hm_get_all caller (s_header_name s) with
  | [] => match slot_value e ctx s with inl v => option_list v | inr _ => [] end
  | values => values
  end.

Definition wire (caller : HeaderMap) ctx s : list (str * str) :=
  pair (s_header_name s) <$> wire_values caller ctx s.

Lemma firsts_sublist seen order : sublist (firsts seen order) order.
Proof.
  revert seen. induction order as [|s order IH]; intros seen; cbn [firsts]; [done|].
  case_decide; [by apply sublist_cons|by apply sublist_skip].
Qed.

Lemma firsts_NoDup seen order :
  NoDup (s_header_name <$> firsts seen order) ∧
  ∀ s, s ∈ firsts seen order → s_header_name s ∉ seen.
Proof.
  revert seen. induction order as [|s order IH]; intros seen; cbn [firsts].
  { split; [constructor|]. intros s Hs. by apply elem_of_nil in Hs. }
  destruct (IH (s_header_name s :: seen)) as [Hnd Hseen]. case_decide as Hs.
  - split; [done|]. intros s' Hs' Hin. apply (Hseen s' Hs'). by right.
  - rewrite fmap_cons. split.
    + constructor; [|done]. intros (s' & Heq & Hs')%list_elem_of_fmap. apply (Hseen s' Hs').
      rewrite <- Heq. by left.
    + intros s' [->|Hs']%elem_of_cons; [done|]. intros Hin. apply (Hseen s' Hs'). by right.
Qed.

Lemma elem_of_firsts seen order n :
  n ∈ s_header_name <$> firsts seen order ↔ n ∈ s_header_name <$> order ∧ n ∉ seen.
Proof.
  revert seen. induction order as [|s order IH]; intros seen; cbn [firsts].
  { split; [intros Hn; by apply elem_of_nil in Hn|by intros [Hn _]; apply elem_of_nil in Hn]. }
  destruct (decide (s_header_name s ∈ seen)); rewrite ?fmap_cons, ?elem_of_cons, IH, ?not_elem_of_cons.
  - split; [naive_solver|]. intros [[->|Hn] Hseen]; [done|]. split; [done|]. split; [|done]. congruence.
  - destruct (decide (n = s_header_name s)) as [->|]; naive_solver.
Qed.

(** The loop emits each name once, in order, and writes the same lines to the map. *)
Lemma fill_spec caller ctx seen slots headers result headers' result' :
  fill e caller ctx seen slots headers result = (headers', inl result') →
  result.*1 ⊆ seen → (∀ n, hm_get_all headers n = lines_of n result) →
  result' = result ++ (firsts seen slots ≫= wire caller ctx) ∧
  (∀ n, hm_get_all headers' n = lines_of n result') ∧
  (∀ s, s ∈ firsts seen slots → hm_get_all caller (s_header_name s) = [] →
    ∃ v, slot_value e ctx s = inl v).
Proof.
  revert seen headers result. induction slots as [|s slots IH]; intros seen headers result; cbn [fill firsts].
  { intros [= <- <-] _ Hmap. rewrite app_nil_r. split; [done|]. split; [done|].
    intros s Hs. by apply elem_of_nil in Hs. }
  destruct (decide (s_header_name s ∈ seen)) as [Hs|Hs]; intros Hfill Hseen Hmap.
  { apply IH in Hfill; [done| |done]. intros x Hx. right. by apply Hseen. }
  assert (Hnone : lines_of (s_header_name s) result = []).
  { apply lines_of_none. intros Hn. by apply Hs, Hseen. }
  cbn [mbind list_bind]. unfold wire at 1, wire_values.
  destruct (hm_get_all caller (s_header_name s)) as [|first extra] eqn:Hc.
  - destruct (slot_value e ctx s) as [[v|]|err] eqn:Hv; [| |done].
    + apply IH in Hfill as (-> & Hmap' & Herr).
      * split; [by rewrite <- app_assoc|]. split; [done|]. intros s' [->|Hs']%elem_of_cons; eauto.
      * rewrite fmap_app. intros x [Hx|Hx]%elem_of_app; [right; by apply Hseen|].
        apply list_elem_of_singleton in Hx as ->. by left.
      * intros n. rewrite get_all_insert, lines_of_app, lines_of_cons. cbn [fst snd].
        rewrite Hmap. case_decide as Hn; [subst n; by rewrite Hnone|by rewrite app_nil_r].
    + apply IH in Hfill as (-> & Hmap' & Herr); [|intros x Hx; right; by apply Hseen|done].
      split; [done|]. split; [done|]. intros s' [->|Hs']%elem_of_cons; eauto.
  - apply IH in Hfill as (-> & Hmap' & Herr).
    + split; [rewrite <- app_assoc; done|]. split; [done|].
      intros s' [->|Hs']%elem_of_cons Hs''; [congruence|eauto].
    + rewrite fmap_app. intros x [Hx|Hx]%elem_of_app; [right; by apply Hseen|].
      apply elem_of_cons in Hx as [->|Hx]; [by left|].
      apply list_elem_of_fmap in Hx as (kv & -> & (v & -> & _)%list_elem_of_fmap). by left.
    + intros n. rewrite get_all_append_values, get_all_insert, lines_of_app, lines_of_cons, lines_of_pairs.
      cbn [fst snd]. rewrite Hmap. case_decide as Hn; [subst n; by rewrite Hnone|by rewrite !app_nil_r].
Qed.

Lemma lines_of_wire caller ctx l s :
  NoDup (s_header_name <$> l) → s ∈ l →
  lines_of (s_header_name s) (l ≫= wire caller ctx) = wire_values caller ctx s.
Proof.
  induction l as [|s' l IH]; [by intros _ Hs%elem_of_nil|].
  rewrite fmap_cons. intros [Hs' Hnd]%NoDup_cons Hin. cbn [mbind list_bind].
  rewrite lines_of_app. unfold wire at 1. rewrite lines_of_pairs.
  apply elem_of_cons in Hin as [->|Hin].
  - rewrite decide_True by done. rewrite lines_of_none; [apply app_nil_r|].
    intros (kv & Hkv & (s2 & Hw & Hs2)%list_elem_of_bind)%list_elem_of_fmap.
    apply list_elem_of_fmap in Hw as (v & -> & _). simpl in Hkv.
    apply Hs', list_elem_of_fmap. eauto.
  - rewrite decide_False, IH by (done || intros Heq; apply Hs'; rewrite Heq; by apply list_elem_of_fmap_2). done.
Qed.

Lemma lines_of_wire_none caller ctx l n :
  n ∉ s_header_name <$> l → lines_of n (l ≫= wire caller ctx) = [].
Proof.
  intros Hn. apply lines_of_none. intros (kv & -> & (s & Hw & Hs)%list_elem_of_bind)%list_elem_of_fmap.
  apply list_elem_of_fmap in Hw as (v & -> & _). apply Hn, list_elem_of_fmap. eauto.
Qed.

(** ** The order *)

(** An order grown from another: nothing is dropped or moved, and everything new
    is from [extra]. *)
Definition grown (extra : list Slot) order order' : Prop :=
  sublist order order' ∧ ∀ s, s ∈ order' → s ∈ order ∨ s ∈ extra.

Lemma grown_refl extra order : grown extra order order.
Proof. split; [done|]. by left. Qed.

Lemma grown_trans extra o1 o2 o3 : grown extra o1 o2 → grown extra o2 o3 → grown extra o1 o3.
Proof. intros [S1 M1] [S2 M2]. split; [by etrans|]. intros s [Hs|Hs]%M2; [by apply M1|by right]. Qed.

Lemma grown_inserted extra s o o' : s ∈ extra → inserted s o o' → grown extra o o'.
Proof. intros Hs [Hsub Hin]. split; [done|]. intros s' [Hs'|[-> _]]%Hin; auto. Qed.

Lemma grown_mono extra extra' o o' : extra ⊆ extra' → grown extra o o' → grown extra' o o'.
Proof. intros Hsub [Hs Hin]. split; [done|]. intros s [?|?]%Hin; auto. Qed.

Lemma contains_sublist o o' n : sublist o o' → contains o n = true → contains o' n = true.
Proof.
  rewrite !contains_true. intros Hsub (s & Hs & Hn). exists s. split; [|done].
  by eapply elem_of_sublist.
Qed.

Lemma insert_hints_spec anchor k granted hint_slots order :
  let order' := insert_hints anchor k granted hint_slots order in
  grown hint_slots order order' ∧
  ∀ s h, s ∈ hint_slots → s_value s = Dynamic (DynHint h) → h ∈ granted → contains order' (s_name s) = true.
Proof.
  revert k order. induction hint_slots as [|s hint_slots IH]; intros k order; cbn [insert_hints].
  { split; [apply grown_refl|]. intros s h Hs. by apply elem_of_nil in Hs. }
  assert (Hskip : (∀ h, s_value s = Dynamic (DynHint h) → h ∈ granted → contains order (s_name s) = true) →
    let order' := insert_hints anchor k granted hint_slots order in
    grown (s :: hint_slots) order order' ∧
    ∀ s' h, s' ∈ s :: hint_slots → s_value s' = Dynamic (DynHint h) → h ∈ granted →
      contains order' (s_name s') = true).
  { intros Hs. destruct (IH k order) as [Hg Hc]. cbv zeta.
    split; [by eapply grown_mono; [|done]; right|]. intros s' h [->|Hs']%elem_of_cons Hv Hh; [|by eapply Hc].
    eapply contains_sublist; [apply Hg|by eapply Hs]. }
  assert (Htake : ∀ k' order1, inserted s order order1 → contains order1 (s_name s) = true →
    let order' := insert_hints anchor k' granted hint_slots order1 in
    grown (s :: hint_slots) order order' ∧
    ∀ s' h, s' ∈ s :: hint_slots → s_value s' = Dynamic (DynHint h) → h ∈ granted →
      contains order' (s_name s') = true).
  { intros k' order1 Hins Hs. destruct (IH k' order1) as [Hg Hc]. cbv zeta. split.
    - eapply grown_trans; [by eapply grown_inserted; [left|]|by eapply grown_mono; [|done]; right].
    - intros s' h [->|Hs']%elem_of_cons Hv Hh; [eapply contains_sublist; [apply Hg|done]|by eapply Hc]. }
  destruct (s_value s) as [v|[]|v|] eqn:Hv; try (apply Hskip; intros ? [=]).
  destruct (negb _ || _) eqn:Hc; bool_prop; [apply Hskip; intros h [= <-] Hh; naive_solver|].
  destruct Hc as [Hgr Hc].
  assert (Hself : ∀ l r, contains (l ++ s :: r) (s_name s) = true).
  { intros l r. apply contains_true. exists s. split; [set_solver|done]. }
  destruct anchor as [a|]; apply Htake; try apply Hself; (split; [|intros y]).
  - apply sublist_insert_at.
  - rewrite elem_of_insert_at. change (order_name s) with (s_name s). rewrite Hc. naive_solver.
  - by apply sublist_inserts_r.
  - rewrite elem_of_app, list_elem_of_singleton. change (order_name s) with (s_name s). rewrite Hc. naive_solver.
Qed.

Definition extra_slots (p : Prepared) : list Slot :=
  [p_host p; p_origin p; p_referer p; p_sec_fetch_user p] ++ p_hints p.

Lemma build_order_spec base p host origin referer user granted :
  let order := build_order base p host origin referer user granted in
  grown (extra_slots p) base order ∧
  (host = true → contains order b#"host" = true ∨ p_host p ∈ order) ∧
  (origin = true → contains order (s_name (p_origin p)) = true) ∧
  (referer = true → contains order (s_name (p_referer p)) = true) ∧
  (user = true → contains order (s_name (p_sec_fetch_user p)) = true) ∧
  (∀ s h, s ∈ p_hints p → s_value s = Dynamic (DynHint h) → h ∈ granted → contains order (s_name s) = true).
Proof.
  unfold build_order. cbv zeta.
  set (o1 := if host && negb (contains base b#"host") then p_host p :: base else base).
  assert (G1 : grown (extra_slots p) base o1 ∧ (host = true → contains o1 b#"host" = true ∨ p_host p ∈ o1)).
  { unfold o1. destruct host, (contains base b#"host") eqn:Hc; simpl; try (split; [apply grown_refl|by auto]).
    split; [|intros _; right; by left]. split; [by apply sublist_cons|].
    intros s [->|Hs]%elem_of_cons; [right; by left|by left]. }
  set (o2 := if decide (granted = ∅) then o1 else _).
  assert (G2 : grown (extra_slots p) o1 o2 ∧
    ∀ s h, s ∈ p_hints p → s_value s = Dynamic (DynHint h) → h ∈ granted → contains o2 (s_name s) = true).
  { unfold o2. case_decide as Hgr; [split; [apply grown_refl|by intros s h _ _; rewrite Hgr; set_solver]|].
    destruct (insert_hints_spec (position o1 b#"sec-ch-ua-platform") 0 granted (p_hints p) o1) as [Hg Hc].
    split; [|done]. eapply grown_mono; [|done]. unfold extra_slots. set_solver. }
  assert (Hins : ∀ (b : bool) s o o', s ∈ extra_slots p → inserted s o o' → contains o' (s_name s) = true →
    grown (extra_slots p) o (if b then o' else o) ∧ (b = true → contains (if b then o' else o) (s_name s) = true)).
  { intros [] s o o' Hs Hi Hc; [|split; [apply grown_refl|done]]. split; [by eapply grown_inserted|done]. }
  assert (Hself : ∀ s o o', inserted s o o' → contains o' (s_name s) = true).
  { intros s o o' [Hsub Hin]. destruct (contains o (s_name s)) eqn:Hc; [by eapply contains_sublist|].
    apply contains_true. exists s. split; [|done]. apply Hin. by right. }
  set (o3 := if origin then _ else o2). set (o4 := if user then _ else o3). set (o5 := if referer then _ else o4).
  destruct (Hins origin (p_origin p) o2 _ ltac:(unfold extra_slots; set_solver)
    (insert_before_inserted b#"sec-fetch-site" (p_origin p) o2) (Hself _ _ _ (insert_before_inserted _ _ _))) as [G3 C3].
  destruct (Hins user (p_sec_fetch_user p) o3 _ ltac:(unfold extra_slots; set_solver)
    (insert_before_inserted b#"sec-fetch-dest" _ o3) (Hself _ _ _ (insert_before_inserted _ _ _))) as [G4 C4].
  destruct (Hins referer (p_referer p) o4 _ ltac:(unfold extra_slots; set_solver)
    (insert_after_inserted b#"sec-fetch-dest" _ o4) (Hself _ _ _ (insert_after_inserted _ _ _))) as [G5 C5].
  fold o3 in G3, C3. fold o4 in G4, C4. fold o5 in G5, C5.
  destruct G1 as [G1 C1], G2 as [G2 C2].
  assert (G45 : grown (extra_slots p) o3 o5) by (by eapply grown_trans).
  assert (G25 : grown (extra_slots p) o2 o5) by (by eapply grown_trans).
  assert (G15 : grown (extra_slots p) o1 o5) by (by eapply grown_trans).
  split; [by eapply grown_trans|]. split; [|split; [|split; [done|split]]].
  - intros Hh. destruct (C1 Hh) as [Hc|Hin]; [left; by eapply contains_sublist; [apply G15|]|].
    right. by eapply elem_of_sublist; [|apply G15].
  - intros Ho. eapply contains_sublist; [apply G45|auto].
  - intros Hu. eapply contains_sublist; [apply G5|auto].
  - intros s h Hs Hv Hh. eapply contains_sublist; [apply G25|by eapply C2].
Qed.

(** ** The whole of [apply] *)

(** A successful application, taken apart. *)
Record applied (rq : Request) (url : Url) (options : RequestOptions) (store : AcceptChStore)
    (rq' : Request) (ordered : list (str * str)) (target : Origin) (ctx : Ctx) : Prop := {
  ap_target : origin_of url = inl target;
  ap_ctx : context_of rq url options (hints_for store target) target = inl ctx;
  ap_ordered :
    ordered = (firsts [] (order_for e options ctx) ≫= wire (rq_headers rq) ctx) ++
      filter (λ kv, kv.1 ∉ order_names (order_for e options ctx)) (hm_iter (rq_headers rq));
  ap_map n : hm_get_all (rq_headers rq') n = lines_of n ordered;
  ap_values s : s ∈ firsts [] (order_for e options ctx) →
    hm_get_all (rq_headers rq) (s_header_name s) = [] → ∃ v, slot_value e ctx s = inl v;
  ap_head : rq' = with_headers (rq_headers rq') rq;
}.

Lemma apply_applied rq url options store rq' store' ordered :
  apply e rq url options store = (rq', store', inl ordered) →
  ∃ target ctx, store' = (granted_for target store).2 ∧ applied rq url options store rq' ordered target ctx.
Proof.
  unfold apply. destruct (origin_of url) as [target|] eqn:Ht; [|done].
  rewrite (surjective_pairing (granted_for target store)).
  change (granted_for target store).1 with (hints_for store target).
  destruct (context_of _ _ _ _ _) as [ctx|] eqn:Hctx; [|done]. cbv zeta.
  destruct (fill _ _ _ _ _ _ _) as [headers [result|]] eqn:Hf; [|done].
  intros [= <- <- <-]. exists target, ctx. split; [done|].
  destruct (fill_spec _ _ _ _ _ _ _ _ Hf) as (-> & Hmap & Herr);
    [intros x Hx; by apply elem_of_nil in Hx|intros n; by rewrite get_all_empty|].
  split; [done..| |done|done]. intros n. cbn [rq_headers with_headers].
  by rewrite get_all_append_all, Hmap, <- lines_of_app.
Qed.

(** The values of one name: its first slot's when the order lists it, the
    caller's otherwise. *)
Lemma applied_values rq url options store rq' ordered target ctx n :
  applied rq url options store rq' ordered target ctx →
  (∃ s, s ∈ firsts [] (order_for e options ctx) ∧ s_header_name s = n ∧
        hm_get_all (rq_headers rq') n = wire_values (rq_headers rq) ctx s) ∨
  ((n ∉ order_names (order_for e options ctx)) ∧
   hm_get_all (rq_headers rq') n = hm_get_all (rq_headers rq) n).
Proof.
  intros [_ _ Hord Hmap _ _]. rewrite Hmap, Hord, lines_of_app.
  destruct (firsts_NoDup [] (order_for e options ctx)) as [Hnd _].
  destruct (decide (n ∈ order_names (order_for e options ctx))) as [Hn|Hn].
  - left. rewrite lines_of_filter_drop, app_nil_r by (intros kv Hkv; rewrite Hkv; tauto).
    assert (n ∈ s_header_name <$> firsts [] (order_for e options ctx)) as (s & -> & Hs)%list_elem_of_fmap
      by (apply elem_of_firsts; split; [done|apply not_elem_of_nil]).
    exists s. split; [done|]. split; [done|]. by apply lines_of_wire.
  - right. split; [done|]. rewrite lines_of_filter_keep, lines_of_wire_none.
    + apply get_all_iter.
    + rewrite elem_of_firsts. tauto.
    + intros kv Hkv. by rewrite Hkv.
Qed.

(** C3. What the header engine puts on the wire: for every name, exactly the caller's
    values when it set any - all of them, in its order - and otherwise at most one
    value of the engine's; the names appear slot by slot in an order that keeps the
    profile's captured order and adds only the engine's own slots, with whatever
    else the caller set behind them; and the request's header map says the same as
    the wire order, line for line. *)
Theorem apply_exact rq url options store rq' store' ordered :
  apply e rq url options store = (rq', store', inl ordered) →
  (∀ n, hm_get_all (rq_headers rq') n = lines_of n ordered) ∧
  (∀ n, hm_get_all (rq_headers rq) n ≠ [] → lines_of n ordered = hm_get_all (rq_headers rq) n) ∧
  (∀ n, hm_get_all (rq_headers rq) n = [] → (length (lines_of n ordered) ≤ 1)%nat) ∧
  rq' = with_headers (rq_headers rq') rq ∧
  ∃ order ctx,
    sublist (base_order e options) order ∧
    (∀ s, s ∈ order → s ∈ base_order e options ∨ s ∈ extra_slots (e_prepared e)) ∧
    ordered = (firsts [] order ≫= wire (rq_headers rq) ctx) ++
      filter (λ kv, kv.1 ∉ order_names order) (hm_iter (rq_headers rq)).
Proof.
  intros (target & ctx & _ & Hap)%apply_applied.
  assert (Hval : ∀ n, (hm_get_all (rq_headers rq) n ≠ [] → lines_of n ordered = hm_get_all (rq_headers rq) n) ∧
    (hm_get_all (rq_headers rq) n = [] → (length (lines_of n ordered) ≤ 1)%nat)).
  { intros n. rewrite <- (ap_map _ _ _ _ _ _ _ _ Hap).
    destruct (applied_values _ _ _ _ _ _ _ _ n Hap) as [(s & _ & <- & ->)|(_ & ->)]; [|split; [done|]; intros ->; simpl; lia].
    unfold wire_values. destruct (hm_get_all _ _) as [|v l]; [|done]. split; [done|]. intros _.
    destruct (slot_value e ctx s) as [[v|]|]; simpl; lia. }
  split; [by apply Hap|]. split; [apply Hval|]. split; [apply Hval|]. split; [by apply Hap|].
  exists (order_for e options ctx), ctx. unfold order_for.
  destruct (build_order_spec (base_order e options) (e_prepared e) (bool_decide (is_Some (c_host_value ctx)))
    (bool_decide (is_Some (c_origin_header ctx))) (bool_decide (is_Some (c_referer ctx)))
    (c_user_activated ctx) (c_granted ctx)) as [[Hsub Hin] _].
  split; [done|]. split; [done|]. apply Hap.
Qed.
End Facts.

(** ** The values the engine computes *)

Section Values.
Context `{HeaderValueLaws} `{HeaderMapLaws} `{UrlEditApi} `{!UrlReferrer} `{Psl}.

(** The names whose value depends on the request rather than on the profile, and
    which the engine sends wherever the profile does not list them. *)
Definition request_dependent : list (str * DynamicValue) :=
  [(b#"host", DynHost); (b#"origin", DynOrigin); (b#"referer", DynReferer);
   (b#"sec-fetch-user", DynSecFetchUser)] ++
  ((λ h, (hint_header_name h, DynHint h)) <$> ALL_IN_EMIT_ORDER).

Definition own_slot (nd : str * DynamicValue) : Slot := mk_slot nd.1 nd.1 (Dynamic nd.2).

Lemma request_dependent_unique n d d' :
  (n, d) ∈ request_dependent → (n, d') ∈ request_dependent → d = d'.
Proof.
  intros [i Hi]%list_elem_of_lookup [j Hj]%list_elem_of_lookup.
  assert (i = j) as <-; [|congruence].
  assert (Hnd : NoDup (request_dependent.*1)) by (apply (bool_decide_unpack _); vm_compute; exact I).
  eapply NoDup_lookup; [done| |]; rewrite list_lookup_fmap; [by rewrite Hi|by rewrite Hj].
Qed.

Lemma request_dependent_token n d :
  (n, d) ∈ request_dependent →
  n ≠ [] ∧ Forall (λ c, is_token c = true) n ∧ (zlen n <= 65535)%Z ∧ to_ascii_lowercase n = n.
Proof.
  intros Hn.
  assert (Hall : forallb (λ nd : str * DynamicValue, bool_decide (nd.1 ≠ []) && forallb is_token nd.1 &&
    Z.leb (zlen nd.1) 65535 && bool_decide (to_ascii_lowercase nd.1 = nd.1)) request_dependent = true)
    by (vm_compute; reflexivity).
  rewrite forallb_Forall, Forall_forall in Hall. specialize (Hall _ Hn). cbn [fst] in Hall. bool_prop.
  destruct Hall as [[[? Ht] ?] ?]. apply forallb_Forall in Ht. done.
Qed.

Lemma slot_own n d : (n, d) ∈ request_dependent → slot n (Dynamic d) = Some (own_slot (n, d)).
Proof.
  intros (Hne & Ht & Hlen & Hl)%request_dependent_token. unfold slot.
  by rewrite header_name_token, Hl by done.
Qed.

Lemma build_eq profile hints :
  build profile hints = Some (mk_prepared
    (plan_of (navigate_order (header_order profile)) profile)
    (plan_of (subresource_or_navigate (header_order profile)) profile)
    (own_slot (b#"host", DynHost)) (own_slot (b#"origin", DynOrigin)) (own_slot (b#"referer", DynReferer))
    (own_slot (b#"sec-fetch-user", DynSecFetchUser))
    ((λ h, own_slot (hint_header_name h, DynHint h)) <$> ALL_IN_EMIT_ORDER)
    (prepared_value (accept profile))
    ((λ hint, match value_for hints hint with Some value => prepared_value value | None => Missing end)
       <$> ALL_IN_EMIT_ORDER)).
Proof.
  assert (Hh : ∀ h, slot (hint_header_name h) (Dynamic (DynHint h)) = Some (own_slot (hint_header_name h, DynHint h))).
  { intros h. apply slot_own. unfold request_dependent. apply elem_of_app. right.
    apply list_elem_of_fmap. exists h. split; [done|]. destruct h; unfold ALL_IN_EMIT_ORDER; set_solver. }
  unfold build, known_slot. rewrite !slot_own by (unfold request_dependent; set_solver). cbn [mbind option_bind].
  do 2 f_equal. unfold ALL_IN_EMIT_ORDER. cbn [omap list_omap]. by rewrite !Hh.
Qed.

(** Preparing a profile never panics. *)
Lemma build_total profile hints : is_Some (build profile hints).
Proof. rewrite build_eq. by eexists. Qed.

Lemma classify_own n d profile : (n, d) ∈ request_dependent → classify n profile = Dynamic d.
Proof.
  intros Hn. assert (Hall : Forall (λ nd : str * DynamicValue, classify nd.1 profile = Dynamic nd.2) request_dependent)
    by (repeat constructor).
  rewrite Forall_forall in Hall. exact (Hall _ Hn).
Qed.

(** A profile whose captured orders are spelled the way HTTP/2 sends them. *)
Definition lowercase_orders (p : Profile) : Prop :=
  Forall (λ n, to_ascii_lowercase n = n) (navigate_order (header_order p)) ∧
  Forall (λ n, to_ascii_lowercase n = n) (subresource_or_navigate (header_order p)).

(** An engine built from such a profile. *)
Definition built (e : HeaderEngine) : Prop :=
  lowercase_orders (e_profile e) ∧ build (e_profile e) (e_high_entropy e) = Some (e_prepared e).

Lemma plan_of_slots order profile s :
  Forall (λ n, to_ascii_lowercase n = n) order → s ∈ plan_of order profile →
  s_header_name s = s_name s ∧ s_value s = classify (s_name s) profile.
Proof.
  intros Hlow (name & Hin & Hs)%list_elem_of_omap. unfold slot in Hs.
  destruct (header_name name) as [n|] eqn:Hn; [|done]. injection Hs as <-. simpl.
  apply header_name_Some in Hn as ->. rewrite Forall_forall in Hlow. by rewrite Hlow.
Qed.

Lemma order_slots e options ctx s :
  built e → s ∈ order_for e options ctx →
  s_header_name s = s_name s ∧ ∀ d, (s_name s, d) ∈ request_dependent → s_value s = Dynamic d.
Proof.
  intros [[Hl1 Hl2] Hb] Hs.
  destruct (build_order_spec (base_order e options) (e_prepared e) (bool_decide (is_Some (c_host_value ctx)))
    (bool_decide (is_Some (c_origin_header ctx))) (bool_decide (is_Some (c_referer ctx)))
    (c_user_activated ctx) (c_granted ctx)) as [[_ Hin] _].
  rewrite build_eq in Hb. injection Hb as Hb. apply Hin in Hs as [Hs|Hs].
  - assert (s_header_name s = s_name s ∧ s_value s = classify (s_name s) (e_profile e)) as [-> ->].
    { unfold base_order in Hs. rewrite <- Hb in Hs. case_decide; by eapply plan_of_slots; [|apply Hs]. }
    split; [done|]. intros d. apply classify_own.
  - replace (extra_slots (e_prepared e)) with (own_slot <$> request_dependent) in Hs by (by rewrite <- Hb).
    apply list_elem_of_fmap in Hs as ([n d] & -> & Hnd).
    split; [done|]. intros d' Hd'. simpl in *. by rewrite (request_dependent_unique n d d').
Qed.

Lemma request_value_Some v w : request_value v = inl w → w = v.
Proof.
  unfold request_value. destruct v as [v|]; [|by intros [= <-]].
  destruct (from_bytes v) eqn:Hv; [|done]. intros [= <-]. by apply from_bytes_Some in Hv as ->.
Qed.

Lemma context_spec rq url options granted target ctx :
  context_of rq url options granted target = inl ctx →
  c_options ctx = options ∧ c_fetch_site ctx = fetch_site (opt_initiator options) target ∧
  c_referer ctx = (from ← opt_referrer options; referrer_for from url) ∧
  c_origin_header ctx = origin_header_value (opt_mode options) (rq_method rq) (opt_initiator options) target ∧
  c_host_value ctx = (if needs_host (rq_version rq) then host_header_value url else None) ∧
  c_user_activated ctx = rq_user_activated rq ∧ c_granted ctx = granted.
Proof.
  unfold context_of.
  destruct (request_value (origin_header_value _ _ _ _)) as [o|] eqn:Ho; [|done].
  destruct (request_value (opt_referrer options ≫= _)) as [r|] eqn:Hr; [|done].
  apply request_value_Some in Ho as ->, Hr as ->.
  destruct (needs_host (rq_version rq)).
  - destruct (request_value (host_header_value url)) as [h|] eqn:Hh; [|done].
    apply request_value_Some in Hh as ->. by intros [= <-].
  - by intros [= <-].
Qed.

(** A name the engine owns carries what the request says it should, if the order
    lists it whenever there is something to send. *)
Lemma own_values e rq url options store rq' ordered target ctx n d :
  built e → applied e rq url options store rq' ordered target ctx → (n, d) ∈ request_dependent →
  hm_get_all (rq_headers rq) n = [] →
  (dynamic_value e d ctx = inl None ∨ contains (order_for e options ctx) n = true) →
  ∃ v, dynamic_value e d ctx = inl v ∧ hm_get_all (rq_headers rq') n = option_list v.
Proof.
  intros Hb Hap Hd Hc Hlisted.
  destruct (applied_values e _ _ _ _ _ _ _ _ n Hap) as [(s & Hs & Hn & ->)|[Hn ->]].
  - assert (Hin : s ∈ order_for e options ctx) by (eapply elem_of_sublist; [done|apply firsts_sublist]).
    destruct (order_slots e options ctx s Hb Hin) as [Hname Hval].
    rewrite <- Hn in Hc. destruct (ap_values _ _ _ _ _ _ _ _ _ Hap s Hs Hc) as [v Hv].
    unfold wire_values. rewrite Hc, Hv. exists v. split; [|done].
    unfold slot_value in Hv. rewrite (Hval d) in Hv by congruence. done.
  - destruct Hlisted as [Hnone|(s & Hs & Hname)%contains_true].
    + exists None. by rewrite Hnone, Hc.
    + destruct Hn. destruct (order_slots e options ctx s Hb Hs) as [Hname' _].
      apply list_elem_of_fmap. exists s. split; [by rewrite Hname'|done].
Qed.

Lemma hint_value_eq e h :
  build (e_profile e) (e_high_entropy e) = Some (e_prepared e) →
  hint_value (e_prepared e) h =
  match value_for (e_high_entropy e) h with Some value => prepared_value value | None => Missing end.
Proof. rewrite build_eq. intros [= <-]. by destruct h. Qed.

Lemma hint_dependent h : (hint_header_name h, DynHint h) ∈ request_dependent.
Proof.
  unfold request_dependent. apply elem_of_app. right. apply list_elem_of_fmap. exists h.
  split; [done|]. destruct h; unfold ALL_IN_EMIT_ORDER; set_solver.
Qed.

Lemma hint_sent e rq url options store rq' ordered target ctx h :
  built e → applied e rq url options store rq' ordered target ctx →
  hm_get_all (rq_headers rq) (hint_header_name h) = [] →
  hm_get_all (rq_headers rq') (hint_header_name h) =
  if decide (h ∈ hints_for store target) then option_list (value_for (e_high_entropy e) h) else [].
Proof.
  intros Hb Hap Hc.
  destruct (context_spec _ _ _ _ _ _ (ap_ctx _ _ _ _ _ _ _ _ _ Hap)) as (_ & _ & _ & _ & _ & _ & Hg).
  destruct (own_values e _ _ _ _ _ _ _ _ _ (DynHint h) Hb Hap (hint_dependent h) Hc) as (v & Hv & ->).
  - cbn [dynamic_value]. case_bool_decide as Hh; cbn [negb]; [right|by left].
    destruct (build_order_spec (base_order e options) (e_prepared e) (bool_decide (is_Some (c_host_value ctx)))
      (bool_decide (is_Some (c_origin_header ctx))) (bool_decide (is_Some (c_referer ctx)))
      (c_user_activated ctx) (c_granted ctx)) as (_ & _ & _ & _ & _ & Chints).
    refine (Chints (own_slot (hint_header_name h, DynHint h)) h _ eq_refl Hh).
    pose proof (proj2 Hb) as Hbuild. rewrite build_eq in Hbuild. injection Hbuild as <-.
    destruct h; cbn; set_solver.
  - revert Hv. cbn [dynamic_value]. rewrite Hg, (hint_value_eq e h (proj2 Hb)).
    case_bool_decide as Hh; cbn [negb]; [rewrite decide_True by done|rewrite decide_False by done; by intros [= <-]].
    destruct (value_for (e_high_entropy e) h) as [x|]; [|by intros [= <-]].
    unfold prepared_value. destruct (from_str x) eqn:Hx; [|done]. intros [= <-].
    by apply from_str_Some in Hx as ->.
Qed.

(** What a request's own circumstances put on it, for a browser profile recorded
    the way HTTP/2 spells names and a name the caller did not set: [Host] with the
    URL's authority exactly on HTTP/1.x; [Origin] exactly on an unsafe or
    cross-origin fetch that has an initiator; [Referer] exactly as the referrer
    policy allows; [Sec-Fetch-User] exactly on a user activation; and a
    high-entropy client hint exactly when this origin was granted it and the
    profile has a value for it - each once, whether or not the capture lists it. *)
Theorem request_headers_exact e rq url options store rq' store' ordered target :
  built e → apply e rq url options store = (rq', store', inl ordered) → origin_of url = inl target →
  let sent n := hm_get_all (rq_headers rq') n in
  let unset n := hm_get_all (rq_headers rq) n = [] in
  (unset b#"host" →
    sent b#"host" = option_list (if needs_host (rq_version rq) then host_header_value url else None)) ∧
  (unset b#"origin" →
    sent b#"origin" =
    option_list (origin_header_value (opt_mode options) (rq_method rq) (opt_initiator options) target)) ∧
  (unset b#"referer" → sent b#"referer" = option_list (from ← opt_referrer options; referrer_for from url)) ∧
  (unset b#"sec-fetch-user" → sent b#"sec-fetch-user" = if rq_user_activated rq then [b#"?1"] else []) ∧
  (∀ h, unset (hint_header_name h) →
    sent (hint_header_name h) =
    if decide (h ∈ hints_for store target) then option_list (value_for (e_high_entropy e) h) else []).
Proof.
  intros Hb Happ Ht. cbv zeta. apply apply_applied in Happ as (target' & ctx & _ & Hap).
  assert (target' = target) as -> by (pose proof (ap_target _ _ _ _ _ _ _ _ _ Hap); congruence).
  destruct (context_spec _ _ _ _ _ _ (ap_ctx _ _ _ _ _ _ _ _ _ Hap)) as (_ & _ & Hr & Ho & Hh & Hu & Hg).
  destruct (build_order_spec (base_order e options) (e_prepared e) (bool_decide (is_Some (c_host_value ctx)))
    (bool_decide (is_Some (c_origin_header ctx))) (bool_decide (is_Some (c_referer ctx)))
    (c_user_activated ctx) (c_granted ctx)) as (_ & Chost & Corigin & Creferer & Cuser & Chints).
  fold (order_for e options ctx) in *.
  pose proof (proj2 Hb) as Hbuild. rewrite build_eq in Hbuild. injection Hbuild as Hbuild.
  rewrite <- Hbuild in Chost, Corigin, Creferer, Cuser, Chints. cbn [p_host p_origin p_referer p_sec_fetch_user p_hints s_name own_slot fst] in *.
  assert (Hown : ∀ n d v, (n, d) ∈ request_dependent → dynamic_value e d ctx = inl v →
    hm_get_all (rq_headers rq) n = [] → (v ≠ None → contains (order_for e options ctx) n = true) →
    hm_get_all (rq_headers rq') n = option_list v).
  { intros n d v Hd Hv Hc Hlist. destruct (own_values e _ _ _ _ _ _ _ _ n d Hb Hap Hd Hc) as (v' & Hv' & ->); [|congruence].
    destruct v as [v|]; [right; by apply Hlist|by left]. }
  assert (Hsome : ∀ v : option str, v ≠ None → bool_decide (is_Some v) = true)
    by (intros [] ?; [by apply bool_decide_eq_true|done]).
  split; [|split; [|split; [|split]]].
  - intros Hc. rewrite <- Hh. apply (Hown _ DynHost); [unfold request_dependent; set_solver|done|done|].
    intros Hv. destruct (Chost (Hsome _ Hv)) as [|Hin]; [done|]. apply contains_true. by eexists.
  - intros Hc. rewrite <- Ho. apply (Hown _ DynOrigin); [unfold request_dependent; set_solver|done|done|auto].
  - intros Hc. rewrite <- Hr. apply (Hown _ DynReferer); [unfold request_dependent; set_solver|done|done|auto].
  - intros Hc. rewrite (Hown b#"sec-fetch-user" DynSecFetchUser (if rq_user_activated rq then Some b#"?1" else None)).
    + by destruct (rq_user_activated rq).
    + unfold request_dependent; set_solver.
    + cbn [dynamic_value]. by rewrite Hu.
    + done.
    + intros Hv. apply Cuser. rewrite Hu. by destruct (rq_user_activated rq).
  - intros h Hc. by apply (hint_sent e rq url options store rq' ordered target ctx).
Qed.

(** ** The names the engine never sets *)

Definition engine_names : list str :=
  [b#"sec-ch-ua"; b#"sec-ch-ua-mobile"; b#"sec-ch-ua-platform"; b#"sec-ch-ua-platform-version";
   b#"sec-ch-ua-arch"; b#"sec-ch-ua-bitness"; b#"sec-ch-ua-full-version-list"; b#"sec-ch-ua-model";
   b#"upgrade-insecure-requests"; b#"user-agent"; b#"accept"; b#"sec-fetch-site"; b#"sec-fetch-mode";
   b#"sec-fetch-user"; b#"sec-fetch-dest"; b#"referer"; b#"origin"; b#"accept-encoding";
   b#"accept-language"; b#"priority"; b#"host"].

Lemma classify_absent name profile :
  to_ascii_lowercase name ∉ engine_names → classify name profile = Absent.
Proof.
  intros Hn. assert (Hne : ∀ n, to_ascii_lowercase n = n → n ∈ engine_names → name ≠ n)
    by (intros n Hl Hin ->; by rewrite Hl in Hn).
  unfold classify.
  repeat (rewrite decide_False by (apply Hne; [reflexivity|unfold engine_names; repeat constructor])).
  done.
Qed.

Lemma request_dependent_names n d : (n, d) ∈ request_dependent → n ∈ engine_names.
Proof.
  intros Hn. assert (Hall : forallb (λ nd : str * DynamicValue, bool_decide (nd.1 ∈ engine_names)) request_dependent = true)
    by (vm_compute; reflexivity).
  rewrite forallb_Forall, Forall_forall in Hall. specialize (Hall _ Hn). by apply bool_decide_eq_true in Hall.
Qed.

Lemma order_slots_absent e options ctx s :
  build (e_profile e) (e_high_entropy e) = Some (e_prepared e) → s ∈ order_for e options ctx →
  s_header_name s ∉ engine_names → s_value s = Absent.
Proof.
  intros Hb Hs Hn.
  destruct (build_order_spec (base_order e options) (e_prepared e) (bool_decide (is_Some (c_host_value ctx)))
    (bool_decide (is_Some (c_origin_header ctx))) (bool_decide (is_Some (c_referer ctx)))
    (c_user_activated ctx) (c_granted ctx)) as [[_ Hin] _].
  rewrite build_eq in Hb. injection Hb as Hb. apply Hin in Hs as [Hs|Hs].
  - assert (∃ order, s ∈ plan_of order (e_profile e)) as (order & (name & _ & Hslot)%list_elem_of_omap).
    { unfold base_order in Hs. rewrite <- Hb in Hs. case_decide; eauto. }
    unfold slot in Hslot. destruct (header_name name) as [n|] eqn:Hname; [|done]. injection Hslot as <-.
    apply header_name_Some in Hname as ->. by apply classify_absent.
  - replace (extra_slots (e_prepared e)) with (own_slot <$> request_dependent) in Hs by (by rewrite <- Hb).
    apply list_elem_of_fmap in Hs as ([n d] & -> & Hnd).
    destruct Hn. by eapply request_dependent_names.
Qed.

(** A name the engine has no value for goes out exactly as the caller set it. *)
Lemma apply_other_names e rq url options store rq' store' ordered n :
  build (e_profile e) (e_high_entropy e) = Some (e_prepared e) →
  apply e rq url options store = (rq', store', inl ordered) → n ∉ engine_names →
  lines_of n ordered = hm_get_all (rq_headers rq) n ∧
  hm_get_all (rq_headers rq') n = hm_get_all (rq_headers rq) n.
Proof.
  intros Hb (target & ctx & _ & Hap)%apply_applied Hn.
  rewrite <- (ap_map _ _ _ _ _ _ _ _ _ Hap).
  assert (hm_get_all (rq_headers rq') n = hm_get_all (rq_headers rq) n) as ->; [|done].
  destruct (applied_values e _ _ _ _ _ _ _ _ n Hap) as [(s & Hs & Hname & ->)|[_ ->]]; [|done].
  unfold wire_values, slot_value.
  assert (Hin : s ∈ order_for e options ctx) by (eapply elem_of_sublist; [done|apply firsts_sublist]).
  rewrite (order_slots_absent e options ctx s Hb Hin), Hname by (by rewrite Hname).
  by destruct (hm_get_all (rq_headers rq) n).
Qed.
End Values.
