(* ===== verification/Session.v ===== *)
(** [chromulate-http]: what a client keeps per exit address, and what it keeps once
    (src/crates/chromulate-http/src/session.rs; [with_session] and [seed_session] of
    src/crates/chromulate-http/src/engine.rs).

    A session is shared by reference: the route map holds one handle, every request
    in flight holds its own, and a route that is evicted leaves the handles of its
    requests alive.  So sessions live in an arena and a handle is an index; index 0
    is the base session.  A lookup that misses drops the read lock before it takes
    the write lock, so [session_for] is two atomic steps, [lookup_route] and
    [mint_route], which other requests may come between.

    The validator store of the [validator-store] feature is left out. *)
From S2P Require Import Prelude RustStr Origin ClientHints.
Local Open Scope Z_scope.

Inductive ProxyIsolation := Shared | PerProxy (max_routes : Z).

Definition DEFAULT_MAX_ROUTES : Z := 32.
Definition per_proxy_isolation : ProxyIsolation := PerProxy DEFAULT_MAX_ROUTES.
Definition is_per_proxy (i : ProxyIsolation) : bool :=
  match i with PerProxy _ => true | Shared => false end.

Section Sessions.
(** A cookie store. *)
Context {J : Type}.

Record Session := mk_session { ses_cookies : option J; ses_accept_ch : AcceptChStore }.

Record Entry := mk_entry { en_session : nat; last_use_seq : Z }.

(** [factory] is the store the session factory mints: a fresh, empty one. *)
Record Isolated := mk_isolated {
  routes : gmap str Entry;
  seq : Z;
  max_routes : Z;
  factory : option J;
  accept_ch_limits : Z;
}.

Record Sessions := mk_sessions { arena : list Session; isolated : option Isolated }.

Definition BASE : nat := 0.

Definition shared (cookies : option J) : Sessions :=
  mk_sessions [mk_session cookies new_accept_ch] None.

Definition per_proxy (cookies : option J) (max_routes : Z) (factory : option J) : Sessions :=
  mk_sessions [mk_session cookies new_accept_ch]
    (Some (mk_isolated ∅ 0 (Z.max max_routes 1) factory (origins_limit new_accept_ch))).

Definition isolation (s : Sessions) : ProxyIsolation :=
  match isolated s with Some i => PerProxy (max_routes i) | None => Shared end.

Definition isolated_routes (s : Sessions) : Z :=
  match isolated s with Some i => Z.of_nat (size (routes i)) | None => 0 end.

(** [evict], on the map it is handed. *)
Definition evict_routes (i : Isolated) (m : gmap str Entry) : gmap str Entry :=
  evict_min last_use_seq (size m) (max_routes i) m.

Definition with_routes (m : gmap str Entry) (i : Isolated) : Isolated :=
  mk_isolated m (seq i) (max_routes i) (factory i) (accept_ch_limits i).

(** [seq.fetch_add(1)]. *)
Definition tick (i : Isolated) : Z * Isolated :=
  (seq i, mk_isolated (routes i) (wrap64 (seq i + 1)) (max_routes i) (factory i) (accept_ch_limits i)).

Definition mint (i : Isolated) : Session :=
  mk_session (factory i) (accept_ch_with_limits (accept_ch_limits i)).

(** A hit under either lock: the use is recorded and the handle handed out. *)
Definition use_route (proxy : str) (n : Z) (i : Isolated) : option (nat * Isolated) :=
  match routes i !! proxy with
  | Some entry =>
      Some (en_session entry, with_routes (<[proxy := mk_entry (en_session entry) n]> (routes i)) i)
  | None => None
  end.

(** The part of [session_for] under the read lock: the handle, or the sequence
    number this use was given. *)
Definition lookup_route (proxy : str) (i : Isolated) : (nat + Z) * Isolated :=
  let '(n, i) := tick i in
  match use_route proxy n i with
  | Some (sid, i) => (inl sid, i)
  | None => (inr n, i)
  end.

(** The part of [session_for] under the write lock. *)
Definition mint_route (proxy : str) (n : Z) (ar : list Session) (i : Isolated) : nat * list Session * Isolated :=
  match use_route proxy n i with
  | Some (sid, i) => (sid, ar, i)
  | None =>
      let sid := length ar in
      let m := <[proxy := mk_entry sid n]> (routes i) in
      (sid, ar ++ [mint i], with_routes (evict_routes i m) i)
  end.

(** [session_for] with nothing in between. *)
Definition session_for (proxy : str) (ar : list Session) (i : Isolated) : nat * list Session * Isolated :=
  match lookup_route proxy i with
  | (inl sid, i) => (sid, ar, i)
  | (inr n, i) => mint_route proxy n ar i
  end.

Definition existing (proxy : str) (i : Isolated) : option nat * Isolated :=
  let '(n, i) := tick i in
  match use_route proxy n i with
  | Some (sid, i) => (Some sid, i)
  | None => (None, i)
  end.

Definition for_route (proxy : option str) (s : Sessions) : nat * Sessions :=
  match isolated s, proxy with
  | Some i, Some proxy =>
      let '(sid, ar, i) := session_for proxy (arena s) i in (sid, mk_sessions ar (Some i))
  | _, _ => (BASE, s)
  end.

Definition existing_route (proxy : option str) (s : Sessions) : option nat * Sessions :=
  match proxy with
  | None => (Some BASE, s)
  | Some proxy =>
      match isolated s with
      | None => (None, s)
      | Some i => let '(sid, i) := existing proxy i in (sid, mk_sessions (arena s) (Some i))
      end
  end.

(** Editing a session through a handle. *)
Definition edit_session (sid : nat) (f : Session → Session) (s : Sessions) : Sessions :=
  mk_sessions (alter f sid (arena s)) (isolated s).

(** [Session::record_accept_ch]. *)
Definition record_accept_ch (origin : Origin) (value : str) (ses : Session) : Session :=
  mk_session (ses_cookies ses) (record origin value (ses_accept_ch ses)).

(** [Engine::with_session] and [Engine::seed_session]. *)
Definition with_session (exit : option str) (edit : Session → Session) (s : Sessions) : bool * Sessions :=
  match existing_route exit s with
  | (Some sid, s) => (true, edit_session sid edit s)
  | (None, s) => (false, s)
  end.

Definition seed_session (exit : option str) (edit : Session → Session) (s : Sessions) : Sessions :=
  let '(sid, s) := for_route exit s in edit_session sid edit s.

(** ** Requests in flight *)

(** A request that missed under the read lock waits for the write lock with the
    number it drew; one that has its session holds a handle until it ends.  The
    handle is labelled with the exit it was taken for, [None] being a direct
    request, or any request at all of an engine that shares one session. *)
Record World := mk_world {
  sessions : Sessions;
  waiting : list (str * Z);
  holding : list (option str * nat);
}.

(** What one step does, as the request that takes it sees it. *)
Inductive Act :=
  | Takes (x : option str) (sid : nat)
  | Misses (p : str)
  | Finds (p : str) (sid : option nat)
  | Learns (x : option str) (sid : nat) (f : Session → Session)
  | Ends (x : option str) (sid : nat).

Inductive acts : World → Act → World → Prop :=
  | Step_base s w h : acts (mk_world s w h) (Takes None BASE) (mk_world s w ((None, BASE) :: h))
  | Step_hit ar i w h p sid i' :
      lookup_route p i = (inl sid, i') →
      acts (mk_world (mk_sessions ar (Some i)) w h) (Takes (Some p) sid)
        (mk_world (mk_sessions ar (Some i')) w ((Some p, sid) :: h))
  | Step_miss ar i w h p n i' :
      lookup_route p i = (inr n, i') →
      acts (mk_world (mk_sessions ar (Some i)) w h) (Misses p) (mk_world (mk_sessions ar (Some i')) ((p, n) :: w) h)
  | Step_mint ar i w1 w2 h p n sid ar' i' :
      mint_route p n ar i = (sid, ar', i') →
      acts (mk_world (mk_sessions ar (Some i)) (w1 ++ (p, n) :: w2) h) (Takes (Some p) sid)
        (mk_world (mk_sessions ar' (Some i')) (w1 ++ w2) ((Some p, sid) :: h))
  | Step_existing ar i w h p sid i' :
      existing p i = (sid, i') →
      acts (mk_world (mk_sessions ar (Some i)) w h) (Finds p sid)
        (mk_world (mk_sessions ar (Some i')) w (option_list ((λ n, (Some p, n)) <$> sid) ++ h))
  | Step_edit s w h x sid f :
      (x, sid) ∈ h → acts (mk_world s w h) (Learns x sid f) (mk_world (edit_session sid f s) w h)
  | Step_end s w h1 h2 x sid :
      acts (mk_world s w (h1 ++ (x, sid) :: h2)) (Ends x sid) (mk_world s w (h1 ++ h2)).

Definition step (w w' : World) : Prop := ∃ a, acts w a w'.

(** What the origins see: the base session, and the session of each exit that has one. *)
Record Spec := mk_spec { spec_base : option Session; spec_exits : gmap str Session }.

(** What a fresh session is, and how many exits may hold one; nothing when all
    routes share one session. *)
Definition configured (s : Sessions) : option (Session * Z) :=
  (λ i, (mint i, max_routes i)) <$> isolated s.

(** ** The specification: every exit has a session of its own *)

(** Sessions by name, each with the exit it belongs to, [None] being the direct
    route; the session each exit has now; the sessions in the hands of requests. *)
Record Registry := mk_registry {
  reg_sessions : gmap nat (option str * Session);
  reg_exits : gmap str nat;
  reg_held : list (option str * nat);
}.

(** The base session and nothing else. *)
Definition start_registry (base : Session) : Registry := mk_registry {[BASE := (None, base)]} ∅ [].

(** A direct request takes the base session.  A request through an exit takes the
    session the exit has, which is the exit's own; when it has none, a session
    nobody has ever held is made for it, and other exits lose theirs only when they
    would be too many.  What a request learns goes to the session it holds, which
    is its own exit's, and to no other.  There are no locks, no sequence numbers
    and no races here. *)
Inductive private (conf : option (Session * Z)) : Registry → Act → Registry → Prop :=
  | Private_direct m ex h :
      private conf (mk_registry m ex h) (Takes None BASE) (mk_registry m ex ((None, BASE) :: h))
  | Private_known m ex h p sid ses :
      ex !! p = Some sid → m !! sid = Some (Some p, ses) →
      private conf (mk_registry m ex h) (Takes (Some p) sid) (mk_registry m ex ((Some p, sid) :: h))
  | Private_fresh m ex ex' h p sid fresh max :
      conf = Some (fresh, max) → ex !! p = None → m !! sid = None →
      ex' ⊆ <[p := sid]> ex → Z.of_nat (size ex') <= max →
      (Z.of_nat (size ex) < max → ex' = <[p := sid]> ex) →
      private conf (mk_registry m ex h) (Takes (Some p) sid)
        (mk_registry (<[sid := (Some p, fresh)]> m) ex' ((Some p, sid) :: h))
  | Private_miss m ex h p :
      ex !! p = None → private conf (mk_registry m ex h) (Misses p) (mk_registry m ex h)
  | Private_find m ex h p sid :
      ex !! p = sid → (∀ n, sid = Some n → ∃ ses, m !! n = Some (Some p, ses)) →
      private conf (mk_registry m ex h) (Finds p sid)
        (mk_registry m ex (option_list ((λ n, (Some p, n)) <$> sid) ++ h))
  | Private_learn m ex h x sid f ses :
      (x, sid) ∈ h → m !! sid = Some (x, ses) →
      private conf (mk_registry m ex h) (Learns x sid f) (mk_registry (<[sid := (x, f ses)]> m) ex h)
  | Private_end m ex h1 h2 x sid :
      private conf (mk_registry m ex (h1 ++ (x, sid) :: h2)) (Ends x sid) (mk_registry m ex (h1 ++ h2)).

(** Several steps, with what each did. *)
Inductive history {S : Type} (R : S → Act → S → Prop) : S → list Act → S → Prop :=
  | History_nil s : history R s [] s
  | History_cons s1 a s2 l s3 : R s1 a s2 → history R s2 l s3 → history R s1 (a :: l) s3.

Definition live (s : Sessions) : gmap str Entry :=
  match isolated s with Some i => routes i | None => ∅ end.

(** The sessions as the origins see them. *)
Definition view (s : Sessions) : Spec :=
  mk_spec (arena s !! BASE) (omap (λ e, arena s !! en_session e) (live s)).

(** The registry a world stands for: the same sessions under the same names, the
    same routes - when each was last used aside - and the same handles. *)
Definition implements (r : Registry) (w : World) : Prop :=
  (∀ sid, snd <$> reg_sessions r !! sid = arena (sessions w) !! sid) ∧
  reg_exits r = en_session <$> live (sessions w) ∧ reg_held r = holding w.

(** [owners] says which exit each session in the arena was made for. *)
Record world_ok (owners : list (option str)) (w : World) : Prop := {
  ok_length : length owners = length (arena (sessions w));
  ok_base sid : owners !! sid = Some None ↔ sid = BASE;
  ok_routes p e : live (sessions w) !! p = Some e → owners !! en_session e = Some (Some p);
  ok_handles x sid : (x, sid) ∈ holding w → owners !! sid = Some x;
  ok_bound i : isolated (sessions w) = Some i →
    1 <= max_routes i ∧ Z.of_nat (size (routes i)) <= max_routes i;
}.

Definition initial (s : Sessions) : Prop :=
  (∃ cookies, s = shared cookies) ∨ ∃ cookies max factory, s = per_proxy cookies max factory.

Lemma initial_ok s : initial s → world_ok [None] (mk_world s [] []).
Proof.
  assert (Hb : ∀ sid, [@None str] !! sid = Some None ↔ sid = BASE) by (by intros [|[|sid]]).
  intros [[c ->]|(c & m & f & ->)]; (split; [done|exact Hb|..]); simpl; intros *;
    rewrite ?lookup_empty; try done; try by intros Hx%elem_of_nil.
  intros [= <-]. simpl. rewrite map_size_empty. lia.
Qed.

Lemma use_route_Some p n i sid i' :
  use_route p n i = Some (sid, i') →
  ∃ e, routes i !! p = Some e ∧ sid = en_session e ∧ i' = with_routes (<[p := mk_entry sid n]> (routes i)) i.
Proof. unfold use_route. destruct (routes i !! p) as [e|]; [|done]. intros [= <- <-]. by exists e. Qed.

Lemma use_route_None p n i : use_route p n i = None → routes i !! p = None.
Proof. unfold use_route. by destruct (routes i !! p). Qed.

(** A change of the route map that only records uses. *)
Definition same_routes (i i' : Isolated) : Prop :=
  max_routes i' = max_routes i ∧ factory i' = factory i ∧ accept_ch_limits i' = accept_ch_limits i ∧
  (∀ p, en_session <$> routes i' !! p = en_session <$> routes i !! p) ∧ size (routes i') = size (routes i).

Lemma use_route_same p n i sid i' :
  use_route p n i = Some (sid, i') → same_routes i i' ∧ ∃ e, routes i !! p = Some e ∧ sid = en_session e.
Proof.
  intros (e & He & -> & ->)%use_route_Some. split; [|by exists e]. split; [done..|].
  split; [done|]. split; [done|]. split; [|simpl; by rewrite map_size_insert_Some by (by exists e)].
  intros q. simpl. destruct (decide (q = p)) as [->|]; [by rewrite lookup_insert_eq, He|by rewrite lookup_insert_ne].
Qed.

Lemma tick_same i : same_routes i (tick i).2.
Proof. done. Qed.

Lemma same_routes_trans i1 i2 i3 : same_routes i1 i2 → same_routes i2 i3 → same_routes i1 i3.
Proof. intros (?&?&?&Ha&?) (?&?&?&Hb&?). repeat split; congruence. Qed.

Lemma lookup_route_spec p i r i' :
  lookup_route p i = (r, i') →
  same_routes i i' ∧ match r with inl sid => ∃ e, routes i !! p = Some e ∧ sid = en_session e | inr _ => routes i !! p = None end.
Proof.
  unfold lookup_route. rewrite (surjective_pairing (tick i)).
  destruct (use_route p (tick i).1 (tick i).2) as [[sid i1]|] eqn:Hu; intros [= <- <-].
  - apply use_route_same in Hu as [Hs He]. split; [by eapply same_routes_trans; [apply tick_same|]|exact He].
  - split; [apply tick_same|]. by apply use_route_None in Hu.
Qed.

Lemma existing_spec p i r i' :
  existing p i = (r, i') →
  same_routes i i' ∧ r = en_session <$> routes i !! p.
Proof.
  unfold existing. rewrite (surjective_pairing (tick i)).
  destruct (use_route p (tick i).1 (tick i).2) as [[sid i1]|] eqn:Hu; intros [= <- <-].
  - apply use_route_same in Hu as [Hs He]. split; [by eapply same_routes_trans; [apply tick_same|]|].
    destruct He as (e & He & ->). change (routes i !! p = Some e) in He. by rewrite He.
  - split; [apply tick_same|]. apply use_route_None in Hu. change (routes i !! p = None) in Hu. by rewrite Hu.
Qed.

(** Recording uses changes nothing an origin can see. *)
Lemma view_same_routes ar i i' : same_routes i i' → view (mk_sessions ar (Some i')) = view (mk_sessions ar (Some i)).
Proof.
  intros (_ & _ & _ & Hr & _). unfold view. cbn [arena live isolated]. f_equal. apply map_eq. intros p.
  rewrite !lookup_omap. specialize (Hr p).
  destruct (routes i' !! p), (routes i !! p); simpl in *; try done. by injection Hr as ->.
Qed.

Lemma same_routes_ok owners ar i i' wt wt' h h' :
  world_ok owners (mk_world (mk_sessions ar (Some i)) wt h) → same_routes i i' →
  (∀ x sid, (x, sid) ∈ h' → (x, sid) ∈ h ∨ owners !! sid = Some x) →
  world_ok owners (mk_world (mk_sessions ar (Some i')) wt' h').
Proof.
  intros [Hl Hb Hr Hh Hbd] (Hm & _ & _ & Hen & Hsz) Hh'. unfold live in *. split; try done; simpl in *.
  - intros p e He. unfold live in He. simpl in He. specialize (Hen p). rewrite He in Hen. simpl in Hen. symmetry in Hen.
    apply fmap_Some in Hen as (e0 & He0 & ->). by apply Hr.
  - intros x sid [Hx|]%Hh'; [by apply Hh|done].
  - intros ? [= <-]. rewrite Hm, Hsz. by apply Hbd.
Qed.

Lemma mint_route_spec p n ar i sid ar' i' :
  mint_route p n ar i = (sid, ar', i') → 1 <= max_routes i → Z.of_nat (size (routes i)) <= max_routes i →
  (same_routes i i' ∧ ar' = ar ∧ ∃ e, routes i !! p = Some e ∧ sid = en_session e) ∨
  (routes i !! p = None ∧ sid = length ar ∧ ar' = ar ++ [mint i] ∧ max_routes i' = max_routes i ∧
   routes i' ⊆ <[p := mk_entry sid n]> (routes i) ∧ Z.of_nat (size (routes i')) <= max_routes i ∧
   (Z.of_nat (size (routes i)) < max_routes i → routes i' = <[p := mk_entry sid n]> (routes i)) ∧
   (∀ q e q' e', <[p := mk_entry sid n]> (routes i) !! q = Some e → routes i' !! q = None →
      routes i' !! q' = Some e' → last_use_seq e <= last_use_seq e')).
Proof.
  intros Hmint Hmax Hsz. unfold mint_route in Hmint.
  destruct (use_route p n i) as [[sid0 i0]|] eqn:Hu; injection Hmint as <- <- <-.
  { left. apply use_route_same in Hu as [? ?]. done. }
  right. apply use_route_None in Hu. split; [done|]. repeat (split; [done|]). unfold evict_routes.
  destruct (evict_min_spec last_use_seq (size (<[p := mk_entry (length ar) n]> (routes i))) (max_routes i)
    (<[p := mk_entry (length ar) n]> (routes i))) as (Hsub & Hsize & Hlru); [lia|done|].
  split; [done|]. split; [simpl; lia|]. split; [|done]. intros Hroom. apply map_subseteq_size_eq; [done|].
  assert (size (<[p := mk_entry (length ar) n]> (routes i)) = S (size (routes i))) by (by apply map_size_insert_None).
  cbn [routes with_routes]. lia.
Qed.

(** The registry, once it is known whose each session is. *)
Definition registry (owners : list (option str)) (w : World) : Registry :=
  mk_registry (map_seq 0 (zip owners (arena (sessions w)))) (en_session <$> live (sessions w)) (holding w).

Lemma registry_lookup owners w x sid :
  world_ok owners w → owners !! sid = Some x →
  ∃ ses, arena (sessions w) !! sid = Some ses ∧ reg_sessions (registry owners w) !! sid = Some (x, ses).
Proof.
  intros [Hl _ _ _ _] Hx. destruct (lookup_lt_is_Some_2 (arena (sessions w)) sid) as [ses Hs].
  { rewrite <- Hl. by eapply lookup_lt_Some. }
  exists ses. split; [done|]. simpl. by rewrite lookup_map_seq_0, lookup_zip_with, Hx, Hs.
Qed.

Lemma registry_implements owners w : world_ok owners w → implements (registry owners w) w.
Proof.
  intros Hok. split; [|done]. intros sid. destruct (owners !! sid) as [x|] eqn:Hx.
  - by destruct (registry_lookup _ _ _ _ Hok Hx) as (ses & -> & ->).
  - simpl. rewrite lookup_map_seq_0, lookup_zip_with, Hx. symmetry. apply lookup_ge_None_2.
    rewrite <- (ok_length _ _ Hok). by apply lookup_ge_None_1.
Qed.

Lemma registry_exit owners w p sid :
  world_ok owners w → en_session <$> live (sessions w) !! p = Some sid →
  ∃ ses, reg_sessions (registry owners w) !! sid = Some (Some p, ses).
Proof.
  intros Hok (e & He & ->)%fmap_Some. apply (ok_routes _ _ Hok) in He.
  destruct (registry_lookup _ _ _ _ Hok He) as (ses & _ & Hs). eauto.
Qed.

Lemma same_routes_exits i i' : same_routes i i' → en_session <$> routes i' = en_session <$> routes i.
Proof. intros (_ & _ & _ & Hr & _). apply map_eq. intros p. rewrite !lookup_fmap. apply Hr. Qed.

(** A step that only records a use leaves the registry alone but for its handles. *)
Lemma registry_same_routes owners ar i i' wt wt' h h' :
  same_routes i i' → registry owners (mk_world (mk_sessions ar (Some i')) wt' h') =
    mk_registry (reg_sessions (registry owners (mk_world (mk_sessions ar (Some i)) wt h)))
      (en_session <$> routes i) h'.
Proof. intros Hs. unfold registry. simpl. f_equal. by apply same_routes_exits. Qed.

Lemma same_routes_configured ar i i' :
  same_routes i i' → configured (mk_sessions ar (Some i')) = configured (mk_sessions ar (Some i)).
Proof. intros (Hm & Hf & Ha & _). unfold configured, mint. simpl. by rewrite Hm, Hf, Ha. Qed.

(** One step of the world is the same act on the registry, which may have one more
    session. *)
Definition simulated (owners : list (option str)) (w : World) (a : Act) (w' : World) : Prop :=
  ∃ new, world_ok (owners ++ new) w' ∧ configured (sessions w') = configured (sessions w) ∧
    private (configured (sessions w)) (registry owners w) a (registry (owners ++ new) w').

Lemma simulated_same owners w a w' :
  world_ok owners w' → configured (sessions w') = configured (sessions w) →
  private (configured (sessions w)) (registry owners w) a (registry owners w') → simulated owners w a w'.
Proof. intros Hok Hc Hp. exists []. by rewrite app_nil_r. Qed.

(** A request that found its exit's session. *)
Lemma step_hit_ok owners ar i i' wt wt' h p e :
  world_ok owners (mk_world (mk_sessions ar (Some i)) wt h) → same_routes i i' → routes i !! p = Some e →
  simulated owners (mk_world (mk_sessions ar (Some i)) wt h) (Takes (Some p) (en_session e))
    (mk_world (mk_sessions ar (Some i')) wt' ((Some p, en_session e) :: h)).
Proof.
  intros Hok Hs He. apply simulated_same.
  - eapply same_routes_ok; [exact Hok|exact Hs|]. intros x k [[= -> ->]|Hx]%elem_of_cons; [|by left].
    right. by apply (ok_routes _ _ Hok).
  - by apply same_routes_configured.
  - rewrite (registry_same_routes owners ar i i' wt wt' h _ Hs).
    destruct (registry_exit _ _ p (en_session e) Hok) as [ses Hses]. 
    { change (en_session <$> routes i !! p = Some (en_session e)). by rewrite He. }
    eapply Private_known; [by rewrite lookup_fmap, He|exact Hses].
Qed.

Lemma mint_route_limits p n ar i sid ar' i' :
  mint_route p n ar i = (sid, ar', i') → factory i' = factory i ∧ accept_ch_limits i' = accept_ch_limits i.
Proof. unfold mint_route, use_route. destruct (routes i !! p); by intros [= <- <- <-]. Qed.

(** A session made for [p], where nothing was evicted that the world still has. *)
Lemma world_ok_minted owners ar i i' wt wt' h p n :
  world_ok owners (mk_world (mk_sessions ar (Some i)) wt h) →
  routes i' ⊆ <[p := mk_entry (length ar) n]> (routes i) → max_routes i' = max_routes i →
  Z.of_nat (size (routes i')) <= max_routes i →
  world_ok (owners ++ [Some p])
    (mk_world (mk_sessions (ar ++ [mint i]) (Some i')) wt' ((Some p, length ar) :: h)).
Proof.
  intros [Hl Hb Hr Hh Hbd] Hsub Hmx Hsz'. destruct (Hbd i eq_refl) as [Hmax Hsz]. cbn [sessions arena] in Hl.
  assert (Hnew : (owners ++ [Some p]) !! length ar = Some (Some p)) by (by rewrite <- Hl, lookup_app_r, Nat.sub_diag by lia).
  split; simpl.
  - rewrite !length_app. simpl. congruence.
  - intros k. rewrite lookup_app, <- Hb. destruct (owners !! k) eqn:Hk; [done|].
    split; [|done]. by intros [_ [=]]%list_lookup_singleton_Some.
  - intros q e He. unfold live in He. simpl in He. eapply lookup_weaken in He; [|exact Hsub].
    apply lookup_insert_Some in He as [[<- <-]|[_ He]]; [done|]. apply lookup_app_l_Some. by apply Hr.
  - intros x k [[= -> ->]|Hx]%elem_of_cons; [done|]. apply lookup_app_l_Some. by apply Hh.
  - intros ? [= <-]. rewrite Hmx. lia.
Qed.

Lemma step_mint_ok owners ar i w w' h p n sid ar' i' :
  world_ok owners (mk_world (mk_sessions ar (Some i)) w h) → mint_route p n ar i = (sid, ar', i') →
  simulated owners (mk_world (mk_sessions ar (Some i)) w h) (Takes (Some p) sid)
    (mk_world (mk_sessions ar' (Some i')) w' ((Some p, sid) :: h)).
Proof.
  intros Hok Hm. pose proof Hok as [Hl _ _ _ Hbd]. destruct (Hbd i eq_refl) as [Hmax Hsz].
  destruct (mint_route_limits _ _ _ _ _ _ _ Hm) as [Hf Ha].
  destruct (mint_route_spec _ _ _ _ _ _ _ Hm Hmax Hsz)
    as [(Hs & -> & e & He & ->)|(Hn & -> & -> & Hmx & Hsub & Hsz' & Hroom & _)]; [by eapply step_hit_ok|].
  cbn [sessions arena] in Hl. exists [Some p]. split; [by eapply world_ok_minted|].
  split; [unfold configured, mint; simpl; by rewrite Hf, Ha, Hmx|].
  unfold registry. cbn [sessions arena live isolated holding].
  rewrite zip_with_app by done. simpl. rewrite map_seq_snoc, length_zip, Hl, Nat.min_id.
  apply Private_fresh with (max := max_routes i).
  - done.
  - by rewrite lookup_fmap, Hn.
  - rewrite lookup_map_seq_0. apply lookup_ge_None_2. rewrite length_zip. lia.
  - rewrite <- (fmap_insert en_session (routes i) p (mk_entry (length ar) n)). by apply map_fmap_mono.
  - by rewrite map_size_fmap.
  - rewrite map_size_fmap. intros Hlt. rewrite (Hroom Hlt). by rewrite fmap_insert.
Qed.

Lemma step_edit_ok owners s w h x sid f :
  world_ok owners (mk_world s w h) → (x, sid) ∈ h →
  simulated owners (mk_world s w h) (Learns x sid f) (mk_world (edit_session sid f s) w h).
Proof.
  intros Hok Hx. pose proof (ok_handles _ _ Hok _ _ Hx) as Ho.
  destruct (registry_lookup _ _ _ _ Hok Ho) as (ses & Hs & Hreg). cbn [sessions] in Hs.
  apply simulated_same; [|done|].
  - destruct Hok. split; try done. simpl. by rewrite length_alter.
  - assert (registry owners (mk_world (edit_session sid f s) w h) =
      mk_registry (<[sid := (x, f ses)]> (reg_sessions (registry owners (mk_world s w h))))
        (en_session <$> live s) h) as ->; [|by apply Private_learn].
    unfold registry. simpl. f_equal. apply map_eq. intros k. destruct (decide (k = sid)) as [->|Hne].
    + by rewrite lookup_insert_eq, lookup_map_seq_0, lookup_zip_with, list_lookup_alter_eq, Ho, Hs.
    + by rewrite lookup_insert_ne, !lookup_map_seq_0, !lookup_zip_with, list_lookup_alter_ne by done.
Qed.

Lemma step_found_ok owners ar i i' wt h p sid :
  world_ok owners (mk_world (mk_sessions ar (Some i)) wt h) → existing p i = (sid, i') →
  simulated owners (mk_world (mk_sessions ar (Some i)) wt h) (Finds p sid)
    (mk_world (mk_sessions ar (Some i')) wt (option_list ((λ n, (Some p, n)) <$> sid) ++ h)).
Proof.
  intros Hok Hex. destruct (existing_spec _ _ _ _ Hex) as [Hs ->]. apply simulated_same.
  - eapply same_routes_ok; [exact Hok|exact Hs|]. intros x k [Hx|Hx]%elem_of_app; [right|by left].
    destruct (routes i !! p) as [e|] eqn:He; simpl in Hx; [|by apply elem_of_nil in Hx].
    apply list_elem_of_singleton in Hx as [= -> ->]. by apply (ok_routes _ _ Hok).
  - by apply same_routes_configured.
  - rewrite (registry_same_routes owners ar i i' wt wt h _ Hs). apply Private_find; [by rewrite lookup_fmap|].
    intros n Hn. by apply (registry_exit _ _ _ _ Hok).
Qed.

Lemma route_step_ok owners w a w' : world_ok owners w → acts w a w' → simulated owners w a w'.
Proof.
  intros Hok Hstep. destruct Hstep as [s wt h|ar i wt h p sid i' Hlk|ar i wt h p n i' Hlk
    |ar i w1 w2 h p n sid ar' i' Hm|ar i wt h p sid i' Hex|s wt h x sid f Hx|s wt h1 h2 x sid].
  - apply simulated_same; [|done|apply Private_direct]. destruct Hok as [Hl Hb Hr Hh Hbd]. split; try done. simpl.
    intros x sid [[= -> ->]|Hx]%elem_of_cons; [by apply Hb|by apply Hh].
  - apply lookup_route_spec in Hlk as (Hs & e & He & ->). by eapply step_hit_ok.
  - apply lookup_route_spec in Hlk as (Hs & Hn). apply simulated_same.
    + eapply same_routes_ok; [exact Hok|exact Hs|]. by left.
    + by apply same_routes_configured.
    + rewrite (registry_same_routes owners ar i i' wt _ h h Hs). apply Private_miss. by rewrite lookup_fmap, Hn.
  - by apply (step_mint_ok _ _ _ _ _ _ _ _ _ _ _ Hok Hm).
  - by apply step_found_ok.
  - by apply step_edit_ok.
  - apply simulated_same; [|done|apply Private_end]. destruct Hok as [Hl Hb Hr Hh Hbd]. split; try done. simpl.
    intros y k Hy. apply Hh. set_solver.
Qed.

Lemma routes_reachable_ok s w :
  initial s → rtc step (mk_world s [] []) w →
  (∃ owners, world_ok owners w) ∧ configured (sessions w) = configured s.
Proof.
  intros Hi Hr.
  assert (Hgen : ∀ w0, rtc step w0 w → (∃ o, world_ok o w0) → configured (sessions w0) = configured s →
    (∃ o, world_ok o w) ∧ configured (sessions w) = configured s).
  { clear Hr. intros w0 Hr. induction Hr as [w0|w0 w1 w2 [a Hs] _ IH]; [done|]. intros [o Ho] Hc.
    destruct (route_step_ok _ _ _ _ Ho Hs) as (new & Hn & Hc' & _). apply IH; [by eexists|congruence]. }
  apply (Hgen _ Hr); [eexists; by apply initial_ok|done].
Qed.

Lemma history_simulated owners w l w' :
  world_ok owners w → history acts w l w' →
  ∃ owners', world_ok owners' w' ∧
    history (private (configured (sessions w))) (registry owners w) l (registry owners' w').
Proof.
  intros Hok Hh. revert owners Hok. induction Hh as [w|w a w1 l w2 Hs _ IH]; intros owners Hok.
  - exists owners. split; [done|constructor].
  - destruct (route_step_ok _ _ _ _ Hok Hs) as (new & Hn & Hc & Hp).
    destruct (IH _ Hn) as (o & Ho & Hrest). exists o. split; [done|]. rewrite Hc in Hrest. by econstructor.
Qed.

(** Under whose name a request over [x] holds its session. *)
Definition route_of (x : option str) (s : Sessions) : option str :=
  match isolated s with Some _ => x | None => None end.

(** A request that runs undisturbed, [for_route], takes these steps and ends holding
    its session under its own exit. *)
Lemma for_route_acts x s sid s' wt h :
  for_route x s = (sid, s') →
  ∃ l, history acts (mk_world s wt h) (l ++ [Takes (route_of x s) sid]) (mk_world s' wt ((route_of x s, sid) :: h)) ∧
    (l = [] ∨ ∃ p, x = Some p ∧ l = [Misses p]).
Proof.
  assert (Hbase : ∃ l, history acts (mk_world s wt h) (l ++ [Takes None BASE]) (mk_world s wt ((None, BASE) :: h)) ∧
    (l = [] ∨ ∃ p, x = Some p ∧ l = [Misses p])).
  { exists []. split; [|by left]. eapply History_cons; [apply Step_base|apply History_nil]. }
  unfold for_route, route_of. destruct s as [ar [i|]]; cbn [isolated arena]; [|by intros [= <- <-]].
  destruct x as [p|]; [|by intros [= <- <-]]. clear Hbase.
  unfold session_for. destruct (lookup_route p i) as [[sid0|n] i0] eqn:Hl.
  - intros [= <- <-]. exists []. split; [|by left]. eapply History_cons; [by apply Step_hit|apply History_nil].
  - destruct (mint_route p n ar i0) as [[sid0 ar0] i1] eqn:Hm. intros [= <- <-]. exists [Misses p]. split; [|eauto].
    eapply History_cons; [by apply Step_miss|]. eapply History_cons; [by apply (Step_mint _ _ [] wt)|apply History_nil].
Qed.

Lemma history_steps w l w' : history acts w l w' → rtc step w w'.
Proof. induction 1 as [|w a w1 l w2 Ha _ IH]; [done|]. eapply rtc_l; [by exists a|done]. Qed.

Lemma for_route_run x s sid s' wt h :
  for_route x s = (sid, s') → rtc step (mk_world s wt h) (mk_world s' wt ((route_of x s, sid) :: h)).
Proof. intros Hf. destruct (for_route_acts x s sid s' wt h Hf) as (l & Hh & _). by eapply history_steps. Qed.


(** C38. The shared registry - one map from exits to sessions behind a lock, lookups
    that miss and mint in two steps, evictions while requests still hold what was
    evicted - implements private sessions.  Whatever the requests do, and however
    their steps interleave, each request takes, finds and edits exactly what the
    registry in which every session has one owner would let it: the session its
    exit has, never the base or another exit's; when it has none, a new and empty
    one; and what it learns lands in the session it took and nowhere else.  An exit
    loses its session only to a new one that would make them more than configured.
    At the end the sessions hold what that registry's hold.  And a request that runs
    undisturbed ([for_route]) takes its session by such steps, under its own exit. *)
Theorem sessions_refine s base w l :
  initial s → arena s !! BASE = Some base → history acts (mk_world s [] []) l w →
  (∃ r, history (private (configured s)) (start_registry base) l r ∧ implements r w) ∧
  ∀ x, let '(sid, s') := for_route x (sessions w) in
    ∃ l', history acts w (l' ++ [Takes (route_of x (sessions w)) sid])
            (mk_world s' (waiting w) ((route_of x (sessions w), sid) :: holding w)) ∧
      (l' = [] ∨ ∃ p, x = Some p ∧ l' = [Misses p]).
Proof.
  intros Hi Hb Hh. split.
  - pose proof (initial_ok s Hi) as Hok. destruct (history_simulated _ _ _ _ Hok Hh) as (o & Ho & Hr).
    exists (registry o w). split; [|by apply registry_implements]. cbn [sessions] in Hr.
    assert (registry [None] (mk_world s [] []) = start_registry base) as <-; [|done].
    by destruct Hi as [[c ->]|(c & m & f & ->)]; injection Hb as <-.
  - intros x. destruct w as [s1 wt h]. cbn [sessions waiting holding].
    destruct (for_route x s1) as [sid s'] eqn:Hf. by apply for_route_acts.
Qed.
End Sessions.
Arguments Session : clear implicits.
Arguments Isolated : clear implicits.
Arguments Sessions : clear implicits.
Arguments World : clear implicits.
Arguments Spec : clear implicits.
Arguments Act : clear implicits.
Arguments Registry : clear implicits.
