(* ===== verification/Validators.v ===== *)
(** [chromulate-http]: the per-URL memory of [ETag] and [Last-Modified]
    (src/crates/chromulate-http/src/validators.rs).

    A URL is identified by what is sent of it.  An operation that writes holds the
    lock, and publishes the number of entries after dropping it: the two are separate
    steps ([put_locked] and [publish]) that [put] composes, so that what comes between
    them can be told.  [usize] and [u64] counters wrap. *)
From S2P Require Import Prelude RustStr Extern Eviction.
Local Open Scope Z_scope.

Definition DEFAULT_URL_CAPACITY : Z := 4096.

Definition IF_MATCH : str := b#"if-match".
Definition IF_UNMODIFIED_SINCE : str := b#"if-unmodified-since".
Definition IF_RANGE : str := b#"if-range".
Definition OK : StatusCode := 200.

Record Validators := mk_validators { etag : option str; last_modified : option str }.

#[export] Instance Validators_eq_dec : EqDecision Validators.
Proof. solve_decision. Defined.

Definition no_validators (v : Validators) : bool :=
  match etag v, last_modified v with None, None => true | _, _ => false end.

Record VEntry := mk_ventry { validators : Validators; last_use_seq : Z }.

Record ValidatorStore := mk_vstore {
  entries : gmap str VEntry;
  stored : Z;
  v_seq : Z;
  v_capacity : Z;
}.

Definition with_capacity (capacity : Z) : ValidatorStore := mk_vstore ∅ 0 0 (Z.max capacity 1).
Definition new : ValidatorStore := with_capacity DEFAULT_URL_CAPACITY.

Definition purge_batch (s : ValidatorStore) : Z := Z.max (v_capacity s / 10) 1.
Definition purge_target (s : ValidatorStore) : Z := Z.max (saturating_sub (v_capacity s) (purge_batch s)) 1.

Definition evict (capacity target : Z) (m : gmap str VEntry) : gmap str VEntry :=
  evict_idle (λ _ _, false) last_use_seq capacity target m.

(** [next_seq]: the tick, and the store after it. *)
Definition tick (s : ValidatorStore) : Z * ValidatorStore :=
  (v_seq s, mk_vstore (entries s) (stored s) (wrap64 (v_seq s + 1)) (v_capacity s)).

Definition set_entries (m : gmap str VEntry) (s : ValidatorStore) : ValidatorStore :=
  mk_vstore m (stored s) (v_seq s) (v_capacity s).

Definition publish (n : Z) (s : ValidatorStore) : ValidatorStore :=
  mk_vstore (entries s) n (v_seq s) (v_capacity s).

Definition put_locked (key : str) (v : Validators) (s : ValidatorStore) : Z * ValidatorStore :=
  let '(seq, s) := tick s in
  let m := evict (v_capacity s) (purge_target s) (<[key := mk_ventry v seq]> (entries s)) in
  (msize m, set_entries m s).

Definition put (key : str) (v : Validators) (s : ValidatorStore) : ValidatorStore :=
  let '(len, s) := put_locked key v s in publish len s.

Definition remove_locked (key : str) (s : ValidatorStore) : Z * ValidatorStore :=
  let m := delete key (entries s) in (msize m, set_entries m s).

Definition remove (key : str) (s : ValidatorStore) : option Validators * ValidatorStore :=
  if stored s =? 0 then (None, s)
  else let '(len, s') := remove_locked key s in (validators <$> entries s !! key, publish len s').

Definition clear (s : ValidatorStore) : ValidatorStore := publish 0 (set_entries ∅ s).

Definition insert (key : str) (v : Validators) (s : ValidatorStore) : ValidatorStore :=
  if no_validators v then (remove key s).2 else put key v s.

Definition get (key : str) (s : ValidatorStore) : option Validators :=
  if stored s =? 0 then None else validators <$> entries s !! key.

(** [[u8]::trim_ascii] leaves nothing. *)
Definition is_ascii_whitespace (c : ascii) : bool := bool_decide (code c ∈ [9; 10; 12; 13; 32]).
Definition blank (v : str) : bool := forallb is_ascii_whitespace v.

Definition usable (value : option str) : option str := v ← value; if blank v then None else Some v.

Definition is_revalidatable (method : Method) : bool := bool_decide (method = GET) || bool_decide (method = HEAD).

Section With_extern.
Context `{HeaderMapApi}.

Definition from_headers (headers : HeaderMap) : option Validators :=
  let v := mk_validators (usable (hm_get headers ETAG)) (usable (hm_get headers LAST_MODIFIED)) in
  if no_validators v then None else Some v.

Definition is_already_conditional (headers : HeaderMap) : bool :=
  hm_contains_key headers IF_NONE_MATCH || hm_contains_key headers IF_MODIFIED_SINCE
  || hm_contains_key headers IF_MATCH || hm_contains_key headers IF_UNMODIFIED_SINCE
  || hm_contains_key headers IF_RANGE.

Definition varies (headers : HeaderMap) : bool :=
  existsb (λ value, existsb (λ field, negb (blank field)) (split_by (is_char ","%char) value))
    (hm_get_all headers VARY).

(** The headers of the request, and the store after recording the use. *)
Definition condition (key : str) (method : Method) (headers : HeaderMap) (s : ValidatorStore) : HeaderMap * ValidatorStore :=
  if stored s =? 0 then (headers, s)
  else if negb (is_revalidatable method) || is_already_conditional headers then (headers, s)
  else
    match entries s !! key with
    | None => (headers, s)
    | Some entry =>
        let '(seq, s) := tick s in
        let s := set_entries (<[key := mk_ventry (validators entry) seq]> (entries s)) s in
        let headers := match etag (validators entry) with
                       | Some etag => hm_insert IF_NONE_MATCH etag headers | None => headers end in
        let headers := match last_modified (validators entry) with
                       | Some last_modified => hm_insert IF_MODIFIED_SINCE last_modified headers | None => headers end in
        (headers, s)
    end.

Definition refresh (key : str) (headers : HeaderMap) (s : ValidatorStore) : ValidatorStore :=
  let new_etag := usable (hm_get headers ETAG) in
  let new_last_modified := usable (hm_get headers LAST_MODIFIED) in
  let '(seq, s) := tick s in
  match entries s !! key with
  | None => s
  | Some entry =>
      let v := mk_validators (match new_etag with Some _ => new_etag | None => etag (validators entry) end)
                 (match new_last_modified with Some _ => new_last_modified | None => last_modified (validators entry) end) in
      set_entries (<[key := mk_ventry v seq]> (entries s)) s
  end.

Definition observe (key : str) (method : Method) (status : StatusCode) (headers : HeaderMap) (s : ValidatorStore) : ValidatorStore :=
  if negb (is_revalidatable method) then s
  else if status =? OK then
    match from_headers headers with
    | Some v => if varies headers then (remove key s).2 else put key v s
    | None => (remove key s).2
    end
  else if status =? NOT_MODIFIED then
    if varies headers then (remove key s).2 else refresh key headers s
  else s.

(** ** The invariant *)

Record store_ok (s : ValidatorStore) : Prop := {
  hint_exact : stored s = msize (entries s);
  within_capacity : msize (entries s) <= v_capacity s;
  capacity_pos : 1 <= v_capacity s;
  seq_range : 0 <= v_seq s < 2 ^ 64;
  earlier : ∀ k e, entries s !! k = Some e → last_use_seq e < v_seq s;
  usable_entries : ∀ k e, entries s !! k = Some e → no_validators (validators e) = false;
}.

(** What the store knows of a key. *)
Definition known (s : ValidatorStore) (k : str) : option Validators := validators <$> entries s !! k.

Lemma v_purge_target_range s : 1 <= v_capacity s → 1 <= purge_target s <= v_capacity s.
Proof. unfold purge_target, purge_batch, saturating_sub. intros. Z.to_euclidean_division_equations. lia. Qed.

Lemma msize_nonneg {V} (m : gmap str V) : 0 <= msize m.
Proof. unfold msize. lia. Qed.

Lemma msize_zero {V} (m : gmap str V) : msize m = 0 → m = ∅.
Proof. unfold msize. intros Hm. apply map_size_empty_inv. lia. Qed.

Lemma fresh_validators_ok capacity : store_ok (with_capacity capacity).
Proof. split; simpl; try done; try lia. change (msize ∅) with 0. lia. Qed.

Lemma get_known k s : store_ok s → get k s = known s k.
Proof.
  intros Hs. unfold get, known. destruct (stored s =? 0) eqn:E; [|done]. bool_prop.
  rewrite (hint_exact _ Hs) in E. apply msize_zero in E. by rewrite E, lookup_empty.
Qed.

(** ** Storing and forgetting *)

Lemma wrap64_next n : 0 <= n < 2 ^ 64 - 1 → wrap64 (n + 1) = n + 1.
Proof. intros. unfold wrap64. apply Z.mod_small. lia. Qed.

(** What a store may have lost besides what was asked: only the least recently used
    of a full one. *)
Definition evicts_lru (key : str) (s s' : ValidatorStore) : Prop :=
  (∀ k, k ≠ key → known s' k = known s k ∨ known s' k = None) ∧
  (msize (entries s) < v_capacity s → ∀ k, k ≠ key → known s' k = known s k) ∧
  (∀ k e k' e', k ≠ key → entries s !! k = Some e → entries s' !! k = None →
     entries s !! k' = Some e' → entries s' !! k' = Some e' → last_use_seq e <= last_use_seq e').

Lemma nothing_kept (m : gmap str VEntry) : kept_keys (λ _ _, false) m = [].
Proof using Type.
  unfold kept_keys. rewrite filter_none; [done|]. apply Forall_true. intros [k e] Hno. by apply Hno.
Qed.

Lemma put_spec key v s :
  store_ok s → v_seq s < 2 ^ 64 - 1 → no_validators v = false →
  let s' := put key v s in store_ok s' ∧ known s' key = Some v ∧ evicts_lru key s s'.
Proof.
  intros Hs Hwrap Hv. destruct Hs as [Hh Hw Hc Hr He Hu]. unfold put, put_locked, tick. cbn [entries stored v_seq v_capacity].
  set (new := mk_ventry v (v_seq s)). set (m := <[key:=new]> (entries s)).
  set (target := purge_target _). assert (Ht : 1 <= target <= v_capacity s) by (by apply (v_purge_target_range (mk_vstore _ _ _ _))).
  destruct (evict_idle_spec (λ _ _, false) last_use_seq (v_capacity s) target m) as (Hsub & _ & Hlru & Hsize); [lia|].
  fold (evict (v_capacity s) target m) in *. set (m' := evict _ _ _) in *.
  unfold known, publish, set_entries. cbn [entries stored v_seq v_capacity].
  assert (Hin : ∀ k e, m' !! k = Some e → (k = key ∧ e = new) ∨ (k ≠ key ∧ entries s !! k = Some e)).
  { intros k e Hk. apply (lookup_weaken _ _ _ _ Hk) in Hsub. apply lookup_insert_Some in Hsub as [[<- <-]|[Hne Hk']]; auto. }
  assert (Hm : m !! key = Some new) by apply lookup_insert_eq.
  assert (Hkey : m' !! key = Some new).
  { destruct (m' !! key) as [e|] eqn:E; [destruct (Hin _ _ E) as [[_ ->]|[? _]]; done|]. exfalso.
    assert (Hne : m' ≠ ∅).
    { intros Hem. rewrite Hem in Hsize. change (msize ∅) with 0 in Hsize. case_match; [|lia].
      assert (m = ∅) as Hm0 by (by apply msize_zero). by rewrite Hm0, lookup_empty in Hm. }
    apply map_choose in Hne as (k & e & Hk). apply (Hlru key new k e Hm E Hk); [done|]. left.
    destruct (Hin _ _ Hk) as [[-> _]|[_ Hk']]; [congruence|]. by apply (He k). }
  split_and!.
  - split; cbn [entries stored v_seq v_capacity]; [done| |done|rewrite wrap64_next by lia; lia|..].
    + rewrite Hsize. case_match; bool_prop; [done|]. pose proof (zlen_nonneg (idle_candidates (λ _ _, false) last_use_seq m)).
      rewrite idle_candidates_count, nothing_kept. change (zlen []) with 0. lia.
    + intros k e Hk. rewrite wrap64_next by lia. destruct (Hin _ _ Hk) as [[_ ->]|[_ Hk']]; [simpl; lia|].
      pose proof (He _ _ Hk'). lia.
    + intros k e Hk. destruct (Hin _ _ Hk) as [[_ ->]|[_ Hk']]; [done|by eapply Hu].
  - by rewrite Hkey.
  - unfold evicts_lru, known. cbn [entries]. split_and!.
    + intros k Hne. destruct (m' !! k) as [e|] eqn:E; [left|right; reflexivity].
      destruct (Hin _ _ E) as [[? _]|[_ Hk]]; [done|by rewrite Hk].
    + intros Hroom k Hne. enough (m' = m) as -> by (unfold m; by rewrite lookup_insert_ne).
      unfold m', evict, evict_idle. assert (Hsm : msize m <= v_capacity s); [|by apply Z.leb_le in Hsm as ->].
      unfold m, msize in *. rewrite map_size_insert. destruct (entries s !! key); cbn [id]; lia.
    + intros k e k' e' Hne Hk Hgone Hk' Hkept. apply Z.le_ngt. intros Hlt.
      apply (Hlru k e k' e'); [by unfold m; rewrite lookup_insert_ne|done|done|done|]. left. exact Hlt.
Qed.

Lemma remove_spec key s :
  store_ok s → let s' := (remove key s).2 in store_ok s' ∧ entries s' = delete key (entries s).
Proof.
  intros Hs. cbv zeta. unfold remove. destruct (stored s =? 0) eqn:E; bool_prop.
  - split; [done|]. rewrite (hint_exact _ Hs) in E. apply msize_zero in E. simpl. by rewrite E, delete_empty.
  - destruct Hs as [Hh Hw Hc Hr He Hu]. cbn [remove_locked snd]. split; [|done].
    split; cbn [publish set_entries entries stored v_seq v_capacity]; [done| |done|done|..].
    + unfold msize in *. pose proof (map_subseteq_size _ _ (delete_subseteq (entries s) key)). lia.
    + intros k e [_ Hk]%lookup_delete_Some. eauto.
    + intros k e [_ Hk]%lookup_delete_Some. eauto.
Qed.

(** ** Replaying *)

Lemma header_present_iff headers n : hm_contains_key headers n = true ↔ hm_get_all headers n ≠ [].
Proof. apply bool_decide_eq_true. Qed.

(** What a response leaves known of its own URL. *)
Definition learned (status : StatusCode) (headers : HeaderMap) (before : option Validators) : option Validators :=
  if status =? OK then if varies headers then None else from_headers headers
  else if status =? NOT_MODIFIED then
    if varies headers then None
    else
      v ← before;
      let prefer (n : str) (old : option str) := match usable (hm_get headers n) with Some x => Some x | None => old end in
      Some (mk_validators (prefer ETAG (etag v)) (prefer LAST_MODIFIED (last_modified v)))
  else before.

Lemma from_headers_usable headers v : from_headers headers = Some v → no_validators v = false.
Proof. unfold from_headers. destruct (no_validators _) eqn:E; [done|]. by intros [= <-]. Qed.

Lemma refresh_spec key headers s :
  store_ok s → v_seq s < 2 ^ 64 - 1 →
  let s' := refresh key headers s in
  store_ok s' ∧ (∀ k, k ≠ key → known s' k = known s k) ∧
  known s' key = (v ← known s key;
    let prefer (n : str) (old : option str) := match usable (hm_get headers n) with Some x => Some x | None => old end in
    Some (mk_validators (prefer ETAG (etag v)) (prefer LAST_MODIFIED (last_modified v)))).
Proof.
  intros [Hh Hw Hc Hr He Hu] Hwrap. unfold refresh, tick, known. cbn [entries].
  destruct (entries s !! key) as [e|] eqn:Hk; cbn [entries set_entries fmap option_fmap option_map mbind option_bind].
  2: { split; [|by rewrite ?Hk]. pose proof (wrap64_next (v_seq s)) as Hnext.
       split; cbn [entries stored v_seq v_capacity]; try done; [lia|]. intros k e Hke. pose proof (He _ _ Hke). lia. }
  set (v := mk_validators _ _).
  assert (Hv : no_validators v = false).
  { pose proof (Hu _ _ Hk) as Hold. unfold v, no_validators in *. cbn [etag last_modified].
    destruct (usable (hm_get headers ETAG)), (usable (hm_get headers LAST_MODIFIED)), (etag (validators e)), (last_modified (validators e)); done. }
  assert (Hsize : msize (<[key:=mk_ventry v (v_seq s)]> (entries s)) = msize (entries s)).
  { unfold msize. by rewrite map_size_insert, Hk. }
  split_and!.
  - split; cbn [set_entries entries stored v_seq v_capacity]; rewrite ?Hsize, ?wrap64_next by lia; try done; [lia|..].
    + intros k x. rewrite lookup_insert. case_decide; [intros [= <-]; simpl; lia|]. intros Hx%He. lia.
    + intros k x. rewrite lookup_insert. case_decide; [by intros [= <-]|apply Hu].
  - intros k Hne. by rewrite lookup_insert_ne.
  - rewrite lookup_insert_eq. cbn [fmap option_fmap option_map validators]. unfold v. repeat f_equal; by case_match.
Qed.

(** What a response teaches.  A retrieving request's [200] leaves exactly its own
    usable validators known of its URL, its [304] the known ones with those it
    carries, either with a [Vary] leaves nothing, and no other response changes
    anything; of other URLs only the least recently used of a full store are lost. *)
Theorem observe_exact key method status headers s :
  store_ok s → v_seq s < 2 ^ 64 - 1 →
  let s' := observe key method status headers s in
  store_ok s' ∧ evicts_lru key s s' ∧
  known s' key = if is_revalidatable method then learned status headers (known s key) else known s key.
Proof.
  intros Hs Hwrap. cbv zeta. unfold observe, learned.
  assert (Hsame : evicts_lru key s s).
  { split_and!; auto. intros. congruence. }
  assert (Hremove : let s' := (remove key s).2 in store_ok s' ∧ evicts_lru key s s' ∧ known s' key = None).
  { destruct (remove_spec key s Hs) as [Hok Hent]. cbv zeta. split_and!; [done| |].
    - unfold evicts_lru, known. rewrite Hent. split_and!; intros.
      + left. by rewrite lookup_delete_ne.
      + by rewrite lookup_delete_ne.
      + by rewrite lookup_delete_ne in * by done; congruence.
    - unfold known. by rewrite Hent, lookup_delete_eq. }
  destruct (is_revalidatable method); cbn [negb]; [|done].
  destruct (status =? OK).
  - destruct (from_headers headers) as [v|] eqn:Hf; [|by destruct (varies headers)].
    destruct (varies headers); [done|]. apply from_headers_usable in Hf.
    destruct (put_spec key v s Hs Hwrap Hf) as (? & ? & ?). done.
  - destruct (status =? NOT_MODIFIED); [|done]. destruct (varies headers); [done|].
    destruct (refresh_spec key headers s Hs Hwrap) as (? & Hoth & ?). split_and!; [done| |done].
    split_and!; auto. intros k e k' e' Hne Hk Hgone. specialize (Hoth k Hne). unfold known in Hoth.
    by rewrite Hk, Hgone in Hoth.
Qed.

Context `{!HeaderMapLaws}.

(** What a request carries.  A [GET] or [HEAD] that asks no conditional question
    of its own gains exactly the validators known of its URL, each under its own
    field, and every other request and field is left alone; what is known does not
    change. *)
Theorem condition_exact key method headers s n :
  store_ok s →
  let '(headers', s') := condition key method headers s in
  (∀ k, known s' k = known s k) ∧
  hm_get_all headers' n =
    match (if is_revalidatable method && negb (is_already_conditional headers) then known s key else None) with
    | Some v =>
        match (if decide (n = IF_NONE_MATCH) then etag v else if decide (n = IF_MODIFIED_SINCE) then last_modified v else None) with
        | Some value => [value]
        | None => hm_get_all headers n
        end
    | None => hm_get_all headers n
    end.
Proof.
  intros Hs. unfold condition. destruct (stored s =? 0) eqn:Hz; bool_prop.
  { split; [done|]. rewrite (hint_exact _ Hs) in Hz. apply msize_zero in Hz. unfold known. rewrite Hz, lookup_empty. cbn [fmap option_fmap option_map].
    by destruct (_ && _). }
  destruct (is_revalidatable method), (is_already_conditional headers); cbn [negb andb orb]; try done.
  unfold known. destruct (entries s !! key) as [e|] eqn:Hk; [|done]. cbn [tick entries fmap option_fmap option_map].
  split.
  { intros k. cbn [set_entries entries]. rewrite lookup_insert. case_decide; [subst; by rewrite Hk|done]. }
  assert (IF_NONE_MATCH ≠ IF_MODIFIED_SINCE) by done.
  destruct (etag (validators e)) as [t|], (last_modified (validators e)) as [d|]; rewrite ?get_all_insert;
    repeat case_decide; subst; congruence.
Qed.
End With_extern.

(** ** A stale hint *)

Section Interleaving.
Import Sample.

Definition no_fields : @HeaderMap sample_header_map := [].

Definition tagged (tag : str) : @HeaderMap sample_header_map := [(ETAG, tag)].

(** One thread forgets [a]; between its critical section and its publication another
    learns [b]; then a [200] for [b] without a validator, a visit to [c], and a visit
    to [b].  The hint is zero while [b] is held, so the [200] forgets nothing, and the
    validator of a representation the caller no longer has is replayed. *)
Definition replayed_after_race : Z * option Validators * @HeaderMap sample_header_map :=
  let s0 := observe b#"a" GET OK (tagged b#"1") new in
  let '(len, s1) := remove_locked b#"a" s0 in
  let s2 := observe b#"b" GET OK (tagged b#"2") s1 in
  let s3 := publish len s2 in
  let s4 := observe b#"b" GET OK no_fields s3 in
  let s5 := observe b#"c" GET OK (tagged b#"3") s4 in
  (stored s3, known s3 b#"b", (condition b#"b" GET no_fields s5).1).

Theorem stale_hint_replays_validator :
  replayed_after_race = (0, Some (mk_validators (Some b#"2") None), [(IF_NONE_MATCH, b#"2")]).
Proof. vm_compute. reflexivity. Qed.

(** The headers a request gained stay on it: followed to another URL, it carries the
    validators of the first and asks nothing of its own. *)
Example conditioned_once :
  let s := observe b#"b" GET OK (tagged b#"2") (observe b#"a" GET OK (tagged b#"1") new) in
  (condition b#"b" GET (condition b#"a" GET no_fields s).1 s).1 = [(IF_NONE_MATCH, b#"1")].
Proof. vm_compute. reflexivity. Qed.

Definition seeded : ValidatorStore := observe b#"a" GET OK (tagged b#"1") new.

Lemma seeded_ok : store_ok seeded.
Proof. destruct (put_spec b#"a" (mk_validators (Some b#"1") None) new) as [Hok _]; [apply fresh_validators_ok|by vm_compute|done|exact Hok]. Qed.

Lemma observe_exact_witness : known (observe b#"a" GET NOT_MODIFIED no_fields seeded) b#"a" = Some (mk_validators (Some b#"1") None).
Proof.
  destruct (observe_exact b#"a" GET NOT_MODIFIED no_fields seeded seeded_ok) as (_ & _ & H); [by vm_compute|].
  etrans; [exact H|]. vm_compute. reflexivity.
Defined.

Lemma condition_exact_witness :
  @hm_get_all sample_header_map (condition b#"a" GET no_fields seeded).1 IF_NONE_MATCH = [b#"1"].
Proof.
  pose proof (condition_exact b#"a" GET no_fields seeded IF_NONE_MATCH seeded_ok) as H.
  destruct (condition b#"a" GET no_fields seeded) as [h s'] eqn:E. destruct H as [_ H]. cbn [fst]. etrans; [exact H|].
  vm_compute. reflexivity.
Defined.
End Interleaving.
