(* ===== verification/Hsts.v ===== *)
(** [chromulate-http]: HTTP Strict Transport Security
    (src/crates/chromulate-http/src/hsts.rs): the header parser, the store of
    policies learned from responses with its capacity, the lookup over a host
    and its parents, and the rewriting of a URL.

    [preload_covers] is the seam to the compiled-in list: constantly false in
    the default build, and [HstsPreload.covers] with the feature on. *)
From S2P Require Import Prelude RustStr RustTime RustNet Extern.
Local Open Scope Z_scope.

(** ** Names *)

(** [canonical_name]: the root label dropped, any other empty label refused. *)
Definition canonical_name (host : str) : option str :=
  let host := default host (strip_suffix b#"." host) in
  if bool_decide (host = []) || existsb (λ l, bool_decide (l = [])) (split_by (is_char "."%char) host)
  then None else Some host.

Definition is_ip_literal (host : str) : bool :=
  parses_ip (default host (strip_prefix b#"[" host ≫= strip_suffix b#"]")).

(** [while let Some((_, parent)) = rest.split_once('.') { .. rest = parent }]. *)
Fixpoint any_parent (fuel : nat) (covered : str → bool) (rest : str) : bool :=
  match fuel with
  | O => false
  | S fuel =>
      match split_once "."%char rest with
      | Some (_, parent) => if covered parent then true else any_parent fuel covered parent
      | None => false
      end
  end.

(** ** The header *)

Record Directive := mk_directive { d_max_age : Z; d_include_subdomains : bool }.

(** The loop of [parse]; [None] is its early return. *)
Fixpoint parse_tokens (tokens : list str) (max_age : option Z) (include_subdomains : bool)
    : option (option Z * bool) :=
  match tokens with
  | [] => Some (max_age, include_subdomains)
  | token :: rest =>
      let token := trim token in
      let '(name, argument) :=
        match split_once "="%char token with
        | Some (name, argument) => (trim name, Some (trim argument))
        | None => (token, None)
        end in
      if eq_ignore_ascii_case name b#"max-age" then
        argument ← argument;
        parse_tokens rest (parse_u64 (trim_matches (ascii_of_nat 34) argument)) include_subdomains
      else if eq_ignore_ascii_case name b#"includeSubDomains" then parse_tokens rest max_age true
      else parse_tokens rest max_age include_subdomains
  end.

Definition parse (value : str) : option Directive :=
  '(max_age, include_subdomains) ← parse_tokens (split_by (is_char ";"%char) value) None false;
  max_age ← max_age;
  Some (mk_directive max_age include_subdomains).

(** ** The store *)

Record Policy := mk_policy { expires : SystemTime; include_subdomains : bool }.

Record HstsStore := mk_hsts_store { hosts : gmap str Policy; capacity : Z }.

Definition DEFAULT_HOST_CAPACITY : Z := 10000.

Definition with_capacity (capacity : Z) : HstsStore := mk_hsts_store ∅ (Z.max capacity 1).

Definition new_store : HstsStore := with_capacity DEFAULT_HOST_CAPACITY.

Definition FAR_FUTURE_SECS : Z := 64000000000.

Definition far_future : SystemTime :=
  default UNIX_EPOCH (checked_add UNIX_EPOCH (from_secs FAR_FUTURE_SECS)).

(** [HstsStore::evict]: expired policies first, then those expiring soonest. *)
Definition evict (s : HstsStore) (now : SystemTime) : HstsStore :=
  if Z.of_nat (size (hosts s)) <=? capacity s then s
  else
    let live := filter (λ kv : str * Policy, now < expires kv.2) (hosts s) in
    mk_hsts_store (evict_min expires (size live) (capacity s) live) (capacity s).

Definition record (s : HstsStore) (host value : str) (over_tls : bool) (now : SystemTime) : HstsStore :=
  if negb over_tls then s
  else
    match canonical_name host with
    | None => s
    | Some host =>
        if is_ip_literal host then s
        else
          match parse value with
          | None => s
          | Some directive =>
              let host := to_ascii_lowercase host in
              if d_max_age directive =? 0 then mk_hsts_store (delete host (hosts s)) (capacity s)
              else
                let expires :=
                  default far_future (checked_add now (from_secs (d_max_age directive))) in
                evict (mk_hsts_store
                         (<[host := mk_policy expires (d_include_subdomains directive)]> (hosts s))
                         (capacity s)) now
          end
    end.

Section With_preload.
Context (preload_covers : str → bool).

Definition applies_to (s : HstsStore) (host : str) (now : SystemTime) : bool :=
  match canonical_name host with
  | None => false
  | Some host =>
      if is_ip_literal host then false
      else
        let host := to_ascii_lowercase host in
        if match hosts s !! host with Some policy => now <? expires policy | None => false end
        then true
        else if any_parent (S (length host)) (λ parent,
                  match hosts s !! parent with
                  | Some policy => include_subdomains policy && (now <? expires policy)
                  | None => false
                  end) host
        then true
        else preload_covers host
  end.

Context `{UrlApi, !UrlEditApi}.

Definition upgrade (s : HstsStore) (url : Url) (now : SystemTime) : bool * Url :=
  if negb (bool_decide (scheme url = b#"http")) then (false, url)
  else
    match host_str url with
    | None => (false, url)
    | Some host =>
        if negb (applies_to s host now) then (false, url)
        else
          let explicit_port := url_port url in
          match set_scheme b#"https" url with
          | None => (false, url)
          | Some url =>
              (true, if decide (explicit_port = Some 80) then default url (clear_port url) else url)
          end
    end.
End With_preload.

(** ** Facts about names *)

Lemma any_parent_spec fuel covered s :
  (length s < fuel)%nat →
  any_parent fuel covered s = true ↔
  ∃ child parent, s = child ++ "."%char :: parent ∧ covered parent = true.
Proof.
  revert s. induction fuel as [|fuel IH]; intros s Hfuel; [lia|]. simpl.
  destruct (split_once_cases "."%char s) as [[-> Hnone]|(a & b & Hsplit & Hs)].
  - split; [done|]. intros (c & p & -> & _). apply Forall_app in Hnone as [_ Hnone].
    by inversion Hnone.
  - rewrite Hsplit. apply split_once_Some in Hsplit as [-> Ha]. clear Hs.
    rewrite length_app in Hfuel. simpl in Hfuel. destruct (covered b) eqn:Hb; [naive_solver|].
    rewrite IH by lia. split.
    + intros (c & p & -> & Hp). exists (a ++ "."%char :: c), p. by rewrite <- app_assoc.
    + intros (c & p & Heq & Hp). apply app_eq_app in Heq as (l & [[-> Hl]|[-> Hl]]).
      * destruct l as [|x l]; [simpl in Hl; congruence|]. injection Hl as Hx _. subst x.
        apply Forall_app in Ha as [_ Ha]. by inversion Ha.
      * destruct l as [|x l]; simplify_eq/=; eauto; congruence.
Qed.

Lemma lower_dot c : is_char "."%char (lower c) = is_char "."%char c.
Proof. by destruct c as [[] [] [] [] [] [] [] []]. Qed.

Lemma split_lower s :
  split_by (is_char "."%char) (to_ascii_lowercase s) =
  to_ascii_lowercase <$> split_by (is_char "."%char) s.
Proof.
  induction s as [|c s IH]; [done|]. unfold to_ascii_lowercase in *.
  rewrite fmap_cons. cbn [split_by]. rewrite lower_dot, IH. destruct (is_char _ c); [done|].
  by destruct (split_by _ s).
Qed.

(** A canonical name: not empty, no empty label. *)
Definition canonical (n : str) : Prop :=
  n ≠ [] ∧ Forall (λ l, l ≠ []) (split_by (is_char "."%char) n).

Lemma canonical_no_root n : canonical n → strip_suffix b#"." n = None.
Proof.
  intros [_ Hl]. destruct (strip_suffix b#"." n) as [r|] eqn:E; [|done].
  apply strip_suffix_Some in E as ->. change (b#".") with ["."%char] in Hl.
  rewrite (split_by_app _ r "."%char []) in Hl by done. apply Forall_app in Hl as [_ Hl].
  by inversion Hl.
Qed.

Lemma labels_ok l :
  existsb (λ x : str, bool_decide (x = [])) l = false ↔ Forall (λ x, x ≠ []) l.
Proof.
  induction l as [|x l IH]; simpl; [by split|].
  by rewrite orb_false_iff, bool_decide_eq_false, IH, Forall_cons.
Qed.

Lemma canonical_name_Some host n :
  canonical_name host = Some n ↔ canonical n ∧ (host = n ∨ host = n ++ b#".").
Proof.
  unfold canonical_name. split.
  - destruct (_ || _) eqn:E; [done|]. intros [= <-]. apply orb_false_iff in E as [E1 E2].
    apply bool_decide_eq_false in E1. apply labels_ok in E2. split; [done|].
    destruct (strip_suffix ["."%char] host) as [r|] eqn:Hr; simpl; [|by left].
    right. by apply strip_suffix_Some.
  - intros [Hc Hh].
    assert (default host (strip_suffix b#"." host) = n) as ->.
    { destruct Hh as [->| ->]; [by rewrite (canonical_no_root n)|].
      by rewrite (proj2 (strip_suffix_Some _ _ n)). }
    destruct Hc as [Hne Hl]. by rewrite (proj2 (labels_ok _) Hl), bool_decide_eq_false_2.
Qed.

Lemma canonical_name_id n : canonical n → canonical_name n = Some n.
Proof. intros Hc. apply canonical_name_Some. auto. Qed.

Lemma canonical_lower n : canonical n → canonical (to_ascii_lowercase n).
Proof.
  intros [Hne Hl]. split.
  - unfold to_ascii_lowercase. by destruct n.
  - rewrite split_lower. apply Forall_fmap. eapply Forall_impl; [done|]. by intros [].
Qed.

(** ** The store's invariant and its operations *)

(** At rest the store is within its capacity and knows only names: canonical,
    in lower case and never an address. *)
Definition hsts_ok (s : HstsStore) : Prop :=
  1 <= capacity s ∧ Z.of_nat (size (hosts s)) <= capacity s ∧
  map_Forall (λ h _, ∃ n, canonical n ∧ is_ip_literal n = false ∧ h = to_ascii_lowercase n) (hosts s).

(** What a store that must shrink keeps: nothing expired, and nothing that
    expires before a live policy it gave up. *)
Definition keeps_latest (now : SystemTime) (m m' : gmap str Policy) : Prop :=
  ∀ h p h' p', m !! h = Some p → m' !! h = None → m' !! h' = Some p' →
    now < expires p' ∧ (expires p <= now ∨ expires p <= expires p').

Lemma hsts_evict_spec s now :
  1 <= capacity s →
  let m := hosts s in let m' := hosts (evict s now) in
  m' ⊆ m ∧ Z.of_nat (size m') <= capacity s ∧ capacity (evict s now) = capacity s ∧
  (Z.of_nat (size m) <= capacity s → m' = m) ∧ keeps_latest now m m'.
Proof.
  intros Hcap. unfold evict, keeps_latest. destruct (_ <=? _) eqn:E; bool_prop.
  { repeat split; [done|lia|..]; congruence. }
  set (live := filter _ _). simpl.
  destruct (evict_min_spec expires (size live) (capacity s) live) as (Hsub & Hsize & Hord); [lia|lia|].
  assert (Hlive : live ⊆ hosts s) by apply map_filter_subseteq.
  split; [by etrans|]. split; [lia|]. split; [done|]. split; [lia|].
  intros h p h' p' Hp Hnone Hp'.
  assert (Hp'' : live !! h' = Some p') by (by eapply lookup_weaken).
  apply map_lookup_filter_Some in Hp'' as [_ Hexp]. split; [done|].
  destruct (decide (now < expires p)) as [Hl|Hl]; [|left; lia]. right.
  eapply Hord; [|done|done]. by apply map_lookup_filter_Some.
Qed.

Lemma with_capacity_ok c : hsts_ok (with_capacity c).
Proof.
  split; [simpl; lia|]. split; [|apply map_Forall_empty].
  change (Z.of_nat (size (∅ : gmap str Policy)) <= Z.max c 1). rewrite map_size_empty. lia.
Qed.

Definition learned (d : Directive) (now : SystemTime) : Policy :=
  mk_policy (default far_future (checked_add now (from_secs (d_max_age d)))) (d_include_subdomains d).

Lemma record_pin s host value now n d :
  canonical_name host = Some n → is_ip_literal n = false → parse value = Some d → d_max_age d ≠ 0 →
  record s host value true now =
  evict (mk_hsts_store (<[to_ascii_lowercase n := learned d now]> (hosts s)) (capacity s)) now.
Proof. intros Hn Hip Hd H0. unfold record. simpl. by rewrite Hn, Hip, Hd, (proj2 (Z.eqb_neq _ _) H0). Qed.

Lemma record_ok s host value over_tls now : hsts_ok s → hsts_ok (record s host value over_tls now).
Proof.
  intros Hok. pose proof Hok as (Hcap & Hsize & Hkeys). destruct over_tls; [|done].
  unfold record. cbn [negb].
  destruct (canonical_name host) as [n|] eqn:Hn; [|done].
  destruct (is_ip_literal n) eqn:Hip; [done|].
  destruct (parse value) as [d|] eqn:Hd; [|done]. destruct (_ =? _) eqn:E; bool_prop.
  - split; [done|]. split; cbn [hosts capacity]; [|by apply map_Forall_delete].
    assert (Hsub : delete (to_ascii_lowercase n) (hosts s) ⊆ hosts s) by apply delete_subseteq.
    apply map_subseteq_size in Hsub. lia.
  - set (s1 := mk_hsts_store _ _). destruct (hsts_evict_spec s1 now) as (Hsub & Hle & Hc & _ & _); [done|].
    split; [by rewrite Hc|]. split; [by rewrite Hc|].
    intros h p Hp. pose proof (lookup_weaken _ _ _ _ Hp Hsub) as Hp1. simpl in Hp1.
    apply lookup_insert_Some in Hp1 as [[<- _]|[_ Hp1]]; [|by apply (Hkeys h p)].
    apply canonical_name_Some in Hn as [Hn _]. eauto.
Qed.

(** ** What the store promises *)

Lemma hsts_applies_lemma preload s host now :
  applies_to preload s host now = true ↔
  ∃ n, canonical_name host = Some n ∧ is_ip_literal n = false ∧
    let h := to_ascii_lowercase n in
    (∃ p, hosts s !! h = Some p ∧ now < expires p) ∨
    (∃ child parent p, h = child ++ "."%char :: parent ∧ hosts s !! parent = Some p ∧
       include_subdomains p = true ∧ now < expires p) ∨
    preload h = true.
Proof.
  unfold applies_to. destruct (canonical_name host) as [n|] eqn:Hn; [|naive_solver].
  destruct (is_ip_literal n) eqn:Hip; [naive_solver|]. cbv zeta.
  set (h := to_ascii_lowercase n). set (covered := λ parent : str, _).
  assert (Hself : match hosts s !! h with Some p => now <? expires p | None => false end = true ↔
    ∃ p, hosts s !! h = Some p ∧ now < expires p).
  { destruct (hosts s !! h) as [p|]; [|naive_solver]. rewrite Z.ltb_lt. naive_solver. }
  assert (Hcov : ∀ parent, covered parent = true ↔
    ∃ p, hosts s !! parent = Some p ∧ include_subdomains p = true ∧ now < expires p).
  { intros parent. unfold covered. destruct (hosts s !! parent) as [p|]; [|naive_solver].
    rewrite andb_true_iff, Z.ltb_lt. naive_solver. }
  assert (Hpar : any_parent (S (length h)) covered h = true ↔
    ∃ child parent p, h = child ++ "."%char :: parent ∧ hosts s !! parent = Some p ∧
       include_subdomains p = true ∧ now < expires p).
  { rewrite any_parent_spec by lia. setoid_rewrite Hcov. naive_solver. }
  transitivity ((∃ p, hosts s !! h = Some p ∧ now < expires p) ∨
    (∃ child parent p, h = child ++ "."%char :: parent ∧ hosts s !! parent = Some p ∧
       include_subdomains p = true ∧ now < expires p) ∨ preload h = true).
  - rewrite <- Hself, <- Hpar. destruct (match hosts s !! h with Some p => _ | None => _ end); [tauto|].
    destruct (any_parent _ _ _); intuition discriminate.
  - split; [eauto|]. by intros (n0 & [= <-] & _ & ?).
Qed.

(** A host must use HTTPS exactly when it is a name - not an address, no empty
    label, the root label ignored - and, without regard to case, it has an
    unexpired policy of its own, or one of its parents at a label boundary has an
    unexpired policy that includes subdomains, or the preload list covers it. *)
Theorem hsts_applies_exact preload s host now :
  applies_to preload s host now = true ↔
  ∃ n, canonical_name host = Some n ∧ is_ip_literal n = false ∧
    let h := to_ascii_lowercase n in
    (∃ p, hosts s !! h = Some p ∧ now < expires p) ∨
    (∃ child parent p, h = child ++ "."%char :: parent ∧ hosts s !! parent = Some p ∧
       include_subdomains p = true ∧ now < expires p) ∨
    preload h = true.
Proof. apply hsts_applies_lemma. Qed.

(** Learning: a header from a plaintext response, from an address, from a
    malformed name or without a usable [max-age] changes nothing; [max-age=0]
    forgets exactly that host; anything else pins it, and the store stays within
    its capacity by giving up expired policies and then those expiring soonest. *)
Theorem hsts_record_exact s host value now :
  hsts_ok s →
  let s' := record s host value true now in
  record s host value false now = s ∧ hsts_ok s' ∧
  match canonical_name host, parse value with
  | Some n, Some d =>
      let h := to_ascii_lowercase n in
      let m := <[h := learned d now]> (hosts s) in
      if is_ip_literal n then s' = s
      else if d_max_age d =? 0 then hosts s' = delete h (hosts s)
      else hosts s' ⊆ m ∧ (Z.of_nat (size m) <= capacity s → hosts s' = m) ∧
           keeps_latest now m (hosts s')
  | _, _ => s' = s
  end.
Proof.
  intros Hok s'. split; [done|]. split; [by apply record_ok|]. unfold s'.
  destruct (canonical_name host) as [n|] eqn:Hn; [|unfold record; by rewrite Hn].
  destruct (is_ip_literal n) eqn:Hip.
  { unfold record. rewrite Hn, Hip. by destruct (parse value). }
  destruct (parse value) as [d|] eqn:Hd; [|unfold record; by rewrite Hn, Hip, Hd].
  cbv zeta. destruct (d_max_age d =? 0) eqn:E; bool_prop.
  { unfold record. rewrite Hn, Hip, Hd, E. done. }
  rewrite (record_pin s host value now n d) by done. destruct Hok as (Hcap & _).
  set (s1 := mk_hsts_store _ _). destruct (hsts_evict_spec s1 now Hcap) as (Hsub & _ & _ & Hroom & Hkeep).
  auto.
Qed.

(** A pinned host stays pinned: after a policy is learned for a host, every
    later spelling of that host - any case, with or without the root label - and,
    where the policy includes subdomains, of every name below it, must use HTTPS
    until the policy expires. *)
Theorem hsts_pins preload s host host' value d n n' now later :
  hsts_ok s → Z.of_nat (size (hosts s)) < capacity s →
  canonical_name host = Some n → is_ip_literal n = false →
  parse value = Some d → d_max_age d ≠ 0 →
  canonical_name host' = Some n' → is_ip_literal n' = false →
  to_ascii_lowercase n' = to_ascii_lowercase n ∨
  (d_include_subdomains d = true ∧
   ∃ child, to_ascii_lowercase n' = child ++ "."%char :: to_ascii_lowercase n) →
  later < expires (learned d now) →
  applies_to preload (record s host value true now) host' later = true.
Proof.
  intros (Hcap & _ & _) Hroom Hn Hip Hd H0 Hn' Hip' Hrel Hlater. rewrite (record_pin s host value now n d) by done.
  set (s1 := mk_hsts_store _ _).
  assert (Hs1 : hosts (evict s1 now) !! to_ascii_lowercase n = Some (learned d now)).
  { destruct (hsts_evict_spec s1 now) as (_ & _ & _ & Hfit & _); [done|].
    rewrite Hfit; [apply lookup_insert_eq|]. simpl.
    destruct (hosts s !! to_ascii_lowercase n) as [q|] eqn:Hq.
    - rewrite map_size_insert_Some by (by exists q). lia.
    - rewrite map_size_insert_None by done. lia. }
  apply hsts_applies_lemma. exists n'. split; [done|]. split; [done|]. cbv zeta.
  destruct Hrel as [-> | [Hinc (child & ->)]]; [left; eauto|]. right. left.
  exists child, (to_ascii_lowercase n), (learned d now). auto.
Qed.

(** The rewrite: a plaintext URL whose host must use HTTPS becomes the same
    host and path over [https], on the port it named or, where it named none, on
    443; every other URL is left alone and reported unchanged. *)
Theorem upgrade_exact `{UrlEditLaws} preload s url now h :
  scheme url = b#"http" → host_str url = Some h →
  if applies_to preload s h now then
    ∃ url', upgrade preload s url now = (true, url') ∧ scheme url' = b#"https" ∧
      host_str url' = Some h ∧ path url' = path url ∧
      port_or_known_default url' = Some (default 443 (url_port url))
  else upgrade preload s url now = (false, url).
Proof.
  intros Hs Hh. unfold upgrade. rewrite Hs, bool_decide_eq_true_2, Hh by done. cbn [negb].
  destruct (applies_to preload s h now); [|done]. cbn [negb].
  destruct (set_scheme_https url h Hs Hh) as (u & -> & Hs' & Hh' & Hp & Hport).
  rewrite decide_False by (intros E; apply (url_port_not_default url 80 E); by rewrite Hs).
  exists u. repeat (split; [done|]). rewrite (known_default u h) by auto.
  rewrite Hport, Hs'. destruct (url_port url) as [p|]; [|done].
  by destruct (decide (Some p = Some 443)) as [[= ->]|].
Qed.
