(* ===== verification/HstsPreload.v ===== *)
(** [chromulate-http]: the compiled-in HSTS preload list
    (src/crates/chromulate-http/src/hsts/preload.rs), a sorted table of names read
    in place by binary search, and the encoder that writes it
    (src/crates/chromulate-http/data/hsts-preload/generate.py).

    The blob is an argument of every definition.  A read outside it, which panics
    in the source, is [None]; an index fits a [usize] because it is at most four
    times a 32-bit count past the header. *)
From Stdlib Require Zbitwise.
From S2P Require Import Prelude RustStr RustTime RustNet Extern Hsts.
Local Open Scope Z_scope.

(** ** Reading the table (preload.rs) *)

Definition HEADER_LEN : nat := 16.
Definition FLAG_INCLUDE_SUBDOMAINS : Z := 2 ^ 31.
Definition OFFSET_MASK : Z := FLAG_INCLUDE_SUBDOMAINS - 1.

Section Table.
Context (blob : str).

Definition byte_at (at_ : nat) : option Z := code <$> blob !! at_.

(** [u32::from_le_bytes] of four bytes. *)
Definition word_at (at_ : nat) : option Z :=
  b0 ← byte_at at_; b1 ← byte_at (at_ + 1); b2 ← byte_at (at_ + 2); b3 ← byte_at (at_ + 3);
  Some (Z.lor b0 (Z.lor (Z.shiftl b1 8) (Z.lor (Z.shiftl b2 16) (Z.shiftl b3 24)))).

Definition ENTRY_COUNT : option nat := Z.to_nat <$> word_at 8.

Definition NAMES_START : option nat := (λ count, HEADER_LEN + 4 * (count + 1))%nat <$> ENTRY_COUNT.

(** [&BLOB[from..to]]. *)
Definition slice (from to : nat) : option str :=
  if decide (from ≤ to ∧ to ≤ length blob)%nat then Some (take (to - from) (drop from blob)) else None.

Definition name_at (index : nat) : option str :=
  start ← word_at (HEADER_LEN + 4 * index);
  end_ ← word_at (HEADER_LEN + 4 * (index + 1));
  names ← NAMES_START;
  slice (names + Z.to_nat (Z.land start OFFSET_MASK)) (names + Z.to_nat (Z.land end_ OFFSET_MASK)).

Definition includes_subdomains (index : nat) : option bool :=
  word ← word_at (HEADER_LEN + 4 * index);
  Some (negb (Z.land word FLAG_INCLUDE_SUBDOMAINS =? 0)).

(** [compare]: byte by byte with the query folded to lower case, then by length. *)
Fixpoint compare (table query : str) : comparison :=
  match table, query with
  | [], [] => Eq
  | [], _ :: _ => Lt
  | _ :: _, [] => Gt
  | t :: table, q :: query =>
      match code t ?= code (lower q) with Eq => compare table query | ordering => ordering end
  end.

(** The loop of [lookup], between [low] and [high]. *)
Fixpoint lookup_between (fuel low high : nat) (query : str) : option (option bool) :=
  match fuel with
  | O => None
  | S fuel =>
      if decide (low < high)%nat then
        let middle := (low + (high - low) / 2)%nat in
        name ← name_at middle;
        match compare name query with
        | Lt => lookup_between fuel (middle + 1) high query
        | Gt => lookup_between fuel low middle query
        | Eq => flag ← includes_subdomains middle; Some (Some flag)
        end
      else Some None
  end.

Definition lookup (name : str) : option (option bool) :=
  count ← ENTRY_COUNT; lookup_between (S count) 0 count name.

(** [while let Some((_, parent)) = rest.split_once('.')]. *)
Fixpoint covered_by_parent (fuel : nat) (rest : str) : option bool :=
  match fuel with
  | O => None
  | S fuel =>
      match split_once "."%char rest with
      | Some (_, parent) =>
          found ← lookup parent;
          if decide (found = Some true) then Some true else covered_by_parent fuel parent
      | None => Some false
      end
  end.

Definition covers (host : str) : option bool :=
  match canonical_name host with
  | None => Some false
  | Some host =>
      found ← lookup host;
      match found with
      | Some _ => Some true
      | None => covered_by_parent (S (length host)) host
      end
  end.
End Table.

(** ** Writing the table (generate.py) *)

Definition MAGIC : str := b#"CHROMHS1".

(** [int.to_bytes(4, 'little')]. *)
Definition to_bytes4 (w : Z) : str :=
  (λ i, ascii_of_nat (Z.to_nat (w / 2 ^ (8 * i) mod 256))) <$> [0; 1; 2; 3].

(** The index: each name's start with its flag in bit 31, then the sentinel. *)
Fixpoint index_words (start : Z) (names : list (str * bool)) : list Z :=
  match names with
  | [] => [start]
  | (name, include_subdomains) :: names =>
      Z.lor start (if include_subdomains : bool then FLAG_INCLUDE_SUBDOMAINS else 0)
      :: index_words (start + zlen name) names
  end.

(** The checks that stop the generator: two equal names, or an offset out of 31 bits. *)
Fixpoint duplicate_name (names : list (str * bool)) : bool :=
  match names with
  | x :: names' =>
      match names' with
      | y :: _ => bool_decide (x.1 = y.1) || duplicate_name names'
      | [] => false
      end
  | [] => false
  end.

Fixpoint outgrown (start : Z) (names : list (str * bool)) : bool :=
  match names with
  | [] => false
  | (name, _) :: names => (OFFSET_MASK <? start) || outgrown (start + zlen name) names
  end.

Definition sorted_names (entries : list (str * bool)) : list (str * bool) :=
  sort_by (λ x y, str_leb x.1 y.1) ((λ e, (to_ascii_lowercase e.1, e.2)) <$> entries).

Definition encode (entries : list (str * bool)) : option str :=
  let names := sorted_names entries in
  if duplicate_name names || outgrown 0 names then None
  else
    let blob := mjoin names.*1 in
    Some (MAGIC ++ to_bytes4 (zlen names) ++ to_bytes4 (zlen blob)
          ++ mjoin (to_bytes4 <$> index_words 0 names) ++ blob).

(** ** Words *)

Lemma to_bytes4_length w : length (to_bytes4 w) = 4%nat.
Proof. done. Qed.

Lemma bytes4_value w :
  0 <= w < 2 ^ 32 →
  let b i := w / 2 ^ (8 * i) mod 256 in
  Z.lor (b 0) (Z.lor (Z.shiftl (b 1) 8) (Z.lor (Z.shiftl (b 2) 16) (Z.shiftl (b 3) 24))) = w.
Proof.
  intros Hw b. unfold b. change 256 with (2 ^ 8).
  rewrite <- !Z.shiftr_div_pow2, <- !Z.land_ones by lia.
  apply Z.bits_inj'. intros n Hn.
  rewrite !Z.lor_spec. rewrite !Z.shiftl_spec by lia.
  assert (Hbyte : ∀ k m, Z.testbit (Z.land (Z.shiftr w k) (Z.ones 8)) m =
    if (0 <=? m) && (m <? 8) then Z.testbit w (m + k) else false).
  { intros k m. destruct (Z.ltb_spec m 0).
    { rewrite Z.testbit_neg_r by lia. by rewrite (proj2 (Z.leb_gt 0 m)) by lia. }
    rewrite Z.land_spec, Z.shiftr_spec, Z.testbit_ones_nonneg by lia.
    rewrite (proj2 (Z.leb_le 0 m)) by lia. simpl. destruct (m <? 8); [apply andb_true_r|apply andb_false_r]. }
  rewrite !Hbyte.
  assert (Hhigh : 32 <= n → Z.testbit w n = false).
  { intros Hn'. apply Z.testbit_false; [lia|].
    rewrite Z.div_small; [done|]. split; [lia|]. eapply Z.lt_le_trans; [apply Hw|].
    apply Z.pow_le_mono_r; lia. }
  replace (n + 8 * 0) with n by lia.
  replace (n - 8 + 8 * 1) with n by lia. replace (n - 16 + 8 * 2) with n by lia.
  replace (n - 24 + 8 * 3) with n by lia.
  destruct (Z.testbit w n) eqn:E;
    repeat match goal with
    | |- context [?a <=? ?b] => destruct (Z.leb_spec a b); simpl
    | |- context [?a <? ?b] => destruct (Z.ltb_spec a b); simpl
    end; try done; try lia; exfalso; rewrite Hhigh in E by lia; done.
Qed.

Lemma word_at_bytes4 pre w post :
  0 <= w < 2 ^ 32 → word_at (pre ++ to_bytes4 w ++ post) (length pre) = Some w.
Proof.
  intros Hw. unfold word_at, byte_at.
  assert (Hat : ∀ i, (i < 4)%nat →
    (pre ++ to_bytes4 w ++ post) !! (length pre + i)%nat = to_bytes4 w !! i).
  { intros i Hi. rewrite lookup_app_r, Nat.add_comm, Nat.add_sub by lia.
    by rewrite lookup_app_l by (rewrite to_bytes4_length; lia). }
  rewrite <- (Nat.add_0_r (length pre)) at 1. rewrite !Hat by lia.
  change (to_bytes4 w !! 0%nat) with (Some (ascii_of_nat (Z.to_nat (w / 2 ^ (8 * 0) mod 256)))).
  change (to_bytes4 w !! 1%nat) with (Some (ascii_of_nat (Z.to_nat (w / 2 ^ (8 * 1) mod 256)))).
  change (to_bytes4 w !! 2%nat) with (Some (ascii_of_nat (Z.to_nat (w / 2 ^ (8 * 2) mod 256)))).
  change (to_bytes4 w !! 3%nat) with (Some (ascii_of_nat (Z.to_nat (w / 2 ^ (8 * 3) mod 256)))).
  cbn [fmap option_fmap option_map mbind option_bind].
  rewrite !code_byte by (apply Z.mod_pos_bound; lia). f_equal. by apply (bytes4_value w).
Qed.

Lemma mjoin_bytes4_length ws : length (mjoin (to_bytes4 <$> ws)) = (4 * length ws)%nat.
Proof.
  induction ws as [|w ws IH]; [done|]. rewrite fmap_cons.
  change (length (to_bytes4 w ++ mjoin (to_bytes4 <$> ws)) = (4 * S (length ws))%nat).
  rewrite length_app, IH, to_bytes4_length. lia.
Qed.

(** Word [i] of a run of words in the middle of a blob. *)
Lemma word_at_run pre ws post i w :
  ws !! i = Some w → 0 <= w < 2 ^ 32 →
  word_at (pre ++ mjoin (to_bytes4 <$> ws) ++ post) (length pre + 4 * i) = Some w.
Proof.
  intros Hi Hw. pose proof (take_drop_middle ws i w Hi) as Hws.
  rewrite <- Hws. rewrite fmap_app, fmap_cons, join_app.
  change (mjoin (to_bytes4 w :: (to_bytes4 <$> drop (S i) ws)))
    with (to_bytes4 w ++ mjoin (to_bytes4 <$> drop (S i) ws)).
  assert (Hlen : (length pre + 4 * i = length (pre ++ mjoin (to_bytes4 <$> take i ws)))%nat).
  { rewrite length_app, mjoin_bytes4_length, length_take.
    apply lookup_lt_Some in Hi. lia. }
  rewrite Hlen. pose proof (word_at_bytes4 (pre ++ mjoin (to_bytes4 <$> take i ws)) w
    (mjoin (to_bytes4 <$> drop (S i) ws) ++ post) Hw) as H.
  rewrite <- !app_assoc in *. exact H.
Qed.

(** ** Index words *)

Lemma mask_word s (f : bool) :
  0 <= s <= OFFSET_MASK →
  Z.land (Z.lor s (if f then FLAG_INCLUDE_SUBDOMAINS else 0)) OFFSET_MASK = s ∧
  Z.land (Z.lor s (if f then FLAG_INCLUDE_SUBDOMAINS else 0)) FLAG_INCLUDE_SUBDOMAINS =
    (if f then FLAG_INCLUDE_SUBDOMAINS else 0) ∧
  0 <= Z.lor s (if f then FLAG_INCLUDE_SUBDOMAINS else 0) < 2 ^ 32.
Proof.
  intros Hs. rewrite !Z.land_lor_distr_l.
  assert (Hm : Z.land s OFFSET_MASK = s).
  { change OFFSET_MASK with (Z.ones 31). rewrite Z.land_ones by lia. apply Z.mod_small.
    unfold OFFSET_MASK, FLAG_INCLUDE_SUBDOMAINS in Hs. lia. }
  assert (Hf : Z.land s FLAG_INCLUDE_SUBDOMAINS = 0).
  { rewrite <- Hm, <- Z.land_assoc. apply Z.land_0_r. }
  rewrite Hm, Hf. split; [destruct f; apply Z.lor_0_r|]. split; [by destruct f|].
  assert (Hlor : Z.lor s (if f then FLAG_INCLUDE_SUBDOMAINS else 0) =
                 s + if f then FLAG_INCLUDE_SUBDOMAINS else 0).
  { destruct f; [|rewrite Z.lor_0_r; lia]. rewrite <- Zbitwise.Z.add_lor_land, Hf. lia. }
  rewrite Hlor. unfold OFFSET_MASK, FLAG_INCLUDE_SUBDOMAINS in *. destruct f; lia.
Qed.

(** The index of a table cut in two: the second part starts where the first ends. *)
Lemma index_words_app a b s :
  ∃ ws, length ws = length a ∧
    index_words s (a ++ b) = ws ++ index_words (s + zlen (mjoin a.*1)) b.
Proof.
  revert s. induction a as [|[n f] a IH]; intros s; simpl.
  { exists []. split; [done|]. change (zlen (mjoin (M:=list) ([] : list (str * bool)).*1)) with 0. by rewrite Z.add_0_r. }
  destruct (IH (s + zlen n)) as (ws & Hl & Hw). eexists (_ :: ws). split; [simpl; congruence|].
  rewrite Hw, <- app_comm_cons. do 3 f_equal.
  change (mjoin (((n, f) :: a).*1)) with (n ++ mjoin a.*1). rewrite zlen_app. by rewrite Z.add_assoc.
Qed.

Lemma index_words_head s b :
  0 <= s <= OFFSET_MASK →
  ∃ w ws, index_words s b = w :: ws ∧ Z.land w OFFSET_MASK = s ∧ 0 <= w < 2 ^ 32.
Proof.
  intros Hs. destruct b as [|[n f] b]; simpl; eexists _, _; (split; [done|]).
  - destruct (mask_word s false Hs) as (Hm & _ & Hr). by rewrite Z.lor_0_r in *.
  - by destruct (mask_word s f Hs) as (Hm & _ & Hr).
Qed.

(** ** A table as the generator writes it *)

Section Encoded.
Context (names : list (str * bool)).
Context (few : zlen names < 2 ^ 32) (small : zlen (mjoin names.*1) <= OFFSET_MASK).

Definition table : str :=
  MAGIC ++ to_bytes4 (zlen names) ++ to_bytes4 (zlen (mjoin names.*1))
  ++ mjoin (to_bytes4 <$> index_words 0 names) ++ mjoin names.*1.

Lemma table_count : ENTRY_COUNT table = Some (length names).
Proof.
  unfold ENTRY_COUNT, table. change 8%nat with (length MAGIC).
  rewrite word_at_bytes4 by (pose proof (zlen_nonneg names); lia).
  simpl. unfold zlen. by rewrite Nat2Z.id.
Qed.

Lemma table_word i w :
  index_words 0 names !! i = Some w → 0 <= w < 2 ^ 32 → word_at table (HEADER_LEN + 4 * i) = Some w.
Proof.
  intros Hi Hw. unfold table. rewrite !(app_assoc _ _ (mjoin (_ <$> _) ++ _)).
  change HEADER_LEN with
    (length ((MAGIC ++ to_bytes4 (zlen names)) ++ to_bytes4 (zlen (mjoin names.*1)))).
  by apply word_at_run.
Qed.

Lemma index_words_length s ns : length (index_words s ns) = S (length ns).
Proof. revert s. induction ns as [|[n f] ns IH]; intros s; simpl; [done|]. by rewrite IH. Qed.

Lemma table_names_start :
  NAMES_START table = Some (HEADER_LEN + 4 * (length names + 1))%nat ∧
  ∃ pre, table = pre ++ mjoin names.*1 ∧ length pre = (HEADER_LEN + 4 * (length names + 1))%nat.
Proof.
  unfold NAMES_START. rewrite table_count. split; [done|].
  eexists (MAGIC ++ to_bytes4 (zlen names) ++ to_bytes4 (zlen (mjoin names.*1))
           ++ mjoin (to_bytes4 <$> index_words 0 names)).
  split; [unfold table; by rewrite <- !app_assoc|].
  rewrite !length_app, mjoin_bytes4_length, index_words_length, !to_bytes4_length.
  change (length MAGIC) with 8%nat. unfold HEADER_LEN. lia.
Qed.

(** Entry [i] is read back as it was written. *)
Lemma table_entry i n f :
  names !! i = Some (n, f) →
  name_at table i = Some n ∧ includes_subdomains table i = Some f.
Proof.
  intros Hi. pose proof (take_drop_middle names i _ Hi) as Hsplit.
  set (a := take i names) in *. set (b := drop (S i) names) in *.
  assert (Hla : length a = i) by (unfold a; rewrite length_take; apply lookup_lt_Some in Hi; lia).
  assert (Hjoin : mjoin names.*1 = mjoin a.*1 ++ n ++ mjoin b.*1).
  { rewrite <- Hsplit, fmap_app, join_app. done. }
  set (s := zlen (mjoin a.*1)). pose proof (zlen_nonneg (mjoin a.*1)).
  pose proof (zlen_nonneg n). pose proof (zlen_nonneg (mjoin b.*1)).
  assert (Hs : s + zlen n <= OFFSET_MASK).
  { rewrite Hjoin, !zlen_app in small. unfold s. lia. }
  destruct (index_words_app a ((n, f) :: b) 0) as (ws & Hlw & Hiw). rewrite Hsplit in Hiw.
  replace (0 + zlen (mjoin a.*1)) with s in Hiw by (unfold s; lia).
  destruct (mask_word s f) as (Hmask & Hflag & Hrange); [unfold s in *; lia|].
  destruct (index_words_head (s + zlen n) b) as (w2 & ws2 & Hw2 & Hm2 & Hr2); [unfold s in *; lia|].
  simpl in Hiw. rewrite Hw2 in Hiw.
  assert (Hword1 : word_at table (HEADER_LEN + 4 * i) =
               Some (Z.lor s (if f then FLAG_INCLUDE_SUBDOMAINS else 0))).
  { apply table_word; [|done]. rewrite Hiw, lookup_app_r, Hlw, Hla, Nat.sub_diag by lia. done. }
  assert (Hword2 : word_at table (HEADER_LEN + 4 * (i + 1)) = Some w2).
  { apply table_word; [|done]. rewrite Hiw, lookup_app_r by lia.
    replace (i + 1 - length ws)%nat with 1%nat by lia. done. }
  unfold name_at, includes_subdomains. rewrite Hword1, Hword2.
  destruct table_names_start as [-> (pre & Hpre & Hlp)]. cbn [mbind option_bind].
  rewrite Hmask, Hm2, Hflag. split.
  - assert (Z.to_nat s = length (mjoin a.*1)) as -> by (unfold s, zlen; lia).
    assert (Z.to_nat (s + zlen n) = length (mjoin a.*1) + length n)%nat as -> by (unfold s, zlen; lia).
    unfold slice. rewrite Hpre, Hjoin, <- Hlp, !length_app, decide_True by lia. f_equal.
    rewrite <- drop_drop, drop_app_length, drop_app_length.
    replace (_ - _)%nat with (length n) by lia. by rewrite take_app_length.
  - by destruct f.
Qed.
End Encoded.

(** ** Searching a sorted table *)

Lemma compare_spec t q :
  match compare t q with
  | Eq => t = to_ascii_lowercase q
  | Lt => str_leb t (to_ascii_lowercase q) = true ∧ t ≠ to_ascii_lowercase q
  | Gt => str_leb (to_ascii_lowercase q) t = true ∧ t ≠ to_ascii_lowercase q
  end.
Proof.
  unfold to_ascii_lowercase. revert q. induction t as [|x t IH]; intros [|y q]; simpl; try done.
  destruct (Z.compare_spec (code x) (code (lower y))) as [Heq|Hlt|Hgt].
  - apply code_inj in Heq as ->. specialize (IH q). rewrite Z.eqb_refl, Z.ltb_irrefl. simpl.
    destruct (compare t q); [by f_equal|..]; (split; [by apply IH|]); intros [= ?]; by apply IH.
  - split; [by rewrite (proj2 (Z.ltb_lt _ _) Hlt)|]. intros [= -> _]. lia.
  - split; [by rewrite (proj2 (Z.ltb_lt _ _) Hgt)|]. intros [= -> _]. lia.
Qed.

Section Search.
Context (names : list (str * bool)).
Context (few : zlen names < 2 ^ 32) (small : zlen (mjoin names.*1) <= OFFSET_MASK).
Context (sorted : StronglySorted (λ x y, str_leb x.1 y.1 = true) names) (distinct : NoDup names.*1).

Lemma sorted_le i j x y :
  names !! i = Some x → names !! j = Some y → (i <= j)%nat → str_leb x.1 y.1 = true.
Proof.
  intros Hi Hj Hij. destruct (decide (i = j)) as [->|Hne].
  { assert (x = y) as -> by congruence. by destruct (str_leb_total y.1 y.1). }
  rewrite <- (take_drop j names) in sorted, Hi.
  rewrite lookup_app_l in Hi by (rewrite length_take; apply lookup_lt_Some in Hj; lia).
  apply (StronglySorted_app_1_elem_of _ _ _ x y sorted).
  - by eapply list_elem_of_lookup_2.
  - apply list_elem_of_lookup. exists 0%nat. by rewrite lookup_drop, Nat.add_0_r.
Qed.

(** The search terminates inside the table and finds exactly the entry with the
    folded name. *)
Lemma lookup_between_spec fuel low high q :
  let k := to_ascii_lowercase q in
  (high - low < fuel)%nat → (low ≤ high ≤ length names)%nat →
  (∀ i x, names !! i = Some x → (i < low ∨ high ≤ i)%nat → x.1 ≠ k) →
  ∃ r, lookup_between (table names) fuel low high q = Some r ∧ ∀ f, r = Some f ↔ (k, f) ∈ names.
Proof.
  intros k. revert low high. induction fuel as [|fuel IH]; intros low high Hfuel Hb Hout; [lia|].
  cbn [lookup_between]. case_decide as Hlh.
  2:{ exists None. split; [done|]. intros f. split; [done|]. intros [i Hi]%list_elem_of_lookup.
      exfalso. apply (Hout i _ Hi); [lia|done]. }
  set (middle := (low + (high - low) / 2)%nat).
  assert (Hmid : (low ≤ middle < high)%nat).
  { unfold middle. pose proof (Nat.div_lt (high - low) 2). lia. }
  destruct (lookup_lt_is_Some_2 names middle) as [[n f] Hn]; [lia|].
  destruct (table_entry names few small middle n f Hn) as [-> Hflag]. cbn [mbind option_bind].
  pose proof (compare_spec n q) as Hcmp. fold k in Hcmp. destruct (compare n q).
  - rewrite Hflag. exists (Some f). split; [done|]. subst n. intros f'. split.
    + intros [= <-]. by eapply list_elem_of_lookup_2.
    + intros [j Hj]%list_elem_of_lookup.
      assert (j = middle) as -> by (eapply (NoDup_lookup names.*1); [done|..];
        rewrite list_lookup_fmap; [by rewrite Hj|by rewrite Hn]).
      congruence.
  - apply IH; [lia|lia|]. intros i x Hi Hor Hx. destruct (decide (middle < i)%nat).
    { apply (Hout i x Hi); [lia|done]. }
    destruct Hcmp as [Hle Hne]. apply Hne, str_leb_antisym; [done|].
    rewrite <- Hx. apply (sorted_le i middle x (n, f)); [done|done|lia].
  - apply IH; [lia|lia|]. intros i x Hi Hor Hx. destruct (decide (i < middle)%nat).
    { apply (Hout i x Hi); [lia|done]. }
    destruct Hcmp as [Hle Hne]. apply Hne, str_leb_antisym; [|done].
    rewrite <- Hx. apply (sorted_le middle i (n, f) x); [done|done|lia].
Qed.

Lemma table_lookup q :
  ∃ r, lookup (table names) q = Some r ∧ ∀ f, r = Some f ↔ (to_ascii_lowercase q, f) ∈ names.
Proof.
  unfold lookup. rewrite table_count by done. cbn [mbind option_bind].
  apply lookup_between_spec; [lia|lia|]. intros i x Hi%lookup_lt_Some. lia.
Qed.
End Search.

Section Covered.
Context (names : list (str * bool)).
Context (few : zlen names < 2 ^ 32) (small : zlen (mjoin names.*1) <= OFFSET_MASK).
Context (sorted : StronglySorted (λ x y, str_leb x.1 y.1 = true) names) (distinct : NoDup names.*1).

Lemma covered_by_parent_spec fuel rest :
  (length rest < fuel)%nat →
  ∃ b, covered_by_parent (table names) fuel rest = Some b ∧
    (b = true ↔ ∃ child parent, rest = child ++ "."%char :: parent ∧
                                (to_ascii_lowercase parent, true) ∈ names).
Proof.
  intros Hfuel.
  set (covered p := bool_decide ((to_ascii_lowercase p, true) ∈ names)).
  enough (Heq : covered_by_parent (table names) fuel rest = Some (any_parent fuel covered rest)).
  { exists (any_parent fuel covered rest). split; [done|]. rewrite any_parent_spec by done.
    unfold covered. by setoid_rewrite bool_decide_eq_true. }
  revert rest Hfuel. induction fuel as [|fuel IH]; intros rest Hfuel; [lia|].
  cbn [covered_by_parent any_parent].
  destruct (split_once_cases "."%char rest) as [[-> _]|(a & b & -> & ->)]; [done|].
  rewrite length_app in Hfuel. simpl in Hfuel.
  destruct (table_lookup names few small sorted distinct b) as (r & -> & Hr). cbn [mbind option_bind].
  unfold covered at 1. case_decide as Hd.
  - by rewrite bool_decide_eq_true_2 by (by apply Hr).
  - rewrite bool_decide_eq_false_2 by (by intros ?%Hr). apply IH. lia.
Qed.

Lemma table_covers host :
  ∃ b, covers (table names) host = Some b ∧
    (b = true ↔ ∃ n, canonical_name host = Some n ∧
       ((∃ f, (to_ascii_lowercase n, f) ∈ names) ∨
        ∃ child parent, n = child ++ "."%char :: parent ∧ (to_ascii_lowercase parent, true) ∈ names)).
Proof.
  unfold covers. destruct (canonical_name host) as [n|].
  2:{ exists false. split; [done|]. split; [done|]. by intros (? & ? & _). }
  destruct (table_lookup names few small sorted distinct n) as (r & -> & Hr). cbn [mbind option_bind].
  destruct r as [f|].
  { exists true. split; [done|]. split; [|done]. intros _. exists n. split; [done|]. left.
    exists f. by apply Hr. }
  destruct (covered_by_parent_spec (S (length n)) n) as (b & -> & Hb); [lia|].
  exists b. split; [done|]. rewrite Hb. split.
  - intros H. exists n. auto.
  - intros (n0 & [= <-] & [[f Hf]|H]); [|done]. by apply Hr in Hf.
Qed.
End Covered.

(** ** From the generator to the lookup *)

Lemma sorted_names_sorted entries :
  StronglySorted (λ x y : str * bool, str_leb x.1 y.1 = true) (sorted_names entries).
Proof.
  apply (sort_by_ordered (λ x y : str * bool, str_leb x.1 y.1));
    [intros; apply str_leb_total|intros x y z; apply str_leb_trans].
Qed.

Lemma duplicate_name_NoDup names :
  StronglySorted (λ x y, str_leb x.1 y.1 = true) names → duplicate_name names = false → NoDup names.*1.
Proof.
  induction names as [|x names IH]; intros Hs Hd; [constructor|].
  inversion Hs as [|? ? Hs' Hx]; subst. rewrite fmap_cons. destruct names as [|y names].
  { apply NoDup_singleton. }
  cbn [duplicate_name] in Hd. apply orb_false_iff in Hd as [Hxy Hd].
  apply bool_decide_eq_false in Hxy. constructor; [|by apply IH].
  intros (z & Hz & Hin)%list_elem_of_fmap. apply Hxy, str_leb_antisym; [by inversion Hx|].
  rewrite Hz. apply elem_of_cons in Hin as [->|Hin]; [by destruct (str_leb_total y.1 y.1)|].
  inversion Hs' as [|? ? _ Hy]; subst. rewrite Forall_forall in Hy. by apply Hy.
Qed.

Lemma elem_of_sorted_names entries k f :
  (k, f) ∈ sorted_names entries ↔ ∃ n, (n, f) ∈ entries ∧ k = to_ascii_lowercase n.
Proof.
  unfold sorted_names. rewrite sort_by_perm, list_elem_of_fmap. split.
  - intros ([n f'] & [= -> ->] & Hn). eauto.
  - intros (n & Hn & ->). by exists (n, f).
Qed.

Lemma sorted_names_size entries :
  zlen (sorted_names entries) = zlen entries ∧
  zlen (mjoin (sorted_names entries).*1) = zlen (mjoin entries.*1).
Proof.
  unfold sorted_names. split.
  - rewrite (zlen_perm _ _ (sort_by_perm _ _)). unfold zlen. by rewrite length_fmap.
  - rewrite !zlen_mjoin, (zsum_perm _ _ (fmap_Permutation _ _ _ (fmap_Permutation _ _ _ (sort_by_perm _ _)))).
    f_equal. rewrite <- !list_fmap_compose. apply list_fmap_ext. intros _ [n f] _.
    unfold zlen, compose. simpl. unfold to_ascii_lowercase. by rewrite length_fmap.
Qed.

(** The preload table round-trips: whatever list of hosts the generator encodes,
    the binary search over the encoded bytes never reads outside them, always ends,
    and finds a name in any case exactly when it was listed, with its flag; and a
    host is covered exactly when it is a name that is listed, or that has a parent
    at a label boundary listed with its subdomains. *)
Theorem preload_roundtrip entries blob :
  encode entries = Some blob → zlen entries < 2 ^ 32 → zlen (mjoin entries.*1) <= OFFSET_MASK →
  (∀ q, ∃ r, lookup blob q = Some r ∧
     ∀ f, r = Some f ↔ ∃ n, (n, f) ∈ entries ∧ to_ascii_lowercase q = to_ascii_lowercase n) ∧
  (∀ host, ∃ b, covers blob host = Some b ∧
     (b = true ↔ ∃ n, canonical_name host = Some n ∧
        ((∃ f m, (m, f) ∈ entries ∧ to_ascii_lowercase n = to_ascii_lowercase m) ∨
         ∃ child parent m, n = child ++ "."%char :: parent ∧ (m, true) ∈ entries ∧
           to_ascii_lowercase parent = to_ascii_lowercase m))).
Proof.
  intros Henc Hfew Hsmall. unfold encode in Henc. destruct (_ || _) eqn:E; [done|].
  apply orb_false_iff in E as [Hdup _]. injection Henc as <-. fold (table (sorted_names entries)).
  destruct (sorted_names_size entries) as [Hsz Hjoin].
  pose proof (sorted_names_sorted entries) as Hs. pose proof (duplicate_name_NoDup _ Hs Hdup) as Hnd.
  split.
  - intros q. destruct (table_lookup (sorted_names entries)) with (q := q) as (r & Hr & Hf); [lia|lia|done|done|].
    exists r. split; [done|]. intros f. by rewrite Hf, elem_of_sorted_names.
  - intros host. destruct (table_covers (sorted_names entries)) with (host := host) as (b & Hb & Hiff);
      [lia|lia|done|done|].
    exists b. split; [done|]. rewrite Hiff. setoid_rewrite elem_of_sorted_names. naive_solver.
Qed.
