(* ===== verification/CookieScope.v ===== *)
(** [chromulate-cookie]: domain and path scoping
    (src/crates/chromulate-cookie/src/domain.rs and path.rs). *)
From S2P Require Import Prelude RustStr RustNet Extern.

(** ** Domains (domain.rs) *)

Definition is_ip_literal (host : str) : bool :=
  match strip_prefix b#"[" host ≫= strip_suffix b#"]" with
  | Some inner => parses_ipv6 inner
  | None => parses_ipv4 host
  end.

Definition domain_matches (host cookie_domain : str) : bool :=
  if decide (host = cookie_domain) then true
  else if is_ip_literal host then false
  else match strip_suffix cookie_domain host with
       | Some prefix => ends_with prefix b#"."
       | None => false
       end.

Section With_psl.
Context `{Psl}.

Definition is_public_suffix (domain : str) : bool := bool_decide (psl_domain domain = None).

Definition site_of (host : str) : str :=
  if is_ip_literal host then host else default host (psl_domain host).

Definition is_same_site (a b : str) : bool := bool_decide (site_of a = site_of b).
End With_psl.

(** ** Paths (path.rs) *)

Definition default_path (request_path : str) : str :=
  if starts_with request_path b#"/" then
    match rfind_by (is_char "/"%char) request_path with
    | Some 0 | None => b#"/"
    | Some last_slash => take last_slash request_path
    end
  else b#"/".

Definition path_matches (request_path cookie_path : str) : bool :=
  if decide (request_path = cookie_path) then true
  else if negb (starts_with request_path cookie_path) then false
  else ends_with cookie_path b#"/"
       || bool_decide (request_path !! length cookie_path = Some "/"%char).

(** ** Properties *)

(** RFC 6265 section 5.1.3 as a relation: equal, or a name (not an IP literal)
    below the cookie's domain at a label boundary. *)
Definition DomainMatch (host domain : str) : Prop :=
  host = domain ∨ (is_ip_literal host = false ∧ ∃ p, host = p ++ b#"." ++ domain).

Lemma domain_matches_iff host domain :
  domain_matches host domain = true ↔ DomainMatch host domain.
Proof.
  unfold domain_matches, DomainMatch. case_decide as Heq; [naive_solver|].
  destruct (is_ip_literal host); [naive_solver|].
  destruct (strip_suffix domain host) as [prefix|] eqn:Hs.
  - apply strip_suffix_Some in Hs as ->. rewrite ends_with_spec. split.
    + intros [r ->]. right. split; [done|]. exists r. by rewrite <- app_assoc.
    + intros [?|(_ & p & Hp)]; [done|]. rewrite app_assoc in Hp.
      apply app_inj_2 in Hp as [-> _]; [by eexists|done].
  - split; [done|]. intros [?|(_ & p & ->)]; [done|].
    assert (strip_suffix domain (p ++ b#"." ++ domain) = Some (p ++ b#".")) as Hs';
      [|congruence].
    apply strip_suffix_Some. by rewrite <- app_assoc.
Qed.

(** RFC 6265 section 5.1.4 as a relation: equal, or a prefix that ends on a
    segment boundary. *)
Definition PathMatch (request_path cookie_path : str) : Prop :=
  request_path = cookie_path ∨
  ∃ r, request_path = cookie_path ++ r ∧
       ((∃ p, cookie_path = p ++ b#"/") ∨ ∃ t, r = b#"/" ++ t).

Lemma path_matches_iff rp cp : path_matches rp cp = true ↔ PathMatch rp cp.
Proof.
  unfold path_matches, PathMatch. case_decide as Heq; [naive_solver|].
  destruct (starts_with rp cp) eqn:Hs; simpl.
  - apply starts_with_spec in Hs as [r ->].
    rewrite orb_true_iff, bool_decide_eq_true, ends_with_spec.
    rewrite lookup_app_r, Nat.sub_diag by lia.
    assert (Hhead : r !! 0 = Some "/"%char ↔ ∃ t, r = b#"/" ++ t).
    { destruct r as [|c r]; simpl; split; [done|by intros [? ?]| |by intros [? [= -> _]]].
      intros [= ->]. by eexists. }
    rewrite Hhead. split; [naive_solver|]. intros [?|(r' & Hr & Hb)]; [done|].
    apply app_inv_head in Hr as <-. done.
  - split; [done|]. intros [?|(r & -> & _)]; [done|].
    rewrite <- not_true_iff_false, starts_with_spec in Hs. naive_solver.
Qed.

Lemma starts_with_slash p : starts_with p b#"/" = true ↔ ∃ r, p = "/"%char :: r.
Proof. rewrite starts_with_spec. done. Qed.

Lemma default_path_absolute p : starts_with (default_path p) b#"/" = true.
Proof.
  unfold default_path. destruct (starts_with p b#"/") eqn:Hp; [|done].
  apply starts_with_slash in Hp as [r ->].
  destruct (rfind_by _ _) as [[|i]|]; simpl; apply starts_with_slash; eauto.
Qed.

(** The default path of a request always covers that request. *)
Lemma default_path_matches p :
  starts_with p b#"/" = true → path_matches p (default_path p) = true.
Proof.
  intros Hp. apply path_matches_iff. unfold default_path. rewrite Hp.
  apply starts_with_slash in Hp as [r ->].
  destruct (rfind_by _ _) as [[|i]|] eqn:Hr.
  - right. exists r. split; [done|]. left. by exists [].
  - right. apply rfind_by_Some in Hr as (c & Hc & Hp & _).
    unfold is_char in Hp. bool_prop. subst c.
    exists (drop (S i) ("/"%char :: r)). split; [by rewrite take_drop|].
    right. exists (drop (S (S i)) ("/"%char :: r)). by apply drop_S.
  - right. exists r. split; [done|]. left. by exists [].
Qed.

#[export] Instance is_same_site_equivalence `{Psl} :
  Equivalence (λ a b, is_same_site a b = true).
Proof.
  unfold is_same_site. split; repeat intro; bool_prop; congruence.
Qed.

(** Cookie scope is decided exactly as RFC 6265 says: a host domain-matches a
    cookie's domain iff they are equal or the host is a name - never an IP literal -
    ending in that domain at a label boundary; a request path matches a cookie's
    path iff they are equal or it extends it at a segment boundary; and the default
    path of a request always covers that request. *)
Theorem cookie_scope_exact :
  (∀ host domain, domain_matches host domain = true ↔ DomainMatch host domain) ∧
  (∀ request_path cookie_path,
     path_matches request_path cookie_path = true ↔ PathMatch request_path cookie_path) ∧
  ∀ p, starts_with p b#"/" = true → path_matches p (default_path p) = true.
Proof. split_and!; [apply domain_matches_iff|apply path_matches_iff|apply default_path_matches]. Qed.
