(* ===== verification/CookieDate.v ===== *)
(** [chromulate-cookie]: the lenient [cookie-date] parser of RFC 6265 section
    5.1.1 (src/crates/chromulate-cookie/src/date.rs). *)
From S2P Require Import Prelude RustStr RustTime Calendar.
Local Open Scope Z_scope.

Definition MONTHS : list str :=
  [b#"jan"; b#"feb"; b#"mar"; b#"apr"; b#"may"; b#"jun";
   b#"jul"; b#"aug"; b#"sep"; b#"oct"; b#"nov"; b#"dec"].

Definition is_delimiter (c : ascii) : bool :=
  (code c =? 9) || in_range 32 47 c || in_range 59 64 c || in_range 91 96 c || in_range 123 126 c.

Definition leading_digits (token : str) : option (Z * nat) :=
  let stop := default (length token) (find_by (λ c, negb (is_ascii_digit c)) token) in
  if decide (stop = 0%nat) then None
  else value ← parse_u32 (take stop token); Some (value, stop).

(** One or two digits, the test [try_time] applies to the hour and minute. *)
Definition one_or_two_digits (s : str) : bool :=
  negb (bool_decide (s = []) || (2 <? zlen s) || negb (all_digits s)).

Definition try_time (token : str) : option (Z * Z * Z) :=
  '(hour, tail) ← split_once ":"%char token;
  '(minute, rest) ← split_once ":"%char tail;
  if negb (one_or_two_digits hour) then None
  else if negb (one_or_two_digits minute) then None
  else '(second, second_len) ← leading_digits rest;
       if (2 <? Z.of_nat second_len) then None
       else hour ← parse_u32 hour; minute ← parse_u32 minute; Some (hour, minute, second).

Definition days_from_civil (y m d : Z) : Z :=
  let y := if m <=? 2 then y - 1 else y in
  let era := Z.quot (if 0 <=? y then y else y - 399) 400 in
  let yoe := y - era * 400 in
  let mp := Z.rem (m + 9) 12 in
  let doy := Z.quot (153 * mp + 2) 5 + d - 1 in
  let doe := yoe * 365 + Z.quot yoe 4 - Z.quot yoe 100 + doy in
  era * 146097 + doe - 719468.

(** [UNIX_EPOCH + d] and [UNIX_EPOCH - d] panic out of range;
    [epoch_seconds_in_range] shows they never do for an [i64]. *)
Definition epoch_seconds_to_system_time (seconds : Z) : SystemTime :=
  if 0 <=? seconds then UNIX_EPOCH + from_secs seconds
  else UNIX_EPOCH - from_secs (Z.abs seconds).

Definition system_time_to_epoch_seconds (time : SystemTime) : Z :=
  match duration_since time UNIX_EPOCH with
  | inl since_epoch => as_secs since_epoch
  | inr before_epoch => - as_secs before_epoch
  end.

(** The four [found_*] variables of the scan. *)
Record found := mk_found {
  found_time : option (Z * Z * Z);
  found_day : option Z;
  found_month : option Z;
  found_year : option Z;
}.

Definition found_nothing : found := mk_found None None None None.

Definition month_prefix (token : str) : option Z :=
  if decide (length token < 3)%nat then None
  else let prefix := to_ascii_lowercase (take 3 token) in
       (λ p, Z.of_nat p.1 + 1) <$> list_find (λ m, m = prefix) MONTHS.

(** The body of the token loop: the first slot the token fits, in order.  The
    run of digits is never empty, so [len <= 2] is one digit or two. *)
Definition date_step (f : found) (token : str) : found :=
  match found_time f, try_time token with
  | None, Some time => mk_found (Some time) (found_day f) (found_month f) (found_year f)
  | _, _ =>
      match found_day f, leading_digits token with
      | None, Some (value, 1%nat) | None, Some (value, 2%nat) =>
          mk_found (found_time f) (Some value) (found_month f) (found_year f)
      | _, _ =>
          match found_month f, month_prefix token with
          | None, Some m => mk_found (found_time f) (found_day f) (Some m) (found_year f)
          | _, _ =>
              match found_year f, leading_digits token with
              | None, Some (value, 2%nat) | None, Some (value, 4%nat) =>
                  mk_found (found_time f) (found_day f) (found_month f) (Some value)
              | _, _ => f
              end
          end
      end
  end.

Definition date_tokens (input : str) : list str :=
  filter (λ t, t ≠ []) (split_by is_delimiter input).

Definition parse_cookie_date (input : str) : option SystemTime :=
  let f := foldl date_step found_nothing (date_tokens input) in
  '(hour, minute, second) ← found_time f;
  day ← found_day f;
  month ← found_month f;
  year ← found_year f;
  if (23 <? hour) || (59 <? minute) || (60 <? second) || (day =? 0) || (31 <? day) then None
  else
    let year := if (70 <=? year) && (year <=? 99) then year + 1900
                else if year <=? 69 then year + 2000 else year in
    if year <? 1601 then None
    else
      let days := days_from_civil year month day in
      let seconds := days * 86400 + hour * 3600 + minute * 60 + second in
      Some (epoch_seconds_to_system_time seconds).

Example rfc1123 :
  parse_cookie_date b#"Wed, 21 Oct 2015 07:28:00 GMT" = Some (from_secs 1445412480).
Proof. vm_compute. reflexivity. Qed.
Example rfc850 :
  parse_cookie_date b#"Sunday, 06-Nov-94 08:49:37 GMT" = Some (from_secs 784111777).
Proof. vm_compute. reflexivity. Qed.
Example asctime :
  parse_cookie_date b#"Sun Nov  6 08:49:37 1994" = Some (from_secs 784111777).
Proof. vm_compute. reflexivity. Qed.

(** ** Properties *)

(** The era arithmetic, in closed form: a year count with the leap rule. *)
Lemma days_from_civil_closed y m d :
  days_from_civil y m d =
  (let y' := if m <=? 2 then y - 1 else y in
   365 * y' + y' / 4 - y' / 100 + y' / 400 + Z.quot (153 * Z.rem (m + 9) 12 + 2) 5 + d - 719469).
Proof.
  unfold days_from_civil. set (y' := if m <=? 2 then y - 1 else y). clearbody y'. cbv zeta.
  assert (Hera : Z.quot (if 0 <=? y' then y' else y' - 399) 400 = y' / 400).
  { destruct (0 <=? y') eqn:E; bool_prop; Z.to_euclidean_division_equations; lia. }
  rewrite Hera. set (doy := Z.quot (_ + 2) 5). clearbody doy. clear Hera.
  Z.to_euclidean_division_equations; lia.
Qed.

(** Evaluates the closed subterms of the month arithmetic. *)
Ltac fold_constants :=
  repeat match goal with
  | |- context [Z.quot ?a 5] => let v := eval vm_compute in (Z.quot a 5) in change (Z.quot a 5) with v
  | |- context [?a <=? 2] => let v := eval vm_compute in (a <=? 2) in change (a <=? 2) with v
  | |- context [Zpos ?a =? Zpos ?b] =>
      let v := eval vm_compute in (Zpos a =? Zpos b) in change (Zpos a =? Zpos b) with v
  end; cbn [orb andb negb]; cbv iota zeta.

(** Crossing a month boundary advances the count by one, for each month. *)
Lemma days_from_civil_month_end y m :
  1 <= m < 12 → days_from_civil y (m + 1) 1 = days_from_civil y m (days_in_month y m) + 1.
Proof.
  intros Hm. rewrite !days_from_civil_closed. unfold days_in_month, is_leap.
  assert (Hc : m = 1 ∨ m = 2 ∨ m = 3 ∨ m = 4 ∨ m = 5 ∨ m = 6 ∨ m = 7 ∨ m = 8 ∨ m = 9 ∨
               m = 10 ∨ m = 11) by lia.
  destruct Hc as [->|[->|[->|[->|[->|[->|[->|[->|[->|[->| ->]]]]]]]]]]; fold_constants; try lia.
  destruct ((y mod 4 =? 0) && _) eqn:E; bool_prop; Z.to_euclidean_division_equations; lia.
Qed.

Lemma days_from_civil_year_end y :
  days_from_civil (y + 1) 1 1 = days_from_civil y 12 31 + 1.
Proof. rewrite !days_from_civil_closed. fold_constants. replace (y + 1 - 1) with y by lia. lia. Qed.

(** The conversions between instants and signed seconds. *)
Lemma epoch_seconds_in_range s :
  i64_min <= s <= i64_max → system_time_ok (epoch_seconds_to_system_time s).
Proof.
  unfold i64_min, i64_max, system_time_ok, system_time_min, system_time_max,
    epoch_seconds_to_system_time, UNIX_EPOCH, from_secs, nanos.
  destruct (0 <=? s) eqn:E; bool_prop; lia.
Qed.

Lemma epoch_seconds_eq s : epoch_seconds_to_system_time s = from_secs s.
Proof.
  unfold epoch_seconds_to_system_time, UNIX_EPOCH, from_secs.
  destruct (0 <=? s) eqn:E; bool_prop; lia.
Qed.

Lemma epoch_seconds_roundtrip s :
  system_time_to_epoch_seconds (epoch_seconds_to_system_time s) = s.
Proof.
  rewrite epoch_seconds_eq.
  unfold system_time_to_epoch_seconds, duration_since, UNIX_EPOCH, from_secs, as_secs, nanos.
  destruct (0 <=? _) eqn:E; bool_prop; Z.to_euclidean_division_equations; lia.
Qed.

(** Going through whole seconds moves an instant towards the epoch by less
    than a second. *)
Lemma epoch_seconds_truncates t :
  0 <= t → t - nanos < epoch_seconds_to_system_time (system_time_to_epoch_seconds t) <= t.
Proof.
  intros Ht. rewrite epoch_seconds_eq.
  unfold system_time_to_epoch_seconds, duration_since, UNIX_EPOCH, from_secs, as_secs, nanos.
  rewrite (proj2 (Z.leb_le 0 t)) by done. Z.to_euclidean_division_equations; lia.
Qed.

(** ** The scan on a well-formed date *)

Lemma leading_digits_digits s :
  all_digits s = true → s ≠ [] → decimal_value s <= u32_max →
  leading_digits s = Some (decimal_value s, length s).
Proof.
  intros Hd Hne Hv. unfold leading_digits.
  assert (Hf : find_by (λ c, negb (is_ascii_digit c)) s = None).
  { apply find_by_None. apply digits_avoid; [|done]. intros c Hc. by rewrite Hc. }
  rewrite Hf. simpl. rewrite decide_False by (destruct s; simpl; [done|lia]).
  rewrite firstn_all. unfold parse_u32. by rewrite parse_unsigned_digits.
Qed.

Lemma try_time_no_colon s : Forall (λ c, is_char ":"%char c = false) s → try_time s = None.
Proof. intros Hs. unfold try_time. by rewrite split_once_None. Qed.

Lemma digit_not_colon c : is_ascii_digit c = true → is_char ":"%char c = false.
Proof. intros Hc. unfold is_char. apply bool_decide_eq_false. by intros ->. Qed.

Lemma one_or_two_dec2 n : 0 <= n < 100 → one_or_two_digits (dec2 n) = true.
Proof.
  intros Hn. destruct (dec2_spec n Hn) as [Hd _].
  unfold one_or_two_digits. rewrite Hd. done.
Qed.

Lemma leading_digits_dec2 n : 0 <= n < 100 → leading_digits (dec2 n) = Some (n, 2%nat).
Proof.
  intros Hn. destruct (dec2_spec n Hn) as [Hd Hv].
  rewrite leading_digits_digits; [by rewrite Hv|done|done|unfold u32_max; lia].
Qed.

Lemma parse_u32_dec2 n : 0 <= n < 100 → parse_u32 (dec2 n) = Some n.
Proof.
  intros Hn. destruct (dec2_spec n Hn) as [Hd Hv]. unfold parse_u32.
  rewrite parse_unsigned_digits; [by rewrite Hv|done|done|unfold u32_max; lia].
Qed.

Lemma try_time_hms h mi s :
  0 <= h < 100 → 0 <= mi < 100 → 0 <= s < 100 → try_time (hms h mi s) = Some (h, mi, s).
Proof.
  intros Hh Hmi Hs. unfold try_time, hms. change (b#":" ++ ?l) with (":"%char :: l).
  assert (Hc : ∀ n, 0 <= n < 100 → Forall (λ d, is_char ":"%char d = false) (dec2 n)).
  { intros n Hn. apply digits_avoid; [apply digit_not_colon|by apply dec2_spec]. }
  rewrite split_once_app by auto. cbn -[dec2 split_once].
  rewrite split_once_app by auto. cbn -[dec2].
  rewrite !one_or_two_dec2, leading_digits_dec2 by done. cbn -[dec2].
  by rewrite !parse_u32_dec2 by done.
Qed.

(** Once the four slots are taken a token changes nothing. *)
Lemma date_step_full t d m y token :
  date_step (mk_found (Some t) (Some d) (Some m) (Some y)) token =
  mk_found (Some t) (Some d) (Some m) (Some y).
Proof. done. Qed.

Lemma weekday_token w : w ∈ weekday_names → date_step found_nothing w = found_nothing.
Proof.
  apply (weekday_name_cases _ (λ w, date_step found_nothing w = found_nothing)).
  repeat constructor.
Qed.

Lemma month_token m d :
  1 <= m <= 12 →
  date_step (mk_found None (Some d) None None) (month_name m) =
  mk_found None (Some d) (Some m) None.
Proof.
  intros Hm. destruct (month_name_cases m Hm) as (i & Hi & -> & _).
  do 12 (destruct i as [|i]; [reflexivity|]). lia.
Qed.

Lemma scan_imf_fixdate w x h mi s :
  valid_fields w x h mi s →
  foldl date_step found_nothing (date_tokens (imf_fixdate w x h mi s)) =
  mk_found (Some (h, mi, s)) (Some (day x)) (Some (month x)) (Some (year x)).
Proof.
  intros Hv. unfold date_tokens. rewrite (split_imf_fixdate is_delimiter); try done.
  - destruct Hv as (Hw & Hy & Hm & Hd & Hh & Hmi & Hs).
    assert (Hne : month_name (month x) ≠ []).
    { destruct (month_name_cases _ Hm) as (i & Hi & -> & _).
      do 12 (destruct i as [|i]; [done|]). lia. }
    assert (Hwn : w ≠ []).
    { revert Hw. apply (weekday_name_cases w (λ w, w ≠ [])). by repeat constructor. }
    rewrite filter_cons_True, filter_cons_False by (done || naive_solver).
    do 5 (rewrite filter_cons_True by done). simpl foldl.
    rewrite weekday_token by done.
    assert (Hno : ∀ t, all_digits t = true → try_time t = None).
    { intros t Ht. apply try_time_no_colon, digits_avoid; [apply digit_not_colon|done]. }
    unfold date_step at 5. simpl found_time.
    rewrite Hno by (apply dec2_spec; lia). simpl found_day.
    rewrite leading_digits_dec2 by lia. simpl. rewrite month_token by done.
    destruct (dec4_spec (year x)) as [Hd4 Hv4]; [lia|].
    unfold date_step at 3. simpl found_time. rewrite Hno by done. simpl found_day.
    rewrite leading_digits_digits; [|done|done|rewrite Hv4; unfold u32_max; lia].
    simpl found_month. simpl found_year. rewrite Hv4. cbn -[hms date_step].
    unfold date_step at 2. simpl found_time. by rewrite try_time_hms by lia.
  - intros c Hc. unfold is_delimiter, is_ascii_digit, in_range in *.
    destruct (code c =? 9) eqn:E1; bool_prop; [lia|]. repeat split; lia.
  - by repeat constructor.
Qed.

(** [days_from_civil] counts days: 1970-01-01 is day zero, and the day after
    any valid Gregorian date is exactly one more.  The two equations determine
    the count on every valid date, so the table-free era arithmetic of the code
    agrees with the calendar, leap years and centuries included. *)
Theorem days_from_civil_counts_days :
  days_from_civil 1970 1 1 = 0 ∧
  ∀ x, valid_date x →
    days_from_civil (year (next_day x)) (month (next_day x)) (day (next_day x)) =
    days_from_civil (year x) (month x) (day x) + 1.
Proof.
  split; [reflexivity|]. intros [y m d]. unfold valid_date, next_day; simpl. intros [Hm Hd].
  destruct (d <? days_in_month y m) eqn:E; bool_prop; simpl.
  { rewrite !days_from_civil_closed. cbv zeta. ring. }
  replace d with (days_in_month y m) by lia.
  destruct (m <? 12) eqn:E2; bool_prop; simpl.
  - apply days_from_civil_month_end. lia.
  - replace m with 12 by lia. apply days_from_civil_year_end.
Qed.

(** The cookie-date parser inverts the rendering of an [IMF-fixdate]: every
    weekday, every date with a year in 1601..9999 and every time of day up to a
    leap second comes back as that date's day number and seconds. *)
Theorem cookie_date_roundtrip w x h mi s :
  valid_fields w x h mi s →
  parse_cookie_date (imf_fixdate w x h mi s) =
  Some (from_secs (days_from_civil (year x) (month x) (day x) * 86400 + h * 3600 + mi * 60 + s)).
Proof.
  intros Hv. unfold parse_cookie_date. rewrite scan_imf_fixdate by done. simpl.
  destruct Hv as (_ & Hy & _ & Hd & Hh & Hmi & Hs).
  assert (Hok : (23 <? h) || (59 <? mi) || (60 <? s) || (day x =? 0) || (31 <? day x) = false).
  { lia. }
  rewrite Hok. assert (H2 : (70 <=? year x) && (year x <=? 99) = false) by lia.
  rewrite H2, (proj2 (Z.leb_gt (year x) 69)), (proj2 (Z.ltb_ge (year x) 1601)) by lia.
  by rewrite epoch_seconds_eq.
Qed.

(** Witness: [Sun, 06 Nov 1994 08:49:37 GMT] satisfies [valid_fields]. *)
Lemma cookie_date_roundtrip_witness :
  parse_cookie_date b#"Sun, 06 Nov 1994 08:49:37 GMT" = Some (from_secs 784111777).
Proof.
  change (parse_cookie_date (imf_fixdate b#"Sun" (mk_date 1994 11 6) 8 49 37) =
          Some (from_secs (days_from_civil 1994 11 6 * 86400 + 8 * 3600 + 49 * 60 + 37))).
  apply (cookie_date_roundtrip b#"Sun" (mk_date 1994 11 6) 8 49 37).
  unfold valid_fields; simpl. split; [|lia]. apply list_elem_of_lookup. by exists 6%nat.
Defined.
