(* ===== verification/Cookie.v ===== *)
(** [chromulate-cookie]: one cookie, its [Set-Cookie] parsing and the
    per-request eligibility checks (src/crates/chromulate-cookie/src/cookie.rs,
    same_site.rs), and the representability check of jar.rs. *)
From S2P Require Import Prelude RustStr RustTime RustNet Extern Origin CookieScope CookieDate.

(** ** Data *)

Inductive SameSite := SS_Strict | SS_Lax | SS_None.

#[export] Instance SameSite_eq_dec : EqDecision SameSite.
Proof. solve_decision. Defined.

Definition MAX_COOKIE_LIFETIME : Duration := from_secs (400 * 24 * 60 * 60).
Definition SECURE_PREFIX : str := b#"__Secure-".
Definition HOST_PREFIX : str := b#"__Host-".

Record Cookie := mk_cookie {
  name : str;
  value : str;
  domain : str;
  host_only : bool;
  cookie_path : str;
  secure : bool;
  http_only : bool;
  same_site : SameSite;
  partitioned : bool;
  expires : option SystemTime;
}.

(** ** Name prefixes *)

Definition starts_with_ignore_ascii_case (text prefix : str) : bool :=
  if decide (length prefix ≤ length text)
  then eq_ignore_ascii_case (take (length prefix) text) prefix
  else false.

Definition carries_a_name_prefix (name : str) : bool :=
  starts_with_ignore_ascii_case name HOST_PREFIX
  || starts_with_ignore_ascii_case name SECURE_PREFIX.

Definition keeps_name_prefix_promise (name : str) (secure host_only : bool) (path : str) : bool :=
  if starts_with_ignore_ascii_case name HOST_PREFIX
  then secure && host_only && bool_decide (path = b#"/")
  else if starts_with_ignore_ascii_case name SECURE_PREFIX then secure
  else true.

(** ** Representability (jar.rs) *)

Definition header_safe (text : str) : bool :=
  forallb (λ c, (code c =? 9)%Z || in_range 32 126 c) text.

Definition contains_any (cs : list ascii) (s : str) : bool :=
  existsb (λ c, bool_decide (c ∈ cs)) s.

Definition is_representable (name value : str) : bool :=
  negb (bool_decide (name = []))
  && header_safe name
  && header_safe value
  && negb (contains_any [";"%char; "="%char] name)
  && negb (contains_any [";"%char] value).

(** ** [Cookie::parse] *)

(** The name and value of the first segment. *)
Definition parse_name_value (first : str) : option (str * str) :=
  eq ← find_by (is_char "="%char) first;
  let name := trim (take eq first) in
  let value := trim (drop (S eq) first) in
  if decide (name = []) then None
  else
    let quote := ascii_of_nat 34 in
    match strip_prefix [quote] value ≫= strip_suffix [quote] with
    | Some unquoted => Some (name, unquoted)
    | None => Some (name, value)
    end.

(** The attribute variables of the segment loop. *)
Record attributes := mk_attributes {
  a_expires : option SystemTime;
  a_max_age : option Z;
  a_domain : option str;
  a_path : option str;
  a_secure : bool;
  a_http_only : bool;
  a_same_site : option SameSite;
  a_partitioned : bool;
}.

Definition no_attributes : attributes :=
  mk_attributes None None None None false false None false.

Definition parse_same_site (v : str) : option SameSite :=
  let v := to_ascii_lowercase v in
  if decide (v = b#"strict") then Some SS_Strict
  else if decide (v = b#"lax") then Some SS_Lax
  else if decide (v = b#"none") then Some SS_None
  else None.

(** One attribute, by its lowercased name. *)
Definition apply_attribute (a : attributes) (attr_name : str) (attr_value : option str)
    : attributes :=
  let 'mk_attributes exp age dom pth sec http ss part := a in
  if decide (attr_name = b#"expires") then
    match attr_value ≫= parse_cookie_date with
    | Some t => mk_attributes (Some t) age dom pth sec http ss part
    | None => a
    end
  else if decide (attr_name = b#"max-age") then
    match attr_value ≫= parse_i64 with
    | Some n => mk_attributes exp (Some n) dom pth sec http ss part
    | None => a
    end
  else if decide (attr_name = b#"domain") then
    match attr_value with
    | Some v =>
        let stripped := default v (strip_prefix b#"." v) in
        if decide (stripped = []) then a
        else mk_attributes exp age (Some (to_ascii_lowercase stripped)) pth sec http ss part
    | None => a
    end
  else if decide (attr_name = b#"path") then
    match attr_value with
    | Some v => mk_attributes exp age dom (Some v) sec http ss part
    | None => a
    end
  else if decide (attr_name = b#"secure") then
    mk_attributes exp age dom pth true http ss part
  else if decide (attr_name = b#"httponly") then
    mk_attributes exp age dom pth sec true ss part
  else if decide (attr_name = b#"samesite") then
    match attr_value with
    | Some v => mk_attributes exp age dom pth sec http (parse_same_site v) part
    | None => a
    end
  else if decide (attr_name = b#"partitioned") then
    mk_attributes exp age dom pth sec http ss true
  else a.

Definition attribute_step (a : attributes) (segment : str) : attributes :=
  let segment := trim segment in
  if decide (segment = []) then a
  else
    let '(attr_name, attr_value) :=
      match find_by (is_char "="%char) segment with
      | Some idx => (take idx segment, Some (trim (drop (S idx) segment)))
      | None => (segment, None)
      end in
    apply_attribute a (to_ascii_lowercase (trim attr_name)) attr_value.

(** [resolved_expires]: [Max-Age] wins, and both are capped. *)
Definition resolve_expires (a : attributes) (now : SystemTime) : option SystemTime :=
  let lifetime_cap := default now (checked_add now MAX_COOKIE_LIFETIME) in
  match a_max_age a with
  | Some seconds =>
      if (seconds <=? 0)%Z then Some now
      else Some (Z.min (default lifetime_cap (checked_add now (from_secs seconds))) lifetime_cap)
  | None => (λ e, Z.min e lifetime_cap) <$> a_expires a
  end.

Definition resolve_path (a : attributes) (request_path : str) : str :=
  match a_path a with
  | Some p => if starts_with p b#"/" then p else default_path request_path
  | None => default_path request_path
  end.

Section With_extern.
Context `{Psl} `{HeaderValueApi}.

(** The [(domain, host_only)] of the cookie, or a rejection. *)
Definition resolve_domain (a : attributes) (request_host : str) : option (str * bool) :=
  match a_domain a with
  | None => Some (request_host, true)
  | Some d =>
      if is_ip_literal request_host then
        if decide (d = request_host) then Some (request_host, true) else None
      else if is_public_suffix d || negb (domain_matches request_host d) then None
      else Some (d, false)
  end.

(** The origin and cookie-state halves of the name-prefix rule. *)
Definition prefix_rule (a : attributes) (name path : str) (request_is_secure : bool) : bool :=
  if carries_a_name_prefix name then
    request_is_secure
    && keeps_name_prefix_promise name (a_secure a) (bool_decide (a_domain a = None)) path
  else true.

Definition parse (header request_host request_path : str) (request_is_secure : bool)
    (now : SystemTime) : option Cookie :=
  raw ← to_str header;
  match split_by (is_char ";"%char) raw with
  | [] => None
  | first :: segments =>
      '(name, value) ← parse_name_value (trim first);
      let a := foldl attribute_step no_attributes segments in
      '(domain, host_only) ← resolve_domain a request_host;
      let path := resolve_path a request_path in
      let same_site := default SS_Lax (a_same_site a) in
      if bool_decide (same_site = SS_None) && negb (a_secure a) then None
      else if negb (prefix_rule a name path request_is_secure) then None
      else Some {| name := name; value := value; domain := domain; host_only := host_only;
                   cookie_path := path; secure := a_secure a; http_only := a_http_only a;
                   same_site := same_site; partitioned := a_partitioned a;
                   expires := resolve_expires a now |}
  end.

(** ** Per-request checks *)

Definition is_expired (c : Cookie) (now : SystemTime) : bool :=
  match expires c with
  | Some expiry => (expiry <=? now)%Z
  | None => false
  end.

Definition applies_to (c : Cookie) (request_host request_path : str) (request_is_secure : bool)
    : bool :=
  if secure c && negb request_is_secure then false
  else
    let host_matches :=
      if host_only c then bool_decide (request_host = domain c)
      else domain_matches request_host (domain c) in
    host_matches && path_matches request_path (cookie_path c).

Definition same_site_eligible (c : Cookie) (request_host : str) (context : CookieContext) : bool :=
  let is_same_site :=
    match initiator context with
    | Some i => is_same_site (o_host i) request_host
    | None => false
    end in
  match same_site c with
  | SS_None => true
  | SS_Lax => is_same_site || is_top_level_navigation context
  | SS_Strict => is_same_site
  end.
End With_extern.

(** ** Facts *)

Lemma header_safe_visible s :
  header_safe s = true ↔ Forall (λ c, visible_ascii c = true) s.
Proof.
  unfold header_safe. rewrite forallb_Forall. apply Forall_iff. intros c.
  unfold visible_ascii. by rewrite orb_comm.
Qed.

Lemma contains_any_false cs s : contains_any cs s = false ↔ Forall (λ c, c ∉ cs) s.
Proof.
  unfold contains_any. induction s as [|c s IH]; simpl; [by split; [constructor|]|].
  by rewrite orb_false_iff, bool_decide_eq_false, Forall_cons, IH.
Qed.

Lemma is_representable_spec n v :
  is_representable n v = true ↔
  n ≠ [] ∧ Forall (λ c, visible_ascii c = true ∧ c ≠ ";"%char ∧ c ≠ "="%char) n ∧
  Forall (λ c, visible_ascii c = true ∧ c ≠ ";"%char) v.
Proof.
  unfold is_representable.
  rewrite !andb_true_iff, !negb_true_iff, bool_decide_eq_false, !header_safe_visible,
    !contains_any_false, !Forall_and, !Forall_forall.
  set_solver.
Qed.

Lemma parse_name_value_chars first n v :
  parse_name_value first = Some (n, v) →
  n ≠ [] ∧ Forall (λ c, c ∈ first ∧ c ≠ "="%char) n ∧ Forall (λ c, c ∈ first) v.
Proof.
  unfold parse_name_value. intros (i & Hf & Heq)%bind_Some. revert Heq. cbv zeta.
  case_decide as Hn; [done|].
  apply find_by_Some in Hf as (e & _ & _ & Hbefore).
  assert (Hname : Forall (λ c, c ∈ first ∧ c ≠ "="%char) (trim (take i first))).
  { apply Forall_forall. intros c Hc%elem_of_trim. split.
    - by eapply elem_of_sublist, sublist_take.
    - rewrite Forall_forall in Hbefore. specialize (Hbefore c Hc).
      unfold is_char in Hbefore. by bool_prop. }
  assert (Hvalue : Forall (λ c, c ∈ first) (trim (drop (S i) first))).
  { apply Forall_forall. intros c Hc%elem_of_trim. by eapply elem_of_sublist, sublist_drop. }
  split_match; intros [= <- <-]; [|done].
  match goal with Hq : _ ≫= _ = Some _ |- _ =>
    apply bind_Some in Hq as (r & Hr%strip_prefix_Some & Hu%strip_suffix_Some) end.
  split; [done|]. split; [done|].
  rewrite Hr, Hu, !Forall_app in Hvalue. tauto.
Qed.

Lemma resolve_path_absolute a p : starts_with (resolve_path a p) b#"/" = true.
Proof.
  unfold resolve_path. destruct (a_path a) as [q|]; [|apply default_path_absolute].
  destruct (starts_with q b#"/") eqn:E; [done|apply default_path_absolute].
Qed.

Lemma resolve_expires_capped a now e :
  resolve_expires a now = Some e → (e <= now + MAX_COOKIE_LIFETIME)%Z.
Proof.
  unfold resolve_expires.
  assert (Hcap : (default now (checked_add now MAX_COOKIE_LIFETIME) <= now + MAX_COOKIE_LIFETIME)%Z).
  { destruct (checked_add _ _) as [c|] eqn:E; simpl.
    - apply checked_add_Some in E as [-> _]. lia.
    - unfold MAX_COOKIE_LIFETIME, from_secs, nanos. lia. }
  destruct (a_max_age a) as [s|].
  - destruct (s <=? 0)%Z; intros [= <-].
    + unfold MAX_COOKIE_LIFETIME, from_secs, nanos. lia.
    + etrans; [apply Z.le_min_r|done].
  - destruct (a_expires a); [|done]. intros [= <-]. etrans; [apply Z.le_min_r|done].
Qed.

(** A cookie that carries a prefix and keeps its promise is [Secure]. *)
Lemma prefix_promise_secure n sec ho p :
  carries_a_name_prefix n = true → keeps_name_prefix_promise n sec ho p = true → sec = true.
Proof.
  unfold carries_a_name_prefix, keeps_name_prefix_promise.
  destruct (starts_with_ignore_ascii_case n HOST_PREFIX); simpl.
  - intros _ Hk. bool_prop. tauto.
  - intros ->. done.
Qed.

Lemma no_prefix_promise n sec ho p :
  carries_a_name_prefix n = false → keeps_name_prefix_promise n sec ho p = true.
Proof.
  unfold carries_a_name_prefix, keeps_name_prefix_promise.
  intros [-> ->]%orb_false_iff. done.
Qed.

Section Parse_facts.
Context `{Psl} `{HeaderValueLaws}.

(** What an accepted [Set-Cookie] guarantees about the stored cookie. *)
Record accepted (host : str) (is_secure : bool) (now : SystemTime) (c : Cookie) : Prop := {
  acc_representable : is_representable (name c) (value c) = true;
  acc_host_only : host_only c = true → domain c = host;
  acc_domain : host_only c = false →
    DomainMatch host (domain c) ∧ is_public_suffix (domain c) = false ∧ is_ip_literal host = false;
  acc_path : starts_with (cookie_path c) b#"/" = true;
  acc_same_site : same_site c = SS_None → secure c = true;
  acc_promise :
    keeps_name_prefix_promise (name c) (secure c) (host_only c) (cookie_path c) = true;
  acc_prefix_origin : carries_a_name_prefix (name c) = true → is_secure = true;
  acc_lifetime : ∀ e, expires c = Some e → (e <= now + MAX_COOKIE_LIFETIME)%Z;
}.

Lemma parse_representable raw first segments n v :
  Forall (λ c, visible_ascii c = true) raw →
  split_by (is_char ";"%char) raw = first :: segments →
  parse_name_value (trim first) = Some (n, v) → is_representable n v = true.
Proof.
  intros Hraw Hsplit (Hne & Hn & Hv)%parse_name_value_chars.
  assert (Hfirst : Forall (λ c, visible_ascii c = true ∧ c ≠ ";"%char) (trim first)).
  { apply Forall_forall. intros c Hc%elem_of_trim.
    assert (Hin : first ∈ split_by (is_char ";"%char) raw) by (rewrite Hsplit; by left).
    apply split_by_pieces in Hin. rewrite Forall_forall in Hin, Hraw.
    destruct (Hin c Hc) as [Hsemi Hc']. split; [by apply Hraw|].
    unfold is_char in Hsemi. by bool_prop. }
  rewrite Forall_forall in Hfirst.
  apply is_representable_spec. split; [done|]. split.
  - eapply Forall_impl; [done|]. simpl. intros c [Hc ?]. naive_solver.
  - eapply Forall_impl; [done|]. simpl. auto.
Qed.

Lemma resolve_domain_spec a host d ho :
  resolve_domain a host = Some (d, ho) →
  (ho = true → d = host) ∧
  (ho = false → DomainMatch host d ∧ is_public_suffix d = false ∧ is_ip_literal host = false) ∧
  (a_domain a = None → ho = true).
Proof.
  unfold resolve_domain. destruct (a_domain a) as [x|]; [|intros [= <- <-]; split_and!; done].
  destruct (is_ip_literal host) eqn:Hip.
  { case_decide; [|done]. intros Heq. simplify_eq. split_and!; done. }
  destruct (_ || _) eqn:Hr; [done|]. intros [= <- <-]. bool_prop. destruct Hr as [? Hm].
  apply domain_matches_iff in Hm. split_and!; done.
Qed.
End Parse_facts.

Section Parse_theorem.
Context `{Psl} `{HeaderValueLaws}.

Lemma parse_accepted_lemma header host path sec now c :
  parse header host path sec now = Some c → accepted host sec now c.
Proof.
  unfold parse. intros (raw & Hraw & Hp)%bind_Some.
  apply to_str_Some in Hraw as [-> Hvis].
  destruct (split_by _ header) as [|first segments] eqn:Hsplit; [done|].
  apply bind_Some in Hp as ([n v] & Hnv & Hp).
  set (a := foldl _ _ _) in *. clearbody a.
  apply bind_Some in Hp as ([d ho] & Hd & Hp). revert Hp. cbv zeta.
  destruct (_ && _) eqn:Hss; [done|].
  destruct (negb (prefix_rule a n _ sec)) eqn:Hrule; [done|]. intros [= <-].
  apply resolve_domain_spec in Hd as (Hho & Hdom & Hnone).
  unfold prefix_rule in Hrule.
  assert (Hprom : keeps_name_prefix_promise n (a_secure a) ho (resolve_path a path) = true ∧
                  (carries_a_name_prefix n = true → sec = true)).
  { destruct (carries_a_name_prefix n) eqn:Hc; [|by rewrite no_prefix_promise].
    bool_prop. destruct Hrule as [-> Hk]. split; [|done]. revert Hk.
    unfold keeps_name_prefix_promise. case_match; [|done].
    destruct (a_domain a); [by rewrite andb_false_r|by rewrite (Hnone eq_refl)]. }
  split; simpl.
  - by eapply parse_representable.
  - done.
  - done.
  - apply resolve_path_absolute.
  - intros Hnone'. bool_prop. destruct Hss; [done|congruence].
  - apply Hprom.
  - apply Hprom.
  - intros e. apply resolve_expires_capped.
Qed.

(** C34. Every cookie [Cookie::parse] accepts is [accepted]: representable in a
    [Cookie] header; scoped to the request host itself or to a non-public
    suffix the host domain-matches; scoped to an absolute path; [Secure] when
    [SameSite=None]; true to its [__Host-]/[__Secure-] prefix, which only a
    secure origin may set; and expiring within the 400-day cap. *)
Theorem parse_accepted header host path sec now c :
  parse header host path sec now = Some c → accepted host sec now c.
Proof. apply parse_accepted_lemma. Qed.
End Parse_theorem.

Import Sample.

(** Witness: a [__Host-] cookie from a secure origin. *)
Lemma parse_accepted_witness :
  ∃ c, parse b#"__Host-sid=abc; Secure; Path=/; SameSite=None; Max-Age=60"
         b#"www.example.com" b#"/login" true 0%Z = Some c ∧
       accepted b#"www.example.com" true 0%Z c ∧ expires c = Some (from_secs 60).
Proof.
  eexists. split; [vm_compute; reflexivity|]. split; [|vm_compute; reflexivity].
  apply (parse_accepted b#"__Host-sid=abc; Secure; Path=/; SameSite=None; Max-Age=60" _ b#"/login").
  vm_compute. reflexivity.
Defined.
