(* ===== verification/Bucket.v ===== *)
(** [chromulate-cookie]: one registrable domain's cookies with the index from
    identity to position ([struct Bucket] of src/crates/chromulate-cookie/src/jar.rs).

    An operation that can panic (an index out of range, a failed
    [debug_assert]) returns [None] there. *)
From S2P Require Import Prelude RustStr RustTime Extern Cookie.

Record Entry := mk_entry {
  cookie : Cookie;
  creation_seq : Z;
  last_access_seq : Z;
}.

Definition Identity : Type := str * str * str.

#[export] Instance Identity_eq_dec : EqDecision Identity := _.
#[export] Instance Identity_countable : Countable Identity := _.

Definition identity_of (c : Cookie) : Identity := (name c, domain c, cookie_path c).
Definition entry_id (e : Entry) : Identity := identity_of (cookie e).

Record Bucket := mk_bucket {
  entries : list Entry;
  index : gmap Identity nat;
}.

Definition empty_bucket : Bucket := mk_bucket [] ∅.

(** ** Operations *)

Definition position_of (b : Bucket) (name domain path : str) : option nat :=
  index b !! (name, domain, path).

Definition push (b : Bucket) (e : Entry) : Bucket :=
  mk_bucket (entries b ++ [e]) (<[entry_id e := length (entries b)]> (index b)).

Definition replace (b : Bucket) (position : nat) (e : Entry) : option Bucket :=
  old ← entries b !! position;
  if decide (entry_id e = entry_id old)
  then Some (mk_bucket (<[position := e]> (entries b)) (index b)) else None.

(** [Vec::swap_remove]: the last element takes the removed one's place. *)
Definition swap_remove {A} (l : list A) (i : nat) : option (A * list A) :=
  x ← l !! i; z ← last l; Some (x, take (length l - 1) (<[i := z]> l)).

Definition remove (b : Bucket) (position : nat) : option Bucket :=
  '(removed, rest) ← swap_remove (entries b) position;
  let idx := delete (entry_id removed) (index b) in
  Some (mk_bucket rest
    (match rest !! position with
     | Some moved => <[entry_id moved := position]> idx
     | None => idx
     end)).

Fixpoint reindex_from (i : nat) (l : list Entry) (m : gmap Identity nat) : gmap Identity nat :=
  match l with
  | [] => m
  | e :: l' => reindex_from (S i) l' (<[entry_id e := i]> m)
  end.

Definition reindex (l : list Entry) : Bucket := mk_bucket l (reindex_from 0 l ∅).

Definition remove_expired (b : Bucket) (now : SystemTime) : Bucket :=
  let kept := filter (λ e, is_expired (cookie e) now = false) (entries b) in
  if decide (length kept = length (entries b)) then mk_bucket kept (index b) else reindex kept.

Definition remove_all (b : Bucket) (positions : list nat) : Bucket :=
  if decide (positions = []) then b
  else reindex (keep_positions (λ j, bool_decide (j ∉ positions)) 0 (entries b)).

(** The recency stamp at a position, as the selection's key reads it. *)
Definition access_at (b : Bucket) (position : nat) : Z :=
  default 0%Z (last_access_seq <$> entries b !! position).

Definition trim_to (b : Bucket) (keep : Z) : Bucket :=
  if (zlen (entries b) <=? keep)%Z then b
  else
    let doomed_count := length (entries b) - Z.to_nat keep in
    let ranked := select_nth_unstable_by_key (access_at b) (seq 0 (length (entries b))) in
    remove_all b (take doomed_count ranked).

(** ** The invariant: the index is exactly the positions of the identities *)

Definition bucket_ok (b : Bucket) : Prop :=
  ∀ id i, index b !! id = Some i ↔ ∃ e, entries b !! i = Some e ∧ entry_id e = id.

Lemma bucket_ok_NoDup b : bucket_ok b → NoDup (entry_id <$> entries b).
Proof.
  intros Hb. apply NoDup_alt. intros i j id Hi Hj.
  apply list_lookup_fmap_Some in Hi as (e & -> & Hi), Hj as (e' & Heq & Hj).
  assert (index b !! entry_id e = Some i) by (apply Hb; eauto).
  assert (index b !! entry_id e = Some j) by (apply Hb; eauto).
  congruence.
Qed.

Lemma empty_bucket_ok : bucket_ok empty_bucket.
Proof.
  intros id i. simpl. rewrite lookup_empty, lookup_nil. split; [done|]. by intros (? & ? & _).
Qed.

Lemma reindex_from_lookup i l m id j :
  NoDup (entry_id <$> l) →
  (reindex_from i l m !! id = Some j) ↔
  ((∃ k e, l !! k = Some e ∧ entry_id e = id ∧ (j = i + k)) ∨
   ((id ∉ (entry_id <$> l)) ∧ m !! id = Some j)).
Proof.
  revert i m. induction l as [|e l IH]; intros i m Hnd; simpl.
  { split; [intros Hm; right; split; [by apply not_elem_of_nil|done]|].
    intros [(k & e & Hk & _)|[_ ?]]; [by rewrite lookup_nil in Hk|done]. }
  apply NoDup_cons in Hnd as [He Hnd]. rewrite IH by done. clear IH. split.
  - intros [(k & x & Hk & Hid & ->)|[Hni Hm]].
    + left. exists (S k), x. split_and!; [done..|lia].
    + destruct (decide (id = entry_id e)) as [->|Hne].
      * rewrite lookup_insert_eq in Hm. injection Hm as <-. left. exists 0, e.
        split_and!; [done..|lia].
      * rewrite lookup_insert_ne in Hm by done. right. split; [|done].
        rewrite not_elem_of_cons. done.
  - intros [([|k] & x & Hk & Hid & ->)|[Hni Hm]]; simpl in *.
    + injection Hk as ->. subst id. right. split; [done|]. rewrite lookup_insert_eq.
      f_equal. lia.
    + left. exists k, x. split_and!; [done..|lia].
    + apply not_elem_of_cons in Hni as [Hne Hni]. right. split; [done|].
      by rewrite lookup_insert_ne.
Qed.

Lemma reindex_ok l : NoDup (entry_id <$> l) → bucket_ok (reindex l).
Proof.
  intros Hnd id i. simpl. rewrite reindex_from_lookup by done. split.
  - intros [(k & e & Hk & Hid & ->)|[_ Hm]]; [eauto|by rewrite lookup_empty in Hm].
  - intros (e & He & Hid). left. exists i, e. split_and!; [done..|lia].
Qed.

Lemma sublist_ids_NoDup l k :
  sublist l k → NoDup (entry_id <$> k) → NoDup (entry_id <$> l).
Proof. intros Hs Hk. eapply sublist_NoDup; [done|]. by apply fmap_sublist. Qed.

Lemma position_of_spec b n d p i :
  bucket_ok b →
  position_of b n d p = Some i ↔ ∃ e, entries b !! i = Some e ∧ entry_id e = (n, d, p).
Proof. intros Hb. apply Hb. Qed.

Lemma position_of_None b n d p :
  bucket_ok b →
  position_of b n d p = None ↔ (n, d, p) ∉ (entry_id <$> entries b).
Proof.
  intros Hb. unfold position_of. rewrite list_elem_of_fmap. split.
  - intros Hnone (e & He & [i Hi]%list_elem_of_lookup).
    assert (index b !! (n, d, p) = Some i) by (apply Hb; eauto). congruence.
  - intros Hni. apply eq_None_not_Some. intros [i (e & Hi & He)%Hb].
    apply Hni. exists e. split; [done|]. by eapply list_elem_of_lookup_2.
Qed.

(** ** Every operation keeps the invariant *)

Lemma push_ok b e :
  bucket_ok b → entry_id e ∉ (entry_id <$> entries b) → bucket_ok (push b e).
Proof.
  intros Hb Hni id i. simpl.
  destruct (decide (id = entry_id e)) as [->|Hne].
  - rewrite lookup_insert_eq. split.
    + intros [= <-]. exists e. by rewrite lookup_app_r, Nat.sub_diag by lia.
    + intros (x & [Hx|[Hlen Hx]]%lookup_app_Some & Hid).
      * exfalso. apply Hni. rewrite <- Hid. by eapply list_elem_of_fmap_2, list_elem_of_lookup_2.
      * f_equal. destruct (i - length (entries b)) as [|k] eqn:Hk; [lia|].
        simpl in Hx. by rewrite lookup_nil in Hx.
  - rewrite lookup_insert_ne by done. rewrite (Hb id i). split.
    + intros (x & Hx & Hid). exists x. split; [by apply lookup_app_l_Some|done].
    + intros (x & [Hx|[Hlen Hx]]%lookup_app_Some & Hid); [by eauto|].
      destruct (i - length (entries b)) as [|k]; simpl in Hx; [congruence|].
      by rewrite lookup_nil in Hx.
Qed.

Lemma replace_ok b i old e :
  bucket_ok b → entries b !! i = Some old → entry_id e = entry_id old →
  ∃ b', replace b i e = Some b' ∧ bucket_ok b' ∧ entries b' = <[i := e]> (entries b).
Proof.
  intros Hb Hold Hid. unfold replace. rewrite Hold. simpl. rewrite decide_True by done.
  eexists. split; [done|]. split; [|done]. intros id j. simpl. rewrite (Hb id j).
  destruct (decide (j = i)) as [->|Hne].
  - rewrite list_lookup_insert_eq, Hold by (by eapply lookup_lt_Some).
    split; intros (x & [= <-] & <-); eauto.
  - by rewrite list_lookup_insert_ne.
Qed.

Lemma swap_remove_spec {A} (l : list A) i x :
  l !! i = Some x →
  ∃ rest, swap_remove l i = Some (x, rest) ∧ l ≡ₚ x :: rest ∧
    ((i = length rest ∧ l = rest ++ [x]) ∨
     ∃ l' z, l = l' ++ [z] ∧ i < length l' ∧ rest = <[i := z]> l').
Proof.
  intros Hx. unfold swap_remove. rewrite Hx. simpl.
  destruct (last l) as [z|] eqn:Hz; [|apply last_None in Hz as ->; done].
  apply last_Some in Hz as [l' ->]. simpl. eexists. split; [done|].
  rewrite length_app; simpl. replace (length l' + 1 - 1) with (length l') by lia.
  apply lookup_app_Some in Hx as [Hx|[Hlen Hx]].
  - pose proof (lookup_lt_Some _ _ _ Hx) as Hi.
    assert (Hrest : take (length l') (<[i:=z]> (l' ++ [z])) = <[i:=z]> l').
    { rewrite insert_app_l by done. by rewrite take_app_length' by (by rewrite length_insert). }
    rewrite Hrest. split; [|right; by exists l', z].
    rewrite insert_take_drop by done. rewrite <- (take_drop_middle l' i x) at 1 by done.
    rewrite (Permutation_app_comm _ [z]), <- !Permutation_middle. simpl.
    done.
  - destruct (i - length l') as [|k] eqn:Hk; simpl in Hx; [|by rewrite lookup_nil in Hx].
    injection Hx as ->. assert (i = length l') as -> by lia.
    assert (Hrest : take (length l') (<[length l':=x]> (l' ++ [x])) = l').
    { rewrite insert_app_r_alt, Nat.sub_diag by lia. simpl. by rewrite take_app_length. }
    rewrite Hrest. split; [by rewrite Permutation_app_comm|]. by left.
Qed.

Lemma remove_ok b i e :
  bucket_ok b → entries b !! i = Some e →
  ∃ b', remove b i = Some b' ∧ bucket_ok b' ∧ entries b ≡ₚ e :: entries b'.
Proof.
  intros Hb He. destruct (swap_remove_spec _ _ _ He) as (rest & Hsw & Hperm & Hcase).
  unfold remove. rewrite Hsw. simpl. eexists. split; [done|]. split; [|done].
  assert (Hnd : NoDup (entry_id <$> e :: rest)) by (rewrite <- Hperm; by apply bucket_ok_NoDup).
  apply NoDup_cons in Hnd as [Hfresh Hnd]. intros id j. simpl.
  destruct Hcase as [[-> Hl]|(l' & z & Hl & Hi & ->)].
  - rewrite (lookup_ge_None_2 rest) by done.
    destruct (decide (id = entry_id e)) as [->|Hne].
    + rewrite lookup_delete_eq. split; [done|]. intros (x & Hx & Hid). exfalso. apply Hfresh.
      rewrite <- Hid. by eapply list_elem_of_fmap_2, list_elem_of_lookup_2.
    + rewrite lookup_delete_ne by done. rewrite (Hb id j), Hl. split.
      * intros (x & [Hx|[_ Hx]]%lookup_app_Some & Hid); [by eauto|].
        apply list_lookup_singleton_Some in Hx as [_ <-]. done.
      * intros (x & Hx & Hid). exists x. split; [by apply lookup_app_l_Some|done].
  - rewrite list_lookup_insert_eq by done.
    destruct (decide (id = entry_id z)) as [->|Hnz].
    + rewrite lookup_insert_eq. split.
      * intros [= <-]. exists z. by rewrite list_lookup_insert_eq.
      * intros (x & Hx & Hid). f_equal. eapply (NoDup_lookup (entry_id <$> <[i:=z]> l')); [done| |].
        -- by rewrite list_lookup_fmap, list_lookup_insert_eq.
        -- by rewrite list_lookup_fmap, Hx, <- Hid.
    + rewrite lookup_insert_ne by done.
      destruct (decide (id = entry_id e)) as [->|Hne].
      * rewrite lookup_delete_eq. split; [done|]. intros (x & Hx & Hid). exfalso.
        apply Hfresh. rewrite <- Hid. by eapply list_elem_of_fmap_2, list_elem_of_lookup_2.
      * rewrite lookup_delete_ne by done. rewrite (Hb id j), Hl.
        assert (Hji : ∀ x, entry_id x = id → (l' ++ [z]) !! j = Some x ↔ <[i:=z]> l' !! j = Some x).
        { intros x Hid. destruct (decide (j = i)) as [->|Hji].
          - rewrite list_lookup_insert_eq by done. rewrite <- Hl, He. naive_solver.
          - rewrite list_lookup_insert_ne by done. rewrite lookup_app_Some. split; [|auto].
            intros [?|[_ Hx]]; [done|]. apply list_lookup_singleton_Some in Hx as [_ <-]. done. }
        split; intros (x & Hx & Hid); exists x; (split; [|done]); by apply Hji.
Qed.

Lemma remove_expired_ok b now :
  bucket_ok b →
  bucket_ok (remove_expired b now) ∧
  entries (remove_expired b now) = filter (λ e, is_expired (cookie e) now = false) (entries b).
Proof.
  intros Hb. unfold remove_expired. case_decide as Hlen; simpl; [|split; [|done]].
  - assert (Hall : filter (λ e, is_expired (cookie e) now = false) (entries b) = entries b).
    { apply sublist_same_length; [apply sublist_filter|done]. }
    rewrite Hall. split; [|done]. by destruct b.
  - apply reindex_ok. eapply sublist_ids_NoDup; [apply sublist_filter|].
    by apply bucket_ok_NoDup.
Qed.

Lemma remove_all_entries b ps :
  entries (remove_all b ps) = keep_positions (λ j, bool_decide (j ∉ ps)) 0 (entries b).
Proof.
  unfold remove_all. case_decide as Hps; [subst|done].
  generalize 0. induction (entries b) as [|e l IH]; intros i; simpl; [done|].
  by rewrite <- IH.
Qed.

Lemma remove_all_ok b ps : bucket_ok b → bucket_ok (remove_all b ps).
Proof.
  intros Hb. unfold remove_all. case_decide; [done|]. apply reindex_ok.
  eapply sublist_ids_NoDup; [apply keep_positions_sublist|]. by apply bucket_ok_NoDup.
Qed.

Lemma remove_all_length b ps :
  NoDup ps → (∀ p, p ∈ ps → p < length (entries b)) →
  length (entries (remove_all b ps)) = length (entries b) - length ps.
Proof. intros. rewrite remove_all_entries. by apply keep_positions_except. Qed.

(** What [trim_to] drops: the first positions of the ranking. *)
Definition trim_doomed (b : Bucket) (keep : Z) : list nat :=
  take (length (entries b) - Z.to_nat keep)
    (select_nth_unstable_by_key (access_at b) (seq 0 (length (entries b)))).

Lemma trim_doomed_positions b keep :
  NoDup (trim_doomed b keep) ∧ (∀ p, p ∈ trim_doomed b keep → p < length (entries b)) ∧
  length (trim_doomed b keep) = length (entries b) - Z.to_nat keep.
Proof.
  unfold trim_doomed. set (r := select_nth_unstable_by_key _ _).
  assert (Hr : r ≡ₚ seq 0 (length (entries b))) by apply select_nth_perm. split_and!.
  - eapply sublist_NoDup; [|apply sublist_take]. rewrite Hr. apply NoDup_seq.
  - intros p Hp. assert (Hp' : p ∈ r) by (by eapply elem_of_sublist, sublist_take).
    rewrite Hr, elem_of_seq in Hp'. lia.
  - rewrite length_take, (Permutation_length Hr), length_seq. lia.
Qed.

Lemma trim_to_ok b keep : bucket_ok b → bucket_ok (trim_to b keep).
Proof. intros Hb. unfold trim_to. case_match; [done|]. by apply remove_all_ok. Qed.

Lemma trim_to_length b keep :
  (0 <= keep)%Z → zlen (entries (trim_to b keep)) = Z.min (zlen (entries b)) keep.
Proof.
  intros Hk. unfold trim_to. destruct (_ <=? _)%Z eqn:E; bool_prop; [lia|].
  fold (trim_doomed b keep). destruct (trim_doomed_positions b keep) as (Hnd & Hlt & Hlen).
  unfold zlen in *. rewrite remove_all_length by done. lia.
Qed.

Lemma trim_to_sublist b keep : sublist (entries (trim_to b keep)) (entries b).
Proof.
  unfold trim_to. case_match; [done|]. rewrite remove_all_entries. apply keep_positions_sublist.
Qed.

(** The entries dropped by [trim_to] were used no more recently than any kept. *)
Lemma trim_to_lru b keep :
  ∃ dropped,
    entries b ≡ₚ entries (trim_to b keep) ++ dropped ∧
    ∀ d k, d ∈ dropped → k ∈ entries (trim_to b keep) →
      (last_access_seq d <= last_access_seq k)%Z.
Proof.
  unfold trim_to. destruct (_ <=? _)%Z.
  { exists []. rewrite app_nil_r. split; [done|]. intros d k Hd. by apply elem_of_nil in Hd. }
  fold (trim_doomed b keep). rewrite remove_all_entries. eexists.
  split; [apply keep_positions_perm|]. intros d k Hd Hk.
  apply elem_of_keep_positions in Hd as (i & Hi & Hid), Hk as (j & Hj & Hjd).
  simpl in *. bool_prop. apply dec_stable in Hid.
  set (r := select_nth_unstable_by_key (access_at b) (seq 0 (length (entries b)))).
  assert (Hjr : j ∈ drop (length (entries b) - Z.to_nat keep) r).
  { assert (j ∈ r) as Hin.
    { unfold r. rewrite select_nth_perm, elem_of_seq. apply lookup_lt_Some in Hj. lia. }
    rewrite <- (take_drop (length (entries b) - Z.to_nat keep) r), elem_of_app in Hin.
    destruct Hin as [Hin|Hin]; [|done]. by destruct Hjd. }
  pose proof (select_nth_partition (access_at b) _ _ _ _ Hid Hjr) as Hle.
  unfold access_at in Hle. rewrite Hi, Hj in Hle. done.
Qed.
