(* ===== verification/JarStore.v ===== *)
(** [chromulate-cookie]: every cookie of the jar grouped by registrable domain
    ([struct Store], [JarLimits] and the eviction ranking of
    src/crates/chromulate-cookie/src/jar.rs).

    [HashMap] iteration is in the order of [map_to_list]; the results below do
    not depend on it.  [None] is a panic: a failed [usize] subtraction or an
    index out of range. *)
From S2P Require Import Prelude RustStr RustTime Extern CookieScope Cookie Bucket Eviction.
Local Open Scope Z_scope.

(** ** Limits *)

Record JarLimits := mk_limits { per_domain : Z; total_limit : Z }.

Definition purge_batch (l : JarLimits) : Z := total_limit l / 10.
Definition purge_target (l : JarLimits) : Z := saturating_sub (total_limit l) (purge_batch l).
Definition domain_purge_batch (l : JarLimits) : Z := per_domain l / 6.
Definition domain_purge_target (l : JarLimits) : Z :=
  saturating_sub (per_domain l) (domain_purge_batch l).
Definition default_limits : JarLimits := mk_limits 180 3000.

Definition limits_ok (l : JarLimits) : Prop :=
  0 <= per_domain l <= usize_max ∧ 0 <= total_limit l <= usize_max.

(** ** The store *)

Record Store := mk_store { sites : gmap str Bucket; total : Z }.

Definition empty_store : Store := mk_store ∅ 0.

Definition site_bucket (s : Store) (site : str) : Bucket := default empty_bucket (sites s !! site).

Definition bucket_len (b : Bucket) : Z := zlen (entries b).

Definition with_site {R} (s : Store) (site : str) (change : Bucket → option (Bucket * R))
    : option (Store * R) :=
  let bucket := site_bucket s site in
  let before := bucket_len bucket in
  '(bucket', outcome) ← change bucket;
  let after := bucket_len bucket' in
  if total s <? before then None
  else
    Some (mk_store (if after =? 0 then delete site (sites s) else <[site := bucket']> (sites s))
                   (total s - before + after),
          outcome).

Definition recount (m : gmap str Bucket) : Store := mk_store m (map_zsum bucket_len m).

Definition tidy_every_site (s : Store) (now : SystemTime) (per_domain : Z) : Store :=
  let tidied := (λ b, trim_to (remove_expired b now) per_domain) <$> sites s in
  recount (filter (λ kv, entries kv.2 ≠ []) tidied).

(** ** Eviction to the total cap *)

Definition EvictionRank : Type := Z * Z.

Definition rank_for_eviction (e : Entry) (now : SystemTime) : EvictionRank :=
  (if is_expired (cookie e) now then 0 else 1, last_access_seq e).

(** [(EvictionRank, &str, usize)] under the tuple order. *)
Definition Candidate : Type := EvictionRank * str * nat.

Definition bucket_candidates (now : SystemTime) (site : str) (b : Bucket) : list Candidate :=
  imap (λ position e, (rank_for_eviction e now, site, position)) (entries b).

Definition candidates (s : Store) (now : SystemTime) : list Candidate :=
  mjoin ((λ kv, bucket_candidates now kv.1 kv.2) <$> map_to_list (sites s)).

Definition victim (c : Candidate) : str * nat := (c.1.2, c.2).

Fixpoint remove_victims (s : Store) (victims : list (str * list nat)) : option Store :=
  match victims with
  | [] => Some s
  | (site, positions) :: rest =>
      '(s', _) ← with_site s site (λ b, Some (remove_all b positions, tt));
      remove_victims s' rest
  end.

Definition enforce_total (s : Store) (now : SystemTime) (cap target : Z) : option Store :=
  if total s <=? cap then Some s
  else
    let doomed_count := total s - target in
    let worst := worst_of (@lexico Candidate _) doomed_count (candidates s now) in
    remove_victims s (map_to_list (group (victim <$> worst))).

(** ** The invariant *)

Section With_psl.
Context `{Psl}.

(** A stored entry: filed under its site, sendable, true to its name prefix. *)
Definition entry_ok (site : str) (e : Entry) : Prop :=
  site_of (domain (cookie e)) = site ∧
  is_representable (name (cookie e)) (value (cookie e)) = true ∧
  keeps_name_prefix_promise (name (cookie e)) (secure (cookie e)) (host_only (cookie e))
    (cookie_path (cookie e)) = true.

Definition site_bucket_ok (site : str) (b : Bucket) : Prop :=
  bucket_ok b ∧ Forall (entry_ok site) (entries b).

Definition store_ok (s : Store) : Prop :=
  (∀ site b, sites s !! site = Some b → site_bucket_ok site b ∧ entries b ≠ []) ∧
  total s = map_zsum bucket_len (sites s).

Lemma bucket_len_nonneg b : 0 <= bucket_len b.
Proof. apply zlen_nonneg. Qed.

Lemma bucket_len_zero b : bucket_len b = 0 ↔ entries b = [].
Proof. unfold bucket_len, zlen. destruct (entries b); simpl; split; (done || lia). Qed.

Lemma empty_store_ok : store_ok empty_store.
Proof. split; simpl; [intros site b; by rewrite lookup_empty|by rewrite map_zsum_empty]. Qed.

Lemma empty_entries_bucket b : bucket_ok b → entries b = [] → b = empty_bucket.
Proof.
  intros Hb He. destruct b as [es idx]; simpl in *. subst es. unfold empty_bucket. f_equal.
  apply map_empty. intros id. apply eq_None_not_Some. intros [i Hi].
  apply Hb in Hi as (e & He & _). simpl in He. by rewrite lookup_nil in He.
Qed.

Lemma store_ok_site s site : store_ok s → site_bucket_ok site (site_bucket s site).
Proof.
  intros [Hs _]. unfold site_bucket. destruct (sites s !! site) as [b|] eqn:Hb; simpl.
  - by apply Hs.
  - split; [apply empty_bucket_ok|constructor].
Qed.

Lemma store_total_nonneg s : store_ok s → 0 <= total s.
Proof. intros [_ ->]. apply map_zsum_nonneg, bucket_len_nonneg. Qed.

Lemma store_site_len s site : store_ok s → bucket_len (site_bucket s site) <= total s.
Proof.
  intros Hs. pose proof (store_total_nonneg s Hs). destruct Hs as [_ Ht].
  unfold site_bucket. destruct (sites s !! site) as [b|] eqn:Hb; simpl; [|done].
  rewrite Ht. by eapply map_zsum_lookup; [apply bucket_len_nonneg|].
Qed.

(** [with_site] never underflows, keeps the count in step and touches one site. *)
Lemma with_site_ok {R} s site (change : Bucket → option (Bucket * R)) b' r :
  store_ok s → change (site_bucket s site) = Some (b', r) → site_bucket_ok site b' →
  ∃ s', with_site s site change = Some (s', r) ∧ store_ok s' ∧
    site_bucket s' site = b' ∧
    (∀ site', site' ≠ site → site_bucket s' site' = site_bucket s site') ∧
    total s' = total s - bucket_len (site_bucket s site) + bucket_len b'.
Proof.
  intros Hs Hc Hb'. pose proof (store_site_len s site Hs) as Hlen.
  unfold with_site. rewrite Hc. simpl. rewrite (proj2 (Z.ltb_ge _ _) Hlen).
  eexists. split; [done|].
  assert (Hbefore : default 0 (bucket_len <$> sites s !! site) = bucket_len (site_bucket s site)).
  { unfold site_bucket. by destruct (sites s !! site). }
  destruct Hs as [Hs Ht]. destruct (bucket_len b' =? 0) eqn:Hz; bool_prop.
  - apply bucket_len_zero in Hz as Hnil.
    rewrite (empty_entries_bucket b') in * by (done || apply Hb'). split; [split|split_and!]; simpl.
    + intros site' b Hl. destruct (decide (site' = site)) as [->|Hne].
      * by rewrite lookup_delete_eq in Hl.
      * rewrite lookup_delete_ne in Hl by done. by apply Hs.
    + rewrite map_zsum_delete, <- Ht, Hbefore. unfold bucket_len at 2, zlen. simpl. lia.
    + unfold site_bucket. simpl. by rewrite lookup_delete_eq.
    + intros site' Hne. unfold site_bucket. simpl. by rewrite lookup_delete_ne.
    + done.
  - split; [split|split_and!]; simpl.
    + intros site' b Hl. destruct (decide (site' = site)) as [->|Hne].
      * rewrite lookup_insert_eq in Hl. injection Hl as <-. split; [done|].
        by rewrite <- bucket_len_zero.
      * rewrite lookup_insert_ne in Hl by done. by apply Hs.
    + rewrite map_zsum_insert, <- Ht, Hbefore. lia.
    + unfold site_bucket. simpl. by rewrite lookup_insert_eq.
    + intros site' Hne. unfold site_bucket. simpl. by rewrite lookup_insert_ne.
    + done.
Qed.
End With_psl.

(** ** The scan's candidates *)

Lemma elem_of_bucket_candidates now site b c :
  c ∈ bucket_candidates now site b ↔
  ∃ position e, entries b !! position = Some e ∧ c = (rank_for_eviction e now, site, position).
Proof.
  unfold bucket_candidates. rewrite elem_of_lookup_imap. naive_solver.
Qed.

Lemma elem_of_candidates s now c :
  c ∈ candidates s now ↔
  ∃ site b position e, sites s !! site = Some b ∧ entries b !! position = Some e ∧
    c = (rank_for_eviction e now, site, position).
Proof.
  unfold candidates. rewrite list_elem_of_join. setoid_rewrite list_elem_of_fmap. split.
  - intros (l & Hc & ([site b] & -> & Hkv)). apply elem_of_map_to_list in Hkv. simpl in Hc.
    apply elem_of_bucket_candidates in Hc as (p & e & ? & ?). by exists site, b, p, e.
  - intros (site & b & p & e & Hb & He & ->). exists (bucket_candidates now site b).
    split; [apply elem_of_bucket_candidates; eauto|]. exists (site, b).
    split; [done|]. by apply elem_of_map_to_list.
Qed.

Lemma candidates_length `{Psl} s now : store_ok s → zlen (candidates s now) = total s.
Proof.
  intros [_ ->]. unfold candidates, map_zsum, zlen.
  induction (map_to_list (sites s)) as [|[site b] l IH]; [done|].
  rewrite !fmap_cons. change (mjoin (?x :: ?y)) with (x ++ mjoin y).
  change (zsum (?x :: ?y)) with (x + zsum y). rewrite length_app, Nat2Z.inj_add, IH.
  unfold bucket_candidates at 1. by rewrite length_imap.
Qed.

Lemma bucket_victims_NoDup now site b : NoDup (victim <$> bucket_candidates now site b).
Proof.
  unfold bucket_candidates. apply NoDup_alt. intros i j x.
  rewrite !list_lookup_fmap, !list_lookup_imap, !fmap_Some.
  intros (c & Hc & Hx) (c' & Hc' & Hx'). apply fmap_Some in Hc as (e & _ & ->), Hc' as (e' & _ & ->).
  unfold victim in *. simpl in *. congruence.
Qed.

Lemma candidates_victims_NoDup s now : NoDup (victim <$> candidates s now).
Proof.
  unfold candidates. pose proof (NoDup_fst_map_to_list (sites s)) as Hnd.
  induction (map_to_list (sites s)) as [|[site b] l IH]; simpl in *; [constructor|].
  apply NoDup_cons in Hnd as [Hsite Hnd]. rewrite fmap_app. apply NoDup_app. split_and!.
  - apply bucket_victims_NoDup.
  - intros x (c & -> & Hc)%list_elem_of_fmap (c' & Hv & Hc')%list_elem_of_fmap.
    apply elem_of_bucket_candidates in Hc as (p & e & _ & ->).
    apply list_elem_of_join in Hc' as (l' & Hc' & ([site' b'] & -> & Hl')%list_elem_of_fmap).
    apply elem_of_bucket_candidates in Hc' as (p' & e' & _ & ->).
    unfold victim in Hv. simpl in Hv. injection Hv as <- _.
    apply Hsite. by apply (list_elem_of_fmap_2 fst _ (site, b')).
  - by apply IH.
Qed.

(** ** Removing the victims *)

Section Removal.
Context `{Psl}.

Lemma remove_all_site_ok site b ps : site_bucket_ok site b → site_bucket_ok site (remove_all b ps).
Proof.
  intros [Hb Hes]. split; [by apply remove_all_ok|]. rewrite remove_all_entries.
  eapply Forall_sublist; [apply keep_positions_sublist|done].
Qed.

(** Distinct positions of a bucket. *)
Definition positions_in (b : Bucket) (ps : list nat) : Prop :=
  NoDup ps ∧ ∀ p, p ∈ ps → (p < length (entries b))%nat.

Lemma remove_all_bucket_len b ps :
  positions_in b ps → bucket_len (remove_all b ps) = bucket_len b - zlen ps.
Proof.
  intros [Hnd Hlt]. unfold bucket_len, zlen. rewrite remove_all_length by done.
  assert (length ps ≤ length (entries b))%nat; [|lia].
  trans (length (seq 0 (length (entries b)))); [|by rewrite length_seq].
  apply submseteq_length, NoDup_submseteq; [done|]. intros p Hp%Hlt. apply elem_of_seq. lia.
Qed.

Lemma remove_victims_spec s victims :
  store_ok s → NoDup victims.*1 →
  Forall (λ v, positions_in (site_bucket s v.1) v.2) victims →
  ∃ s', remove_victims s victims = Some s' ∧ store_ok s' ∧
    total s' = total s - zsum ((λ v, zlen v.2) <$> victims) ∧
    ∀ site, site_bucket s' site =
      remove_all (site_bucket s site) (default [] ((list_to_map victims : gmap str (list nat)) !! site)).
Proof.
  revert s. induction victims as [|[site ps] victims IH]; intros s Hs Hnd Hps; cbn [remove_victims].
  { exists s. split_and!; [done|done|unfold zsum; simpl; lia|].
    intros site. simpl. by rewrite lookup_empty. }
  rewrite fmap_cons in Hnd. apply NoDup_cons in Hnd as [Hsite Hnd]. cbn [fst] in Hsite. apply Forall_cons in Hps as [Hp Hps]. simpl in Hp.
  destruct (with_site_ok s site (λ b, Some (remove_all b ps, tt)) _ _ Hs eq_refl)
    as (s1 & Hw & Hs1 & Hb1 & Hother & Ht1).
  { by apply remove_all_site_ok, store_ok_site. }
  rewrite Hw. cbn [mbind option_bind].
  assert (Hne : ∀ v, v ∈ victims → v.1 ≠ site).
  { intros v Hv <-. apply Hsite. by apply list_elem_of_fmap_2. }
  destruct (IH s1 Hs1 Hnd) as (s' & Hr & Hs' & Ht & Hb').
  { apply Forall_forall. intros v Hv. rewrite Hother by auto. rewrite Forall_forall in Hps. auto. }
  exists s'. split_and!; [done|done| |].
  - rewrite fmap_cons. change (zsum (?x :: ?y)) with (x + zsum y).
    rewrite Ht, Ht1, remove_all_bucket_len by done. simpl. lia.
  - intros site'. rewrite Hb'. simpl. destruct (decide (site' = site)) as [->|Hne'].
    + rewrite lookup_insert_eq, Hb1. simpl.
      rewrite not_elem_of_list_to_map_1 by done. done.
    + by rewrite lookup_insert_ne, Hother by done.
Qed.

(** The entries of the evicted positions [doomed], per site. *)
Definition survivors (doomed : list (str * nat)) (site : str) (es : list Entry) : list Entry :=
  keep_positions (λ j, bool_decide ((site, j) ∉ doomed)) 0 es.

(** Evicted entries rank no higher than surviving ones. *)
Definition evicts_worst (s : Store) (now : SystemTime) (doomed : list (str * nat)) : Prop :=
  ∀ site i e site' j e',
    (site, i) ∈ doomed → entries (site_bucket s site) !! i = Some e →
    (site', j) ∉ doomed → entries (site_bucket s site') !! j = Some e' →
    ¬ lexico (rank_for_eviction e' now) (rank_for_eviction e now).

Lemma keep_positions_ext {A} f g i (l : list A) :
  (∀ j, f j = g j) → keep_positions f i l = keep_positions g i l.
Proof.
  intros Hfg. revert i. induction l as [|x l IH]; intros i; simpl; [done|].
  by rewrite Hfg, !IH.
Qed.

Lemma candidate_positions s now site ps :
  store_ok s → (∀ c, c ∈ ps → c ∈ candidates s now) → NoDup (victim <$> ps) →
  positions_in (site_bucket s site) (filter (λ kv, kv.1 = site) (victim <$> ps)).*2.
Proof.
  intros Hs Hin Hnd. split.
  - apply NoDup_fmap_2_strong; [|by apply NoDup_filter].
    intros [s1 p1] [s2 p2] [? _]%list_elem_of_filter [? _]%list_elem_of_filter. naive_solver.
  - intros p (kv & -> & [Hk (c & -> & Hc)%list_elem_of_fmap]%list_elem_of_filter)%list_elem_of_fmap.
    apply Hin, elem_of_candidates in Hc as (site' & b & q & e & Hb & He & ->).
    unfold victim in Hk. simpl in *. subst site'. unfold site_bucket. rewrite Hb. simpl.
    by eapply lookup_lt_Some.
Qed.

Lemma elem_of_site_candidates s now site i e :
  entries (site_bucket s site) !! i = Some e → (rank_for_eviction e now, site, i) ∈ candidates s now.
Proof.
  unfold site_bucket. intros He. apply elem_of_candidates.
  destruct (sites s !! site) as [b|] eqn:Hb; simpl in He; [|by rewrite lookup_nil in He].
  by exists site, b, i, e.
Qed.

Lemma elem_of_victims s now (worst : list Candidate) site i e :
  (∀ c, c ∈ worst → c ∈ candidates s now) → (site, i) ∈ (victim <$> worst) →
  entries (site_bucket s site) !! i = Some e → (rank_for_eviction e now, site, i) ∈ worst.
Proof.
  intros Hin (c & Hv & Hc)%list_elem_of_fmap He. pose proof Hc as Hcc.
  apply Hin, elem_of_candidates in Hcc as (s1 & b & p & x & Hb & Hx & ->).
  unfold victim in Hv. simpl in Hv. injection Hv as -> ->.
  unfold site_bucket in He. rewrite Hb in He. simpl in He. rewrite Hx in He. by injection He as ->.
Qed.

Lemma worst_evicts_worst s now (worst rest : list Candidate) :
  candidates s now ≡ₚ worst ++ rest →
  (∀ c r, c ∈ worst → r ∈ rest → ¬ lexico r c) →
  evicts_worst s now (victim <$> worst).
Proof.
  intros Hperm Hle site i e site' j e' Hd He Hk He' Hlt.
  eapply elem_of_victims in Hd; [|intros c Hc; rewrite Hperm, elem_of_app; by left|done].
  apply (elem_of_site_candidates s now) in He' as Hr. rewrite Hperm, elem_of_app in Hr.
  destruct Hr as [Hr|Hr].
  - apply Hk. by apply (list_elem_of_fmap_2 victim _ (rank_for_eviction e' now, site', j)).
  - apply (Hle _ _ Hd Hr). left. left. done.
Qed.

Lemma enforce_total_spec s now cap target :
  store_ok s → 0 <= target <= cap →
  ∃ s' doomed, enforce_total s now cap target = Some s' ∧ store_ok s' ∧
    total s' = (if total s <=? cap then total s else target) ∧
    (total s <= cap → doomed = []) ∧
    evicts_worst s now doomed ∧
    ∀ site, entries (site_bucket s' site) = survivors doomed site (entries (site_bucket s site)).
Proof.
  intros Hs Htc. unfold enforce_total. destruct (total s <=? cap) eqn:Hcap; bool_prop.
  { exists s, []. split_and!; [done|done|done|done| |].
    - intros site i e site' j e' Hd. by apply elem_of_nil in Hd.
    - intros site. unfold survivors. generalize 0%nat.
      induction (entries (site_bucket s site)) as [|e l IH]; intros i; simpl; [done|].
      by rewrite <- IH. }
  destruct (worst_of_splits (@lexico Candidate _) (total s - target) (candidates s now))
    as (rest & Hperm & _ & Hlen & Hle); [lia|].
  set (worst := worst_of _ _ _) in *. rewrite candidates_length in Hlen by done.
  pose proof (candidates_victims_NoDup s now) as Hnd. rewrite Hperm, fmap_app in Hnd.
  apply NoDup_app in Hnd as (Hndw & Hdisj & _).
  assert (Hin : ∀ c, c ∈ worst → c ∈ candidates s now).
  { intros c Hc. rewrite Hperm, elem_of_app. by left. }
  set (g := group (victim <$> worst)).
  destruct (remove_victims_spec s (map_to_list g) Hs) as (s' & Hr & Hs' & Ht & Hb).
  { apply NoDup_fst_map_to_list. }
  { apply Forall_forall. intros [site ps] Hv. apply elem_of_map_to_list in Hv. simpl.
    replace ps with (filter (λ kv, kv.1 = site) (victim <$> worst)).*2;
      [by eapply candidate_positions|].
    rewrite <- group_lookup. fold g. by rewrite Hv. }
  exists s', (victim <$> worst). split_and!; [done|done| |lia| |].
  - rewrite Ht. fold (map_zsum (@zlen nat) g). unfold g. rewrite group_size.
    unfold zlen in *. rewrite length_fmap. lia.
  - by eapply worst_evicts_worst.
  - intros site. rewrite Hb, remove_all_entries. unfold survivors. apply keep_positions_ext.
    intros j. apply bool_decide_ext. rewrite list_to_map_to_list. unfold g. rewrite group_lookup.
    apply not_iff_compat. rewrite list_elem_of_fmap. setoid_rewrite list_elem_of_filter.
    split; [intros ([s1 p] & -> & Hs1 & Hv); simpl in *; by subst|].
    intros Hv. by exists (site, j).
Qed.
End Removal.
