(* ===== verification/Jar.v ===== *)
(** [chromulate-cookie]: the jar itself, [impl Jar] and its [CookieStore]
    implementation (src/crates/chromulate-cookie/src/jar.rs).

    The lock and the atomics are one state, passed explicitly; the clock is the
    [now] each operation reads once.  [None] is a panic. *)
From S2P Require Import Prelude RustStr RustTime Extern Origin CookieScope CookieDate Cookie Bucket.
From S2P Require Import Eviction JarStore.
Local Open Scope Z_scope.

(** The two sequence counters, [AtomicU64]s that wrap. *)
Record Counters := mk_counters { next_creation_seq : Z; next_access_seq : Z }.

Definition take_creation (c : Counters) : Z * Counters :=
  (next_creation_seq c, mk_counters (wrap64 (next_creation_seq c + 1)) (next_access_seq c)).
Definition take_access (c : Counters) : Z * Counters :=
  (next_access_seq c, mk_counters (next_creation_seq c) (wrap64 (next_access_seq c + 1))).

Record Jar := mk_jar { jar_store : Store; limits : JarLimits; counters : Counters }.

Definition new_jar (l : JarLimits) : Jar := mk_jar empty_store l (mk_counters 0 0).

(** ** Storing *)

Definition apply_set_cookie (b : Bucket) (c : Cookie) (now : SystemTime) (request_is_secure : bool)
    (n : Counters) : option (Bucket * Counters) :=
  let existing := position_of b (name c) (domain c) (cookie_path c) in
  let protected :=
    match existing with
    | Some position =>
        match entries b !! position with
        | Some e => secure (cookie e) && negb request_is_secure
        | None => false
        end
    | None => false
    end in
  if protected then Some (b, n)
  else if is_expired c now then
    match existing with
    | Some position => b' ← remove b position; Some (b', n)
    | None => Some (b, n)
    end
  else
    match existing with
    | Some position =>
        let creation := match entries b !! position with Some e => creation_seq e | None => 0 end in
        let '(access, n) := take_access n in
        b' ← replace b position (mk_entry c creation access); Some (b', n)
    | None =>
        let '(creation, n) := take_creation n in
        let '(access, n) := take_access n in
        Some (push b (mk_entry c creation access), n)
    end.

(** [touched]: the sites of the response, in order of first appearance. *)
Definition touch (touched : list str) (site : str) : list str :=
  if decide (site ∈ touched) then touched else touched ++ [site].

Section With_extern.
Context `{Psl} `{HeaderValueApi} `{UrlApi}.

Definition store_one (l : JarLimits) (c : Cookie) (now : SystemTime) (request_is_secure : bool)
    (b : Bucket) (n : Counters) : option (Bucket * Counters) :=
  '(b, n) ← apply_set_cookie b c now request_is_secure n;
  if saturating_mul (per_domain l) 2 <? bucket_len b
  then Some (trim_to (remove_expired b now) (per_domain l), n)
  else Some (b, n).

(** The loop over the [Set-Cookie] headers of one response. *)
Fixpoint store_headers (l : JarLimits) (host path : str) (request_is_secure : bool)
    (now : SystemTime) (headers : list str) (s : Store) (n : Counters) (touched : list str)
    : option (Store * Counters * list str) :=
  match headers with
  | [] => Some (s, n, touched)
  | header :: rest =>
      match parse header host path request_is_secure now with
      | None => store_headers l host path request_is_secure now rest s n touched
      | Some c =>
          let site := site_of (domain c) in
          '(s, n) ← with_site s site (λ b, store_one l c now request_is_secure b n);
          store_headers l host path request_is_secure now rest s n (touch touched site)
      end
  end.

(** The trim of every touched site once the response is applied. *)
Fixpoint trim_touched (l : JarLimits) (now : SystemTime) (touched : list str) (s : Store)
    : option Store :=
  match touched with
  | [] => Some s
  | site :: rest =>
      '(s, _) ← with_site s site (λ b,
        Some (if per_domain l <? bucket_len b
              then trim_to (remove_expired b now) (domain_purge_target l) else b, tt));
      trim_touched l now rest s
  end.

Definition store (j : Jar) (url : Url) (set_cookie : list str) (now : SystemTime) : option Jar :=
  match origin_of url with
  | inr _ => Some j
  | inl origin =>
      let l := limits j in
      '(s, n, touched) ← store_headers l (o_host origin) (path url) (is_secure origin) now
                           set_cookie (jar_store j) (counters j) [];
      s ← trim_touched l now touched s;
      s ← enforce_total s now (total_limit l) (purge_target l);
      Some (mk_jar s l n)
  end.

(** ** Looking up *)

Definition matches (e : Entry) (host path : str) (request_is_secure : bool)
    (context : CookieContext) (now : SystemTime) : bool :=
  negb (is_expired (cookie e) now)
  && applies_to (cookie e) host path request_is_secure
  && same_site_eligible (cookie e) host context.

(** RFC 6265 section 5.4: longer paths first, then earlier creation. *)
Definition header_order (a b : Entry) : bool :=
  (zlen (cookie_path (cookie b)) <? zlen (cookie_path (cookie a)))
  || ((zlen (cookie_path (cookie b)) =? zlen (cookie_path (cookie a)))
      && (creation_seq a <=? creation_seq b)).

Definition render (e : Entry) : str := name (cookie e) ++ b#"=" ++ value (cookie e).
Definition render_all (es : list Entry) : str := join b#"; " (render <$> es).

Definition touch_entry (access : Z) (e : Entry) : Entry :=
  mk_entry (cookie e) (creation_seq e) access.

Definition cookies_for (j : Jar) (url : Url) (context : CookieContext) (now : SystemTime)
    : option str * Jar :=
  match origin_of url with
  | inr _ => (None, j)
  | inl origin =>
      let host := o_host origin in
      let site := site_of host in
      match sites (jar_store j) !! site with
      | None => (None, j)
      | Some bucket =>
          let hit e := matches e host (path url) (is_secure origin) context now in
          let found := filter (λ e, hit e = true) (entries bucket) in
          if decide (found = []) then (None, j)
          else
            let sorted := sort_by header_order found in
            let '(access, n) := take_access (counters j) in
            let touched := mk_bucket
              ((λ e, if hit e then touch_entry access e else e) <$> entries bucket)
              (index bucket) in
            let j' := mk_jar (mk_store (<[site := touched]> (sites (jar_store j)))
                                       (total (jar_store j))) (limits j) n in
            match from_str (render_all sorted) with
            | Some header => (Some header, j')
            | None =>
                let kept := filter (λ e, is_representable (name (cookie e)) (value (cookie e)) = true)
                              sorted in
                if decide (kept = []) then (None, j') else (from_str (render_all kept), j')
            end
      end
  end.
End With_extern.

(** ** Snapshots *)

Record CookieRecord := mk_record {
  r_name : str;
  r_value : str;
  r_domain : str;
  r_host_only : bool;
  r_path : str;
  r_secure : bool;
  r_http_only : bool;
  r_same_site : SameSite;
  r_partitioned : bool;
  r_expires : option Z;
  r_creation_seq : Z;
  r_last_access_seq : Z;
}.

Definition record_of (e : Entry) : CookieRecord :=
  let c := cookie e in
  mk_record (name c) (value c) (domain c) (host_only c) (cookie_path c) (secure c) (http_only c)
    (same_site c) (partitioned c) (system_time_to_epoch_seconds <$> expires c)
    (creation_seq e) (last_access_seq e).

Definition export (j : Jar) (now : SystemTime) : list CookieRecord :=
  record_of <$>
  filter (λ e, is_expired (cookie e) now = false)
    (mjoin ((λ kv, entries kv.2) <$> map_to_list (sites (jar_store j)))).

Definition entry_of_record (r : CookieRecord) : Entry :=
  mk_entry
    (mk_cookie (r_name r) (r_value r) (r_domain r) (r_host_only r) (r_path r) (r_secure r)
       (r_http_only r) (r_same_site r) (r_partitioned r)
       (epoch_seconds_to_system_time <$> r_expires r))
    (r_creation_seq r) (r_last_access_seq r).

(** The three checks of [import], on the record itself. *)
Definition admissible (r : CookieRecord) (now : SystemTime) : bool :=
  negb (match epoch_seconds_to_system_time <$> r_expires r with
        | Some expiry => expiry <=? now
        | None => false
        end)
  && is_representable (r_name r) (r_value r)
  && keeps_name_prefix_promise (r_name r) (r_secure r) (r_host_only r) (r_path r).

(** [fetch_max] of the saturated successor. *)
Definition raise_counters (n : Counters) (r : CookieRecord) : Counters :=
  mk_counters (Z.max (next_creation_seq n) (saturating_add (r_creation_seq r) 1))
              (Z.max (next_access_seq n) (saturating_add (r_last_access_seq r) 1)).

Definition import_entry (e : Entry) (b : Bucket) : option (Bucket * unit) :=
  let c := cookie e in
  b ← match position_of b (name c) (domain c) (cookie_path c) with
      | Some position => remove b position
      | None => Some b
      end;
  Some (push b e, tt).

Section With_import.
Context `{Psl}.

Fixpoint import_records (records : list CookieRecord) (now : SystemTime) (s : Store) (n : Counters)
    : option (Store * Counters) :=
  match records with
  | [] => Some (s, n)
  | r :: rest =>
      if admissible r now then
        let e := entry_of_record r in
        '(s, _) ← with_site s (site_of (domain (cookie e))) (import_entry e);
        import_records rest now s (raise_counters n r)
      else import_records rest now s n
  end.

Definition import (j : Jar) (snapshot : list CookieRecord) (now : SystemTime) : option Jar :=
  '(s, n) ← import_records snapshot now (jar_store j) (counters j);
  let s := tidy_every_site s now (per_domain (limits j)) in
  s ← enforce_total s now (total_limit (limits j)) (purge_target (limits j));
  Some (mk_jar s (limits j) n).
End With_import.
