(* ===== verification/JarInvariant.v ===== *)
(** The jar's invariant: the index of every bucket is exact, every cookie is
    filed under its site and keeps its prefix promise, the running total is the
    number of cookies, and both caps hold at rest.  [store], [import] and
    [cookies_for] keep it and never panic. *)
From S2P Require Import Prelude RustStr RustTime Extern Origin CookieScope CookieDate Cookie Bucket.
From S2P Require Import Eviction JarStore Jar.
Local Open Scope Z_scope.

Section Buckets.
Context `{Psl}.

Lemma remove_expired_site_ok site b now :
  site_bucket_ok site b → site_bucket_ok site (remove_expired b now).
Proof.
  intros [Hb Hes]. destruct (remove_expired_ok b now Hb) as [Hok He]. split; [done|].
  rewrite He. eapply Forall_sublist; [apply sublist_filter|done].
Qed.

Lemma trim_to_site_ok site b keep : site_bucket_ok site b → site_bucket_ok site (trim_to b keep).
Proof.
  intros [Hb Hes]. split; [by apply trim_to_ok|].
  eapply Forall_sublist; [apply trim_to_sublist|done].
Qed.

Lemma trim_to_bucket_len b keep : 0 <= keep → bucket_len (trim_to b keep) <= keep.
Proof. intros Hk. unfold bucket_len. rewrite trim_to_length by done. lia. Qed.
End Buckets.

(** The entry a [Set-Cookie] would replace. *)
Definition existing_entry (b : Bucket) (c : Cookie) : option (nat * Entry) :=
  i ← position_of b (name c) (domain c) (cookie_path c); e ← entries b !! i; Some (i, e).

Lemma existing_entry_Some b c i e :
  bucket_ok b →
  existing_entry b c = Some (i, e) ↔ entries b !! i = Some e ∧ entry_id e = identity_of c.
Proof.
  intros Hb. unfold existing_entry. split.
  - intros (j & Hj & Hx)%bind_Some. apply position_of_spec in Hj as (x & Hx' & Hid); [|done].
    rewrite Hx' in Hx. simpl in Hx. injection Hx as <- <-. done.
  - intros [Hi Hid]. assert (position_of b (name c) (domain c) (cookie_path c) = Some i) as Hp.
    { apply position_of_spec; eauto. }
    rewrite Hp. simpl. by rewrite Hi.
Qed.

Lemma existing_entry_None b c :
  bucket_ok b → existing_entry b c = None → identity_of c ∉ (entry_id <$> entries b).
Proof.
  intros Hb Hnone. apply (position_of_None _ (name c) (domain c) (cookie_path c)); [done|].
  apply eq_None_not_Some. intros [i Hi]. apply position_of_spec in Hi as Hi'; [|done].
  destruct Hi' as (e & He & _). unfold existing_entry in Hnone. rewrite Hi in Hnone. simpl in Hnone.
  by rewrite He in Hnone.
Qed.

(** What [apply_set_cookie] does, by case. *)
Lemma apply_set_cookie_spec b c now sec n :
  bucket_ok b →
  ∃ b' n', apply_set_cookie b c now sec n = Some (b', n') ∧ bucket_ok b' ∧
    match existing_entry b c with
    | Some (i, e) =>
        if secure (cookie e) && negb sec then b' = b ∧ n' = n
        else if is_expired c now then entries b ≡ₚ e :: entries b' ∧ n' = n
        else entries b' = <[i := mk_entry c (creation_seq e) (next_access_seq n)]> (entries b)
    | None =>
        if is_expired c now then b' = b ∧ n' = n
        else entries b' =
             entries b ++ [mk_entry c (next_creation_seq n) (next_access_seq n)]
    end.
Proof.
  intros Hb. unfold apply_set_cookie. destruct (existing_entry b c) as [[i e]|] eqn:Hex.
  - apply existing_entry_Some in Hex as [Hi Hid]; [|done].
    assert (position_of b (name c) (domain c) (cookie_path c) = Some i) as Hp.
    { apply position_of_spec; eauto. }
    rewrite Hp, Hi. destruct (secure (cookie e) && negb sec); [by exists b, n|].
    destruct (is_expired c now).
    + destruct (remove_ok b i e Hb Hi) as (b' & -> & Hok & Hperm). simpl. by exists b', n.
    + destruct (replace_ok b i e (mk_entry c (creation_seq e) (next_access_seq n)) Hb Hi)
        as (b' & Hr & Hok & Hes); [by rewrite Hid|].
      simpl. rewrite Hr. simpl. by eexists _, _.
  - apply existing_entry_None in Hex; [|done].
    assert (position_of b (name c) (domain c) (cookie_path c) = None) as Hp.
    { by apply position_of_None. }
    rewrite Hp. destruct (is_expired c now); [by exists b, n|].
    eexists _, _. split; [done|]. split; [|done]. by apply push_ok.
Qed.

Section Invariant.
Context `{Psl} `{HeaderValueLaws} `{UrlApi}.

Definition jar_ok (j : Jar) : Prop :=
  limits_ok (limits j) ∧ store_ok (jar_store j) ∧
  total (jar_store j) <= total_limit (limits j) ∧
  ∀ site, bucket_len (site_bucket (jar_store j) site) <= per_domain (limits j).

Lemma new_jar_ok l : limits_ok l → jar_ok (new_jar l).
Proof.
  intros Hl. split_and!; [done|apply empty_store_ok|apply Hl|].
  intros site. unfold site_bucket. simpl. rewrite lookup_empty. apply Hl.
Qed.

(** [apply_set_cookie] keeps a bucket well filed. *)
Lemma apply_set_cookie_ok site b c now sec n :
  site_bucket_ok site b → (∀ cr ac, entry_ok site (mk_entry c cr ac)) →
  ∃ b' n', apply_set_cookie b c now sec n = Some (b', n') ∧ site_bucket_ok site b' ∧
    bucket_len b' <= bucket_len b + 1.
Proof.
  intros [Hb Hes] Hc. destruct (apply_set_cookie_spec b c now sec n Hb)
    as (b' & n' & Happ & Hok & Hcase).
  exists b', n'. split; [done|]. unfold site_bucket_ok, bucket_len.
  enough (Forall (entry_ok site) (entries b') ∧ zlen (entries b') <= zlen (entries b) + 1) by tauto.
  destruct (existing_entry b c) as [[i e]|].
  - destruct (_ && _); [destruct Hcase as [-> _]; split; [done|lia]|].
    destruct (is_expired c now).
    + destruct Hcase as [Hperm _]. rewrite Hperm in Hes. apply Forall_cons in Hes as [_ Hes].
      split; [done|]. rewrite (zlen_perm _ _ Hperm), zlen_cons. lia.
    + rewrite Hcase. split; [|unfold zlen; rewrite length_insert; lia].
      apply Forall_insert; [done|apply Hc].
  - destruct (is_expired c now); [destruct Hcase as [-> _]; split; [done|lia]|].
    rewrite Hcase. split; [|rewrite zlen_app; unfold zlen at 2; simpl; lia].
    apply Forall_app. split; [done|]. constructor; [apply Hc|constructor].
Qed.

Lemma store_one_ok l site b c now sec n :
  site_bucket_ok site b → (∀ cr ac, entry_ok site (mk_entry c cr ac)) →
  ∃ b' n', store_one l c now sec b n = Some (b', n') ∧ site_bucket_ok site b'.
Proof.
  intros Hb Hc. destruct (apply_set_cookie_ok site b c now sec n Hb Hc)
    as (b1 & n1 & Happ & Hb1 & _).
  unfold store_one. rewrite Happ. simpl. case_match; eexists _, _; (split; [done|]); [|done].
  by apply trim_to_site_ok, remove_expired_site_ok.
Qed.

Lemma parse_entry_ok header host path sec now c :
  parse header host path sec now = Some c →
  ∀ cr ac, entry_ok (site_of (domain c)) (mk_entry c cr ac).
Proof.
  intros Hp cr ac. apply parse_accepted_lemma in Hp. unfold entry_ok. simpl.
  split_and!; [done|apply Hp|apply Hp].
Qed.

Lemma elem_of_touch touched site x : x ∈ touch touched site ↔ x ∈ touched ∨ x = site.
Proof. unfold touch. case_decide; [naive_solver|]. rewrite elem_of_app, list_elem_of_singleton. done. Qed.

Lemma store_headers_ok l host path sec now headers s n touched :
  store_ok s →
  ∃ s' n' touched',
    store_headers l host path sec now headers s n touched = Some (s', n', touched') ∧
    store_ok s' ∧ (∀ x, x ∈ touched → x ∈ touched') ∧
    ∀ site, site ∉ touched' → site_bucket s' site = site_bucket s site.
Proof.
  revert s n touched. induction headers as [|h headers IH]; intros s n touched Hs; simpl.
  { by exists s, n, touched. }
  destruct (parse h host path sec now) as [c|] eqn:Hp; [|by apply IH].
  pose proof (parse_entry_ok _ _ _ _ _ _ Hp) as Hc. set (site := site_of (domain c)) in *.
  destruct (store_one_ok l site (site_bucket s site) c now sec n) as (b' & n' & Hone & Hb');
    [by apply store_ok_site|done|].
  destruct (with_site_ok s site (λ b, store_one l c now sec b n) b' n' Hs Hone Hb')
    as (s1 & -> & Hs1 & _ & Hother & _). cbn [mbind option_bind].
  destruct (IH s1 n' (touch touched site) Hs1) as (s' & n2 & touched' & -> & Hs' & Hsub & Hsame).
  exists s', n2, touched'. split_and!; [done|done| |].
  - intros x Hx. apply Hsub, elem_of_touch. by left.
  - intros x Hx. rewrite Hsame by done. apply Hother. intros ->. apply Hx, Hsub, elem_of_touch.
    by right.
Qed.

Lemma domain_purge_target_range l : limits_ok l → 0 <= domain_purge_target l <= per_domain l.
Proof.
  intros [Hd _]. unfold domain_purge_target, domain_purge_batch, saturating_sub.
  Z.to_euclidean_division_equations; lia.
Qed.

Lemma total_purge_target_range l : limits_ok l → 0 <= purge_target l <= total_limit l.
Proof.
  intros [_ Ht]. unfold purge_target, purge_batch, saturating_sub.
  Z.to_euclidean_division_equations; lia.
Qed.

Lemma trim_touched_ok l now touched s :
  limits_ok l → store_ok s →
  ∃ s', trim_touched l now touched s = Some s' ∧ store_ok s' ∧
    ∀ site, site ∈ touched ∨ bucket_len (site_bucket s site) <= per_domain l →
      bucket_len (site_bucket s' site) <= per_domain l.
Proof.
  intros Hl. revert s. induction touched as [|site touched IH]; intros s Hs; cbn [trim_touched].
  { exists s. split_and!; [done..|]. intros site [Hx|?]; [by apply elem_of_nil in Hx|done]. }
  pose proof (domain_purge_target_range l Hl) as Ht.
  set (b' := if per_domain l <? bucket_len (site_bucket s site)
             then trim_to (remove_expired (site_bucket s site) now) (domain_purge_target l)
             else site_bucket s site).
  assert (Hb' : site_bucket_ok site b' ∧ bucket_len b' <= per_domain l).
  { unfold b'. pose proof (store_ok_site s site Hs). case_match; bool_prop; [|done].
    split; [by apply trim_to_site_ok, remove_expired_site_ok|].
    etrans; [apply trim_to_bucket_len|]; lia. }
  destruct Hb' as [Hok Hlen].
  destruct (with_site_ok s site (λ b, Some (if per_domain l <? bucket_len b
              then trim_to (remove_expired b now) (domain_purge_target l) else b, tt))
              b' tt Hs eq_refl Hok) as (s1 & -> & Hs1 & Hsite & Hother & _).
  cbn [mbind option_bind]. destruct (IH s1 Hs1) as (s' & -> & Hs' & Hcap).
  exists s'. split_and!; [done..|]. intros x Hx. apply Hcap.
  destruct (decide (x = site)) as [->|Hne]; [right; by rewrite Hsite|].
  rewrite elem_of_cons in Hx. destruct Hx as [[?|?]|?]; [done|by left|].
  right. by rewrite Hother.
Qed.

Lemma survivors_sublist doomed site es : sublist (survivors doomed site es) es.
Proof. apply keep_positions_sublist. Qed.

(** The global purge brings a store under both caps. *)
Lemma enforce_total_caps s now l :
  limits_ok l → store_ok s → (∀ site, bucket_len (site_bucket s site) <= per_domain l) →
  ∃ s', enforce_total s now (total_limit l) (purge_target l) = Some s' ∧ store_ok s' ∧
    total s' <= total_limit l ∧
    ∀ site, bucket_len (site_bucket s' site) <= per_domain l.
Proof.
  intros Hl Hs Hcap. pose proof (total_purge_target_range l Hl) as Ht.
  destruct (enforce_total_spec s now (total_limit l) (purge_target l) Hs Ht)
    as (s' & doomed & -> & Hs' & Htot & _ & _ & Hes).
  exists s'. split_and!; [done|done| |].
  - rewrite Htot. case_match; bool_prop; lia.
  - intros site. etrans; [|apply Hcap]. unfold bucket_len, zlen. rewrite Hes.
    apply inj_le, sublist_length, survivors_sublist.
Qed.

Lemma store_ok_lemma j url headers now :
  jar_ok j → ∃ j', store j url headers now = Some j' ∧ jar_ok j' ∧ limits j' = limits j.
Proof.
  intros (Hl & Hs & Ht & Hcap). unfold store. destruct (origin_of url) as [o|e]; [|by exists j].
  destruct (store_headers_ok (limits j) (o_host o) (path url) (is_secure o) now headers
              (jar_store j) (counters j) [] Hs) as (s1 & n1 & touched & -> & Hs1 & _ & Hsame).
  cbn [mbind option_bind].
  destruct (trim_touched_ok (limits j) now touched s1 Hl Hs1) as (s2 & -> & Hs2 & Hcap2).
  cbn [mbind option_bind].
  destruct (enforce_total_caps s2 now (limits j) Hl Hs2) as (s3 & -> & Hs3 & Ht3 & Hcap3).
  { intros site. apply Hcap2. destruct (decide (site ∈ touched)) as [?|Hni]; [by left|].
    right. rewrite Hsame by done. apply Hcap. }
  cbn [mbind option_bind]. eexists. split; [done|]. split; [|done]. by split_and!.
Qed.

(** C30. Storing a response's [Set-Cookie] headers never panics and keeps the
    jar's invariant: in every bucket the index maps each (name, domain, path)
    to its exact position, every cookie sits under its registrable domain,
    can be sent in a header and keeps its name-prefix promise, the running
    total is the number of cookies held, and at rest neither the per-domain
    nor the total cap is exceeded, whatever the response carried. *)
Theorem store_keeps_jar_ok j url headers now :
  jar_ok j → ∃ j', store j url headers now = Some j' ∧ jar_ok j' ∧ limits j' = limits j.
Proof. apply store_ok_lemma. Qed.

(** ** Import *)

Lemma import_entry_ok site b e :
  site_bucket_ok site b → entry_ok site e →
  ∃ b', import_entry e b = Some (b', tt) ∧ site_bucket_ok site b'.
Proof.
  intros [Hb Hes] He. unfold import_entry. destruct (position_of b _ _ _) as [i|] eqn:Hp.
  - apply position_of_spec in Hp as (x & Hx & Hid); [|done].
    destruct (remove_ok b i x Hb Hx) as (b' & -> & Hok & Hperm). simpl.
    pose proof (bucket_ok_NoDup b Hb) as Hnd. rewrite Hperm in Hnd, Hes.
    rewrite fmap_cons in Hnd.
    apply NoDup_cons in Hnd as [Hfresh _]. apply Forall_cons in Hes as [_ Hes].
    eexists. split; [done|]. split; [apply push_ok; [done|]|].
    + by replace (entry_id e) with (entry_id x).
    + apply Forall_app. split; [done|by apply Forall_singleton].
  - apply position_of_None in Hp; [|done]. simpl. eexists. split; [done|].
    split; [by apply push_ok|]. apply Forall_app. split; [done|by apply Forall_singleton].
Qed.

Lemma admissible_entry_ok r now :
  admissible r now = true →
  entry_ok (site_of (domain (cookie (entry_of_record r)))) (entry_of_record r).
Proof. unfold admissible. intros Ha. bool_prop. split_and!; [done|tauto|tauto]. Qed.

Lemma import_records_ok records now s n :
  store_ok s → ∃ s' n', import_records records now s n = Some (s', n') ∧ store_ok s'.
Proof.
  revert s n. induction records as [|r records IH]; intros s n Hs; cbn [import_records].
  { by exists s, n. }
  destruct (admissible r now) eqn:Ha; [|by apply IH].
  apply admissible_entry_ok in Ha. set (site := site_of _) in *.
  destruct (import_entry_ok site (site_bucket s site) _ (store_ok_site s site Hs) Ha)
    as (b' & Himp & Hb').
  destruct (with_site_ok s site _ b' tt Hs Himp Hb') as (s1 & -> & Hs1 & _).
  cbn [mbind option_bind]. by apply IH.
Qed.

Lemma tidy_every_site_ok s now cap :
  0 <= cap → store_ok s →
  store_ok (tidy_every_site s now cap) ∧
  ∀ site, bucket_len (site_bucket (tidy_every_site s now cap) site) <= cap.
Proof.
  intros Hcap [Hs _]. unfold tidy_every_site. set (m := filter _ _).
  assert (Hm : ∀ site b, m !! site = Some b →
            site_bucket_ok site b ∧ entries b ≠ [] ∧ bucket_len b <= cap).
  { intros site b [Hb Hne]%map_lookup_filter_Some. apply lookup_fmap_Some in Hb as (b0 & <- & Hb0).
    apply Hs in Hb0 as [Hb0 _]. split_and!; [|done|by apply trim_to_bucket_len].
    by apply trim_to_site_ok, remove_expired_site_ok. }
  split; [split; [|done]|].
  - intros site b Hb. simpl in Hb. by destruct (Hm site b Hb) as (? & ? & _).
  - intros site. unfold site_bucket. simpl. destruct (m !! site) as [b|] eqn:Hb; simpl; [|done].
    by apply (Hm site b).
Qed.

(** Importing any snapshot, including a hand-written one, never panics and
    keeps the jar's invariant: records that are expired, unrepresentable or
    break their name-prefix promise leave no trace in it, and the caps hold
    afterwards. *)
Theorem import_keeps_jar_ok j snapshot now :
  jar_ok j → ∃ j', import j snapshot now = Some j' ∧ jar_ok j' ∧ limits j' = limits j.
Proof.
  intros (Hl & Hs & _ & _). unfold import.
  destruct (import_records_ok snapshot now (jar_store j) (counters j) Hs) as (s1 & n1 & -> & Hs1).
  cbn [mbind option_bind].
  destruct (tidy_every_site_ok s1 now (per_domain (limits j))) as [Hs2 Hcap]; [apply Hl|done|].
  destruct (enforce_total_caps _ now (limits j) Hl Hs2 Hcap) as (s3 & -> & Hs3 & Ht3 & Hcap3).
  cbn [mbind option_bind]. eexists. split; [done|]. split; [|done]. by split_and!.
Qed.

(** ** Lookup *)

Lemma touch_bucket_ok site b (hit : Entry → bool) access :
  site_bucket_ok site b →
  site_bucket_ok site
    (mk_bucket ((λ e, if hit e then touch_entry access e else e) <$> entries b) (index b)).
Proof.
  intros [Hb Hes]. set (f := λ e, if hit e then touch_entry access e else e).
  assert (Hid : ∀ e, entry_id (f e) = entry_id e) by (intros e; unfold f; by destruct (hit e)).
  split; simpl.
  - intros id i. simpl. rewrite (Hb id i). setoid_rewrite list_lookup_fmap_Some. split.
    + intros (e & He & <-). exists (f e). split; [eauto|by rewrite Hid].
    + intros (x & (e & -> & He) & <-). exists e. by rewrite Hid.
  - apply Forall_fmap. eapply Forall_impl; [done|]. intros e He. unfold compose, f.
    by destruct (hit e).
Qed.

Lemma replace_site_ok s site b b' :
  store_ok s → sites s !! site = Some b → site_bucket_ok site b' → bucket_len b' = bucket_len b →
  store_ok (mk_store (<[site := b']> (sites s)) (total s)) ∧
  ∀ x, bucket_len (site_bucket (mk_store (<[site := b']> (sites s)) (total s)) x) =
       bucket_len (site_bucket s x).
Proof.
  intros [Hs Ht] Hb Hb' Hlen. split; [split|]; simpl.
  - intros x c Hc. destruct (decide (x = site)) as [->|Hne].
    + rewrite lookup_insert_eq in Hc. injection Hc as <-. split; [done|].
      rewrite <- bucket_len_zero, Hlen, bucket_len_zero. by apply (Hs site).
    + rewrite lookup_insert_ne in Hc by done. by apply Hs.
  - rewrite map_zsum_insert, Hb, <- Ht. simpl. lia.
  - intros x. unfold site_bucket. simpl. destruct (decide (x = site)) as [->|Hne].
    + by rewrite lookup_insert_eq, Hb.
    + by rewrite lookup_insert_ne.
Qed.

Lemma cookies_for_ok j url ctx now :
  jar_ok j → jar_ok (cookies_for j url ctx now).2 ∧
             limits (cookies_for j url ctx now).2 = limits j.
Proof.
  intros Hj. unfold cookies_for. destruct (origin_of url) as [o|]; [|done].
  destruct (sites _ !! _) as [b|] eqn:Hb; [|done]. case_decide; [done|]. simpl.
  set (j' := mk_jar _ _ _).
  assert (Hj' : jar_ok j').
  { destruct Hj as (Hl & Hs & Ht & Hcap). pose proof (proj1 Hs _ _ Hb) as [Hbo _].
    set (hit := λ e, matches e (o_host o) (path url) (is_secure o) ctx now).
    destruct (replace_site_ok _ _ _ _ Hs Hb
                (touch_bucket_ok _ _ hit (next_access_seq (counters j)) Hbo)) as [Hs' Hlen].
    { unfold bucket_len, zlen. simpl. by rewrite length_fmap. }
    split_and!; [done|done|done|]. intros x. simpl. rewrite Hlen. apply Hcap. }
  destruct (from_str _); [done|]. by case_decide.
Qed.
End Invariant.
