(* ===== verification/JarBehaviour.v ===== *)
(** What the jar does for its callers: which cookies a request carries and in
    which order, what a response may change, and what eviction drops. *)
From S2P Require Import Prelude RustStr RustTime Extern Origin CookieScope CookieDate Cookie Bucket.
From S2P Require Import Eviction JarStore Jar JarInvariant.
Local Open Scope Z_scope.

(** ** Lookup *)

Section Lookup.
Context `{Psl} `{HeaderValueLaws} `{UrlApi}.

(** RFC 6265 section 5.4 with the same-site rule: the cookies a request to
    [o] and [path] carries. *)
Record Eligible (o : Origin) (path : str) (ctx : CookieContext) (now : SystemTime) (c : Cookie)
    : Prop := {
  el_live : ∀ e, expires c = Some e → now < e;
  el_secure : secure c = true → is_secure o = true;
  el_host : if host_only c then o_host o = domain c else DomainMatch (o_host o) (domain c);
  el_path : PathMatch path (cookie_path c);
  el_site : match same_site c with
            | SS_None => True
            | SS_Lax => is_top_level_navigation ctx = true ∨
                ∃ i, initiator ctx = Some i ∧ site_of (o_host i) = site_of (o_host o)
            | SS_Strict =>
                ∃ i, initiator ctx = Some i ∧ site_of (o_host i) = site_of (o_host o)
            end;
}.

Lemma same_site_iff (ctx : CookieContext) (o : Origin) :
  match initiator ctx with
  | Some i => is_same_site (o_host i) (o_host o)
  | None => false
  end = true ↔ ∃ i, initiator ctx = Some i ∧ site_of (o_host i) = site_of (o_host o).
Proof.
  unfold is_same_site. destruct (initiator ctx) as [i|]; [rewrite bool_decide_eq_true|]; naive_solver.
Qed.

Lemma matches_Eligible e o path ctx now :
  matches e (o_host o) path (is_secure o) ctx now = true ↔ Eligible o path ctx now (cookie e).
Proof.
  unfold matches, applies_to, same_site_eligible, is_expired.
  rewrite !andb_true_iff, negb_true_iff. split.
  - intros [[Hexp Happ] Hss]. revert Happ. destruct (secure (cookie e) && negb (is_secure o)) eqn:Hsec; [done|].
    rewrite andb_true_iff, path_matches_iff. intros [Hhost Hpath]. split; [| | |done|].
    + intros x Hx. rewrite Hx in Hexp. by bool_prop.
    + intros Hs. rewrite Hs in Hsec. simpl in Hsec. by bool_prop.
    + destruct (host_only _); [by bool_prop|by apply domain_matches_iff].
    + destruct (same_site _); [by apply same_site_iff| |done].
      apply orb_true_iff in Hss as [?|?]; [right; by apply same_site_iff|by left].
  - intros [Hlive Hsec Hhost Hpath Hss]. split; [split|].
    + destruct (expires _) as [x|]; [|done]. specialize (Hlive x eq_refl). by bool_prop.
    + destruct (secure (cookie e)) eqn:Hs; simpl; [rewrite Hsec by done; simpl|];
        rewrite andb_true_iff, path_matches_iff; (split; [|done]);
        (destruct (host_only _); [by bool_prop|by apply domain_matches_iff]).
    + destruct (same_site _); [by apply same_site_iff| |done].
      apply orb_true_iff. destruct Hss as [?|?]; [by right|left; by apply same_site_iff].
Qed.

Lemma render_all_visible site es :
  Forall (entry_ok site) es → Forall (λ c, visible_ascii c = true) (render_all es).
Proof.
  intros Hes. apply join_visible; [by repeat constructor|]. apply Forall_fmap.
  eapply Forall_impl; [done|]. intros e (_ & Hr & _). unfold compose, render.
  apply is_representable_spec in Hr as (_ & Hn & Hv). rewrite !Forall_app.
  split_and!; [|by repeat constructor|].
  - eapply Forall_impl; [done|]. by intros c [? _].
  - eapply Forall_impl; [done|]. by intros c [? _].
Qed.

Lemma header_order_total a b : header_order a b = true ∨ header_order b a = true.
Proof. unfold header_order. rewrite !orb_true_iff, !andb_true_iff. lia. Qed.

Lemma header_order_trans a b c :
  header_order a b = true → header_order b c = true → header_order a c = true.
Proof. unfold header_order. rewrite !orb_true_iff, !andb_true_iff. lia. Qed.

(** The value [cookies_for] returns, on a well-formed jar. *)
Lemma cookies_for_header j url ctx now o :
  jar_ok j → origin_of url = inl o →
  (cookies_for j url ctx now).1 =
  let hits := filter (λ e, matches e (o_host o) (path url) (is_secure o) ctx now = true)
                (entries (site_bucket (jar_store j) (site_of (o_host o)))) in
  if decide (hits = []) then None else Some (render_all (sort_by header_order hits)).
Proof.
  intros (_ & Hs & _) Ho. unfold cookies_for. rewrite Ho. unfold site_bucket. cbv zeta.
  destruct (sites _ !! _) as [b|] eqn:Hb; simpl; [|done].
  case_decide; [done|]. rewrite from_str_visible; [done|].
  destruct (proj1 Hs _ _ Hb) as [[_ Hes] _].
  apply (render_all_visible (site_of (o_host o))). rewrite sort_by_perm.
  eapply Forall_sublist; [apply sublist_filter|done].
Qed.

(** C29. On a well-formed jar the [Cookie] header of a request is the rendering
    of exactly the eligible cookies of the request's site, in RFC 6265 order
    (longer paths first, then earlier creation), and is absent exactly when no
    stored cookie is eligible.  Eligibility is the relation [Eligible]:
    unexpired, [Secure] only to a secure origin, host or domain scope, path
    scope and the [SameSite] rule. *)
Theorem cookies_for_exact j url ctx now o :
  jar_ok j → origin_of url = inl o →
  ∃ es, ordered header_order es ∧
    (∀ e, e ∈ es ↔ e ∈ entries (site_bucket (jar_store j) (site_of (o_host o))) ∧
                   Eligible o (path url) ctx now (cookie e)) ∧
    (cookies_for j url ctx now).1 = (if decide (es = []) then None else Some (render_all es)).
Proof.
  intros Hj Ho. rewrite (cookies_for_header j url ctx now o Hj Ho). cbv zeta.
  set (hits := filter _ _). exists (sort_by header_order hits). split_and!.
  - apply sort_by_ordered; [apply header_order_total|apply header_order_trans].
  - intros e. rewrite (sort_by_perm _ hits). unfold hits. rewrite list_elem_of_filter, matches_Eligible.
    tauto.
  - pose proof (sort_by_perm header_order hits) as Hp. destruct (decide (hits = [])) as [->|Hne].
    + by rewrite decide_True.
    + rewrite decide_False; [done|]. intros He. rewrite He in Hp. by apply Permutation_nil_l in Hp.
Qed.
End Lookup.

(** ** What a response may change *)

Section Updates.
Context `{Psl} `{HeaderValueLaws} `{UrlApi}.

(** One parsed [Set-Cookie] from a plaintext response neither overwrites nor
    deletes a [Secure] entry. *)
Lemma plaintext_leaves_secure_entries b c now n b' n' e :
  bucket_ok b → apply_set_cookie b c now false n = Some (b', n') →
  e ∈ entries b → secure (cookie e) = true → e ∈ entries b'.
Proof.
  intros Hb Happ He Hsec. destruct (apply_set_cookie_spec b c now false n Hb)
    as (b1 & n1 & Happ1 & _ & Hcase).
  rewrite Happ in Happ1. injection Happ1 as <- <-.
  destruct (existing_entry b c) as [[i x]|] eqn:Hex.
  - apply existing_entry_Some in Hex as [Hi _]; [|done]. simpl in Hcase.
    rewrite andb_true_r in Hcase.
    destruct (secure (cookie x)) eqn:Hx; [by destruct Hcase as [-> _]|].
    assert (x ≠ e) as Hne by congruence. destruct (is_expired c now).
    + destruct Hcase as [Hperm _]. rewrite Hperm in He. apply elem_of_cons in He as [?|?]; congruence.
    + rewrite Hcase. apply list_elem_of_lookup in He as [k Hk]. apply list_elem_of_lookup.
      exists k. rewrite list_lookup_insert_ne; [done|]. congruence.
  - destruct (is_expired c now); [by destruct Hcase as [-> _]|]. rewrite Hcase.
    apply elem_of_app. by left.
Qed.

(** Room for [k] more cookies under both caps, in every bucket. *)
Definition roomy (l : JarLimits) (s : Store) (k : Z) : Prop :=
  (∀ site, bucket_len (site_bucket s site) + k <= per_domain l) ∧ total s + k <= total_limit l.

Lemma store_one_room l site b c now sec n :
  limits_ok l → site_bucket_ok site b → (∀ cr ac, entry_ok site (mk_entry c cr ac)) →
  bucket_len b + 1 <= per_domain l →
  ∃ b' n', apply_set_cookie b c now sec n = Some (b', n') ∧
    store_one l c now sec b n = Some (b', n') ∧ site_bucket_ok site b' ∧
    bucket_len b' <= bucket_len b + 1.
Proof.
  intros [[Hd0 Hd] _] Hb Hc Hroom. destruct (apply_set_cookie_ok site b c now sec n Hb Hc)
    as (b' & n' & Happ & Hb' & Hlen).
  exists b', n'. unfold store_one. rewrite Happ. simpl.
  assert (Hno : (saturating_mul (per_domain l) 2 <? bucket_len b') = false).
  { unfold saturating_mul, usize_max in *. lia. }
  by rewrite Hno.
Qed.

(** With room for them all, the headers of a response are applied one by one
    and nothing is evicted: any property the single steps keep is kept. *)
Lemma store_headers_room (P : Store → Prop) l host path sec now headers s n touched :
  (∀ s s' c n b' n', P s → store_ok s →
     let site := site_of (domain c) in
     apply_set_cookie (site_bucket s site) c now sec n = Some (b', n') →
     site_bucket s' site = b' → (∀ x, x ≠ site → site_bucket s' x = site_bucket s x) → P s') →
  limits_ok l → store_ok s → roomy l s (zlen headers) → P s →
  ∃ s' n' touched',
    store_headers l host path sec now headers s n touched = Some (s', n', touched') ∧
    store_ok s' ∧ roomy l s' 0 ∧ P s'.
Proof.
  intros Hstep Hl. revert s n touched.
  induction headers as [|h headers IH]; intros s n touched Hs Hroom HP; cbn [store_headers].
  { by exists s, n, touched. }
  pose proof (zlen_nonneg headers) as Hk.
  assert (Hroom' : roomy l s (zlen headers)).
  { destruct Hroom as [Hb Ht]. rewrite zlen_cons in *. split; [|lia].
    intros site. specialize (Hb site). lia. }
  destruct (parse h host path sec now) as [c|] eqn:Hp; [|by apply IH].
  pose proof (parse_entry_ok _ _ _ _ _ _ Hp) as Hc. set (site := site_of (domain c)) in *.
  destruct Hroom as [Hrb Hrt]. rewrite zlen_cons in *.
  destruct (store_one_room l site (site_bucket s site) c now sec n Hl)
    as (b' & n' & Happ & Hone & Hb' & Hlen); [by apply store_ok_site|done| |].
  { specialize (Hrb site). lia. }
  destruct (with_site_ok s site (λ b, store_one l c now sec b n) b' n' Hs Hone Hb')
    as (s1 & -> & Hs1 & Hsite & Hother & Htot). cbn [mbind option_bind].
  apply IH; [done| |by eapply Hstep]. split; [|lia].
  intros x. destruct (decide (x = site)) as [->|Hne].
  - rewrite Hsite. specialize (Hrb site). lia.
  - rewrite Hother by done. specialize (Hrb x). lia.
Qed.

Lemma trim_touched_room l now touched s :
  store_ok s → roomy l s 0 →
  ∃ s', trim_touched l now touched s = Some s' ∧ store_ok s' ∧ total s' = total s ∧
    ∀ site, site_bucket s' site = site_bucket s site.
Proof.
  revert s. induction touched as [|site touched IH]; intros s Hs Hroom; cbn [trim_touched].
  { by exists s. }
  assert (Hle : (per_domain l <? bucket_len (site_bucket s site)) = false).
  { destruct Hroom as [Hb _]. specialize (Hb site). lia. }
  destruct (with_site_ok s site (λ b, Some (if per_domain l <? bucket_len b
              then trim_to (remove_expired b now) (domain_purge_target l) else b, tt))
              (site_bucket s site) tt Hs) as (s1 & -> & Hs1 & Hsite & Hother & Htot).
  { by rewrite Hle. }
  { by apply store_ok_site. }
  cbn [mbind option_bind].
  assert (Hsame : ∀ x, site_bucket s1 x = site_bucket s x).
  { intros x. destruct (decide (x = site)) as [->|Hne]; [done|by apply Hother]. }
  destruct (IH s1 Hs1) as (s' & -> & Hs' & Htot' & Hsame').
  { destruct Hroom as [Hb Ht]. split; [|lia]. intros x. rewrite Hsame. apply Hb. }
  exists s'. split_and!; [done..|lia|]. intros x. by rewrite Hsame'.
Qed.

(** The same for a whole response: what single steps keep, [store] keeps. *)
Lemma store_room (P : Store → Prop) j url headers now o :
  (∀ s s', (∀ site, entries (site_bucket s' site) = entries (site_bucket s site)) → P s → P s') →
  (∀ s s' c n b' n', P s → store_ok s →
     let site := site_of (domain c) in
     apply_set_cookie (site_bucket s site) c now (is_secure o) n = Some (b', n') →
     site_bucket s' site = b' → (∀ x, x ≠ site → site_bucket s' x = site_bucket s x) → P s') →
  jar_ok j → roomy (limits j) (jar_store j) (zlen headers) → origin_of url = inl o →
  P (jar_store j) → ∃ j', store j url headers now = Some j' ∧ P (jar_store j').
Proof.
  intros Hext Hstep (Hl & Hs & _) Hroom Ho HP. unfold store. rewrite Ho.
  destruct (store_headers_room P (limits j) (o_host o) (path url) (is_secure o) now headers
              (jar_store j) (counters j) [] Hstep Hl Hs Hroom HP)
    as (s1 & n1 & touched & -> & Hs1 & Hroom1 & HP1).
  cbn [mbind option_bind].
  destruct (trim_touched_room (limits j) now touched s1 Hs1 Hroom1)
    as (s2 & -> & Hs2 & Htot & Hsame).
  cbn [mbind option_bind]. unfold enforce_total.
  assert (Hle : (total s2 <=? total_limit (limits j)) = true) by (destruct Hroom1; lia).
  rewrite Hle. cbn [mbind option_bind]. eexists. split; [done|]. simpl.
  eapply Hext; [|done]. intros site. by rewrite Hsame.
Qed.

(** "Leave Secure Cookies Alone", for a whole response: a plaintext response
    that does not push the jar past a cap leaves every stored [Secure] cookie
    exactly as it was, whatever its [Set-Cookie] headers say - overwriting and
    deleting by an expired cookie included. *)
Theorem plaintext_response_leaves_secure_cookies j url headers now o site e :
  jar_ok j → roomy (limits j) (jar_store j) (zlen headers) →
  origin_of url = inl o → is_secure o = false →
  e ∈ entries (site_bucket (jar_store j) site) → secure (cookie e) = true →
  ∃ j', store j url headers now = Some j' ∧ e ∈ entries (site_bucket (jar_store j') site).
Proof.
  intros Hj Hroom Ho Hplain He Hsec.
  apply (store_room (λ s, e ∈ entries (site_bucket s site)) j url headers now o); try done.
  - intros s s' Heq. by rewrite Heq.
  - intros s s' c n b' n' HP Hs site' Happ Hb' Hother. rewrite Hplain in Happ.
    destruct (decide (site = site')) as [->|Hne]; [|by rewrite Hother].
    rewrite Hb'. eapply plaintext_leaves_secure_entries; try done.
    by apply store_ok_site.
Qed.

(** One header with room for it: [store] is [apply_set_cookie] on its site. *)
Lemma store_single j url header now o c :
  jar_ok j → roomy (limits j) (jar_store j) 1 → origin_of url = inl o →
  parse header (o_host o) (path url) (is_secure o) now = Some c →
  let site := site_of (domain c) in
  ∃ j' b', apply_set_cookie (site_bucket (jar_store j) site) c now (is_secure o) (counters j) =
           Some (b', counters j') ∧
    store j url [header] now = Some j' ∧ site_bucket (jar_store j') site = b' ∧
    ∀ x, x ≠ site → site_bucket (jar_store j') x = site_bucket (jar_store j) x.
Proof.
  intros (Hl & Hs & _) [Hrb Hrt] Ho Hp site.
  destruct (store_one_room (limits j) site (site_bucket (jar_store j) site) c now (is_secure o)
              (counters j) Hl) as (b' & n' & Happ & Hone & Hb' & Hlen);
    [by apply store_ok_site|by eapply parse_entry_ok|apply Hrb|].
  destruct (with_site_ok _ site (λ b, store_one (limits j) c now (is_secure o) b (counters j))
              b' n' Hs Hone Hb') as (s1 & Hw & Hs1 & Hsite & Hother & Htot).
  assert (Hroom1 : roomy (limits j) s1 0).
  { split; [|lia]. intros x. destruct (decide (x = site)) as [->|Hne].
    - rewrite Hsite. specialize (Hrb site). lia.
    - rewrite Hother by done. specialize (Hrb x). lia. }
  destruct (trim_touched_room (limits j) now (touch [] site) s1 Hs1 Hroom1)
    as (s2 & Htrim & _ & Htot2 & Hsame).
  exists (mk_jar s2 (limits j) n'), b'. split; [done|]. unfold store. rewrite Ho.
  cbn [store_headers]. rewrite Hp. fold site. rewrite Hw. cbn [mbind option_bind].
  rewrite Htrim. cbn [mbind option_bind]. unfold enforce_total.
  assert (Hle : (total s2 <=? total_limit (limits j)) = true) by lia. rewrite Hle.
  split_and!; [done|by rewrite Hsame|]. intros x Hx. rewrite Hsame. by apply Hother.
Qed.

(** A live cookie that a response sets is in the jar afterwards, under its
    site, with the next creation number - or, when it replaces a stored cookie
    of the same (name, domain, path), in that cookie's place with that cookie's
    original creation number, as RFC 6265 section 5.3 asks.  The only cookie
    that cannot be replaced is a [Secure] one, from a plaintext response. *)
Theorem store_then_found j url header now o c :
  jar_ok j → roomy (limits j) (jar_store j) 1 → origin_of url = inl o →
  parse header (o_host o) (path url) (is_secure o) now = Some c → is_expired c now = false →
  let b := site_bucket (jar_store j) (site_of (domain c)) in
  (∀ i x, existing_entry b c = Some (i, x) → secure (cookie x) = true → is_secure o = true) →
  ∃ j' e, store j url [header] now = Some j' ∧
    e ∈ entries (site_bucket (jar_store j') (site_of (domain c))) ∧ cookie e = c ∧
    creation_seq e = match existing_entry b c with
                     | Some (_, x) => creation_seq x
                     | None => next_creation_seq (counters j)
                     end.
Proof.
  intros Hj Hroom Ho Hp Hlive b Hsec.
  destruct (store_single j url header now o c Hj Hroom Ho Hp) as (j' & b' & Happ & Hst & Hb' & _).
  destruct (apply_set_cookie_spec b c now (is_secure o) (counters j)) as (b1 & n1 & Happ1 & _ & Hcase).
  { apply (store_ok_site (jar_store j)). apply Hj. }
  fold b in Happ. rewrite Happ in Happ1. injection Happ1 as <- <-. rewrite Hlive in Hcase.
  destruct (existing_entry b c) as [[i x]|] eqn:Hex.
  - assert (Hfree : secure (cookie x) && negb (is_secure o) = false).
    { destruct (secure (cookie x)) eqn:Hx; [|done]. by rewrite (Hsec i x). }
    rewrite Hfree in Hcase. eexists j', (mk_entry c (creation_seq x) _).
    split_and!; [done| |done|done]. rewrite Hb', Hcase.
    apply existing_entry_Some in Hex as [Hi _]; [|by apply (store_ok_site (jar_store j)), Hj].
    apply list_elem_of_lookup. exists i. apply list_lookup_insert_eq. by eapply lookup_lt_Some.
  - eexists j', (mk_entry c _ _). split_and!; [done| |done|done].
    rewrite Hb', Hcase. apply elem_of_app. right. by apply list_elem_of_singleton.
Qed.
End Updates.

(** ** What eviction drops *)

Section Evictions.
Context `{Psl}.

Lemma elem_of_survivors doomed site es e :
  e ∈ survivors doomed site es ↔ ∃ i, es !! i = Some e ∧ (site, i) ∉ doomed.
Proof.
  unfold survivors. rewrite elem_of_keep_positions. by setoid_rewrite bool_decide_eq_true.
Qed.

Lemma rank_not_below e e' now :
  ¬ lexico (rank_for_eviction e' now) (rank_for_eviction e now) →
  (is_expired (cookie e') now = true → is_expired (cookie e) now = true) ∧
  (is_expired (cookie e') now = is_expired (cookie e) now →
   last_access_seq e <= last_access_seq e').
Proof.
  unfold rank_for_eviction, lexico, prod_lexico, lexico, Z_lexico. simpl. intros Hr. split.
  - intros He'. rewrite He' in Hr. destruct (is_expired (cookie e) now); [done|].
    destruct Hr. left. lia.
  - intros Heq. rewrite Heq in Hr. destruct (decide (last_access_seq e <= last_access_seq e')); [done|].
    destruct Hr. right. split; [done|]. lia.
Qed.

(** When the jar holds more than its total cap, the purge brings it down to
    exactly the purge target, never panics, keeps the order of the survivors,
    and takes cookies strictly by the ranking: expired ones first, then the
    least recently used, across all sites. *)
Theorem enforce_total_drops_worst s now cap target :
  store_ok s → 0 <= target <= cap → cap < total s →
  ∃ s', enforce_total s now cap target = Some s' ∧ store_ok s' ∧ total s' = target ∧
    (∀ site, sublist (entries (site_bucket s' site)) (entries (site_bucket s site))) ∧
    ∀ site e site' e',
      e ∈ entries (site_bucket s site) → e ∉ entries (site_bucket s' site) →
      e' ∈ entries (site_bucket s' site') →
      (is_expired (cookie e') now = true → is_expired (cookie e) now = true) ∧
      (is_expired (cookie e') now = is_expired (cookie e) now →
       last_access_seq e <= last_access_seq e').
Proof.
  intros Hs Htc Hover.
  destruct (enforce_total_spec s now cap target Hs Htc)
    as (s' & doomed & He & Hs' & Ht & _ & Hworst & Hsurv).
  exists s'. split_and!; [done|done| | |].
  - rewrite Ht. by rewrite (proj2 (Z.leb_gt _ _)).
  - intros site. rewrite Hsurv. apply survivors_sublist.
  - intros site e site' e' [i Hi]%list_elem_of_lookup Hout Hin.
    rewrite Hsurv in Hout, Hin. apply elem_of_survivors in Hin as (j & Hj & Hjd).
    apply rank_not_below. apply (Hworst site i e site' j e'); [|done..].
    destruct (decide ((site, i) ∈ doomed)) as [?|Hd]; [done|].
    destruct Hout. apply elem_of_survivors. eauto.
Qed.

(** Trimming a bucket keeps its index exact, leaves exactly
    [min(len, keep)] cookies, and every cookie it drops was used no more
    recently than every cookie it keeps. *)
Theorem trim_to_keeps_most_recent b keep :
  bucket_ok b → 0 <= keep →
  bucket_ok (trim_to b keep) ∧
  zlen (entries (trim_to b keep)) = Z.min (zlen (entries b)) keep ∧
  ∃ dropped, entries b ≡ₚ entries (trim_to b keep) ++ dropped ∧
    ∀ d k, d ∈ dropped → k ∈ entries (trim_to b keep) → last_access_seq d <= last_access_seq k.
Proof.
  intros Hb Hk. split_and!; [by apply trim_to_ok|by apply trim_to_length|apply trim_to_lru].
Qed.
End Evictions.
