(* ===== verification/JarSnapshot.v ===== *)
(** Snapshots: what [Jar::import] makes of what [Jar::export] wrote
    (src/crates/chromulate-cookie/src/jar.rs). *)
From S2P Require Import Prelude RustStr RustTime Extern Origin CookieScope CookieDate Cookie Bucket.
From S2P Require Import Eviction JarStore Jar JarInvariant.
Local Open Scope Z_scope.

(** A stored entry as a snapshot remembers it: its expiry in whole seconds. *)
Definition whole_seconds (e : Entry) : Entry :=
  let c := cookie e in
  mk_entry
    (mk_cookie (name c) (value c) (domain c) (host_only c) (cookie_path c) (secure c)
       (http_only c) (same_site c) (partitioned c)
       ((λ t, from_secs (system_time_to_epoch_seconds t)) <$> expires c))
    (creation_seq e) (last_access_seq e).

Definition live (now : SystemTime) (e : Entry) : Prop := is_expired (cookie e) now = false.

#[export] Instance live_dec now e : Decision (live now e).
Proof. unfold live. apply _. Defined.

Lemma entry_of_record_of e : entry_of_record (record_of e) = whole_seconds e.
Proof.
  unfold entry_of_record, record_of, whole_seconds. simpl. do 2 f_equal.
  destruct (expires (cookie e)) as [t|]; simpl; [|done]. by rewrite epoch_seconds_eq.
Qed.

Lemma whole_seconds_id e : entry_id (whole_seconds e) = entry_id e.
Proof. done. Qed.

Lemma admissible_record_of e now site `{Psl} :
  entry_ok site e → admissible (record_of e) now = true ↔ live now (whole_seconds e).
Proof.
  intros (_ & Hr & Hk). unfold admissible, live, is_expired, record_of, whole_seconds. simpl.
  rewrite Hr, Hk, !andb_true_r, negb_true_iff.
  destruct (expires (cookie e)) as [t|]; simpl; [|done]. by rewrite epoch_seconds_eq.
Qed.

(** Whole seconds never lengthen a life, and shorten it by less than a second. *)
Lemma live_whole_seconds now e :
  0 <= now → (live now (whole_seconds e) → live now e) ∧
  ((∀ t, expires (cookie e) = Some t → now + nanos <= t) → live now (whole_seconds e)).
Proof.
  intros Hnow. unfold live, is_expired, whole_seconds. simpl.
  destruct (expires (cookie e)) as [t|]; simpl; [|done]. rewrite <- epoch_seconds_eq.
  split.
  - intros Ht. bool_prop. destruct (decide (0 <= t)).
    + pose proof (epoch_seconds_truncates t). lia.
    + exfalso. rewrite epoch_seconds_eq in Ht. revert Ht.
      unfold system_time_to_epoch_seconds, duration_since, UNIX_EPOCH, from_secs, as_secs, nanos.
      rewrite (proj2 (Z.leb_gt 0 t)) by lia. Z.to_euclidean_division_equations; lia.
  - intros Ht. specialize (Ht t eq_refl).
    pose proof (epoch_seconds_truncates t) as Htr. unfold nanos in *. apply Z.leb_gt. lia.
Qed.

(** Selecting one key's values from the flattening of a map. *)
Lemma filter_flat_map_key {V A} (f : V → list A) (key : A → str) (l : list (str * V)) k :
  NoDup l.*1 → (∀ kv x, kv ∈ l → x ∈ f kv.2 → key x = kv.1) →
  filter (λ x, key x = k) (mjoin ((λ kv, f kv.2) <$> l)) =
  default [] (f <$> (list_to_map l : gmap str V) !! k).
Proof.
  induction l as [|[k' v] l IH]; intros Hnd Hkey; [done|].
  rewrite fmap_cons. change (mjoin (?x :: ?y)) with (x ++ mjoin y). cbn [list_to_map foldr fst snd].
  rewrite fmap_cons in Hnd. apply NoDup_cons in Hnd as [Hk' Hnd]. cbn [fst] in Hk'.
  rewrite filter_app, IH; [|done|intros kv x Hkv; apply Hkey; by right].
  assert (Hv : ∀ x, x ∈ f v → key x = k').
  { intros x. apply (Hkey (k', v)). by left. }
  destruct (decide (k = k')) as [->|Hne].
  - rewrite lookup_insert_eq, not_elem_of_list_to_map_1 by done. simpl. rewrite app_nil_r.
    apply filter_all. apply Forall_forall. done.
  - rewrite lookup_insert_ne by done. rewrite filter_none; [done|].
    apply Forall_forall. intros x Hx. rewrite (Hv x Hx). done.
Qed.

Section Roundtrip.
Context `{Psl}.

Definition record_site (r : CookieRecord) : str := site_of (r_domain r).
Definition record_id (r : CookieRecord) : Identity := entry_id (entry_of_record r).

(** Records of identities the store does not hold are appended to their
    sites' buckets, in order. *)
Lemma import_records_fresh now records s n :
  store_ok s → NoDup (record_id <$> records) →
  Forall (λ r, record_id r ∉ (entry_id <$> entries (site_bucket s (record_site r)))) records →
  ∃ s' n', import_records records now s n = Some (s', n') ∧ store_ok s' ∧
    ∀ site, entries (site_bucket s' site) = entries (site_bucket s site) ++
      (entry_of_record <$>
       filter (λ r, record_site r = site) (filter (λ r, admissible r now = true) records)).
Proof.
  revert s n. induction records as [|r records IH]; intros s n Hs Hnd Hfresh; cbn [import_records].
  { exists s, n. split_and!; [done..|]. intros site. by rewrite app_nil_r. }
  rewrite fmap_cons in Hnd. apply NoDup_cons in Hnd as [Hr Hnd].
  apply Forall_cons in Hfresh as [Hrf Hfresh].
  destruct (admissible r now) eqn:Ha; [rewrite filter_cons_True by done
                                      |rewrite filter_cons_False by (by rewrite Ha); by apply IH].
  set (e := entry_of_record r) in *. change (site_of (domain (cookie e))) with (record_site r).
  set (site := record_site r) in *.
  pose proof (store_ok_site s site Hs) as Hb.
  destruct (import_entry_ok site (site_bucket s site) e Hb (admissible_entry_ok r now Ha))
    as (b' & Himp & Hb').
  assert (b' = push (site_bucket s site) e) as ->.
  { unfold import_entry in Himp. rewrite (proj2 (position_of_None _ _ _ _ (proj1 Hb))) in Himp by done.
    by injection Himp as <-. }
  destruct (with_site_ok s site _ _ tt Hs Himp Hb') as (s1 & -> & Hs1 & Hsite & Hother & _).
  cbn [mbind option_bind]. destruct (IH s1 (raise_counters n r) Hs1 Hnd) as (s' & n' & -> & Hs' & Hes).
  { rewrite Forall_forall in Hfresh |- *. intros x Hx.
    destruct (decide (record_site x = site)) as [Heq|Hne]; [|rewrite Hother by done; by apply Hfresh].
    rewrite Heq, Hsite. simpl. rewrite fmap_app, elem_of_app. intros [Hin|Hin].
    - apply (Hfresh x Hx). by rewrite Heq.
    - apply list_elem_of_singleton in Hin. apply Hr. change (entry_id e) with (record_id r) in Hin.
      rewrite <- Hin. by apply list_elem_of_fmap_2. }
  exists s', n'. split_and!; [done..|]. intros site'. rewrite Hes. destruct (decide (site = site')) as [<-|Hne].
  - rewrite filter_cons_True, fmap_cons by done. rewrite Hsite. simpl. by rewrite <- app_assoc.
  - rewrite filter_cons_False by done. by rewrite Hother.
Qed.

Definition all_entries (s : Store) : list Entry :=
  mjoin ((λ kv, entries kv.2) <$> map_to_list (sites s)).

Lemma elem_of_all_entries s e :
  store_ok s → e ∈ all_entries s →
  entry_ok (site_of (domain (cookie e))) e ∧ e ∈ entries (site_bucket s (site_of (domain (cookie e)))).
Proof.
  intros [Hs _] (l & He & ([site b] & -> & Hb)%list_elem_of_fmap)%list_elem_of_join.
  apply elem_of_map_to_list in Hb. simpl in He. destruct (Hs _ _ Hb) as [[_ Hes] _].
  rewrite Forall_forall in Hes. pose proof (Hes e He) as (Heq & Hok). rewrite Heq.
  split; [by split|]. unfold site_bucket. by rewrite Hb.
Qed.

Lemma all_entries_site s site :
  store_ok s →
  filter (λ e, site_of (domain (cookie e)) = site) (all_entries s) = entries (site_bucket s site).
Proof.
  intros [Hs _]. unfold all_entries.
  rewrite (filter_flat_map_key entries (λ e, site_of (domain (cookie e)))).
  - rewrite list_to_map_to_list. unfold site_bucket. by destruct (sites s !! site).
  - apply NoDup_fst_map_to_list.
  - intros [k b] e Hb%elem_of_map_to_list He. simpl in *. destruct (Hs _ _ Hb) as [[_ Hes] _].
    rewrite Forall_forall in Hes. by apply (Hes e He).
Qed.

Lemma all_entries_NoDup s : store_ok s → NoDup (entry_id <$> all_entries s).
Proof.
  intros [Hs _]. unfold all_entries.
  assert (Hall : ∀ kv, kv ∈ map_to_list (sites s) → site_bucket_ok kv.1 kv.2).
  { intros [site b] Hb%elem_of_map_to_list. by apply Hs. }
  pose proof (NoDup_fst_map_to_list (sites s)) as Hnd. revert Hnd Hall.
  induction (map_to_list (sites s)) as [|[site b] l IH]; intros Hnd Hall; [constructor|].
  rewrite fmap_cons in Hnd. apply NoDup_cons in Hnd as [Hsite Hnd]. cbn [fst] in Hsite.
  rewrite fmap_cons. change (mjoin (?x :: ?y)) with (x ++ mjoin y). rewrite fmap_app.
  destruct (Hall (site, b)) as [Hb Hes]; [by left|]. rewrite Forall_forall in Hes. simpl in *.
  apply NoDup_app. split_and!; [by apply bucket_ok_NoDup| |apply IH; [done|]].
  - intros id (e & -> & He)%list_elem_of_fmap (e' & Hid & He')%list_elem_of_fmap.
    apply list_elem_of_join in He' as (l' & He' & ([site' b'] & -> & Hl)%list_elem_of_fmap).
    destruct (Hall (site', b')) as [_ Hes']; [by right|]. rewrite Forall_forall in Hes'.
    simpl in *. apply Hsite. apply list_elem_of_fmap. exists (site', b'). split; [|done]. simpl.
    destruct (Hes e He) as [<- _], (Hes' e' He') as [<- _].
    unfold entry_id, identity_of in Hid. congruence.
  - intros kv Hkv. apply Hall. by right.
Qed.

(** What of an exported list reaches one site. *)
Lemma exported_site now site l :
  0 <= now → Forall (λ e, entry_ok (site_of (domain (cookie e))) e) l →
  entry_of_record <$> filter (λ r, record_site r = site)
    (filter (λ r, admissible r now = true) (record_of <$> filter (live now) l)) =
  filter (live now) (whole_seconds <$> filter (λ e, site_of (domain (cookie e)) = site) l).
Proof.
  intros Hnow. induction 1 as [|e l He Hl IH]; [done|].
  pose proof (admissible_record_of e now _ He) as Hadm.
  destruct (live_whole_seconds now e Hnow) as [Hlive _].
  rewrite !filter_cons. destruct (decide (live now e)) as [Hn|Hn].
  - rewrite fmap_cons, !filter_cons. destruct (decide (admissible _ _ = true)) as [Ha|Ha].
    + rewrite filter_cons. change (record_site (record_of e)) with (site_of (domain (cookie e))).
      case_decide; [|done]. rewrite !fmap_cons, filter_cons_True, IH by tauto.
      by rewrite entry_of_record_of.
    + rewrite IH. case_decide; [|done]. rewrite fmap_cons, filter_cons_False by tauto. done.
  - rewrite IH. case_decide; [|done]. rewrite fmap_cons, filter_cons_False by tauto. done.
Qed.

Lemma tidy_every_site_idle s now cap :
  store_ok s → (∀ site, Forall (live now) (entries (site_bucket s site)) ∧
                        bucket_len (site_bucket s site) <= cap) →
  tidy_every_site s now cap = s.
Proof.
  intros [Hs Ht] Hidle. unfold tidy_every_site, recount.
  assert (filter (λ kv, entries kv.2 ≠ []) ((λ b, trim_to (remove_expired b now) cap) <$> sites s)
          = sites s) as ->; [|rewrite <- Ht; by destruct s].
  assert (Hb : ∀ site b, sites s !! site = Some b → trim_to (remove_expired b now) cap = b).
  { intros site b Hb. destruct (Hidle site) as [Hl Hc]. unfold site_bucket in *. rewrite Hb in *.
    simpl in *. unfold remove_expired. rewrite filter_all by done. rewrite decide_True by done.
    unfold trim_to, bucket_len in *. simpl. rewrite (proj2 (Z.leb_le _ _) Hc). by destruct b. }
  apply map_eq. intros site. apply option_eq. intros b.
  rewrite map_lookup_filter_Some, lookup_fmap_Some. split.
  - intros [(b0 & <- & Hb0) _]. by rewrite (Hb _ _ Hb0).
  - intros Hsite. split; [|by apply (Hs site b)]. exists b. by rewrite (Hb _ _ Hsite).
Qed.

Lemma total_le s s' :
  store_ok s → store_ok s' →
  (∀ site, bucket_len (site_bucket s' site) <= bucket_len (site_bucket s site)) →
  total s' <= total s.
Proof.
  intros [_ ->] [_ ->] Hle. apply map_zsum_le; [apply bucket_len_nonneg|]. intros site.
  specialize (Hle site). unfold site_bucket in Hle.
  by destruct (sites s !! site), (sites s' !! site).
Qed.
End Roundtrip.

Section Snapshot.
Context `{Psl} `{HeaderValueLaws} `{UrlApi}.

(** C36. Exporting a jar and importing the snapshot into a fresh jar with the
    same limits reproduces every site's cookies in order - attributes, creation
    and access numbers included - with expiry times cut to whole seconds; the
    only cookies lost are those already expired, or expiring within the current
    second.  Nothing is evicted and nothing panics. *)
Theorem export_import_roundtrip j now :
  jar_ok j → 0 <= now →
  ∃ j', import (new_jar (limits j)) (export j now) now = Some j' ∧
    (∀ site, entries (site_bucket (jar_store j') site) =
             filter (live now) (whole_seconds <$> entries (site_bucket (jar_store j) site))) ∧
    (∀ site e, e ∈ entries (site_bucket (jar_store j) site) →
      (∀ t, expires (cookie e) = Some t → now + nanos <= t) →
      whole_seconds e ∈ entries (site_bucket (jar_store j') site)).
Proof.
  intros (Hl & Hs & Ht & Hcap) Hnow. set (s := jar_store j) in *.
  assert (Hall : Forall (λ e, entry_ok (site_of (domain (cookie e))) e) (all_entries s)).
  { apply Forall_forall. intros e He. by apply (elem_of_all_entries s e Hs). }
  change (export j now) with (record_of <$> filter (live now) (all_entries s)).
  destruct (import_records_fresh now (record_of <$> filter (live now) (all_entries s))
              empty_store (mk_counters 0 0) empty_store_ok) as (s' & n' & Himp & Hs' & Hes).
  { rewrite <- list_fmap_compose. change (record_id ∘ record_of) with (entry_id).
    eapply sublist_NoDup; [by apply all_entries_NoDup|]. apply fmap_sublist, sublist_filter. }
  { apply Forall_forall. intros r _. unfold site_bucket. simpl. rewrite lookup_empty.
    apply not_elem_of_nil. }
  assert (Hsites : ∀ site, entries (site_bucket s' site) =
            filter (live now) (whole_seconds <$> entries (site_bucket s site))).
  { intros site. rewrite Hes, exported_site, all_entries_site by done.
    unfold site_bucket at 1. simpl. by rewrite lookup_empty. }
  assert (Hlen : ∀ site, bucket_len (site_bucket s' site) <= bucket_len (site_bucket s site)).
  { intros site. unfold bucket_len, zlen. rewrite Hsites, <- (length_fmap whole_seconds (entries (site_bucket s site))).
    apply inj_le, sublist_length, sublist_filter. }
  exists (mk_jar s' (limits j) n'). split_and!.
  - unfold import, new_jar. simpl. rewrite Himp. cbn [mbind option_bind].
    rewrite tidy_every_site_idle; [|done|].
    + unfold enforce_total. pose proof (total_le s s' Hs Hs' Hlen).
      by rewrite (proj2 (Z.leb_le (total s') (total_limit (limits j)))) by lia.
    + intros site. split; [rewrite Hsites; apply Forall_forall; by intros e [? _]%list_elem_of_filter|].
      etrans; [apply Hlen|apply Hcap].
  - done.
  - intros site e He Hexp. simpl. rewrite Hsites. apply list_elem_of_filter.
    split; [by apply live_whole_seconds|by apply list_elem_of_fmap_2].
Qed.
End Snapshot.
