(* ===== verification/JarScenario.v ===== *)
(** The jar at work on concrete requests: the theorems of the jar applied to a
    jar that holds cookies, and the corner cases where the code and its comments
    disagree. *)
From S2P Require Import Prelude RustStr RustTime Extern Origin CookieScope CookieDate Cookie Bucket.
From S2P Require Import Eviction JarStore Jar JarInvariant JarBehaviour JarSnapshot.
Import Sample.
Local Open Scope Z_scope.

Definition noon : SystemTime := from_secs 1700000000.

Definition account : Url := mk_url b#"https" b#"www.example.com" 443 b#"/account/settings".
Definition plain_account : Url := mk_url b#"http" b#"www.example.com" 80 b#"/account/settings".

(** The jar after one HTTPS response, on an operation that may panic. *)
Definition after (l : JarLimits) (steps : list (Url * list str)) : Jar :=
  foldl (λ j s, default j (store j s.1 s.2 noon)) (new_jar l) steps.

Definition login : list str := [b#"sid=s3cret; Secure; Path=/"; b#"theme=dark; Max-Age=60"].
Definition jar1 : Jar := after default_limits [(account, login)].

Lemma after_ok l steps : limits_ok l → jar_ok (after l steps).
Proof.
  intros Hl. unfold after. pose proof (new_jar_ok l Hl) as Hj. revert Hj. generalize (new_jar l).
  induction steps as [|[u hs] steps IH]; intros j Hj; simpl; [done|]. apply IH.
  destruct (store_ok_lemma j u hs noon Hj) as (j' & -> & ? & _). done.
Qed.

Lemma default_limits_ok : limits_ok default_limits.
Proof. vm_compute. repeat split; discriminate. Qed.

Lemma jar1_ok : jar_ok jar1.
Proof. apply after_ok, default_limits_ok. Qed.

Lemma jar1_store_ok : store_ok (jar_store jar1).
Proof. apply jar1_ok. Qed.

Lemma jar1_room k : 0 <= k <= 100 → roomy (limits jar1) (jar_store jar1) k.
Proof.
  intros Hk. assert (Ht : total (jar_store jar1) = 2) by (vm_compute; reflexivity).
  change (limits jar1) with default_limits. split; [|rewrite Ht; simpl; lia]. intros site.
  pose proof (store_site_len (jar_store jar1) site jar1_store_ok) as Hlen.
  rewrite Ht in Hlen. simpl. lia.
Qed.

Definition plain_origin : Origin := mk_origin b#"http" b#"www.example.com" 80.
Definition account_origin : Origin := mk_origin b#"https" b#"www.example.com" 443.

(** ** The jar's theorems at this jar *)

Lemma store_keeps_jar_ok_witness :
  ∃ j', store jar1 plain_account [b#"a=1"] noon = Some j' ∧ jar_ok j' ∧ limits j' = limits jar1.
Proof. apply (store_keeps_jar_ok jar1). exact jar1_ok. Defined.

Lemma import_keeps_jar_ok_witness :
  ∃ j', import jar1 (export jar1 noon) noon = Some j' ∧ jar_ok j' ∧ limits j' = limits jar1.
Proof. apply (import_keeps_jar_ok jar1). exact jar1_ok. Defined.

Lemma cookies_for_exact_witness :
  (cookies_for jar1 account conservative_default noon).1 = Some b#"theme=dark; sid=s3cret" ∧
  ∃ es, ordered header_order es ∧
    (∀ e, e ∈ es ↔ e ∈ entries (site_bucket (jar_store jar1) (site_of b#"www.example.com")) ∧
                   Eligible account_origin (path account) conservative_default noon (cookie e)) ∧
    (cookies_for jar1 account conservative_default noon).1 =
      (if decide (es = []) then None else Some (render_all es)).
Proof.
  split; [vm_compute; reflexivity|].
  apply (cookies_for_exact jar1 account conservative_default noon account_origin);
    [exact jar1_ok|vm_compute; reflexivity].
Defined.

(** The session cookie of [jar1]. *)
Definition sid : Entry :=
  mk_entry (mk_cookie b#"sid" b#"s3cret" b#"www.example.com" true b#"/" true false SS_Lax false None)
    0 0.

Lemma sid_stored : sid ∈ entries (site_bucket (jar_store jar1) b#"example.com").
Proof. apply list_elem_of_lookup. exists 0%nat. vm_compute. reflexivity. Qed.

Lemma plaintext_response_leaves_secure_cookies_witness :
  ∃ j', store jar1 plain_account [b#"sid=stolen; Path=/"; b#"sid=; Path=/; Max-Age=0"] noon = Some j' ∧
        sid ∈ entries (site_bucket (jar_store j') b#"example.com").
Proof.
  apply (plaintext_response_leaves_secure_cookies jar1 plain_account _ noon plain_origin).
  - exact jar1_ok.
  - apply jar1_room. vm_compute. split; discriminate.
  - vm_compute. reflexivity.
  - vm_compute. reflexivity.
  - exact sid_stored.
  - reflexivity.
Defined.

Definition renewed : Cookie :=
  mk_cookie b#"sid" b#"new" b#"www.example.com" true b#"/" true false SS_Lax false None.

Lemma store_then_found_witness :
  ∃ j' e, store jar1 account [b#"sid=new; Secure; Path=/"] noon = Some j' ∧
    e ∈ entries (site_bucket (jar_store j') b#"example.com") ∧ cookie e = renewed ∧
    creation_seq e = 0.
Proof.
  destruct (store_then_found jar1 account b#"sid=new; Secure; Path=/" noon account_origin renewed)
    as (j' & e & Hst & He & Hc & Hseq).
  - exact jar1_ok.
  - apply jar1_room. lia.
  - vm_compute. reflexivity.
  - vm_compute. reflexivity.
  - vm_compute. reflexivity.
  - intros i x _ _. reflexivity.
  - exists j', e. split; [exact Hst|]. split; [|split; [exact Hc|]].
    + assert (Hsite : site_of (domain renewed) = b#"example.com") by (vm_compute; reflexivity).
      rewrite Hsite in He. exact He.
    + rewrite Hseq. vm_compute. reflexivity.
Defined.

Lemma export_import_roundtrip_witness :
  ∃ j', import (new_jar (limits jar1)) (export jar1 noon) noon = Some j' ∧
    (∀ site, entries (site_bucket (jar_store j') site) =
             filter (live noon) (whole_seconds <$> entries (site_bucket (jar_store jar1) site))) ∧
    (∀ site e, e ∈ entries (site_bucket (jar_store jar1) site) →
      (∀ t, expires (cookie e) = Some t → noon + nanos <= t) →
      whole_seconds e ∈ entries (site_bucket (jar_store j') site)).
Proof.
  apply (export_import_roundtrip jar1 noon); [exact jar1_ok|vm_compute; discriminate].
Defined.

Lemma enforce_total_drops_worst_witness :
  ∃ s', enforce_total (jar_store jar1) noon 1 1 = Some s' ∧ total s' = 1.
Proof.
  destruct (enforce_total_drops_worst (jar_store jar1) noon 1 1) as (s' & H & _ & Ht & _).
  - exact jar1_store_ok.
  - lia.
  - vm_compute. reflexivity.
  - exists s'. split; [exact H|exact Ht].
Defined.

Lemma trim_to_keeps_most_recent_witness :
  zlen (entries (trim_to (site_bucket (jar_store jar1) b#"example.com") 1)) = 1.
Proof.
  destruct (trim_to_keeps_most_recent (site_bucket (jar_store jar1) b#"example.com") 1) as (_ & Hl & _).
  - apply (store_ok_site (jar_store jar1)). exact jar1_store_ok.
  - lia.
  - rewrite Hl. vm_compute. reflexivity.
Defined.

(** ** Corner cases *)

(** An imported record whose creation number is [u64::MAX] leaves the counter at
    [u64::MAX]: the next new cookie takes it and wraps the counter to zero, so
    the cookie after that one sorts ahead of both. *)
Theorem saturated_import_still_wraps :
  let r := mk_record b#"old" b#"0" b#"www.example.com" true b#"/" false false SS_Lax false None
             u64_max 0 in
  (j1 ← import (new_jar default_limits) [r] noon;
   j2 ← store j1 account [b#"a=1; Path=/"] noon;
   j3 ← store j2 account [b#"b=2; Path=/"] noon;
   Some (next_creation_seq (counters j2), (cookies_for j3 account conservative_default noon).1)) =
  Some (0, Some b#"b=2; old=0; a=1").
Proof. vm_compute. reflexivity. Qed.

(** Filling a site's bucket past its cap from plaintext evicts a [Secure] cookie. *)
Theorem plaintext_overflow_evicts_secure :
  let j := after (mk_limits 2 3000) [(account, [b#"sid=s3cret; Secure; Path=/"])] in
  let sent j := (cookies_for j account conservative_default noon).1 in
  sent j = Some b#"sid=s3cret" ∧
  sent <$> store j plain_account [b#"a=1"; b#"b=2"] noon = Some (Some b#"a=1; b=2").
Proof. split; vm_compute; reflexivity. Qed.

(** Below a public suffix of several labels, a cookie scoped to the suffix's
    registrable parent is accepted but filed under that parent, while lookups for
    the host read the host's own site: it is never sent back. *)
Theorem nested_suffix_cookie_is_lost :
  let u : Url := mk_url b#"https" b#"b.s3.aws.com" 443 b#"/" in
  domain_matches b#"b.s3.aws.com" b#"aws.com" = true ∧
  (j ← store (new_jar default_limits) u [b#"k=v; Domain=aws.com"] noon;
   Some (total (jar_store j), (cookies_for j u conservative_default noon).1)) = Some (1, None).
Proof. split; vm_compute; reflexivity. Qed.
