(* ===== verification/CacheDate.v ===== *)
(** [chromulate-cache]: the strict [HTTP-date] parser of RFC 9110 section 5.6.7
    (src/crates/chromulate-cache/src/date.rs). *)
From S2P Require Import Prelude RustStr RustTime Calendar CookieDate.
Local Open Scope Z_scope.

Definition MONTHS : list str :=
  [b#"jan"; b#"feb"; b#"mar"; b#"apr"; b#"may"; b#"jun";
   b#"jul"; b#"aug"; b#"sep"; b#"oct"; b#"nov"; b#"dec"].

Definition days_from_civil (y m d : Z) : Z :=
  let y := if m <=? 2 then y - 1 else y in
  let era := Z.quot (if 0 <=? y then y else y - 399) 400 in
  let yoe := y - era * 400 in
  let mp := Z.rem (m + 9) 12 in
  let doy := Z.quot (153 * mp + 2) 5 + d - 1 in
  let doe := yoe * 365 + Z.quot yoe 4 - Z.quot yoe 100 + doy in
  era * 146097 + doe - 719468.

Definition two_digits (token : str) : option Z :=
  if bool_decide (token = []) || (2 <? zlen token) || negb (all_digits token) then None
  else parse_u32 token.

Definition time_of (token : str) : option (Z * Z * Z) :=
  match split_by (is_char ":"%char) token with
  | h :: m :: s :: rest =>
      hour ← two_digits h;
      minute ← two_digits m;
      second ← two_digits s;
      if bool_decide (rest ≠ []) then None
      else if (23 <? hour) || (59 <? minute) || (60 <? second) then None
      else Some (hour, minute, second)
  | _ => None
  end.

Definition month_of (token : str) : option Z :=
  if zlen token <? 3 then None
  else
    let prefix := to_ascii_lowercase (take 3 token) in
    if negb (zlen token =? 3) then None
    else (λ p, Z.of_nat p.1 + 1) <$> list_find (λ m, m = prefix) MONTHS.

Definition year_of (token : str) : option Z :=
  if negb (all_digits token) then None
  else if zlen token =? 2 then
    value ← parse_i64 token;
    Some (if 70 <=? value then 1900 + value else 2000 + value)
  else if zlen token =? 4 then parse_i64 token
  else None.

(** The fields of a split, without the empty ones. *)
Definition fields_of (p : ascii → bool) (s : str) : list str :=
  filter (λ f, f ≠ []) (split_by p s).

Definition is_blank (c : ascii) : bool := is_char " "%char c || (code c =? 9).

(** The [(day, month, year, time)] tokens, by the comma or its absence. *)
Definition date_fields (input : str) : option (str * str * str * str) :=
  match split_once ","%char input with
  | Some (weekday, rest) =>
      if bool_decide (trim weekday = []) then None
      else
        match fields_of (λ c, is_char "-"%char c || is_blank c) rest with
        | day :: month :: year :: time :: _ => Some (day, month, year, time)
        | _ => None
        end
  | None =>
      match fields_of is_blank input with
      | _ :: month :: day :: time :: year :: _ => Some (day, month, year, time)
      | _ => None
      end
  end.

Definition parse_http_date (input : str) : option SystemTime :=
  '(day, month, year, time) ← date_fields (trim input);
  day ← two_digits day;
  month ← month_of month;
  year ← year_of year;
  '(hour, minute, second) ← time_of time;
  if (day =? 0) || (31 <? day) || (year <? 1601) then None
  else
    let seconds := days_from_civil year month day * 86400 + hour * 3600 + minute * 60 + second in
    if 0 <=? seconds then checked_add UNIX_EPOCH (from_secs (Z.abs seconds))
    else checked_sub UNIX_EPOCH (from_secs (Z.abs seconds)).

Example http_rfc1123 :
  parse_http_date b#"Sun, 06 Nov 1994 08:49:37 GMT" = Some (from_secs 784111777).
Proof. vm_compute. reflexivity. Qed.
Example http_rfc850 :
  parse_http_date b#"Sunday, 06-Nov-94 08:49:37 GMT" = Some (from_secs 784111777).
Proof. vm_compute. reflexivity. Qed.
Example http_asctime :
  parse_http_date b#"Sun Nov  6 08:49:37 1994" = Some (from_secs 784111777).
Proof. vm_compute. reflexivity. Qed.
Example http_zero : parse_http_date b#"0" = None.
Proof. vm_compute. reflexivity. Qed.

(** ** Properties *)

Lemma two_digits_dec2 n : 0 <= n < 100 → two_digits (dec2 n) = Some n.
Proof.
  intros Hn. destruct (dec2_spec n Hn) as [Hd _]. unfold two_digits. rewrite Hd. simpl.
  by apply parse_u32_dec2.
Qed.

Lemma time_of_hms h mi s :
  0 <= h <= 23 → 0 <= mi <= 59 → 0 <= s <= 60 → time_of (hms h mi s) = Some (h, mi, s).
Proof.
  intros Hh Hmi Hs. unfold time_of, hms. repeat change (b#":" ++ ?l) with (":"%char :: l).
  assert (Hc : ∀ n, 0 <= n < 100 → Forall (λ d, is_char ":"%char d = false) (dec2 n)).
  { intros n Hn. apply digits_avoid; [apply digit_not_colon|by apply dec2_spec]. }
  rewrite !split_by_app, !split_by_none by (done || apply Hc; lia). cbn [app].
  rewrite !two_digits_dec2 by lia. cbn [mbind option_bind].
  assert (Hok : (23 <? h) || (59 <? mi) || (60 <? s) = false) by lia. rewrite bool_decide_false by auto. by rewrite Hok.
Qed.

Lemma month_of_name m : 1 <= m <= 12 → month_of (month_name m) = Some m.
Proof.
  intros Hm. destruct (month_name_cases m Hm) as (i & Hi & -> & _).
  do 12 (destruct i as [|i]; [reflexivity|]). lia.
Qed.

Lemma year_of_dec4 y : 1601 <= y <= 9999 → year_of (dec4 y) = Some y.
Proof.
  intros Hy. destruct (dec4_spec y) as [Hd Hv]; [lia|]. unfold year_of. rewrite Hd.
  change (zlen (dec4 y) =? 2) with false. change (zlen (dec4 y) =? 4) with true. cbn [negb].
  rewrite <- Hv at 2. apply parse_i64_digits; [done|done|]. rewrite Hv. unfold i64_max. lia.
Qed.

Lemma trim_imf_fixdate w x h mi s :
  w ∈ weekday_names → trim (imf_fixdate w x h mi s) = imf_fixdate w x h mi s.
Proof.
  intros Hw. destruct (list_elem_of_lookup_1 _ _ Hw) as [i Hi].
  assert (∃ c t, w = c :: t ∧ is_whitespace c = false) as (c & t & -> & Hc).
  { do 7 (destruct i as [|i]; [injection Hi as <-; by eexists _, _|]). done. }
  eapply (trim_ends c "T"%char); [done| |done|done].
  unfold imf_fixdate. rewrite !app_assoc. change (b#" GMT") with (b#" GM" ++ b#"T").
  by rewrite !app_assoc.
Qed.

Lemma date_fields_imf w x h mi s :
  valid_fields w x h mi s →
  date_fields (imf_fixdate w x h mi s) =
  Some (dec2 (day x), month_name (month x), dec4 (year x), hms h mi s).
Proof.
  intros Hv. pose proof Hv as (Hw & _ & Hm & _). unfold date_fields. rewrite imf_fixdate_tail.
  assert (Hw' : Forall (λ c, is_char ","%char c = false) w ∧ trim w ≠ []).
  { revert Hw. apply (weekday_name_cases w (λ w, Forall (λ c, is_char ","%char c = false) w ∧ trim w ≠ [])).
    repeat constructor; done. }
  destruct Hw' as [Hcomma Htrim]. rewrite split_once_app by done.
  rewrite bool_decide_false by done. unfold fields_of.
  rewrite (split_imf_tail _ w x h mi s); [|..|done]; try done.
  - assert (Hne : month_name (month x) ≠ []).
    { destruct (month_name_cases _ Hm) as (i & Hi & -> & _).
      do 12 (destruct i as [|i]; [done|]). lia. }
    rewrite filter_cons_False by naive_solver. do 4 (rewrite filter_cons_True by done). done.
  - intros c Hc. unfold is_blank. rewrite !orb_false_iff.
    split_and!; [apply bool_decide_eq_false; by intros ->..|].
    unfold is_ascii_digit, in_range in Hc. by bool_prop; lia.
  - repeat constructor.
Qed.

(** The [HTTP-date] parser inverts the rendering of an [IMF-fixdate] for
    every weekday, every date with a year in 1601..9999 and every time of day up
    to a leap second, and agrees there with the cookie crate's parser. *)
Theorem http_date_roundtrip w x h mi s :
  valid_fields w x h mi s →
  parse_http_date (imf_fixdate w x h mi s) =
  Some (from_secs (days_from_civil (year x) (month x) (day x) * 86400 + h * 3600 + mi * 60 + s)).
Proof.
  intros Hv. pose proof Hv as (Hw & Hy & Hm & Hd & Hh & Hmi & Hs).
  unfold parse_http_date. rewrite trim_imf_fixdate, date_fields_imf by done.
  cbn [mbind option_bind].
  rewrite two_digits_dec2, month_of_name, year_of_dec4, time_of_hms by lia. cbn [mbind option_bind].
  assert (Hok : (day x =? 0) || (31 <? day x) || (year x <? 1601) = false) by lia. rewrite Hok.
  set (n := _ + s).
  assert (Hn : i64_min <= n <= i64_max).
  { unfold n, i64_min, i64_max. change (days_from_civil ?a ?b ?c) with (CookieDate.days_from_civil a b c).
    rewrite days_from_civil_closed. cbv zeta.
    assert (0 <= Z.quot (153 * Z.rem (month x + 9) 12 + 2) 5 <= 400)
      by (Z.to_euclidean_division_equations; lia).
    set (q := Z.quot _ 5) in *. clearbody q. destruct (month x <=? 2); Z.to_euclidean_division_equations; lia. }
  assert (Hr : system_time_ok (from_secs n)).
  { rewrite <- epoch_seconds_eq. by apply epoch_seconds_in_range. }
  unfold UNIX_EPOCH. destruct (0 <=? n) eqn:E; bool_prop.
  - apply checked_add_Some. rewrite Z.abs_eq by done. done.
  - unfold checked_sub. apply in_system_time_Some. rewrite Z.abs_neq by lia.
    unfold from_secs in *. by replace (0 - - n * nanos) with (n * nanos) by lia.
Qed.

Lemma http_date_roundtrip_witness :
  parse_http_date b#"Sun, 06 Nov 1994 08:49:37 GMT" = Some (from_secs 784111777).
Proof.
  change (parse_http_date (imf_fixdate b#"Sun" (mk_date 1994 11 6) 8 49 37) =
          Some (from_secs (days_from_civil 1994 11 6 * 86400 + 8 * 3600 + 49 * 60 + 37))).
  apply (http_date_roundtrip b#"Sun" (mk_date 1994 11 6) 8 49 37).
  unfold valid_fields; simpl. split; [|lia]. apply list_elem_of_lookup. by exists 6%nat.
Defined.
