(* ===== verification/RetryDate.v ===== *)
(** [chromulate-concurrency]: the [HTTP-date] parser a [Retry-After] is read with
    (src/crates/chromulate-concurrency/src/adaptive/date.rs).

    The crate repeats the cache's parser rather than depend on it and says the two
    must agree; [http_date_agrees] proves that they do, on every input. *)
From S2P Require Import Prelude RustStr RustTime.
From S2P Require CacheDate.
Local Open Scope Z_scope.

Definition MONTHS : list str :=
  [b#"jan"; b#"feb"; b#"mar"; b#"apr"; b#"may"; b#"jun";
   b#"jul"; b#"aug"; b#"sep"; b#"oct"; b#"nov"; b#"dec"].

Definition days_from_civil (year month day : Z) : Z :=
  let year := if month <=? 2 then year - 1 else year in
  let era := Z.quot (if 0 <=? year then year else year - 399) 400 in
  let year_of_era := year - era * 400 in
  let shifted := Z.rem (month + 9) 12 in
  let day_of_year := Z.quot (153 * shifted + 2) 5 + day - 1 in
  let day_of_era := year_of_era * 365 + Z.quot year_of_era 4 - Z.quot year_of_era 100 + day_of_year in
  era * 146097 + day_of_era - 719468.

Definition two_digits (token : str) : option Z :=
  if bool_decide (token = []) || (2 <? zlen token) || negb (all_digits token) then None
  else parse_u32 token.

(** The whole lower-cased token is compared, so no length is checked. *)
Definition month_of (token : str) : option Z :=
  let lowered := to_ascii_lowercase token in
  (λ p, Z.of_nat p.1 + 1) <$> list_find (λ month, month = lowered) MONTHS.

Definition year_of (token : str) : option Z :=
  if negb (all_digits token) then None
  else if zlen token =? 2 then
    value ← parse_i64 token; Some (if 70 <=? value then 1900 + value else 2000 + value)
  else if zlen token =? 4 then parse_i64 token
  else None.

Definition time_of (token : str) : option (Z * Z * Z) :=
  match split_by (is_char ":"%char) token with
  | h :: m :: s :: rest =>
      hour ← two_digits h;
      minute ← two_digits m;
      second ← two_digits s;
      if bool_decide (rest ≠ []) then None
      else if (23 <? hour) || (59 <? minute) || (60 <? second) then None
      else Some (hour, minute, second)
  | _ => None
  end.

(** The non-empty fields of a split, and the four tokens they give. *)
Definition fields_of (p : ascii → bool) (s : str) : list str := filter (λ f, f ≠ []) (split_by p s).

Definition is_blank (c : ascii) : bool := is_char " "%char c || (code c =? 9).

Definition date_fields (input : str) : option (str * str * str * str) :=
  match split_once ","%char input with
  | Some (weekday, rest) =>
      if bool_decide (trim weekday = []) then None
      else match fields_of (λ c, is_char "-"%char c || is_blank c) rest with
           | day :: month :: year :: time :: _ => Some (day, month, year, time)
           | _ => None
           end
  | None =>
      match fields_of is_blank input with
      | _ :: month :: day :: time :: year :: _ => Some (day, month, year, time)
      | _ => None
      end
  end.

Definition http_date (input : str) : option SystemTime :=
  '(day, month, year, time) ← date_fields (trim input);
  day ← two_digits day;
  month ← month_of month;
  year ← year_of year;
  '(hour, minute, second) ← time_of time;
  if (day =? 0) || (31 <? day) || (year <? 1601) then None
  else
    let seconds := days_from_civil year month day * 86400 + hour * 3600 + minute * 60 + second in
    if 0 <=? seconds then checked_add UNIX_EPOCH (from_secs (Z.abs seconds))
    else checked_sub UNIX_EPOCH (from_secs (Z.abs seconds)).

Example full_month_name : http_date b#"Sun, 06 November 1994 08:49:37 GMT" = None.
Proof. vm_compute. reflexivity. Qed.
Example leap_second : http_date b#"Sat, 31 Dec 2016 23:59:60 GMT" = Some (from_secs 1483228800).
Proof. vm_compute. reflexivity. Qed.

Lemma to_ascii_lowercase_zlen s : zlen (to_ascii_lowercase s) = zlen s.
Proof. unfold zlen, to_ascii_lowercase. by rewrite length_fmap. Qed.

(** Comparing a whole token with names of three letters needs no length check,
    and comparing a prefix does. *)
Lemma month_of_agrees token : month_of token = CacheDate.month_of token.
Proof.
  unfold month_of, CacheDate.month_of. change CacheDate.MONTHS with MONTHS.
  assert (Hlen : Forall (λ m, zlen m = 3) MONTHS) by (by repeat constructor).
  assert (Hnone : zlen token ≠ 3 → list_find (λ m, m = to_ascii_lowercase token) MONTHS = None).
  { intros Hne. apply list_find_None. eapply Forall_impl; [exact Hlen|]. intros m Hm ->.
    by rewrite to_ascii_lowercase_zlen in Hm. }
  destruct (zlen token <? 3) eqn:Hshort; bool_prop; [rewrite Hnone by lia; done|].
  destruct (zlen token =? 3) eqn:H3; bool_prop; cbn [negb]; [|rewrite Hnone by done; done].
  rewrite take_ge; [done|]. unfold zlen in H3. lia.
Qed.

(** The two [HTTP-date] parsers of the workspace, the one a [Retry-After] is read
    with and the cache's, answer the same on every input. *)
Theorem http_date_agrees input : http_date input = CacheDate.parse_http_date input.
Proof.
  unfold http_date, CacheDate.parse_http_date.
  change (date_fields (trim input)) with (CacheDate.date_fields (trim input)).
  destruct (CacheDate.date_fields (trim input)) as [[[[day month] year] time]|]; [|done].
  cbn [mbind option_bind]. change (two_digits day) with (CacheDate.two_digits day).
  destruct (CacheDate.two_digits day) as [d|]; [|done]. cbn [mbind option_bind].
  by rewrite month_of_agrees.
Qed.
