(* ===== verification/Adaptive.v ===== *)
(** [chromulate-concurrency]: the adaptive control law
    (src/crates/chromulate-concurrency/src/adaptive.rs): the configuration and its
    clamps, the signals a response gives, an origin's entry, and what each signal
    teaches it.

    An [Instant] is counted like a [SystemTime]; the clock and the latency of a
    request are arguments.  [latency] is [now.saturating_duration_since(started)]. *)
From S2P Require Import Prelude RustStr RustTime RustFloat Extern.
From S2P Require RetryDate.
Local Open Scope Z_scope.

Definition DEFAULT_ORIGIN_CAPACITY : Z := 4096.

(** [1.05], the nearest [f64]. *)
Definition BASELINE_DRIFT : f64 := f64_lit 4728779608739021 (-52).
Definition DEGRADATION_FLOOR : Duration := 5 * 10 ^ 6.

(** ** Configuration *)

Record ConcurrencyConfig := mk_config {
  c_min : Z;
  c_max : Z;
  c_probe : Z;
  clean_probes_before_increase : Z;
  degradation : f64;
  hold : Duration;
  c_cooldown : Duration;
  max_cooldown : Duration;
  max_pause : Duration;
  capacity : Z;
}.

Definition default_config : ConcurrencyConfig := {|
  c_min := 1; c_max := 6; c_probe := 5; clean_probes_before_increase := 4;
  degradation := two; hold := from_secs 30; c_cooldown := from_secs 5;
  max_cooldown := from_secs 300; max_pause := from_secs 3600;
  capacity := DEFAULT_ORIGIN_CAPACITY;
|}.

Definition sanitised (c : ConcurrencyConfig) : ConcurrencyConfig :=
  let min := Z.max (c_min c) 1 in
  {| c_min := min;
     c_max := Z.max (c_max c) min;
     c_probe := Z.max (c_probe c) 1;
     clean_probes_before_increase := Z.max (clean_probes_before_increase c) 1;
     degradation := if is_finite (degradation c) && f64_lt one (degradation c) then degradation c else two;
     hold := hold c;
     c_cooldown := c_cooldown c;
     max_cooldown := Z.max (max_cooldown c) (c_cooldown c);
     max_pause := Z.min (max_pause c) (from_secs 86400);
     capacity := Z.max (capacity c) 1 |}.

Definition purge_batch (c : ConcurrencyConfig) : Z := Z.max (capacity c / 16) 1.
Definition purge_target (c : ConcurrencyConfig) : Z :=
  Z.max (saturating_sub (capacity c) (purge_batch c)) 1.

(** ** Signals *)

Inductive Signal :=
  | Healthy
  | Neutral
  | Backpressure (retry_after : option Duration)
  | Refused
  | Failed.

#[export] Instance Signal_eq_dec : EqDecision Signal.
Proof. solve_decision. Defined.

Definition is_server_error (status : StatusCode) : bool := (500 <=? status) && (status <? 600).

Definition from_status (status : StatusCode) : Signal :=
  if status =? 403 then Refused
  else if (status =? TOO_MANY_REQUESTS) || (status =? SERVICE_UNAVAILABLE) then Backpressure None
  else if is_server_error status then Neutral
  else Healthy.

Section Retry_after.
Context `{HeaderValueApi} `{HeaderMapApi}.

Definition retry_after_delay (headers : HeaderMap) (now : SystemTime) : option Duration :=
  value ← hm_get headers b#"retry-after";
  value ← to_str value;
  let value := trim value in
  match parse_u64 value with
  | Some seconds => Some (from_secs seconds)
  | None =>
      target ← RetryDate.http_date value;
      let from := default now (date ← hm_get headers b#"date"; date ← to_str date; RetryDate.http_date date) in
      Some (since_or_zero target from)
  end.

Definition from_response (status : StatusCode) (headers : HeaderMap) (now : SystemTime) : Signal :=
  match from_status status with
  | Backpressure _ => Backpressure (retry_after_delay headers now)
  | other => other
  end.

(** What the engine's [Outcome] says to this law: no status is a failure, and the
    headers are read only for a status that can carry a [Retry-After]. *)
Definition lease_signal (status : option StatusCode) (headers : option HeaderMap) (now : SystemTime) : Signal :=
  match status with
  | Some status =>
      match from_status status with
      | Backpressure _ => Backpressure (headers ← headers; retry_after_delay headers now)
      | other => other
      end
  | None => Failed
  end.
End Retry_after.

(** ** An origin's entry *)

Record Origin := mk_origin {
  limit : Z;
  in_flight : Z;
  ceiling : Z;
  baseline : option Duration;
  probe_total : Duration;
  probe_samples : Z;
  clean_probes : Z;
  saturated : bool;
  refused : bool;
  refusals : Z;
  retry_after_requested : option Duration;
  resume_at : option SystemTime;
  hold_until : option SystemTime;
  ceiling_since : option SystemTime;
}.

Definition origin_new (c : ConcurrencyConfig) : Origin := {|
  limit := c_min c; in_flight := 0; ceiling := c_max c; baseline := None; probe_total := 0;
  probe_samples := 0; clean_probes := 0; saturated := false; refused := false; refusals := 0;
  retry_after_requested := None; resume_at := None; hold_until := None; ceiling_since := None;
|}.

(** Assignments to the fields. *)
Definition set_limit (l : Z) (o : Origin) : Origin :=
  let 'mk_origin _ f c b t n p s r k a u h i := o in mk_origin l f c b t n p s r k a u h i.
Definition set_in_flight (f : Z) (o : Origin) : Origin :=
  let 'mk_origin l _ c b t n p s r k a u h i := o in mk_origin l f c b t n p s r k a u h i.
Definition set_ceiling (c : Z) (since : SystemTime) (o : Origin) : Origin :=
  let 'mk_origin l f _ b t n p s r k a u h _ := o in mk_origin l f c b t n p s r k a u h (Some since).
Definition set_baseline (b : option Duration) (o : Origin) : Origin :=
  let 'mk_origin l f c _ t n p s r k a u h i := o in mk_origin l f c b t n p s r k a u h i.
Definition set_probe (t : Duration) (n : Z) (o : Origin) : Origin :=
  let 'mk_origin l f c b _ _ p s r k a u h i := o in mk_origin l f c b t n p s r k a u h i.
Definition set_clean_probes (p : Z) (o : Origin) : Origin :=
  let 'mk_origin l f c b t n _ s r k a u h i := o in mk_origin l f c b t n p s r k a u h i.
Definition set_saturated (s : bool) (o : Origin) : Origin :=
  let 'mk_origin l f c b t n p _ r k a u h i := o in mk_origin l f c b t n p s r k a u h i.
Definition set_refused (r : bool) (o : Origin) : Origin :=
  let 'mk_origin l f c b t n p s _ k a u h i := o in mk_origin l f c b t n p s r k a u h i.
Definition set_refusals (k : Z) (a : option Duration) (o : Origin) : Origin :=
  let 'mk_origin l f c b t n p s r _ _ u h i := o in mk_origin l f c b t n p s r k a u h i.
Definition set_resume_at (u : SystemTime) (o : Origin) : Origin :=
  let 'mk_origin l f c b t n p s r k a _ h i := o in mk_origin l f c b t n p s r k a (Some u) h i.
Definition set_hold_until (h : SystemTime) (o : Origin) : Origin :=
  let 'mk_origin l f c b t n p s r k a u _ i := o in mk_origin l f c b t n p s r k a u (Some h) i.

Definition has_lesson (c : ConcurrencyConfig) (o : Origin) : bool :=
  refused o || (ceiling o <? c_max c).

Definition abandon_probe (o : Origin) : Origin := set_clean_probes 0 (set_probe 0 0 o).

Definition limit_changed (o : Origin) : Origin := set_saturated false (abandon_probe o).

(** ** The control law *)

Record Shared := mk_shared { config : ConcurrencyConfig; ceiling_recovery : option Duration }.

Definition scale (duration : Duration) (factor : f64) : Duration :=
  default duration_max (try_from_secs_f64 (f64_mul (as_secs_f64 duration) factor)).

Definition deadline (now : SystemTime) (duration : Duration) : SystemTime :=
  default now (checked_add now duration).

(** [Duration::saturating_mul] and [u32::saturating_pow] of two. *)
Definition cooldown (c : ConcurrencyConfig) (refusals : Z) : Duration :=
  let doublings := Z.min (saturating_sub refusals 1) 31 in
  Z.min (Z.min (c_cooldown c * Z.min (2 ^ doublings) u32_max) duration_max) (max_cooldown c).

Definition relax_ceiling (shared : Shared) (now : SystemTime) (o : Origin) : Origin :=
  match ceiling_recovery shared with
  | None => o
  | Some interval =>
      if c_max (config shared) <=? ceiling o then o
      else match ceiling_since o with
           | None => o
           | Some since =>
               if now <? deadline since interval then o
               else set_ceiling (ceiling o + 1) now o
           end
  end.

(** The end of a clean probe: conditions 6, 4, 7, 5 and 8 of the increase rule. *)
Definition credit_clean_probe (c : ConcurrencyConfig) (now : SystemTime) (o : Origin) : Origin :=
  if match hold_until o with Some until => now <? until | None => false end then o
  else
    let o := set_clean_probes (Z.min (clean_probes o + 1) u32_max) o in
    if clean_probes o <? clean_probes_before_increase c then o
    else if refused o then o
    else if negb (saturated o) then o
    else if Z.min (ceiling o) (c_max c) <=? limit o then o
    else limit_changed (set_limit (limit o + 1) o).

Definition degraded_from (c : ConcurrencyConfig) (baseline mean : Duration) : bool :=
  Z.max (scale baseline (degradation c)) (duration_saturating_add baseline DEGRADATION_FLOOR) <? mean.

Definition drifted (baseline mean : Duration) : Duration := Z.min mean (scale baseline BASELINE_DRIFT).

Definition healthy (shared : Shared) (now : SystemTime) (latency : Duration) (o : Origin) : Origin :=
  let c := config shared in
  let o := set_probe (duration_saturating_add (probe_total o) latency) (probe_samples o + 1) o in
  if probe_samples o <? c_probe c then o
  else
    let samples := Z.min (probe_samples o) u32_max in
    let mean := default 0 (duration_checked_div (probe_total o) samples) in
    let o := set_probe 0 0 o in
    match baseline o with
    | None => set_baseline (Some mean) o
    | Some baseline =>
        let o := set_baseline (Some (drifted baseline mean)) o in
        if degraded_from c baseline mean then
          limit_changed (set_hold_until (deadline now (hold c)) (set_limit (Z.max (limit o / 2) (c_min c)) o))
        else credit_clean_probe c now (relax_ceiling shared now o)
    end.

Definition refuse (c : ConcurrencyConfig) (now : SystemTime) (retry_after : option Duration) (o : Origin) : Origin :=
  let o := set_refusals (Z.min (refusals o + 1) u32_max) retry_after o in
  let learned := Z.max (limit o / 2) (c_min c) in
  let o := set_ceiling (Z.min (ceiling o) learned) now o in
  let o := set_limit (Z.min (limit o) (ceiling o)) o in
  let pause := match retry_after with
               | Some asked => Z.min asked (max_pause c)
               | None => cooldown c (refusals o)
               end in
  let o := set_resume_at (deadline now pause) o in
  let o := set_hold_until (deadline now (duration_saturating_add pause (hold c))) o in
  limit_changed (set_baseline None o).

Definition apply (shared : Shared) (now : SystemTime) (latency : Duration) (signal : Signal) (o : Origin) : Origin :=
  match signal with
  | Healthy => healthy shared now latency o
  | Refused => abandon_probe (set_refused true o)
  | Backpressure retry_after => refuse (config shared) now retry_after o
  | Neutral | Failed => abandon_probe o
  end.

(** ** The operations on an entry *)

Definition try_take_slot (waited : bool) (o : Origin) : bool * Origin :=
  if in_flight o <? limit o then
    let o := set_in_flight (in_flight o + 1) o in
    (true, if waited then set_saturated true o else o)
  else (false, o).

(** [release] up to its wake-up: the slot comes back and the signal is applied. *)
Definition give_back (shared : Shared) (now : SystemTime) (latency : Duration) (signal : option Signal) (o : Origin) : Origin :=
  let o := set_in_flight (saturating_sub (in_flight o) 1) o in
  match signal with Some signal => apply shared now latency signal o | None => o end.

Definition pause_remaining (now : SystemTime) (o : Origin) : Duration :=
  match resume_at o with Some at_ => Z.max (at_ - now) 0 | None => 0 end.

Record OriginSnapshot := mk_snapshot {
  s_limit : Z; s_in_flight : Z; s_ceiling : Z; s_baseline : option Duration; s_refused : bool;
  s_paused_for : option Duration; s_retry_after_requested : option Duration;
  s_refusals : Z; s_clean_probes : Z;
}.

Definition snapshot_of (now : SystemTime) (o : Origin) : OriginSnapshot := {|
  s_limit := limit o; s_in_flight := in_flight o; s_ceiling := ceiling o; s_baseline := baseline o;
  s_refused := refused o;
  s_paused_for :=
    match resume_at o with
    | Some at_ => let left := Z.max (at_ - now) 0 in if left =? 0 then None else Some left
    | None => None
    end;
  s_retry_after_requested := retry_after_requested o; s_refusals := refusals o;
  s_clean_probes := clean_probes o;
|}.
