(* ===== verification/AdaptiveLaw.v ===== *)
(** The adaptive control law over the whole life of an entry: its invariant, the
    increase rule, the ratchet of a refusal, the pace of a ramp and of a recovery. *)
From S2P Require Import Prelude RustTime RustFloat Extern Adaptive.
Local Open Scope Z_scope.

(** ** The life of an entry *)

(** What happens to an entry: a caller takes a slot, or gives one back with or
    without a report. *)
Inductive event :=
  | Take (waited : bool)
  | Return (now : SystemTime) (latency : Duration) (signal : option Signal).

Definition step (shared : Shared) (o : Origin) (e : event) : Origin :=
  match e with
  | Take waited => (try_take_slot waited o).2
  | Return now latency signal => give_back shared now latency signal o
  end.

Definition run (shared : Shared) (es : list event) (o : Origin) : Origin := foldl (step shared) o es.

Definition entry (shared : Shared) (es : list event) : Origin := run shared es (origin_new (config shared)).

Lemma run_snoc shared es e o : run shared (es ++ [e]) o = step shared (run shared es o) e.
Proof. apply foldl_snoc. Qed.

Lemma run_app shared es es' o : run shared (es ++ es') o = run shared es' (run shared es o).
Proof. apply foldl_app. Qed.

(** ** The invariant *)

Record config_ok (c : ConcurrencyConfig) : Prop := {
  min_pos : 1 <= c_min c;
  min_max : c_min c <= c_max c;
  probe_pos : 1 <= c_probe c;
  clean_pos : 1 <= clean_probes_before_increase c;
}.

Record origin_ok (c : ConcurrencyConfig) (o : Origin) : Prop := {
  limit_min : c_min c <= limit o;
  limit_ceiling : limit o <= ceiling o;
  ceiling_max : ceiling o <= c_max c;
  in_flight_nonneg : 0 <= in_flight o;
  samples_range : 0 <= probe_samples o < c_probe c;
  clean_range : 0 <= clean_probes o <= u32_max;
  refusals_range : 0 <= refusals o <= u32_max;
  lowered_when : ceiling o < c_max c → is_Some (ceiling_since o);
}.

Lemma sanitised_ok c : config_ok (sanitised c).
Proof. split; simpl; lia. Qed.

(** Every configuration a controller runs is [sanitised], and clamping twice changes nothing. *)
Lemma sanitised_idempotent c : sanitised (sanitised c) = sanitised c.
Proof.
  unfold sanitised. cbn [c_min c_max c_probe clean_probes_before_increase degradation hold c_cooldown
    max_cooldown max_pause capacity]. f_equal; try lia.
  destruct (is_finite (degradation c) && f64_lt one (degradation c)) eqn:E; [by rewrite E|by case_match].
Qed.

(** Unfolds the law on a concrete entry and splits its conditions. *)
Ltac law :=
  intros;
  repeat match goal with o : Origin |- _ => destruct o end;
  cbn -[Z.max Z.min Z.div Z.ltb Z.leb Z.eqb scale deadline degraded_from drifted cooldown
        duration_saturating_add duration_checked_div] in *;
  repeat (case_match; cbn -[Z.max Z.min Z.div Z.ltb Z.leb Z.eqb scale deadline degraded_from drifted
        cooldown duration_saturating_add duration_checked_div] in *);
  bool_prop.

Section Law.
Context (shared : Shared).
#[local] Abbreviation c := (config shared).
Context (Hc : config_ok c).

Lemma half_between l : 1 <= l → 0 <= l / 2 < l.
Proof. intros. Z.to_euclidean_division_equations. lia. Qed.

Lemma origin_new_ok : origin_ok c (origin_new c).
Proof using Hc. destruct Hc. split; simpl; unfold u32_max; lia. Qed.

Lemma healthy_ok now latency o : origin_ok c o → origin_ok c (healthy shared now latency o).
Proof using Hc.
  intros [? ? ? ? ? ? ? Hsince]. destruct Hc. pose proof (half_between (limit o)).
  unfold healthy, credit_clean_probe, relax_ceiling, limit_changed, abandon_probe.
  law; split; cbn -[Z.max Z.min Z.div]; try lia; eauto; try (intros; apply Hsince; lia).
Qed.

Lemma refuse_ok now retry_after o : origin_ok c o → origin_ok c (refuse c now retry_after o).
Proof using Hc.
  intros [? ? ? ? ? ? ? Hsince]. destruct Hc. pose proof (half_between (limit o)).
  unfold refuse, limit_changed, abandon_probe.
  law; split; cbn -[Z.max Z.min Z.div]; try lia; unfold u32_max; try lia; eauto.
Qed.

Lemma abandon_ok o : origin_ok c o → origin_ok c (abandon_probe o).
Proof using Hc. intros [? ? ? ? ? ? ? Hsince]. destruct Hc. law; split; simpl in *; auto; unfold u32_max; lia. Qed.

Lemma apply_ok now latency s o : origin_ok c o → origin_ok c (apply shared now latency s o).
Proof using Hc.
  intros Ho. destruct s; cbn [apply]; [by apply healthy_ok|by apply abandon_ok|by apply refuse_ok| |by apply abandon_ok].
  apply abandon_ok. destruct Ho. by destruct o.
Qed.

Lemma step_ok o e : origin_ok c o → origin_ok c (step shared o e).
Proof using Hc.
  intros Ho. destruct e as [w|now latency s]; cbn [step].
  - destruct Ho. unfold try_take_slot. law; split; simpl in *; auto; lia.
  - unfold give_back. assert (Ho' : origin_ok c (set_in_flight (saturating_sub (in_flight o) 1) o)).
    { destruct Ho. destruct o; split; simpl in *; auto. unfold saturating_sub. lia. }
    destruct s; [by apply apply_ok|done].
Qed.

Lemma run_ok es o : origin_ok c o → origin_ok c (run shared es o).
Proof using Hc. unfold run. revert o. induction es as [|e es IH]; intros o Ho; simpl; [done|]. by apply IH, step_ok. Qed.

Lemma entry_ok es : origin_ok c (entry shared es).
Proof using Hc. apply run_ok, origin_new_ok. Qed.

(** ** The increase rule *)

(** The mean of the probe a healthy response of this [latency] completes. *)
Definition probe_mean (o : Origin) (latency : Duration) : Duration :=
  duration_saturating_add (probe_total o) latency / Z.min (probe_samples o + 1) u32_max.

(** The eight conditions of the documentation, by their numbers there. *)
Record may_increase (now : SystemTime) (latency : Duration) (o : Origin) : Prop := {
  completed_1 : probe_samples o + 1 = c_probe c;
  compared_2_3 : ∃ b, baseline o = Some b ∧ degraded_from c b (probe_mean o latency) = false;
  run_4 : clean_probes_before_increase c <= Z.min (clean_probes o + 1) u32_max;
  queued_5 : saturated o = true;
  held_6 : ∀ until, hold_until o = Some until → until <= now;
  refused_7 : refused o = false;
  below_8 : limit o < ceiling (relax_ceiling shared now o);
}.

Lemma probe_mean_eq o latency :
  0 <= probe_samples o →
  default 0 (duration_checked_div (duration_saturating_add (probe_total o) latency)
               (Z.min (probe_samples o + 1) u32_max)) = probe_mean o latency.
Proof.
  intros Hn. unfold duration_checked_div, probe_mean. destruct (_ =? 0) eqn:E; [|done].
  unfold u32_max in *. bool_prop. lia.
Qed.

(** A healthy response that completes a clean probe, as the credit it earns. *)
Lemma healthy_clean now latency o b :
  origin_ok c o → probe_samples o + 1 = c_probe c → baseline o = Some b →
  degraded_from c b (probe_mean o latency) = false →
  healthy shared now latency o =
  credit_clean_probe c now (relax_ceiling shared now
    (set_baseline (Some (drifted b (probe_mean o latency))) (set_probe 0 0 o))).
Proof using Type.
  intros Ho Hp Hb Hd. pose proof (samples_range _ _ Ho) as [Hn _].
  pose proof (probe_mean_eq o latency Hn) as Hmean. unfold healthy.
  destruct o as [l f ce b0 t n p sa r k a u h i]. cbn [set_probe probe_total probe_samples baseline] in *.
  cbv zeta. cbn [set_probe probe_total probe_samples baseline]. subst b0.
  rewrite Hp, Z.ltb_irrefl, <- Hp, Hmean, Hd. done.
Qed.

Lemma relax_ceiling_limit now o : limit (relax_ceiling shared now o) = limit o.
Proof. unfold relax_ceiling. law; done. Qed.

(** What [relax_ceiling] reads and writes is the ceiling and when it last moved. *)
Lemma relax_ceiling_set now b t n o :
  relax_ceiling shared now (set_baseline b (set_probe t n o)) =
  set_baseline b (set_probe t n (relax_ceiling shared now o)).
Proof. unfold relax_ceiling. law; done. Qed.

Lemma relax_ceiling_keeps now o :
  let o' := relax_ceiling shared now o in
  clean_probes o' = clean_probes o ∧ saturated o' = saturated o ∧ hold_until o' = hold_until o ∧
  refused o' = refused o ∧ baseline o' = baseline o ∧ limit o' = limit o ∧ refusals o' = refusals o ∧
  resume_at o' = resume_at o ∧ ceiling o <= ceiling o'.
Proof. unfold relax_ceiling. law; split_and!; done || lia. Qed.

(** Each other report leaves the limit where it is or lowers it. *)
Lemma other_signals now latency s o :
  origin_ok c o → s ≠ Healthy → limit (apply shared now latency s o) <= limit o.
Proof using Hc.
  intros [] Hs. destruct Hc. pose proof (half_between (limit o)). destruct s; [done|..]; cbn [apply].
  - law; lia.
  - unfold refuse. law; lia.
  - law; lia.
  - law; lia.
Qed.

Lemma credit_limit now o :
  limit (credit_clean_probe c now o) = limit o ∨
  limit (credit_clean_probe c now o) = limit o + 1 ∧ clean_probes (credit_clean_probe c now o) = 0 ∧
  saturated (credit_clean_probe c now o) = false.
Proof. unfold credit_clean_probe, limit_changed, abandon_probe. law; auto. Qed.

(** The credit of a clean probe adds a slot exactly under conditions 4 to 8. *)
Lemma credit_increases now o :
  ceiling o <= c_max c →
  limit o < limit (credit_clean_probe c now o) ↔
  (∀ until, hold_until o = Some until → until <= now) ∧
  clean_probes_before_increase c <= Z.min (clean_probes o + 1) u32_max ∧
  refused o = false ∧ saturated o = true ∧ limit o < ceiling o.
Proof.
  intros Hmax. unfold credit_clean_probe, limit_changed, abandon_probe.
  law; try (split; [intros; lia|intros (Hh & ? & ? & ? & ?)]); try congruence; try lia.
  all: try match goal with H : _ < _ |- _ => specialize (Hh _ eq_refl) end; try lia.
  all: split; [intros _|intros; lia]; split_and!; try done; try lia; intros ? [= <-]; lia.
Qed.

(** What a healthy response does short of crediting a clean probe. *)
Lemma healthy_cases now latency o (Ho : origin_ok c o) :
  let o' := healthy shared now latency o in
  (limit o' = limit o ∧ probe_samples o + 1 < c_probe c ∧ probe_samples o' = probe_samples o + 1 ∧
   clean_probes o' = clean_probes o ∧ baseline o' = baseline o ∧ ceiling o' = ceiling o) ∨
  (limit o' = limit o ∧ probe_samples o + 1 = c_probe c ∧ baseline o = None ∧ probe_samples o' = 0 ∧
   clean_probes o' = clean_probes o ∧ is_Some (baseline o') ∧ ceiling o' = ceiling o) ∨
  (∃ b, baseline o = Some b ∧ probe_samples o + 1 = c_probe c ∧
   degraded_from c b (probe_mean o latency) = true ∧ limit o' = Z.max (limit o / 2) (c_min c) ∧
   probe_samples o' = 0 ∧ clean_probes o' = 0 ∧ is_Some (baseline o') ∧ ceiling o' = ceiling o) ∨
  (∃ b, baseline o = Some b ∧ probe_samples o + 1 = c_probe c ∧
   degraded_from c b (probe_mean o latency) = false).
Proof using Hc.
  cbv zeta. pose proof (samples_range _ _ Ho) as [Hn Hn']. pose proof (probe_mean_eq o latency Hn) as Hmean.
  unfold healthy, limit_changed, abandon_probe.
  destruct o as [l f ce b0 t n p sa r k a u h i].
  cbv zeta. cbn [set_probe probe_total probe_samples baseline clean_probes ceiling limit] in *.
  destruct (n + 1 <? c_probe c) eqn:Hlt; bool_prop; [left; done|right].
  assert (Hp : n + 1 = c_probe c) by lia. destruct b0 as [b|]; [right|left; cbn; eauto 10].
  rewrite Hmean. destruct (degraded_from _ _ _) eqn:Hd; [left; cbn; eauto 12|right; eauto].
Qed.

(** Both directions of the increase rule, and what an increase spends. *)
Lemma apply_increases now latency s o :
  origin_ok c o →
  let o' := apply shared now latency s o in
  (limit o < limit o' ↔ s = Healthy ∧ may_increase now latency o) ∧
  (limit o < limit o' → limit o' = limit o + 1 ∧ clean_probes o' = 0 ∧ saturated o' = false).
Proof using Hc.
  intros Ho. cbv zeta. destruct (decide (s = Healthy)) as [->|Hs].
  2: { pose proof (other_signals now latency s o Ho Hs). split; [|lia]. split; [lia|]. by intros []. }
  cbn [apply]. destruct Hc. pose proof Ho as [Hmin _ _ _ _ _ _ _]. pose proof (half_between (limit o)).
  destruct (healthy_cases now latency o Ho) as
    [(Hl & ? & ?)|[(Hl & _ & Hb & _)|[(b & Hb & _ & Hd & Hl & _)|(b & Hb & Hp & Hd)]]].
  1-3: split; [|lia]; split; [lia|]; intros [_ [Hcomp (b' & Hb' & Hd') _ _ _ _ _]]; try lia; congruence.
  rewrite (healthy_clean now latency o b) by done. rewrite relax_ceiling_set.
  set (o1 := set_baseline _ _). pose proof (relax_ceiling_keeps now o) as (Ec & Es & Eh & Er & _ & El & _).
  assert (Hf : limit o1 = limit o ∧ clean_probes o1 = clean_probes o ∧ saturated o1 = saturated o ∧
    hold_until o1 = hold_until o ∧ refused o1 = refused o ∧ ceiling o1 = ceiling (relax_ceiling shared now o)).
  { unfold o1. destruct (relax_ceiling shared now o); cbn in *. done. }
  destruct Hf as (Fl & Fc & Fs & Fh & Fr & Fce).
  assert (Hmax : ceiling o1 <= c_max c).
  { rewrite Fce. destruct Ho. unfold relax_ceiling. law; lia. }
  pose proof (credit_increases now o1 Hmax) as Hinc.
  destruct (credit_limit now o1) as [Hl|(Hl & Hl')]; rewrite Fl, Fc, Fs, Fh, Fr, Fce in *; split; try lia.
  - split; [lia|]. intros [_ []]. lia || (exfalso; apply (Z.lt_irrefl (limit o)); rewrite <- Hl at 2; naive_solver).
  - split; [|lia]. intros Hlt. apply Hinc in Hlt as (? & ? & ? & ? & ?). split; [done|]. split; eauto.
  - done.
Qed.

(** An origin gains a slot exactly when the report is a healthy response under
    which all eight conditions of the increase rule hold: a completed probe,
    measured against a baseline and not degraded, the run long enough, a caller
    that queued, no hold, no [403], and a limit below the ceiling.  It then gains
    one, and the evidence is spent. *)
Theorem increase_rule now latency s o :
  origin_ok c o →
  let o' := apply shared now latency s o in
  (limit o < limit o' ↔ s = Healthy ∧ may_increase now latency o) ∧
  (limit o < limit o' → limit o' = limit o + 1 ∧ clean_probes o' = 0 ∧ saturated o' = false).
Proof using Hc. apply apply_increases. Qed.

(** ** Refusals *)

Lemma step_limit_le o e : origin_ok c o → refused o = true → limit (step shared o e) <= limit o.
Proof using Hc.
  intros Ho Hr. destruct e as [w|now latency s]; cbn [step].
  - clear Ho. unfold try_take_slot. law; lia.
  - unfold give_back. assert (Hok : origin_ok c (set_in_flight (saturating_sub (in_flight o) 1) o)).
    { destruct Ho. destruct o; split; simpl in *; auto. unfold saturating_sub. lia. }
    replace (limit o) with (limit (set_in_flight (saturating_sub (in_flight o) 1) o)) by (by destruct o).
    destruct s as [s|]; [|lia]. apply Z.le_ngt. intros Hlt.
    apply (apply_increases now latency s _ Hok) in Hlt as [_ [_ _ _ _ _ Hno _]]. by destruct o; simpl in *; subst.
Qed.

Lemma step_refused o e : refused o = true → refused (step shared o e) = true.
Proof.
  intros Hr. destruct e as [w|now latency s]; cbn [step]; [unfold try_take_slot; law; done|].
  unfold give_back. destruct s as [[]|]; cbn [apply]; unfold healthy, credit_clean_probe, relax_ceiling,
    refuse, limit_changed, abandon_probe; law; done.
Qed.

(** A [403] freezes the ramp for the rest of the entry's life: whatever follows
    it, in whatever order, no slot is ever added and the flag stays up. *)
Theorem refusal_freezes now latency es o :
  origin_ok c o →
  let o' := apply shared now latency Refused o in
  refused (run shared es o') = true ∧ limit (run shared es o') <= limit o ∧ resume_at o' = resume_at o.
Proof using Hc.
  intros Ho. cbv zeta. set (o' := apply _ _ _ _ _).
  assert (Hok : origin_ok c o') by (by apply apply_ok).
  assert (Hr : refused o' = true ∧ limit o' <= limit o ∧ resume_at o' = resume_at o) by (by destruct o).
  destruct Hr as (Hr & Hl & Hpause). split_and!; [| |done].
  - unfold run. clear -Hr. revert Hr. generalize o'. induction es as [|e es IH]; intros x Hx; simpl; [done|].
    by apply IH, step_refused.
  - etrans; [|exact Hl]. clear Hl Hpause. clearbody o'. clear Ho. revert o' Hok Hr.
    induction es as [|e es IH]; intros x Hx Hr; simpl; [lia|].
    etrans; [apply IH; [by apply step_ok|by apply step_refused]|by apply step_limit_le].
Qed.

Lemma step_ceiling_le o e :
  origin_ok c o → ceiling_recovery shared = None → ceiling (step shared o e) <= ceiling o.
Proof using Hc.
  intros Ho Hrec. destruct e as [w|now latency s]; cbn [step]; [unfold try_take_slot; law; lia|].
  unfold give_back. destruct s as [[]|]; cbn [apply];
    unfold healthy, credit_clean_probe, relax_ceiling, refuse, limit_changed, abandon_probe; rewrite ?Hrec; law; lia.
Qed.

(** C14. A refusal is a ratchet: without a recovery interval, after a [429] or a
    [503] reported at limit [L] no later sequence of events brings the limit above
    half of [L], or the configured minimum where that is more. *)
Theorem refusal_is_a_ratchet now latency retry_after es o :
  origin_ok c o → ceiling_recovery shared = None →
  let o' := apply shared now latency (Backpressure retry_after) o in
  ceiling o' = Z.max (limit o / 2) (c_min c) ∧ limit o' = ceiling o' ∧
  limit (run shared es o') <= Z.max (limit o / 2) (c_min c).
Proof using Hc.
  intros Ho Hrec. cbv zeta. set (o' := apply _ _ _ _ _).
  assert (Hok : origin_ok c o') by (by apply apply_ok).
  assert (Hce : ceiling o' = Z.max (limit o / 2) (c_min c) ∧ limit o' = ceiling o').
  { destruct Ho, Hc. pose proof (half_between (limit o)). unfold o'. cbn [apply]. unfold refuse.
    clear Hok o'. law; lia. }
  destruct Hce as [Hce Hl]. split_and!; [done|done|]. rewrite <- Hce. clear Ho Hl Hce. clearbody o'.
  transitivity (ceiling (run shared es o')); [by apply limit_ceiling with (c := c), run_ok|].
  revert o' Hok. induction es as [|e es IH]; intros x Hx; simpl; [lia|].
  etrans; [apply IH; by apply step_ok|by apply step_ceiling_le].
Qed.
End Law.
