(* ===== verification/AdaptivePace.v ===== *)
(** How fast the adaptive law moves: the ramp of a new origin, the recovery of a
    lowered ceiling, the pauses a refusal buys; and where the code parts from its
    documentation. *)
From S2P Require Import Prelude RustStr RustTime RustFloat Extern Adaptive AdaptiveLaw.
From S2P Require RetryDate.
Local Open Scope Z_scope.

(** ** The ramp *)

Section Ramp.
Context (shared : Shared).
#[local] Abbreviation c := (config shared).
Context (Hc : config_ok c).

Definition is_healthy (e : event) : bool :=
  match e with Return _ _ (Some Healthy) => true | _ => false end.

(** How many healthy responses a history reports. *)
Definition healthy_count (es : list event) : Z := zlen (filter (λ e, is_healthy e = true) es).

(** The healthy responses an entry's counters stand for. *)
Definition evidence (o : Origin) : Z :=
  clean_probes o * c_probe c + probe_samples o + match baseline o with Some _ => c_probe c | None => 0 end.

(** One slot costs [clean_probes_before_increase] probes. *)
Definition slot_cost : Z := clean_probes_before_increase c * c_probe c.

Definition paid (o : Origin) : Z := (limit o - c_min c) * slot_cost + evidence o.

Lemma credit_paid now o :
  c_min c <= limit o → 0 <= clean_probes o <= u32_max → probe_samples o = 0 → is_Some (baseline o) →
  paid (credit_clean_probe c now o) <= paid o + c_probe c ∧
  (limit o < limit (credit_clean_probe c now o) →
   paid (credit_clean_probe c now o) = (limit (credit_clean_probe c now o) - c_min c) * slot_cost + c_probe c).
Proof using Hc.
  intros Hmin Hcl Hs [b Hb]. destruct Hc as [_ _ Hp Hn].
  unfold paid, slot_cost, evidence, credit_clean_probe, limit_changed, abandon_probe.
  destruct o as [l f ce b0 t n p sa r k a u h i].
  cbn [baseline probe_samples limit clean_probes hold_until refused saturated ceiling] in *. subst b0 n.
  repeat (case_match; cbn -[Z.max Z.min Z.mul Z.ltb Z.leb] in *); bool_prop; split; try lia; try nia.
Qed.

Lemma apply_paid now latency s o :
  origin_ok c o →
  let o' := apply shared now latency s o in
  paid o' <= paid o + (if bool_decide (s = Healthy) then 1 else 0) ∧
  (limit o < limit o' → paid o' = (limit o' - c_min c) * slot_cost + c_probe c).
Proof using Hc.
  intros Ho. cbv zeta. pose proof (apply_ok _ Hc now latency s o Ho) as Ho'.
  assert (Hcost : 0 <= slot_cost) by (destruct Hc; unfold slot_cost; nia).
  pose proof Ho as [Hmin _ _ _ Hn Hcl _ _]. pose proof Hc as [Hm1 _ Hp _].
  destruct (decide (s = Healthy)) as [->|Hs].
  - rewrite bool_decide_true by done. cbn [apply] in *. pose proof (half_between (limit o)) as Hhalf.
    destruct (healthy_cases _ Hc now latency o Ho) as
      [(Hl & Hp1 & Hp2 & Ecl & Eb & _)|[(Hl & Hp1 & Eb & Ep & Ecl & [x Eb'] & _)|
       [(b & Eb & Hp1 & _ & Hl & Ep & Ecl & [x Eb'] & _)|(b & Eb & Hp1 & Hd)]]].
    1-3: assert (Hlim : (limit (healthy shared now latency o) - c_min c) * slot_cost <= (limit o - c_min c) * slot_cost)
           by (apply Z.mul_le_mono_nonneg_r; lia);
         unfold paid, evidence; rewrite ?Hp2, ?Ep, ?Ecl, ?Eb', ?Eb; split; [|lia];
         pose proof (Z.mul_nonneg_nonneg (clean_probes o) (c_probe c)); lia.
    rewrite (healthy_clean shared now latency o b) by done. rewrite relax_ceiling_set.
    pose proof (relax_ceiling_keeps shared now o) as (Kc & _ & _ & _ & _ & Kl & _).
    set (o1 := set_baseline _ _).
    assert (Hf : limit o1 = limit o ∧ clean_probes o1 = clean_probes o ∧ probe_samples o1 = 0 ∧
      baseline o1 = Some (drifted b (probe_mean o latency))).
    { unfold o1. destruct (relax_ceiling shared now o); simpl in *. done. }
    destruct Hf as (Fl & Fc & Fs & Fb).
    destruct (credit_paid now o1) as [Hle Heq]; rewrite ?Fl, ?Fc; eauto.
    split; [|rewrite <- Fl; exact Heq]. etrans; [exact Hle|].
    unfold paid, evidence. rewrite Fl, Fc, Fs, Fb, Eb. lia.
  - rewrite bool_decide_false by done.
    pose proof (other_signals _ Hc now latency s o Ho Hs) as Hle. split; [|lia].
    assert (He : evidence (apply shared now latency s o) <= evidence o).
    { clear Hle Ho'. unfold evidence. destruct s; [done|..]; cbn [apply]; unfold refuse, limit_changed, abandon_probe;
        destruct o; cbn -[Z.mul] in *; case_match; nia. }
    assert (Hlim : (limit (apply shared now latency s o) - c_min c) * slot_cost <= (limit o - c_min c) * slot_cost)
      by (apply Z.mul_le_mono_nonneg_r; lia). unfold paid. lia.
Qed.

Lemma step_paid o e :
  origin_ok c o →
  paid (step shared o e) <= paid o + (if is_healthy e then 1 else 0) ∧
  (limit o < limit (step shared o e) →
   paid (step shared o e) = (limit (step shared o e) - c_min c) * slot_cost + c_probe c).
Proof using Hc.
  intros Ho. destruct e as [w|now latency s]; cbn [step is_healthy].
  { clear Ho. unfold try_take_slot, paid, evidence. law; split; lia. }
  unfold give_back. set (o1 := set_in_flight _ o).
  assert (Hok : origin_ok c o1).
  { unfold o1. destruct Ho. destruct o; split; simpl in *; auto. unfold saturating_sub. lia. }
  assert (Hp : paid o1 = paid o ∧ limit o1 = limit o) by (by destruct o). destruct Hp as [<- <-].
  destruct s as [s|]; [|split; lia]. pose proof (apply_paid now latency s o1 Hok) as [Hle Heq].
  split; [|done]. destruct s; done.
Qed.

(** The ramp of an origin is slow: every slot beyond the configured minimum
    has cost [clean_probes_before_increase] whole probes of healthy responses, on
    top of the one probe that first sets the baseline.  With the defaults the
    second slot is never granted before 25 healthy responses. *)
Theorem ramp_is_slow es :
  let o := entry shared es in
  limit o = c_min c ∨ (limit o - c_min c) * slot_cost + c_probe c <= healthy_count es.
Proof using Hc.
  cbv zeta. enough (paid (entry shared es) <= healthy_count es ∧
    (limit (entry shared es) = c_min c ∨
     (limit (entry shared es) - c_min c) * slot_cost + c_probe c <= healthy_count es)) by tauto.
  assert (Hcost : 0 <= slot_cost) by (destruct Hc; unfold slot_cost; nia).
  induction es as [|e es [IHp IHl]] using rev_ind.
  { unfold paid, evidence; simpl. rewrite Z.sub_diag. split; [done|by left]. }
  pose proof (entry_ok shared Hc es) as Hok. pose proof (entry_ok shared Hc (es ++ [e])) as Hok'.
  unfold entry in *. rewrite run_snoc in *. set (o := run shared es _) in *.
  destruct (step_paid o e Hok) as [Hle Heq].
  assert (Hcount : healthy_count (es ++ [e]) = healthy_count es + if is_healthy e then 1 else 0).
  { unfold healthy_count. rewrite filter_app, zlen_app. f_equal.
    rewrite filter_cons, filter_nil. destruct (is_healthy e); by case_decide. }
  rewrite Hcount. split; [lia|]. destruct (decide (limit o < limit (step shared o e))) as [Hlt|Hge].
  - right. rewrite <- Heq by done. lia.
  - destruct Hok', IHl as [IHl|IHl]; [left; lia|].
    destruct (decide (limit (step shared o e) = c_min c)); [by left|right].
    assert ((limit (step shared o e) - c_min c) * slot_cost <= (limit o - c_min c) * slot_cost)
      by (apply Z.mul_le_mono_nonneg_r; lia).
    destruct (is_healthy e); lia.
Qed.
End Ramp.

(** ** Recovery *)

Section Recovery.
Context (shared : Shared) (interval : Duration).
#[local] Abbreviation c := (config shared).
Context (Hc : config_ok c) (Hrec : ceiling_recovery shared = Some interval) (Hpos : 0 <= interval).

(** Reports in the order of the clock, none before [t] nor after [t']. *)
Fixpoint ordered_from (t t' : SystemTime) (es : list event) : Prop :=
  match es with
  | [] => t <= t'
  | Take _ :: es => ordered_from t t' es
  | Return now _ _ :: es => t <= now ∧ ordered_from now t' es
  end.

Lemma ordered_from_le t t' es : ordered_from t t' es → t <= t'.
Proof. revert t. induction es as [|[w|now l s] es IH]; simpl; intros t; [done|apply IH|]. intros [? ?%IH]. lia. Qed.

Lemma take_keeps_ceiling w o :
  ceiling (try_take_slot w o).2 = ceiling o ∧ ceiling_since (try_take_slot w o).2 = ceiling_since o.
Proof. unfold try_take_slot. law; done. Qed.

(** What moves the ceiling of an entry, and to when it is dated. *)
Lemma apply_ceiling now latency s o :
  let o' := apply shared now latency s o in
  (ceiling o' = ceiling o ∧ ceiling_since o' = ceiling_since o) ∨
  (ceiling o' <= ceiling o ∧ ceiling_since o' = Some now) ∨
  (∃ since, ceiling_since o = Some since ∧ deadline since interval <= now ∧
   ceiling o' = ceiling o + 1 ∧ ceiling_since o' = Some now).
Proof using Hrec.
  cbv zeta. destruct s; cbn [apply]; unfold healthy, credit_clean_probe, relax_ceiling, refuse, limit_changed,
    abandon_probe; rewrite ?Hrec; law; try (by left); try (right; left; split; [lia|done]).
  all: right; right; eexists; split_and!; done.
Qed.

Lemma recovery_invariant t0 l0 es t t' o since :
  ordered_from t t' es → system_time_ok t0 → system_time_ok (t' + interval) →
  ceiling_since o = Some since → t0 <= since <= t → (ceiling o - l0) * interval <= since - t0 →
  let o' := run shared es o in
  ∃ since', ceiling_since o' = Some since' ∧ t0 <= since' <= t' ∧ (ceiling o' - l0) * interval <= since' - t0.
Proof using Hrec Hpos.
  intros Hes Ht0 Htm. cbv zeta. unfold system_time_ok in *. revert t o since Hes.
  induction es as [|e es IH]; intros t o since Hes Hs Hb Hinv; simpl.
  { simpl in Hes. exists since. split_and!; done || lia. }
  destruct e as [w|now latency s]; simpl in Hes.
  - destruct (take_keeps_ceiling w o) as [Ec Es].
    apply (IH t (try_take_slot w o).2 since); [done|by rewrite Es|done|by rewrite Ec].
  - destruct Hes as [Hle Hes]. pose proof (ordered_from_le _ _ _ Hes). unfold step, give_back.
    set (o1 := set_in_flight _ o).
    assert (Ho1 : ceiling o1 = ceiling o ∧ ceiling_since o1 = ceiling_since o) by (by destruct o).
    destruct Ho1 as [Hce Hsi]. destruct s as [s|].
    2: { eapply (IH now _ since); [done|by rewrite Hsi|lia|by rewrite Hce]. }
    destruct (apply_ceiling now latency s o1) as [[Ec Es]|[[Ec Es]|(u & Eu & Hdue & Ec & Es)]].
    + eapply (IH now _ since); [done|by rewrite Es, Hsi|lia|by rewrite Ec, Hce].
    + eapply (IH now _ now); [done|by rewrite Es|lia|]. rewrite Hce in Ec.
      assert ((ceiling (apply shared now latency s o1) - l0) * interval <= (ceiling o - l0) * interval)
        by (apply Z.mul_le_mono_nonneg_r; lia). lia.
    + assert (u = since) as -> by congruence. revert Hdue. unfold deadline.
      assert (Hadd : checked_add since interval = Some (since + interval)).
      { apply checked_add_Some. split; [done|]. unfold system_time_ok. lia. }
      rewrite Hadd. cbn [from_option id]. intros Hdue.
      eapply (IH now _ now); [done|by rewrite Es|lia|]. rewrite Ec, Hce.
      replace (ceiling o + 1 - l0) with (ceiling o - l0 + 1) by lia. rewrite Z.mul_add_distr_r. lia.
Qed.

(** With a recovery interval, a ceiling a refusal lowered at [now] has regained
    at most one slot per whole interval by any later [t'], over every sequence of
    reports in the clock's order, further refusals included; the limit stays under
    it.  [t' + interval] is an instant the platform can express. *)
Theorem recovery_is_paced now latency retry_after es t' o :
  origin_ok c o → ordered_from now t' es → system_time_ok now → system_time_ok (t' + interval) →
  let o' := apply shared now latency (Backpressure retry_after) o in
  let o'' := run shared es o' in
  (ceiling o'' - Z.max (limit o / 2) (c_min c)) * interval <= t' - now ∧ limit o'' <= ceiling o''.
Proof using Hc Hrec Hpos.
  intros Ho Hes Hnow Htm. cbv zeta.
  pose proof (apply_ok shared Hc now latency (Backpressure retry_after) o Ho) as Hok.
  set (o' := apply _ _ _ _ _) in *.
  assert (Ho' : ceiling o' = Z.max (limit o / 2) (c_min c) ∧ ceiling_since o' = Some now).
  { destruct Ho, Hc. pose proof (half_between (limit o)). unfold o'. cbn [apply]. unfold refuse.
    clear Hok o' Hes. law; split; done || lia. }
  destruct Ho' as [Hce Hsi]. split; [|by apply limit_ceiling with (c := c), run_ok].
  destruct (recovery_invariant now (ceiling o') es now t' o' now) as (since' & _ & ? & ?); [done..|lia|lia|].
  rewrite Hce in *. lia.
Qed.
End Recovery.

(** ** Pauses *)

(** Multiplying by two for each refusal, capped. *)
Lemma cooldown_doubles c n :
  0 <= c_cooldown c → 1 <= n <= 32 → cooldown c n = Z.min (Z.min (c_cooldown c * 2 ^ (n - 1)) duration_max) (max_cooldown c).
Proof.
  intros Hc Hn. unfold cooldown, saturating_sub, u32_max.
  assert (2 ^ (n - 1) <= 2 ^ 31) by (apply Z.pow_le_mono_r; lia).
  replace (Z.min (Z.max (n - 1) 0) 31) with (n - 1) by lia.
  rewrite (Z.min_l (2 ^ (n - 1))); [done|]. lia.
Qed.

(** The pause a refusal buys is bounded by the configuration, whatever the server
    asked for: never beyond [max_pause], itself at most a day, or [max_cooldown]
    where it named none; what it asked for is kept as it was. *)
Theorem pause_is_bounded shared raw now latency retry_after o :
  config shared = sanitised raw → system_time_ok now → 0 <= max_pause raw → 0 <= c_cooldown raw →
  now + Z.max (from_secs 86400) (max_cooldown (config shared)) <= system_time_max →
  match retry_after with Some asked => 0 <= asked | None => True end →
  let o' := apply shared now latency (Backpressure retry_after) o in
  ∃ pause, resume_at o' = Some (now + pause) ∧ retry_after_requested o' = retry_after ∧
    pause_remaining now o' = pause ∧
    match retry_after with
    | Some asked => pause = Z.min asked (max_pause (config shared)) ∧ pause <= from_secs 86400
    | None => pause = cooldown (config shared) (refusals o') ∧ pause <= max_cooldown (config shared)
    end.
Proof.
  intros Hcfg Hnow Hmp Hcd Hroom Hasked. cbv zeta. cbn [apply]. unfold refuse.
  assert (Hadd : ∀ p, 0 <= p <= Z.max (from_secs 86400) (max_cooldown (config shared)) → deadline now p = now + p).
  { intros p Hp. unfold deadline. assert (checked_add now p = Some (now + p)) as ->; [|done].
    apply checked_add_Some. split; [done|]. unfold system_time_ok in *. lia. }
  assert (Hmax : max_pause (config shared) = Z.min (max_pause raw) (from_secs 86400)) by (by rewrite Hcfg).
  assert (Hday : 0 <= from_secs 86400) by (by vm_compute).
  set (k := Z.min (refusals o + 1) u32_max).
  assert (Hpow : 0 <= 2 ^ Z.min (saturating_sub k 1) 31) by (by apply Z.pow_nonneg).
  assert (Hcool : 0 <= cooldown (config shared) k <= max_cooldown (config shared)).
  { unfold cooldown, duration_max, u32_max, nanos. rewrite Hcfg. cbn [c_cooldown max_cooldown sanitised]. nia. }
  destruct o as [l f ce b t n p sa r kk a u h i]. cbn -[Z.max Z.min cooldown] in *. fold k.
  destruct retry_after as [asked|]; cbn -[Z.max Z.min cooldown].
  - exists (Z.min asked (max_pause (config shared))). rewrite Hadd by lia. split_and!; done || lia.
  - exists (cooldown (config shared) k). rewrite Hadd by lia. split_and!; done || lia.
Qed.

(** ** Where the documentation promises more *)

(** A [Retry-After] is obeyed only until the next refusal: a sibling already in
    flight whose refusal names a shorter wait, or none, replaces it. *)
Theorem later_refusal_shortens_pause shared now now' latency asked asked' o :
  0 <= asked' < asked → asked <= max_pause (config shared) → now <= now' < now + (asked - asked') →
  system_time_ok now → system_time_ok (now + asked) →
  let o1 := apply shared now latency (Backpressure (Some asked)) o in
  let o2 := apply shared now' latency (Backpressure (Some asked')) o1 in
  resume_at o1 = Some (now + asked) ∧ resume_at o2 = Some (now' + asked') ∧ now' + asked' < now + asked.
Proof.
  intros Ha Hm Hn Hnow Hend. cbv zeta. unfold system_time_ok in *.
  assert (Hadd : ∀ t p, 0 <= p → system_time_min <= t → t + p <= system_time_max → deadline t p = t + p).
  { intros t p ???. unfold deadline. assert (checked_add t p = Some (t + p)) as ->; [|done].
    apply checked_add_Some. split; [done|]. unfold system_time_ok. lia. }
  destruct o. cbn -[Z.max Z.min]. rewrite !Z.min_l by lia. rewrite !Hadd by lia. split_and!; done || lia.
Qed.

Lemma later_refusal_shortens_pause_witness :
  let shared := mk_shared default_config None in
  let o := origin_new default_config in
  let o1 := apply shared 0 0 (Backpressure (Some (from_secs 3600))) o in
  let o2 := apply shared nanos 0 (Backpressure (Some (from_secs 1))) o1 in
  resume_at o1 = Some (0 + from_secs 3600) ∧ resume_at o2 = Some (nanos + from_secs 1) ∧
  nanos + from_secs 1 < 0 + from_secs 3600.
Proof.
  apply (later_refusal_shortens_pause (mk_shared default_config None) 0 nanos 0 (from_secs 3600) (from_secs 1));
    split_and?; by vm_compute.
Defined.

(** A hold no instant can express is no hold at all: the fallback of [deadline] is
    reached, and the limit may rise at once. *)
Theorem unbounded_hold_is_no_hold shared now latency b o :
  hold (config shared) = duration_max → 0 <= now <= system_time_max →
  probe_samples o + 1 = c_probe (config shared) → 0 <= probe_samples o → baseline o = Some b →
  degraded_from (config shared) b (probe_mean o latency) = true →
  hold_until (apply shared now latency Healthy o) = Some now.
Proof.
  intros Hh Hnow Hp Hn Hb Hd. cbn [apply]. unfold healthy. pose proof (probe_mean_eq o latency Hn) as Hmean.
  destruct o as [l f ce b0 t n p sa r k a u h i]. cbv zeta.
  cbn [set_probe probe_total probe_samples baseline] in *. subst b0.
  rewrite Hp, Z.ltb_irrefl, <- Hp, Hmean, Hd. cbn -[deadline Z.div]. f_equal.
  unfold deadline. rewrite Hh. assert (checked_add now duration_max = None) as ->; [|done].
  apply checked_add_None; [|by vm_compute|]; unfold system_time_ok, system_time_min, system_time_max, duration_max, nanos in *; lia.
Qed.

Lemma unbounded_hold_is_no_hold_witness :
  let cfg := mk_config 1 6 1 1 two duration_max 0 0 0 1 in
  let o := mk_origin 4 0 6 (Some (from_secs 1)) 0 0 0 false false 0 None None None None in
  hold_until (apply (mk_shared cfg None) 0 (from_secs 3) Healthy o) = Some 0.
Proof.
  cbv zeta. apply (unbounded_hold_is_no_hold _ 0 (from_secs 3) (from_secs 1)); split_and?; by vm_compute.
Defined.

(** Refusals of requests that were in flight together compound: each halves what the
    one before it left, so [n] answers to one level take the limit to its [2^n]th
    part and not to its half. *)
Theorem refusals_compound shared now latency retry_after n o :
  config_ok (config shared) → origin_ok (config shared) o →
  limit (Nat.iter n (apply shared now latency (Backpressure retry_after)) o) =
  Z.max (limit o / 2 ^ Z.of_nat n) (c_min (config shared)).
Proof.
  intros Hc Ho. pose proof Ho as [Hl _ _ _ _ _ _ _]. pose proof Hc as [Hm _ _ _]. induction n as [|n IH].
  { simpl. rewrite Z.div_1_r. lia. }
  set (x := Nat.iter n _ o) in *. rewrite Nat.iter_succ. fold x.
  assert (Hx : origin_ok (config shared) x).
  { unfold x. clear -Hc Ho. induction n; simpl; [done|]. by apply refuse_ok. }
  assert (Hstep : limit (apply shared now latency (Backpressure retry_after) x) = Z.max (limit x / 2) (c_min (config shared))).
  { destruct Hx, Hc. pose proof (half_between (limit x)). cbn [apply]. unfold refuse. clearbody x. clear IH. law; lia. }
  rewrite Hstep, IH, Nat2Z.inj_succ, Z.pow_succ_r, (Z.mul_comm 2), <- Z.div_div by lia.
  set (q := limit o / 2 ^ Z.of_nat n). Z.to_euclidean_division_equations. lia.
Qed.

(** A flagged origin is still halved by a slow probe. *)
Example a_frozen_limit_halves :
  let o := mk_origin 4 0 6 (Some (from_secs 1)) 0 4 0 false true 0 None None None None in
  limit (apply (mk_shared default_config None) 0 (from_secs 30) Healthy o) = 2.
Proof. vm_compute. reflexivity. Qed.

(** Twenty-five healthy responses do buy the second slot when a caller queued. *)
Example the_second_slot :
  let report := Return nanos 57000000 (Some Healthy) in
  let shared := mk_shared default_config None in
  limit (entry shared (Take true :: repeat report 24)) = 1 ∧ limit (entry shared (Take true :: repeat report 25)) = 2.
Proof. vm_compute. split; reflexivity. Qed.

(** ** Retry-After *)

Section Retry_after_facts.
Context `{HeaderValueApi} `{HeaderMapApi}.

(** What one field of a response reads as a date. *)
Definition date_field (headers : HeaderMap) (name : str) : option SystemTime :=
  value ← hm_get headers name; value ← to_str value; RetryDate.http_date value.

(** [Retry-After] in its two forms.  Seconds are taken at face value; a date is
    measured from the response's own [Date] where that parses, so the client's
    clock cannot change the answer; a date already past is no wait; and a value
    that is neither is no instruction. *)
Theorem retry_after_exact headers now v text :
  hm_get headers b#"retry-after" = Some v → to_str v = Some text →
  retry_after_delay headers now =
  match parse_u64 (trim text), RetryDate.http_date (trim text) with
  | Some seconds, _ => Some (from_secs seconds)
  | None, Some target =>
      Some (Z.max (target - match date_field headers b#"date" with Some sent => sent | None => now end) 0)
  | None, None => None
  end.
Proof.
  intros Hv Ht. unfold retry_after_delay. rewrite Hv. cbn [mbind option_bind]. rewrite Ht. cbn [mbind option_bind].
  destruct (parse_u64 (trim text)); [done|]. destruct (RetryDate.http_date (trim text)); [|done].
  cbn [mbind option_bind]. fold (date_field headers b#"date"). rewrite since_or_zero_spec.
  by destruct (date_field headers b#"date").
Qed.
End Retry_after_facts.

Section Retry_after_sample.
Import Sample.

Definition slow_down : @HeaderMap sample_header_map :=
  [(b#"date", b#"Sun, 06 Nov 1994 08:49:37 GMT"); (b#"retry-after", b#"Sun, 06 Nov 1994 08:59:37 GMT")].

Lemma retry_after_exact_witness :
  retry_after_delay slow_down 0 = Some (from_secs 600).
Proof.
  rewrite (retry_after_exact slow_down 0 b#"Sun, 06 Nov 1994 08:59:37 GMT" b#"Sun, 06 Nov 1994 08:59:37 GMT");
    vm_compute; reflexivity.
Defined.
End Retry_after_sample.

(** ** Witnesses *)

Definition sample_shared : Shared := mk_shared (sanitised default_config) None.
Definition recovering : Shared := mk_shared (sanitised default_config) (Some (from_secs 600)).
Definition at_six : Origin := mk_origin 6 3 6 (Some 57000000) 0 0 0 true false 0 None None None None.

Lemma at_six_ok : origin_ok (sanitised default_config) at_six.
Proof. split; split_and?; by vm_compute. Qed.

Definition one_short : Origin := mk_origin 3 3 6 (Some 57000000) 228000000 4 3 true false 0 None None None None.

Lemma one_short_ok : origin_ok (sanitised default_config) one_short.
Proof. split; split_and?; by vm_compute. Qed.

Lemma increase_rule_witness :
  limit (apply sample_shared nanos 57000000 Healthy one_short) = 4.
Proof.
  destruct (increase_rule sample_shared (sanitised_ok _) nanos 57000000 Healthy one_short one_short_ok) as [Hiff Hby].
  apply Hby, Hiff. split; [done|]. split; [done| |by vm_compute|done|intros ? [=]|done|by vm_compute].
  exists 57000000. split; by vm_compute.
Defined.

Lemma refusal_freezes_witness :
  limit (run sample_shared (Take true :: repeat (Return nanos 57000000 (Some Healthy)) 30)
    (apply sample_shared nanos 57000000 Refused one_short)) <= 3.
Proof. apply (refusal_freezes sample_shared (sanitised_ok _) nanos 57000000 _ one_short one_short_ok). Defined.

Lemma refusal_is_a_ratchet_witness :
  limit (run sample_shared (Take true :: repeat (Return nanos 57000000 (Some Healthy)) 60)
    (apply sample_shared nanos 57000000 (Backpressure None) at_six)) <= 3.
Proof.
  apply (refusal_is_a_ratchet sample_shared (sanitised_ok _) nanos 57000000 None _ at_six at_six_ok eq_refl).
Defined.

Lemma ramp_is_slow_witness :
  let o := entry sample_shared (Take true :: repeat (Return nanos 57000000 (Some Healthy)) 25) in
  limit o = 1 ∨ (limit o - 1) * slot_cost sample_shared + 5 <= 25.
Proof. apply (ramp_is_slow sample_shared (sanitised_ok _)). Defined.

Lemma recovery_is_paced_witness :
  let o' := run recovering [Return (from_secs 700) 57000000 (Some Healthy)]
              (apply recovering nanos 0 (Backpressure None) at_six) in
  (ceiling o' - 3) * from_secs 600 <= from_secs 700 - nanos.
Proof.
  refine (proj1 (recovery_is_paced recovering (from_secs 600) (sanitised_ok _) eq_refl _ nanos 0 None
    [Return (from_secs 700) 57000000 (Some Healthy)] (from_secs 700) at_six at_six_ok _ _ _));
    cbn [ordered_from]; unfold system_time_ok; split_and?; by vm_compute.
Defined.

Lemma pause_is_bounded_witness :
  let o' := apply sample_shared 0 0 (Backpressure (Some (from_secs 3000000))) at_six in
  pause_remaining 0 o' <= from_secs 86400.
Proof.
  cbv zeta. destruct (pause_is_bounded sample_shared default_config 0 0 (Some (from_secs 3000000)) at_six)
    as (p & _ & _ & -> & _ & Hp); [done|unfold system_time_ok; split; by vm_compute|by vm_compute..|exact Hp].
Defined.
