(* ===== verification/AdaptiveSlots.v ===== *)
(** [chromulate-concurrency]: waiting for a slot of one origin
    (src/crates/chromulate-concurrency/src/adaptive.rs, [OriginState::take_slot],
    [Permit] and [release]).

    Several callers share an entry: a mutex around an [Origin] and a
    [tokio::sync::Notify].  A step of the relation is one critical section or one
    operation of [Notify], so callers interleave between them.  Of [Notify] only the
    documented behaviour is used: [notify_waiters] wakes every [Notified] created
    before it, and stores nothing for later ones. *)
From S2P Require Import Prelude RustTime Adaptive AdaptiveLaw.
Local Open Scope Z_scope.

(** Where a caller is in [take_slot], or after it.  [woken] says that a
    [notify_waiters] has run since the caller's [Notified] was created. *)
Inductive task :=
  | Trying (waited : bool)     (* at the top of the loop *)
  | Registering                (* the first check failed *)
  | Checking (woken : bool)    (* the [Notified] is enabled *)
  | Waiting (woken : bool)     (* the second check failed: [notified.await] *)
  | Holding (waited : bool)    (* a [Permit] *)
  | Notifying                  (* in [release], the lock dropped *)
  | Finished.

Record World := mk_world { w_origin : Origin; w_tasks : list task }.

Definition wake (t : task) : task :=
  match t with Checking _ => Checking true | Waiting _ => Waiting true | t => t end.

Definition set_task (i : nat) (t : task) (w : World) : World := mk_world (w_origin w) (<[i:=t]> (w_tasks w)).

(** One check under the lock: a permit, or the next place in the loop. *)
Definition check (waited : bool) (i : nat) (otherwise : task) (w : World) : World :=
  let '(granted, o) := try_take_slot waited (w_origin w) in
  mk_world o (<[i := if granted then Holding waited else otherwise]> (w_tasks w)).

(** The steps a caller that has arrived takes by itself. *)
Inductive inner : World → World → Prop :=
  | inner_try w i waited : w_tasks w !! i = Some (Trying waited) → inner w (check waited i Registering w)
  | inner_register w i : w_tasks w !! i = Some Registering → inner w (set_task i (Checking false) w)
  | inner_check w i woken : w_tasks w !! i = Some (Checking woken) → inner w (check true i (Waiting woken) w)
  | inner_wake w i : w_tasks w !! i = Some (Waiting true) → inner w (set_task i (Trying true) w)
  | inner_notify w i :
      w_tasks w !! i = Some Notifying →
      inner w (mk_world (w_origin w) (wake <$> <[i:=Finished]> (w_tasks w))).

Section Slots.
Context (shared : Shared).
#[local] Abbreviation c := (config shared).
Context (Hc : config_ok c).

(** Those, a new caller, a permit completed or dropped, and a wait cancelled. *)
Inductive world_step : World → World → Prop :=
  | step_inner w w' : inner w w' → world_step w w'
  | step_arrive w : world_step w (mk_world (w_origin w) (w_tasks w ++ [Trying false]))
  | step_release w i waited now latency signal :
      w_tasks w !! i = Some (Holding waited) →
      world_step w (mk_world (give_back shared now latency signal (w_origin w)) (<[i:=Notifying]> (w_tasks w)))
  | step_cancel w i woken : w_tasks w !! i = Some (Waiting woken) → world_step w (set_task i Finished w).

Definition start : World := mk_world (origin_new c) [].

Definition reachable : World → Prop := rtc world_step start.

(** ** Counting callers *)

Definition held (t : task) : Z := match t with Holding _ => 1 | _ => 0 end.
Definition notifying (t : task) : Z := match t with Notifying => 1 | _ => 0 end.

Definition permits (w : World) : Z := tally held (w_tasks w).

Lemma tally_wake f ts : (∀ t, f (wake t) = f t) → tally f (wake <$> ts) = tally f ts.
Proof. intros Hf. unfold tally. rewrite <- list_fmap_compose. f_equal. apply list_fmap_ext. intros. apply Hf. Qed.

(** ** The invariant *)

Record world_ok (w : World) : Prop := {
  entry_fine : origin_ok c (w_origin w);
  counted : in_flight (w_origin w) = permits w;
  bounded : in_flight (w_origin w) <= c_max c;
  no_lost_wakeup :
    Waiting false ∈ w_tasks w → limit (w_origin w) <= in_flight (w_origin w) ∨ Notifying ∈ w_tasks w;
}.

Lemma take_outcome waited o :
  let '(granted, o') := try_take_slot waited o in
  limit o' = limit o ∧ in_flight o' = in_flight o + (if granted then 1 else 0) ∧
  granted = (in_flight o <? limit o).
Proof. unfold try_take_slot. destruct (in_flight o <? limit o); destruct o, waited; simpl; split_and!; done || lia. Qed.

Lemma elem_of_update (ts : list task) i t u x :
  ts !! i = Some t → x ∈ <[i:=u]> ts → x = u ∨ x ∈ ts.
Proof.
  intros Hi (j & Hj)%list_elem_of_lookup. apply list_lookup_insert_Some in Hj as [(<- & <- & _)|[_ Hj]]; [by left|].
  right. apply list_elem_of_lookup. eauto.
Qed.

Lemma elem_of_kept (ts : list task) i t u x :
  ts !! i = Some t → x ≠ t → x ∈ ts → x ∈ <[i:=u]> ts.
Proof.
  intros Hi Hx (j & Hj)%list_elem_of_lookup. apply list_elem_of_lookup. exists j.
  rewrite list_lookup_insert_ne; [done|]. intros ->. congruence.
Qed.

Lemma check_ok waited i otherwise t w :
  world_ok w → w_tasks w !! i = Some t → held t = 0 → held otherwise = 0 → notifying t = 0 →
  (otherwise = Waiting false → t = Checking false) →
  world_ok (check waited i otherwise w).
Proof using Hc.
  intros [Hok Hcnt Hb Hlost] Hi Ht Hoth Hn Hwait. unfold check.
  pose proof (take_outcome waited (w_origin w)) as Htake.
  assert (Hok' : origin_ok c (try_take_slot waited (w_origin w)).2) by (by apply (step_ok shared Hc _ (Take waited))).
  destruct (try_take_slot waited (w_origin w)) as [granted o']. destruct Htake as (El & Ei & Eg). simpl in Hok'.
  split; cbn [w_origin w_tasks].
  - done.
  - rewrite Ei, Hcnt. unfold permits. cbn [w_tasks]. rewrite (tally_insert _ _ _ _ _ Hi), Ht.
    destruct granted; simpl; lia.
  - destruct Hok. destruct granted; [|lia]. symmetry in Eg. bool_prop. lia.
  - intros Hw. rewrite El, Ei. destruct granted.
    + apply (elem_of_update _ _ _ _ _ Hi) in Hw as [[=]|Hw]. destruct (Hlost Hw) as [?|Hnot]; [left; lia|right].
      apply (elem_of_kept _ _ _ _ _ Hi); [by intros <-|done].
    + symmetry in Eg. bool_prop. left. lia.
Qed.

Lemma set_ok i t u w :
  world_ok w → w_tasks w !! i = Some t → held t = held u → notifying t = 0 → u ≠ Waiting false →
  world_ok (set_task i u w).
Proof using Type.
  intros [Hok Hcnt Hb Hlost] Hi Ht Hn Hu. split; cbn [set_task w_origin w_tasks]; [done| |done|].
  - rewrite Hcnt. unfold permits. cbn [set_task w_tasks]. rewrite (tally_insert _ _ _ _ _ Hi). lia.
  - intros Hw. apply (elem_of_update _ _ _ _ _ Hi) in Hw as [Hw|Hw]; [by rewrite Hw in Hu|].
    destruct (Hlost Hw) as [?|Hnot]; [by left|right]. apply (elem_of_kept _ _ _ _ _ Hi); [by intros <-|done].
Qed.

Lemma inner_ok w w' : world_ok w → inner w w' → world_ok w'.
Proof using Hc.
  intros Hw Hs. destruct Hs as [w i waited Hi|w i Hi|w i woken Hi|w i Hi|w i Hi].
  - by eapply check_ok.
  - by eapply set_ok.
  - eapply check_ok; try done. by intros [= ->].
  - by eapply set_ok.
  - destruct Hw as [Hok Hcnt Hb Hlost]. split; cbn [w_origin w_tasks]; [done| |done|].
    + rewrite Hcnt. unfold permits. cbn [w_tasks]. rewrite tally_wake by (by intros []).
      rewrite (tally_insert _ _ _ _ _ Hi). simpl. lia.
    + intros (t & Ht & _)%list_elem_of_fmap. by destruct t.
Qed.

Lemma world_step_ok w w' : world_ok w → world_step w w' → world_ok w'.
Proof using Hc.
  intros Hw Hs. destruct Hs as [w w' Hs|w|w i waited now latency signal Hi|w i woken Hi].
  - by eapply inner_ok.
  - destruct Hw as [Hok Hcnt Hb Hlost]. split; cbn [w_origin w_tasks]; [done| |done|].
    + rewrite Hcnt. unfold permits. cbn [w_tasks]. rewrite tally_app. unfold tally at 3. simpl. lia.
    + rewrite !elem_of_app. intros [Hw|Hw%list_elem_of_singleton]; [|done].
      destruct (Hlost Hw); [by left|right; by left].
  - destruct Hw as [Hok Hcnt Hb Hlost].
    assert (Hif : in_flight (give_back shared now latency signal (w_origin w)) = saturating_sub (in_flight (w_origin w)) 1).
    { generalize (w_origin w). intros o. unfold give_back. destruct signal as [s|]; [|by destruct o].
      destruct s; cbn [apply]; unfold healthy, credit_clean_probe, relax_ceiling, refuse, limit_changed, abandon_probe; law; done. }
    assert (Hpos : 1 <= permits w).
    { by apply (tally_elem held _ _ _ ltac:(by intros []) Hi). }
    unfold saturating_sub in Hif. split; cbn [w_origin w_tasks].
    + by apply (step_ok shared Hc _ (Return now latency signal)).
    + rewrite Hif. unfold permits in *. cbn [w_tasks]. rewrite (tally_insert _ _ _ _ _ Hi). simpl. lia.
    + rewrite Hif. lia.
    + intros _. right. apply list_elem_of_lookup. exists i. apply list_lookup_insert_eq. by eapply lookup_lt_Some.
  - by eapply set_ok.
Qed.

Lemma reachable_ok w : reachable w → world_ok w.
Proof using Hc.
  intros Hr. assert (Hstart : world_ok start).
  { split; simpl; [by apply origin_new_ok|done|destruct Hc; lia|by intros ?%elem_of_nil]. }
  revert Hstart. unfold reachable in Hr. induction Hr as [|x y z Hs _ IH]; [done|].
  intros Hx. by eapply IH, world_step_ok.
Qed.

(** ** Termination *)

(** How far a caller is from waiting unwoken, or from being done. *)
Definition weight (t : task) : Z :=
  match t with
  | Checking true => 5 | Waiting true => 4 | Trying _ => 3 | Registering => 2 | Checking false => 1
  | _ => 0
  end.

Definition measure (w : World) : Z :=
  tally notifying (w_tasks w) * (5 * zlen (w_tasks w) + 1) + tally weight (w_tasks w).

Lemma measure_nonneg w : 0 <= measure w.
Proof.
  unfold measure. pose proof (tally_nonneg notifying (w_tasks w) ltac:(by intros [])).
  pose proof (tally_nonneg weight (w_tasks w) ltac:(by intros [| |[]|[]| | |])).
  pose proof (zlen_nonneg (w_tasks w)). nia.
Qed.

Lemma zlen_insert (ts : list task) i u : zlen (<[i:=u]> ts) = zlen ts.
Proof. unfold zlen. by rewrite length_insert. Qed.

Lemma measure_set o o' ts i t u :
  ts !! i = Some t → notifying t = 0 → notifying u = 0 → weight u < weight t →
  measure (mk_world o (<[i:=u]> ts)) < measure (mk_world o' ts).
Proof.
  intros Hi Ht Hu Hw. unfold measure. cbn [w_tasks]. rewrite zlen_insert, !(tally_insert _ _ _ _ _ Hi), Ht, Hu. lia.
Qed.

Lemma weight_wake ts : tally weight (wake <$> ts) <= tally weight ts + 5 * zlen ts.
Proof.
  induction ts as [|t ts IH]; [by vm_compute|]. rewrite fmap_cons, !tally_cons, zlen_cons.
  assert (weight (wake t) <= weight t + 5) by (by destruct t as [| |[]|[]| | |]). lia.
Qed.

Lemma inner_measure w w' : inner w w' → measure w' < measure w.
Proof.
  intros Hs. destruct Hs as [w i waited Hi|w i Hi|w i woken Hi|w i Hi|w i Hi]; destruct w as [o ts]; cbn [w_tasks w_origin] in *.
  - unfold check. cbn [w_origin w_tasks]. destruct (try_take_slot waited o) as [[] ?]; by eapply measure_set.
  - by eapply measure_set.
  - unfold check. cbn [w_origin w_tasks]. destruct (try_take_slot true o) as [[] ?]; eapply measure_set; try done; by destruct woken.
  - by eapply measure_set.
  - unfold measure. cbn [w_tasks]. rewrite tally_wake by (by intros []).
    pose proof (weight_wake (<[i:=Finished]> ts)) as Hw. unfold zlen in *. rewrite length_fmap.
    rewrite length_insert in *. rewrite !(tally_insert _ _ _ _ _ Hi) in *. simpl weight in *. simpl notifying in *.
    pose proof (tally_nonneg notifying ts ltac:(by intros [])). nia.
Qed.

(** Nothing spins: whatever the interleaving, callers that have arrived take finitely
    many steps before each holds a permit, is done, or waits unwoken. *)
Lemma inner_terminates : well_founded (λ w' w, inner w w').
Proof.
  intros w. remember (Z.to_nat (measure w)) as n eqn:Hn. revert w Hn.
  induction n as [n IH] using lt_wf_ind. intros w ->. constructor. intros w' Hs. eapply (IH (Z.to_nat (measure w'))); [|done].
  apply inner_measure in Hs. pose proof (measure_nonneg w'). lia.
Qed.

(** ** What holds of every interleaving *)

(** C16. At most the configured maximum of an entry's permits are ever out, and as
    many as [in_flight] counts, over every interleaving of arrivals, grants,
    completions, drops, cancellations and wake-ups; and no grant takes the count
    beyond the limit in force. *)
Theorem slots_are_counted w :
  reachable w →
  permits w = in_flight (w_origin w) ∧ permits w <= c_max c ∧
  ∀ w', world_step w w' → permits w < permits w' → permits w' <= limit (w_origin w').
Proof using Hc.
  intros Hr. pose proof (reachable_ok w Hr) as Hw. pose proof Hw as [Hok Hcnt Hb _]. split_and!; [done|lia|].
  intros w' Hs Hlt. pose proof (world_step_ok w w' Hw Hs) as [_ Hcnt' _ _].
  assert (Hcheck : ∀ i t waited u, w_tasks w !! i = Some t → held t = 0 → held u = 0 →
    permits w < permits (check waited i u w) → permits (check waited i u w) <= limit (w_origin (check waited i u w))).
  { intros i t waited u Hi Ht Hu. unfold check. pose proof (take_outcome waited (w_origin w)) as Htake.
    destruct (try_take_slot waited (w_origin w)) as [granted o']. destruct Htake as (El & _ & Eg).
    unfold permits in *. cbn [w_tasks w_origin]. rewrite (tally_insert _ _ _ _ _ Hi), Ht, El.
    destruct granted; [|lia]. symmetry in Eg. bool_prop. simpl. lia. }
  destruct Hs as [w w' Hs|w|w i waited now latency signal Hi|w i woken Hi].
  - destruct Hs as [w i waited Hi|w i Hi|w i woken Hi|w i Hi|w i Hi]; try by eapply Hcheck.
    1,2: unfold permits in Hlt; cbn [set_task w_tasks] in Hlt; rewrite (tally_insert _ _ _ _ _ Hi) in Hlt; simpl in Hlt; lia.
    unfold permits in Hlt. cbn [w_tasks] in Hlt. rewrite tally_wake, (tally_insert _ _ _ _ _ Hi) in Hlt by (by intros []).
    simpl in Hlt. lia.
  - unfold permits in Hlt. cbn [w_tasks] in Hlt. rewrite tally_app in Hlt. unfold tally at 3 in Hlt. simpl in Hlt. lia.
  - unfold permits in Hlt. cbn [w_tasks] in Hlt. rewrite (tally_insert _ _ _ _ _ Hi) in Hlt. simpl in Hlt. lia.
  - unfold permits in Hlt. cbn [set_task w_tasks] in Hlt. rewrite (tally_insert _ _ _ _ _ Hi) in Hlt. simpl in Hlt. lia.
Qed.

Definition quiescent (w : World) : Prop := ∀ w', ¬ inner w w'.

Lemma quiescent_tasks w t :
  quiescent w → t ∈ w_tasks w → (∃ waited, t = Holding waited) ∨ t = Finished ∨ t = Waiting false.
Proof.
  intros Hq (i & Hi)%list_elem_of_lookup.
  destruct t as [waited| |woken|[]|waited| |]; eauto; exfalso; eapply Hq; by econstructor.
Qed.

(** C15. No caller is stranded: whatever the interleaving, the callers of an entry can
    take only finitely many steps by themselves; and once they have, one that still
    waits does so behind permits that are out, as many as the limit allows and at
    least one.  A cancelled wait, a dropped permit and a limit that moves lose no
    wake-up. *)
Theorem waits_behind_a_holder w :
  reachable w →
  Acc (λ w' w, inner w w') w ∧
  (quiescent w →
  (∀ t, t ∈ w_tasks w → (∃ waited, t = Holding waited) ∨ t = Finished ∨ t = Waiting false) ∧
  (Waiting false ∈ w_tasks w → limit (w_origin w) <= permits w ∧ 1 <= permits w)).
Proof using Hc.
  intros Hr. split; [apply inner_terminates|]. intros Hq.
  pose proof (reachable_ok w Hr) as [Hok Hcnt _ Hlost]. split; [by intros t; apply quiescent_tasks|].
  intros Hw. destruct (Hlost Hw) as [Hle|Hn].
  - destruct Hok, Hc. lia.
  - destruct (quiescent_tasks w Notifying Hq Hn) as [[? [=]]|[[=]|[=]]].
Qed.
End Slots.

(** ** Two callers, one slot *)

Section Contended.
Let shared : Shared := mk_shared (sanitised default_config) None.

Definition after_two : World :=
  mk_world (set_in_flight 1 (origin_new (sanitised default_config))) [Holding false; Waiting false].

Lemma after_two_reachable : reachable shared after_two.
Proof.
  unfold reachable. eapply rtc_l; [apply step_arrive|]. eapply rtc_l; [apply step_arrive|].
  eapply rtc_l; [apply step_inner, (inner_try _ 0 false); reflexivity|].
  eapply rtc_l; [apply step_inner, (inner_try _ 1 false); reflexivity|].
  eapply rtc_l; [apply step_inner, (inner_register _ 1); reflexivity|].
  eapply rtc_l; [apply step_inner, (inner_check _ 1 false); reflexivity|].
  apply rtc_refl.
Qed.

Lemma slots_are_counted_witness : permits after_two = 1 ∧ permits after_two <= 6.
Proof.
  destruct (slots_are_counted shared (sanitised_ok _) after_two after_two_reachable) as (Hc & Hle & _). split; [|exact Hle].
  rewrite Hc. reflexivity.
Defined.

Lemma waits_behind_a_holder_witness : limit (w_origin after_two) <= permits after_two ∧ 1 <= permits after_two.
Proof.
  apply (waits_behind_a_holder shared (sanitised_ok _) after_two after_two_reachable); [|by right; left].
  intros w' Hs. inversion Hs as [w i waited Hi|w i Hi|w i woken Hi|w i Hi|w i Hi]; subst;
    by destruct i as [|[|i]].
Defined.
End Contended.
