(* ===== verification/AdaptiveStore.v ===== *)
(** [chromulate-concurrency]: the entries an [AdaptiveConcurrency] remembers
    (src/crates/chromulate-concurrency/src/adaptive.rs, [Store], [state_for],
    [snapshot], [forget]).

    An entry is an [Arc]: the store maps an authority to its address, and a permit or
    a caller on its way to one holds the address itself, so that an entry outlives
    its eviction.  A step is what happens under one lock: [state_for_at] covers both
    of [state_for]'s lookups, the sequence number having been drawn before. *)
From S2P Require Import Prelude RustStr RustTime RustFloat Eviction Adaptive AdaptiveLaw.
Local Open Scope Z_scope.

Record OriginState := mk_state { inner : Origin; last_use_seq : Z }.

Record AdaptiveConcurrency := mk_controller {
  shared : Shared;
  origins : gmap str nat;
  states : gmap nat OriginState;
  seq : Z;
}.

Definition with_config (c : ConcurrencyConfig) : AdaptiveConcurrency :=
  mk_controller (mk_shared (sanitised c) None) ∅ ∅ 0.

Definition with_ceiling_recovery (interval : Duration) (a : AdaptiveConcurrency) : AdaptiveConcurrency :=
  mk_controller (mk_shared (config (shared a)) (Some interval)) (origins a) (states a) (seq a).

Definition with_states (s : gmap nat OriginState) (a : AdaptiveConcurrency) : AdaptiveConcurrency :=
  mk_controller (shared a) (origins a) s (seq a).

(** [self.seq.fetch_add(1)]. *)
Definition next_seq (a : AdaptiveConcurrency) : Z * AdaptiveConcurrency :=
  (seq a, mk_controller (shared a) (origins a) (states a) (wrap64 (seq a + 1))).

(** Another thread holds the entry's mutex: [try_lock] fails. *)
Section Evict.
Context (locked : nat → bool) (c : ConcurrencyConfig) (states : gmap nat OriginState).

Definition evict_busy (k : str) (a : nat) : bool :=
  locked a || match states !! a with Some s => 0 <? in_flight (inner s) | None => false end.

Definition evict_rank (a : nat) : bool * Z :=
  match states !! a with Some s => (has_lesson c (inner s), last_use_seq s) | None => (false, 0) end.

Definition evict_skip (protect k : str) (a : nat) : bool := bool_decide (k = protect) || evict_busy k a.

Definition evict (protect : str) (origins : gmap str nat) : gmap str nat :=
  evict_idle (evict_skip protect) evict_rank (capacity c) (purge_target c) origins.
End Evict.

Definition state_for_at (s : Z) (locked : nat → bool) (authority : str) (a : AdaptiveConcurrency) : nat * AdaptiveConcurrency :=
  match origins a !! authority with
  | Some p => (p, with_states (alter (λ st, mk_state (inner st) s) p (states a)) a)
  | None =>
      let c := config (shared a) in
      let p := fresh (dom (states a)) in
      let states := <[p := mk_state (origin_new c) s]> (states a) in
      (p, mk_controller (shared a) (evict locked c states authority (<[authority := p]> (origins a))) states (seq a))
  end.

(** A step of the control law on an entry, through its address. *)
Definition with_entry (p : nat) (f : Origin → Origin) (a : AdaptiveConcurrency) : AdaptiveConcurrency :=
  with_states (alter (λ st, mk_state (f (inner st)) (last_use_seq st)) p (states a)) a.

Definition take_at (waited : bool) (p : nat) (a : AdaptiveConcurrency) : bool * AdaptiveConcurrency :=
  (match states a !! p with Some st => (try_take_slot waited (inner st)).1 | None => false end,
   with_entry p (λ o, (try_take_slot waited o).2) a).

Definition snapshot (authority : str) (now : SystemTime) (a : AdaptiveConcurrency) : option OriginSnapshot :=
  p ← origins a !! authority; st ← states a !! p; Some (snapshot_of now (inner st)).

Definition forget (authority : str) (a : AdaptiveConcurrency) : bool * AdaptiveConcurrency :=
  (bool_decide (is_Some (origins a !! authority)),
   mk_controller (shared a) (delete authority (origins a)) (states a) (seq a)).

(** Every address the store holds is an entry, and no two authorities share one. *)
Record store_ok (a : AdaptiveConcurrency) : Prop := {
  known : ∀ k p, origins a !! k = Some p → is_Some (states a !! p);
  apart : ∀ k k' p, origins a !! k = Some p → origins a !! k' = Some p → k = k';
  sane : config_ok (config (shared a)) ∧ 1 <= capacity (config (shared a));
}.

Lemma purge_target_range c : 1 <= capacity c → 0 <= purge_target c <= capacity c.
Proof. unfold purge_target, purge_batch, saturating_sub. intros. Z.to_euclidean_division_equations. lia. Qed.

Lemma with_config_ok c : store_ok (with_config c).
Proof. split; simpl; [done..|]. split; [apply sanitised_ok|lia]. Qed.

Lemma with_states_ok a s :
  store_ok a → (∀ p, is_Some (states a !! p) → is_Some (s !! p)) → store_ok (with_states s a).
Proof. intros [Hk Ha Hs] Hmore. split; simpl; eauto. Qed.

Lemma alter_known (f : OriginState → OriginState) p (s : gmap nat OriginState) q :
  is_Some (s !! q) → is_Some (alter f p s !! q).
Proof. intros [x Hx]. rewrite lookup_alter. case_decide; subst; rewrite ?Hx; eauto. Qed.

Lemma state_for_ok s locked k a : store_ok a → store_ok (state_for_at s locked k a).2.
Proof.
  intros Ha. unfold state_for_at. destruct (origins a !! k) as [p|] eqn:Hk; simpl.
  { apply with_states_ok; [done|]. intros q. apply alter_known. }
  destruct Ha as [Hkn Hap [Hc Hcap]]. set (p := fresh _). set (st := <[p:=_]> _).
  assert (Hfresh : states a !! p = None) by (apply not_elem_of_dom, is_fresh).
  destruct (evict_idle_spec (evict_skip locked st k) (evict_rank (config (shared a)) st) _ _ (<[k:=p]> (origins a))
    (purge_target_range _ Hcap)) as (Hsub & _).
  assert (Hin : ∀ k' p', evict locked (config (shared a)) st k (<[k:=p]> (origins a)) !! k' = Some p' →
    (k' = k ∧ p' = p) ∨ (k' ≠ k ∧ p' ≠ p ∧ origins a !! k' = Some p')).
  { intros k' p' Hl. apply (lookup_weaken _ _ _ _ Hl) in Hsub. apply lookup_insert_Some in Hsub as [[<- <-]|[Hne Hl']]; [by left|].
    right. split_and!; [done| |done]. intros ->. destruct (Hkn _ _ Hl') as [x Hx]. congruence. }
  split; simpl; [|..|done].
  - intros k' p' Hl. unfold st. destruct (Hin _ _ Hl) as [[_ ->]|(_ & Hp & Hl')]; [rewrite lookup_insert_eq; eauto|].
    rewrite lookup_insert_ne by done. by eapply Hkn.
  - intros k1 k2 p' H1 H2. destruct (Hin _ _ H1) as [[-> ->]|(? & ? & ?)], (Hin _ _ H2) as [[-> ?]|(? & ? & ?)]; try done.
    by eapply Hap.
Qed.

(** ** Eviction *)

(** An entry with a slot out, or whose lock another thread holds. *)
Definition pinned (locked : nat → bool) (a : AdaptiveConcurrency) (p : nat) : Prop :=
  locked p = true ∨ ∃ st, states a !! p = Some st ∧ 0 < in_flight (inner st).

Lemma evict_busy_pinned locked st p k :
  evict_busy locked st k p = true ↔ locked p = true ∨ ∃ x, st !! p = Some x ∧ 0 < in_flight (inner x).
Proof.
  unfold evict_busy. rewrite orb_true_iff. destruct (st !! p) as [x|]; [rewrite Z.ltb_lt|]; naive_solver.
Qed.

(** Remembering one more authority gives it an entry of its own; forgets no
    entry with a slot out, nor the newcomer; keeps those with a lesson before those
    with none and the recently used before the others; and leaves no more entries
    than the capacity, or than are pinned where that is more. *)
Theorem remembering_evicts_idle s locked k a :
  store_ok a → origins a !! k = None →
  let '(p, a') := state_for_at s locked k a in
  origins a' !! k = Some p ∧ states a' !! p = Some (mk_state (origin_new (config (shared a))) s) ∧
  (∀ k' p', origins a !! k' = Some p' → pinned locked a p' → origins a' !! k' = Some p') ∧
  (∀ k1 p1 k2 p2, origins a !! k1 = Some p1 → origins a' !! k1 = None →
     origins a' !! k2 = Some p2 → k2 ≠ k → ¬ pinned locked a p2 →
     ¬ lexico (evict_rank (config (shared a)) (states a) p2, k2) (evict_rank (config (shared a)) (states a) p1, k1)) ∧
  (msize (origins a') <= capacity (config (shared a)) ∨
   ∀ k' p', origins a' !! k' = Some p' → k' ≠ k → pinned locked a p').
Proof.
  intros [Hkn Hap [Hc Hcap]] Hnone. unfold state_for_at. rewrite Hnone. cbn [origins states fst snd].
  set (p := fresh _). set (st := <[p:=_]> _). set (c := config (shared a)) in *.
  assert (Hfresh : states a !! p = None) by (apply not_elem_of_dom, is_fresh).
  assert (Hold : ∀ k' p', origins a !! k' = Some p' → p' ≠ p ∧ st !! p' = states a !! p').
  { intros k' p' Hl. assert (p' ≠ p) by (intros ->; destruct (Hkn _ _ Hl); congruence).
    split; [done|]. unfold st. by rewrite lookup_insert_ne. }
  destruct (evict_idle_spec (evict_skip locked st k) (evict_rank c st) (capacity c) (purge_target c) (<[k:=p]> (origins a)))
    as (Hsub & Hkeep & Hworst & Hsize); [by apply purge_target_range|].
  fold (evict locked c st k (<[k:=p]> (origins a))) in *. set (o' := evict _ _ _ _ _) in *.
  assert (Hwas : ∀ k' p', o' !! k' = Some p' → k' ≠ k → origins a !! k' = Some p').
  { intros k' p' Hl Hne. apply (lookup_weaken _ _ _ _ Hl) in Hsub. by rewrite lookup_insert_ne in Hsub. }
  assert (Hpin : ∀ k' p', origins a !! k' = Some p' → evict_busy locked st k' p' = true ↔ pinned locked a p').
  { intros k' p' Hl. rewrite evict_busy_pinned. unfold pinned. by destruct (Hold _ _ Hl) as [_ ->]. }
  split_and!.
  - apply Hkeep; [by rewrite lookup_insert_eq|]. unfold evictable, evict_skip. by rewrite bool_decide_true.
  - unfold st. by rewrite lookup_insert_eq.
  - intros k' p' Hl Hp. apply Hkeep.
    + rewrite lookup_insert_ne; [done|]. intros ->. congruence.
    + apply (Hpin _ _ Hl) in Hp. unfold evictable, evict_skip. by rewrite Hp, orb_true_r.
  - intros k1 p1 k2 p2 H1 Hgone H2 Hne Hno. pose proof (Hwas _ _ H2 Hne) as H2'.
    assert (Hrank : ∀ q qk, origins a !! qk = Some q → evict_rank c st q = evict_rank c (states a) q).
    { intros q qk Hq. unfold evict_rank. by destruct (Hold _ _ Hq) as [_ ->]. }
    rewrite <- (Hrank _ _ H1), <- (Hrank _ _ H2'). eapply Hworst; [|done|done|].
    + rewrite lookup_insert_ne; [done|]. intros ->. congruence.
    + unfold evictable, evict_skip. rewrite bool_decide_false by done. cbn [orb]. apply not_true_is_false. by rewrite Hpin.
  - destruct (decide (msize o' <= capacity c)) as [|Hbig]; [by left|right]. intros k' p' Hl Hne.
    apply (Hpin k'); [by apply Hwas|]. apply not_false_iff_true. intros Hb.
    apply Z.lt_nge in Hbig. apply (evict_idle_leftovers _ _ _ _ _ _ _ (purge_target_range c Hcap) Hbig Hl).
    unfold evictable, evict_skip. by rewrite bool_decide_false, Hb.
Qed.

(** ** Two sets of slots *)

(** One permit per origin and room for one origin. *)
Definition single : ConcurrencyConfig := mk_config 1 1 1 1 two 0 0 0 0 1.

Definition nobody : nat → bool := λ _, false.

(** Two callers of [a.test] with one visit of [b.test] between them: the first has
    looked its entry up and not taken its slot yet (it waits out a pause, or pays its
    rate), so the entry is idle and goes; the second is given a fresh one. *)
Definition two_callers : bool * bool * option (Z * Z) :=
  let c0 := with_config single in
  let '(first, c1) := state_for_at 0 nobody b#"a.test" c0 in
  let '(_, c2) := state_for_at 1 nobody b#"b.test" c1 in
  let '(second, c3) := state_for_at 2 nobody b#"a.test" c2 in
  let '(granted1, c4) := take_at false first c3 in
  let '(granted2, c5) := take_at false second c4 in
  (granted1, granted2, s ← snapshot b#"a.test" 0 c5; Some (s_limit s, s_in_flight s)).

(** Both are granted, where the limit is one and the snapshot counts one. *)
Theorem waiting_does_not_pin : two_callers = (true, true, Some (1, 1)).
Proof. vm_compute. reflexivity. Qed.

(** ** Witnesses *)

Definition busy_store : AdaptiveConcurrency :=
  (take_at false 0 (state_for_at 0 nobody b#"a.test" (with_config single)).2).2.

Lemma busy_store_ok : store_ok busy_store.
Proof.
  unfold busy_store, take_at, with_entry. apply with_states_ok; [apply state_for_ok, with_config_ok|].
  intros p. apply alter_known.
Qed.

Lemma remembering_evicts_idle_witness :
  origins (state_for_at 1 nobody b#"b.test" busy_store).2 !! b#"a.test" = Some 0%nat.
Proof.
  pose proof (remembering_evicts_idle 1 nobody b#"b.test" busy_store busy_store_ok ltac:(by vm_compute)) as H.
  destruct (state_for_at 1 nobody b#"b.test" busy_store) as [p a'] eqn:E. destruct H as (_ & _ & Hkeep & _).
  apply Hkeep; [by vm_compute|]. right. eexists. split; [by vm_compute|]. by vm_compute.
Defined.
