(* ===== verification/FixedConcurrency.v ===== *)
(** [chromulate-concurrency]: a fixed number of requests in flight per origin
    (src/crates/chromulate-concurrency/src/fixed.rs).

    A gate is an [Arc<Semaphore>] of tokio; the store maps an authority to its
    address, and a lease or a caller waiting for one holds the address itself.  Of the
    semaphore only the documented behaviour is used: it starts with its permits, hands
    one to its longest waiting caller when it has one, and takes back what a permit
    dropped returns.  Paying the caller's [Ceiling] comes before every step here. *)
From S2P Require Import Prelude RustStr Eviction.
Local Open Scope Z_scope.

Definition DEFAULT_FIXED_CAPACITY : Z := 8192.

(** [Semaphore::MAX_PERMITS]. *)
Definition MAX_PERMITS : Z := usize_max / 8.

(** A gate: the permits of its semaphore that are free, and its last use. *)
Record Gate := mk_gate { available : Z; gate_seq : Z }.

(** A caller: waiting on the gate at an address, holding a permit of it, or gone. *)
Inductive caller := Queued (gate : nat) | Leased (gate : nat) | Gone.

#[export] Instance caller_eq_dec : EqDecision caller.
Proof. solve_decision. Defined.

Record Fixed := mk_fixed {
  f_limit : Z;
  f_capacity : Z;
  store : gmap str nat;
  gates : gmap nat Gate;
  f_seq : Z;
  callers : list caller;
}.

Definition new (limit : Z) : Fixed :=
  mk_fixed (Z.min (Z.max limit 1) MAX_PERMITS) DEFAULT_FIXED_CAPACITY ∅ ∅ 0 [].

Definition with_capacity (capacity : Z) (f : Fixed) : Fixed :=
  mk_fixed (f_limit f) (Z.max capacity 1) (store f) (gates f) (f_seq f) (callers f).

Definition set_callers (cs : list caller) (f : Fixed) : Fixed :=
  mk_fixed (f_limit f) (f_capacity f) (store f) (gates f) (f_seq f) cs.

(** Adds to the free permits of a gate. *)
Definition add_permits (n : Z) (p : nat) (f : Fixed) : Fixed :=
  mk_fixed (f_limit f) (f_capacity f) (store f) (alter (λ g, mk_gate (available g + n) (gate_seq g)) p (gates f))
    (f_seq f) (callers f).

Definition fixed_purge_target (capacity : Z) : Z :=
  let batch := Z.max (capacity / 16) 1 in
  Z.max (saturating_sub capacity batch) 1.

Definition in_flight (authority : str) (f : Fixed) : option Z :=
  p ← store f !! authority; g ← gates f !! p; Some (saturating_sub (f_limit f) (available g)).

Definition fixed_forget (authority : str) (f : Fixed) : bool * Fixed :=
  (bool_decide (is_Some (store f !! authority)),
   mk_fixed (f_limit f) (f_capacity f) (delete authority (store f)) (gates f) (f_seq f) (callers f)).

Section Evict.
Context (limit : Z) (gates : gmap nat Gate).

Definition gate_busy (k : str) (p : nat) : bool :=
  match gates !! p with Some g => available g <? limit | None => false end.

Definition gate_rank (p : nat) : Z := match gates !! p with Some g => gate_seq g | None => 0 end.

Definition fixed_evict (capacity : Z) (protect : str) (store : gmap str nat) : gmap str nat :=
  evict_idle (λ k p, bool_decide (k = protect) || gate_busy k p) gate_rank capacity (fixed_purge_target capacity) store.
End Evict.

Definition gate_for (authority : str) (f : Fixed) : nat * Fixed :=
  let s := f_seq f in
  let seq' := wrap64 (f_seq f + 1) in
  match store f !! authority with
  | Some p =>
      (p, mk_fixed (f_limit f) (f_capacity f) (store f) (alter (λ g, mk_gate (available g) s) p (gates f)) seq' (callers f))
  | None =>
      let p := fresh (dom (gates f)) in
      let gates' := <[p := mk_gate (f_limit f) s]> (gates f) in
      (p, mk_fixed (f_limit f) (f_capacity f)
            (fixed_evict (f_limit f) gates' (f_capacity f) authority (<[authority := p]> (store f))) gates' seq' (callers f))
  end.

(** No caller ahead of [i] waits on the gate at [p]. *)
Definition first_in_line (p i : nat) (f : Fixed) : Prop := ∀ j, (j < i)%nat → callers f !! j ≠ Some (Queued p).

Inductive fixed_step : Fixed → Fixed → Prop :=
  | fixed_arrives f authority p f' :
      gate_for authority f = (p, f') →
      fixed_step f (set_callers (callers f' ++ [Queued p]) f')
  | fixed_granted f i p g :
      callers f !! i = Some (Queued p) → first_in_line p i f → gates f !! p = Some g → 1 <= available g →
      fixed_step f (set_callers (<[i := Leased p]> (callers f)) (add_permits (-1) p f))
  | fixed_returned f i p :
      callers f !! i = Some (Leased p) →
      fixed_step f (set_callers (<[i := Gone]> (callers f)) (add_permits 1 p f))
  | fixed_cancelled f i p :
      callers f !! i = Some (Queued p) → fixed_step f (set_callers (<[i := Gone]> (callers f)) f)
  | fixed_forgets f authority : fixed_step f (fixed_forget authority f).2.

(** ** The invariant *)

Definition leased_from (p : nat) (c : caller) : Z := if decide (c = Leased p) then 1 else 0.

Definition leases (p : nat) (f : Fixed) : Z := tally (leased_from p) (callers f).

Record fixed_ok (f : Fixed) : Prop := {
  limit_pos : 1 <= f_limit f <= MAX_PERMITS;
  capacity_pos : 1 <= f_capacity f;
  stored : ∀ k p, store f !! k = Some p → is_Some (gates f !! p);
  balanced : ∀ p g, gates f !! p = Some g → available g = f_limit f - leases p f ∧ 0 <= available g;
  mine : ∀ i p, callers f !! i = Some (Queued p) ∨ callers f !! i = Some (Leased p) → is_Some (gates f !! p);
}.

Lemma leased_from_nonneg p c : 0 <= leased_from p c.
Proof. unfold leased_from. by case_decide. Qed.

Lemma leases_none p f : (∀ i, callers f !! i ≠ Some (Leased p)) → leases p f = 0.
Proof.
  intros Hno. apply Z.le_antisymm; [|apply tally_nonneg, leased_from_nonneg].
  apply Z.le_ngt. intros (c & (i & Hc)%list_elem_of_lookup & Hp)%tally_pos; [|apply leased_from_nonneg].
  unfold leased_from in Hp. case_decide; [|done]. subst c. by apply (Hno i).
Qed.

Lemma fixed_purge_target_range capacity : 1 <= capacity → 0 <= fixed_purge_target capacity <= capacity.
Proof. unfold fixed_purge_target, saturating_sub. intros. Z.to_euclidean_division_equations. lia. Qed.

(** What looking a gate up keeps: the counts of every gate, and the gates there are. *)
Lemma gate_for_ok authority f p f' :
  fixed_ok f → gate_for authority f = (p, f') →
  fixed_ok f' ∧ is_Some (gates f' !! p) ∧ callers f' = callers f ∧ f_limit f' = f_limit f ∧ store f' !! authority = Some p.
Proof.
  intros [Hl Hcap Hst Hbal Hmine] Hg. unfold gate_for in Hg. destruct (store f !! authority) as [q|] eqn:Hq.
  - injection Hg as <- <-. cbn [gates callers f_limit store].
    assert (Hgates : ∀ r, is_Some (gates f !! r) → is_Some (alter (λ g, mk_gate (available g) (f_seq f)) q (gates f) !! r)).
    { intros r [g Hr]. rewrite lookup_alter. case_decide; subst; rewrite ?Hr; eauto. }
    split_and!; eauto. split; cbn [gates callers f_limit f_capacity store]; eauto.
    intros r g. rewrite lookup_alter. case_decide as Hr; [subst|by apply Hbal].
    intros (g' & Hg' & ->)%fmap_Some_1. exact (Hbal _ _ Hg').
  - injection Hg as <- <-. cbn [gates callers f_limit store]. set (q := fresh _). set (gs := <[q:=_]> _).
    assert (Hfresh : gates f !! q = None) by (apply not_elem_of_dom, is_fresh).
    assert (Hgates : ∀ r, is_Some (gates f !! r) → is_Some (gs !! r)).
    { intros r Hr. unfold gs. rewrite lookup_insert. case_decide; eauto. }
    destruct (evict_idle_spec (λ k p, bool_decide (k = authority) || gate_busy (f_limit f) gs k p) (gate_rank gs) (f_capacity f)
      (fixed_purge_target (f_capacity f)) (<[authority:=q]> (store f))) as (Hsub & Hkeep & _);
      [by apply fixed_purge_target_range|].
    split_and!; [|unfold gs; rewrite lookup_insert_eq; eauto|done|done|].
    + split; cbn [gates callers f_limit f_capacity store]; [done|done| |..].
      * intros k r Hr. apply (lookup_weaken _ _ _ _ Hr) in Hsub. apply lookup_insert_Some in Hsub as [[_ <-]|[_ Hr']].
        { unfold gs. rewrite lookup_insert_eq. eauto. }
        by eapply Hgates, Hst.
      * intros r g. unfold gs. rewrite lookup_insert. case_decide as Hr; [|by apply Hbal].
        intros [= <-]. subst r. simpl. unfold leases. cbn [callers]. fold (leases q f). rewrite leases_none; [lia|].
        intros i Hi. destruct (Hmine i q (or_intror Hi)) as [? Hx]. congruence.
      * intros i r Hi. by apply Hgates, (Hmine i).
    + apply Hkeep; [by rewrite lookup_insert_eq|]. unfold evictable. by rewrite bool_decide_true.
Qed.

Lemma leases_app p f c : leases p (set_callers (callers f ++ [c]) f) = leases p f + leased_from p c.
Proof. unfold leases. cbn [set_callers callers]. rewrite tally_app. unfold tally at 2. simpl. lia. Qed.

(** One caller moves from [c] to [c'] while [n] permits move in the gate at [q]. *)
Lemma move_ok f i c c' n q :
  fixed_ok f → callers f !! i = Some c →
  (∀ p, n * (if decide (p = q) then 1 else 0) = leased_from p c - leased_from p c') →
  (∀ g, gates f !! q = Some g → 0 <= available g + n) →
  (∀ p, c' = Queued p ∨ c' = Leased p → is_Some (gates f !! p)) →
  fixed_ok (set_callers (<[i:=c']> (callers f)) (add_permits n q f)).
Proof.
  intros [Hl Hcap Hst Hbal Hmine] Hi Hn Hpos Hnew.
  assert (Hgates : ∀ r, is_Some (gates f !! r) → is_Some (gates (add_permits n q f) !! r)).
  { intros r [g Hr]. cbn [add_permits gates]. rewrite lookup_alter. case_decide; subst; rewrite ?Hr; eauto. }
  split; cbn [set_callers callers gates f_limit f_capacity store add_permits] in *; eauto.
  - intros p g Hp. unfold leases. cbn [set_callers callers add_permits]. rewrite (tally_insert _ _ _ _ _ Hi).
    fold (leases p f). specialize (Hn p). rewrite lookup_alter in Hp. case_decide as Hpq.
    + subst q. apply fmap_Some in Hp as (g0 & Hp & ->). destruct (Hbal _ _ Hp). specialize (Hpos _ Hp). cbn [available].
      rewrite decide_True in Hn by done. lia.
    + destruct (Hbal _ _ Hp). rewrite decide_False in Hn by done. lia.
  - intros j p Hj. apply Hgates. destruct (decide (i = j)) as [<-|Hij].
    + rewrite list_lookup_insert_eq in Hj by (by eapply lookup_lt_Some).
      apply Hnew. destruct Hj as [[= ->]|[= ->]]; auto.
    + rewrite list_lookup_insert_ne in Hj by done. by apply (Hmine j).
Qed.

Lemma add_none q f : add_permits 0 q f = f.
Proof.
  unfold add_permits. destruct f as [l cp s g sq cs]. simpl. f_equal. apply map_eq. intros r.
  rewrite lookup_alter. case_decide; [|done]. subst. destruct (g !! r) as [[a b]|]; simpl; [|done].
  by rewrite Z.add_0_r.
Qed.

Lemma fixed_step_ok f f' : fixed_ok f → fixed_step f f' → fixed_ok f'.
Proof.
  intros Hf Hs. destruct Hs as [f authority p f' Hg|f i p g Hi _ Hg Hav|f i p Hi|f i p Hi|f authority].
  - destruct (gate_for_ok _ _ _ _ Hf Hg) as ([Hl Hcap Hst Hbal Hmine] & Hp & _ & _).
    split; cbn [set_callers callers gates f_limit f_capacity store]; [done..| |].
    + intros r g Hr. rewrite leases_app. unfold leased_from. rewrite decide_False by done. destruct (Hbal _ _ Hr). lia.
    + intros i r Hi. destruct (decide (i < length (callers f'))%nat) as [Hlt|Hge].
      * rewrite lookup_app_l in Hi by done. by apply (Hmine i).
      * rewrite lookup_app_r in Hi by lia. destruct (i - length (callers f'))%nat; [|destruct Hi; done].
        destruct Hi as [[= <-]|[=]]. done.
  - apply (move_ok f i (Queued p) (Leased p)); [done|done| | |].
    + intros r. unfold leased_from. repeat case_decide; simplify_eq; (lia || congruence).
    + intros g' Hg'. rewrite Hg in Hg'. injection Hg' as <-. lia.
    + intros r [[=]|[= <-]]. eauto.
  - apply (move_ok f i (Leased p) Gone); [done|done| | |].
    + intros r. unfold leased_from. repeat case_decide; simplify_eq; (lia || congruence).
    + intros g Hg. destruct (balanced _ Hf _ _ Hg). lia.
    + intros r [[=]|[=]].
  - rewrite <- (add_none p f) at 2. apply (move_ok f i (Queued p) Gone); [done|done| | |].
    + intros r. unfold leased_from. repeat case_decide; simplify_eq; (lia || congruence).
    + intros g Hg. destruct (balanced _ Hf _ _ Hg). lia.
    + intros r [[=]|[=]].
  - destruct Hf as [Hl Hcap Hst Hbal Hmine]. split; cbn [fixed_forget snd gates callers f_limit f_capacity store]; [done..| |done|done].
    intros k p [_ Hp]%lookup_delete_Some. eauto.
Qed.

Definition fixed_start (limit capacity : Z) : Fixed := with_capacity capacity (new limit).

(** Whatever callers arrive, are granted, cancelled or done, and whatever the store
    evicts or forgets, each gate's permits are its limit less the leases out, so that a
    gate never has more than the limit out; and when nobody can be granted, whoever
    still queues at a gate queues behind a full set of leases. *)
Theorem fixed_is_a_bound limit capacity f :
  rtc fixed_step (fixed_start limit capacity) f →
  (∀ p g, gates f !! p = Some g → available g = f_limit f - leases p f ∧ leases p f <= f_limit f) ∧
  ((∀ i p g, callers f !! i = Some (Queued p) → first_in_line p i f → gates f !! p = Some g → ¬ 1 <= available g) →
   ∀ i p, callers f !! i = Some (Queued p) → leases p f = f_limit f).
Proof.
  intros Hr. assert (Hstart : fixed_ok (fixed_start limit capacity)).
  { assert (1 <= MAX_PERMITS) by by vm_compute.
    split; unfold fixed_start, with_capacity, new; cbn [f_limit f_capacity store gates callers]; [lia|lia|done|done|].
    by intros ?? [?|?]. }
  assert (Hf : fixed_ok f).
  { revert Hstart. induction Hr as [|x y z Hs _ IH]; [done|]. intros Hx. by eapply IH, fixed_step_ok. }
  destruct Hf as [Hl Hcap Hst Hbal Hmine]. split.
  - intros p g Hg. destruct (Hbal p g Hg). lia.
  - intros Hstuck i p Hi. destruct (Hmine i p (or_introl Hi)) as [g Hg]. destruct (Hbal p g Hg) as [Ha Hn].
    enough (available g < 1) by lia. apply Z.lt_nge.
    (* the first of the queue at that gate *)
    assert (∃ j, callers f !! j = Some (Queued p) ∧ first_in_line p j f) as (j & Hj & Hfirst); [|by eapply Hstuck].
    destruct (list_find (λ c, c = Queued p) (callers f)) as [[j c]|] eqn:Hfind.
    + apply list_find_Some in Hfind as (Hj & -> & Hbefore). exists j. split; [done|]. intros k Hk Hkc.
      by apply (Hbefore k (Queued p)).
    + apply list_find_None in Hfind. rewrite Forall_forall in Hfind. exfalso. eapply Hfind; [|done].
      by eapply list_elem_of_lookup_2.
Qed.

(** ** Two callers, one permit *)

Definition arrive (authority : str) (f : Fixed) : Fixed :=
  let '(p, f') := gate_for authority f in set_callers (callers f' ++ [Queued p]) f'.

Definition grant (i p : nat) (f : Fixed) : Fixed :=
  set_callers (<[i := Leased p]> (callers f)) (add_permits (-1) p f).

Lemma arrive_step authority f : fixed_step f (arrive authority f).
Proof. unfold arrive. destruct (gate_for authority f) eqn:E. by eapply fixed_arrives. Qed.

Definition contended : Fixed :=
  grant 0 0 (arrive b#"a.test" (arrive b#"a.test" (fixed_start 1 1))).

Lemma contended_reachable : rtc fixed_step (fixed_start 1 1) contended.
Proof.
  eapply rtc_l; [apply (arrive_step b#"a.test")|]. eapply rtc_l; [apply (arrive_step b#"a.test")|].
  apply rtc_once. unfold contended, grant.
  apply (fixed_granted _ 0 0 (mk_gate 1 1)); [vm_compute; reflexivity| |vm_compute; reflexivity|done]. intros j ?. lia.
Qed.

Lemma fixed_is_a_bound_witness : leases 0 contended = f_limit contended ∧ in_flight b#"a.test" contended = Some 1.
Proof.
  destruct (fixed_is_a_bound 1 1 contended contended_reachable) as [_ Hwait]. split; [|by vm_compute].
  apply (Hwait) with (i := 1%nat); [|by vm_compute].
  assert (Hcs : callers contended = [Leased 0; Queued 0]) by (vm_compute; reflexivity).
  assert (Hgs : gates contended !! 0%nat = Some (mk_gate 0 1)) by (vm_compute; reflexivity).
  intros i p g Hi _ Hg. rewrite Hcs in Hi. destruct i as [|[|i]]; [discriminate Hi| |discriminate Hi]. injection Hi as <-.
  rewrite Hgs in Hg. injection Hg as <-. cbn [available]. clear. lia.
Defined.
