(* ===== verification/RateLimiter.v ===== *)
(** [chromulate-http]: the token bucket
    (src/crates/chromulate-http/src/middleware/rate_limit.rs) and the [Ceiling] the
    concurrency controllers pay it through
    (src/crates/chromulate-concurrency/src/ceiling.rs).

    The bucket is behind a mutex, so an operation is one critical section; the
    instant it reads is an argument.  Tokens and rates are [f64]s and round as they
    do. *)
From S2P Require Import Prelude RustTime RustFloat.
Local Open Scope Z_scope.

Record RateLimit := mk_rate { per_second : f64; burst : f64 }.

(** [RateLimit::per_second]: [None] is its panic. *)
Definition rate_per_second (rate : f64) : option RateLimit :=
  if is_finite rate && f64_lt (f64_of_Z 0) rate then Some (mk_rate rate (f64_max rate one)) else None.

Definition with_burst (burst : f64) (l : RateLimit) : RateLimit := mk_rate (per_second l) (f64_max burst one).

Record Bucket := mk_bucket { tokens : f64; last_refill : SystemTime }.

Record RateLimiter := mk_limiter { rl_limit : RateLimit; bucket : Bucket }.

Definition MAX_WAIT : Duration := from_secs 3600.

Definition SLOWEST : f64 := f64_div one (f64_of_Z 3600).

Definition sanitise (l : RateLimit) : RateLimit :=
  mk_rate
    (if is_finite (per_second l) && f64_le SLOWEST (per_second l) then per_second l else SLOWEST)
    (if is_finite (burst l) && f64_le (f64_of_Z 0) (burst l) then burst l else f64_of_Z 0).

Definition with_time_source (l : RateLimit) (now : SystemTime) : RateLimiter :=
  let l := sanitise l in mk_limiter l (mk_bucket (burst l) now).

Definition reserve (now : SystemTime) (r : RateLimiter) : Duration * RateLimiter :=
  let b := bucket r in
  let elapsed := Z.max (now - last_refill b) 0 in
  let refilled := f64_min (f64_add (tokens b) (f64_mul (as_secs_f64 elapsed) (per_second (rl_limit r)))) (burst (rl_limit r)) in
  let left := f64_sub refilled one in
  (if f64_le (f64_of_Z 0) left then 0
   else default MAX_WAIT (try_from_secs_f64 (f64_div (f64_neg left) (per_second (rl_limit r)))),
   mk_limiter (rl_limit r) (mk_bucket left now)).

(** [Ceiling]: what [pay] sleeps for, and the limiter it leaves. *)
Inductive Ceiling := Unlimited | Limited (limiter : RateLimiter).

Definition pay (now : SystemTime) (ceiling : Ceiling) : option Duration * Ceiling :=
  match ceiling with
  | Unlimited => (None, Unlimited)
  | Limited limiter =>
      let '(wait, limiter) := reserve now limiter in
      (if wait =? 0 then None else Some wait, Limited limiter)
  end.

(** A run of reservations, one per instant of the list. *)
Fixpoint reservations (instants : list SystemTime) (r : RateLimiter) : list Duration :=
  match instants with
  | [] => []
  | now :: rest => let '(wait, r) := reserve now r in wait :: reservations rest r
  end.

(** ** What holds of every limit *)

Lemma slowest_fine : is_finite SLOWEST && f64_le SLOWEST SLOWEST = true.
Proof. vm_compute. reflexivity. Qed.

Lemma zero_fine : is_finite (f64_of_Z 0) && f64_le (f64_of_Z 0) (f64_of_Z 0) = true.
Proof. vm_compute. reflexivity. Qed.

Lemma sanitise_fine l :
  is_finite (per_second (sanitise l)) = true ∧ f64_le SLOWEST (per_second (sanitise l)) = true ∧
  is_finite (burst (sanitise l)) = true ∧ f64_le (f64_of_Z 0) (burst (sanitise l)) = true.
Proof.
  destruct (andb_prop _ _ slowest_fine), (andb_prop _ _ zero_fine). unfold sanitise. cbn [per_second burst].
  destruct (is_finite (per_second l) && f64_le SLOWEST (per_second l)) eqn:E1,
    (is_finite (burst l) && f64_le (f64_of_Z 0) (burst l)) eqn:E2;
    try (apply andb_prop in E1 as [??]); try (apply andb_prop in E2 as [??]); split_and!; assumption.
Qed.

Lemma sanitise_idempotent l : sanitise (sanitise l) = sanitise l.
Proof.
  destruct (sanitise_fine l) as (H1 & H2 & H3 & H4). unfold sanitise at 1. rewrite H1, H2, H3, H4.
  by destruct (sanitise l).
Qed.

Lemma max_wait_ok : duration_ok MAX_WAIT.
Proof. by vm_compute. Qed.

Lemma reserve_wait_ok now r : duration_ok (reserve now r).1.
Proof.
  unfold reserve. cbn [fst]. case_match; [by vm_compute|].
  destruct (try_from_secs_f64 _) eqn:E; [by eapply try_from_secs_ok|apply max_wait_ok].
Qed.

(** Every configuration yields waits a [Duration] holds, whatever the limit's public
    fields were set to: the conversion never panics, and a limit once clamped stays. *)
Theorem reservations_are_durations l now instants :
  Forall duration_ok (reservations instants (with_time_source l now)).
Proof.
  generalize (with_time_source l now). induction instants as [|t ts IH]; intros r; cbn [reservations]; [constructor|].
  pose proof (reserve_wait_ok t r). destruct (reserve t r) as [w r']. constructor; [done|]. apply IH.
Qed.

(** ** Concrete limits *)

Definition not_rates : list f64 :=
  [f64_of_Z 0; f64_neg one; f64_lit 6032057205060441 (-1049); S754_nan; S754_infinity false; S754_infinity true].

(** A rate that is not one becomes one request per hour, which refills. *)
Example a_clamped_rate_refills :
  Forall (λ rate,
    reservations [0; 0; from_secs 7200] (with_time_source (mk_rate rate one) 0) = [0; from_secs 3600; 0]) not_rates.
Proof. repeat (constructor; [vm_compute; reflexivity|]). constructor. Qed.

(** A later caller queues behind an earlier one: ten requests per second, one banked. *)
Example debt_queues :
  reservations [0; 0; 0; 0] (with_time_source (mk_rate (f64_of_Z 10) one) 0) = [0; 100000000; 200000000; 300000000].
Proof. vm_compute. reflexivity. Qed.

(** [MAX_WAIT] is not the longest wait a limiter reports. *)
Theorem waits_beyond_the_longest :
  reservations [0; 0; 0] (with_time_source (mk_rate (f64_of_Z 0) one) 0) = [0; MAX_WAIT; 2 * MAX_WAIT].
Proof. vm_compute. reflexivity. Qed.
