(* ===== verification/Challenge.v ===== *)
(** [chromulate-http]: the vocabulary of challenge detection
    (src/crates/chromulate-http/src/challenge.rs) - what a detector is shown and
    concludes, what a browser is handed and gives back, and the policy that bounds
    how often either runs - with the Cloudflare detector
    (src/crates/chromulate-challenge/src/cloudflare.rs).

    An [Instant] is counted like a [SystemTime].  What an accessor reads is the field. *)
From S2P Require Import Prelude RustStr RustTime Extern Body Message Origin Fetch.
Local Open Scope Z_scope.

Definition OK : StatusCode := 200.
Definition FORBIDDEN : StatusCode := 403.

(** ** Kinds of challenge *)

Inductive ChallengeKind := JsRequired | CookieRequired | Interactive | Unknown.

#[export] Instance ChallengeKind_eq_dec : EqDecision ChallengeKind.
Proof. solve_decision. Defined.

Definition EVERY : list ChallengeKind := [JsRequired; CookieRequired; Interactive; Unknown].

Definition kind_as_str (k : ChallengeKind) : str :=
  match k with
  | JsRequired => b#"js-required"
  | CookieRequired => b#"cookie-required"
  | Interactive => b#"interactive"
  | Unknown => b#"unknown"
  end.

(** [ChallengeKinds]: a [u8] of one bit per kind. *)
Definition ChallengeKinds : Type := Z.

Definition kind_bit (k : ChallengeKind) : Z :=
  match k with
  | JsRequired => Z.shiftl 1 0
  | CookieRequired => Z.shiftl 1 1
  | Interactive => Z.shiftl 1 2
  | Unknown => Z.shiftl 1 3
  end.

Definition no_kinds : ChallengeKinds := 0.
Definition with_kind (s : ChallengeKinds) (k : ChallengeKind) : ChallengeKinds := Z.lor s (kind_bit k).
Definition claims (s : ChallengeKinds) (k : ChallengeKind) : bool := negb (Z.land s (kind_bit k) =? 0).
Definition claims_nothing (s : ChallengeKinds) : bool := s =? 0.
Definition kinds_union (s t : ChallengeKinds) : ChallengeKinds := Z.lor s t.
Definition kinds_of (ks : list ChallengeKind) : ChallengeKinds := foldl with_kind no_kinds ks.
Definition all_kinds : ChallengeKinds := kinds_of EVERY.

(** ** What a detector concludes *)

(** [Evidence]: the signals, in the order they were recorded. *)
Definition Evidence : Type := list str.
Definition from_signal (signal : str) : Evidence := [signal].
Definition with_signal (e : Evidence) (signal : str) : Evidence := e ++ [signal].

Record Challenge := mk_challenge {
  ch_kind : ChallengeKind;
  ch_origin : Origin;
  ch_evidence : Evidence;
}.

#[export] Instance Challenge_eq_dec : EqDecision Challenge.
Proof. solve_decision. Defined.

Inductive Detection := Clear | Suspect | Challenged (c : Challenge).

#[export] Instance Detection_eq_dec : EqDecision Detection.
Proof. solve_decision. Defined.

(** ** The exit a challenge was met through *)

(** [redact_userinfo]. *)
Definition redact_userinfo (raw : str) : str :=
  let '(prefix, rest) :=
    match find_str b#"://" raw with
    | Some (before, after) => (before ++ b#"://", after)
    | None => ([], raw)
    end in
  let authority_end := default (length rest) (find_by (is_char "/"%char) rest) in
  match rfind_by (is_char "@"%char) (take authority_end rest) with
  | None => raw
  | Some at_ => prefix ++ b#"***@" ++ drop (S at_) rest
  end.

(** [ProxyExit::new]; an exit is its label. *)
Definition proxy_exit (label : str) : str := redact_userinfo label.

(** ** The observation, the hand-off and the answer *)

Section Vocabulary.
Context `{HeaderValueApi} `{HeaderMapApi} `{UrlApi}.

Record Hop := mk_hop { hop_url : Url; hop_status : StatusCode }.

Record Observation := mk_observation {
  ob_status : StatusCode;
  ob_headers : HeaderMap;
  ob_url : Url;
  ob_origin : Origin;
  ob_hops : list Hop;
  ob_body_prefix : option bytes;
}.

Definition observation (status : StatusCode) (headers : HeaderMap) (url : Url) (origin : Origin) : Observation :=
  mk_observation status headers url origin [] None.

Definition with_hops (hops : list Hop) (o : Observation) : Observation :=
  mk_observation (ob_status o) (ob_headers o) (ob_url o) (ob_origin o) hops (ob_body_prefix o).

Definition with_body_prefix (prefix : bytes) (o : Observation) : Observation :=
  mk_observation (ob_status o) (ob_headers o) (ob_url o) (ob_origin o) (ob_hops o) (Some prefix).

Record Handoff := mk_handoff {
  ho_url : Url;
  ho_kind : ChallengeKind;
  ho_user_agent : str;
  ho_exit : option str;
  ho_cookies : option str;
  ho_started : SystemTime;
  ho_budget : Duration;
}.

(** [Handoff::new], at the instant [now]. *)
Definition new_handoff (url : Url) (kind : ChallengeKind) (user_agent : str) (budget : Duration) (now : SystemTime)
    : Handoff :=
  mk_handoff url kind user_agent None None now budget.

Definition with_exit (exit : option str) (h : Handoff) : Handoff :=
  mk_handoff (ho_url h) (ho_kind h) (ho_user_agent h) exit (ho_cookies h) (ho_started h) (ho_budget h).

Definition with_cookies (cookies : option str) (h : Handoff) : Handoff :=
  mk_handoff (ho_url h) (ho_kind h) (ho_user_agent h) (ho_exit h) cookies (ho_started h) (ho_budget h).

(** [Instant::elapsed] saturates, and so does the subtraction. *)
Definition handoff_remaining (h : Handoff) (now : SystemTime) : Duration :=
  saturating_sub (ho_budget h) (since_or_zero now (ho_started h)).

Definition handoff_is_expired (h : Handoff) (now : SystemTime) : bool := handoff_remaining h now =? 0.

Record FallbackIdentity := mk_identity { fi_fallback : str; fi_user_agent : str }.

Definition honoured_by (h : Handoff) (identity : FallbackIdentity) : bool :=
  bool_decide (fi_user_agent identity = ho_user_agent h).

Record Content := mk_content {
  co_status : StatusCode;
  co_headers : HeaderMap;
  co_body : bytes;
  co_final_url : Url;
}.

Inductive DeclineReason := UnsupportedKind (kind : ChallengeKind) | NeedsHuman | BudgetExhausted | NotCleared.

Inductive Handback :=
  | SessionState (set_cookie : list str) (content : option Content) (produced_by : FallbackIdentity)
  | Fetched (content : Content)
  | Declined (reason : DeclineReason).

(** ** The policy *)

(** The default eligibility rule, on a request and the [RequestOptions] among its
    extensions. *)
Definition is_a_page_request (request : Request) (options : option RequestOptions) : bool :=
  if decide (rq_method request ≠ GET) then false
  else match options with
       | None => true
       | Some options => bool_decide (opt_dest options ∈ [Document; Fetch.Empty])
       end.

Record HandoffPolicy := mk_policy {
  po_eligible : Request → option RequestOptions → bool;
  po_budget : Z;
  po_window : Duration;
  po_tracked_origins : Z;
  po_concurrency : Z;
}.

Definition DEFAULT_BUDGET : Z := 2.
Definition DEFAULT_WINDOW : Duration := from_secs 300.
Definition MIN_WINDOW : Duration := from_secs 1.
Definition DEFAULT_TRACKED_ORIGINS : Z := 256.
Definition DEFAULT_CONCURRENCY : Z := 1.

Definition default_handoff_policy : HandoffPolicy :=
  mk_policy is_a_page_request DEFAULT_BUDGET DEFAULT_WINDOW DEFAULT_TRACKED_ORIGINS DEFAULT_CONCURRENCY.

Definition with_eligible (f : Request → option RequestOptions → bool) (p : HandoffPolicy) : HandoffPolicy :=
  mk_policy f (po_budget p) (po_window p) (po_tracked_origins p) (po_concurrency p).

Definition with_budget (budget : Z) (window : Duration) (p : HandoffPolicy) : HandoffPolicy :=
  mk_policy (po_eligible p) (Z.max budget 1) (Z.max window MIN_WINDOW) (po_tracked_origins p) (po_concurrency p).

Definition with_tracked_origins (n : Z) (p : HandoffPolicy) : HandoffPolicy :=
  mk_policy (po_eligible p) (po_budget p) (po_window p) (Z.max n 1) (po_concurrency p).

Definition with_concurrency (n : Z) (p : HandoffPolicy) : HandoffPolicy :=
  mk_policy (po_eligible p) (po_budget p) (po_window p) (po_tracked_origins p) (Z.max n 1).

(** A policy as its builders make them. *)
Record policy_ok (p : HandoffPolicy) : Prop := {
  po_budget_ok : 1 <= po_budget p;
  po_window_ok : MIN_WINDOW <= po_window p;
  po_tracked_ok : 1 <= po_tracked_origins p;
  po_concurrency_ok : 1 <= po_concurrency p;
}.

(** ** The Cloudflare detector *)

Definition CF_MITIGATED : str := b#"cf-mitigated".
Definition CF_MITIGATED_CHALLENGE : str := b#"challenge".
Definition SIGNAL_CF_MITIGATED : str := b#"cf-mitigated: challenge".
Definition CF_RAY : str := b#"cf-ray".
Definition JS_INTERSTITIAL_TITLE : bytes := b#"Just a moment".
Definition JS_INTERSTITIAL_SCRIPT_PATH : bytes := b#"/cdn-cgi/challenge-platform/".
Definition SIGNAL_JS_INTERSTITIAL_BODY : str :=
  b#"body: js interstitial title or /cdn-cgi/challenge-platform/ path".
Definition WAF_BLOCK_TITLE : bytes := b#"Attention Required! | Cloudflare".
Definition WAF_BLOCK_HEADLINE : bytes := b#"Sorry, you have been blocked".

(** [haystack.windows(n)]; [n] is not zero where it is called. *)
Fixpoint windows (n : nat) (haystack : bytes) : list bytes :=
  match haystack with
  | [] => []
  | _ :: rest => if decide (n ≤ length haystack)%nat then take n haystack :: windows n rest else []
  end.

Definition contains_bytes (haystack needle : bytes) : bool :=
  bool_decide (needle ≠ []) &&
  existsb (λ window, bool_decide (window = needle)) (windows (length needle) haystack).

Definition is_cf_mitigated_challenge (headers : HeaderMap) : bool :=
  bool_decide (hm_get headers CF_MITIGATED = Some CF_MITIGATED_CHALLENGE).

Definition is_corroborated (status : StatusCode) (headers : HeaderMap) : bool :=
  bool_decide (status ∈ [OK; FORBIDDEN; SERVICE_UNAVAILABLE]) && hm_contains_key headers CF_RAY.

Definition is_cloudflare_js_interstitial_body (body : bytes) : bool :=
  contains_bytes body JS_INTERSTITIAL_TITLE || contains_bytes body JS_INTERSTITIAL_SCRIPT_PATH.

Definition is_cloudflare_waf_block_body (body : bytes) : bool :=
  contains_bytes body WAF_BLOCK_TITLE || contains_bytes body WAF_BLOCK_HEADLINE.

(** [CloudflareDetector::inspect]. *)
Definition cloudflare_inspect (o : Observation) : Detection :=
  if is_cf_mitigated_challenge (ob_headers o)
  then Challenged (mk_challenge Unknown (ob_origin o) (from_signal SIGNAL_CF_MITIGATED))
  else
    match ob_body_prefix o with
    | Some body =>
        if is_cloudflare_waf_block_body body then Clear
        else if is_cloudflare_js_interstitial_body body
        then Challenged (mk_challenge Unknown (ob_origin o) (from_signal SIGNAL_JS_INTERSTITIAL_BODY))
        else Clear
    | None => if is_corroborated (ob_status o) (ob_headers o) then Suspect else Clear
    end.
End Vocabulary.

(** ** Claims *)

Lemma claims_union s t k : claims (kinds_union s t) k = claims s k || claims t k.
Proof.
  unfold claims, kinds_union. rewrite Z.land_lor_distr_l, <- negb_andb. f_equal.
  apply eq_true_iff_eq. rewrite andb_true_iff, !Z.eqb_eq. apply Z.lor_eq_0_iff.
Qed.

Lemma claims_bit k k' : claims (kind_bit k) k' = bool_decide (k = k').
Proof. destruct k, k'; reflexivity. Qed.

(** A claim built from a list covers exactly the kinds in it, a union what either
    side covers, and [all] every kind; no claim leaves the four low bits. *)
Lemma claims_exact ks k :
  claims (kinds_of ks) k = bool_decide (k ∈ ks) ∧ claims all_kinds k = true ∧
  (∀ s t, claims (kinds_union s t) k = claims s k || claims t k) ∧
  0 <= kinds_of ks < 2 ^ 4.
Proof.
  split; [|split; [by destruct k|split; [intros; apply claims_union|]]].
  - unfold kinds_of. enough (H : ∀ s, claims (foldl with_kind s ks) k = claims s k || bool_decide (k ∈ ks)) by apply H.
    induction ks as [|k' ks IH]; intros s; cbn [foldl]; [by rewrite bool_decide_eq_false_2, orb_false_r by set_solver|].
    rewrite IH. unfold with_kind. fold (kinds_union s (kind_bit k')). rewrite claims_union, claims_bit, <- orb_assoc.
    f_equal. repeat case_bool_decide; set_solver.
  - unfold kinds_of. enough (H : ∀ s, 0 <= s < 2 ^ 4 → 0 <= foldl with_kind s ks < 2 ^ 4) by (apply H; unfold no_kinds; lia).
    induction ks as [|k' ks IH]; intros s Hs; cbn [foldl]; [done|]. apply IH. unfold with_kind. split.
    { apply Z.lor_nonneg. split; [lia|]. by destruct k'. }
    destruct (decide (Z.lor s (kind_bit k') = 0)) as [->|Hne]; [lia|].
    assert (0 <= Z.lor s (kind_bit k')) by (apply Z.lor_nonneg; split; [lia|by destruct k']).
    apply Z.log2_lt_pow2; [lia|]. rewrite Z.log2_lor by (try lia; by destruct k').
    apply Z.max_lub_lt; [|by destruct k'].
    destruct (decide (s = 0)) as [->|]; [done|]. apply Z.log2_lt_pow2; lia.
Qed.

(** ** Redaction *)

Definition no_slash (s : str) : Prop := Forall (λ c, is_char "/"%char c = false) s.
Definition no_at (s : str) : Prop := Forall (λ c, is_char "@"%char c = false) s.

(** A label as a scheme and its [://], an authority, and what follows from the first slash. *)
Definition label_of (prefix authority tail : str) : str := prefix ++ authority ++ tail.

Definition prefix_ok (prefix : str) (rest : str) : Prop :=
  (∃ before, prefix = before ++ b#"://" ∧ find_str b#"://" (prefix ++ rest) = Some (before, rest)) ∨
  (prefix = [] ∧ find_str b#"://" rest = None).

Definition tail_ok (tail : str) : Prop := tail = [] ∨ ∃ t, tail = "/"%char :: t.

Lemma find_slash authority tail :
  no_slash authority → tail_ok tail →
  default (length (authority ++ tail)) (find_by (is_char "/"%char) (authority ++ tail)) = length authority.
Proof.
  intros Ha Ht. destruct Ht as [->|[t ->]].
  - rewrite app_nil_r. by rewrite (proj2 (find_by_None _ _) Ha).
  - enough (find_by (is_char "/"%char) (authority ++ "/"%char :: t) = Some (length authority)) as -> by done.
    apply find_by_Some. eexists. split; [by apply list_lookup_middle|]. split; [done|].
    by rewrite take_app_length.
Qed.

(** What redaction does to a label: nothing when its authority holds no [@], and
    otherwise everything of the authority up to its last [@] becomes [***]. *)
Lemma redact_label prefix authority tail :
  prefix_ok prefix (authority ++ tail) → no_slash authority → tail_ok tail →
  redact_userinfo (label_of prefix authority tail) =
    match rfind_by (is_char "@"%char) authority with
    | None => label_of prefix authority tail
    | Some at_ => label_of prefix (b#"***@" ++ drop (S at_) authority) tail
    end.
Proof.
  intros Hp Ha Ht. unfold redact_userinfo, label_of.
  assert (Hsplit : match find_str b#"://" (prefix ++ authority ++ tail) with
    | Some (before, after) => (before ++ b#"://", after)
    | None => ([], prefix ++ authority ++ tail)
    end = (prefix, authority ++ tail)).
  { destruct Hp as [(before & -> & ->)|[-> Hf]]; [done|]. cbn [app]. by rewrite Hf. }
  rewrite Hsplit. cbv zeta. rewrite find_slash, take_app_length by done.
  destruct (rfind_by _ authority) as [at_|] eqn:Hr; [|done]. f_equal. rewrite <- app_assoc. f_equal.
  apply rfind_by_Some in Hr as (c & Hc & _). apply lookup_lt_Some in Hc. rewrite drop_app_le by lia. done.
Qed.

(** Every label is of that shape. *)
Lemma label_cases raw :
  ∃ prefix authority tail, raw = label_of prefix authority tail ∧ prefix_ok prefix (authority ++ tail) ∧
    no_slash authority ∧ tail_ok tail.
Proof.
  assert (Hcut : ∀ rest : str, ∃ authority tail, rest = authority ++ tail ∧ no_slash authority ∧ tail_ok tail).
  { intros rest. destruct (find_by (is_char "/"%char) rest) as [i|] eqn:Hf.
    - apply find_by_Some in Hf as (c & Hc & Hs & Hall). exists (take i rest), (drop i rest). rewrite take_drop.
      split; [done|]. split; [done|]. right. apply drop_S in Hc as ->. unfold is_char in Hs.
      apply bool_decide_eq_true in Hs as ->. by eexists.
    - apply find_by_None in Hf. exists rest, []. rewrite app_nil_r. split; [done|]. split; [done|]. by left. }
  destruct (find_str b#"://" raw) as [[before rest]|] eqn:Hf.
  - destruct (Hcut rest) as (authority & tail & -> & Ha & Ht). apply find_str_Some in Hf as Heq.
    exists (before ++ b#"://"), authority, tail. unfold label_of. rewrite <- app_assoc. split; [done|].
    split; [|done]. left. exists before. split; [done|]. by rewrite <- app_assoc, <- Heq.
  - destruct (Hcut raw) as (authority & tail & -> & Ha & Ht). exists [], authority, tail. split; [done|].
    split; [|done]. by right.
Qed.

(** Redaction hides exactly the userinfo: a label whose authority holds no [@] is
    kept, any other keeps its scheme, its host and what follows and has [***] for
    the rest. *)
Lemma redaction_exact prefix authority tail :
  prefix_ok prefix (authority ++ tail) → no_slash authority → tail_ok tail →
  (no_at authority → redact_userinfo (label_of prefix authority tail) = label_of prefix authority tail) ∧
  (∀ userinfo host, authority = userinfo ++ "@"%char :: host → no_at host →
     redact_userinfo (label_of prefix authority tail) = label_of prefix (b#"***@" ++ host) tail).
Proof.
  intros Hp Ha Ht. rewrite redact_label by done. split.
  - intros Hno. assert (rfind_by (is_char "@"%char) authority = None) as ->; [|done].
    destruct (rfind_by _ authority) as [i|] eqn:Hr; [|done].
    apply rfind_by_Some in Hr as (c & Hc & Hat & _). pose proof (Forall_lookup_1 _ _ _ _ Hno Hc). simpl in *. congruence.
  - intros userinfo host -> Hno.
    assert (rfind_by (is_char "@"%char) (userinfo ++ "@"%char :: host) = Some (length userinfo)) as ->.
    { apply rfind_by_Some. exists "@"%char. split; [by apply list_lookup_middle|]. split; [done|].
      by rewrite (cons_middle "@"%char), app_assoc, drop_app_length' by (rewrite length_app; simpl; lia). }
    do 3 f_equal. by rewrite (cons_middle "@"%char), app_assoc, drop_app_length' by (rewrite length_app; simpl; lia).
Qed.

Lemma rfind_by_cases (c : ascii) s :
  match rfind_by (is_char c) s with
  | None => Forall (λ d, is_char c d = false) s
  | Some i => s = take i s ++ c :: drop (S i) s ∧ Forall (λ d, is_char c d = false) (drop (S i) s)
  end.
Proof.
  destruct (rfind_by (is_char c) s) as [i|] eqn:Hr.
  - apply rfind_by_Some in Hr as (d & Hd & Hc & Hall). split; [|done]. unfold is_char in Hc.
    apply bool_decide_eq_true in Hc as ->. by rewrite <- (drop_S _ _ _ Hd), take_drop.
  - induction s as [|d s IH]; [constructor|]. cbn [rfind_by] in Hr.
    destruct (rfind_by (is_char c) s); [done|]. destruct (is_char c d) eqn:Hd; [done|]. constructor; [done|]. by apply IH.
Qed.

(** Where a pattern is first found does not depend on what follows it there. *)
Lemma find_str_after pat a b b' : find_str pat (a ++ pat ++ b) = Some (a, b) → find_str pat (a ++ pat ++ b') = Some (a, b').
Proof.
  induction a as [|c a IH]; intros Hf; [by apply (find_str_at pat []); intros [|]|]. cbn [app find_str] in *.
  destruct (strip_prefix pat (c :: a ++ pat ++ b)) as [r|] eqn:Hs; [done|].
  destruct (find_str pat (a ++ pat ++ b)) as [[u v]|] eqn:Hf'; [|done]. injection Hf as -> ->. rewrite IH by done.
  destruct (strip_prefix pat (c :: a ++ pat ++ b')) as [r|] eqn:Hs'; [|done]. exfalso.
  apply strip_prefix_Some in Hs'. apply (eq_None_not_Some (strip_prefix pat _)) in Hs. apply Hs.
  exists (drop (length pat) (c :: a ++ pat) ++ b). apply strip_prefix_Some.
  assert (Hpat : take (length pat) (c :: a ++ pat) = pat).
  { change (c :: a ++ pat ++ b') with ((c :: a) ++ pat ++ b') in Hs'. rewrite app_assoc in Hs'.
    apply (f_equal (take (length pat))) in Hs'. rewrite take_app_length in Hs'.
    rewrite take_app_le in Hs' by (rewrite length_app; lia). done. }
  transitivity ((c :: a ++ pat) ++ b); [by rewrite <- app_comm_cons, <- app_assoc|].
  rewrite <- (take_drop (length pat) (c :: a ++ pat)) at 1. by rewrite Hpat, <- app_assoc.
Qed.

(** [***@] in front of a host does not move the [://] of the scheme. *)
Lemma prefix_ok_redacted prefix userinfo host tail :
  prefix_ok prefix ((userinfo ++ "@"%char :: host) ++ tail) → prefix_ok prefix ((b#"***@" ++ host) ++ tail).
Proof.
  intros [(before & -> & Hf)|[-> Hf]].
  - left. exists before. split; [done|]. rewrite <- app_assoc in *. by eapply find_str_after.
  - right. split; [done|]. apply eq_None_not_Some. intros [[u v] Hn%find_str_Some].
    destruct u as [|? [|? [|? [|? u]]]]; simpl in Hn; try done. injection Hn as <- <- <- <- Hn.
    apply (find_str_None _ _ (userinfo ++ "@"%char :: u) v Hf).
    rewrite <- !app_assoc. cbn [app]. do 2 f_equal. exact Hn.
Qed.

Lemma redaction_idempotent raw : redact_userinfo (redact_userinfo raw) = redact_userinfo raw.
Proof.
  destruct (label_cases raw) as (prefix & authority & tail & -> & Hp & Ha & Ht).
  destruct (redaction_exact prefix authority tail Hp Ha Ht) as [Hno Hat].
  pose proof (rfind_by_cases "@"%char authority) as Hr. destruct (rfind_by _ authority) as [i|]; [|by rewrite !Hno].
  destruct Hr as [Heq Hhost]. rewrite (Hat _ _ Heq Hhost). rewrite Heq in Hp, Ha.
  apply prefix_ok_redacted in Hp. apply Forall_app in Ha as [_ [_ Hns]%Forall_cons].
  assert (Hns' : no_slash (b#"***@" ++ drop (S i) authority)) by (by repeat constructor).
  destruct (redaction_exact prefix _ tail Hp Hns' Ht) as [_ H]. by apply (H b#"***").
Qed.

(** ** Searching a body *)

Lemma elem_of_windows n haystack w :
  n ≠ O → w ∈ windows n haystack ↔ length w = n ∧ ∃ u v, haystack = u ++ w ++ v.
Proof.
  intros Hn. induction haystack as [|c h IH].
  { cbn [windows]. rewrite elem_of_nil. split; [done|]. intros [Hl (u & v & Hs)]. by destruct u, w. }
  cbn [windows]. case_decide as Hle.
  - rewrite elem_of_cons, IH. split.
    + intros [->|[Hl (u & v & ->)]].
      * rewrite length_take, Nat.min_l by done. split; [done|]. exists [], (drop n (c :: h)). by rewrite app_nil_l, take_drop.
      * split; [done|]. by exists (c :: u), v.
    + intros [Hl ([|d u] & v & Hs)].
      * left. cbn [app] in Hs. by rewrite Hs, <- Hl, take_app_length.
      * right. injection Hs as -> ->. split; [done|]. by exists u, v.
  - rewrite elem_of_nil. split; [done|]. intros [Hl (u & v & Hs)]. rewrite Hs, !length_app in Hle. lia.
Qed.

Lemma contains_bytes_spec haystack needle :
  contains_bytes haystack needle = true ↔ needle ≠ [] ∧ ∃ u v, haystack = u ++ needle ++ v.
Proof.
  unfold contains_bytes. rewrite andb_true_iff, bool_decide_eq_true, existsb_exists.
  split; intros [Hne H]; (split; [done|]); assert (Hl : length needle ≠ O) by (by destruct needle).
  - destruct H as (w & Hw & ->%bool_decide_eq_true). apply list_elem_of_In, elem_of_windows in Hw as [_ ?]; done.
  - exists needle. split; [|by apply bool_decide_eq_true]. by apply list_elem_of_In, elem_of_windows.
Qed.

Section Detector.
Context `{HeaderValueApi} `{HeaderMapApi} `{UrlApi}.

Definition mitigated (o : Observation) : Prop := hm_get (ob_headers o) CF_MITIGATED = Some CF_MITIGATED_CHALLENGE.

Definition holds (body needle : bytes) : Prop := ∃ u v, body = u ++ needle ++ v.

Definition waf_block (body : bytes) : Prop := holds body WAF_BLOCK_TITLE ∨ holds body WAF_BLOCK_HEADLINE.

Definition interstitial (body : bytes) : Prop :=
  holds body JS_INTERSTITIAL_TITLE ∨ holds body JS_INTERSTITIAL_SCRIPT_PATH.

Lemma waf_block_spec body : is_cloudflare_waf_block_body body = true ↔ waf_block body.
Proof.
  unfold is_cloudflare_waf_block_body, waf_block, holds. rewrite orb_true_iff, !contains_bytes_spec.
  assert (WAF_BLOCK_TITLE ≠ [] ∧ WAF_BLOCK_HEADLINE ≠ []) by done. naive_solver.
Qed.

Lemma interstitial_spec body : is_cloudflare_js_interstitial_body body = true ↔ interstitial body.
Proof.
  unfold is_cloudflare_js_interstitial_body, interstitial, holds. rewrite orb_true_iff, !contains_bytes_spec.
  assert (JS_INTERSTITIAL_TITLE ≠ [] ∧ JS_INTERSTITIAL_SCRIPT_PATH ≠ []) by done. naive_solver.
Qed.

(** The Cloudflare detector says what its signals say: a challenge when the
    documented header holds its one documented value, or when a body was read that
    holds a marker of the interstitial and none of the block page; a body is asked
    for only when none was read, the header is silent, the status is 200, 403 or 503
    and [cf-ray] is there; and anything else is clear.  What it reports is a
    challenge of unknown kind from the observed origin, with the signal that fired. *)
Theorem cloudflare_exact o :
  (∀ c, cloudflare_inspect o = Challenged c ↔
     (mitigated o ∧ c = mk_challenge Unknown (ob_origin o) [SIGNAL_CF_MITIGATED]) ∨
     (¬ mitigated o ∧ c = mk_challenge Unknown (ob_origin o) [SIGNAL_JS_INTERSTITIAL_BODY] ∧
      ∃ body, ob_body_prefix o = Some body ∧ interstitial body ∧ ¬ waf_block body)) ∧
  (cloudflare_inspect o = Suspect ↔
     ¬ mitigated o ∧ ob_body_prefix o = None ∧ ob_status o ∈ [200; 403; 503] ∧
     hm_get_all (ob_headers o) CF_RAY ≠ []).
Proof.
  unfold cloudflare_inspect, mitigated, is_cf_mitigated_challenge, from_signal. case_bool_decide as Hm.
  { split; [|split; [done|naive_solver]]. intros c. split; [intros [= <-]; auto|naive_solver]. }
  destruct (ob_body_prefix o) as [body|].
  - destruct (is_cloudflare_waf_block_body body) eqn:Hw.
    { apply waf_block_spec in Hw. split; [|split; [done|naive_solver]]. intros c. split; [done|naive_solver]. }
    assert (¬ waf_block body) as Hw' by (rewrite <- waf_block_spec; congruence).
    destruct (is_cloudflare_js_interstitial_body body) eqn:Hi.
    + apply interstitial_spec in Hi. split; [|split; [done|naive_solver]].
      intros c. split; [intros [= <-]; right; eauto 10|naive_solver].
    + assert (¬ interstitial body) as Hi' by (rewrite <- interstitial_spec; congruence).
      split; [|split; [done|naive_solver]]. intros c. split; [done|naive_solver].
  - unfold is_corroborated, hm_contains_key.
    split; [intros c; destruct (_ && _); naive_solver|].
    destruct (_ && _) eqn:Hc.
    + apply andb_true_iff in Hc as [?%bool_decide_eq_true ?%bool_decide_eq_true]. done.
    + split; [done|]. intros (_ & _ & Hs & Hr). apply andb_false_iff in Hc as [Hc|Hc];
        by apply bool_decide_eq_false in Hc.
Qed.

(** A detector is consulted twice at most: once a body was read, this one decides. *)
Lemma cloudflare_decides o : is_Some (ob_body_prefix o) → cloudflare_inspect o ≠ Suspect.
Proof.
  intros [body Hb]. unfold cloudflare_inspect. rewrite Hb.
  by destruct (is_cf_mitigated_challenge (ob_headers o)), (is_cloudflare_waf_block_body body),
    (is_cloudflare_js_interstitial_body body).
Qed.
End Detector.

(** ** The hand-off and the policy *)

Section Bounds.
Context `{HeaderValueApi} `{HeaderMapApi} `{UrlApi}.

(** What is left of a budget never exceeds it, never comes back, and is nothing
    exactly once the budget has passed. *)
Lemma handoff_remaining_exact h now now' :
  0 <= ho_budget h → now <= now' →
  0 <= handoff_remaining h now' <= handoff_remaining h now ∧ handoff_remaining h now <= ho_budget h ∧
  (handoff_is_expired h now = true ↔ ho_budget h = 0 ∨ ho_budget h <= now - ho_started h).
Proof.
  intros Hb Hle. unfold handoff_is_expired, handoff_remaining, saturating_sub. rewrite !since_or_zero_spec.
  rewrite Z.eqb_eq. lia.
Qed.

(** Nothing can be configured into doing nothing. *)
Lemma policy_builders_ok p budget window n :
  policy_ok p →
  policy_ok (with_budget budget window p) ∧ policy_ok (with_tracked_origins n p) ∧ policy_ok (with_concurrency n p) ∧
  (∀ f, policy_ok (with_eligible f p)).
Proof. intros []. split_and!; [..|intros f]; split; cbn; lia. Qed.

Lemma default_policy_ok : policy_ok default_handoff_policy.
Proof. by split. Qed.
End Bounds.
