(* ===== verification/ChallengeState.v ===== *)
(** [chromulate-http]: what the challenge layer remembers of the origins it meets -
    each one's hand-off budget, and the solves in flight ([State] of
    src/crates/chromulate-http/src/middleware/challenge.rs).

    A solve in flight is known by a number, and its weak handle upgrades exactly while
    [live] says that somebody holds it.  The tick counts without a width. *)
From S2P Require Import Prelude RustStr RustTime Extern Origin Challenge.
Local Open Scope Z_scope.

Definition SWEEP_AT : Z := 32.

Record Counter := mk_counter { spent : Z; window_started : SystemTime; last_used : Z }.

Section State.
Context `{UrlApi} `{!EqDecision Url, !Countable Url}.

Record SolveKey := mk_key { sk_url : Url; sk_exit : option str }.

#[export] Instance SolveKey_eq_dec : EqDecision SolveKey.
Proof. solve_decision. Defined.
#[export] Instance SolveKey_countable : Countable SolveKey.
Proof. refine (inj_countable' (λ k, (sk_url k, sk_exit k)) (λ x, mk_key x.1 x.2) _). by intros []. Defined.

Record State := mk_state {
  counters : gmap Origin Counter;
  inflight : gmap SolveKey nat;
  tick : Z;
}.

Definition default_state : State := mk_state ∅ ∅ 0.

Definition with_counters (m : gmap Origin Counter) (s : State) : State := mk_state m (inflight s) (tick s).
Definition with_inflight (m : gmap SolveKey nat) (s : State) : State := mk_state (counters s) m (tick s).

(** ** Solves in flight *)

Definition joinable (live : nat → bool) (key : SolveKey) (s : State) : option nat :=
  n ← inflight s !! key; if live n then Some n else None.

(** The arm for a [downgrade] that fails is left out: the handle was just made. *)
Definition register (live : nat → bool) (key : SolveKey) (shared : nat) (capacity : Z) (s : State) : State :=
  let m := inflight s in
  let m := if SWEEP_AT <=? Z.of_nat (size m) then filter (λ kn, live kn.2 = true) m else m in
  if capacity <=? Z.of_nat (size m) then with_inflight m s
  else with_inflight (<[key := shared]> m) s.

Definition settle (key : SolveKey) (s : State) : State := with_inflight (delete key (inflight s)) s.

(** ** Budgets *)

Definition evict_least_recently_used (m : gmap Origin Counter) : gmap Origin Counter :=
  match min_by_key (λ kv, last_used kv.2) (map_to_list m) with
  | Some (victim, _) => delete victim m
  | None => m
  end.

Definition window_over (window : Duration) (now : SystemTime) (c : Counter) : bool :=
  window <=? since_or_zero now (window_started c).

Definition spend (origin : Origin) (budget : Z) (window : Duration) (capacity : Z) (now : SystemTime) (s : State)
    : bool * State :=
  let tick := tick s + 1 in
  match counters s !! origin with
  | Some c =>
      let c := if window_over window now c then mk_counter 0 now tick else mk_counter (spent c) (window_started c) tick in
      if budget <=? spent c then (false, mk_state (<[origin := c]> (counters s)) (inflight s) tick)
      else
        let c := mk_counter (spent c + 1) (window_started c) (last_used c) in
        (true, mk_state (<[origin := c]> (counters s)) (inflight s) tick)
  | None =>
      let m := if capacity <=? Z.of_nat (size (counters s)) then evict_least_recently_used (counters s) else counters s in
      (true, mk_state (<[origin := mk_counter 1 now tick]> m) (inflight s) tick)
  end.

Definition remaining (origin : Origin) (budget : Z) (window : Duration) (now : SystemTime) (s : State) : Z :=
  match counters s !! origin with
  | None => budget
  | Some c => if window_over window now c then budget else saturating_sub budget (spent c)
  end.

(** ** What holds of it *)

(** With a budget of at least one and room for at least one origin and one solve. *)
Record state_ok (budget capacity : Z) (s : State) : Prop := {
  ok_spent o c : counters s !! o = Some c → 1 <= spent c <= budget;
  ok_counters : Z.of_nat (size (counters s)) <= capacity;
  ok_inflight : Z.of_nat (size (inflight s)) <= capacity;
  ok_used o c : counters s !! o = Some c → last_used c <= tick s;
  ok_distinct o o' c c' : counters s !! o = Some c → counters s !! o' = Some c' → last_used c = last_used c' → o = o';
}.

Lemma default_state_ok budget capacity : 0 <= capacity → state_ok budget capacity default_state.
Proof. intros Hc. split; cbn; rewrite ?map_size_empty; try lia; intros *; by rewrite lookup_empty. Qed.

(** Eviction takes out one entry, the one used longest ago. *)
Lemma evict_lru_spec m :
  m ≠ ∅ →
  ∃ o c, m !! o = Some c ∧ evict_least_recently_used m = delete o m ∧
    ∀ o' c', m !! o' = Some c' → last_used c <= last_used c'.
Proof.
  intros Hm. unfold evict_least_recently_used. destruct (min_by_key _ _) as [[o c]|] eqn:Hmin.
  - apply min_by_key_spec in Hmin as [Hin Hle]. exists o, c. split; [by apply elem_of_map_to_list|]. split; [done|].
    intros o' c' Ho. by apply (Hle (o', c')), elem_of_map_to_list.
  - destruct (map_to_list m) as [|x l] eqn:Hl; [|done]. by apply map_to_list_empty_iff in Hl.
Qed.

(** The counters before a new origin is added: as they were if there is room, and
    otherwise without the one used longest ago. *)
Lemma make_room m capacity :
  1 <= capacity → Z.of_nat (size m) <= capacity →
  let m' := if capacity <=? Z.of_nat (size m) then evict_least_recently_used m else m in
  m' ⊆ m ∧ Z.of_nat (size m') < capacity ∧
  (∀ o c, m !! o = Some c → m' !! o = None →
     Z.of_nat (size m) = capacity ∧ ∀ o' c', m !! o' = Some c' → last_used c <= last_used c').
Proof.
  intros Hc Hs. cbv zeta. destruct (capacity <=? _) eqn:E; bool_prop; [|by split_and!; [..|congruence]].
  assert (Hne : m ≠ ∅) by (intros ->; rewrite map_size_empty in E; lia).
  destruct (evict_lru_spec m Hne) as (o & c & Ho & -> & Hle). split; [apply delete_subseteq|].
  assert (size m ≠ 0%nat) by (by rewrite map_size_ne_0_lookup; eauto).
  split; [rewrite map_size_delete_Some by eauto; lia|]. intros o' c' Ho' Hn. split; [lia|].
  apply lookup_delete_None in Hn as [->|Hn]; [|congruence]. by assert (c' = c) as -> by congruence.
Qed.

(** The counter a spend leaves, and the map it leaves it in. *)
Definition room_for (capacity : Z) (m : gmap Origin Counter) : gmap Origin Counter :=
  if capacity <=? Z.of_nat (size m) then evict_least_recently_used m else m.

Definition spent_of (origin : Origin) (window : Duration) (now : SystemTime) (s : State) : option Counter :=
  c ← counters s !! origin; if window_over window now c then None else Some c.

Lemma spend_eq origin budget window capacity now s :
  1 <= budget →
  ∃ c' m,
    let b := match spent_of origin window now s with Some c => spent c <? budget | None => true end in
    spend origin budget window capacity now s = (b, mk_state (<[origin := c']> m) (inflight s) (tick s + 1)) ∧
    last_used c' = tick s + 1 ∧
    m = (match counters s !! origin with Some _ => counters s | None => room_for capacity (counters s) end) ∧
    match spent_of origin window now s with
    | Some c => window_started c' = window_started c ∧ spent c' = spent c + Z.b2z b
    | None => window_started c' = now ∧ spent c' = 1
    end.
Proof.
  intros Hb. unfold spend, spent_of, room_for. destruct (counters s !! origin) as [c|]; cbn [mbind option_bind].
  2:{ do 2 eexists. cbn. split; [done|]. done. }
  destruct (window_over window now c); cbn [spent window_started last_used].
  - assert ((budget <=? 0) = false) as -> by (apply Z.leb_gt; lia). do 2 eexists. split; [done|]. done.
  - rewrite Z.leb_antisym. destruct (spent c <? budget); cbn [negb]; do 2 eexists; (split; [done|]); (split; [done|]);
      (split; [done|]); cbn; split; try done; lia.
Qed.

(** Spending keeps the counters within the budget and the map within its capacity. *)
Lemma spend_ok origin budget window capacity now s :
  1 <= budget → 1 <= capacity → state_ok budget capacity s →
  state_ok budget capacity (spend origin budget window capacity now s).2.
Proof.
  intros Hb Hcap [Hsp Hsz Hfl Hus Hdi].
  destruct (spend_eq origin budget window capacity now s Hb) as (c' & m & -> & Hl & Hm & Hc). cbn [snd].
  assert (Hsub : m ⊆ counters s).
  { subst m. destruct (counters s !! origin); [done|]. by apply make_room. }
  assert (Hin : ∀ o c, <[origin := c']> m !! o = Some c → (o = origin ∧ c = c') ∨ (o ≠ origin ∧ counters s !! o = Some c)).
  { intros o c [[-> ->]|[Hne Ho]]%lookup_insert_Some; [by left|right]. split; [done|]. by eapply lookup_weaken. }
  split; cbn; [| |done| |intros o1 o2 c1 c2].
  - intros o c [[-> ->]|[_ ?%Hsp]]%Hin; [|done]. unfold spent_of in Hc.
    destruct (counters s !! origin) as [c0|] eqn:Ho; [|cbn in Hc; lia]. apply Hsp in Ho. cbn in Hc.
    destruct (window_over _ _ _); [lia|]. destruct Hc as [_ ->]. destruct (spent c0 <? budget) eqn:E; bool_prop; cbn; lia.
  - subst m. destruct (counters s !! origin) as [c0|] eqn:Ho.
    + by rewrite map_size_insert_Some by eauto.
    + destruct (make_room (counters s) capacity Hcap Hsz) as (Hs & Hlt & _). fold (room_for capacity (counters s)) in *.
      rewrite map_size_insert_None; [lia|]. by eapply lookup_weaken_None.
  - intros o c [[-> ->]|[_ ?%Hus]]%Hin; lia.
  - intros [[-> ->]|[? H1]]%Hin [[-> ->]|[? H2]]%Hin Hll; [done| | |by eapply Hdi].
    + apply Hus in H2. lia.
    + apply Hus in H1. lia.
Qed.

(** What remains is what the counter leaves. *)
Lemma remaining_spent origin budget window now s :
  remaining origin budget window now s =
    match spent_of origin window now s with Some c => saturating_sub budget (spent c) | None => budget end.
Proof. unfold remaining, spent_of. destruct (counters s !! origin) as [c|]; cbn; [|done]. by destruct (window_over _ _ _). Qed.

(** A budget is spent one hand-off at a time: an origin is granted one exactly
    when [remaining] says that some are left, after which one fewer is; no other
    origin's count changes, unless the map is full and this origin new, when the one
    count used longest ago is forgotten; and within a budget of [budget] and a
    capacity of [capacity] it all stays. *)
Theorem spend_exact origin budget window capacity now s :
  1 <= budget → 1 <= capacity → 0 < window → state_ok budget capacity s →
  let '(granted, s') := spend origin budget window capacity now s in
  granted = (0 <? remaining origin budget window now s) ∧
  remaining origin budget window now s' = remaining origin budget window now s - Z.b2z granted ∧
  (∀ o, o ≠ origin →
     counters s' !! o = counters s !! o ∨
     counters s' !! o = None ∧ counters s !! origin = None ∧ Z.of_nat (size (counters s)) = capacity ∧
     ∃ c, counters s !! o = Some c ∧ ∀ o' c', counters s' !! o' = Some c' → last_used c <= last_used c') ∧
  inflight s' = inflight s ∧ state_ok budget capacity s'.
Proof.
  intros Hb Hcap Hw Hok. pose proof (spend_ok origin budget window capacity now s Hb Hcap Hok) as Hok'.
  destruct (spend_eq origin budget window capacity now s Hb) as (c' & m & Heq & Hl & Hm & Hc).
  rewrite Heq in *. cbn [snd] in Hok'. rewrite !remaining_spent.
  assert (Hsp' : spent_of origin window now (mk_state (<[origin:=c']> m) (inflight s) (tick s + 1)) = Some c').
  { unfold spent_of. cbn [counters]. rewrite lookup_insert_eq. cbn. enough (window_over window now c' = false) as -> by done.
    unfold spent_of in Hc. unfold window_over in *. destruct (counters s !! origin) as [c|]; cbn in Hc.
    - destruct (window <=? since_or_zero now (window_started c)) eqn:E; destruct Hc as [-> _]; [|done].
      rewrite since_or_zero_spec. apply Z.leb_gt. lia.
    - destruct Hc as [-> _]. rewrite since_or_zero_spec. apply Z.leb_gt. lia. }
  rewrite Hsp'. unfold saturating_sub. destruct Hok as [Hsp Hsz Hfl Hus Hdi].
  split_and!; [| | |done|done].
  - destruct (spent_of origin window now s) as [c|]; [|symmetry; apply Z.ltb_lt; lia].
    destruct (spent c <? budget) eqn:E; bool_prop; symmetry; [apply Z.ltb_lt|apply Z.ltb_ge]; lia.
  - destruct (spent_of origin window now s) as [c|] eqn:Hs; [|cbn; lia].
    assert (spent c <= budget).
    { unfold spent_of in Hs. destruct (counters s !! origin) as [c0|] eqn:Ho; [|done]. cbn in Hs.
      destruct (window_over _ _ _); [done|]. injection Hs as ->. apply Hsp in Ho. lia. }
    destruct (spent c <? budget) eqn:E; bool_prop; cbn in *; lia.
  - intros o Hne. cbn [counters]. rewrite lookup_insert_ne by done. subst m.
    destruct (counters s !! origin) as [c0|] eqn:Ho; [by left|].
    destruct (make_room (counters s) capacity Hcap Hsz) as (Hs & Hlt & Hev). fold (room_for capacity (counters s)) in *.
    destruct (room_for capacity (counters s) !! o) as [c|] eqn:Hr.
    + left. symmetry. by eapply lookup_weaken.
    + destruct (counters s !! o) as [c|] eqn:Hco; [right|by left]. destruct (Hev o c Hco Hr) as [? Hle].
      split_and!; [done..|]. exists c. split; [done|]. intros o' c1 [[-> ->]|[_ Hx]]%lookup_insert_Some; [|by eapply Hle, lookup_weaken].
      apply Hus in Hco. lia.
Qed.

(** ** Over a window *)

(** Hand-offs asked for one after another; what each was granted. *)
Fixpoint spends (budget : Z) (window : Duration) (capacity : Z) (es : list (Origin * SystemTime)) (s : State)
    : list (Origin * bool) * State :=
  match es with
  | [] => ([], s)
  | (o, now) :: es =>
      let '(granted, s) := spend o budget window capacity now s in
      let '(rest, s) := spends budget window capacity es s in
      ((o, granted) :: rest, s)
  end.

Definition granted_to (o : Origin) (l : list (Origin * bool)) : Z :=
  tally (λ e, Z.b2z (bool_decide (e.1 = o) && e.2)) l.
Definition asked_by (o : Origin) (es : list (Origin * SystemTime)) : Z :=
  tally (λ e, Z.b2z (bool_decide (e.1 = o))) es.

Lemma granted_cons o o' b l : granted_to o ((o', b) :: l) = Z.b2z (bool_decide (o' = o) && b) + granted_to o l.
Proof. done. Qed.

Lemma asked_cons o o' now es : asked_by o ((o', now) :: es) = Z.b2z (bool_decide (o' = o)) + asked_by o es.
Proof. done. Qed.

Lemma asked_nonneg o es : 0 <= asked_by o es.
Proof. apply tally_nonneg. intros e. by case_bool_decide. Qed.

(** There is room to count for every origin that is counted for or asks. *)
Definition room (capacity : Z) (es : list (Origin * SystemTime)) (s : State) : Prop :=
  Z.of_nat (size (dom (counters s) ∪ list_to_set es.*1)) <= capacity.

Section Window.
Context (budget : Z) (window : Duration) (capacity : Z) (t : SystemTime).
Context (Hbudget : 1 <= budget).

Lemma spend_with_room o now es s :
  room capacity ((o, now) :: es) s →
  ∃ c' b, spend o budget window capacity now s = (b, mk_state (<[o := c']> (counters s)) (inflight s) (tick s + 1)) ∧
    room capacity es (mk_state (<[o := c']> (counters s)) (inflight s) (tick s + 1)) ∧
    match spent_of o window now s with
    | Some c => window_started c' = window_started c ∧ spent c' = spent c + Z.b2z b ∧ b = (spent c <? budget)
    | None => window_started c' = now ∧ spent c' = 1 ∧ b = true
    end.
Proof using Hbudget.
  unfold room. intros Hroom. destruct (spend_eq o budget window capacity now s Hbudget) as (c' & m & Heq & _ & Hm & Hc).
  assert (m = counters s) as ->.
  { subst m. destruct (counters s !! o) eqn:Ho; [done|]. unfold room_for.
    enough ((capacity <=? Z.of_nat (size (counters s))) = false) as -> by done. apply Z.leb_gt.
    assert (size (dom (counters s)) < size (dom (counters s) ∪ list_to_set ((o, now) :: es).*1))%nat; [|rewrite size_dom in *; lia].
    apply subset_size. cbn. apply not_elem_of_dom in Ho. set_solver. }
  exists c'. eexists. split; [exact Heq|]. split.
  - cbn [counters]. etrans; [|exact Hroom]. apply inj_le, subseteq_size. cbn. rewrite dom_insert. set_solver.
  - destruct (spent_of o window now s); tauto.
Qed.

(** Once a window has begun no earlier than [t], the requests before [t + window]
    are all counted in it. *)
Lemma granted_in_window es s o c :
  Forall (λ e, t <= e.2 < t + window) es → room capacity es s →
  counters s !! o = Some c → t <= window_started c → spent c <= budget →
  granted_to o (spends budget window capacity es s).1 = Z.min (budget - spent c) (asked_by o es).
Proof using Hbudget.
  intros Hes. revert s c. induction Hes as [|[o' now] es [Hlo Hhi] Hes IH]; intros s c Hroom Ho Hws Hsp.
  { unfold granted_to, asked_by, tally. cbn. lia. }
  cbn [spends]. cbn [snd] in Hlo, Hhi. destruct (spend_with_room o' now es s Hroom) as (c' & b & -> & Hroom' & Hc).
  set (s' := mk_state _ _ _) in *. destruct (spends _ _ _ es s') as [rest s''] eqn:Hrest. cbn [fst].
  rewrite granted_cons, asked_cons. pose proof (asked_nonneg o es).
  destruct (decide (o' = o)) as [->|Hne].
  - rewrite bool_decide_eq_true_2 by done. cbn [andb Z.b2z].
    assert (Hsame : spent_of o window now s = Some c).
    { unfold spent_of. rewrite Ho. cbn. unfold window_over. rewrite since_or_zero_spec.
      enough ((window <=? Z.max (now - window_started c) 0) = false) as -> by done. apply Z.leb_gt. lia. }
    rewrite Hsame in Hc. destruct Hc as (Hws' & Hsp' & ->).
    pose proof (IH s' c' Hroom' (lookup_insert_eq _ _ _)) as IH'. rewrite Hrest in IH'. cbn [fst] in IH'.
    destruct (spent c <? budget) eqn:E; bool_prop; cbn [Z.b2z] in *; rewrite IH' by lia; lia.
  - rewrite bool_decide_eq_false_2 by done. cbn [andb Z.b2z].
    pose proof (IH s' c Hroom') as IH'. rewrite Hrest in IH'. cbn [fst] in IH'. rewrite IH'; [lia| |done|done].
    cbn [counters s']. by rewrite lookup_insert_ne.
Qed.

Lemma granted_straddling es s o c :
  Forall (λ e, t <= e.2 < t + window) es → room capacity es s →
  counters s !! o = Some c → spent c <= budget →
  granted_to o (spends budget window capacity es s).1 <= 2 * budget - spent c.
Proof using Hbudget.
  intros Hes. revert s c. induction Hes as [|[o' now] es [Hlo Hhi] Hes IH]; intros s c Hroom Ho Hsp.
  { unfold granted_to, tally. cbn. lia. }
  cbn [spends]. cbn [snd] in Hlo, Hhi. destruct (spend_with_room o' now es s Hroom) as (c' & b & -> & Hroom' & Hc).
  set (s' := mk_state _ _ _) in *. destruct (spends _ _ _ es s') as [rest s''] eqn:Hrest. cbn [fst].
  rewrite granted_cons.
  destruct (decide (o' = o)) as [->|Hne].
  - rewrite bool_decide_eq_true_2 by done. cbn [andb].
    destruct (spent_of o window now s) as [c0|] eqn:Hsame.
    + assert (c0 = c) as -> by (unfold spent_of in Hsame; rewrite Ho in Hsame; cbn in Hsame; destruct (window_over _ _ _); congruence).
      destruct Hc as (Hws' & Hsp' & ->).
      pose proof (IH s' c' Hroom' (lookup_insert_eq _ _ _)) as IH'. rewrite Hrest in IH'. cbn [fst] in IH'.
      destruct (spent c <? budget) eqn:E; bool_prop; cbn [Z.b2z] in *; specialize (IH' ltac:(lia)); lia.
    + destruct Hc as (Hws' & Hsp' & ->).
      pose proof (granted_in_window es s' o c' Hes Hroom' (lookup_insert_eq _ _ _)) as H'.
      rewrite Hrest in H'. cbn [fst] in H'. rewrite H' by lia. cbn. lia.
  - rewrite bool_decide_eq_false_2 by done. cbn [andb Z.b2z].
    pose proof (IH s' c Hroom') as IH'. rewrite Hrest in IH'. cbn [fst] in IH'.
    assert (counters s' !! o = Some c) as Hs' by (cbn [counters s']; by rewrite lookup_insert_ne).
    specialize (IH' Hs' Hsp). lia.
Qed.
End Window.

(** How many browsers an origin is worth: of the hand-offs asked for within less
    than a window, an origin not counted for before is granted the first [budget] and
    no more, and any origin at most twice the budget, one for each of the two windows
    they can fall into - as long as there is room to count for every origin that
    asks. *)
Lemma handoffs_per_window budget window capacity t es s o :
  1 <= budget → 1 <= capacity → state_ok budget capacity s →
  Forall (λ e, t <= e.2 < t + window) es → room capacity es s →
  (counters s !! o = None → granted_to o (spends budget window capacity es s).1 = Z.min budget (asked_by o es)) ∧
  granted_to o (spends budget window capacity es s).1 <= 2 * budget.
Proof.
  intros Hb Hcap [Hsp _ _ _ _] Hes Hroom.
  assert (Hnew : counters s !! o = None →
    granted_to o (spends budget window capacity es s).1 = Z.min budget (asked_by o es)).
  { clear Hsp. revert s Hroom. induction Hes as [|[o' now] es [Hlo Hhi] Hes IH]; intros s Hroom Ho.
    { unfold granted_to, asked_by, tally. cbn. lia. }
    cbn [spends]. cbn [snd] in Hlo, Hhi.
    destruct (spend_with_room budget window capacity Hb o' now es s Hroom) as (c' & b & -> & Hroom' & Hc).
    set (s' := mk_state _ _ _) in *. destruct (spends _ _ _ es s') as [rest s''] eqn:Hrest. cbn [fst].
    rewrite granted_cons, asked_cons. pose proof (asked_nonneg o es).
    destruct (decide (o' = o)) as [->|Hne].
    - rewrite bool_decide_eq_true_2 by done. unfold spent_of in Hc. rewrite Ho in Hc. destruct Hc as (Hws' & Hsp' & ->).
      pose proof (granted_in_window budget window capacity t Hb es s' o c' Hes Hroom' (lookup_insert_eq _ _ _)) as H'.
      rewrite Hrest in H'. cbn [fst] in H'. rewrite H' by lia. cbn. lia.
    - rewrite bool_decide_eq_false_2 by done. cbn [andb Z.b2z].
      pose proof (IH s' Hroom') as IH'. rewrite Hrest in IH'. cbn [fst] in IH'. rewrite IH'; [lia|].
      cbn [counters s']. by rewrite lookup_insert_ne. }
  split; [exact Hnew|]. destruct (counters s !! o) as [c|] eqn:Ho; [|rewrite Hnew by done; lia].
  pose proof (granted_straddling budget window capacity t Hb es s o c Hes Hroom Ho) as Hg.
  pose proof (Hsp _ _ Ho). lia.
Qed.

(** ** Runs of spends *)

Lemma spends_app budget window capacity es es' s :
  spends budget window capacity (es ++ es') s =
    let '(r, s) := spends budget window capacity es s in
    let '(r', s) := spends budget window capacity es' s in (r ++ r', s).
Proof.
  revert s. induction es as [|[o now] es IH]; intros s; cbn [app spends]; [by destruct (spends _ _ _ es' s)|].
  destruct (spend _ _ _ _ _ s) as [b s1]. rewrite IH. destruct (spends _ _ _ es s1) as [r s2].
  by destruct (spends _ _ _ es' s2).
Qed.

Lemma spends_ok budget window capacity es s :
  1 <= budget → 1 <= capacity → state_ok budget capacity s →
  state_ok budget capacity (spends budget window capacity es s).2.
Proof.
  intros Hb Hc. revert s. induction es as [|[o now] es IH]; intros s Hok; cbn [spends]; [done|].
  pose proof (spend_ok o budget window capacity now s Hb Hc Hok) as Hok'.
  destruct (spend _ _ _ _ _ s) as [b s1]. specialize (IH s1 Hok'). by destruct (spends _ _ _ es s1).
Qed.

(** Nothing is counted for an origin that was not counted for and did not ask. *)
Lemma spends_dom budget window capacity es s :
  1 <= budget → dom (counters (spends budget window capacity es s).2) ⊆ dom (counters s) ∪ list_to_set es.*1.
Proof.
  intros Hb. revert s. induction es as [|[o now] es IH]; intros s; cbn [spends]; [set_solver|].
  destruct (spend_eq o budget window capacity now s Hb) as (c' & m & -> & _ & Hm & _). set (s1 := mk_state _ _ _).
  specialize (IH s1). destruct (spends _ _ _ es s1) as [r s2]. cbn [snd fmap list_fmap fst list_to_set] in *.
  assert (dom m ⊆ dom (counters s)).
  { subst m. destruct (counters s !! o); [done|]. unfold room_for. destruct (_ <=? _); [|done].
    unfold evict_least_recently_used. destruct (min_by_key _ _) as [[k c]|]; [|done]. rewrite dom_delete. set_solver. }
  etrans; [exact IH|]. cbn [counters s1]. rewrite dom_insert. set_solver.
Qed.

(** Budgets do not depend on the solves in flight. *)
Definition same_budgets (s s' : State) : Prop := counters s = counters s' ∧ tick s = tick s'.

Lemma spend_same origin budget window capacity now s s' :
  same_budgets s s' →
  (spend origin budget window capacity now s).1 = (spend origin budget window capacity now s').1 ∧
  same_budgets (spend origin budget window capacity now s).2 (spend origin budget window capacity now s').2 ∧
  inflight (spend origin budget window capacity now s').2 = inflight s'.
Proof.
  intros [Hc Ht]. unfold spend. rewrite Hc, Ht. destruct (counters s' !! origin) as [c|]; [|done].
  by destruct (window_over _ _ _), (_ <=? _).
Qed.

(** ** Solves in flight *)

(** Only a key that was registered is joined, and its handle is alive. *)
Lemma joinable_spec live key s n : joinable live key s = Some n ↔ inflight s !! key = Some n ∧ live n = true.
Proof.
  unfold joinable. destruct (inflight s !! key) as [m|]; cbn; [|by split; [|intros [? _]]].
  destruct (live m) eqn:E; (split; [intros [= <-]|intros [[= ->] ?]]); congruence || done.
Qed.

Lemma register_spec live key n capacity s :
  1 <= capacity → Z.of_nat (size (inflight s)) <= capacity →
  let s' := register live key n capacity s in
  counters s' = counters s ∧ tick s' = tick s ∧ Z.of_nat (size (inflight s')) <= capacity ∧
  (∀ k m, inflight s' !! k = Some m → (k = key ∧ m = n) ∨ inflight s !! k = Some m) ∧
  (∀ k m, k ≠ key → inflight s !! k = Some m → live m = true → inflight s' !! k = Some m) ∧
  (Z.of_nat (size (inflight s)) < capacity → inflight s' !! key = Some n).
Proof.
  intros Hc Hs. unfold register. set (m := if SWEEP_AT <=? _ then _ else _). cbv zeta.
  assert (Hsub : m ⊆ inflight s).
  { unfold m. destruct (_ <=? _); [|done]. apply map_subseteq_spec. by intros k x [? _]%map_lookup_filter_Some. }
  assert (Hkeep : ∀ k x, inflight s !! k = Some x → live x = true → m !! k = Some x).
  { intros k x Hk Hx. unfold m. destruct (_ <=? _); [|done]. by apply map_lookup_filter_Some. }
  assert (Hsz : (size m ≤ size (inflight s))%nat) by by apply map_subseteq_size.
  clearbody m. destruct (capacity <=? Z.of_nat (size m)) eqn:E; bool_prop; cbn.
  - split_and!; try done; [lia|intros k x Hk; right; by eapply lookup_weaken|auto|lia].
  - split_and!; try done.
    + rewrite map_size_insert. destruct (m !! key); cbn; lia.
    + intros k x [[<- <-]|[_ Hk]]%lookup_insert_Some; [by left|right]. by eapply lookup_weaken.
    + intros k x Hne Hk Hx. rewrite lookup_insert_ne by done. auto.
    + intros _. apply lookup_insert_eq.
Qed.
End State.
Arguments counters {_ _ _} _.
Arguments inflight {_ _ _} _.
Arguments tick {_ _ _} _.
Arguments mk_state {_ _ _} _ _ _.

(** ** A run *)

Module Demo.
Import Extern.Sample.

#[export] Instance url_eq_dec : EqDecision url.
Proof. solve_decision. Defined.
#[export] Instance url_countable : Countable url.
Proof.
  refine (inj_countable' (λ u, (u_scheme u, u_host u, u_port u, u_path u)) (λ x, mk_url x.1.1.1 x.1.1.2 x.1.2 x.2) _).
  by intros [].
Defined.

Definition shop : Origin := mk_origin b#"https" b#"shop.example" 443.
Definition bank : Origin := mk_origin b#"https" b#"bank.example" 443.

(** With the default budget of two hand-offs in five minutes: the third is refused,
    and another origin's first is granted. *)
Definition busy_minute : list (Origin * SystemTime) :=
  [(shop, 0); (shop, from_secs 20); (bank, from_secs 30); (shop, from_secs 40)].

Example busy_minute_granted :
  (spends DEFAULT_BUDGET DEFAULT_WINDOW DEFAULT_TRACKED_ORIGINS busy_minute default_state).1 =
    [(shop, true); (shop, true); (bank, true); (shop, false)].
Proof. vm_compute. reflexivity. Qed.

(** A window begins with the first hand-off it counts, so three can fall within a
    few seconds of each other around its end. *)
Example around_the_end_of_a_window :
  (spends DEFAULT_BUDGET DEFAULT_WINDOW DEFAULT_TRACKED_ORIGINS
     [(shop, 0); (shop, from_secs 299); (shop, from_secs 300); (shop, from_secs 301)] default_state).1 =
    [(shop, true); (shop, true); (shop, true); (shop, true)].
Proof. vm_compute. reflexivity. Qed.

Lemma demo_state_ok : state_ok DEFAULT_BUDGET DEFAULT_TRACKED_ORIGINS default_state.
Proof. apply default_state_ok. unfold DEFAULT_TRACKED_ORIGINS. lia. Qed.

Lemma spend_exact_witness :
  1 <= DEFAULT_BUDGET ∧ (spend shop DEFAULT_BUDGET DEFAULT_WINDOW DEFAULT_TRACKED_ORIGINS 7 default_state).1 = true.
Proof.
  split; [done|].
  pose proof (spend_exact shop DEFAULT_BUDGET DEFAULT_WINDOW DEFAULT_TRACKED_ORIGINS 7 default_state) as H.
  destruct (spend _ _ _ _ _ _) as [granted s'] eqn:Hs.
  destruct H as (-> & _); [done..|apply demo_state_ok|]. reflexivity.
Defined.

Lemma handoffs_per_window_witness :
  granted_to shop (spends DEFAULT_BUDGET DEFAULT_WINDOW DEFAULT_TRACKED_ORIGINS busy_minute default_state).1 =
    Z.min DEFAULT_BUDGET (asked_by shop busy_minute).
Proof.
  apply (handoffs_per_window DEFAULT_BUDGET DEFAULT_WINDOW DEFAULT_TRACKED_ORIGINS 0 busy_minute default_state shop).
  - done.
  - done.
  - apply demo_state_ok.
  - by repeat constructor.
  - unfold room. vm_compute. discriminate.
  - reflexivity.
Defined.
End Demo.
