(* ===== verification/ChallengeFlight.v ===== *)
(** [chromulate-http]: solves shared by the callers that meet one challenge ([solve]
    and [start] of src/crates/chromulate-http/src/middleware/challenge.rs).

    A shared solve lives as long as a caller holds it: solves are kept in an arena, a
    caller holds a number, and a registered weak handle upgrades exactly while its
    solve is held.  A solve first waits for one of the permits, then its browser
    runs, and it ends with an outcome; one nobody holds any more is dropped, and its
    permit with it.  Callers interleave at the lock, so what they do is a step
    relation; the semaphore's order of service and the timer are left open.
    [w_ledger] records what was asked of the budgets; the code does not keep it. *)
From S2P Require Import Prelude RustStr RustTime Extern CoreError Origin Challenge ChallengeState.
Local Open Scope Z_scope.

Definition NAME : str := b#"challenge".

Section Flight.
Context `{HeaderMapApi} `{UrlApi} `{!EqDecision Url, !Countable Url}.

Inductive SolveOutcome := Done (handback : Handback) | Failed (message : str).

(** What a solve makes of the fallback's answer; the message is the error's,
    flattened. *)
Definition outcome_of (answer : Handback + str) : SolveOutcome :=
  match answer with inl handback => Done handback | inr message => Failed message end.

(** What [solve] makes of an outcome. *)
Definition handback_of (outcome : SolveOutcome) : Handback + Error :=
  match outcome with Done handback => inl handback | Failed _ => inr (Middleware NAME) end.

(** What a caller does under the lock; a solve it starts gets the number [fresh]. *)
Inductive Admission := Join (n : nat) | Start (n : nat) | Refuse.

Definition join_or_start (p : HandoffPolicy) (live : nat → bool) (fresh : nat) (origin : Origin) (key : SolveKey)
    (now : SystemTime) (s : State) : Admission * State :=
  match joinable live key s with
  | Some n => (Join n, s)
  | None =>
      let '(granted, s) := spend origin (po_budget p) (po_window p) (po_tracked_origins p) now s in
      if granted then (Start fresh, register live key fresh (po_tracked_origins p) s) else (Refuse, s)
  end.

(** ** Callers *)

Inductive SolvePhase := Queued | Browsing | Ended (outcome : SolveOutcome).

Record Solve := mk_solve { sv_key : SolveKey; sv_origin : Origin; sv_phase : SolvePhase }.

Record World := mk_world {
  w_state : State;
  w_solves : list Solve;
  w_waiting : list (SolveKey * nat);
  w_ledger : list (Origin * SystemTime * bool);
}.

Definition is_live (w : World) (n : nat) : bool := bool_decide (n ∈ snd <$> w_waiting w).

Definition with_phase (ph : SolvePhase) (s : Solve) : Solve := mk_solve (sv_key s) (sv_origin s) ph.

(** Whether the browser of the solve [n] runs: the solve is held and has its permit. *)
Definition runs (live : nat → bool) (l : list Solve) (n : nat) : bool :=
  live n && match l !! n with Some (mk_solve _ _ Browsing) => true | _ => false end.

(** The browsers alive, which are the permits in use. *)
Definition browsers_of (live : nat → bool) (l : list Solve) : Z :=
  zlen (filter (λ n, runs live l n = true) (seq 0 (length l))).

Definition browsers (w : World) : Z := browsers_of (is_live w) (w_solves w).

Definition start_world : World := mk_world default_state [] [] [].

(** A caller asks, and joins a solve, starts one or is refused; a queued solve gets a
    permit; a browser ends; a caller takes the outcome, runs out of patience, or is
    dropped.  The label is what a caller gets. *)
Inductive step (p : HandoffPolicy) (w : World) : World → option (SolveKey * option (Handback + Error)) → Prop :=
  | Step_join origin key now n s :
      join_or_start p (is_live w) (length (w_solves w)) origin key now (w_state w) = (Join n, s) →
      step p w (mk_world s (w_solves w) ((key, n) :: w_waiting w) (w_ledger w)) None
  | Step_start origin key now n s :
      join_or_start p (is_live w) (length (w_solves w)) origin key now (w_state w) = (Start n, s) →
      step p w (mk_world s (w_solves w ++ [mk_solve key origin Queued]) ((key, n) :: w_waiting w)
                  (w_ledger w ++ [(origin, now, true)])) None
  | Step_refuse origin key now s :
      join_or_start p (is_live w) (length (w_solves w)) origin key now (w_state w) = (Refuse, s) →
      step p w (mk_world s (w_solves w) (w_waiting w) (w_ledger w ++ [(origin, now, false)])) (Some (key, None))
  | Step_browse n key origin :
      w_solves w !! n = Some (mk_solve key origin Queued) → is_live w n = true → browsers w < po_concurrency p →
      step p w (mk_world (w_state w) (alter (with_phase Browsing) n (w_solves w)) (w_waiting w) (w_ledger w)) None
  | Step_end n key origin answer :
      w_solves w !! n = Some (mk_solve key origin Browsing) → is_live w n = true →
      step p w (mk_world (w_state w) (alter (with_phase (Ended (outcome_of answer))) n (w_solves w)) (w_waiting w)
                  (w_ledger w)) None
  | Step_receive l1 l2 key n key' origin outcome :
      w_waiting w = l1 ++ (key, n) :: l2 → w_solves w !! n = Some (mk_solve key' origin (Ended outcome)) →
      step p w (mk_world (settle key (w_state w)) (w_solves w) (l1 ++ l2) (w_ledger w))
        (Some (key, Some (handback_of outcome)))
  | Step_overrun l1 l2 key n :
      w_waiting w = l1 ++ (key, n) :: l2 →
      step p w (mk_world (settle key (w_state w)) (w_solves w) (l1 ++ l2) (w_ledger w))
        (Some (key, Some (inl (Declined BudgetExhausted))))
  | Step_abandon l1 l2 key n :
      w_waiting w = l1 ++ (key, n) :: l2 →
      step p w (mk_world (w_state w) (w_solves w) (l1 ++ l2) (w_ledger w)) None.

Inductive reachable (p : HandoffPolicy) : World → Prop :=
  | Reach_start : reachable p start_world
  | Reach_step w w' a : reachable p w → step p w w' a → reachable p w'.

(** ** Counting browsers *)

Lemma runs_Some live l n :
  runs live l n = true ↔ live n = true ∧ ∃ k o, l !! n = Some (mk_solve k o Browsing).
Proof.
  unfold runs. rewrite andb_true_iff. split; (intros [Hl Hx]; split; [done|]).
  - destruct (l !! n) as [[k o []]|]; [done|by exists k, o|done..].
  - destruct Hx as (k & o & ->). done.
Qed.

Lemma filter_length_le {A} (P Q : A → Prop) `{∀ x, Decision (P x)} `{∀ x, Decision (Q x)} (l : list A) :
  (∀ x, x ∈ l → P x → Q x) → zlen (filter P l) <= zlen (filter Q l).
Proof.
  induction l as [|x l IH]; intros Hpq; [done|]. rewrite !filter_cons.
  assert (zlen (filter P l) <= zlen (filter Q l)) by (apply IH; intros y Hy; apply Hpq; by right).
  pose proof (Hpq x (list_elem_of_here _ _)). repeat case_decide; rewrite ?zlen_cons; [lia|tauto|lia|lia].
Qed.

Lemma filter_length_add {A} `{EqDecision A} (P Q : A → Prop) `{∀ x, Decision (P x)} `{∀ x, Decision (Q x)} (k : A) (l : list A) :
  NoDup l → (∀ x, P x → Q x ∨ x = k) → zlen (filter P l) <= zlen (filter Q l) + 1.
Proof.
  intros Hnd Hpq. destruct (decide (k ∈ l)) as [Hk|Hk].
  - apply list_elem_of_split in Hk as (l1 & l2 & ->). rewrite !filter_app, !filter_cons, !zlen_app.
    apply NoDup_app in Hnd as (_ & Hn1 & [Hn2 _]%NoDup_cons).
    assert (zlen (filter P l1) <= zlen (filter Q l1)).
    { apply filter_length_le. intros x Hx Hp. destruct (Hpq x Hp) as [?| ->]; [done|]. by destruct (Hn1 k Hx); left. }
    assert (zlen (filter P l2) <= zlen (filter Q l2)).
    { apply filter_length_le. intros x Hx Hp. by destruct (Hpq x Hp) as [?| ->]. }
    repeat case_decide; rewrite ?zlen_cons; lia.
  - etrans; [apply (filter_length_le _ Q)|lia]. intros x Hx Hp. by destruct (Hpq x Hp) as [?| ->].
Qed.

Lemma browsers_le live live' l l' :
  length l' = length l → (∀ n, runs live' l' n = true → runs live l n = true) → browsers_of live' l' <= browsers_of live l.
Proof. intros Hlen Hr. unfold browsers_of. rewrite Hlen. apply filter_length_le. auto. Qed.

Lemma browsers_add live l l' k :
  length l' = length l → (∀ n, runs live l' n = true → runs live l n = true ∨ n = k) →
  browsers_of live l' <= browsers_of live l + 1.
Proof. intros Hlen Hr. unfold browsers_of. rewrite Hlen. apply (filter_length_add _ _ k); [apply NoDup_seq|auto]. Qed.

Lemma browsers_queued live live' l s :
  (∀ n, (n < length l)%nat → live' n = live n) → sv_phase s = Queued →
  browsers_of live' (l ++ [s]) <= browsers_of live l.
Proof.
  intros Hl Hs. unfold browsers_of. rewrite length_app, seq_app, filter_app, zlen_app. cbn [length seq Nat.add].
  assert (Hlast : runs live' (l ++ [s]) (length l) ≠ true).
  { intros (_ & k & o & Hx)%runs_Some. rewrite list_lookup_middle in Hx by done. by injection Hx as ->. }
  rewrite filter_cons, decide_False by done. cbn [filter]. change (zlen []) with 0. rewrite Z.add_0_r.
  apply filter_length_le. intros n Hn (Hn' & k & o & Hx)%runs_Some. apply elem_of_seq in Hn.
  rewrite lookup_app_l in Hx by lia. apply runs_Some. rewrite <- Hl by lia. eauto.
Qed.

(** ** What stays true *)

Record world_ok (p : HandoffPolicy) (w : World) : Prop := {
  ok_state : state_ok (po_budget p) (po_tracked_origins p) (w_state w);
  ok_marker key n : inflight (w_state w) !! key = Some n → ∃ o ph, w_solves w !! n = Some (mk_solve key o ph);
  ok_waiting key n : (key, n) ∈ w_waiting w → ∃ o ph, w_solves w !! n = Some (mk_solve key o ph);
  ok_browsers : browsers w <= po_concurrency p;
  ok_ledger : ∃ s,
    spends (po_budget p) (po_window p) (po_tracked_origins p) (fst <$> w_ledger w) default_state =
      ((λ e, (e.1.1, e.2)) <$> w_ledger w, s) ∧
    counters s = counters (w_state w) ∧ tick s = tick (w_state w);
  ok_launches : sv_origin <$> w_solves w = (λ e, e.1.1) <$> filter (λ e, e.2 = true) (w_ledger w);
}.

Lemma start_world_ok p : policy_ok p → world_ok p start_world.
Proof.
  intros []. split; cbn [start_world w_state w_solves w_waiting w_ledger]; try done.
  - apply default_state_ok. lia.
  - intros key n Hx. by apply elem_of_nil in Hx.
  - unfold browsers, browsers_of. cbn. change (zlen []) with 0. lia.
  - by exists default_state.
Qed.

Lemma is_live_waiting w key n : (key, n) ∈ w_waiting w → is_live w n = true.
Proof. intros Hin. apply bool_decide_eq_true, list_elem_of_fmap. by exists (key, n). Qed.

(** Callers may come to a solve that is held, and go. *)
Lemma flight_ok_callers p w st waiting :
  world_ok p w → state_ok (po_budget p) (po_tracked_origins p) st → same_budgets (w_state w) st →
  (∀ key n, inflight st !! key = Some n → inflight (w_state w) !! key = Some n) →
  (∀ key n, (key, n) ∈ waiting → (key, n) ∈ w_waiting w ∨ is_live w n = true ∧ inflight (w_state w) !! key = Some n) →
  world_ok p (mk_world st (w_solves w) waiting (w_ledger w)).
Proof.
  intros [Hs Hm Hw Hb Hl Hn] Hst [Hc Ht] Hin Hsub. split; cbn [w_state w_solves w_waiting w_ledger]; try done.
  - eauto.
  - intros key n [?|[_ ?]]%Hsub; eauto.
  - etrans; [|exact Hb]. apply browsers_le; [done|]. intros n (Hlive & Hx)%runs_Some. apply runs_Some. split; [|done].
    apply bool_decide_eq_true, list_elem_of_fmap in Hlive as ([key m] & -> & [Hwait|[? _]]%Hsub); [|done].
    by eapply is_live_waiting.
  - destruct Hl as (s & ? & ? & ?). exists s. split; [done|]. split; congruence.
Qed.

(** A solve moves on while it is held. *)
Lemma flight_ok_phase p w n key origin ph ph' :
  world_ok p w → w_solves w !! n = Some (mk_solve key origin ph) →
  (ph' = Browsing → browsers w < po_concurrency p) →
  world_ok p (mk_world (w_state w) (alter (with_phase ph') n (w_solves w)) (w_waiting w) (w_ledger w)).
Proof.
  intros [Hs Hm Hw Hb Hl Hn] Hat Hph.
  assert (Hlook : ∀ m k o x, w_solves w !! m = Some (mk_solve k o x) →
    ∃ o' x', alter (with_phase ph') n (w_solves w) !! m = Some (mk_solve k o' x')).
  { intros m k o x Hx. destruct (decide (m = n)) as [->|Hne].
    - rewrite list_lookup_alter_eq, Hx. by eexists _, _.
    - rewrite list_lookup_alter_ne by done. eauto. }
  assert (Hruns : ∀ m, runs (is_live w) (alter (with_phase ph') n (w_solves w)) m = true →
    runs (is_live w) (w_solves w) m = true ∨ (m = n ∧ ph' = Browsing)).
  { intros m (Hlive & k & o & Hx)%runs_Some. destruct (decide (m = n)) as [->|Hne].
    - rewrite list_lookup_alter_eq, Hat in Hx. injection Hx as _ _ ->. by right.
    - rewrite list_lookup_alter_ne in Hx by done. left. apply runs_Some. eauto. }
  assert (Hlen : length (alter (with_phase ph') n (w_solves w)) = length (w_solves w)) by apply length_alter.
  split; cbn [w_state w_solves w_waiting w_ledger]; try done.
  - intros k m (o & x & Hx)%Hm. eauto.
  - intros k m (o & x & Hx)%Hw. eauto.
  - unfold browsers in *. cbn [w_solves]. destruct ph' as [| |out].
    + etrans; [|exact Hb]. apply browsers_le; [done|]. intros m Hx. by destruct (Hruns m Hx) as [?|[_ ?]].
    + specialize (Hph eq_refl). etrans; [apply (browsers_add _ (w_solves w) _ n); [done|]|].
      * intros m Hx. destruct (Hruns m Hx) as [?|[? _]]; auto.
      * unfold is_live in *. cbn [w_waiting] in *. lia.
    + etrans; [|exact Hb]. apply browsers_le; [done|]. intros m Hx. by destruct (Hruns m Hx) as [?|[_ ?]].
  - rewrite <- Hn. apply list_eq. intros m. rewrite !list_lookup_fmap. destruct (decide (m = n)) as [->|Hne].
    + by rewrite list_lookup_alter_eq, Hat.
    + by rewrite list_lookup_alter_ne.
Qed.

(** What is asked of a budget goes into the ledger. *)
Lemma ledger_snoc p w origin now :
  world_ok p w → 
  let '(granted, st) := spend origin (po_budget p) (po_window p) (po_tracked_origins p) now (w_state w) in
  ∃ s, spends (po_budget p) (po_window p) (po_tracked_origins p) (fst <$> (w_ledger w ++ [(origin, now, granted)]))
         default_state = ((λ e, (e.1.1, e.2)) <$> (w_ledger w ++ [(origin, now, granted)]), s) ∧
    counters s = counters st ∧ tick s = tick st ∧ inflight st = inflight (w_state w).
Proof.
  intros [_ _ _ _ (s & Hs & Hc & Ht) _].
  pose proof (spend_same origin (po_budget p) (po_window p) (po_tracked_origins p) now s (w_state w) (conj Hc Ht)) as Hsame.
  destruct (spend _ _ _ _ _ (w_state w)) as [granted st]. cbn [fst snd] in Hsame. rewrite !fmap_app, spends_app, Hs.
  cbn [fmap list_fmap fst snd spends]. destruct (spend _ _ _ _ _ s) as [b s']. cbn [fst snd] in Hsame.
  destruct Hsame as (-> & [? ?] & ?). exists s'. done.
Qed.

Lemma fresh_solve (l : list Solve) s n k o ph :
  l !! n = Some (mk_solve k o ph) → (l ++ [s]) !! n = Some (mk_solve k o ph).
Proof. apply lookup_app_l_Some. Qed.

(** What a caller does under the lock. *)
Lemma join_or_start_spec p live fresh origin key now s a s' :
  join_or_start p live fresh origin key now s = (a, s') →
  match a with
  | Join n => s' = s ∧ inflight s !! key = Some n ∧ live n = true
  | Start n =>
      n = fresh ∧ ∃ st, spend origin (po_budget p) (po_window p) (po_tracked_origins p) now s = (true, st) ∧
        s' = register live key fresh (po_tracked_origins p) st
  | Refuse => spend origin (po_budget p) (po_window p) (po_tracked_origins p) now s = (false, s')
  end.
Proof.
  unfold join_or_start. destruct (joinable live key s) as [n|] eqn:Hj.
  - intros [= <- <-]. apply joinable_spec in Hj as [? ?]. done.
  - destruct (spend _ _ _ _ _ s) as [[] st]; intros [= <- <-]; [|done]. split; [done|]. by exists st.
Qed.

Lemma flight_ok_start p w origin key now n s :
  policy_ok p → world_ok p w →
  join_or_start p (is_live w) (length (w_solves w)) origin key now (w_state w) = (Start n, s) →
  world_ok p (mk_world s (w_solves w ++ [mk_solve key origin Queued]) ((key, n) :: w_waiting w)
                (w_ledger w ++ [(origin, now, true)])).
Proof.
  intros [Hpb Hpw Hpt Hpc] Hok (-> & st & Hsp & ->)%join_or_start_spec.
  pose proof (ledger_snoc p w origin now Hok) as Hled. rewrite Hsp in Hled.
  destruct Hled as (sf & Hspends & Hc & Ht & Hi). destruct Hok as [Hs Hm Hw Hb _ Hn].
  pose proof (spend_ok origin (po_budget p) (po_window p) (po_tracked_origins p) now (w_state w) Hpb Hpt Hs) as Hst.
  rewrite Hsp in Hst. cbn [snd] in Hst.
  destruct (register_spec (is_live w) key (length (w_solves w)) (po_tracked_origins p) st Hpt)
    as (Hrc & Hrt & Hrs & Hrin & _); [by apply Hst|].
  set (s' := register _ _ _ _ _) in *. clearbody s'.
  assert (Hwait : ∀ k m, (k, m) ∈ w_waiting w → (m < length (w_solves w))%nat).
  { intros k m (o & ph & Hx)%Hw. by eapply lookup_lt_Some. }
  split; cbn [w_state w_solves w_waiting w_ledger].
  - destruct Hst. split; rewrite ?Hrc, ?Hrt; done.
  - intros k m [[-> ->]|Hk]%Hrin.
    + exists origin, Queued. by apply list_lookup_middle.
    + rewrite Hi in Hk. destruct (Hm k m Hk) as (o & ph & ?). exists o, ph. by apply fresh_solve.
  - intros k m [[= -> ->]|Hk]%elem_of_cons.
    + exists origin, Queued. by apply list_lookup_middle.
    + destruct (Hw k m Hk) as (o & ph & ?). exists o, ph. by apply fresh_solve.
  - etrans; [|exact Hb]. apply browsers_queued; [|done]. intros m Hlt. unfold is_live. cbn [w_waiting].
    apply bool_decide_ext. rewrite fmap_cons, elem_of_cons. cbn [snd]. split; [intros [->|?]; [lia|done]|by right].
  - exists sf. split; [done|]. split; congruence.
  - rewrite filter_app, !fmap_app, Hn. by rewrite filter_cons, decide_True.
Qed.

Lemma flight_ok_refuse p w origin key now s :
  policy_ok p → world_ok p w →
  join_or_start p (is_live w) (length (w_solves w)) origin key now (w_state w) = (Refuse, s) →
  world_ok p (mk_world s (w_solves w) (w_waiting w) (w_ledger w ++ [(origin, now, false)])).
Proof.
  intros [Hpb Hpw Hpt Hpc] Hok Hsp%join_or_start_spec.
  pose proof (ledger_snoc p w origin now Hok) as Hled. rewrite Hsp in Hled.
  destruct Hled as (sf & Hspends & Hc & Ht & Hi). destruct Hok as [Hs Hm Hw Hb _ Hn].
  pose proof (spend_ok origin (po_budget p) (po_window p) (po_tracked_origins p) now (w_state w) Hpb Hpt Hs) as Hst.
  rewrite Hsp in Hst. cbn [snd] in Hst. split; cbn [w_state w_solves w_waiting w_ledger]; try done.
  - intros k m Hk. rewrite Hi in Hk. eauto.
  - exists sf. done.
  - rewrite filter_app, fmap_app, Hn. by rewrite filter_cons, decide_False, app_nil_r.
Qed.

Lemma settle_ok p key s :
  state_ok (po_budget p) (po_tracked_origins p) s → state_ok (po_budget p) (po_tracked_origins p) (settle key s).
Proof.
  intros []. split; cbn; try done. etrans; [|eassumption]. apply inj_le, map_subseteq_size, delete_subseteq.
Qed.

Lemma flight_ok_leave p w l1 l2 key n :
  world_ok p w → w_waiting w = l1 ++ (key, n) :: l2 →
  world_ok p (mk_world (settle key (w_state w)) (w_solves w) (l1 ++ l2) (w_ledger w)).
Proof.
  intros Hok Hl. apply flight_ok_callers; [done|by apply settle_ok, Hok|done| |].
  - intros k m Hk. eapply lookup_weaken; [exact Hk|apply delete_subseteq].
  - intros k m Hk. left. rewrite Hl. set_solver.
Qed.

Lemma flight_step_ok p w w' a : policy_ok p → world_ok p w → step p w w' a → world_ok p w'.
Proof.
  intros Hp Hok Hstep. destruct Hstep as [origin key now n s Hq|origin key now n s Hq|origin key now s Hq
    |n key origin Hn Hlive Hlt|n key origin answer Hn Hlive|l1 l2 key n key' origin o Hl Hn|l1 l2 key n Hl|l1 l2 key n Hl].
  - apply join_or_start_spec in Hq as (-> & Hi & Hlive). apply flight_ok_callers; [done|by apply Hok|done|done|].
    intros k m [[= -> ->]|?]%elem_of_cons; auto.
  - by apply flight_ok_start.
  - by eapply flight_ok_refuse.
  - by eapply flight_ok_phase.
  - by eapply flight_ok_phase.
  - by eapply flight_ok_leave.
  - by eapply flight_ok_leave.
  - apply flight_ok_callers; [done|by apply Hok|done|done|]. intros k m Hk. left. rewrite Hl. set_solver.
Qed.

Lemma flights_reachable_ok p w : policy_ok p → reachable p w → world_ok p w.
Proof. intros Hp. induction 1; [by apply start_world_ok|by eapply flight_step_ok]. Qed.


(** ** How many solves an origin is worth *)

(** The solves granted to an origin by a stretch of the ledger, and those started for it. *)
Definition launches (o : Origin) (l : list (Origin * SystemTime * bool)) : Z :=
  granted_to o ((λ e, (e.1.1, e.2)) <$> l).
Definition started_for (o : Origin) (w : World) : Z := zlen (filter (λ o', o' = o) (sv_origin <$> w_solves w)).

Lemma launches_filter o l : launches o l = zlen (filter (λ o', o' = o) ((λ e, e.1.1) <$> filter (λ e, e.2 = true) l)).
Proof.
  unfold launches. induction l as [|[[o' now] b] l IH]; [done|]. rewrite fmap_cons, granted_cons, filter_cons. cbn [fst snd].
  rewrite IH. destruct b; cbn [andb]; (destruct (decide (o' = o)) as [->|Hne];
    [rewrite bool_decide_eq_true_2 by done|rewrite bool_decide_eq_false_2 by done]).
  - rewrite decide_True, fmap_cons, filter_cons, decide_True by done. rewrite zlen_cons. cbn. lia.
  - rewrite decide_True, fmap_cons, filter_cons, decide_False by done. cbn. lia.
  - rewrite decide_False by done. done.
  - rewrite decide_False by done. done.
Qed.

(** A solve is started only against its origin's budget, so that of the solves
    started for one origin within less than a window there are at most twice the
    budget, whatever the callers do and however many of them meet the challenge - as
    long as there is room to count for every origin that was ever asked for. *)
Theorem solves_are_budgeted p w l1 l2 t o :
  policy_ok p → reachable p w → w_ledger w = l1 ++ l2 →
  Forall (λ e, t <= e.1.2 < t + po_window p) l2 →
  Z.of_nat (size (list_to_set (w_ledger w).*1.*1 : gset Origin)) <= po_tracked_origins p →
  launches o l2 <= 2 * po_budget p ∧ started_for o w = launches o l1 + launches o l2.
Proof.
  intros Hp Hok%flights_reachable_ok Hl Ht Hroom; [|done]. destruct Hok as [_ _ _ _ (s & Hs & _) Hn].
  destruct Hp as [Hpb Hpw Hpt _]. split.
  - rewrite Hl, !fmap_app, spends_app in Hs.
    destruct (spends _ _ _ l1.*1 default_state) as [r1 s1] eqn:H1. destruct (spends _ _ _ l2.*1 s1) as [r2 s2] eqn:H2.
    assert (Hok1 : state_ok (po_budget p) (po_tracked_origins p) s1).
    { pose proof (spends_ok (po_budget p) (po_window p) (po_tracked_origins p) l1.*1 default_state Hpb Hpt) as H'.
      rewrite H1 in H'. apply H', default_state_ok. lia. }
    pose proof (spends_dom (po_budget p) (po_window p) (po_tracked_origins p) l1.*1 default_state Hpb) as Hdom.
    rewrite H1 in Hdom. cbn [snd] in Hdom.
    destruct (handoffs_per_window (po_budget p) (po_window p) (po_tracked_origins p) t l2.*1 s1 o) as [_ Hle]; [done|done|done| | |].
    + by apply Forall_fmap.
    + unfold room. etrans; [|exact Hroom]. apply inj_le, subseteq_size. rewrite Hl, !fmap_app, list_to_set_app_L.
      change (dom (counters default_state)) with (∅ : gset Origin) in Hdom. set_solver.
    + rewrite H2 in Hle. cbn [fst] in Hle. injection Hs as Hr _. unfold launches.
      assert (r2 = (λ e, (e.1.1, e.2)) <$> l2) as <-; [|done].
      apply (app_inj_2 r1 ((λ e, (e.1.1, e.2)) <$> l1)); [|done].
      apply (f_equal length) in Hr. rewrite !length_app, !length_fmap in Hr.
      assert (Hlen : ∀ es x, length (spends (po_budget p) (po_window p) (po_tracked_origins p) es x).1 = length es).
      { clear. induction es as [|[o' now] es IH]; intros x; cbn [spends]; [done|].
        destruct (spend _ _ _ _ _ x) as [b y]. specialize (IH y). destruct (spends _ _ _ es y). cbn in *. congruence. }
      specialize (Hlen l2.*1 s1). rewrite H2, length_fmap in Hlen. cbn [fst] in Hlen. by rewrite length_fmap.
  - unfold started_for. rewrite Hn, <- launches_filter, Hl. unfold launches. rewrite fmap_app. apply tally_app.
Qed.
End Flight.

(** ** Runs *)

Module FlightDemo.
Import Extern.Sample ChallengeState.Demo.

Definition page : SolveKey := mk_key (mk_url b#"https" b#"shop.example" 443 b#"/") None.

Definition two_browsers : HandoffPolicy := with_concurrency 2 default_handoff_policy.

Lemma two_browsers_ok : policy_ok two_browsers.
Proof. by split. Qed.

(** Two callers meet one challenge, the second fifty seconds after the first; the
    first runs out of patience; a third comes. *)
Definition first_asked : World :=
  mk_world (join_or_start two_browsers (is_live start_world) 0%nat shop page 0 default_state).2
    [mk_solve page shop Queued] [(page, 0%nat)] [(shop, 0, true)].

Definition both_wait : World :=
  mk_world (w_state first_asked) (w_solves first_asked) [(page, 0%nat); (page, 0%nat)] (w_ledger first_asked).

Definition browser_runs : World :=
  mk_world (w_state both_wait) (alter (with_phase Browsing) 0%nat (w_solves both_wait)) (w_waiting both_wait) (w_ledger both_wait).

Definition first_left : World :=
  mk_world (settle page (w_state browser_runs)) (w_solves browser_runs) [(page, 0%nat)] (w_ledger browser_runs).

Definition third_asked : World :=
  mk_world (join_or_start two_browsers (is_live first_left) 1%nat shop page (from_secs 61) (w_state first_left)).2
    (w_solves first_left ++ [mk_solve page shop Queued]) [(page, 1%nat); (page, 0%nat)]
    (w_ledger first_left ++ [(shop, from_secs 61, true)]).

Definition second_browser : World :=
  mk_world (w_state third_asked) (alter (with_phase Browsing) 1%nat (w_solves third_asked)) (w_waiting third_asked)
    (w_ledger third_asked).

Lemma split_pair {A B} (x : A * B) a : x.1 = a → x = (a, x.2).
Proof. by destruct x; intros <-. Qed.

Lemma join_at p live fresh origin key now s n :
  joinable live key s = Some n → join_or_start p live fresh origin key now s = (Join n, s).
Proof. unfold join_or_start. by intros ->. Qed.

Lemma browser_runs_reachable : reachable two_browsers browser_runs.
Proof.
  apply (Reach_step _ both_wait _ None); [apply (Reach_step _ first_asked _ None);
    [apply (Reach_step _ start_world _ None); [apply Reach_start|]|]|].
  - apply (Step_start _ start_world shop page 0 0%nat). apply split_pair. vm_compute. reflexivity.
  - apply (Step_join _ first_asked shop page (from_secs 50) 0%nat (w_state first_asked)). apply join_at. vm_compute. reflexivity.
  - apply (Step_browse _ both_wait 0%nat page shop); reflexivity.
Qed.

(** Single flight is lost when one of two callers leaves: [settle] takes out the key
    whoever still waits, so the next caller does not join the browser that runs but
    starts another one for the same page. *)
Lemma overrun_forgets_a_running_solve :
  reachable two_browsers second_browser ∧
  w_solves second_browser = [mk_solve page shop Browsing; mk_solve page shop Browsing] ∧
  is_live second_browser 0%nat = true ∧ is_live second_browser 1%nat = true ∧ browsers second_browser = 2.
Proof.
  split; [|split_and!; reflexivity].
  apply (Reach_step _ third_asked _ None); [apply (Reach_step _ first_left _ None);
    [apply (Reach_step _ browser_runs _ (Some (page, Some (inl (Declined BudgetExhausted)))));
       [apply browser_runs_reachable|]|]|].
  - by apply (Step_overrun _ browser_runs [] [(page, 0%nat)] page 0%nat).
  - apply (Step_start _ first_left shop page (from_secs 61) 1%nat). apply split_pair. vm_compute. reflexivity.
  - apply (Step_browse _ third_asked 1%nat page shop); reflexivity.
Qed.


Lemma solves_are_budgeted_witness : launches shop (w_ledger second_browser) <= 2 * DEFAULT_BUDGET.
Proof.
  refine (proj1 (solves_are_budgeted two_browsers second_browser [] (w_ledger second_browser) 0 shop two_browsers_ok
    (proj1 overrun_forgets_a_running_solve) eq_refl _ _)).
  - by repeat constructor.
  - vm_compute. discriminate.
Defined.
End FlightDemo.
