(* ===== verification/ChallengeHandoff.v ===== *)
(** [chromulate-http]: the layer that notices a challenge and hands the page to a
    browser ([ChallengeHandoff] of src/crates/chromulate-http/src/middleware/challenge.rs),
    as one request runs through it.

    The rest of the chain, the browser, the session store behind [SessionAccess] and
    the other requests sharing the layer's state are the environment: a class of
    operations over a world [W].  What they do to each other is [ChallengeFlight].
    [Traced] records what a request asks of its environment; the code keeps no such
    record. *)
From S2P Require Import Prelude RustStr RustTime Extern CoreError Body Message Origin Fetch.
From S2P Require Import Challenge ChallengeState ChallengeFlight.
Local Open Scope Z_scope.

Definition USER_AGENT : str := b#"user-agent".

Definition DEFAULT_SOLVE_BUDGET : Duration := from_secs 60.
Definition DEFAULT_SNIFF_LIMIT : Z := 128 * 1024.

(** [with_solve_budget] and [with_sniff_limit]. *)
Definition solve_budget_of (budget : Duration) : Duration := Z.max budget (from_secs 1).
Definition sniff_limit_of (limit : Z) : Z := Z.max limit 1.

(** ** Reading the front of a body *)

(** [into_data_stream]. *)
Definition into_data_stream (b : Body) : ChunkStream :=
  match b with
  | Body.Empty => []
  | Fixed chunk => match chunk with Some c => [SChunk c] | None => [] end
  | Stream s _ => s
  end.

(** The loop of [peek] and what follows it: the prefix, and the body rebuilt. *)
Fixpoint peek_loop (cap : Z) (declared : option Z) (buffered : bytes) (chunks : ChunkStream)
    : (bytes * Body) + BodyError :=
  if zlen buffered <? cap then
    match chunks with
    | [] => inl (buffered, fixed buffered)
    | SPending :: chunks => peek_loop cap declared buffered chunks
    | SChunk chunk :: chunks => peek_loop cap declared (buffered ++ chunk) chunks
    | SError error :: _ => inr error
    end
  else inl (buffered, Stream (SChunk buffered :: chunks) declared).

Definition peek (body : Body) (cap : Z) : (bytes * Body) + BodyError :=
  peek_loop cap (content_length body) [] (into_data_stream body).

Section Layer.
Context `{HeaderValueApi} `{HeaderMapApi} `{UrlApi} `{!UriApi} `{!EqDecision Url, !Countable Url}.

(** ** Responses *)

(** [ResponseInfo], as far as the layer reads it, and [FetchedByFallback]. *)
Record ResponseInfo := mk_info { ri_url : Url; ri_hops : option (list Hop); ri_exit : option str }.
Record FetchedByFallback := mk_fetched { fb_fallback : str; fb_final_url : Url }.

(** A response with the extensions the layer reads and writes. *)
Record Answer := mk_answer {
  an_response : Response Body;
  an_info : option ResponseInfo;
  an_challenge : option Challenge;
  an_fetched : option FetchedByFallback;
}.

Definition with_body (body : Body) (a : Answer) : Answer :=
  let r := an_response a in
  mk_answer (mk_response (rs_status r) (rs_version r) (rs_headers r) body (rs_cache_status r))
    (an_info a) (an_challenge a) (an_fetched a).

Definition with_challenge (c : Challenge) (a : Answer) : Answer :=
  mk_answer (an_response a) (an_info a) (Some c) (an_fetched a).

Definition as_response (content : Content) (fallback : str) : Answer :=
  mk_answer (mk_response (co_status content) HTTP_11 (co_headers content) (fixed (co_body content)) None)
    None None (Some (mk_fetched fallback (co_final_url content))).

Record Reported := mk_reported {
  rp_url : Url;
  rp_origin : Origin;
  rp_hops : option (list Hop);
  rp_exit : option str;
}.

Definition reported (response : Answer) (uri : str) : option Reported :=
  '(url, hops, exit) ←
    match an_info response with
    | Some info => Some (ri_url info, ri_hops info, ri_exit info)
    | None => url ← url_parse uri; Some (url, None, None)
    end;
  match origin_of url with
  | inl origin => Some (mk_reported url origin hops exit)
  | inr _ => None
  end.

(** ** The layer *)

(** The installed fallback, but for its [solve]: that is the environment's. *)
Record Fallback := mk_fallback { fallback_name : str; fallback_handles : ChallengeKinds }.

(** What goes wrong on the way: the rest of the chain, or a body being read. *)
Inductive Failure := Chain (error : Error) | Reading (error : BodyError).

Record Layer := mk_layer {
  ly_user_agent : str;
  ly_detector : Observation → Detection;
  ly_fallback : option Fallback;
  ly_policy : HandoffPolicy;
  ly_solve_budget : Duration;
  ly_sniff_limit : Z;
}.

(** [ChallengeHandoff::new]. *)
Definition new_layer (user_agent : str) (detector : Observation → Detection) : Layer :=
  mk_layer user_agent detector None default_handoff_policy DEFAULT_SOLVE_BUDGET DEFAULT_SNIFF_LIMIT.

Section With_layer.
Context (l : Layer).

Definition inspect (response : Answer) (at_ : Reported) (hops : list Hop) (prefix : option bytes) : Detection :=
  let o := with_hops hops
    (observation (rs_status (an_response response)) (rs_headers (an_response response)) (rp_url at_) (rp_origin at_)) in
  ly_detector l (match prefix with Some prefix => with_body_prefix prefix o | None => o end).

Definition worth_sniffing (response : Answer) : bool :=
  match
    value ← hm_get (rs_headers (an_response response)) CONTENT_LENGTH;
    text ← to_str value;
    parse_u64 text
  with
  | Some declared => declared <=? ly_sniff_limit l
  | None => true
  end.

Definition detect (response : Answer) (at_ : Reported) : (Detection * Answer) + BodyError :=
  let hops := default [] (rp_hops at_) in
  let first := inspect response at_ hops None in
  if decide (first ≠ Suspect) then inl (first, response)
  else if negb (worth_sniffing response) then inl (Clear, response)
  else
    match peek (rs_body (an_response response)) (ly_sniff_limit l) with
    | inr error => inr error
    | inl (prefix, body) =>
        let response := with_body body response in
        let second := inspect response at_ hops (Some prefix) in
        inl (if decide (second = Suspect) then Clear else second, response)
    end.

Definition user_agent (parts : Request) : option str :=
  match hm_get (rq_headers parts) USER_AGENT with
  | Some value => Some value
  | None => from_str (ly_user_agent l)
  end.

(** Whether the fallback browsed as the identity it was handed; it is only logged. *)
Definition handoff_honoured (produced_by : FallbackIdentity) (parts : Request) : bool :=
  match user_agent parts with
  | Some expected => bool_decide (fi_user_agent produced_by = expected)
  | None => false
  end.

(** The no-hand-off path. *)
Definition observe (response : Answer) (uri : str) : Answer + Failure :=
  match reported response uri with
  | None => inl response
  | Some at_ =>
      match detect response at_ with
      | inr error => inr (Reading error)
      | inl (Challenged challenge, response) => inl (with_challenge challenge response)
      | inl (_, response) => inl response
      end
  end.
End With_layer.

(** ** The environment *)

(** [ce_run] is [Next::run]; [ce_start] puts a solve's future where the callers of
    [ce_wait] poll it, which answers its outcome unless the budget runs out first;
    [ce_state] is what the layer's mutex guards, [ce_live] and [ce_fresh] the solves
    around; [ce_attached] whether sessions are; [ce_cleared] the callback, if any. *)
Class ChallengeEnv (W : Type) := {
  ce_now : W → SystemTime;
  ce_run : Request → Body → W → (Answer + Error) * W;
  ce_state : W → State;
  ce_set_state : State → W → W;
  ce_live : W → nat → bool;
  ce_fresh : W → nat;
  ce_start : nat → Handoff → W → W;
  ce_wait : nat → W → option SolveOutcome * W;
  ce_attached : W → bool * W;
  ce_cookie_header : option str → Url → W → option str * W;
  ce_store_cookies : option str → Url → list str → W → W;
  ce_cleared : Url → W → W;
}.

Section Handle.
Context (l : Layer) {W : Type} `{!ChallengeEnv W}.

Definition solve (origin : Origin) (handoff : Handoff) (w : W) : option (Handback + Error) * W :=
  let key := mk_key (ho_url handoff) (ho_exit handoff) in
  let '(admission, s) := join_or_start (ly_policy l) (ce_live w) (ce_fresh w) origin key (ce_now w) (ce_state w) in
  let w := ce_set_state s w in
  let await n w :=
    let '(outcome, w) := ce_wait n w in
    let w := ce_set_state (settle key (ce_state w)) w in
    (Some (match outcome with Some outcome => handback_of outcome | None => inl (Declined BudgetExhausted) end), w) in
  match admission with
  | Refuse => (None, w)
  | Join n => await n w
  | Start n => await n (ce_start n handoff w)
  end.

(** The loop of [handle].  [applied] is the exit a session was last applied to. *)
Fixpoint handle_loop (fuel : nat) (fallback : Fallback) (parts : Request) (body sending : Body) (attempts : Z)
    (applied : option (option str)) (w : W) : option ((Answer + Failure) * W) :=
  match fuel with
  | O => None
  | S fuel =>
      let '(response, w) := ce_run parts sending w in
      match response with
      | inr error => Some (inr (Chain error), w)
      | inl response =>
          match reported response (rq_uri parts) with
          | None => Some (inl response, w)
          | Some at_ =>
              match detect l response at_ with
              | inr error => Some (inr (Reading error), w)
              | inl (Challenged challenge, response) =>
                  let response := with_challenge challenge response in
                  if po_budget (ly_policy l) <=? attempts then Some (inl response, w)
                  else if negb (claims (fallback_handles fallback) (ch_kind challenge)) then Some (inl response, w)
                  else
                    match user_agent l parts with
                    | None => Some (inl response, w)
                    | Some ua =>
                        let handoff :=
                          with_exit (proxy_exit <$> rp_exit at_)
                            (new_handoff (rp_url at_) (ch_kind challenge) ua (ly_solve_budget l) (ce_now w)) in
                        let '(attached, w) := ce_attached w in
                        let '(cookies, w) :=
                          if attached then ce_cookie_header (rp_exit at_) (rp_url at_) w else (None, w) in
                        match solve (rp_origin at_) (with_cookies cookies handoff) w with
                        | (None, w) => Some (inl response, w)
                        | (Some (inr error), w) => Some (inr (Chain error), w)
                        | (Some (inl (SessionState set_cookie content _)), w) =>
                            let '(attached, w) := ce_attached w in
                            if negb attached then
                              Some (inl (match content with
                                         | Some content => as_response content (fallback_name fallback)
                                         | None => response
                                         end), w)
                            else
                              let w := ce_store_cookies (rp_exit at_) (rp_url at_) set_cookie w in
                              match try_clone body with
                              | None => Some (inl response, w)
                              | Some again =>
                                  handle_loop fuel fallback parts body again (attempts + 1) (Some (rp_exit at_)) w
                              end
                        | (Some (inl (Fetched content)), w) =>
                            Some (inl (as_response content (fallback_name fallback)), w)
                        | (Some (inl (Declined _)), w) => Some (inl response, w)
                        end
                    end
              | inl (_, response) =>
                  Some (inl response, if decide (is_Some applied) then ce_cleared (rp_url at_) w else w)
              end
          end
      end
  end.

(** The chain, and detection only. *)
Definition run_observed (parts : Request) (body : Body) (w : W) : (Answer + Failure) * W :=
  let '(response, w) := ce_run parts body w in
  (match response with inr error => inr (Chain error) | inl response => observe l response (rq_uri parts) end, w).

(** [handle]; [options] are the [RequestOptions] among the request's extensions. *)
Definition handle (parts : Request) (options : option RequestOptions) (body : Body) (w : W)
    : option ((Answer + Failure) * W) :=
  match ly_fallback l with
  | None => Some (run_observed parts body w)
  | Some fallback =>
      if negb (po_eligible (ly_policy l) parts options) then Some (run_observed parts body w)
      else
        match try_clone body with
        | None => Some (run_observed parts body w)
        | Some first => handle_loop (S (Z.to_nat (po_budget (ly_policy l)))) fallback parts body first 0 None w
        end
  end.
End Handle.
End Layer.

(** ** Nothing is lost *)

(** What a reader of a body gets: the bytes, and the error they end with. *)
Definition delivers (b b' : Body) : Prop := mjoin (chunks b) = mjoin (chunks b') ∧ body_error b = body_error b'.

Lemma stream_of b : mjoin (stream_chunks (into_data_stream b)) = mjoin (chunks b) ∧ stream_error (into_data_stream b) = body_error b.
Proof. by destruct b as [|[c|]|s len]. Qed.

Lemma fixed_delivers out : mjoin (chunks (fixed out)) = out ∧ body_error (fixed out) = None ∧ content_length (fixed out) = Some (zlen out).
Proof. unfold fixed. case_decide as H; [by rewrite H|]. cbn. by rewrite app_nil_r. Qed.

Lemma peek_loop_spec cap declared buffered s :
  match peek_loop cap declared buffered s with
  | inl (prefix, b) =>
      mjoin (chunks b) = buffered ++ mjoin (stream_chunks s) ∧ body_error b = stream_error s ∧
      (cap <= zlen prefix ∧ content_length b = declared ∧ prefix `prefix_of` buffered ++ mjoin (stream_chunks s) ∨
       zlen prefix < cap ∧ prefix = buffered ++ mjoin (stream_chunks s) ∧ stream_error s = None ∧
       content_length b = Some (zlen prefix))
  | inr e => stream_error s = Some e ∧ zlen (buffered ++ mjoin (stream_chunks s)) < cap
  end.
Proof.
  revert buffered. induction s as [|[|c|e] s IH]; intros buffered; cbn [peek_loop];
    (destruct (zlen buffered <? cap) eqn:E; bool_prop; [|cbn; split; [done|]; split; [done|]; left; split; [done|];
       split; [done|]; by apply prefix_app_r]).
  - cbn [stream_chunks stream_error mjoin list_join]. rewrite app_nil_r.
    destruct (fixed_delivers buffered) as (-> & -> & ->). split; [done|]. split; [done|]. right. done.
  - apply IH.
  - specialize (IH (buffered ++ c)). cbn [stream_chunks stream_error mjoin list_join]. by rewrite <- app_assoc in IH.
  - cbn. by rewrite app_nil_r.
Qed.

(** Peeking takes nothing out of a body: the one it returns delivers what the given
    one would have, with a length as good as the one declared; the prefix is the
    front of it, of at least [cap] bytes unless that is all there is.  Only a body
    that fails before [cap] bytes have come fails the peek. *)
Lemma peek_exact b cap :
  match peek b cap with
  | inl (prefix, b') =>
      delivers b b' ∧ prefix `prefix_of` mjoin (chunks b) ∧
      (cap <= zlen prefix ∧ content_length b' = content_length b ∨
       prefix = mjoin (chunks b) ∧ body_error b = None ∧ content_length b' = Some (zlen prefix))
  | inr e => body_error b = Some e ∧ zlen (mjoin (chunks b)) < cap
  end.
Proof.
  unfold peek, delivers. destruct (stream_of b) as [<- <-].
  pose proof (peek_loop_spec cap (content_length b) [] (into_data_stream b)) as H. cbn [app] in H.
  destruct (peek_loop _ _ _ _) as [[prefix b']|e]; [|done]. destruct H as (-> & -> & [(? & -> & ?)|(? & -> & ? & ->)]).
  - split; [done|]. split; [done|]. by left.
  - split; [done|]. split; [done|]. right. done.
Qed.

Section Detection.
Context `{HeaderValueApi} `{HeaderMapApi} `{UrlApi} `{!UriApi}.
Context (l : Layer).

(** The same response, to whoever reads it. *)
Definition same_answer (a a' : Answer) : Prop :=
  rs_status (an_response a') = rs_status (an_response a) ∧ rs_version (an_response a') = rs_version (an_response a) ∧
  rs_headers (an_response a') = rs_headers (an_response a) ∧
  rs_cache_status (an_response a') = rs_cache_status (an_response a) ∧
  delivers (rs_body (an_response a)) (rs_body (an_response a')) ∧
  an_info a' = an_info a ∧ an_challenge a' = an_challenge a ∧ an_fetched a' = an_fetched a.

#[export] Instance same_answer_refl : Reflexive same_answer.
Proof. by intros a. Qed.

(** What the detector says of a response's head, and of it and the front of its body. *)
Definition at_first (a : Answer) (at_ : Reported) : Detection := inspect l a at_ (default [] (rp_hops at_)) None.
Definition with_prefix (a : Answer) (at_ : Reported) (prefix : bytes) : Detection :=
  inspect l a at_ (default [] (rp_hops at_)) (Some prefix).

Lemma detect_spec a at_ :
  match detect l a at_ with
  | inl (d, a') =>
      same_answer a a' ∧ d ≠ Suspect ∧
      ((at_first a at_ ≠ Suspect ∧ d = at_first a at_ ∧ a' = a) ∨
       (at_first a at_ = Suspect ∧ worth_sniffing l a = false ∧ d = Clear ∧ a' = a) ∨
       (at_first a at_ = Suspect ∧ worth_sniffing l a = true ∧
        ∃ prefix body, peek (rs_body (an_response a)) (ly_sniff_limit l) = inl (prefix, body) ∧
          d = if decide (with_prefix a at_ prefix = Suspect) then Clear else with_prefix a at_ prefix))
  | inr e =>
      at_first a at_ = Suspect ∧ worth_sniffing l a = true ∧
      body_error (rs_body (an_response a)) = Some e ∧ zlen (mjoin (chunks (rs_body (an_response a)))) < ly_sniff_limit l
  end.
Proof.
  unfold detect, at_first, with_prefix. set (hops := default [] (rp_hops at_)).
  case_decide as Hfirst; [split; [done|]; split; [done|]; by left|].
  destruct (worth_sniffing l a) eqn:Hw; cbn [negb]; [|split; [done|]; split; [done|]; right; by left].
  pose proof (peek_exact (rs_body (an_response a)) (ly_sniff_limit l)) as Hp.
  destruct (peek _ _) as [[prefix body]|e]; [|done]. destruct Hp as [Hdel _]. split; [|split].
  - unfold same_answer. by cbn.
  - by case_decide.
  - right; right. split; [done|]. split; [done|]. exists prefix, body. done.
Qed.
End Detection.

(** ** The conversation of one request *)

Section Conversation.
Context `{HeaderValueApi} `{HeaderMapApi} `{UrlApi} `{!UriApi} `{!EqDecision Url, !Countable Url}.

(** What the layer finds when it takes its lock. *)
Record Snapshot := mk_snapshot { sn_state : State; sn_live : nat → bool; sn_fresh : nat; sn_now : SystemTime }.

(** What a request asks of its environment, with the answers. *)
Inductive Event :=
  | Looked (attached : bool)
  | Saved (before : Snapshot) (after : State)
  | Sent (parts : Request) (body : Body) (answer : Answer + Error)
  | Asked (exit : option str) (url : Url) (cookies : option str)
  | Started (n : nat) (handoff : Handoff)
  | Waited (n : nat) (outcome : option SolveOutcome)
  | Stored (exit : option str) (url : Url) (set_cookie : list str)
  | ClearedAt (url : Url).

Definition Traced (W : Type) : Type := W * list Event.

Definition note {A W} (event : A → Event) (aw : A * W) (t : list Event) : A * Traced W :=
  (aw.1, (aw.2, t ++ [event aw.1])).

#[export] Instance traced_env {W} `{!ChallengeEnv W} : ChallengeEnv (Traced W) := {|
  ce_now wt := ce_now wt.1;
  ce_run parts body wt := note (Sent parts body) (ce_run parts body wt.1) wt.2;
  ce_state wt := ce_state wt.1;
  ce_set_state s wt :=
    (ce_set_state s wt.1,
     wt.2 ++ [Saved (mk_snapshot (ce_state wt.1) (ce_live wt.1) (ce_fresh wt.1) (ce_now wt.1)) s]);
  ce_live wt := ce_live wt.1;
  ce_fresh wt := ce_fresh wt.1;
  ce_start n handoff wt := (ce_start n handoff wt.1, wt.2 ++ [Started n handoff]);
  ce_wait n wt := note (Waited n) (ce_wait n wt.1) wt.2;
  ce_attached wt := note Looked (ce_attached wt.1) wt.2;
  ce_cookie_header exit url wt := note (Asked exit url) (ce_cookie_header exit url wt.1) wt.2;
  ce_store_cookies exit url lines wt := (ce_store_cookies exit url lines wt.1, wt.2 ++ [Stored exit url lines]);
  ce_cleared url wt := (ce_cleared url wt.1, wt.2 ++ [ClearedAt url]);
|}.

Context (l : Layer) (fallback : Fallback) (parts : Request) (body : Body).

(** What became of a solve. *)
Definition handed_of (outcome : option SolveOutcome) : option (Handback + Error) :=
  Some (match outcome with Some o => handback_of o | None => inl (Declined BudgetExhausted) end).

(** One solve for an origin, as [join_or_start] decides on what is found under the lock:
    nothing happens when the origin's budget is spent; otherwise the solve in flight for
    the page is waited for, or one is started with exactly this hand-off and waited for,
    and its entry is settled. *)
Inductive solved (origin : Origin) (handoff : Handoff) : list Event → option (Handback + Error) → Prop :=
  | Solved_refused sn s :
      join_or_start (ly_policy l) (sn_live sn) (sn_fresh sn) origin (mk_key (ho_url handoff) (ho_exit handoff))
        (sn_now sn) (sn_state sn) = (Refuse, s) →
      solved origin handoff [Saved sn s] None
  | Solved_joined sn s n outcome sn' :
      join_or_start (ly_policy l) (sn_live sn) (sn_fresh sn) origin (mk_key (ho_url handoff) (ho_exit handoff))
        (sn_now sn) (sn_state sn) = (Join n, s) →
      solved origin handoff
        [Saved sn s; Waited n outcome; Saved sn' (settle (mk_key (ho_url handoff) (ho_exit handoff)) (sn_state sn'))]
        (handed_of outcome)
  | Solved_started sn s n outcome sn' :
      join_or_start (ly_policy l) (sn_live sn) (sn_fresh sn) origin (mk_key (ho_url handoff) (ho_exit handoff))
        (sn_now sn) (sn_state sn) = (Start n, s) →
      solved origin handoff
        [Saved sn s; Started n handoff; Waited n outcome;
         Saved sn' (settle (mk_key (ho_url handoff) (ho_exit handoff)) (sn_state sn'))]
        (handed_of outcome).

(** The layer turns to the browser over the challenge [c] met at [at_], and [answer] is
    what it has of it.  The solve is for the page that was challenged, with the identity
    of this request, through the exit it went out of and with the cookies that exit
    holds, which are asked for exactly when sessions are attached. *)
Inductive consults (at_ : Reported) (c : Challenge) : list Event → option (Handback + Error) → Prop :=
  | Consults asked solving answer cookies ua started :
      user_agent l parts = Some ua →
      (asked = [Looked false] ∧ cookies = None) ∨ asked = [Looked true; Asked (rp_exit at_) (rp_url at_) cookies] →
      solved (rp_origin at_)
        (mk_handoff (rp_url at_) (ch_kind c) ua (proxy_exit <$> rp_exit at_) cookies started (ly_solve_budget l))
        solving answer →
      consults at_ c (asked ++ solving) answer.

(** The request was sent and its answer is a challenge. *)
Definition challenged (a : Answer) (at_ : Reported) (c : Challenge) (a' : Answer) : Prop :=
  reported a (rq_uri parts) = Some at_ ∧ detect l a at_ = inl (Challenged c, a').

(** A round that ends in the request being sent again: a challenge, a browser that
    claims its kind and earned session state, and - sessions being attached - that state
    stored for the exit and the page that were challenged. *)
Definition replayed (t : list Event) : Prop :=
  ∃ a at_ c a' consulted lines content produced_by,
    t = Sent parts body (inl a) :: consulted ++ [Looked true; Stored (rp_exit at_) (rp_url at_) lines] ∧
    challenged a at_ c a' ∧ claims (fallback_handles fallback) (ch_kind c) = true ∧
    consults at_ c consulted (Some (inl (SessionState lines content produced_by))).

(** What is made of the browser's answer when the request is not sent again. *)
Definition conclude (response : Answer) (answer : option (Handback + Error)) : Answer + Failure :=
  match answer with
  | Some (inr error) => inr (Chain error)
  | Some (inl (Fetched content)) => inl (as_response content (fallback_name fallback))
  | Some (inl (SessionState _ (Some content) _)) => inl (as_response content (fallback_name fallback))
  | _ => inl response
  end.

(** Session state ends a conversation only where there is no session to keep it in. *)
Definition nowhere_kept (answer : option (Handback + Error)) : list Event :=
  match answer with Some (inl (SessionState _ _ _)) => [Looked false] | _ => [] end.

(** The last round.  [applied] says that session state was stored in an earlier one,
    [exhausted] that the request's budget is spent. *)
Inductive ends (applied exhausted : bool) : list Event → Answer + Failure → Prop :=
  | Ends_failed e : ends applied exhausted [Sent parts body (inr e)] (inr (Chain e))
  | Ends_nowhere a :
      reported a (rq_uri parts) = None → ends applied exhausted [Sent parts body (inl a)] (inl a)
  | Ends_unread a at_ e :
      reported a (rq_uri parts) = Some at_ → detect l a at_ = inr e →
      ends applied exhausted [Sent parts body (inl a)] (inr (Reading e))
  | Ends_clear a at_ a' :
      reported a (rq_uri parts) = Some at_ → detect l a at_ = inl (Clear, a') →
      ends applied exhausted (Sent parts body (inl a) :: if applied then [ClearedAt (rp_url at_)] else []) (inl a')
  | Ends_kept a at_ c a' :
      challenged a at_ c a' →
      exhausted = true ∨ claims (fallback_handles fallback) (ch_kind c) = false ∨ user_agent l parts = None →
      ends applied exhausted [Sent parts body (inl a)] (inl (with_challenge c a'))
  | Ends_consulted a at_ c a' consulted answer :
      challenged a at_ c a' → exhausted = false → claims (fallback_handles fallback) (ch_kind c) = true →
      consults at_ c consulted answer →
      ends applied exhausted (Sent parts body (inl a) :: consulted ++ nowhere_kept answer)
        (conclude (with_challenge c a') answer).

Context {W : Type} `{!ChallengeEnv W}.

(** A solve over a traced environment. *)
Lemma solve_traced origin handoff (w : W) t :
  ∃ w' solving answer,
    solve l origin handoff (w, t) = (answer, (w', t ++ solving)) ∧ solved origin handoff solving answer.
Proof.
  unfold solve. cbn [ce_live ce_fresh ce_now ce_state ce_set_state traced_env fst snd].
  set (sn := mk_snapshot (ce_state w) (ce_live w) (ce_fresh w) (ce_now w)).
  destruct (join_or_start _ _ _ _ _ _ _) as [[n|n|] s] eqn:Hj; cbn [ce_wait ce_start ce_state traced_env fst snd].
  - destruct (ce_wait n (ce_set_state s w)) as [outcome w1]. unfold note. cbn [fst snd].
    eexists _, _, _. split; [rewrite <- !app_assoc; reflexivity|]. by apply Solved_joined.
  - destruct (ce_wait n (ce_start n handoff (ce_set_state s w))) as [outcome w1]. unfold note. cbn [fst snd].
    eexists _, _, _. split; [rewrite <- !app_assoc; reflexivity|]. by apply Solved_started.
  - eexists _, _, _. split; [reflexivity|]. by apply Solved_refused.
Qed.

(** The browser is turned to with exactly the cookies the route holds. *)
Lemma consult_traced at_ c ua (w : W) t :
  user_agent l parts = Some ua →
  ∃ w' consulted answer,
    (let handoff := with_exit (proxy_exit <$> rp_exit at_)
       (new_handoff (rp_url at_) (ch_kind c) ua (ly_solve_budget l) (ce_now (w, t))) in
     let '(attached, wt) := ce_attached (w, t) in
     let '(cookies, wt) := if attached then ce_cookie_header (rp_exit at_) (rp_url at_) wt else (None, wt) in
     solve l (rp_origin at_) (with_cookies cookies handoff) wt) = (answer, (w', t ++ consulted)) ∧
    consults at_ c consulted answer.
Proof.
  intros Hua. cbv zeta. set (handoff := with_exit _ _).
  assert (∃ w1 asked cookies,
    (let '(attached, wt) := ce_attached (w, t) in
     if attached then ce_cookie_header (rp_exit at_) (rp_url at_) wt else (None, wt)) =
      (cookies, (w1, t ++ asked)) ∧
    ((asked = [Looked false] ∧ cookies = None) ∨ asked = [Looked true; Asked (rp_exit at_) (rp_url at_) cookies]))
    as (w1 & asked & cookies & Heq & Ha).
  { cbn [ce_attached traced_env fst snd]. unfold note. destruct (ce_attached w) as [[] w1]; cbn [fst snd].
    - cbn [ce_cookie_header traced_env fst snd]. unfold note. do 3 eexists.
      split; [rewrite <- app_assoc; reflexivity|]. by right.
    - exists w1, [Looked false], None. auto. }
  destruct (solve_traced (rp_origin at_) (with_cookies cookies handoff) w1 (t ++ asked))
    as (w2 & solving & answer & Hsolve & Hs).
  exists w2, (asked ++ solving), answer. rewrite app_assoc. split.
  - destruct (ce_attached (w, t)) as [attached wt]. rewrite Heq. exact Hsolve.
  - econstructor; [done|exact Ha|exact Hs].
Qed.

Lemma handle_loop_spec fuel attempts applied (w : W) t :
  po_budget (ly_policy l) - attempts < Z.of_nat fuel → 0 <= attempts <= po_budget (ly_policy l) →
  try_clone body = Some body →
  ∃ rounds last result w',
    handle_loop l fuel fallback parts body body attempts applied (w, t) = Some (result, (w', t ++ mjoin rounds ++ last)) ∧
    Forall replayed rounds ∧ attempts + zlen rounds <= po_budget (ly_policy l) ∧
    ends (bool_decide (is_Some applied ∨ rounds ≠ [])) (po_budget (ly_policy l) <=? attempts + zlen rounds) last result.
Proof.
  revert attempts applied w t. induction fuel as [|fuel IH]; intros attempts applied w t Hf Ha Hb; [lia|].
  assert (Hstop : ∀ last result (w' : W),
    ends (bool_decide (is_Some applied)) (po_budget (ly_policy l) <=? attempts) last result →
    ∃ rounds last' result' w'', Some (result, (w', t ++ last)) = Some (result', (w'', t ++ mjoin rounds ++ last')) ∧
      Forall replayed rounds ∧ attempts + zlen rounds <= po_budget (ly_policy l) ∧
      ends (bool_decide (is_Some applied ∨ rounds ≠ [])) (po_budget (ly_policy l) <=? attempts + zlen rounds) last' result').
  { intros last result w' He. exists [], last, result, w'. change (zlen []) with 0. rewrite Z.add_0_r.
    split; [done|]. split; [constructor|]. split; [lia|].
    enough (bool_decide (is_Some applied ∨ @nil (list Event) ≠ []) = bool_decide (is_Some applied)) as -> by done.
    apply bool_decide_ext. naive_solver. }
  cbn [handle_loop]. cbn [ce_run traced_env fst snd]. unfold note at 1. cbn [fst snd].
  destruct (ce_run parts body w) as [[a|e] w1]; cbn [fst snd]; [|apply Hstop; constructor].
  destruct (reported a (rq_uri parts)) as [at_|] eqn:Hr; [|apply Hstop; by constructor].
  pose proof (detect_spec l a at_) as Hd. destruct (detect l a at_) as [[d a']|e] eqn:Hdet; [|apply Hstop; by econstructor].
  destruct Hd as (_ & Hns & _). destruct d as [| |c]; [|done|].
  { destruct (decide (is_Some applied)) as [His|His].
    - cbn [ce_cleared traced_env fst snd]. rewrite <- app_assoc. apply Hstop.
      rewrite bool_decide_eq_true_2 by done. by apply (Ends_clear true _ a at_ a').
    - apply Hstop. rewrite bool_decide_eq_false_2 by done. by apply (Ends_clear false _ a at_ a'). }
  assert (Hch : challenged a at_ c a') by done.
  destruct (po_budget (ly_policy l) <=? attempts) eqn:Hbud; rewrite ?Hbud in Hstop; [apply Hstop; eapply (Ends_kept _ _ a at_ c a'); [done|by left]|].
  destruct (claims (fallback_handles fallback) (ch_kind c)) eqn:Hcl; cbn [negb]; [|apply Hstop; eapply Ends_kept; eauto].
  destruct (user_agent l parts) as [ua|] eqn:Hua; [|apply Hstop; eapply Ends_kept; eauto].
  destruct (consult_traced at_ c ua w1 (t ++ [Sent parts body (inl a)]) Hua) as (w2 & consulted & answer & Hcon & Hc).
  cbv zeta in Hcon. destruct (ce_attached (_, t ++ _)) as [attached wt].
  destruct (if attached then _ else _) as [cookies wt2]. rewrite Hcon. clear Hcon attached wt wt2 cookies.
  assert (Hend : ends (bool_decide (is_Some applied)) false (Sent parts body (inl a) :: consulted ++ nowhere_kept answer)
                   (conclude (with_challenge c a') answer)) by (by apply (Ends_consulted _ _ a at_ c a')).
  rewrite <- app_assoc in *. cbn [app] in *.
  destruct answer as [[[lines content produced_by|content|reason]|e]|];
    cbn [nowhere_kept conclude] in Hend; rewrite ?app_nil_r in Hend; try (by apply Hstop).
  cbn [ce_attached traced_env fst snd]. unfold note. destruct (ce_attached w2) as [[] w3]; cbn [fst snd negb].
  2:{ rewrite <- app_assoc, <- app_comm_cons. destruct content; by apply Hstop. }
  rewrite Hb. cbn [ce_store_cookies traced_env fst snd]. bool_prop.
  destruct (IH (attempts + 1) (Some (rp_exit at_)) (ce_store_cookies (rp_exit at_) (rp_url at_) lines w3)
    (((t ++ Sent parts body (inl a) :: consulted) ++ [Looked true]) ++ [Stored (rp_exit at_) (rp_url at_) lines]))
    as (rounds & last & result & w' & -> & Hrounds & Hle & Hends); [lia|lia|done|].
  exists ((Sent parts body (inl a) :: consulted ++ [Looked true; Stored (rp_exit at_) (rp_url at_) lines]) :: rounds), last, result, w'.
  rewrite zlen_cons. split; [|split; [|split; [lia|]]].
  - cbn [mjoin list_join]. by rewrite <- !app_assoc, <- !app_comm_cons, <- !app_assoc.
  - constructor; [|done]. by exists a, at_, c, a', consulted, lines, content, produced_by.
  - replace (attempts + (zlen rounds + 1)) with (attempts + 1 + zlen rounds) by lia.
    enough (bool_decide (is_Some applied ∨ _ :: rounds ≠ []) = bool_decide (is_Some (Some (rp_exit at_)) ∨ rounds ≠ [])) as -> by done.
    rewrite !bool_decide_eq_true_2; [done|by left|by right].
Qed.

(** ** How much is asked *)

Definition sends (t : list Event) : Z := tally (λ e, match e with Sent _ _ _ => 1 | _ => 0 end) t.
Definition waits (t : list Event) : Z := tally (λ e, match e with Waited _ _ => 1 | _ => 0 end) t.
Definition stores (t : list Event) : Z := tally (λ e, match e with Stored _ _ _ => 1 | _ => 0 end) t.

Definition counts (t : list Event) : Z * Z * Z := (sends t, waits t, stores t).

Lemma counts_app t t' : counts (t ++ t') = (sends t + sends t', waits t + waits t', stores t + stores t').
Proof. unfold counts, sends, waits, stores. by rewrite !tally_app. Qed.

Lemma counts_sent answer t : counts (Sent parts body answer :: t) = (1 + sends t, waits t, stores t).
Proof. done. Qed.

Lemma solved_counts origin handoff t answer :
  solved origin handoff t answer → ∃ n, counts t = (0, n, 0) ∧ 0 <= n <= 1 ∧ (is_Some answer → n = 1).
Proof.
  destruct 1; [exists 0|exists 1|exists 1]; (split; [done|]); (split; [lia|done]) || (split; [lia|by intros []]).
Qed.

Lemma consults_counts at_ c t answer : consults at_ c t answer → ∃ n, counts t = (0, n, 0) ∧ 0 <= n <= 1 ∧ (is_Some answer → n = 1).
Proof.
  destruct 1 as [asked solving answer cookies ua started _ Ha Hs].
  assert (counts asked = (0, 0, 0)) as Hca by (by destruct Ha as [[-> _]| ->]).
  apply solved_counts in Hs as (n & Hn & Hle). exists n. split; [|done]. rewrite counts_app.
  unfold counts in *. injection Hca as -> -> ->. injection Hn as -> -> ->. done.
Qed.

Lemma replayed_counts t : replayed t → counts t = (1, 1, 1).
Proof.
  intros (a & at_ & c & a' & consulted & lines & content & produced_by & -> & _ & _ & Hc).
  apply consults_counts in Hc as (n & Hn & _ & Hone). rewrite (Hone (mk_is_Some _ _ eq_refl)) in Hn.
  rewrite app_comm_cons, counts_app. unfold counts in Hn. injection Hn as Hn1 Hn2 Hn3.
  change (sends (Sent parts body (inl a) :: consulted)) with (1 + sends consulted).
  change (waits (Sent parts body (inl a) :: consulted)) with (waits consulted).
  change (stores (Sent parts body (inl a) :: consulted)) with (stores consulted).
  by rewrite Hn1, Hn2, Hn3.
Qed.

Lemma nowhere_counts answer : counts (nowhere_kept answer) = (0, 0, 0).
Proof. by destruct answer as [[[]|]|]. Qed.

Lemma ends_counts applied exhausted t result :
  ends applied exhausted t result → ∃ n, counts t = (1, n, 0) ∧ 0 <= n <= Z.b2z (negb exhausted).
Proof.
  assert (Hb : 0 <= Z.b2z (negb exhausted)) by by destruct exhausted.
  destruct 1 as [e|a Hr|a at_ e Hr Hd|a at_ a' Hr Hd|a at_ c a' Hch Hwhy|a at_ c a' consulted answer Hch -> Hcl Hc].
  1-3, 5: exists 0; done.
  - exists 0. by destruct applied.
  - apply consults_counts in Hc as (n & Hn & Hle & _). exists n. split; [|done].
    pose proof (nowhere_counts answer) as Hk. pose proof (counts_app consulted (nowhere_kept answer)) as Happ.
    rewrite counts_sent. unfold counts in *. injection Hn as Hn1 Hn2 Hn3. injection Hk as Hk1 Hk2 Hk3.
    injection Happ as -> -> ->. by rewrite Hn1, Hn2, Hn3, Hk1, Hk2, Hk3, !Z.add_0_r.
Qed.

Lemma rounds_counts rounds : Forall replayed rounds → counts (mjoin rounds) = (zlen rounds, zlen rounds, zlen rounds).
Proof.
  induction 1 as [|t rounds Ht%replayed_counts Hr IH]; [done|].
  change (mjoin (t :: rounds)) with (t ++ mjoin rounds). rewrite counts_app. unfold counts in *. injection Ht as -> -> ->. injection IH as -> -> ->. by rewrite zlen_cons, (Z.add_comm (zlen rounds)).
Qed.

Lemma handle_spec options (w : W) t :
  0 <= po_budget (ly_policy l) → ly_fallback l = Some fallback →
  po_eligible (ly_policy l) parts options = true → try_clone body = Some body →
  ∃ rounds last result w',
    handle l parts options body (w, t) = Some (result, (w', t ++ mjoin rounds ++ last)) ∧
    Forall replayed rounds ∧ zlen rounds <= po_budget (ly_policy l) ∧
    ends (bool_decide (rounds ≠ [])) (po_budget (ly_policy l) <=? zlen rounds) last result.
Proof.
  intros Hb Hf He Hc. unfold handle. rewrite Hf, He, Hc. cbn [negb].
  destruct (handle_loop_spec (S (Z.to_nat (po_budget (ly_policy l)))) 0 None w t)
    as (rounds & last & result & w' & -> & Hr & Hle & Hends); [lia|lia|done|].
  exists rounds, last, result, w'. split; [done|]. split; [done|]. split; [lia|].
  enough (bool_decide (is_Some (@None (option str)) ∨ rounds ≠ []) = bool_decide (rounds ≠ [])) as Heq by (by rewrite <- Heq).
  apply bool_decide_ext. split; [by intros [[? [=]]|]|by right].
Qed.

(** C17. A challenged request ends, and its conversation is the documented one: some
    rounds - no more than the policy's budget - each of which sends the very request
    and body, meets a challenge of a kind the browser claims, has session state of the
    browser, finds sessions attached and stores that state for the exit and the page
    that were challenged before the request is sent again; then a last one, whose
    answer the caller gets.  Session state never ends a conversation where sessions
    are attached.  A solve is what [join_or_start] decides on the state under the lock
    - refused, joined or started - for the page that was challenged, with the
    User-Agent of this request, through its exit and with that exit's cookies, asked
    for exactly when sessions are attached; and a solve waited for is settled. *)
Theorem handle_exact options (w : W) t :
  0 <= po_budget (ly_policy l) → ly_fallback l = Some fallback →
  po_eligible (ly_policy l) parts options = true → try_clone body = Some body →
  ∃ rounds last result w',
    handle l parts options body (w, t) = Some (result, (w', t ++ mjoin rounds ++ last)) ∧
    Forall replayed rounds ∧ zlen rounds <= po_budget (ly_policy l) ∧
    ends (bool_decide (rounds ≠ [])) (po_budget (ly_policy l) <=? zlen rounds) last result.
Proof. apply handle_spec. Qed.
End Conversation.

Section Observed.
Context `{HeaderValueApi} `{HeaderMapApi} `{UrlApi} `{!UriApi} `{!EqDecision Url, !Countable Url}.
Context (l : Layer) {W : Type} `{!ChallengeEnv W}.


(** Detection loses nothing: whatever the detector makes of a response, what comes
    back has its status, version, headers and extensions and a body that delivers the
    same bytes and ends the same way, with the conclusion attached if there is one -
    which the detector drew from the head, or from the head and a true front of the
    body.  Only a body that fails before [sniff_limit] bytes have come, under a head
    the detector suspects, is reported as the failure it is. *)
Theorem detection_is_transparent a uri :
  match observe l a uri with
  | inl a' =>
      ∃ a0, same_answer a a0 ∧
        (a' = a0 ∨ ∃ at_ c, reported a uri = Some at_ ∧ a' = with_challenge c a0 ∧
           (at_first l a at_ = Challenged c ∨
            ∃ prefix, prefix `prefix_of` mjoin (chunks (rs_body (an_response a))) ∧ with_prefix l a at_ prefix = Challenged c))
  | inr (Reading e) =>
      ∃ at_, reported a uri = Some at_ ∧ at_first l a at_ = Suspect ∧ body_error (rs_body (an_response a)) = Some e ∧
        zlen (mjoin (chunks (rs_body (an_response a)))) < ly_sniff_limit l
  | inr (Chain _) => False
  end.
Proof.
  unfold observe. destruct (reported a uri) as [at_|] eqn:Hr; [|exists a; by split; [|left]].
  pose proof (detect_spec l a at_) as Hd. destruct (detect l a at_) as [[d a']|e]; [|exists at_; by destruct Hd as (? & _ & ? & ?)].
  destruct Hd as (Hsame & Hns & Hwhy). destruct d as [| |c]; [exists a'; auto|done|]. exists a'. split; [done|]. right.
  exists at_, c. split; [done|]. split; [done|].
  destruct Hwhy as [(_ & -> & _)|[(_ & _ & [=] & _)|(_ & _ & prefix & b & Hp & Hc)]]; [by left|right].
  exists prefix. pose proof (peek_exact (rs_body (an_response a)) (ly_sniff_limit l)) as Hpeek. rewrite Hp in Hpeek.
  split; [apply Hpeek|]. by case_decide.
Qed.
End Observed.
