(* ===== verification/CacheDirective.v ===== *)
(** [chromulate-cache]: [Cache-Control], parsed into a record
    (src/crates/chromulate-cache/src/directive.rs). *)
From S2P Require Import Prelude RustStr RustTime Extern.
Local Open Scope Z_scope.

Record CacheControl := mk_cc {
  no_store : bool;
  no_cache : bool;
  private : bool;
  public : bool;
  must_revalidate : bool;
  immutable : bool;
  max_age : option Z;
  s_maxage : option Z;
}.

#[export] Instance CacheControl_eq_dec : EqDecision CacheControl.
Proof. solve_decision. Defined.

Definition cc_default : CacheControl := mk_cc false false false false false false None None.

Definition quote : str := [ascii_of_nat 34].

Definition unquote (value : str) : str :=
  default value (rest ← strip_prefix quote value; strip_suffix quote rest).

Definition delta_seconds (value : str) : option Z :=
  if bool_decide (value = []) || negb (all_digits value) then None
  else Some (default u64_max (parse_u64 value)).

(** [a.or(b)]. *)
Definition or_else (a b : option Z) : option Z := match a with Some _ => a | None => b end.

(** One directive, by its lower-case name. *)
Definition apply_directive (name : str) (argument : option str) (c : CacheControl) : CacheControl :=
  let seconds := argument ≫= delta_seconds in
  if bool_decide (name = b#"no-store") then
    mk_cc true (no_cache c) (private c) (public c) (must_revalidate c) (immutable c) (max_age c) (s_maxage c)
  else if bool_decide (name = b#"no-cache") then
    mk_cc (no_store c) true (private c) (public c) (must_revalidate c) (immutable c) (max_age c) (s_maxage c)
  else if bool_decide (name = b#"private") then
    mk_cc (no_store c) (no_cache c) true (public c) (must_revalidate c) (immutable c) (max_age c) (s_maxage c)
  else if bool_decide (name = b#"public") then
    mk_cc (no_store c) (no_cache c) (private c) true (must_revalidate c) (immutable c) (max_age c) (s_maxage c)
  else if bool_decide (name = b#"must-revalidate") then
    mk_cc (no_store c) (no_cache c) (private c) (public c) true (immutable c) (max_age c) (s_maxage c)
  else if bool_decide (name = b#"immutable") then
    mk_cc (no_store c) (no_cache c) (private c) (public c) (must_revalidate c) true (max_age c) (s_maxage c)
  else if bool_decide (name = b#"max-age") then
    mk_cc (no_store c) (no_cache c) (private c) (public c) (must_revalidate c) (immutable c)
      (or_else seconds (max_age c)) (s_maxage c)
  else if bool_decide (name = b#"s-maxage") then
    mk_cc (no_store c) (no_cache c) (private c) (public c) (must_revalidate c) (immutable c)
      (max_age c) (or_else seconds (s_maxage c))
  else c.

(** The name and the argument of a trimmed, non-empty token. *)
Definition directive_of (token : str) : str * option str :=
  match split_once "="%char token with
  | Some (name, argument) => (to_ascii_lowercase (trim name), Some (unquote (trim argument)))
  | None => (to_ascii_lowercase token, None)
  end.

Definition absorb_token (c : CacheControl) (token : str) : CacheControl :=
  let token := trim token in
  if bool_decide (token = []) then c
  else let '(name, argument) := directive_of token in apply_directive name argument c.

Definition absorb (c : CacheControl) (text : str) : CacheControl :=
  foldl absorb_token c (split_by (is_char ","%char) text).

Definition explicit_lifetime (c : CacheControl) : option Duration := from_secs <$> max_age c.

Section With_headers.
Context `{HeaderValueApi} `{HeaderMapApi}.

Definition cc_of (headers : HeaderMap) : CacheControl :=
  foldl (λ c value, match to_str value with Some text => absorb c text | None => c end)
    cc_default (hm_get_all headers CACHE_CONTROL).

Definition has_no_cache_token (value : str) : bool :=
  match to_str value with
  | Some text => existsb (λ t, eq_ignore_ascii_case (trim t) b#"no-cache")
                   (split_by (is_char ","%char) text)
  | None => false
  end.

Definition cc_of_request (headers : HeaderMap) : CacheControl :=
  let parsed := cc_of headers in
  if hm_contains_key headers CACHE_CONTROL then parsed
  else foldl (λ c value,
         if has_no_cache_token value then
           mk_cc (no_store c) true (private c) (public c) (must_revalidate c) (immutable c)
             (max_age c) (s_maxage c)
         else c) parsed (hm_get_all headers PRAGMA).
End With_headers.

Example absorb_spaces :
  absorb cc_default (b#"Max-Age = " ++ quote ++ b#"60" ++ quote ++ b#" , NO-STORE") =
  mk_cc true false false false false false (Some 60) None.
Proof. vm_compute. reflexivity. Qed.
Example absorb_saturates :
  max_age (absorb cc_default b#"max-age=99999999999999999999999") = Some u64_max.
Proof. vm_compute. reflexivity. Qed.

(** ** Properties *)

(** A comma-joined value is read as its parts in turn. *)
Lemma absorb_comma c s t : absorb c (s ++ ","%char :: t) = absorb (absorb c s) t.
Proof. unfold absorb. by rewrite split_by_app, foldl_app. Qed.

Lemma absorb_join c l :
  l ≠ [] → absorb c (join b#"," l) = foldl absorb c l.
Proof.
  revert c. induction l as [|s l IH]; intros c Hne; [done|]. destruct l as [|t l]; [done|].
  change (join b#"," (s :: t :: l)) with (s ++ ","%char :: join b#"," (t :: l)).
  by rewrite absorb_comma, IH.
Qed.

Lemma delta_seconds_range v n : delta_seconds v = Some n → 0 <= n <= u64_max.
Proof.
  unfold delta_seconds, parse_u64. case_match; [done|]. intros [= <-].
  destruct (parse_unsigned u64_max v) as [n|] eqn:E; simpl; [|unfold u64_max; lia].
  by apply parse_unsigned_range in E.
Qed.

(** A digit string is read as its value, cut off at [u64::MAX]. *)
Lemma delta_seconds_saturates v :
  v ≠ [] → all_digits v = true → delta_seconds v = Some (Z.min (decimal_value v) u64_max).
Proof.
  intros Hne Hd. unfold delta_seconds. rewrite Hd, bool_decide_false by done. simpl. f_equal.
  destruct (decide (decimal_value v <= u64_max)).
  - unfold parse_u64. rewrite parse_unsigned_digits by done. simpl. lia.
  - unfold parse_u64. rewrite parse_unsigned_overflow by (done || lia). simpl. lia.
Qed.

(** What a flag directive does to a flag. *)
Lemma apply_directive_no_store n a c :
  no_store (apply_directive n a c) = bool_decide (n = b#"no-store") || no_store c.
Proof. unfold apply_directive. repeat case_bool_decide; subst; try done. Qed.

Lemma apply_directive_no_cache n a c :
  no_cache (apply_directive n a c) = bool_decide (n = b#"no-cache") || no_cache c.
Proof. unfold apply_directive. repeat case_bool_decide; subst; try done. Qed.

Lemma apply_directive_max_age n a c :
  max_age (apply_directive n a c) =
  if decide (n = b#"max-age") then or_else (a ≫= delta_seconds) (max_age c) else max_age c.
Proof. unfold apply_directive. repeat (case_bool_decide || case_decide); subst; try done. Qed.

(** A directive token of a field value: its name in lower case, its argument. *)
Definition has_directive (text name : str) : Prop :=
  ∃ token, token ∈ split_by (is_char ","%char) text ∧ trim token ≠ [] ∧
           (directive_of (trim token)).1 = name.

Lemma absorb_flag (flag : CacheControl → bool) (name : str) c text :
  (∀ n a c, flag (apply_directive n a c) = bool_decide (n = name) || flag c) →
  flag (absorb c text) = true ↔ has_directive text name ∨ flag c = true.
Proof.
  intros Hflag. unfold absorb, has_directive.
  revert c. induction (split_by _ text) as [|t l IH]; intros c; simpl.
  { split; [by right|]. intros [(x & Hx & _)|?]; [by apply elem_of_nil in Hx|done]. }
  rewrite IH. unfold absorb_token. setoid_rewrite elem_of_cons.
  case_bool_decide as Ht; [naive_solver|]. destruct (directive_of (trim t)) as [n a] eqn:Hd.
  rewrite Hflag, orb_true_iff, bool_decide_eq_true. split.
  - intros [(x & ? & ? & ?)|[->|?]]; [left; eauto|left; exists t; rewrite Hd; auto|auto].
  - intros [(x & [->|?] & ? & Hn)|?]; [|left; eauto|auto]. rewrite Hd in Hn. auto.
Qed.

Section Lines.
Context `{HeaderValueLaws} `{HeaderMapApi}.

Lemma foldl_absorb_flag (flag : CacheControl → bool) (name : str) c values :
  (∀ n a c, flag (apply_directive n a c) = bool_decide (n = name) || flag c) →
  flag (foldl (λ c value, match to_str value with Some text => absorb c text | None => c end)
          c values) = true ↔
  (∃ v text, v ∈ values ∧ to_str v = Some text ∧ has_directive text name) ∨ flag c = true.
Proof.
  intros Hflag. revert c. induction values as [|v values IH]; intros c; simpl.
  { split; [by right|]. intros [(v & t & Hv & _)|?]; [by apply elem_of_nil in Hv|done]. }
  rewrite IH. setoid_rewrite elem_of_cons. destruct (to_str v) as [text|] eqn:Hv.
  - rewrite (absorb_flag flag name) by done. split.
    + intros [(x & t & ? & ? & ?)|[?|?]]; [left; eauto 6|left; eauto 6|auto].
    + intros [(x & t & [->|?] & Ht & ?)|?]; [|left; eauto|auto].
      rewrite Hv in Ht. injection Ht as ->. auto.
  - split; [intros [(x & t & ? & ? & ?)|?]; [left; eauto 6|auto]|].
    intros [(x & t & [->|?] & Ht & ?)|?]; [congruence|left; eauto|auto].
Qed.

(** [no-store] and [no-cache] are found exactly: the flag is set if and only
    if some readable [Cache-Control] line carries a directive of that name, in
    any case, among other directives, with or without an argument - and the two
    are never confused. *)
Theorem no_store_no_cache_exact headers :
  (no_store (cc_of headers) = true ↔
    ∃ v text, v ∈ hm_get_all headers CACHE_CONTROL ∧ to_str v = Some text ∧
              has_directive text b#"no-store") ∧
  (no_cache (cc_of headers) = true ↔
    ∃ v text, v ∈ hm_get_all headers CACHE_CONTROL ∧ to_str v = Some text ∧
              has_directive text b#"no-cache").
Proof.
  unfold cc_of. split.
  - rewrite (foldl_absorb_flag no_store b#"no-store") by apply apply_directive_no_store.
    simpl. naive_solver.
  - rewrite (foldl_absorb_flag no_cache b#"no-cache") by apply apply_directive_no_cache.
    simpl. naive_solver.
Qed.

(** Several [Cache-Control] lines mean the same as one line with their
    comma-joined value, as [CacheControl::of] documents. *)
Theorem split_lines_mean_joined headers headers' lines :
  lines ≠ [] → Forall (λ v, is_Some (to_str v)) lines →
  hm_get_all headers CACHE_CONTROL = lines →
  hm_get_all headers' CACHE_CONTROL = [join b#"," lines] →
  cc_of headers = cc_of headers'.
Proof.
  intros Hne Hread Hl Hj. unfold cc_of. rewrite Hl, Hj. cbn [foldl].
  assert (Hvis : Forall (Forall (λ c, visible_ascii c = true)) lines).
  { eapply Forall_impl; [done|]. by intros v [s [-> ?]%to_str_Some]. }
  rewrite to_str_visible by (apply join_visible; [by repeat constructor|done]).
  rewrite absorb_join by done. clear Hl Hj Hne Hread. generalize cc_default as c.
  induction Hvis as [|v lines Hv _ IH]; intros c; simpl; [done|]. rewrite to_str_visible by done.
  apply IH.
Qed.
End Lines.

Import Sample.

Lemma split_lines_mean_joined_witness :
  let one : HeaderMap := hm_insert CACHE_CONTROL b#"max-age=60,no-store" [] in
  let two : HeaderMap := hm_append CACHE_CONTROL b#"no-store" (hm_insert CACHE_CONTROL b#"max-age=60" []) in
  cc_of two = cc_of one.
Proof.
  apply (split_lines_mean_joined _ _ [b#"max-age=60"; b#"no-store"]).
  - discriminate.
  - repeat constructor; eexists; vm_compute; reflexivity.
  - vm_compute. reflexivity.
  - vm_compute. reflexivity.
Defined.
