(* ===== verification/CacheEntry.v ===== *)
(** [chromulate-cache]: what gets stored - the key, the selecting header values
    and the response (src/crates/chromulate-cache/src/entry.rs). *)
From S2P Require Import Prelude RustStr RustTime Extern Body CacheDate CacheDirective.
Local Open Scope Z_scope.

(** [std::mem::size_of], which the compiler chooses. *)
Class Layout := { size_of_CacheKey : Z; size_of_CacheEntry : Z }.

(** ** The key *)

Record CacheKey := mk_key { key_method : Method; target : str }.

#[export] Instance CacheKey_eq_dec : EqDecision CacheKey.
Proof. solve_decision. Defined.

#[export] Instance CacheKey_countable : Countable CacheKey.
Proof.
  refine (inj_countable' (λ k, (key_method k, target k)) (λ p, mk_key p.1 p.2) _).
  by intros [].
Defined.

Definition new_key `{UrlApi} (method : Method) (url : Url) : CacheKey :=
  mk_key method (before_fragment url).

Definition key_size `{Layout} (k : CacheKey) : Z := size_of_CacheKey + zlen (target k).

(** ** The selector *)

Definition Selector : Type := list (str * list str).

Definition any_selector : Selector := [].

(** The lock-step walk of [matches] over the offered and the stored values. *)
Fixpoint same_values (offered expected : list str) : bool :=
  match offered, expected with
  | [], [] => true
  | a :: offered, b :: expected => if decide (a = b) then same_values offered expected else false
  | _, _ => false
  end.

Section Selectors.
Context `{HeaderMapApi}.

Definition selector_of (names : list str) (request : HeaderMap) : Selector :=
  (λ name, (name, hm_get_all request name)) <$> names.

Definition selector_matches (s : Selector) (request : HeaderMap) : bool :=
  forallb (λ f, same_values (hm_get_all request f.1) f.2) s.

Definition selector_names (s : Selector) : list str := fst <$> s.

Definition selector_size (s : Selector) : Z :=
  zsum ((λ f, zlen f.1 + zsum (zlen <$> f.2)) <$> s).
End Selectors.

(** ** Connection-specific fields *)

Definition is_hop_by_hop (name : str) : bool :=
  bool_decide (name ∈ [b#"connection"; b#"keep-alive"; b#"proxy-authenticate";
                       b#"proxy-authorization"; b#"proxy-connection"; b#"te"; b#"trailer";
                       b#"transfer-encoding"; b#"upgrade"]).

(** ** The entry *)

Section Entries.
Context `{HeaderValueApi} `{HeaderMapApi}.

Record CacheEntry := mk_cache_entry {
  status : StatusCode;
  version : Version;
  headers : HeaderMap;
  body : bytes;
  selector : Selector;
  requested_at : SystemTime;
  received_at : SystemTime;
}.

Definition entry_size `{Layout} (e : CacheEntry) : Z :=
  size_of_CacheEntry + zlen (body e)
  + zsum ((λ nv, zlen nv.1 + zlen nv.2) <$> hm_iter (headers e))
  + selector_size (selector e).

Definition header_date (h : HeaderMap) (name : str) : option SystemTime :=
  value ← hm_get h name; text ← to_str value; parse_http_date text.

Definition entry_date (e : CacheEntry) : option SystemTime := header_date (headers e) DATE.
Definition last_modified (e : CacheEntry) : option SystemTime :=
  header_date (headers e) LAST_MODIFIED.
Definition effective_date (e : CacheEntry) : SystemTime := default (received_at e) (entry_date e).

Definition age_field (e : CacheEntry) : option Duration :=
  raw ← hm_get (headers e) AGE;
  value ← to_str raw;
  if bool_decide (value = []) || negb (all_digits value) then None
  else Some (from_secs (default u64_max (parse_u64 value))).

Definition expires_field (e : CacheEntry) : option SystemTime :=
  value ← hm_get (headers e) EXPIRES;
  Some (default UNIX_EPOCH (text ← to_str value; parse_http_date text)).

(** One field of a [304] over the stored ones. *)
Definition refresh_field (not_modified : HeaderMap) (h : HeaderMap) (name : str) : HeaderMap :=
  if is_hop_by_hop name || bool_decide (name = CONTENT_LENGTH) then h
  else
    match hm_get_all not_modified name with
    | [] => h
    | first :: extra => foldl (λ h v, hm_append name v h) (hm_insert name first h) extra
    end.

Definition refreshed (e : CacheEntry) (not_modified : HeaderMap)
    (requested_at received_at : SystemTime) : CacheEntry :=
  mk_cache_entry (status e) (version e)
    (foldl (refresh_field not_modified) (headers e) (hm_keys not_modified))
    (body e) (selector e) requested_at received_at.

(** ** [Vary] *)

(** The names of one [Vary] value; [None] is [*] or an unreadable name. *)
Fixpoint vary_tokens (tokens : list str) : option (list str) :=
  match tokens with
  | [] => Some []
  | token :: tokens =>
      let token := trim token in
      if decide (token = []) then vary_tokens tokens
      else if decide (token = b#"*") then None
      else name ← header_name token; names ← vary_tokens tokens; Some (name :: names)
  end.

Fixpoint vary_values (values : list str) : option (list str) :=
  match values with
  | [] => Some []
  | value :: values =>
      text ← to_str value;
      names ← vary_tokens (split_by (is_char ","%char) text);
      rest ← vary_values values;
      Some (names ++ rest)
  end.

Definition vary_names (h : HeaderMap) : option (list str) :=
  names ← vary_values (hm_get_all h VARY);
  Some (dedup (sort_by str_leb names)).

(** The names the [Connection] field lists. *)
Definition connection_named (h : HeaderMap) : list str :=
  omap (λ token, header_name (trim token))
    (mjoin ((λ text, split_by (is_char ","%char) text) <$>
            omap to_str (hm_get_all h CONNECTION))).

Definition strip_hop_by_hop (h : HeaderMap) : HeaderMap :=
  let hop := filter (λ name, is_hop_by_hop name = true) (hm_keys h) ++ connection_named h in
  foldl (λ h name, hm_remove name h) h hop.
End Entries.

(** ** Properties *)

Lemma same_values_eq a b : same_values a b = true ↔ a = b.
Proof.
  revert b. induction a as [|x a IH]; intros [|y b]; simpl; try naive_solver.
  case_decide; [subst; rewrite IH|]; naive_solver.
Qed.

Section Laws.
Context `{HeaderValueLaws} `{HeaderMapLaws}.

Lemma selector_matches_iff names request request' :
  selector_matches (selector_of names request) request' = true ↔
  ∀ n, n ∈ names → hm_get_all request' n = hm_get_all request n.
Proof.
  unfold selector_matches, selector_of. rewrite forallb_Forall, Forall_fmap, Forall_forall.
  unfold compose. simpl. by setoid_rewrite same_values_eq.
Qed.

Lemma get_all_refresh_field nm h name n :
  hm_get_all (refresh_field nm h name) n =
  if decide (n = name ∧ is_hop_by_hop name = false ∧ name ≠ CONTENT_LENGTH ∧ hm_get_all nm name ≠ [])
  then hm_get_all nm n else hm_get_all h n.
Proof.
  unfold refresh_field. destruct (is_hop_by_hop name) eqn:Hhop; simpl.
  { by rewrite decide_False by naive_solver. }
  case_bool_decide as Hcl; [by rewrite decide_False by naive_solver|].
  destruct (hm_get_all nm name) as [|first extra] eqn:Hv; [by rewrite decide_False by naive_solver|].
  assert (Happ : ∀ extra h0, hm_get_all (foldl (λ h v, hm_append name v h) h0 extra) n =
            if decide (n = name) then hm_get_all h0 n ++ extra else hm_get_all h0 n).
  { clear Hv extra. intros extra. induction extra as [|v extra IH]; intros h0; simpl.
    - case_decide; [by rewrite app_nil_r|done].
    - rewrite IH, get_all_append. repeat case_decide; try congruence. by rewrite <- app_assoc. }
  rewrite Happ, get_all_insert. destruct (decide (n = name)) as [->|Hne].
  - rewrite !decide_True by naive_solver. by rewrite Hv.
  - by rewrite !decide_False by naive_solver.
Qed.

Lemma refreshed_get_all e nm t1 t2 n :
  hm_get_all (headers (refreshed e nm t1 t2)) n =
  if decide (hm_get_all nm n ≠ [] ∧ is_hop_by_hop n = false ∧ n ≠ CONTENT_LENGTH)
  then hm_get_all nm n else hm_get_all (headers e) n.
Proof.
  unfold refreshed. simpl.
  assert (Hfold : ∀ keys h, Forall (λ k, hm_get_all nm k ≠ []) keys →
    hm_get_all (foldl (refresh_field nm) h keys) n =
    if decide (n ∈ keys ∧ is_hop_by_hop n = false ∧ n ≠ CONTENT_LENGTH)
    then hm_get_all nm n else hm_get_all h n).
  { induction keys as [|k keys IH]; intros h Hk; cbn [foldl].
    - rewrite decide_False; [done|]. intros [Hn _]. by apply elem_of_nil in Hn.
    - apply Forall_cons in Hk as [Hk Hks]. rewrite IH by done. rewrite get_all_refresh_field.
      destruct (decide (n = k)) as [->|Hne]; repeat case_decide; try done;
        exfalso; rewrite elem_of_cons in *; naive_solver. }
  rewrite Hfold by (apply Forall_forall; intros k; apply elem_of_keys).
  apply decide_ext. by rewrite elem_of_keys.
Qed.

Lemma get_all_remove_list names h n :
  hm_get_all (foldl (λ h name, hm_remove name h) h names) n =
  if decide (n ∈ names) then [] else hm_get_all h n.
Proof.
  revert h. induction names as [|k names IH]; intros h; cbn [foldl].
  { rewrite decide_False; [done|]. apply not_elem_of_nil. }
  rewrite IH, get_all_remove. repeat case_decide; try done; rewrite elem_of_cons in *; naive_solver.
Qed.

Lemma strip_hop_by_hop_get_all h n :
  hm_get_all (strip_hop_by_hop h) n =
  if decide (is_hop_by_hop n = true ∨ n ∈ connection_named h) then [] else hm_get_all h n.
Proof.
  unfold strip_hop_by_hop. rewrite get_all_remove_list.
  assert (Hin : ∀ hop, n ∈ hop ++ connection_named h ↔ n ∈ hop ∨ n ∈ connection_named h)
    by (intros; apply elem_of_app).
  destruct (hm_get_all h n) as [|v vs] eqn:Hn; [by repeat case_decide|].
  apply decide_ext. rewrite Hin, list_elem_of_filter, elem_of_keys, Hn. intuition done.
Qed.

Lemma vary_tokens_spec tokens :
  match vary_tokens tokens with
  | Some names =>
      (∀ n, n ∈ names ↔ ∃ t, t ∈ tokens ∧ trim t ≠ [] ∧ header_name (trim t) = Some n) ∧
      (∀ t, t ∈ tokens → trim t ≠ b#"*")
  | None => ∃ t, t ∈ tokens ∧ trim t ≠ [] ∧ (trim t = b#"*" ∨ header_name (trim t) = None)
  end.
Proof.
  induction tokens as [|t tokens IH]; cbn [vary_tokens].
  { split; [intros n; rewrite elem_of_nil; split; [done|]; intros (t & Ht & _)|intros t Ht];
      by apply elem_of_nil in Ht. }
  case_decide as Hnil.
  { destruct (vary_tokens tokens) as [names|]; setoid_rewrite elem_of_cons; [|naive_solver].
    destruct IH as [Hn Hs].
    split; [intros n; rewrite Hn; naive_solver|]. intros x [->|?]; [by rewrite Hnil|auto]. }
  case_decide as Hstar; [exists t; rewrite elem_of_cons; auto|].
  destruct (header_name (trim t)) as [name|] eqn:Hname; cbn [mbind option_bind];
    [|exists t; rewrite elem_of_cons; auto].
  destruct (vary_tokens tokens) as [names|]; cbn [mbind option_bind]; setoid_rewrite elem_of_cons;
    [|naive_solver].
  destruct IH as [Hn Hs]. split.
  - intros n. rewrite Hn. split.
    + intros [->|(x & ? & ?)]; eauto 6.
    + intros (x & [->|?] & ? & Hx); [left; congruence|eauto 6].
  - intros x [->|?]; auto.
Qed.

(** A non-empty, trimmed token of some [Vary] line. *)
Definition vary_token (h : HeaderMap) (token : str) : Prop :=
  token ≠ [] ∧ ∃ v text t, v ∈ hm_get_all h VARY ∧ to_str v = Some text ∧
    t ∈ split_by (is_char ","%char) text ∧ token = trim t.

Lemma vary_values_spec values :
  match vary_values values with
  | Some names =>
      Forall (λ v, is_Some (to_str v)) values ∧
      (∀ n, n ∈ names ↔ ∃ v text t, v ∈ values ∧ to_str v = Some text ∧
         t ∈ split_by (is_char ","%char) text ∧ trim t ≠ [] ∧ header_name (trim t) = Some n) ∧
      (∀ v text t, v ∈ values → to_str v = Some text →
         t ∈ split_by (is_char ","%char) text → trim t ≠ b#"*")
  | None => ∃ v, v ∈ values ∧
      (to_str v = None ∨ ∃ text t, to_str v = Some text ∧ t ∈ split_by (is_char ","%char) text ∧
         trim t ≠ [] ∧ (trim t = b#"*" ∨ header_name (trim t) = None))
  end.
Proof.
  induction values as [|v values IH]; cbn [vary_values].
  { split_and!; [constructor|intros n; rewrite elem_of_nil; split; [done|]; intros (v & ? & ? & Hv & _)
      |intros v text t Hv]; by apply elem_of_nil in Hv. }
  destruct (to_str v) as [text|] eqn:Hv; cbn [mbind option_bind];
    [|setoid_rewrite elem_of_cons; eauto].
  pose proof (vary_tokens_spec (split_by (is_char ","%char) text)) as Ht.
  destruct (vary_tokens _) as [names|]; cbn [mbind option_bind];
    [|setoid_rewrite elem_of_cons; destruct Ht as (t & ? & ? & ?); exists v; eauto 10].
  destruct (vary_values values) as [rest|]; cbn [mbind option_bind]; setoid_rewrite elem_of_cons;
    [|destruct IH as (x & ? & ?); exists x; auto].
  destruct Ht as [Hn Hs], IH as (Hread & Hrn & Hrs). split_and!.
  - constructor; [by exists text|done].
  - intros n. rewrite elem_of_app, Hn, Hrn. split.
    + intros [(t & ? & ? & ?)|(x & y & t & ? & ? & ? & ? & ?)]; [by exists v, text, t; auto 10|].
      exists x, y, t. auto 10.
    + intros (x & y & t & [->|?] & Hy & ? & ? & ?); [left|right; by exists x, y, t].
      rewrite Hv in Hy. injection Hy as <-. eauto.
  - intros x y t [->|?] Hy ?; [|eauto]. rewrite Hv in Hy. injection Hy as <-. auto.
Qed.

(** The [Vary] names of a response are exactly the field names its [Vary]
    lines list, each once; and a response that carries [*], a line that is not
    text or a token that is not a field name has none, so it is never selected
    by a partial rule. *)
Theorem vary_names_exact h :
  match vary_names h with
  | Some names =>
      NoDup names ∧ (∀ n, n ∈ names ↔ ∃ t, vary_token h t ∧ header_name t = Some n) ∧
      ¬ vary_token h b#"*"
  | None => (∃ v, v ∈ hm_get_all h VARY ∧ to_str v = None) ∨
            ∃ t, vary_token h t ∧ (t = b#"*" ∨ header_name t = None)
  end.
Proof.
  unfold vary_names, vary_token. pose proof (vary_values_spec (hm_get_all h VARY)) as Hv.
  destruct (vary_values _) as [names|]; cbn [mbind option_bind].
  - destruct Hv as (_ & Hn & Hs). split_and!.
    + apply (dedup_sorted_NoDup str_leb), sort_by_ordered; [apply str_leb_antisym|apply str_leb_total|apply str_leb_trans].
    + intros n. rewrite elem_of_dedup, (sort_by_perm str_leb names), Hn. split.
      * intros (v & text & t & ? & ? & ? & ? & ?). exists (trim t). eauto 10.
      * intros (t & (? & v & text & t' & ? & ? & ? & ->) & ?). eauto 10.
    + intros (_ & v & text & t & ? & ? & ? & Ht). by eapply Hs.
  - destruct Hv as (v & Hin & [?|(text & t & ? & ? & ? & ?)]); [left; eauto|].
    right. exists (trim t). split; [|done]. split; [done|]. eauto 10.
Qed.

(** A selector built from the [Vary] names of a response matches exactly the
    requests that carry, for every one of those names, the same values in the
    same order as the recorded request - absence included. *)
Theorem selector_selects_exactly names request request' :
  selector_matches (selector_of names request) request' = true ↔
  ∀ n, n ∈ names → hm_get_all request' n = hm_get_all request n.
Proof. apply selector_matches_iff. Qed.

(** Before a response is stored every hop-by-hop field and every field its
    [Connection] header names is removed, and no other field is touched. *)
Theorem strip_hop_by_hop_exact h n :
  hm_get_all (strip_hop_by_hop h) n =
  if decide (is_hop_by_hop n = true ∨ n ∈ connection_named h) then [] else hm_get_all h n.
Proof. apply strip_hop_by_hop_get_all. Qed.

(** A [304] replaces exactly the fields it carries - hop-by-hop fields and
    [Content-Length] excepted, so the stored body keeps its length - and leaves
    status, body and selector as stored. *)
Theorem refreshed_exact e nm t1 t2 :
  (∀ n, hm_get_all (headers (refreshed e nm t1 t2)) n =
        if decide (hm_get_all nm n ≠ [] ∧ is_hop_by_hop n = false ∧ n ≠ CONTENT_LENGTH)
        then hm_get_all nm n else hm_get_all (headers e) n) ∧
  status (refreshed e nm t1 t2) = status e ∧ body (refreshed e nm t1 t2) = body e ∧
  selector (refreshed e nm t1 t2) = selector e ∧
  requested_at (refreshed e nm t1 t2) = t1 ∧ received_at (refreshed e nm t1 t2) = t2.
Proof. split_and!; [intros n; apply refreshed_get_all|done..]. Qed.
End Laws.
