(* ===== verification/CachePolicy.v ===== *)
(** [chromulate-cache]: may this be stored, and is a stored copy still fresh
    (src/crates/chromulate-cache/src/policy.rs). *)
From S2P Require Import Prelude RustStr RustTime Extern Body CacheDate CacheDirective CacheEntry.
Local Open Scope Z_scope.

Record CacheConfig := mk_config {
  max_body_bytes : Z;
  store_private : bool;
  heuristic_cap : Duration;
}.

Definition default_config : CacheConfig :=
  mk_config (8 * 1024 * 1024) false (from_secs (24 * 60 * 60)).

Inductive NotStorable :=
  | NS_Method
  | NS_RequestNoStore
  | NS_ResponseNoStore
  | NS_Status
  | NS_SetCookie
  | NS_VaryStar
  | NS_VaryUnselectable
  | NS_Private
  | NS_Authorization
  | NS_NoFreshnessAndNoValidator.

Definition is_cacheable_status (s : StatusCode) : bool :=
  bool_decide (s ∈ [200; 203; 204; 300; 301; 302; 307; 308; 404; 405; 410; 414; 501]).

Definition is_heuristically_cacheable (s : StatusCode) : bool :=
  bool_decide (s ∈ [200; 203; 204; 300; 301; 308; 404; 405; 410; 414; 501]).

Definition UNSELECTABLE : list str :=
  [b#"cookie"; b#"accept"; b#"referer"; b#"origin"; b#"priority"; b#"upgrade-insecure-requests";
   b#"sec-fetch-site"; b#"sec-fetch-mode"; b#"sec-fetch-user"; b#"sec-fetch-dest";
   b#"sec-ch-ua-arch"; b#"sec-ch-ua-bitness"; b#"sec-ch-ua-model"; b#"sec-ch-ua-platform-version";
   b#"sec-ch-ua-full-version-list"].

Section With_headers.
Context `{HeaderValueApi} `{HeaderMapApi}.

Definition has_validator (h : HeaderMap) : bool :=
  hm_contains_key h ETAG || hm_contains_key h LAST_MODIFIED.

Definition storable (config : CacheConfig) (method : Method) (request_headers : HeaderMap)
    (request_cc : CacheControl) (status : StatusCode) (response_headers : HeaderMap)
    (response_cc : CacheControl) : list str + NotStorable :=
  if negb (bool_decide (method = GET)) then inr NS_Method
  else if no_store request_cc then inr NS_RequestNoStore
  else if no_store response_cc then inr NS_ResponseNoStore
  else if negb (is_cacheable_status status) then inr NS_Status
  else if hm_contains_key response_headers SET_COOKIE then inr NS_SetCookie
  else
    match vary_names response_headers with
    | None => inr NS_VaryStar
    | Some names =>
        if existsb (λ name, bool_decide (name ∈ UNSELECTABLE)) names then inr NS_VaryUnselectable
        else if private response_cc && negb (store_private config) then inr NS_Private
        else if hm_contains_key request_headers AUTHORIZATION && negb (store_private config)
                && negb (public response_cc || must_revalidate response_cc
                         || bool_decide (is_Some (s_maxage response_cc)))
        then inr NS_Authorization
        else
          let usable :=
            bool_decide (is_Some (max_age response_cc))
            || hm_contains_key response_headers EXPIRES
            || has_validator response_headers
            || (is_heuristically_cacheable status && hm_contains_key response_headers LAST_MODIFIED) in
          if negb usable then inr NS_NoFreshnessAndNoValidator else inl names
    end.

Definition current_age (e : CacheEntry) (now : SystemTime) : Duration :=
  let received := received_at e in
  let apparent_age := since_or_zero received (effective_date e) in
  let response_delay := since_or_zero received (requested_at e) in
  let corrected_age := duration_saturating_add (default 0 (age_field e)) response_delay in
  let initial_age := Z.max apparent_age corrected_age in
  let resident_time := since_or_zero now received in
  duration_saturating_add initial_age resident_time.

Definition freshness_lifetime (e : CacheEntry) (response_cc : CacheControl) (config : CacheConfig)
    : option Duration :=
  match explicit_lifetime response_cc with
  | Some explicit => Some explicit
  | None =>
      match expires_field e with
      | Some expires => Some (since_or_zero expires (effective_date e))
      | None =>
          if negb (is_heuristically_cacheable (status e)) then None
          else
            last_modified ← last_modified e;
            match duration_since (effective_date e) last_modified with
            | inr _ => None
            | inl since =>
                since ← duration_checked_div since 10;
                Some (Z.min since (heuristic_cap config))
            end
      end
  end.

Definition is_fresh (e : CacheEntry) (response_cc : CacheControl) (config : CacheConfig)
    (now : SystemTime) : bool :=
  if no_cache response_cc then false
  else
    match freshness_lifetime e response_cc config with
    | Some lifetime => current_age e now <? lifetime
    | None => false
    end.
End With_headers.

Definition request_forces_revalidation (request_cc : CacheControl) : bool :=
  no_cache request_cc || bool_decide (max_age request_cc = Some 0).

(** ** Properties *)

Section Laws.
Context `{HeaderValueApi} `{HeaderMapApi}.

(** Every rule of RFC 9111 section 3 the crate applies, plus its own. *)
Record may_store (config : CacheConfig) (method : Method) (request_headers : HeaderMap)
    (request_cc : CacheControl) (status : StatusCode) (response_headers : HeaderMap)
    (response_cc : CacheControl) (names : list str) : Prop := {
  ms_get : method = GET;
  ms_request : no_store request_cc = false;
  ms_response : no_store response_cc = false;
  ms_status : is_cacheable_status status = true;
  ms_no_cookie_set : hm_get_all response_headers SET_COOKIE = [];
  ms_vary : vary_names response_headers = Some names;
  ms_selectable : ∀ n, n ∈ names → n ∉ UNSELECTABLE;
  ms_private : private response_cc = true → store_private config = true;
  ms_authorized : hm_get_all request_headers AUTHORIZATION ≠ [] →
    store_private config = true ∨ public response_cc = true ∨
    must_revalidate response_cc = true ∨ is_Some (s_maxage response_cc);
  ms_usable : is_Some (max_age response_cc) ∨ hm_get_all response_headers EXPIRES ≠ [] ∨
    hm_get_all response_headers ETAG ≠ [] ∨ hm_get_all response_headers LAST_MODIFIED ≠ [];
}.

Lemma contains_key_iff h n : hm_contains_key h n = true ↔ hm_get_all h n ≠ [].
Proof. apply bool_decide_eq_true. Qed.

Lemma contains_key_false h n : hm_contains_key h n = false ↔ hm_get_all h n = [].
Proof.
  unfold hm_contains_key. rewrite bool_decide_eq_false. destruct (hm_get_all h n); naive_solver.
Qed.

Lemma storable_iff_lemma config method rq rqcc st rp rpcc names :
  storable config method rq rqcc st rp rpcc = inl names ↔
  may_store config method rq rqcc st rp rpcc names.
Proof.
  unfold storable. split.
  - case_bool_decide as Hm; [|done]. simpl.
    destruct (no_store rqcc) eqn:H1; [done|]. destruct (no_store rpcc) eqn:H2; [done|].
    destruct (is_cacheable_status st) eqn:H3; [|done]. simpl.
    destruct (hm_contains_key rp SET_COOKIE) eqn:H4; [done|].
    destruct (vary_names rp) as [ns|] eqn:H5; [|done].
    destruct (existsb _ ns) eqn:H6; [done|].
    destruct (private rpcc && _) eqn:H7; [done|].
    destruct (hm_contains_key rq AUTHORIZATION && _ && _) eqn:H8; [done|].
    destruct (_ || (is_heuristically_cacheable st && _)) eqn:H9; [|done]. simpl. intros [= ->].
    split; try done.
    + by apply contains_key_false.
    + intros n Hn Hu. apply not_true_iff_false in H6. apply H6. apply existsb_exists.
      exists n. split; [by apply list_elem_of_In|by apply bool_decide_eq_true].
    + intros Hp. rewrite Hp in H7. by destruct (store_private config).
    + intros Ha. apply contains_key_iff in Ha. rewrite Ha in H8.
      destruct (store_private config); [by left|right]. simpl in H8.
      destruct (public rpcc); [by left|]. destruct (must_revalidate rpcc); [by right; left|].
      simpl in H8. apply negb_false_iff, bool_decide_eq_true in H8. auto.
    + unfold has_validator in H9. rewrite !orb_true_iff, andb_true_iff, !contains_key_iff,
        bool_decide_eq_true in H9. tauto.
  - intros [-> H1 H2 H3 H4 H5 H6 H7 H8 H9]. rewrite bool_decide_true by done. simpl.
    rewrite H1, H2, H3, H5. simpl. rewrite (proj2 (contains_key_false _ _) H4).
    assert (Hu : existsb (λ name, bool_decide (name ∈ UNSELECTABLE)) names = false).
    { apply not_true_iff_false. intros (n & Hn & Hb)%existsb_exists.
      apply bool_decide_eq_true in Hb. apply (H6 n); [by apply list_elem_of_In|done]. }
    rewrite Hu. assert (Hp : private rpcc && negb (store_private config) = false).
    { destruct (private rpcc) eqn:E; [by rewrite H7|done]. }
    rewrite Hp. assert (Ha : hm_contains_key rq AUTHORIZATION && negb (store_private config)
      && negb (public rpcc || must_revalidate rpcc || bool_decide (is_Some (s_maxage rpcc))) = false).
    { destruct (hm_contains_key rq AUTHORIZATION) eqn:E; [|done]. apply contains_key_iff in E.
      destruct (H8 E) as [->|[->|[->|Hs]]]; [done|by rewrite andb_false_r|..].
      - by rewrite orb_true_r, andb_false_r.
      - by rewrite bool_decide_true, orb_true_r, andb_false_r. }
    rewrite Ha. unfold has_validator. rewrite <- !contains_key_iff in H9.
    destruct H9 as [Hx|[->|[->| ->]]]; [by rewrite bool_decide_true|by rewrite ?orb_true_r..].
Qed.

(** A response is stored exactly when every storage rule holds: a [GET],
    [no-store] on neither message, a cacheable status, no [Set-Cookie], a
    [Vary] that is readable and names nothing derived per request such as
    [Cookie], and - unless the cache is configured as private - neither
    [private] nor an [Authorization] request without an explicit licence, and
    something to be fresh by or to revalidate with. *)
Theorem storable_iff config method rq rqcc st rp rpcc names :
  storable config method rq rqcc st rp rpcc = inl names ↔
  may_store config method rq rqcc st rp rpcc names.
Proof. apply storable_iff_lemma. Qed.

(** ** Age and freshness *)

Lemma current_age_mono e now now' : now <= now' → current_age e now <= current_age e now'.
Proof.
  intros Hle. unfold current_age. apply duration_saturating_add_mono; [done|].
  rewrite !since_or_zero_spec. lia.
Qed.

(** Ageing is monotone: as the clock advances a stored response only grows
    older, so once it is stale it never becomes fresh again without
    revalidation. *)
Theorem stale_stays_stale e cc config now now' :
  now <= now' →
  current_age e now <= current_age e now' ∧
  (is_fresh e cc config now = false → is_fresh e cc config now' = false).
Proof.
  intros Hle. pose proof (current_age_mono e now now' Hle) as Hmono. split; [done|].
  unfold is_fresh. destruct (no_cache cc); [done|].
  destruct (freshness_lifetime e cc config); [|done]. rewrite !Z.ltb_ge. lia.
Qed.

Lemma parse_http_date_range s t : parse_http_date s = Some t → system_time_ok t.
Proof.
  unfold parse_http_date. intros ([[[d m] y] tm] & _ & Hp)%bind_Some.
  repeat (apply bind_Some in Hp as (? & _ & Hp)). case_match. subst. case_match.
  case_match; [done|].
  case_match; apply in_system_time_Some in Hp; intuition congruence.
Qed.

Lemma header_date_range h n t : header_date h n = Some t → system_time_ok t.
Proof.
  unfold header_date. intros (v & _ & (s & _ & Hp)%bind_Some)%bind_Some.
  by eapply parse_http_date_range.
Qed.

Lemma effective_date_range e : system_time_ok (received_at e) → system_time_ok (effective_date e).
Proof.
  intros Hr. unfold effective_date. destruct (entry_date e) as [t|] eqn:E; [|done].
  by eapply header_date_range.
Qed.

Lemma expires_field_range e t : expires_field e = Some t → system_time_ok t.
Proof.
  unfold expires_field. intros (v & _ & [= <-])%bind_Some.
  destruct (text ← to_str v; parse_http_date text) as [t|] eqn:E; simpl.
  - apply bind_Some in E as (s & _ & Hp). by eapply parse_http_date_range.
  - unfold system_time_ok, UNIX_EPOCH, system_time_min, system_time_max, nanos. lia.
Qed.

Lemma since_or_zero_range t u :
  system_time_ok t → system_time_ok u → 0 <= since_or_zero t u <= duration_max.
Proof.
  rewrite since_or_zero_spec. unfold system_time_ok, system_time_min, system_time_max, duration_max.
  unfold nanos. lia.
Qed.

Lemma foldl_absorb_max_age (P : Z → Prop) c values :
  (∀ v n, delta_seconds v = Some n → P n) → (∀ n, max_age c = Some n → P n) →
  ∀ n, max_age (foldl (λ c value, match to_str value with Some text => absorb c text | None => c end)
                  c values) = Some n → P n.
Proof.
  intros HP. revert c. induction values as [|v values IH]; intros c Hc; simpl; [done|].
  apply IH. destruct (to_str v) as [text|]; [|done]. unfold absorb.
  revert c Hc. induction (split_by _ text) as [|t l IHl]; intros c Hc; simpl; [done|].
  apply IHl. unfold absorb_token. case_bool_decide; [done|].
  destruct (directive_of _) as [name arg]. intros n. rewrite apply_directive_max_age.
  case_decide; [|by apply Hc]. destruct arg as [a|]; simpl; [|by apply Hc].
  destruct (delta_seconds a) as [k|] eqn:Hk; simpl; [|by apply Hc]. intros [= <-]. eauto.
Qed.

Lemma cc_of_max_age_range h n : max_age (cc_of h) = Some n → 0 <= n <= u64_max.
Proof.
  unfold cc_of. apply (foldl_absorb_max_age (λ n, 0 <= n <= u64_max)); [|done].
  apply delta_seconds_range.
Qed.

(** A lifetime is a representable [Duration]. *)
Lemma freshness_lifetime_range e config l :
  system_time_ok (received_at e) → 0 <= heuristic_cap config <= duration_max →
  freshness_lifetime e (cc_of (headers e)) config = Some l → 0 <= l <= duration_max.
Proof.
  intros Hr Hcap. pose proof (effective_date_range e Hr) as Hd. unfold freshness_lifetime, explicit_lifetime.
  destruct (max_age (cc_of (headers e))) as [n|] eqn:Hn; simpl.
  { intros [= <-]. apply cc_of_max_age_range in Hn.
    unfold from_secs, duration_max, u64_max, nanos in *. lia. }
  destruct (expires_field e) as [x|] eqn:Hx.
  { intros [= <-]. apply since_or_zero_range; [by eapply expires_field_range|done]. }
  destruct (is_heuristically_cacheable _); [|done]. simpl.
  intros (lm & Hlm & Hs)%bind_Some. unfold duration_since in Hs.
  destruct (lm <=? effective_date e) eqn:E; [|done]. simpl in Hs. injection Hs as <-.
  bool_prop. split; [|lia]. apply Z.min_glb; [apply Z.div_pos; lia|lia].
Qed.

Lemma age_field_nonneg e : 0 <= default 0 (age_field e).
Proof.
  unfold age_field. destruct (hm_get (headers e) AGE) as [v|]; [|done]. cbn [mbind option_bind].
  destruct (to_str v) as [t|]; [|done]. cbn [mbind option_bind]. case_match; [done|]. simpl.
  unfold from_secs, nanos.
  assert (0 <= default u64_max (parse_u64 t)); [|lia].
  unfold parse_u64. destruct (parse_unsigned u64_max t) as [n|] eqn:E; simpl; [|unfold u64_max; lia].
  apply parse_unsigned_range in E. lia.
Qed.

(** A response judged fresh is young by the exact arithmetic of RFC 9111
    section 4.2.3 - no saturation or clamping hides an overflow: the larger of
    its apparent age and its corrected [Age], plus the time it has sat in the
    cache, is below its freshness lifetime.  And [no-cache] is never fresh. *)
Theorem fresh_is_young e config now :
  system_time_ok (received_at e) → 0 <= heuristic_cap config <= duration_max →
  is_fresh e (cc_of (headers e)) config now = true →
  no_cache (cc_of (headers e)) = false ∧
  ∃ lifetime, freshness_lifetime e (cc_of (headers e)) config = Some lifetime ∧
    Z.max (received_at e - effective_date e)
          (default 0 (age_field e) + Z.max (received_at e - requested_at e) 0)
    + Z.max (now - received_at e) 0 < lifetime.
Proof.
  intros Hr Hcap. unfold is_fresh. destruct (no_cache _) eqn:Hnc; [done|].
  destruct (freshness_lifetime _ _ _) as [l|] eqn:Hl; [|done]. intros Hage. bool_prop.
  split; [done|]. exists l. split; [done|].
  apply freshness_lifetime_range in Hl; [|done..]. pose proof (age_field_nonneg e).
  unfold current_age, duration_saturating_add in Hage. rewrite !since_or_zero_spec in Hage. lia.
Qed.

(** An [Expires] that is present but does not parse - the value [0] above
    all - means stale, never "no expiry stated": without [max-age] the response
    is not fresh at any time, whatever its [Date] claims. *)
Theorem invalid_expires_never_fresh e config v now :
  hm_get (headers e) EXPIRES = Some v →
  (∀ s, to_str v = Some s → parse_http_date s = None) →
  max_age (cc_of (headers e)) = None → system_time_ok (received_at e) → 0 <= received_at e →
  is_fresh e (cc_of (headers e)) config now = false.
Proof.
  intros Hv Hbad Hma Hok Hr. unfold is_fresh. destruct (no_cache _); [done|].
  assert (Hx : expires_field e = Some UNIX_EPOCH).
  { unfold expires_field. rewrite Hv. cbn [mbind option_bind].
    destruct (to_str v) as [s|]; [|done]. cbn [mbind option_bind]. by rewrite (Hbad s). }
  unfold freshness_lifetime, explicit_lifetime. rewrite Hma, Hx. simpl. apply Z.ltb_ge.
  pose proof (age_field_nonneg e). pose proof (effective_date_range e Hok) as Hd.
  unfold current_age, duration_saturating_add, UNIX_EPOCH. rewrite !since_or_zero_spec.
  unfold system_time_ok, system_time_min, system_time_max, duration_max, nanos in *. lia.
Qed.

(** With neither [max-age] nor [Expires] a lifetime is only ever guessed for
    the heuristically cacheable statuses, from a [Last-Modified] not after the
    response's date, as a tenth of the time between the two and never more than
    the configured cap. *)
Theorem heuristic_lifetime_bounded e config l :
  max_age (cc_of (headers e)) = None → hm_get (headers e) EXPIRES = None →
  freshness_lifetime e (cc_of (headers e)) config = Some l →
  is_heuristically_cacheable (status e) = true ∧ l <= heuristic_cap config ∧
  ∃ lm, last_modified e = Some lm ∧ lm <= effective_date e ∧ 10 * l <= effective_date e - lm.
Proof.
  intros Hma Hx. unfold freshness_lifetime, explicit_lifetime, expires_field. rewrite Hma, Hx. simpl.
  destruct (is_heuristically_cacheable _); [|done]. simpl.
  intros (lm & Hlm & Hs)%bind_Some. unfold duration_since in Hs.
  destruct (lm <=? effective_date e) eqn:E; [|done]. simpl in Hs. injection Hs as <-.
  bool_prop. split_and!; [done|lia|]. exists lm. split_and!; [done..|].
  pose proof (Z.mul_div_le (effective_date e - lm) 10). lia.
Qed.
End Laws.
