(* ===== verification/CacheStorage.v ===== *)
(** [chromulate-cache]: where stored responses live - the backend trait and the
    sharded in-memory store (src/crates/chromulate-cache/src/storage.rs).

    A [Mutex] holds its shard between operations, so the store is a state and
    each operation a function on it.  Byte counts are [usize] sums of the sizes
    of live allocations, which cannot reach [usize::MAX], and are kept in [Z]. *)
From S2P Require Import Prelude RustStr RustTime Extern Body CacheDirective CacheEntry.
Local Open Scope Z_scope.

Inductive CacheError := Unavailable (message : str) | Backend (message : str).

(** [RandomState::hash_one]: some [u64] per key. *)
Class KeyHasher := hash_one : CacheKey → Z.

Record MemoryLimits := mk_memory_limits { max_bytes : Z; shard_count : Z }.

Definition default_memory_limits : MemoryLimits := mk_memory_limits (32 * 1024 * 1024) 16.

Definition per_shard (l : MemoryLimits) : Z := Z.max (max_bytes l / Z.max (shard_count l) 1) 1.

Definition purge_target (l : MemoryLimits) : Z :=
  let cap := per_shard l in saturating_sub cap (cap / 8).

(** ** The backend trait *)

Section Interface.
Context `{HeaderMapApi}.

Class CacheStorage (S : Type) := {
  cs_get : CacheKey → S → (list CacheEntry + CacheError) * S;
  cs_put : CacheKey → CacheEntry → S → (unit + CacheError) * S;
  cs_remove : CacheKey → S → (unit + CacheError) * S;
}.

(** What an implementation owes its caller, on the variants it holds: nothing
    is invented, [put] replaces the variant of the same selector, a successful
    [remove] drops the whole key, [get] reports what is held. *)
Class CacheStorageLaws (S : Type) `{!CacheStorage S} (contents : S → CacheKey → list CacheEntry)
    : Prop := {
  get_reports k s vs s' :
    cs_get k s = (inl vs, s') → vs = contents s k;
  get_keeps k s k' : contents (cs_get k s).2 k' = contents s k';
  put_invents_nothing k e s k' x :
    x ∈ contents (cs_put k e s).2 k' → x ∈ contents s k' ∨ (k' = k ∧ x = e);
  put_replaces k e s x :
    x ∈ contents (cs_put k e s).2 k → selector x = selector e → (cs_put k e s).1 = inl tt → x = e;
  remove_drops k s : (cs_remove k s).1 = inl tt → contents (cs_remove k s).2 k = [];
  remove_invents_nothing k s k' x :
    x ∈ contents (cs_remove k s).2 k' → x ∈ contents s k';
}.

Definition merge_variants (existing : list CacheEntry) (entry : CacheEntry) : list CacheEntry :=
  filter (λ stored, selector stored ≠ selector entry) existing ++ [entry].

(** ** The in-memory store *)

Record StoredRecord := mk_stored {
  variants : list CacheEntry;
  record_bytes : Z;
  last_used : Z;
}.

Record Shard := mk_shard { records : gmap CacheKey StoredRecord; shard_bytes : Z }.

Definition empty_shard : Shard := mk_shard ∅ 0.

Record MemoryStore := mk_memory_store {
  shards : list Shard;
  memory_limits : MemoryLimits;
  tick : Z;
  evictions : Z;
  purge_scans : Z;
}.

Definition with_limits (l : MemoryLimits) : MemoryStore :=
  let n := Z.max (shard_count l) 1 in
  mk_memory_store (replicate (Z.to_nat n) empty_shard) (mk_memory_limits (max_bytes l) n) 0 0 0.

Record MemoryStats := mk_stats { st_keys : Z; st_bytes : Z; st_evictions : Z; st_purge_scans : Z }.

Definition stats (m : MemoryStore) : MemoryStats :=
  mk_stats (zsum ((λ s, Z.of_nat (size (records s))) <$> shards m))
           (zsum (shard_bytes <$> shards m)) (evictions m) (purge_scans m).

Definition next_tick (m : MemoryStore) : Z * MemoryStore :=
  (saturating_add (tick m) 1,
   mk_memory_store (shards m) (memory_limits m) (saturating_add (tick m) 1) (evictions m)
     (purge_scans m)).

(** The walk over the ages in ascending order that finds the cutoff. *)
Fixpoint purge_cutoff (ages : list (Z * Z)) (remaining cutoff target : Z) : Z :=
  match ages with
  | [] => cutoff
  | (last_used, bytes) :: ages =>
      if remaining <=? target then cutoff
      else purge_cutoff ages (remaining - Z.min bytes remaining) last_used target
  end.

Definition record_ages (s : Shard) : list (Z * Z) :=
  (λ kv, (last_used kv.2, record_bytes kv.2)) <$> map_to_list (records s).

(** The purged shard, with how many records were examined and evicted. *)
Definition purge (l : MemoryLimits) (s : Shard) : Shard * Z * Z :=
  if shard_bytes s <=? per_shard l then (s, 0, 0)
  else
    let ages := sort_by (λ a b, a.1 <=? b.1) (record_ages s) in
    let cutoff := purge_cutoff ages (shard_bytes s) 0 (purge_target l) in
    let kept := filter (λ kv, cutoff < last_used kv.2) (records s) in
    (mk_shard kept (map_zsum record_bytes kept), zlen ages,
     Z.of_nat (size (records s)) - Z.of_nat (size kept)).

Context `{Layout} `{KeyHasher}.

Definition shard_index (m : MemoryStore) (k : CacheKey) : nat :=
  Z.to_nat (hash_one k mod zlen (shards m)).

Definition shard_of (m : MemoryStore) (k : CacheKey) : Shard :=
  default empty_shard (shards m !! shard_index m k).

Definition set_shard (m : MemoryStore) (k : CacheKey) (s : Shard) : MemoryStore :=
  mk_memory_store (<[shard_index m k := s]> (shards m)) (memory_limits m) (tick m) (evictions m)
    (purge_scans m).

Definition memory_get (k : CacheKey) (m : MemoryStore)
    : (list CacheEntry + CacheError) * MemoryStore :=
  let '(now, m) := next_tick m in
  let s := shard_of m k in
  match records s !! k with
  | Some r =>
      (inl (variants r),
       set_shard m k (mk_shard (<[k := mk_stored (variants r) (record_bytes r) now]> (records s))
                               (shard_bytes s)))
  | None => (inl [], m)
  end.

Definition record_size (k : CacheKey) (vs : list CacheEntry) : Z :=
  key_size k + zsum (entry_size <$> vs).

Definition memory_put (k : CacheKey) (e : CacheEntry) (m : MemoryStore)
    : (unit + CacheError) * MemoryStore :=
  let '(now, m) := next_tick m in
  let s := shard_of m k in
  let existing := records s !! k in
  let previous := match existing with Some r => record_bytes r | None => 0 end in
  let merged := merge_variants (match existing with Some r => variants r | None => [] end) e in
  let bytes := record_size k merged in
  if per_shard (memory_limits m) <? bytes then
    (inl tt,
     match existing with
     | Some _ => set_shard m k (mk_shard (delete k (records s))
                                         (shard_bytes s - Z.min previous (shard_bytes s)))
     | None => m
     end)
  else
    let s := mk_shard (<[k := mk_stored merged bytes now]> (records s))
                      (shard_bytes s + bytes - Z.min previous (shard_bytes s)) in
    let '(s, scanned, evicted) := purge (memory_limits m) s in
    let m := set_shard m k s in
    (inl tt, mk_memory_store (shards m) (memory_limits m) (tick m) (wrap64 (evictions m + evicted))
               (wrap64 (purge_scans m + scanned))).

Definition memory_remove (k : CacheKey) (m : MemoryStore) : (unit + CacheError) * MemoryStore :=
  let s := shard_of m k in
  (inl tt,
   match records s !! k with
   | Some r => set_shard m k (mk_shard (delete k (records s))
                                       (shard_bytes s - Z.min (record_bytes r) (shard_bytes s)))
   | None => m
   end).

#[export] Instance memory_storage : CacheStorage MemoryStore := {|
  cs_get := memory_get; cs_put := memory_put; cs_remove := memory_remove;
|}.
End Interface.

(** ** The purge *)

(** The cutoff splits the ages: what is kept fits, and the last age dropped was
    still needed. *)
Lemma purge_cutoff_spec ages cutoff target :
  Forall (λ a, 0 <= a.2) ages → 0 <= target →
  ∃ old young, ages = old ++ young ∧ zsum young.*2 <= target ∧
    ((old = [] ∧ purge_cutoff ages (zsum ages.*2) cutoff target = cutoff) ∨
     ∃ old' x, old = old' ++ [x] ∧ purge_cutoff ages (zsum ages.*2) cutoff target = x.1 ∧
               target < x.2 + zsum young.*2).
Proof.
  intros Hpos Ht. revert cutoff. induction Hpos as [|[u b] ages Hb Hpos IH]; intros cutoff.
  { exists [], []. split_and!; [done|done|by left]. }
  cbn [purge_cutoff]. rewrite fmap_cons. change (zsum (?x :: ?y)) with (x + zsum y). cbn [snd] in *.
  destruct (b + zsum ages.*2 <=? target) eqn:E; bool_prop.
  { exists [], ((u, b) :: ages). split_and!; [done| |by left].
    rewrite fmap_cons. by change (zsum (?x :: ?y)) with (x + zsum y). }
  assert (Hs : 0 <= zsum ages.*2) by (by apply zsum_nonneg, Forall_fmap).
  replace (b + zsum ages.*2 - Z.min b (b + zsum ages.*2)) with (zsum ages.*2) by lia.
  destruct (IH u) as (old & young & -> & Hy & [[-> Hc]|(old' & x & -> & Hc & Hx)]).
  - exists [(u, b)], young. split_and!; [done..|]. right. exists [], (u, b). split_and!; done.
  - exists ((u, b) :: old' ++ [x]), young. split_and!; [done..|]. right.
    exists ((u, b) :: old'), x. done.
Qed.

Section Purge.
Context `{HeaderMapApi}.

Definition ages_ok (s : Shard) : Prop :=
  shard_bytes s = map_zsum record_bytes (records s) ∧
  ∀ k r, records s !! k = Some r → 0 <= record_bytes r ∧ 0 < last_used r.

Definition by_age (s : Shard) : list (Z * Z) := sort_by (λ a b, a.1 <=? b.1) (record_ages s).

Lemma by_age_perm s : by_age s ≡ₚ record_ages s.
Proof. apply sort_by_perm. Qed.

Lemma by_age_sum s : ages_ok s → shard_bytes s = zsum (by_age s).*2.
Proof.
  intros [-> _]. unfold map_zsum. apply zsum_perm. rewrite (by_age_perm s). unfold record_ages.
  by rewrite <- list_fmap_compose.
Qed.

Lemma elem_of_by_age s a :
  a ∈ by_age s ↔ ∃ k r, records s !! k = Some r ∧ a = (last_used r, record_bytes r).
Proof.
  rewrite (by_age_perm s). unfold record_ages. rewrite list_elem_of_fmap. split.
  - intros ([k r] & -> & Hk%elem_of_map_to_list). eauto.
  - intros (k & r & Hk & ->). exists (k, r). split; [done|]. by apply elem_of_map_to_list.
Qed.

Lemma by_age_nonneg s : ages_ok s → Forall (λ a, 0 <= a.2) (by_age s).
Proof.
  intros [_ Hr]. apply Forall_forall. intros a (k & r & Hk & ->)%elem_of_by_age. by apply (Hr k).
Qed.

Lemma ages_ok_nonneg s : ages_ok s → 0 <= shard_bytes s.
Proof. intros Hok. rewrite (by_age_sum s Hok). by apply zsum_nonneg, Forall_fmap, by_age_nonneg. Qed.

Lemma shard_purge_target_range l : 0 <= purge_target l <= per_shard l.
Proof. unfold purge_target, saturating_sub, per_shard. Z.to_euclidean_division_equations; lia. Qed.

(** The bytes of the records used after [cutoff], in the order of their ages. *)
Lemma kept_bytes s cutoff :
  map_zsum record_bytes (filter (λ kv, cutoff < last_used kv.2) (records s)) =
  zsum (filter (λ a, cutoff < a.1) (by_age s)).*2.
Proof.
  rewrite map_zsum_filter. apply zsum_perm. rewrite (by_age_perm s). unfold record_ages.
  induction (map_to_list (records s)) as [|[k r] l IH]; [done|].
  rewrite fmap_cons, !filter_cons. cbn [fst snd]. case_decide; [|done]. rewrite !fmap_cons. by rewrite IH.
Qed.

Lemma by_age_sorted s : StronglySorted (λ a b, a.1 <= b.1) (by_age s).
Proof.
  assert (Hs : ordered (λ a b : Z * Z, a.1 <=? b.1) (by_age s))
    by (apply sort_by_ordered; intros; lia).
  induction Hs as [|a l _ IH Ha]; constructor; [done|].
  eapply Forall_impl; [done|]. intros b. apply Z.leb_le.
Qed.

(** The other ages around the one of [k]. *)
Lemma by_age_others s k r old x young :
  records s !! k = Some r → x = (last_used r, record_bytes r) → by_age s = old ++ x :: young →
  ∀ y, y ∈ old ++ young → ∃ k' r', k' ≠ k ∧ records s !! k' = Some r' ∧ y.1 = last_used r'.
Proof.
  intros Hk -> Heq y Hy.
  assert (Hperm : old ++ young ≡ₚ record_ages (mk_shard (delete k (records s)) 0)).
  { apply (Permutation_cons_inv (a := (last_used r, record_bytes r))).
    trans (by_age s); [rewrite Heq; apply Permutation_middle|].
    rewrite (by_age_perm s). unfold record_ages. simpl.
    by rewrite <- (map_to_list_delete (records s) k r) by done. }
  rewrite Hperm in Hy. unfold record_ages in Hy.
  apply list_elem_of_fmap in Hy as ([k' r'] & -> & Hk'%elem_of_map_to_list). simpl in Hk'.
  apply lookup_delete_Some in Hk' as [Hne Hk']. by exists k', r'.
Qed.

(** The cutoff the purge of an overfull shard computes. *)
Definition cutoff_of (l : MemoryLimits) (s : Shard) : Z :=
  purge_cutoff (by_age s) (shard_bytes s) 0 (purge_target l).

Lemma kept_fits l s :
  ages_ok s → zsum (filter (λ a, cutoff_of l s < a.1) (by_age s)).*2 <= purge_target l.
Proof.
  intros Hok. pose proof (by_age_nonneg s Hok) as Hpos. unfold cutoff_of. rewrite (by_age_sum s Hok).
  destruct (purge_cutoff_spec (by_age s) 0 (purge_target l) Hpos) as (old & young & Heq & Hy & Hc);
    [apply shard_purge_target_range|].
  set (c := purge_cutoff _ _ _ _) in *.
  assert (Hold : Forall (λ a, ¬ c < a.1) old).
  { destruct Hc as [[-> _]|(old' & x & -> & -> & _)]; [constructor|].
    pose proof (by_age_sorted s) as Hs. rewrite Heq, <- app_assoc in Hs.
    apply Forall_app. split; [|by constructor; [lia|]]. apply Forall_forall. intros a Ha.
    enough (a.1 <= x.1) by lia.
    refine (StronglySorted_app_1_elem_of _ _ _ _ _ Hs Ha _). apply elem_of_cons. by left. }
  rewrite Heq in Hpos |- *. apply Forall_app in Hpos as [_ Hpos].
  rewrite filter_app, filter_none by done. simpl. etrans; [|exact Hy]. clear -Hpos.
  induction Hpos as [|a ys Ha Hys IH]; [done|]. rewrite filter_cons, (fmap_cons snd a ys).
  change (zsum (?x :: ?y)) with (x + zsum y).
  case_decide; [rewrite fmap_cons; change (zsum (?x :: ?y)) with (x + zsum y)|]; lia.
Qed.

Lemma cutoff_below_newest l s k r :
  ages_ok s → records s !! k = Some r → record_bytes r <= purge_target l →
  (∀ k' r', records s !! k' = Some r' → k' ≠ k → last_used r' < last_used r) →
  cutoff_of l s < last_used r.
Proof.
  intros Hok Hk Hfit Hnew. pose proof (by_age_nonneg s Hok) as Hpos.
  unfold cutoff_of. rewrite (by_age_sum s Hok).
  destruct (purge_cutoff_spec (by_age s) 0 (purge_target l) Hpos)
    as (old & young & Heq & Hy & [[-> ->]|(old' & x & -> & -> & Hx)]);
    [apply shard_purge_target_range|by apply (proj2 Hok k)|].
  assert (Hxin : x ∈ by_age s).
  { rewrite Heq, !elem_of_app, list_elem_of_singleton. auto. }
  apply elem_of_by_age in Hxin as (kx & rx & Hkx & ->). simpl in *.
  destruct (decide (kx = k)) as [->|Hne]; [|by apply (Hnew kx)].
  rewrite Hk in Hkx. injection Hkx as <-. rewrite <- app_assoc in Heq. simpl in Heq.
  destruct young as [|y young]; [unfold zsum in Hx; simpl in Hx; lia|]. exfalso.
  destruct (by_age_others s k r _ _ _ Hk eq_refl Heq y) as (k' & r' & Hne & Hk' & Hage).
  { rewrite elem_of_app, elem_of_cons. auto. }
  specialize (Hnew k' r' Hk' Hne). pose proof (by_age_sorted s) as Hs. rewrite Heq in Hs.
  apply StronglySorted_app_1_r in Hs. inversion Hs as [|? ? _ Hall]; subst.
  inversion Hall; subst. simpl in *. lia.
Qed.

Lemma purge_spec l s :
  ages_ok s →
  let s' := (purge l s).1.1 in
  ages_ok s' ∧ shard_bytes s' <= per_shard l ∧ records s' ⊆ records s ∧
  (shard_bytes s <= per_shard l → s' = s) ∧
  (per_shard l < shard_bytes s → shard_bytes s' <= purge_target l) ∧
  (∀ k r k' r', records s !! k = Some r → records s' !! k = None →
     records s' !! k' = Some r' → last_used r < last_used r') ∧
  (∀ k r, records s !! k = Some r → record_bytes r <= purge_target l →
     (∀ k' r', records s !! k' = Some r' → k' ≠ k → last_used r' < last_used r) →
     records s' !! k = Some r).
Proof.
  intros Hok. unfold purge. destruct (shard_bytes s <=? per_shard l) eqn:E; bool_prop.
  { split_and!; [done..|lia| |]; intros; simplify_eq/=; congruence. }
  cbn [fst]. fold (by_age s). fold (cutoff_of l s).
  pose proof (kept_fits l s Hok) as Hfit. rewrite <- kept_bytes in Hfit.
  set (kept := filter _ (records s)) in *. pose proof (shard_purge_target_range l). simpl.
  assert (Hsub : kept ⊆ records s) by apply map_filter_subseteq.
  split_and!; [split; [done|]|lia|done|lia|done| |].
  - intros k r Hk. apply (proj2 Hok k). by eapply lookup_weaken.
  - intros k r k' r' Hk Hnone [_ Hr']%map_lookup_filter_Some. simpl in Hr'.
    destruct (decide (cutoff_of l s < last_used r)) as [Hlt|Hge]; [|lia].
    exfalso. apply (eq_None_not_Some (kept !! k)); [done|]. exists r.
    by apply map_lookup_filter_Some.
  - intros k r Hk Hsmall Hnew. apply map_lookup_filter_Some. split; [done|]. simpl.
    by apply (cutoff_below_newest l s k).
Qed.
End Purge.

(** ** The invariant of the store *)

Class LayoutLaws `{Layout} := {
  size_of_CacheKey_pos : 0 < size_of_CacheKey;
  size_of_CacheEntry_pos : 0 < size_of_CacheEntry;
}.

Section Memory.
Context `{HeaderMapApi} `{LayoutLaws} `{KeyHasher}.

Definition record_ok (tick : Z) (k : CacheKey) (r : StoredRecord) : Prop :=
  record_bytes r = record_size k (variants r) ∧ 0 < last_used r <= tick ∧
  NoDup (selector <$> variants r).

Definition shard_ok (m : MemoryStore) (i : nat) (s : Shard) : Prop :=
  shard_bytes s = map_zsum record_bytes (records s) ∧
  shard_bytes s <= per_shard (memory_limits m) ∧
  ∀ k r, records s !! k = Some r → record_ok (tick m) k r ∧ shard_index m k = i.

Definition memory_ok (m : MemoryStore) : Prop :=
  0 < shard_count (memory_limits m) ∧ zlen (shards m) = shard_count (memory_limits m) ∧
  0 <= tick m <= u64_max ∧ ∀ i s, shards m !! i = Some s → shard_ok m i s.

(** The variants held under a key. *)
Definition shard_variants (s : Shard) (k : CacheKey) : list CacheEntry :=
  match records s !! k with Some r => variants r | None => [] end.

Definition held (m : MemoryStore) (k : CacheKey) : list CacheEntry := shard_variants (shard_of m k) k.

Lemma shard_index_lt m k : shards m ≠ [] → (shard_index m k < length (shards m))%nat.
Proof.
  intros Hne. unfold shard_index, zlen.
  assert (0 < Z.of_nat (length (shards m))) by (destruct (shards m); [done|simpl; lia]).
  pose proof (Z.mod_pos_bound (hash_one k) (Z.of_nat (length (shards m)))). lia.
Qed.

Lemma set_shard_index m k s k' : shard_index (set_shard m k s) k' = shard_index m k'.
Proof. unfold shard_index, set_shard, zlen. simpl. by rewrite length_insert. Qed.

(** The shard a key reads after one shard was replaced. *)
Lemma shard_of_set m k s k' :
  shard_of (set_shard m k s) k' =
  if decide (shards m ≠ [] ∧ shard_index m k' = shard_index m k) then s else shard_of m k'.
Proof.
  unfold shard_of at 1. rewrite set_shard_index. simpl. case_decide as Hd.
  - destruct Hd as [Hne ->]. rewrite list_lookup_insert_eq; [done|]. by apply shard_index_lt.
  - destruct (decide (shard_index m k' = shard_index m k)) as [Heq|Hne].
    + assert (shards m = []) as Hnil by (destruct (shards m); [done|exfalso; apply Hd; done]).
      unfold shard_of. by rewrite Hnil.
    + by rewrite list_lookup_insert_ne.
Qed.

Lemma shard_of_tick m k : shard_of (next_tick m).2 k = shard_of m k.
Proof. done. Qed.

Lemma held_set m k s k' :
  held (set_shard m k s) k' =
  if decide (shards m ≠ [] ∧ shard_index m k' = shard_index m k)
  then shard_variants s k' else held m k'.
Proof. unfold held. rewrite shard_of_set. by case_decide. Qed.

Lemma held_no_shards m k : shards m = [] → held m k = [].
Proof. intros Hn. unfold held, shard_of, shard_variants. by rewrite Hn. Qed.

Lemma held_set_same m k s : shards m ≠ [] → held (set_shard m k s) k = shard_variants s k.
Proof. intros Hne. by rewrite held_set, decide_True. Qed.

Lemma held_set_no_shards m k s k' : shards m = [] → held (set_shard m k s) k' = [].
Proof. intros Hn. apply held_no_shards. unfold set_shard. simpl. by rewrite Hn. Qed.

(** A replaced shard keeps or drops what its other keys held. *)
Lemma held_set_other m k s k' :
  (shard_variants s k' = [] ∨ shard_variants s k' = shard_variants (shard_of m k) k') →
  held (set_shard m k s) k' = [] ∨ held (set_shard m k s) k' = held m k'.
Proof.
  intros Hs. rewrite held_set. case_decide as Hd; [|by right].
  destruct Hs as [->|Hs]; [by left|right]. rewrite Hs. unfold held, shard_of. by destruct Hd as [_ ->].
Qed.

Lemma purge_variants l s k :
  shard_variants (purge l s).1.1 k = [] ∨ shard_variants (purge l s).1.1 k = shard_variants s k.
Proof.
  unfold purge. destruct (_ <=? _); [by right|]. unfold shard_variants. simpl.
  destruct (filter _ (records s) !! k) as [r|] eqn:Hr; [|by left]. right.
  apply map_lookup_filter_Some in Hr as [-> _]. done.
Qed.

(** The shard [put] leaves under a key. *)
Definition put_shard (m : MemoryStore) (k : CacheKey) (e : CacheEntry) : Shard :=
  let s := shard_of m k in
  let previous := match records s !! k with Some r => record_bytes r | None => 0 end in
  let merged := merge_variants (held m k) e in
  mk_shard (<[k := mk_stored merged (record_size k merged) (saturating_add (tick m) 1)]> (records s))
    (shard_bytes s + record_size k merged - Z.min previous (shard_bytes s)).

Lemma memory_put_eq k e m :
  (memory_put k e m).1 = inl tt ∧
  ∃ ev sc, let m1 := (next_tick m).2 in
  (memory_put k e m).2 =
  if per_shard (memory_limits m) <? record_size k (merge_variants (held m k) e)
  then (memory_remove k m1).2
  else let m2 := set_shard m1 k (purge (memory_limits m) (put_shard m k e)).1.1 in
       mk_memory_store (shards m2) (memory_limits m2) (tick m2) ev sc.
Proof.
  unfold memory_put, memory_remove, put_shard. simpl.
  set (m1 := mk_memory_store _ _ _ _ _). change (shard_of m1 k) with (shard_of m k).
  fold (shard_variants (shard_of m k) k). fold (held m k).
  destruct (_ <? _).
  - split; [done|]. exists 0, 0. by destruct (records (shard_of m k) !! k).
  - set (s := mk_shard _ _). destruct (purge (memory_limits m) s) as [[s' sc] ev]. simpl.
    split; [done|]. by eexists _, _.
Qed.

Lemma held_remove k m :
  held (memory_remove k m).2 k = [] ∧
  ∀ k', k' ≠ k → held (memory_remove k m).2 k' = held m k'.
Proof.
  unfold memory_remove. simpl. destruct (records (shard_of m k) !! k) as [r|] eqn:Hr.
  - split.
    + destruct (decide (shards m = [])) as [Hn|Hne]; [by apply held_set_no_shards|].
      rewrite held_set_same by done. unfold shard_variants. simpl. by rewrite lookup_delete_eq.
    + intros k' Hne. rewrite held_set. case_decide as Hd; [|done].
      unfold held, shard_of. destruct Hd as [_ ->]. unfold shard_variants. simpl.
      by rewrite lookup_delete_ne.
  - split; [unfold held, shard_variants; by rewrite Hr|done].
Qed.

Lemma held_put k e m :
  (held (memory_put k e m).2 k = [] ∨
   held (memory_put k e m).2 k = merge_variants (held m k) e) ∧
  ∀ k', k' ≠ k → held (memory_put k e m).2 k' = [] ∨ held (memory_put k e m).2 k' = held m k'.
Proof.
  destruct (memory_put_eq k e m) as (_ & ev & sc & ->). destruct (_ <? _).
  - destruct (held_remove k (next_tick m).2) as [-> Ho]. split; [by left|].
    intros k' Hne. right. by apply Ho.
  - cbv zeta. set (s' := (purge _ _).1.1). set (m1 := (next_tick m).2).
    change (held (mk_memory_store (shards ?a) (memory_limits ?a) (tick ?a) ev sc) ?x) with (held a x).
    pose proof (purge_variants (memory_limits m) (put_shard m k e)) as Hp. fold s' in Hp. split.
    + destruct (decide (shards m1 = [])) as [Hn|Hne]; [left; by apply held_set_no_shards|].
      rewrite held_set_same by done. destruct (Hp k) as [->| ->]; [by left|right].
      unfold put_shard, shard_variants. simpl. by rewrite lookup_insert_eq.
    + intros k' Hne. apply (held_set_other m1). destruct (Hp k') as [?|Heq]; [by left|right].
      rewrite Heq. unfold put_shard, shard_variants. simpl. by rewrite lookup_insert_ne.
Qed.

Lemma held_get k m k' : held (memory_get k m).2 k' = held m k'.
Proof.
  unfold memory_get. simpl. set (m1 := mk_memory_store _ _ _ _ _).
  change (shard_of m1 k) with (shard_of m k).
  destruct (records (shard_of m k) !! k) as [r|] eqn:Hr; [|done]. simpl.
  change (held m k') with (held m1 k'). rewrite held_set. case_decide as Hd; [|done].
  unfold held, shard_of. destruct Hd as [_ ->]. fold (shard_of m1 k).
  change (shard_of m1 k) with (shard_of m k). unfold shard_variants. simpl.
  destruct (decide (k' = k)) as [->|Hne]; [by rewrite lookup_insert_eq, Hr|].
  by rewrite lookup_insert_ne.
Qed.

Lemma memory_get_reports k m : (memory_get k m).1 = inl (held m k).
Proof.
  unfold memory_get, held, shard_variants. simpl. set (m1 := mk_memory_store _ _ _ _ _).
  change (shard_of m1 k) with (shard_of m k). by destruct (records (shard_of m k) !! k).
Qed.

(** The in-memory store keeps the backend contract. *)
#[export] Instance memory_storage_laws : CacheStorageLaws MemoryStore held.
Proof.
  split; cbn [cs_get cs_put cs_remove memory_storage].
  - intros k s vs s' Hg. pose proof (memory_get_reports k s) as Hr. rewrite Hg in Hr. simpl in Hr.
    by injection Hr.
  - apply held_get.
  - intros k e s k' x Hx. destruct (held_put k e s) as [Hk Ho].
    destruct (decide (k' = k)) as [->|Hne].
    + destruct Hk as [Hk|Hk]; rewrite Hk in Hx; [by apply elem_of_nil in Hx|].
      unfold merge_variants in Hx. apply elem_of_app in Hx as [[_ Hx]%list_elem_of_filter|Hx]; [by left|].
      right. by apply list_elem_of_singleton in Hx.
    + left. destruct (Ho k' Hne) as [Hk'|Hk']; rewrite Hk' in Hx; [by apply elem_of_nil in Hx|done].
  - intros k e s x Hx Hsel _. destruct (held_put k e s) as [[Hk|Hk] _]; rewrite Hk in Hx;
      [by apply elem_of_nil in Hx|]. unfold merge_variants in Hx.
    apply elem_of_app in Hx as [[? _]%list_elem_of_filter|Hx]; [done|].
    by apply list_elem_of_singleton in Hx.
  - intros k s _. apply held_remove.
  - intros k s k' x Hx. destruct (held_remove k s) as [Hk Ho].
    destruct (decide (k' = k)) as [->|Hne]; [rewrite Hk in Hx; by apply elem_of_nil in Hx|].
    by rewrite Ho in Hx.
Qed.

(** ** The invariant is kept *)

Lemma key_size_nonneg k : 0 <= key_size k.
Proof. unfold key_size. pose proof size_of_CacheKey_pos. pose proof (zlen_nonneg (target k)). lia. Qed.

Lemma entry_size_nonneg e : 0 <= entry_size e.
Proof.
  unfold entry_size, selector_size. pose proof size_of_CacheEntry_pos.
  pose proof (zlen_nonneg (body e)).
  assert (0 <= zsum ((λ nv : str * str, zlen nv.1 + zlen nv.2) <$> hm_iter (headers e))).
  { apply zsum_nonneg, Forall_fmap, Forall_true. intros [n v]. unfold compose, zlen. lia. }
  assert (0 <= zsum ((λ f : str * list str, zlen f.1 + zsum (zlen <$> f.2)) <$> selector e)).
  { apply zsum_nonneg, Forall_fmap, Forall_true. intros [n vs]. unfold compose. cbn [fst snd].
    assert (0 <= zsum (zlen <$> vs)); [|unfold zlen at 1; lia].
    apply zsum_nonneg, Forall_fmap, Forall_true. intros v. apply zlen_nonneg. }
  lia.
Qed.

Lemma record_size_nonneg k vs : 0 <= record_size k vs.
Proof.
  unfold record_size. pose proof (key_size_nonneg k).
  assert (0 <= zsum (entry_size <$> vs)); [|lia].
  apply zsum_nonneg, Forall_fmap, Forall_true. intros e. apply entry_size_nonneg.
Qed.

Lemma shard_ok_ages m i s : shard_ok m i s → ages_ok s.
Proof.
  intros (Hs & _ & Hr). split; [done|]. intros k r Hk. destruct (Hr k r Hk) as [(Hb & ? & _) _].
  rewrite Hb. split; [apply record_size_nonneg|lia].
Qed.

Lemma empty_shard_ok m i : shard_ok m i empty_shard.
Proof.
  split_and!; simpl; [by rewrite map_zsum_empty|unfold per_shard; lia|].
  intros k r. by rewrite lookup_empty.
Qed.

Lemma with_limits_ok l : memory_ok (with_limits l).
Proof.
  split_and!; simpl; [lia| |done|unfold u64_max; lia|].
  - unfold zlen. rewrite length_replicate. lia.
  - intros i s [-> _]%lookup_replicate. apply empty_shard_ok.
Qed.

Lemma memory_ok_shards m : memory_ok m → shards m ≠ [].
Proof. intros (Hc & Hl & _) Hn. rewrite Hn in Hl. unfold zlen in Hl. simpl in Hl. lia. Qed.

Lemma shard_of_ok m k : memory_ok m → shard_ok m (shard_index m k) (shard_of m k).
Proof.
  intros Hm. unfold shard_of. destruct (shards m !! shard_index m k) as [s|] eqn:Hs; simpl.
  - by apply Hm.
  - apply empty_shard_ok.
Qed.

Lemma set_shard_ok m k s : memory_ok m → shard_ok m (shard_index m k) s → memory_ok (set_shard m k s).
Proof.
  intros (Hc & Hl & Ht & Hs) Hok.
  assert (Hsame : ∀ i x, shard_ok m i x → shard_ok (set_shard m k s) i x).
  { intros i x (? & ? & Hr). split_and!; [done..|]. intros j r Hj. rewrite set_shard_index. by apply Hr. }
  split_and!; [done| |apply Ht|apply Ht|].
  - simpl. unfold zlen in *. by rewrite length_insert.
  - intros i x Hx. apply Hsame. simpl in Hx. apply list_lookup_insert_Some in Hx as [(<- & <- & _)|[_ Hx]];
      [done|by apply Hs].
Qed.

Lemma next_tick_ok m : memory_ok m → memory_ok (next_tick m).2.
Proof.
  intros (Hc & Hl & Ht & Hs). split_and!; [done..| | |]; simpl; unfold saturating_add in *.
  - lia.
  - unfold u64_max in *. lia.
  - intros i s Hi. destruct (Hs i s Hi) as (? & ? & Hr). split_and!; [done..|].
    intros k r Hk. destruct (Hr k r Hk) as [(? & ? & ?) ?]. split; [|done].
    split_and!; simpl; try done; unfold saturating_add; unfold u64_max in *; lia.
Qed.

Lemma remove_shard_ok m k r :
  memory_ok m → records (shard_of m k) !! k = Some r →
  shard_ok m (shard_index m k)
    (mk_shard (delete k (records (shard_of m k)))
       (shard_bytes (shard_of m k) - Z.min (record_bytes r) (shard_bytes (shard_of m k)))).
Proof.
  intros Hm Hr. destruct (shard_of_ok m k Hm) as (Hb & Hcap & Hrec).
  destruct (shard_ok_ages _ _ _ (shard_of_ok m k Hm)) as [_ Hpos].
  assert (Hle : record_bytes r <= shard_bytes (shard_of m k)).
  { rewrite Hb. rewrite <- (insert_delete_id (records (shard_of m k)) k r) by done.
    rewrite map_zsum_insert_new by apply lookup_delete_eq.
    assert (0 <= map_zsum record_bytes (delete k (records (shard_of m k)))); [|lia].
    apply zsum_nonneg, Forall_fmap, Forall_forall. intros [j x] Hj%elem_of_map_to_list.
    apply lookup_delete_Some in Hj as [_ Hj]. by apply (Hpos j). }
  pose proof (proj1 (Hpos k r Hr)). split_and!; simpl.
  - rewrite map_zsum_delete, Hr, <- Hb. simpl. lia.
  - lia.
  - intros j x [_ Hj]%lookup_delete_Some. by apply Hrec.
Qed.

Lemma memory_remove_ok k m : memory_ok m → memory_ok (memory_remove k m).2.
Proof.
  intros Hm. unfold memory_remove. simpl. destruct (records (shard_of m k) !! k) as [r|] eqn:Hr; [|done].
  apply set_shard_ok; [done|by apply remove_shard_ok].
Qed.

Lemma memory_get_ok k m : memory_ok m → memory_ok (memory_get k m).2.
Proof.
  intros Hm. pose proof (next_tick_ok m Hm) as Hm1. unfold memory_get. cbn [next_tick] in *.
  set (m1 := mk_memory_store _ _ _ _ _) in *. destruct (records (shard_of m1 k) !! k) as [r|] eqn:Hr; [|done].
  cbn [snd] in *. apply set_shard_ok; [done|]. destruct (shard_of_ok m1 k Hm1) as (Hb & Hcap & Hrec).
  split_and!; simpl; [|done|].
  - rewrite map_zsum_insert, Hr. simpl. lia.
  - destruct (Hrec k r Hr) as [(Hbr & Hu & Hnd) Hix]. intros j x Hj.
    destruct (decide (j = k)) as [->|Hne]; [|rewrite lookup_insert_ne in Hj by done; by apply Hrec].
    rewrite lookup_insert_eq in Hj. injection Hj as <-. split; [|done].
    split_and!; simpl; [done| |lia|done]. simpl in Hu. lia.
Qed.

Lemma merge_variants_NoDup vs e :
  NoDup (selector <$> vs) → NoDup (selector <$> merge_variants vs e).
Proof.
  intros Hnd. unfold merge_variants. rewrite fmap_app. apply NoDup_app. split_and!.
  - eapply sublist_NoDup; [done|]. apply fmap_sublist, sublist_filter.
  - intros x (v & -> & [Hv _]%list_elem_of_filter)%list_elem_of_fmap Hx.
    apply list_elem_of_singleton in Hx. done.
  - apply NoDup_singleton.
Qed.

(** The shard [put] has written, before its purge. *)
Lemma put_shard_ok m k e :
  memory_ok m →
  ages_ok (put_shard m k e) ∧
  ∀ j r, records (put_shard m k e) !! j = Some r →
    record_ok (tick (next_tick m).2) j r ∧ shard_index m j = shard_index m k.
Proof.
  intros Hm. pose proof (next_tick_ok m Hm) as Hm1.
  destruct (shard_of_ok (next_tick m).2 k Hm1) as (Hb & Hcap & Hrec).
  change (shard_of (next_tick m).2 k) with (shard_of m k) in *.
  pose proof (ages_ok_nonneg _ (shard_ok_ages _ _ _ (shard_of_ok m k Hm))) as Hpos.
  set (merged := merge_variants (held m k) e).
  assert (Hnew : record_ok (tick (next_tick m).2) k
            (mk_stored merged (record_size k merged) (saturating_add (tick m) 1))).
  { destruct Hm as (_ & _ & Ht & _). split_and!; simpl; [done| |done|].
    - unfold saturating_add, u64_max in *. lia.
    - apply merge_variants_NoDup. unfold held, shard_variants.
      destruct (records (shard_of m k) !! k) as [r|] eqn:Hr; [|constructor].
      by destruct (Hrec k r Hr) as [(_ & _ & ?) _]. }
  assert (Hall : ∀ j r, records (put_shard m k e) !! j = Some r →
    record_ok (tick (next_tick m).2) j r ∧ shard_index m j = shard_index m k).
  { intros j r. unfold put_shard. simpl. destruct (decide (j = k)) as [->|Hne].
    - rewrite lookup_insert_eq. by intros [= <-].
    - rewrite lookup_insert_ne by done. apply Hrec. }
  split; [split|done].
  - unfold put_shard. simpl. fold merged. rewrite map_zsum_insert, <- Hb. simpl.
    destruct (records (shard_of m k) !! k) as [r|] eqn:Hr; simpl; [|lia].
    destruct (remove_shard_ok m k r Hm Hr) as (Hd & _). simpl in Hd.
    rewrite map_zsum_delete, Hr, <- Hb in Hd. simpl in Hd. lia.
  - intros j r Hj. destruct (Hall j r Hj) as [(-> & ? & _) _]. split; [apply record_size_nonneg|lia].
Qed.

Lemma memory_put_ok k e m : memory_ok m → memory_ok (memory_put k e m).2.
Proof.
  intros Hm. pose proof (next_tick_ok m Hm) as Hm1.
  destruct (memory_put_eq k e m) as (_ & ev & sc & ->). destruct (_ <? _).
  { by apply memory_remove_ok. }
  cbv zeta. destruct (put_shard_ok m k e Hm) as [Hages Hrec].
  destruct (purge_spec (memory_limits m) _ Hages) as (Ha & Hcap & Hsub & _).
  set (s' := (purge _ _).1.1) in *.
  assert (Hs' : shard_ok (next_tick m).2 (shard_index (next_tick m).2 k) s').
  { split_and!; [apply Ha|done|]. intros j r Hj. apply Hrec. by eapply lookup_weaken. }
  exact (set_shard_ok _ k s' Hm1 Hs').
Qed.

Lemma held_put_fits k e m :
  memory_ok m → tick m < u64_max →
  record_size k (merge_variants (held m k) e) <= purge_target (memory_limits m) →
  held (memory_put k e m).2 k = merge_variants (held m k) e.
Proof.
  intros Hm Ht Hfit. destruct (memory_put_eq k e m) as (_ & ev & sc & ->).
  pose proof (shard_purge_target_range (memory_limits m)).
  rewrite (proj2 (Z.ltb_ge _ _)) by lia. cbv zeta. set (s' := (purge _ _).1.1).
  change (held (mk_memory_store (shards ?a) (memory_limits ?a) (tick ?a) ev sc) ?x) with (held a x).
  rewrite held_set_same by (by apply memory_ok_shards, next_tick_ok).
  destruct (put_shard_ok m k e Hm) as [Hages _].
  destruct (purge_spec (memory_limits m) _ Hages) as (_ & _ & _ & _ & _ & _ & Hnewest).
  unfold shard_variants. unfold s'. erewrite Hnewest.
  - by instantiate (1 := mk_stored _ _ _).
  - unfold put_shard. simpl. by rewrite lookup_insert_eq.
  - done.
  - intros k' r'. unfold put_shard. simpl. intros Hk' Hne. rewrite lookup_insert_ne in Hk' by done.
    destruct (shard_of_ok m k Hm) as (_ & _ & Hrec). destruct (Hrec k' r' Hk') as [(_ & Hu & _) _].
    unfold saturating_add. destruct Hm as (_ & _ & ? & _). unfold u64_max in *. lia.
Qed.

(** The budget: the shards together hold no more than their shares. *)
Lemma shards_bytes_le m :
  memory_ok m → st_bytes (stats m) <= shard_count (memory_limits m) * per_shard (memory_limits m).
Proof.
  intros (_ & <- & _ & Hs). unfold stats, zlen. simpl.
  assert (Hall : Forall (λ s, shard_bytes s <= per_shard (memory_limits m)) (shards m)).
  { apply Forall_forall. intros s [i Hi]%list_elem_of_lookup. by destruct (Hs i s Hi) as (_ & ? & _). }
  revert Hall. generalize (per_shard (memory_limits m)) as cap. clear Hs. intros cap.
  induction 1 as [|s l Hle Hl IH]; [unfold zsum; simpl; lia|]. rewrite fmap_cons.
  change (zsum (?x :: ?y)) with (x + zsum y). simpl length. lia.
Qed.

(** C35. Every operation of the in-memory store keeps its invariant: each
    shard's byte count is exactly the size of what it holds, no shard exceeds
    its share of the budget at rest, each key sits in the shard its hash picks
    and holds at most one variant per selector; so the whole store stays within
    [max_bytes] (or one byte per shard, where the budget is smaller than that). *)
Theorem memory_store_bounded m k e :
  memory_ok m →
  memory_ok (memory_get k m).2 ∧ memory_ok (memory_put k e m).2 ∧ memory_ok (memory_remove k m).2 ∧
  st_bytes (stats m) <= Z.max (max_bytes (memory_limits m)) (shard_count (memory_limits m)).
Proof.
  intros Hm. split_and!; [by apply memory_get_ok|by apply memory_put_ok|by apply memory_remove_ok|].
  pose proof (shards_bytes_le m Hm) as Hle. destruct Hm as (Hc & _). unfold per_shard in Hle.
  rewrite (Z.max_l (shard_count _) 1) in Hle by lia.
  pose proof (Z.mul_div_le (max_bytes (memory_limits m)) (shard_count (memory_limits m)) Hc). nia.
Qed.

(** What is stored is found: an entry whose record fits in seven eighths of
    a shard is returned by the next lookup of its key, last among the variants,
    with every older variant of a different selector kept and the one of the
    same selector replaced. *)
Theorem put_then_get m k e :
  memory_ok m → tick m < u64_max →
  record_size k (merge_variants (held m k) e) <= purge_target (memory_limits m) →
  (memory_get k (memory_put k e m).2).1 = inl (merge_variants (held m k) e).
Proof. intros Hm Ht Hfit. by rewrite memory_get_reports, held_put_fits. Qed.

(** A record larger than its shard's whole share is refused: nothing of it is
    stored, the copy it supersedes is dropped, and no other key is evicted. *)
Theorem oversized_put_refused m k e :
  memory_ok m → per_shard (memory_limits m) < record_size k (merge_variants (held m k) e) →
  (memory_put k e m).1 = inl tt ∧ held (memory_put k e m).2 k = [] ∧
  ∀ k', k' ≠ k → held (memory_put k e m).2 k' = held m k'.
Proof.
  intros Hm Hbig. destruct (memory_put_eq k e m) as (Hok & ev & sc & ->). split; [done|].
  rewrite (proj2 (Z.ltb_lt _ _) Hbig). apply (held_remove k (next_tick m).2).
Qed.

(** An overfull shard is purged to its target by whole keys in order of last
    use: every key evicted was used before every key kept, the byte count stays
    exact, and a shard within its share is not touched. *)
Theorem purge_is_lru l s :
  ages_ok s →
  let s' := (purge l s).1.1 in
  ages_ok s' ∧ records s' ⊆ records s ∧
  (shard_bytes s <= per_shard l → s' = s) ∧
  (per_shard l < shard_bytes s → shard_bytes s' <= purge_target l) ∧
  (∀ k r k' r', records s !! k = Some r → records s' !! k = None →
     records s' !! k' = Some r' → last_used r < last_used r').
Proof. intros Hok. destruct (purge_spec l s Hok) as (? & ? & ? & ? & ? & ? & _). by split_and!. Qed.
End Memory.
