(* ===== verification/HttpCache.v ===== *)
(** [chromulate-cache]: the cache in front of a request and behind its response
    (src/crates/chromulate-cache/src/cache.rs), over any storage backend.

    The backend is a state passed through; the clock is the instant an operation
    reads.  A response body that records itself is polled like any other stream,
    with the backend state alongside. *)
From S2P Require Import Prelude RustStr RustTime Extern Body CacheDate CacheDirective CacheEntry.
From S2P Require Import Message CachePolicy CacheStorage.
Local Open Scope Z_scope.

(** The methods RFC 9110 section 9.2.1 calls safe. *)
Definition is_safe (method : Method) : bool :=
  bool_decide (method ∈ [GET; HEAD; OPTIONS; TRACE]).

(** An entity tag without its weakness prefix. *)
Definition opaque_tag (value : str) : str := default value (strip_prefix b#"W/" value).

Section Cache.
Context `{HeaderValueApi} `{HeaderMapApi} `{UrlApi} {S : Type} `{!CacheStorage S}.

(** ** Bodies the cache wraps *)

Record Draining := mk_draining { dr_inner : option Body; dr_stored : option bytes }.

Record Commit := mk_commit {
  cm_key : CacheKey;
  cm_status : StatusCode;
  cm_version : Version;
  cm_headers : HeaderMap;
  cm_selector : Selector;
  cm_requested_at : SystemTime;
  cm_received_at : SystemTime;
  cm_limit : Z;
}.

Record Recording := mk_recording {
  rec_inner : Body;
  rec_buffered : bytes;
  rec_commit : option Commit;
}.

Inductive CacheBody :=
  | Plain (b : Body)
  | Drained (d : Draining) (length : option Z)
  | Recorded (r : Recording) (length : option Z).

Definition declares_its_length (h : HeaderMap) (length : Z) : bool :=
  match hm_get h CONTENT_LENGTH with
  | None => true
  | Some declared =>
      match text ← to_str declared; parse_u64 (trim text) with
      | Some declared => declared =? length
      | None => false
      end
  end.

(** [Draining::poll_next]: the loop polls the [304]'s body until it ends. *)
Fixpoint draining_poll (fuel : nat) (d : Draining) : option (Poll (option bytes) * Draining) :=
  match fuel with
  | O => None
  | Datatypes.S fuel =>
      match dr_inner d with
      | None => Some (Ready (dr_stored d), mk_draining None None)
      | Some b =>
          let '(answer, b) := poll_frame b in
          match answer with
          | Ready (Some (inl _)) => draining_poll fuel (mk_draining (Some b) (dr_stored d))
          | Ready (Some (inr _)) | Ready None => draining_poll fuel (mk_draining None (dr_stored d))
          | Pending => Some (Pending, mk_draining (Some b) (dr_stored d))
          end
      end
  end.

Definition entry_of_commit (c : Commit) (body : bytes) : CacheEntry :=
  mk_cache_entry (cm_status c) (cm_version c) (cm_headers c) body (cm_selector c)
    (cm_requested_at c) (cm_received_at c).

(** [Recording::poll_next]; only a trailers frame makes it loop. *)
Fixpoint recording_poll (fuel : nat) (r : Recording) (s : S)
    : option (Poll (option (bytes + BodyError)) * Recording * S) :=
  match fuel with
  | O => None
  | Datatypes.S fuel =>
      let '(answer, inner) := poll_frame (rec_inner r) in
      match answer with
      | Ready (Some (inl Trailers)) =>
          recording_poll fuel (mk_recording inner (rec_buffered r) (rec_commit r)) s
      | Ready (Some (inl (Data chunk))) =>
          let r :=
            match rec_commit r with
            | Some commit =>
                if cm_limit commit <? zlen (rec_buffered r) + zlen chunk
                then mk_recording inner [] None
                else mk_recording inner (rec_buffered r ++ chunk) (Some commit)
            | None => mk_recording inner (rec_buffered r) None
            end in
          Some (Ready (Some (inl chunk)), r, s)
      | Ready (Some (inr error)) =>
          Some (Ready (Some (inr error)), mk_recording inner (rec_buffered r) None, s)
      | Ready None =>
          match rec_commit r with
          | Some commit =>
              let body := rec_buffered r in
              let r := mk_recording inner [] None in
              if negb (declares_its_length (cm_headers commit) (zlen body)) then Some (Ready None, r, s)
              else Some (Ready None, r, (cs_put (cm_key commit) (entry_of_commit commit body) s).2)
          | None => Some (Ready None, mk_recording inner (rec_buffered r) None, s)
          end
      | Pending => Some (Pending, mk_recording inner (rec_buffered r) (rec_commit r), s)
      end
  end.

(** ** Before the request *)

Record PendingInner := mk_pending_inner {
  pd_key : CacheKey;
  pd_request_headers : HeaderMap;
  pd_request_cc : CacheControl;
  pd_requested_at : SystemTime;
  pd_revalidating : option CacheEntry;
}.

Inductive PendingKind := Aside | Invalidate | Store (state : PendingInner).

Definition aside (method : Method) : PendingKind := if is_safe method then Aside else Invalidate.

Definition select (k : CacheKey) (request : HeaderMap) (s : S) : option CacheEntry * S :=
  let '(answer, s) := cs_get k s in
  match answer with
  | inl variants =>
      (snd <$> list_find (λ e, selector_matches (selector e) request = true) variants, s)
  | inr _ => (None, s)
  end.

Definition stamp {B} (r : Response B) (age : Duration) (status : CacheStatus) : Response B :=
  mk_response (rs_status r) (rs_version r) (hm_insert AGE (from_u64 (as_secs age)) (rs_headers r))
    (rs_body r) (Some status).

Definition to_response (e : CacheEntry) (age : Duration) (status : CacheStatus) : Response CacheBody :=
  stamp (mk_response (CacheEntry.status e) (version e) (headers e) (Plain (fixed (body e))) None)
    age status.

Definition revalidated (e : CacheEntry) (age : Duration) (not_modified : Body) : Response CacheBody :=
  stamp (mk_response (CacheEntry.status e) (version e) (headers e)
           (Drained (mk_draining (Some not_modified) (Some (body e))) (Some (zlen (body e)))) None)
    age Revalidated.

(** [If-None-Match] and [If-Modified-Since] from the stored validators. *)
Definition conditional (e : CacheEntry) (h : HeaderMap) : HeaderMap :=
  let h := match hm_get (headers e) ETAG with
           | Some etag => hm_insert IF_NONE_MATCH etag h
           | None => h
           end in
  match hm_get (headers e) LAST_MODIFIED with
  | Some last_modified => hm_insert IF_MODIFIED_SINCE last_modified h
  | None => h
  end.

Definition caller_owns_it (h : HeaderMap) : bool :=
  hm_contains_key h IF_NONE_MATCH || hm_contains_key h IF_MODIFIED_SINCE || hm_contains_key h RANGE.

Definition before (config : CacheConfig) (request : Request) (url : Url) (now : SystemTime) (s : S)
    : PendingKind * option (Response CacheBody) * Request * S :=
  let method := rq_method request in
  let request_cc := cc_of_request (rq_headers request) in
  if caller_owns_it (rq_headers request) || negb (bool_decide (method = GET)) || no_store request_cc
  then (aside method, None, request, s)
  else
    let key := new_key method url in
    let state := mk_pending_inner key (rq_headers request) request_cc now None in
    let '(found, s) := select key (rq_headers request) s in
    match found with
    | None => (Store state, None, request, s)
    | Some entry =>
        let response_cc := cc_of (headers entry) in
        if is_fresh entry response_cc config now && negb (request_forces_revalidation request_cc)
        then (Store state, Some (to_response entry (current_age entry now) Hit), request, s)
        else if negb (has_validator (headers entry)) then (Store state, None, request, s)
        else
          (Store (mk_pending_inner key (rq_headers request) request_cc now (Some entry)), None,
           with_headers (conditional entry (rq_headers request)) request, s)
    end.

(** ** After the response *)

Definition validators_agree (stored not_modified : HeaderMap) : bool :=
  match hm_get stored ETAG, hm_get not_modified ETAG with
  | Some stored, Some confirmed => bool_decide (opaque_tag stored = opaque_tag confirmed)
  | _, _ => true
  end.

Definition selects_the_same_way (stored not_modified : HeaderMap) : bool :=
  if negb (hm_contains_key not_modified VARY) then true
  else
    match vary_names stored with
    | Some names => bool_decide (vary_names not_modified = Some names)
    | None => false
    end.

(** [self.store] and [self.remove]: a backend failure is only logged. *)
Definition cache_store (k : CacheKey) (e : CacheEntry) (s : S) : S := (cs_put k e s).2.
Definition cache_remove (k : CacheKey) (s : S) : S := (cs_remove k s).2.

Definition invalidate (url : Url) (s : S) : S := cache_remove (new_key GET url) s.

Definition invalidate_reference (url : Url) (h : HeaderMap) (s : S) (name : str) : S :=
  match value ← hm_get h name; text ← to_str value; url_join url text with
  | Some target => if same_origin target url then invalidate target s else s
  | None => s
  end.

Definition invalidate_referenced (url : Url) (h : HeaderMap) (s : S) : S :=
  foldl (invalidate_reference url h) s [LOCATION; CONTENT_LOCATION].

Definition plain (r : Response Body) : Response CacheBody :=
  mk_response (rs_status r) (rs_version r) (rs_headers r) (Plain (rs_body r)) (rs_cache_status r).

(** The [304] that revalidates a stored entry. *)
Definition after_not_modified (config : CacheConfig) (state : PendingInner) (entry : CacheEntry)
    (response : Response Body) (received_at : SystemTime) (s : S) : Response CacheBody * S :=
  let refreshed := refreshed entry (rs_headers response) (pd_requested_at state) received_at in
  let merged_cc := cc_of (headers refreshed) in
  let s :=
    match storable config GET (pd_request_headers state) (pd_request_cc state)
            (CacheEntry.status refreshed) (headers refreshed) merged_cc with
    | inl _ => cache_store (pd_key state) refreshed s
    | inr _ => cache_remove (pd_key state) s
    end in
  (revalidated refreshed (current_age refreshed received_at) (rs_body response), s).

(** Any other response: recorded while it is read, or passed through. *)
Definition after_fresh (config : CacheConfig) (state : PendingInner) (response : Response Body)
    (received_at : SystemTime) (s : S) : Response CacheBody * S :=
  let response_cc := cc_of (rs_headers response) in
  match storable config GET (pd_request_headers state) (pd_request_cc state)
          (rs_status response) (rs_headers response) response_cc with
  | inr _ =>
      (plain response,
       if no_store response_cc || bool_decide (is_Some (pd_revalidating state))
       then cache_remove (pd_key state) s else s)
  | inl names =>
      let length := size_hint_exact (rs_body response) in
      if match length with Some length => max_body_bytes config <? length | None => false end
      then (plain response, s)
      else
        let commit := mk_commit (pd_key state) (rs_status response) (rs_version response)
          (strip_hop_by_hop (rs_headers response)) (selector_of names (pd_request_headers state))
          (pd_requested_at state) received_at (max_body_bytes config) in
        (mk_response (rs_status response) (rs_version response) (rs_headers response)
           (Recorded (mk_recording (rs_body response) [] (Some commit)) length)
           (rs_cache_status response), s)
  end.

Definition after (config : CacheConfig) (pending : PendingKind) (url : Url)
    (response : Response Body) (received_at : SystemTime) (s : S) : Response CacheBody * S :=
  match pending with
  | Aside => (plain response, s)
  | Invalidate =>
      (plain response,
       if rs_status response <? 400
       then invalidate_referenced url (rs_headers response) (invalidate url s) else s)
  | Store state =>
      match pd_revalidating state with
      | Some entry =>
          if (rs_status response =? NOT_MODIFIED)
             && validators_agree (headers entry) (rs_headers response)
             && selects_the_same_way (headers entry) (rs_headers response)
          then after_not_modified config state entry response received_at s
          else after_fresh config state response received_at s
      | None => after_fresh config state response received_at s
      end
  end.
End Cache.

Arguments mk_response {_ B} _ _ _ _ _.
Arguments rs_status {_ B} _.
Arguments rs_version {_ B} _.
Arguments rs_headers {_ B} _.
Arguments rs_body {_ B} _.
Arguments rs_cache_status {_ B} _.
