(* ===== verification/CacheBehaviour.v ===== *)
(** What the cache does for its callers: what it may serve, what a response
    leaves in the store, and what every entry it ever holds satisfies. *)
From S2P Require Import Prelude RustStr RustTime Extern Body CacheDate CacheDirective CacheEntry.
From S2P Require Import Message CachePolicy CacheStorage HttpCache.
Local Open Scope Z_scope.

(** ** Recorded bodies *)

Section Recordings.
Context `{HeaderValueApi} `{HeaderMapApi} {S : Type} `{!CacheStorage S}.
Implicit Types r : Recording.

(** What reading a recording to its end puts into the store: the whole body,
    if it ends, fits the limit and has the length its headers declare. *)
Definition will_store r : option (CacheKey * CacheEntry) :=
  c ← rec_commit r;
  let whole := rec_buffered r ++ mjoin (chunks (rec_inner r)) in
  if decide (body_error (rec_inner r) = None ∧ zlen whole <= cm_limit c ∧
             declares_its_length (cm_headers c) (zlen whole) = true)
  then Some (cm_key c, entry_of_commit c whole) else None.

Definition put_all (x : option (CacheKey * CacheEntry)) (s : S) : S :=
  match x with Some (k, e) => cache_store k e s | None => s end.

(** The buffer of a live recording is within its limit. *)
Definition recording_ok r : Prop :=
  ∀ c, rec_commit r = Some c → zlen (rec_buffered r) <= cm_limit c.

Lemma recording_poll_spec fuel r s :
  recording_ok r →
  ∃ answer r' s', recording_poll (Datatypes.S fuel) r s = Some (answer, r', s') ∧ recording_ok r' ∧
  match answer with
  | Pending => s' = s ∧ will_store r' = will_store r ∧ chunks (rec_inner r') = chunks (rec_inner r) ∧
      body_error (rec_inner r') = body_error (rec_inner r) ∧
      (polls_left (rec_inner r') < polls_left (rec_inner r))%nat
  | Ready (Some (inl c)) => s' = s ∧ will_store r' = will_store r ∧
      chunks (rec_inner r) = c :: chunks (rec_inner r') ∧
      body_error (rec_inner r') = body_error (rec_inner r) ∧
      (polls_left (rec_inner r') < polls_left (rec_inner r))%nat
  | Ready (Some (inr e)) => s' = s ∧ rec_commit r' = None ∧ will_store r = None ∧
      chunks (rec_inner r) = [] ∧ body_error (rec_inner r) = Some e
  | Ready None => s' = put_all (will_store r) s ∧ rec_commit r' = None ∧
      chunks (rec_inner r) = [] ∧ body_error (rec_inner r) = None
  end.
Proof.
  intros Hok. cbn [recording_poll]. pose proof (poll_frame_spec (rec_inner r)) as Hp.
  destruct (poll_frame (rec_inner r)) as [answer inner].
  destruct answer as [|[[[chunk|]|error]|]]; simpl in Hp.
  - destruct Hp as (Hc & He & Hl). eexists _, _, _. split; [done|]. split; [done|].
    split_and!; [done| |done..]. unfold will_store. simpl. by rewrite Hc, He.
  - destruct Hp as (Hc & He & Hl). eexists _, _, _. split; [done|].
    unfold will_store. destruct (rec_commit r) as [c|] eqn:Hcm; simpl.
    + destruct (cm_limit c <? zlen (rec_buffered r) + zlen chunk) eqn:E; bool_prop; simpl;
        (split; [intros c' [= <-] || done|]).
      * split_and!; [done| |done..]. rewrite Hc. rewrite decide_False; [done|].
        intros (_ & Hle & _). change (mjoin (chunk :: ?l)) with (chunk ++ mjoin l) in Hle.
        rewrite !zlen_app in Hle. pose proof (zlen_nonneg (mjoin (chunks inner))). lia.
      * simpl. rewrite zlen_app. lia.
      * split_and!; [done| |done..]. rewrite Hc, He.
        change (mjoin (chunk :: ?l)) with (chunk ++ mjoin l). by rewrite app_assoc.
    + split; [by intros c'|]. by split_and!.
  - done.
  - destruct Hp as (Hc & He & Hl). eexists _, _, _. split; [done|]. split; [by intros c'|].
    split_and!; [done|done| |done|done]. unfold will_store. destruct (rec_commit r); [|done]. simpl.
    rewrite decide_False; [done|]. rewrite He. by intros [? _].
  - destruct Hp as (Hc & He). unfold will_store. destruct (rec_commit r) as [c|] eqn:Hcm; simpl.
    + rewrite Hc, He. change (mjoin []) with (@nil ascii). rewrite app_nil_r.
      specialize (Hok c Hcm).
      destruct (declares_its_length (cm_headers c) (zlen (rec_buffered r))) eqn:Hd; simpl;
        eexists _, _, _; (split; [done|]); (split; [by intros c'|]); split_and!; try done.
      * by rewrite decide_True.
      * rewrite decide_False; [done|]. by intros (_ & _ & ?).
    + eexists _, _, _. split; [done|]. split; [by intros c'|]. by split_and!.
Qed.

(** A reader that polls a recording up to [n] times, until it ends or fails. *)
Fixpoint read_recording (n : nat) r (s : S) : list bytes * option BodyError * bool * Recording * S :=
  match n with
  | O => ([], None, false, r, s)
  | Datatypes.S n =>
      match recording_poll 1 r s with
      | Some (Pending, r, s) => read_recording n r s
      | Some (Ready (Some (inl chunk)), r, s) =>
          let '(cs, e, done, r, s) := read_recording n r s in (chunk :: cs, e, done, r, s)
      | Some (Ready (Some (inr error)), r, s) => ([], Some error, true, r, s)
      | Some (Ready None, r, s) => ([], None, true, r, s)
      | None => ([], None, false, r, s)
      end
  end.

Lemma read_recording_end n r s :
  recording_ok r → (polls_left (rec_inner r) < n)%nat →
  ∃ r', read_recording n r s =
    (chunks (rec_inner r), body_error (rec_inner r), true, r', put_all (will_store r) s).
Proof.
  revert r s. induction n as [|n IH]; intros r s Hok Hn; [lia|]. cbn [read_recording].
  destruct (recording_poll_spec 0 r s Hok) as (answer & r' & s' & -> & Hok' & Hp).
  destruct answer as [|[[chunk|error]|]].
  - destruct Hp as (-> & Hw & Hc & He & Hl). destruct (IH r' s Hok') as (r2 & ->); [lia|].
    exists r2. by rewrite Hw, Hc, He.
  - destruct Hp as (-> & Hw & Hc & He & Hl). destruct (IH r' s Hok') as (r2 & ->); [lia|].
    exists r2. by rewrite Hw, Hc, He.
  - destruct Hp as (-> & _ & Hw & Hc & He). exists r'. by rewrite Hw, Hc, He.
  - destruct Hp as (-> & _ & Hc & He). exists r'. by rewrite Hc, He.
Qed.

(** Until the end of the body is seen, nothing is stored. *)
Lemma read_recording_abandoned n r s cs e r' s' :
  recording_ok r → read_recording n r s = (cs, e, false, r', s') → s' = s.
Proof.
  revert r s cs e r' s'. induction n as [|n IH]; intros r s cs e r' s' Hok; cbn [read_recording].
  { by intros [= <- <- <- <-]. }
  destruct (recording_poll_spec 0 r s Hok) as (answer & r1 & s1 & -> & Hok' & Hp).
  destruct answer as [|[[chunk|error]|]]; [| |done|done].
  - destruct Hp as (-> & _). by apply IH.
  - destruct Hp as (-> & _). destruct (read_recording n r1 s) as [[[[cs' e'] d] r2] s2] eqn:Hr.
    intros [= <- <- -> <- <-]. by eapply IH.
Qed.

(** Recording a body is transparent and all-or-nothing: a reader sees exactly
    the chunks and the error of the origin's body, always reaches its end, and
    the store is written once, at that end, with the whole body - and only if the
    body ended without an error, stayed within the size limit and has the length
    its [Content-Length] declares.  A reader that stops early stores nothing. *)
Theorem recording_all_or_nothing r s n :
  recording_ok r →
  ((polls_left (rec_inner r) < n)%nat →
    ∃ r', read_recording n r s =
      (chunks (rec_inner r), body_error (rec_inner r), true, r', put_all (will_store r) s)) ∧
  (∀ cs e r' s', read_recording n r s = (cs, e, false, r', s') → s' = s).
Proof.
  intros Hok. split; [by apply read_recording_end|]. intros cs e r' s'. by apply read_recording_abandoned.
Qed.

(** The loop over the [304]'s body ends, and then yields the stored body once. *)
Definition draining_left (d : Draining) : nat :=
  match dr_inner d with Some b => polls_left b | None => 0 end.

Lemma draining_poll_spec d :
  ∃ answer d', (∀ fuel, (draining_left d + 2 ≤ fuel)%nat → draining_poll fuel d = Some (answer, d')) ∧
    match answer with
    | Pending => dr_stored d' = dr_stored d ∧ (draining_left d' < draining_left d)%nat
    | Ready x => x = dr_stored d ∧ d' = mk_draining None None
    end.
Proof.
  remember (draining_left d) as n eqn:Hn. revert d Hn. induction n as [n IH] using lt_wf_ind.
  intros [[b|] stored] ->; unfold draining_left; cbn [dr_inner dr_stored].
  2: { exists (Ready stored), (mk_draining None None). split; [|done]. intros [|fuel] Hf; [lia|done]. }
  pose proof (poll_frame_spec b) as Hp. destruct (poll_frame b) as [answer b'] eqn:Hb.
  assert (Hstop : ∀ fuel, (polls_left b + 2 ≤ fuel)%nat →
            ∃ f, fuel = Datatypes.S (Datatypes.S f) ∧ (polls_left b ≤ f)%nat).
  { intros fuel Hf. exists (fuel - 2)%nat. lia. }
  destruct answer as [|[[[chunk|]|error]|]]; simpl in Hp.
  - destruct Hp as (_ & _ & Hl). exists Pending, (mk_draining (Some b') stored).
    split; [|done]. intros fuel (f & -> & _)%Hstop. cbn [draining_poll dr_inner dr_stored]. by rewrite Hb.
  - destruct Hp as (_ & _ & Hl).
    destruct (IH _ Hl (mk_draining (Some b') stored) eq_refl) as (answer & d' & Hrun & Hans).
    exists answer, d'. split.
    + intros [|fuel] Hf; [lia|]. cbn [draining_poll dr_inner dr_stored]. rewrite Hb.
      apply Hrun. lia.
    + destruct answer; [|done]. destruct Hans as [Hst Hlt]. split; [done|]. by etrans.
  - done.
  - exists (Ready stored), (mk_draining None None). split; [|done].
    intros fuel (f & -> & _)%Hstop. cbn [draining_poll dr_inner dr_stored]. by rewrite Hb.
  - exists (Ready stored), (mk_draining None None). split; [|done].
    intros fuel (f & -> & _)%Hstop. cbn [draining_poll dr_inner dr_stored]. by rewrite Hb.
Qed.

(** A reader of a revalidated response, up to [n] polls. *)
Fixpoint read_draining (n : nat) (d : Draining) : list bytes * bool :=
  match n with
  | O => ([], false)
  | Datatypes.S n =>
      match draining_poll (draining_left d + 2) d with
      | Some (Pending, d) => read_draining n d
      | Some (Ready (Some b), d) => let '(cs, ended) := read_draining n d in (b :: cs, ended)
      | Some (Ready None, _) => ([], true)
      | None => ([], false)
      end
  end.

(** A response served after a [304] first drains the [304]'s own body, whatever
    it holds and however it ends, and then yields the stored body exactly once:
    the loop always terminates and no byte of the [304] reaches the caller. *)
Theorem draining_yields_stored b stored n :
  (polls_left b + 2 ≤ n)%nat →
  read_draining n (mk_draining (Some b) (Some stored)) = ([stored], true).
Proof.
  change (polls_left b) with (draining_left (mk_draining (Some b) (Some stored))).
  assert (Hst : dr_stored (mk_draining (Some b) (Some stored)) = Some stored) by done.
  revert Hst. generalize (mk_draining (Some b) (Some stored)) as d. clear b.
  induction n as [|n IH]; intros d Hst Hn; [lia|]. cbn [read_draining].
  destruct (draining_poll_spec d) as (answer & d' & Hrun & Hans). rewrite Hrun by lia.
  destruct answer as [|x].
  - destruct Hans as [Hs Hl]. apply IH; [congruence|lia].
  - destruct Hans as [-> ->]. rewrite Hst. destruct n as [|n]; [lia|]. done.
Qed.
End Recordings.

(** ** Serving *)

Section Serving.
Context `{HeaderValueLaws} `{HeaderMapLaws} `{UrlApi} {S : Type} `{!CacheStorage S}
  (contents : S → CacheKey → list CacheEntry) `{!CacheStorageLaws S contents}.

Lemma select_spec k rq s e s' :
  select k rq s = (Some e, s') → e ∈ contents s k ∧ selector_matches (selector e) rq = true.
Proof.
  unfold select. destruct (cs_get k s) as [[vs|err] s1] eqn:Hg; [|done].
  intros [= Hf Hs']. apply fmap_Some in Hf as ([i x] & Hf & ->). simpl.
  apply list_find_Some in Hf as (Hi & Hm & _).
  rewrite <- (get_reports k s vs s1 Hg). split; [by eapply list_elem_of_lookup_2|done].
Qed.

Lemma select_keeps k rq s k' : contents (select k rq s).2 k' = contents s k'.
Proof.
  unfold select. pose proof (get_keeps k s k') as Hk.
  destruct (cs_get k s) as [[vs|err] s1]; done.
Qed.

Lemma get_all_stamp {B} (r : Response B) age st n :
  hm_get_all (rs_headers (stamp r age st)) n =
  if decide (n = AGE) then [from_u64 (as_secs age)] else hm_get_all (rs_headers r) n.
Proof.
  unfold stamp. simpl. rewrite get_all_insert. by repeat case_decide.
Qed.

(** C32. The cache serves a response without asking the origin only if it may: the
    request is an unconditional [GET] whose directives allow it, and the response
    is the stored status, fields and body of an entry the backend holds for that
    URL, selected by the request's own header values and still fresh at that
    instant - with [Age] rewritten to the entry's current age and nothing else
    changed.  The request is not altered. *)
Theorem served_only_if_fresh config request url now s p resp request' s' :
  before config request url now s = (p, Some resp, request', s') →
  request' = request ∧ rq_method request = GET ∧ caller_owns_it (rq_headers request) = false ∧
  no_store (cc_of_request (rq_headers request)) = false ∧
  no_cache (cc_of_request (rq_headers request)) = false ∧
  max_age (cc_of_request (rq_headers request)) ≠ Some 0 ∧
  ∃ e, e ∈ contents s (new_key GET url) ∧
    selector_matches (selector e) (rq_headers request) = true ∧
    is_fresh e (cc_of (headers e)) config now = true ∧
    rs_status resp = status e ∧ rs_body resp = Plain (fixed (body e)) ∧
    rs_cache_status resp = Some Hit ∧
    ∀ n, hm_get_all (rs_headers resp) n =
         if decide (n = AGE) then [from_u64 (as_secs (current_age e now))]
         else hm_get_all (headers e) n.
Proof.
  unfold before. destruct (caller_owns_it _ || _ || _) eqn:Haside; [done|].
  apply orb_false_iff in Haside as [[Hown Hget]%orb_false_iff Hns]. bool_prop.
  destruct (select _ _ s) as [[e|] s1] eqn:Hsel; [|done].
  destruct (is_fresh e _ config now && _) eqn:Hf; [|by case_match].
  apply andb_true_iff in Hf as [Hfresh Hforce]. apply negb_true_iff, orb_false_iff in Hforce as [Hnc Hma].
  intros [= <- <- <- <-]. apply select_spec in Hsel as [Hin Hm]. rewrite Hget in Hin.
  split_and!; try done; [by apply bool_decide_eq_false in Hma|].
  exists e. split_and!; try done. intros n. unfold to_response. by rewrite get_all_stamp.
Qed.

(** Asking the origin again: when the cache neither serves nor steps aside, the
    request goes out unchanged except that, where it holds a matching entry with
    a validator, [If-None-Match] and [If-Modified-Since] carry that entry's
    validators and the entry is remembered for the answer. *)
Theorem revalidation_request config request url now s state request' s' :
  before config request url now s = (Store state, None, request', s') →
  pd_key state = new_key GET url ∧ pd_request_headers state = rq_headers request ∧
  pd_requested_at state = now ∧
  match pd_revalidating state with
  | None => request' = request
  | Some e =>
      e ∈ contents s (new_key GET url) ∧ selector_matches (selector e) (rq_headers request) = true ∧
      (hm_get (headers e) ETAG ≠ None ∨ hm_get (headers e) LAST_MODIFIED ≠ None) ∧
      ∀ n, hm_get_all (rq_headers request') n =
        if decide (n = IF_MODIFIED_SINCE) then
          match hm_get (headers e) LAST_MODIFIED with Some v => [v] | None => [] end
        else if decide (n = IF_NONE_MATCH) then
          match hm_get (headers e) ETAG with Some v => [v] | None => [] end
        else hm_get_all (rq_headers request) n
  end.
Proof.
  unfold before. destruct (caller_owns_it _ || _ || _) eqn:Haside.
  { unfold aside. by destruct (is_safe _). }
  apply orb_false_iff in Haside as [[Hown Hget]%orb_false_iff Hns]. bool_prop. rewrite Hget.
  destruct (select _ _ s) as [[e|] s1] eqn:Hsel.
  2: { by intros [= <- <- <-]. }
  destruct (is_fresh e _ config now && _); [done|].
  destruct (has_validator (headers e)) eqn:Hv; simpl; [|by intros [= <- <- <-]].
  intros [= <- <- <-]. simpl. apply select_spec in Hsel as [Hin Hm]. split_and!; try done.
  - unfold has_validator in Hv. rewrite orb_true_iff, !contains_key_iff in Hv. unfold hm_get.
    destruct Hv; [left|right]; by destruct (hm_get_all _ _).
  - unfold caller_owns_it in Hown. rewrite !orb_false_iff, !contains_key_false in Hown.
    destruct Hown as [[Hinm Hims] _]. intros n. unfold conditional.
    destruct (hm_get (headers e) ETAG), (hm_get (headers e) LAST_MODIFIED);
      rewrite ?get_all_insert; repeat case_decide; subst; try done; congruence.
Qed.
End Serving.

(** ** Responses, over the in-memory store *)

Section Responses.
Context `{HeaderValueLaws} `{HeaderMapLaws} `{UrlApi} `{LayoutLaws} `{KeyHasher}.
Implicit Types m : MemoryStore.

(** The same-origin targets a response points at. *)
Definition referenced (url : Url) (h : HeaderMap) (k : CacheKey) : Prop :=
  ∃ name value text target, name ∈ [LOCATION; CONTENT_LOCATION] ∧ hm_get h name = Some value ∧
    to_str value = Some text ∧ url_join url text = Some target ∧
    same_origin target url = true ∧ k = new_key GET target.

Lemma held_invalidate_reference url h m name k :
  held (invalidate_reference url h m name) k =
  match value ← hm_get h name; text ← to_str value; url_join url text with
  | Some target =>
      if decide (same_origin target url = true ∧ k = new_key GET target) then [] else held m k
  | None => held m k
  end.
Proof.
  unfold invalidate_reference. destruct (_ ≫= _) as [target|]; [|done].
  destruct (same_origin target url); [|done]. unfold invalidate, cache_remove. simpl.
  change (memory_remove ?a ?b) with (cs_remove a b).
  destruct (held_remove (new_key GET target) m) as [Hk Ho].
  case_decide as Hd; [by destruct Hd as [_ ->]|]. apply Ho. naive_solver.
Qed.

(** A successful response to an unsafe method empties the cache for its
    target and for the same-origin URLs its [Location] and [Content-Location]
    name, and for nothing else - another origin's entries in particular - and a
    failed one (status 400 and above) changes nothing.  The response passes
    through untouched. *)
Theorem unsafe_method_invalidates config url response now m resp m' k :
  after config Invalidate url response now m = (resp, m') →
  resp = plain response ∧
  (400 <= rs_status response → held m' k = held m k) ∧
  (rs_status response < 400 →
     k = new_key GET url ∨ referenced url (rs_headers response) k → held m' k = []) ∧
  (k ≠ new_key GET url → ¬ referenced url (rs_headers response) k → held m' k = held m k).
Proof.
  unfold after. intros [= <- <-]. split; [done|].
  destruct (rs_status response <? 400) eqn:E; bool_prop; [|by split_and!; [|lia|]].
  destruct (held_remove (new_key GET url) m) as [Hk Ho]. unfold invalidate_referenced. cbn [foldl].
  rewrite !held_invalidate_reference. unfold referenced.
  change (held (invalidate url m) ?x) with (held (memory_remove (new_key GET url) m).2 x).
  split_and!; [lia| |].
  - intros _ [->|(name & v & t & target & Hname & Hv & Ht & Hj & Hs & ->)].
    { rewrite Hk. by repeat (case_match || case_decide). }
    apply elem_of_cons in Hname as [->|Hname].
    + rewrite Hv. simpl. rewrite Ht. simpl. rewrite Hj, decide_True by done. by repeat case_match.
    + apply list_elem_of_singleton in Hname as ->. rewrite Hv. simpl. rewrite Ht. simpl.
      by rewrite Hj, decide_True by done.
  - intros Hne Hno.
    assert (Hoff : ∀ name target, name ∈ [LOCATION; CONTENT_LOCATION] →
      (value ← hm_get (rs_headers response) name; text ← to_str value; url_join url text) = Some target →
      ¬ (same_origin target url = true ∧ k = new_key GET target)).
    { intros name target Hname Hb [Hs ->]. apply Hno.
      apply bind_Some in Hb as (v & Hv & (t & Ht & Hj)%bind_Some). by exists name, v, t, target. }
    assert (Hl : LOCATION ∈ [LOCATION; CONTENT_LOCATION]) by (by left).
    assert (Hc : CONTENT_LOCATION ∈ [LOCATION; CONTENT_LOCATION]) by (right; by left).
    destruct (value ← hm_get (rs_headers response) CONTENT_LOCATION; _) as [t2|] eqn:E2;
      destruct (value ← hm_get (rs_headers response) LOCATION; _) as [t1|] eqn:E1;
      rewrite ?decide_False by eauto; by apply Ho.
Qed.

(** A response that may not be stored is handed to the caller untouched and
    nothing is recorded; and when it says [no-store], or when it answers a
    revalidation, the copy the cache already held is dropped. *)
Theorem unstorable_response_dropped config state url response now m resp m' reason :
  pd_revalidating state = None ∨ rs_status response ≠ NOT_MODIFIED →
  storable config GET (pd_request_headers state) (pd_request_cc state) (rs_status response)
    (rs_headers response) (cc_of (rs_headers response)) = inr reason →
  after config (Store state) url response now m = (resp, m') →
  resp = plain response ∧
  (no_store (cc_of (rs_headers response)) = true ∨ pd_revalidating state ≠ None →
     held m' (pd_key state) = []) ∧
  ∀ k, k ≠ pd_key state → held m' k = held m k.
Proof.
  intros Hrev Hst. unfold after.
  assert (Hfresh : after_fresh config state response now m = (resp, m') →
    resp = plain response ∧
    (no_store (cc_of (rs_headers response)) = true ∨ pd_revalidating state ≠ None →
       held m' (pd_key state) = []) ∧ ∀ k, k ≠ pd_key state → held m' k = held m k).
  { unfold after_fresh. rewrite Hst. intros [= <- <-]. split; [done|].
    destruct (held_remove (pd_key state) m) as [Hk Ho].
    destruct (no_store _ || _) eqn:E; [by split|]. apply orb_false_iff in E as [-> Hb].
    apply bool_decide_eq_false in Hb. split; [|done]. intros [?|Hx]; [done|].
    destruct (pd_revalidating state); [destruct Hb; by eexists|done]. }
  destruct (pd_revalidating state) as [e|]; [|done]. destruct Hrev as [?|Hne]; [done|].
  rewrite (proj2 (Z.eqb_neq _ _)) by done. done.
Qed.

(** A [304] that names the stored representation serves it: the caller gets the
    stored status and body under the refreshed fields, and the refreshed entry
    takes the old one's place - unless the [304] made it unstorable, in which case
    the key is emptied. *)
Theorem not_modified_serves_stored config state e url response now m resp m' :
  let e' := refreshed e (rs_headers response) (pd_requested_at state) now in
  memory_ok m → tick m < u64_max → pd_revalidating state = Some e →
  rs_status response = NOT_MODIFIED → validators_agree (headers e) (rs_headers response) = true →
  selects_the_same_way (headers e) (rs_headers response) = true →
  record_size (pd_key state) (merge_variants (held m (pd_key state)) e') <= purge_target (memory_limits m) →
  after config (Store state) url response now m = (resp, m') →
  rs_status resp = status e ∧ rs_cache_status resp = Some Revalidated ∧
  rs_body resp = Drained (mk_draining (Some (rs_body response)) (Some (body e))) (Some (zlen (body e))) ∧
  (∀ n, hm_get_all (rs_headers resp) n =
        if decide (n = AGE) then [from_u64 (as_secs (current_age e' now))]
        else hm_get_all (headers e') n) ∧
  held m' (pd_key state) =
    match storable config GET (pd_request_headers state) (pd_request_cc state) (status e)
            (headers e') (cc_of (headers e')) with
    | inl _ => merge_variants (held m (pd_key state)) e'
    | inr _ => []
    end.
Proof.
  intros e' Hm Ht Hrev Hst Hv Hsel Hfit. unfold after. rewrite Hrev, Hst, Hv, Hsel. simpl.
  unfold after_not_modified. fold e'. intros [= <- <-]. split_and!; try done.
  - intros n. unfold revalidated. by rewrite get_all_stamp.
  - change (status e') with (status e). destruct (storable _ _ _ _ _ _ _).
    + by apply held_put_fits.
    + apply held_remove.
Qed.

Lemma select_only k rq m e :
  held m k = [e] → selector_matches (selector e) rq = true →
  ∃ m', select k rq m = (Some e, m') ∧ m' = (memory_get k m).2.
Proof.
  intros Hh Hs. unfold select. simpl. pose proof (memory_get_reports k m) as Hg.
  destruct (memory_get k m) as [answer m']. simpl in *. subst answer. rewrite Hh. exists m'.
  split; [|done]. f_equal. simpl. by rewrite decide_True.
Qed.

Lemma select_none k rq m :
  held m k = [] → select k rq m = (None, (memory_get k m).2).
Proof.
  intros Hh. unfold select. simpl. pose proof (memory_get_reports k m) as Hg.
  destruct (memory_get k m) as [answer m']. simpl in *. subst answer. by rewrite Hh.
Qed.

Lemma tick_get k m : tick (memory_get k m).2 = saturating_add (tick m) 1.
Proof. unfold memory_get. simpl. by destruct (records _ !! k). Qed.

Lemma limits_get k m : memory_limits (memory_get k m).2 = memory_limits m.
Proof. unfold memory_get. simpl. by destruct (records _ !! k). Qed.

(** The entry a whole response leaves in the store. *)
Definition entry_for (config : CacheConfig) (rq : Request) (names : list str) (response : Response Body)
    (t0 t1 : SystemTime) : CacheEntry :=
  mk_cache_entry (rs_status response) (rs_version response) (strip_hop_by_hop (rs_headers response))
    (mjoin (chunks (rs_body response))) (selector_of names (rq_headers rq)) t0 t1.

(** C33. The point of the cache, end to end, where the store has room: an unconditional
    [GET] that neither forbids storing nor asks for revalidation, for which nothing is
    stored under its key, goes to the origin unchanged; its storable response, read to
    the end without an error, reaches the caller byte for byte; and the same request
    made again while that response is fresh is answered from the store with the same
    status and body, without the origin - provided the body is within
    [max_body_bytes], both as declared beforehand and as read, is as long as any
    Content-Length says, and makes a record within the purge target of a shard, seven
    eighths of its bytes.  A body that is larger, shorter or longer than declared, or
    too large for a shard is delivered and not kept; a variant stored before can shadow
    the new one ([CacheScenario.older_variant_shadows_newer]). *)
Theorem stored_then_served config rq url response t0 t1 t2 m names n :
  let key := new_key GET url in
  let rcc := cc_of_request (rq_headers rq) in
  let e := entry_for config rq names response t0 t1 in
  memory_ok m → tick m + 1 < u64_max → held m key = [] →
  rq_method rq = GET → caller_owns_it (rq_headers rq) = false → no_store rcc = false →
  request_forces_revalidation rcc = false →
  storable config GET (rq_headers rq) rcc (rs_status response) (rs_headers response)
    (cc_of (rs_headers response)) = inl names →
  body_error (rs_body response) = None → 0 <= max_body_bytes config →
  (∀ l, content_length (rs_body response) = Some l → l <= max_body_bytes config) →
  zlen (body e) <= max_body_bytes config → declares_its_length (headers e) (zlen (body e)) = true →
  record_size key [e] <= purge_target (memory_limits m) →
  is_fresh e (cc_of (headers e)) config t2 = true → (polls_left (rs_body response) < n)%nat →
  ∃ p m0 resp r len r' m1 p' resp' m2,
    before config rq url t0 m = (p, None, rq, m0) ∧
    after config p url response t1 m0 = (resp, m0) ∧ rs_body resp = Recorded r len ∧
    read_recording n r m0 = (chunks (rs_body response), None, true, r', m1) ∧
    before config rq url t2 m1 = (p', Some resp', rq, m2) ∧
    rs_status resp' = rs_status response ∧ rs_body resp' = Plain (fixed (body e)).
Proof.
  intros key rcc e Hm Ht Hheld Hget Hown Hns Hforce Hst Herr Hmax Hlen Hsz Hdecl Hfit Hfresh Hn.
  assert (Hgo : caller_owns_it (rq_headers rq) || negb (bool_decide (rq_method rq = GET)) || no_store rcc
                = false) by (rewrite Hown, Hns, bool_decide_true by done; done).
  set (m0 := (memory_get key m).2).
  assert (Hm0 : memory_ok m0) by (by apply memory_get_ok).
  assert (Hheld0 : held m0 key = []) by (unfold m0; by rewrite held_get).
  set (c := mk_commit key (rs_status response) (rs_version response)
              (strip_hop_by_hop (rs_headers response)) (selector_of names (rq_headers rq)) t0 t1
              (max_body_bytes config)).
  set (r := mk_recording (rs_body response) [] (Some c)).
  assert (Hrok : recording_ok r) by (by intros ? [= <-]).
  assert (Hw : will_store r = Some (key, e)).
  { unfold will_store. simpl. by rewrite decide_True. }
  destruct (read_recording_end n r m0 Hrok Hn) as (r' & Hread). rewrite Hw in Hread. simpl in Hread.
  set (m1 := cache_store key e m0) in *.
  assert (Hheld1 : held m1 key = [e]).
  { unfold m1, cache_store. simpl. rewrite held_put_fits; rewrite ?Hheld0; try done.
    - unfold m0. rewrite tick_get. unfold saturating_add. lia.
    - unfold m0. by rewrite limits_get. }
  assert (Hmatch : selector_matches (selector e) (rq_headers rq) = true).
  { by apply selector_matches_iff. }
  destruct (select_only key (rq_headers rq) m1 e Hheld1 Hmatch) as (m2 & Hsel & _).
  eexists _, m0, (mk_response _ _ _ (Recorded r (content_length (rs_body response))) _), r, _, r', m1,
    _, _, m2. split_and!.
  - unfold before. fold rcc. rewrite Hgo, Hget. fold key. by rewrite select_none.
  - unfold after. simpl. unfold after_fresh. simpl. rewrite Hst.
    assert (Hfits : match size_hint_exact (rs_body response) with
                    | Some l => max_body_bytes config <? l | None => false end = false).
    { unfold size_hint_exact. destruct (content_length _) as [l|]; [|done].
      apply Z.ltb_ge. by apply Hlen. }
    by rewrite Hfits.
  - done.
  - simpl in Hread. by rewrite Herr in Hread.
  - unfold before. fold rcc. rewrite Hgo, Hget. fold key. by rewrite Hsel, Hfresh, Hforce.
  - done.
  - done.
Qed.
End Responses.
