(* ===== verification/CacheInvariant.v ===== *)
(** The cache as a system of interleaved exchanges over one backend: whatever the
    order in which requests go out, responses arrive and bodies are read or
    abandoned, every entry the backend ever holds was storable, is complete, and
    stays so when a [304] refreshes it. *)
From S2P Require Import Prelude RustStr RustTime Extern Body CacheDate CacheDirective CacheEntry.
From S2P Require Import Message CachePolicy CacheStorage HttpCache CacheBehaviour.
Local Open Scope Z_scope.

Section System.
Context `{HeaderValueLaws} `{HeaderMapLaws} `{UrlApi} {S : Type} `{!CacheStorage S}
  (contents : S → CacheKey → list CacheEntry) `{!CacheStorageLaws S contents}
  (config : CacheConfig) (max_body_bytes_u64 : 0 <= max_body_bytes config).

(** What every stored head satisfies. *)
Record head_good (st : StatusCode) (h : HeaderMap) (sel : Selector) : Prop := {
  hg_status : is_cacheable_status st = true;
  hg_no_set_cookie : hm_get_all h SET_COOKIE = [];
  hg_no_store : no_store (cc_of h) = false;
  hg_private : private (cc_of h) = true → store_private config = true;
  hg_selectable : ∀ n, n ∈ selector_names sel → n ∉ UNSELECTABLE;
}.

(** A stored entry: a storable head and a whole body within the limit. *)
Definition entry_good (e : CacheEntry) : Prop :=
  head_good (status e) (headers e) (selector e) ∧
  declares_its_length (headers e) (zlen (body e)) = true ∧ zlen (body e) <= max_body_bytes config.

Definition recording_good (r : Recording) : Prop :=
  recording_ok r ∧ ∀ c, rec_commit r = Some c →
    head_good (cm_status c) (cm_headers c) (cm_selector c) ∧ cm_limit c = max_body_bytes config.

Definition pending_good (p : PendingKind) : Prop :=
  ∀ state e, p = Store state → pd_revalidating state = Some e → entry_good e.

(** ** The steps *)

Record System := mk_system {
  sys_store : S;
  sys_pending : list PendingKind;
  sys_recordings : list Recording;
}.

Definition recordings_of (b : CacheBody) : list Recording :=
  match b with Recorded r _ => [r] | _ => [] end.

Inductive step : System → System → Prop :=
  | step_before σ request url now p resp request' s' :
      before config request url now (sys_store σ) = (p, resp, request', s') →
      step σ (mk_system s' (p :: sys_pending σ) (sys_recordings σ))
  | step_after σ before_ p after_ url response now resp s' :
      sys_pending σ = before_ ++ p :: after_ →
      after config p url response now (sys_store σ) = (resp, s') →
      step σ (mk_system s' (before_ ++ after_) (recordings_of (rs_body resp) ++ sys_recordings σ))
  | step_poll σ i r answer r' s' :
      sys_recordings σ !! i = Some r →
      recording_poll 1 r (sys_store σ) = Some (answer, r', s') →
      step σ (mk_system s' (sys_pending σ) (<[i := r']> (sys_recordings σ)))
  | step_abandon σ i :
      step σ (mk_system (sys_store σ) (sys_pending σ) (delete i (sys_recordings σ)))
  | step_invalidate σ url :
      step σ (mk_system (invalidate url (sys_store σ)) (sys_pending σ) (sys_recordings σ)).

Definition store_good (s : S) : Prop := ∀ k e, e ∈ contents s k → entry_good e.

Definition system_good (σ : System) : Prop :=
  store_good (sys_store σ) ∧ Forall pending_good (sys_pending σ) ∧
  Forall recording_good (sys_recordings σ).

(** ** Heads *)

Lemma cc_of_ext h h' :
  hm_get_all h CACHE_CONTROL = hm_get_all h' CACHE_CONTROL → cc_of h = cc_of h'.
Proof. unfold cc_of. by intros ->. Qed.

Lemma cc_of_strip h : cc_of (strip_hop_by_hop h) = cc_of h ∨ cc_of (strip_hop_by_hop h) = cc_default.
Proof.
  pose proof (strip_hop_by_hop_get_all h CACHE_CONTROL) as Hs. case_decide.
  - right. unfold cc_of. by rewrite Hs.
  - left. by apply cc_of_ext.
Qed.

Lemma selector_names_of names rq : selector_names (selector_of names rq) = names.
Proof.
  unfold selector_names, selector_of. rewrite <- list_fmap_compose. unfold compose. simpl.
  apply list_fmap_id.
Qed.

Lemma storable_head rq rqcc st h names sel :
  storable config GET rq rqcc st h (cc_of h) = inl names →
  (∀ n, n ∈ selector_names sel → n ∉ UNSELECTABLE) → head_good st h sel.
Proof. intros Hs Hsel. apply storable_iff_lemma in Hs. destruct Hs. by split. Qed.

Lemma strip_head rq rqcc st h names :
  storable config GET rq rqcc st h (cc_of h) = inl names →
  head_good st (strip_hop_by_hop h) (selector_of names rq).
Proof.
  intros Hs. apply storable_iff_lemma in Hs. destruct Hs. split; try done.
  - rewrite strip_hop_by_hop_get_all. by case_decide.
  - by destruct (cc_of_strip h) as [->| ->].
  - by destruct (cc_of_strip h) as [->| ->].
  - by rewrite selector_names_of.
Qed.

Lemma declares_its_length_ext h h' n :
  hm_get_all h CONTENT_LENGTH = hm_get_all h' CONTENT_LENGTH →
  declares_its_length h n = declares_its_length h' n.
Proof. unfold declares_its_length, hm_get. by intros ->. Qed.

Lemma refreshed_good e nm t1 t2 rq rqcc names :
  entry_good e →
  storable config GET rq rqcc (status (refreshed e nm t1 t2)) (headers (refreshed e nm t1 t2))
    (cc_of (headers (refreshed e nm t1 t2))) = inl names →
  entry_good (refreshed e nm t1 t2).
Proof.
  intros (Hh & Hl & Hsz) Hs. split_and!.
  - eapply storable_head; [done|]. apply Hh.
  - rewrite (declares_its_length_ext _ (headers e)); [done|]. rewrite refreshed_get_all.
    rewrite decide_False; [done|]. by intros (_ & _ & ?).
  - done.
Qed.

(** ** The store *)

Lemma cache_store_good k e s : store_good s → entry_good e → store_good (cache_store k e s).
Proof.
  intros Hs He k' x Hx. apply put_invents_nothing in Hx as [Hx|[_ ->]]; [by eapply Hs|done].
Qed.

Lemma cache_remove_good k s : store_good s → store_good (cache_remove k s).
Proof. intros Hs k' x Hx. apply remove_invents_nothing in Hx. by eapply Hs. Qed.

Lemma invalidate_referenced_good url h s : store_good s → store_good (invalidate_referenced url h s).
Proof.
  intros Hs. assert (Hone : ∀ s name, store_good s → store_good (invalidate_reference url h s name)).
  { intros s0 name Hs0. unfold invalidate_reference. destruct (_ ≫= _); [|done].
    destruct (same_origin _ _); [|done]. by apply cache_remove_good. }
  unfold invalidate_referenced. simpl. by repeat apply Hone.
Qed.

Lemma before_good request url now s p resp request' s' :
  before config request url now s = (p, resp, request', s') → store_good s →
  store_good s' ∧ pending_good p.
Proof.
  unfold before. destruct (_ || _ || _).
  { intros [= <- <- <- <-] Hs. split; [done|]. unfold aside. by destruct (is_safe _); intros ? ?. }
  pose proof (select_keeps contents (new_key (rq_method request) url) (rq_headers request) s) as Hk.
  destruct (select _ _ s) as [found s1] eqn:Hsel. simpl in Hk. intros Hb Hs.
  assert (Hs1 : store_good s1).
  { intros k e He. apply (Hs k). by rewrite <- Hk. }
  destruct found as [e|]; [|injection Hb as <- <- <- <-; split; [done|]; intros ? ? [= <-]; done].
  apply (select_spec contents) in Hsel as [Hin _].
  destruct (_ && _); [injection Hb as <- <- <- <-; split; [done|]; intros ? ? [= <-]; done|].
  destruct (negb _); injection Hb as <- <- <- <-; (split; [done|]); intros ? ? [= <-]; [done|].
  simpl. intros [= <-]. by eapply Hs.
Qed.

Lemma after_fresh_good state response now s resp s' :
  after_fresh config state response now s = (resp, s') → store_good s →
  store_good s' ∧ Forall recording_good (recordings_of (rs_body resp)).
Proof.
  unfold after_fresh. destruct (storable _ _ _ _ _ _ _) as [names|reason] eqn:Hst.
  - destruct (match size_hint_exact _ with Some _ => _ | None => _ end);
      intros [= <- <-] Hs; (split; [done|]); simpl; [constructor|]. apply Forall_singleton.
    split; [|intros c [= <-]; simpl; split; [by eapply strip_head|done]].
    by intros c [= <-].
  - intros [= <- <-] Hs. split; [|constructor]. case_match; [by apply cache_remove_good|done].
Qed.

Lemma after_good p url response now s resp s' :
  after config p url response now s = (resp, s') → store_good s → pending_good p →
  store_good s' ∧ Forall recording_good (recordings_of (rs_body resp)).
Proof.
  unfold after. destruct p as [| |state].
  - intros [= <- <-] Hs _. split; [done|constructor].
  - intros [= <- <-] Hs _. split; [|constructor]. destruct (_ <? _); [|done].
    by apply invalidate_referenced_good, cache_remove_good.
  - destruct (pd_revalidating state) as [e|] eqn:He; [|intros Ha Hs _; by eapply after_fresh_good].
    destruct (_ && _ && _); [|intros Ha Hs _; by eapply after_fresh_good].
    intros [= <- <-] Hs Hp. split; [|constructor].
    destruct (storable _ _ _ _ _ _ _) eqn:Hst; [|by apply cache_remove_good].
    apply cache_store_good; [done|]. eapply refreshed_good; [|done]. by eapply Hp.
Qed.

Lemma will_store_good r k e : recording_good r → will_store r = Some (k, e) → entry_good e.
Proof.
  intros [_ Hr]. unfold will_store. destruct (rec_commit r) as [c|]; [|done]. simpl.
  destruct (Hr c eq_refl) as [Hh Hlim]. case_decide as Hd; [|done]. intros [= <- <-].
  destruct Hd as (_ & Hsz & Hl). split_and!; [done|done|]. simpl. by rewrite <- Hlim.
Qed.

Lemma recording_poll_commit r s answer r' s' :
  recording_poll 1 r s = Some (answer, r', s') →
  rec_commit r' = None ∨ rec_commit r' = rec_commit r.
Proof.
  cbn [recording_poll]. destruct (poll_frame _) as [ans inner].
  destruct ans as [|[[[chunk|]|err]|]]; [| |done| |].
  - intros [= <- <- <-]. by right.
  - destruct (rec_commit r) as [c|]; [destruct (_ <? _)|]; intros [= <- <- <-]; auto.
  - intros [= <- <- <-]. by left.
  - destruct (rec_commit r) as [c|]; [destruct (negb _)|]; intros [= <- <- <-]; auto.
Qed.

Lemma recording_poll_good r s answer r' s' :
  recording_poll 1 r s = Some (answer, r', s') → store_good s → recording_good r →
  store_good s' ∧ recording_good r'.
Proof.
  intros Hp Hs Hr. destruct (recording_poll_spec 0 r s (proj1 Hr)) as (a & r1 & s1 & Hp1 & Hok & Hcase).
  rewrite Hp in Hp1. injection Hp1 as <- <- <-.
  pose proof (recording_poll_commit r s answer r' s' Hp) as Hcommit.
  assert (Hr' : recording_good r').
  { split; [done|]. intros c Hc. destruct Hcommit as [Hn|Heq]; [congruence|].
    apply Hr. by rewrite <- Heq. }
  split; [|done].
  destruct answer as [|[[chunk|err]|]]; [by rewrite (proj1 Hcase)..|].
  destruct Hcase as [-> _]. destruct (will_store r) as [[k e]|] eqn:Hw; [|exact Hs].
  apply cache_store_good; [done|]. by apply (will_store_good r k).
Qed.

Lemma step_good σ σ' : step σ σ' → system_good σ → system_good σ'.
Proof.
  intros Hstep (Hs & Hp & Hr). destruct Hstep as
    [σ rq url now p resp rq' s' Hb|σ l1 p l2 url response now resp s' Hpend Ha|σ i r answer r' s' Hi Hpoll
    |σ i|σ url]; simpl.
  - apply before_good in Hb as [Hs' Hp']; [|done]. split_and!; [done|by constructor|done].
  - rewrite Hpend in Hp. apply Forall_app in Hp as [Hl1 [Hp' Hl2]%Forall_cons].
    apply after_good in Ha as [Hs' Hr']; [|done..]. split_and!; [done|by apply Forall_app|].
    by apply Forall_app.
  - rewrite Forall_forall in Hr. apply recording_poll_good in Hpoll as [Hs' Hr'];
      [|done|by eapply Hr, list_elem_of_lookup_2].
    split_and!; [done..|]. apply Forall_insert; [by apply Forall_forall|done].
  - split_and!; [done..|]. by apply Forall_delete.
  - split_and!; [by apply cache_remove_good|done..].
Qed.

Lemma reachable_good σ0 σ : rtc step σ0 σ → system_good σ0 → system_good σ.
Proof. induction 1; [done|]. eauto using step_good. Qed.

End System.
