(* ===== verification/CacheScenario.v ===== *)
(** The cache at work on concrete exchanges: its theorems applied to a store that
    holds responses, and the corner cases where the code and its comments or the
    specification it names disagree. *)
From S2P Require Import Prelude RustStr RustTime Extern Body CacheDate CacheDirective CacheEntry.
From S2P Require Import Message CachePolicy CacheStorage HttpCache CacheBehaviour CacheInvariant.
Import Sample.
Local Open Scope Z_scope.

#[local] Instance sample_layout : Layout := {| size_of_CacheKey := 40; size_of_CacheEntry := 232 |}.
#[local] Instance sample_layout_laws : LayoutLaws.
Proof. split; reflexivity. Qed.
#[local] Instance sample_hasher : KeyHasher := λ k, zlen (target k).

Definition t0 : SystemTime := from_secs 1700000000.
Definition later (s : Z) : SystemTime := t0 + from_secs s.

Definition style : Url := mk_url b#"https" b#"www.example.com" 443 b#"/style.css".
Definition key : CacheKey := new_key GET style.

Definition fields_of (l : list (str * str)) : HeaderMap :=
  foldl (λ h nv, hm_append nv.1 nv.2 h) ([] : fields) l.

Definition request : Request := 
  mk_request GET b#"https://example.com/a" HTTP_11 (fields_of [(b#"accept-language", b#"en")]) false.

Definition answer (extra : list (str * str)) (b : Body) : Response Body :=
  mk_response 200 HTTP_2 (fields_of ([(b#"etag", b#"v1"); (b#"connection", b#"keep-alive")] ++ extra)) b None.

Definition css : Body := Stream [SChunk b#"a{color"; SPending; SChunk b#":red}"] None.

Definition cacheable : Response Body :=
  answer [(b#"cache-control", b#"max-age=60"); (b#"vary", b#"Accept-Language")] css.

Definition fresh_store : MemoryStore := with_limits default_memory_limits.

Lemma fresh_store_ok : memory_ok fresh_store.
Proof. apply with_limits_ok. Qed.

Lemma start_empty k : held fresh_store k = [].
Proof.
  unfold held, shard_of. destruct (shards fresh_store !! shard_index fresh_store k) as [s|] eqn:E; [|done].
  apply lookup_replicate in E as [-> _]. done.
Qed.

(** ** The store's theorems *)

Definition entry1 : CacheEntry := entry_for default_config request [b#"accept-language"] cacheable t0 t0.
Definition store1 : MemoryStore := (memory_put key entry1 fresh_store).2.

Lemma store1_ok : memory_ok store1.
Proof. apply memory_put_ok, fresh_store_ok. Qed.

(** ** Fields *)

Lemma refreshed_exact_witness :
  hm_get_all (headers (refreshed entry1
    (fields_of [(b#"etag", b#"v2"); (b#"content-length", b#"0")]) t0 t0)) b#"etag" = [b#"v2"] ∧
  hm_get_all (headers (refreshed entry1
    (fields_of [(b#"etag", b#"v2"); (b#"content-length", b#"0")]) t0 t0)) b#"content-length" = [].
Proof.
  destruct (refreshed_exact entry1
    (fields_of [(b#"etag", b#"v2"); (b#"content-length", b#"0")]) t0 t0) as [Hf _].
  split; rewrite Hf; vm_compute; reflexivity.
Defined.

Lemma strip_hop_by_hop_exact_witness :
  hm_get_all (strip_hop_by_hop (fields_of
    [(b#"connection", b#"x-hop"); (b#"x-hop", b#"1"); (b#"etag", b#"v1")])) b#"x-hop" = [] ∧
  hm_get_all (strip_hop_by_hop (fields_of
    [(b#"connection", b#"x-hop"); (b#"x-hop", b#"1"); (b#"etag", b#"v1")])) b#"etag" = [b#"v1"].
Proof. split; rewrite strip_hop_by_hop_exact; vm_compute; reflexivity. Defined.

Lemma memory_store_bounded_witness :
  memory_ok (memory_put key entry1 store1).2 ∧ st_bytes (stats store1) <= 32 * 1024 * 1024.
Proof.
  destruct (memory_store_bounded store1 key entry1) as (_ & Hput & _ & Hb).
  - exact store1_ok.
  - split; [exact Hput|]. exact Hb.
Defined.

Lemma put_then_get_witness :
  (memory_get key (memory_put key entry1 fresh_store).2).1 =
  inl (merge_variants (held fresh_store key) entry1).
Proof.
  apply (put_then_get fresh_store key entry1).
  - exact fresh_store_ok.
  - vm_compute. reflexivity.
  - vm_compute. discriminate.
Defined.

Definition tiny_store : MemoryStore := with_limits (mk_memory_limits 100 1).

Lemma oversized_put_refused_witness :
  held (memory_put key entry1 tiny_store).2 key = [].
Proof.
  destruct (oversized_put_refused tiny_store key entry1) as (_ & Hk & _).
  - apply with_limits_ok.
  - vm_compute. reflexivity.
  - exact Hk.
Defined.

Definition full_shard : Shard :=
  mk_shard {[ key := mk_stored [entry1] 70 1; mk_key GET b#"other" := mk_stored [entry1] 60 2 ]} 130.

Lemma full_shard_ok : ages_ok full_shard.
Proof.
  split; [vm_compute; reflexivity|]. unfold full_shard. simpl. intros k r.
  rewrite lookup_insert_Some, lookup_singleton_Some. intros [[_ <-]|[_ [_ <-]]]; simpl; lia.
Qed.

Lemma purge_is_lru_witness :
  shard_bytes (purge (mk_memory_limits 100 1) full_shard).1.1 <= 88.
Proof.
  destruct (purge_is_lru (mk_memory_limits 100 1) full_shard) as (_ & _ & _ & Hover & _).
  - exact full_shard_ok.
  - apply Hover. vm_compute. reflexivity.
Defined.

(** ** The policy's theorems *)

Lemma stale_stays_stale_witness :
  is_fresh entry1 (cc_of (headers entry1)) default_config (later 61) = false.
Proof.
  apply (stale_stays_stale entry1 _ default_config (later 60) (later 61)).
  - vm_compute. discriminate.
  - vm_compute. reflexivity.
Defined.

Lemma fresh_is_young_witness :
  no_cache (cc_of (headers entry1)) = false ∧
  freshness_lifetime entry1 (cc_of (headers entry1)) default_config = Some (from_secs 60).
Proof.
  destruct (fresh_is_young entry1 default_config (later 59)) as (Hnc & l & Hl & _).
  - vm_compute. split; discriminate.
  - vm_compute. split; discriminate.
  - vm_compute. reflexivity.
  - split; [exact Hnc|]. vm_compute. reflexivity.
Defined.

Definition expired_entry : CacheEntry :=
  mk_cache_entry 200 HTTP_2 (fields_of [(b#"expires", b#"0"); (b#"etag", b#"v1")]) [] [] t0 t0.

Lemma invalid_expires_never_fresh_witness :
  is_fresh expired_entry (cc_of (headers expired_entry)) default_config t0 = false.
Proof.
  apply (invalid_expires_never_fresh expired_entry default_config b#"0").
  - vm_compute. reflexivity.
  - intros s Hs. vm_compute in Hs. injection Hs as <-. vm_compute. reflexivity.
  - vm_compute. reflexivity.
  - vm_compute. split; discriminate.
  - vm_compute. discriminate.
Defined.

Definition guessed_entry : CacheEntry :=
  mk_cache_entry 200 HTTP_2
    (fields_of [(b#"date", b#"Tue, 14 Nov 2023 22:13:20 GMT");
                (b#"last-modified", b#"Tue, 14 Nov 2023 22:11:40 GMT")]) [] [] t0 t0.

Lemma heuristic_lifetime_bounded_witness :
  from_secs 10 <= heuristic_cap default_config ∧
  freshness_lifetime guessed_entry (cc_of (headers guessed_entry)) default_config = Some (from_secs 10).
Proof.
  assert (Hl : freshness_lifetime guessed_entry (cc_of (headers guessed_entry)) default_config =
               Some (from_secs 10)) by (vm_compute; reflexivity).
  split; [|exact Hl].
  destruct (heuristic_lifetime_bounded guessed_entry default_config (from_secs 10)) as (_ & Hcap & _).
  - vm_compute. reflexivity.
  - vm_compute. reflexivity.
  - exact Hl.
  - exact Hcap.
Defined.

(** ** Bodies *)

Definition recorder : Recording :=
  mk_recording css []
    (Some (mk_commit key 200 HTTP_2 (headers entry1) (selector entry1) t0 t0 (8 * 1024 * 1024))).

Lemma recorder_stores : will_store recorder = Some (key, entry1).
Proof.
  unfold will_store, recorder. cbn [rec_commit rec_buffered rec_inner mbind option_bind].
  rewrite decide_True; [reflexivity|].
  split_and!; [reflexivity|vm_compute; discriminate|vm_compute; reflexivity].
Qed.

Lemma recording_all_or_nothing_witness :
  ∃ r', read_recording 4 recorder fresh_store =
    ([b#"a{color"; b#":red}"], None, true, r', cache_store key entry1 fresh_store).
Proof.
  destruct (recording_all_or_nothing recorder fresh_store 4) as [Hend _].
  - intros c Hc. injection Hc as <-. vm_compute. discriminate.
  - destruct Hend as (r' & Hr).
    + vm_compute. repeat constructor.
    + exists r'. rewrite Hr. rewrite recorder_stores. reflexivity.
Defined.

Lemma draining_yields_stored_witness :
  read_draining 5 (mk_draining (Some (Stream [SPending; SChunk b#"x"; SError (Transport [])] None))
                     (Some b#"stored")) = ([b#"stored"], true).
Proof. apply draining_yields_stored. vm_compute. repeat constructor. Defined.

(** ** Exchanges *)

(** The bytes of a body served from memory. *)
Definition served_bytes (r : Response CacheBody) : bytes :=
  match rs_body r with Plain (Fixed (Some b)) => b | _ => [] end.

Lemma hit_at_5 :
  match (before default_config request style (later 5) store1).1.1.2 with
  | Some r => Some (served_bytes r, hm_get_all (rs_headers r) AGE)
  | None => None
  end = Some (b#"a{color:red}", [b#"5"]).
Proof. vm_compute. reflexivity. Qed.

Lemma served_only_if_fresh_witness :
  ∃ p resp s', before default_config request style (later 5) store1 = (p, Some resp, request, s') ∧
    served_bytes resp = b#"a{color:red}" ∧ hm_get_all (rs_headers resp) AGE = [b#"5"].
Proof.
  pose proof hit_at_5 as Hhit.
  destruct (before default_config request style (later 5) store1) as [[[p o] rq'] s'] eqn:E.
  cbn [fst snd] in Hhit. destruct o as [resp|]; [|discriminate].
  destruct (served_only_if_fresh held default_config request style (later 5) store1 p resp rq' s' E)
    as (Hrq & _). subst rq'.
  exists p, resp, s'. split; [reflexivity|]. injection Hhit as Hb Ha. split; [exact Hb|exact Ha].
Defined.

Lemma miss_at_65 :
  match (before default_config request style (later 65) store1).1 with
  | (Store state, None, rq) => Some (hm_get_all (rq_headers rq) IF_NONE_MATCH)
  | _ => None
  end = Some [b#"v1"].
Proof. vm_compute. reflexivity. Qed.

Lemma revalidation_request_witness :
  ∃ state request' s',
    before default_config request style (later 65) store1 = (Store state, None, request', s') ∧
    pd_key state = key ∧ hm_get_all (rq_headers request') IF_NONE_MATCH = [b#"v1"].
Proof.
  pose proof miss_at_65 as Hmiss.
  destruct (before default_config request style (later 65) store1) as [[[p o] rq'] s'] eqn:E.
  cbn [fst snd] in Hmiss. destruct p as [| |state]; [discriminate..|].
  destruct o as [resp|]; [discriminate|].
  destruct (revalidation_request held default_config request style (later 65) store1 state rq' s' E)
    as (Hk & _).
  exists state, rq', s'. split; [reflexivity|]. split; [exact Hk|].
  by injection Hmiss.
Defined.

Lemma unsafe_method_invalidates_witness :
  held (after default_config Invalidate style (answer [] Empty) t0 store1).2 key = [].
Proof.
  destruct (after default_config Invalidate style (answer [] Empty) t0 store1) as [resp m'] eqn:E.
  destruct (unsafe_method_invalidates default_config style (answer [] Empty) t0 store1 resp m' key E)
    as (_ & _ & Hgone & _).
  apply Hgone; [vm_compute; reflexivity|]. left. reflexivity.
Defined.

Definition state1 : PendingInner :=
  mk_pending_inner key (rq_headers request) (cc_of_request (rq_headers request)) t0 None.

Definition secret : Response Body := answer [(b#"cache-control", b#"no-store")] css.

Lemma unstorable_response_dropped_witness :
  held (after default_config (Store state1) style secret t0 store1).2 key = [].
Proof.
  destruct (after default_config (Store state1) style secret t0 store1) as [resp m'] eqn:E.
  destruct (unstorable_response_dropped default_config state1 style secret t0 store1 resp m'
              NS_ResponseNoStore) as (_ & Hgone & _).
  - left. reflexivity.
  - reflexivity.
  - exact E.
  - apply Hgone. left. vm_compute. reflexivity.
Defined.

Definition state2 : PendingInner :=
  mk_pending_inner key (rq_headers request) (cc_of_request (rq_headers request)) (later 65) (Some entry1).

Definition not_modified : Response Body :=
  mk_response 304 HTTP_2 (fields_of [(b#"etag", b#"W/v1"); (b#"cache-control", b#"max-age=90")]) Empty None.

Lemma not_modified_serves_stored_witness :
  rs_status (after default_config (Store state2) style not_modified (later 66) store1).1 = 200.
Proof.
  destruct (after default_config (Store state2) style not_modified (later 66) store1) as [resp m'] eqn:E.
  destruct (not_modified_serves_stored default_config state2 entry1 style not_modified (later 66) store1
              resp m') as (Hst & _).
  - exact store1_ok.
  - vm_compute. reflexivity.
  - reflexivity.
  - reflexivity.
  - vm_compute. reflexivity.
  - vm_compute. reflexivity.
  - vm_compute. discriminate.
  - exact E.
  - exact Hst.
Defined.

Lemma cacheable_storable :
  storable default_config GET (rq_headers request) (cc_of_request (rq_headers request))
    (rs_status cacheable) (rs_headers cacheable) (cc_of (rs_headers cacheable)) =
  inl [b#"accept-language"].
Proof. vm_compute. reflexivity. Qed.

Lemma stored_then_served_witness :
  ∃ p m0 resp r len r' m1 p' resp' m2,
    before default_config request style t0 fresh_store = (p, None, request, m0) ∧
    after default_config p style cacheable t0 m0 = (resp, m0) ∧ rs_body resp = Recorded r len ∧
    read_recording 4 r m0 = (chunks css, None, true, r', m1) ∧
    before default_config request style (later 5) m1 = (p', Some resp', request, m2) ∧
    rs_status resp' = 200 ∧ rs_body resp' = Plain (fixed b#"a{color:red}").
Proof.
  apply (stored_then_served default_config request style cacheable t0 t0 (later 5) fresh_store
           [b#"accept-language"] 4).
  - exact fresh_store_ok.
  - vm_compute. reflexivity.
  - apply start_empty.
  - reflexivity.
  - vm_compute. reflexivity.
  - vm_compute. reflexivity.
  - vm_compute. reflexivity.
  - exact cacheable_storable.
  - reflexivity.
  - vm_compute. discriminate.
  - intros l Hl. discriminate.
  - vm_compute. discriminate.
  - vm_compute. reflexivity.
  - vm_compute. discriminate.
  - vm_compute. reflexivity.
  - vm_compute. repeat constructor.
Defined.

Definition start : System (S := MemoryStore) := mk_system fresh_store [] [].


(** ** Corner cases *)

Definition body_entry (n : nat) (sel : Selector) : CacheEntry :=
  mk_cache_entry 200 HTTP_2 (fields_of []) (replicate n "x"%char) sel t0 t0.

(** A record between seven eighths of a shard and the whole of it is accepted, and
    the purge it triggers then evicts it together with every other key. *)
Theorem large_put_flushes_the_shard :
  let k1 := mk_key GET b#"small" in
  let k2 := mk_key GET b#"large" in
  let m0 := with_limits (mk_memory_limits 2000 1) in
  let m1 := (memory_put k1 (body_entry 100 any_selector) m0).2 in
  let m2 := (memory_put k2 (body_entry 1500 any_selector) m1).2 in
  record_size k2 [body_entry 1500 any_selector] <= per_shard (memory_limits m1) ∧
  st_keys (stats m1) = 1 ∧ st_keys (stats m2) = 0 ∧ st_evictions (stats m2) = 2.
Proof. split_and!; vm_compute; (reflexivity || discriminate). Qed.

(** An entry that arrived through an intermediary keeps its old [Age] when the
    [304] carries none: revalidated at this very instant, it is still stale. *)
Theorem refresh_keeps_old_age :
  let stored := mk_cache_entry 200 HTTP_2
    (fields_of [(b#"cache-control", b#"max-age=60"); (b#"age", b#"100"); (b#"etag", b#"v1")])
    [] any_selector t0 t0 in
  let refreshed := refreshed stored (fields_of [(b#"etag", b#"v1")]) (later 500) (later 500) in
  current_age refreshed (later 500) = from_secs 100 ∧
  is_fresh refreshed (cc_of (headers refreshed)) default_config (later 500) = false.
Proof. split; vm_compute; reflexivity. Qed.

(** A response stored before the origin began to send [Vary] matches every request
    and comes first, so the newer variant for this very request is never selected. *)
Theorem older_variant_shadows_newer :
  let old := body_entry 1 any_selector in
  let new := body_entry 2 (selector_of [b#"accept-language"] (rq_headers request)) in
  let m := (memory_put key new (memory_put key old fresh_store).2).2 in
  selector_matches (selector new) (rq_headers request) = true ∧
  (λ e, zlen (body e)) <$> held m key = [1; 2] ∧
  (λ e, zlen (body e)) <$> (select key (rq_headers request) m).1 = Some 1.
Proof. split_and!; vm_compute; reflexivity. Qed.

(** Two-digit years 70 to 99 are always the last century, so a date the fifty-year
    rule reads as 2070 is read as the epoch. *)
Theorem two_digit_year_70_is_1970 :
  parse_http_date b#"Wednesday, 01-Jan-70 00:00:00 GMT" = Some UNIX_EPOCH.
Proof. vm_compute. reflexivity. Qed.
