(* ===== verification/Engine.v ===== *)
(** [chromulate-http]: the engine (src/crates/chromulate-http/src/engine.rs) - one
    logical request from its HSTS upgrade through a chain of hops, each between
    the cache's [before] and [after], with its route's session, the header engine,
    the wire, and what the response teaches.

    The network is the environment: what the connector, the pool, the deadlines
    and the origins answer is a class of operations over a world [W], which also
    keeps the time.  A request here runs by itself: requests sharing the stores
    interleave in [Session.step].  Tracing, timings and the concurrency permit are
    left out, and so is [finish], which decodes the body of the response this
    model ends with.  [st_sent] records what was handed to a connection; the code
    does not read it.  The deadline is part of the environment.  Validators (the
    [validator-store] feature) are left out. *)
From S2P Require Import Prelude RustStr RustTime Extern Body Message CoreError Pool Origin Hsts Redirect Fetch.
From S2P Require Import ClientHints HeaderOrdering HeaderEngine Session.
From S2P Require Import CachePolicy CacheStorage HttpCache.
Local Open Scope Z_scope.

(** ** What the engine is given *)

(** A request as it goes on the wire: its headers are in wire order. *)
Record WireRequest := mk_wire {
  w_method : Method;
  w_uri : str;
  w_version : Version;
  w_headers : list (str * str);
}.

(** The connector, the pool, the deadlines, the origins and the clock: [env_check]
    is [Deadline::check]; [env_route] the label of the exit a route uses;
    [env_acquire] a pooled or new connection; [env_send] one exchange on it;
    [env_frames] how many frames a redirect's body gives before its deadline. *)
Class Environment (W : Type) `{HeaderMapApi} := {
  clock : W → SystemTime;
  env_check : Phase → W → option Error * W;
  env_route : Origin → W → option str * W;
  env_acquire : option str → Origin → W → (Protocol + Error) * W;
  env_send : Protocol → WireRequest → Body → W → (Response Body + Error) * W;
  env_frames : W → nat * W;
}.

(** [CookieStore] (src/crates/chromulate-core/src/traits.rs). *)
Class CookieStore (J : Type) `{UrlApi} := {
  ck_cookies_for : J → Url → CookieContext → SystemTime → option str * J;
  ck_store : J → Url → list str → SystemTime → J;
}.

Definition ACCEPT_CH : str := b#"accept-ch".
Definition REDIRECT_DRAIN_LIMIT : Z := 64 * 1024.

Section Engine.
Context `{HeaderValueApi} `{HeaderMapApi} `{UrlEditApi} `{!UrlReferrer} `{!UriApi} `{Psl}.
Context {J SC W : Type} `{!CookieStore J} `{!CacheStorage SC} `{!Environment W}.
Context (preload_covers : str → bool).

Record EngineConfig := mk_engine_config {
  cfg_redirect : RedirectPolicy;
  cfg_headers : HeaderEngine;
  cfg_cache : CacheConfig;
}.

Record Sent := mk_sent { sent_url : Url; sent_exit : option str; sent_wire : WireRequest }.

Record State := mk_state {
  st_hsts : HstsStore;
  st_accept_ch_used : bool;
  st_sessions : Sessions J;
  st_cache : option SC;
  st_world : W;
  st_sent : list Sent;
}.

Definition set_hsts (h : HstsStore) (s : State) : State :=
  mk_state h (st_accept_ch_used s) (st_sessions s) (st_cache s) (st_world s) (st_sent s).
Definition set_sessions (x : Sessions J) (s : State) : State :=
  mk_state (st_hsts s) (st_accept_ch_used s) x (st_cache s) (st_world s) (st_sent s).
Definition set_accept_ch_used (s : State) : State :=
  mk_state (st_hsts s) true (st_sessions s) (st_cache s) (st_world s) (st_sent s).
Definition set_cache (c : option SC) (s : State) : State :=
  mk_state (st_hsts s) (st_accept_ch_used s) (st_sessions s) c (st_world s) (st_sent s).
Definition set_world (w : W) (s : State) : State :=
  mk_state (st_hsts s) (st_accept_ch_used s) (st_sessions s) (st_cache s) w (st_sent s).
Definition log_sent (x : Sent) (s : State) : State :=
  mk_state (st_hsts s) (st_accept_ch_used s) (st_sessions s) (st_cache s) (st_world s) (st_sent s ++ [x]).

(** The session a handle names. *)
Definition session_at (sid : nat) (s : State) : option (Session J) := arena (st_sessions s) !! sid.
Definition edit_at (sid : nat) (f : Session J → Session J) (s : State) : State :=
  set_sessions (edit_session sid f (st_sessions s)) s.

(** ** Requests and URLs *)

Definition with_version (v : Version) (r : Request) : Request :=
  mk_request (rq_method r) (rq_uri r) v (rq_headers r) (rq_user_activated r).

Definition url_of (uri : str) : Url + Error :=
  match uri_scheme uri with
  | None => inr InvalidUrl
  | Some _ => match url_parse uri with Some url => inl url | None => inr InvalidUrl end
  end.

Definition outgoing_request (request : Request) (protocol : Protocol) (ordered : list (str * str)) : WireRequest :=
  let uri :=
    match protocol with
    | Http11 => default b#"/" (path_and_query (rq_uri request))
    | Http2 => rq_uri request
    end in
  mk_wire (rq_method request) uri (protocol_version protocol) ordered.

(** [rebuild] of the whole request; its headers are [Redirect.rebuild]. *)
Definition rebuild_request (previous : Request) (hop : Redirect.Hop) : Request + Error :=
  match uri_parse (as_str (hop_url hop)) with
  | None => inr Redirect
  | Some uri =>
      inl (mk_request (hop_method hop) uri (rq_version previous) (rebuild (rq_headers previous) hop)
             (rq_user_activated previous))
  end.

(** ** HSTS and what a response teaches *)

Definition apply_hsts (url : Url) (s : State) : Url :=
  if negb (bool_decide (scheme url = b#"http")) then url
  else (upgrade preload_covers (st_hsts s) url (clock (st_world s))).2.

Definition learn_cookies (sid : nat) (url : Url) (response : Response Body) (s : State) : State :=
  edit_at sid (λ ses,
    match ses_cookies ses with
    | Some jar =>
        mk_session (Some (ck_store jar url (hm_get_all (rs_headers response) SET_COOKIE) (clock (st_world s))))
          (ses_accept_ch ses)
    | None => ses
    end) s.

Definition learn_hsts (url : Url) (response : Response Body) (s : State) : State :=
  match (policy ← hm_get (rs_headers response) STRICT_TRANSPORT_SECURITY;
         value ← to_str policy; host ← host_str url; Some (host, value)) with
  | Some (host, value) =>
      set_hsts (Hsts.record (st_hsts s) host value (bool_decide (scheme url = b#"https")) (clock (st_world s))) s
  | None => s
  end.

Definition learn_accept_ch (sid : nat) (url : Url) (response : Response Body) (s : State) : State :=
  match (header ← hm_get (rs_headers response) ACCEPT_CH;
         value ← to_str header;
         match origin_of url with inl origin => Some (origin, value) | inr _ => None end) with
  | Some (origin, value) => set_accept_ch_used (edit_at sid (record_accept_ch origin value) s)
  | None => s
  end.

Definition record_response (sid : nat) (url : Url) (response : Response Body) (s : State) : State :=
  learn_accept_ch sid url response (learn_hsts url response (learn_cookies sid url response s)).

(** ** The headers of one hop *)

(** The jar's answer, unless the caller set a [Cookie] of its own; looking up marks
    the cookies used. *)
Definition jar_answer (sid : nat) (request : Request) (url : Url) (options : RequestOptions) (s : State)
    : option str * State :=
  match ses ← session_at sid s; ses_cookies ses with
  | Some jar =>
      if hm_contains_key (rq_headers request) COOKIE then (None, s)
      else
        let '(value, jar) := ck_cookies_for jar url (cookie_context options) (clock (st_world s)) in
        (value, edit_at sid (λ ses, mk_session (Some jar) (ses_accept_ch ses)) s)
  | None => (None, s)
  end.

Definition apply_headers (e : HeaderEngine) (sid : nat) (request : Request) (url : Url)
    (options : RequestOptions) (s : State) : Request * State * (list (str * str) + Error) :=
  let '(cookie, s) := jar_answer sid request url options s in
  let request :=
    match cookie with
    | Some value => with_headers (hm_insert COOKIE value (rq_headers request)) request
    | None => request
    end in
  let '(request, s, ordered) :=
    if st_accept_ch_used s then
      match session_at sid s with
      | Some ses =>
          let '(request, store, ordered) := apply e request url options (ses_accept_ch ses) in
          (request, edit_at sid (λ ses, mk_session (ses_cookies ses) store) s, ordered)
      | None => (request, s, inr Config)
      end
    else
      let '(request, _, ordered) := apply e request url options new_accept_ch in (request, s, ordered) in
  let request :=
    match cookie with
    | Some _ => with_headers (hm_remove COOKIE (rq_headers request)) request
    | None => request
    end in
  (request, s, ordered).

(** ** One hop *)

Definition hop (e : HeaderEngine) (request : Request) (body : Body) (url : Url) (options : RequestOptions)
    (exit : option str) (s : State) : Request * option str * State * (Response Body + Error) :=
  let '(checked, w) := env_check Connecting (st_world s) in
  let s := set_world w s in
  match checked with
  | Some err => (request, exit, s, inr err)
  | None =>
      match origin_of url with
      | inr _ => (request, exit, s, inr InvalidUrl)
      | inl origin =>
          let '(label, w) := env_route origin (st_world s) in
          let s := set_world w s in
          let '(sid, sessions) := for_route label (st_sessions s) in
          let s := set_sessions sessions s in
          let '(acquired, w) := env_acquire label origin (st_world s) in
          let s := set_world w s in
          match acquired with
          | inr err => (request, label, s, inr err)
          | inl protocol =>
              let request := with_version (protocol_version protocol) request in
              let '(request, s, ordered) := apply_headers e sid request url options s in
              match ordered with
              | inr err => (request, label, s, inr err)
              | inl ordered =>
                  let wire := outgoing_request request protocol ordered in
                  let s := log_sent (mk_sent url label wire) s in
                  let '(answer, w) := env_send protocol wire body (st_world s) in
                  let s := set_world w s in
                  match answer with
                  | inr err => (request, label, s, inr err)
                  | inl response => (request, label, record_response sid url response s, inl response)
                  end
              end
          end
      end
  end.

(** ** Around a hop *)

Definition cache_before (config : CacheConfig) (request : Request) (url : Url) (s : State)
    : PendingKind * option (Response CacheBody) * Request * State :=
  match st_cache s with
  | Some cache =>
      let '(pending, hit, request, cache) := before config request url (clock (st_world s)) cache in
      (pending, hit, request, set_cache (Some cache) s)
  | None => (Aside, None, request, s)
  end.

Definition cache_after (config : CacheConfig) (pending : PendingKind) (url : Url) (response : Response Body)
    (s : State) : Response CacheBody * State :=
  match st_cache s with
  | Some cache =>
      let '(response, cache) := after config pending url response (clock (st_world s)) cache in
      (response, set_cache (Some cache) s)
  | None => (plain response, s)
  end.

(** The drain of a redirect's body, [collect(REDIRECT_DRAIN_LIMIT)]: reading a body
    the cache records may store it. *)
Fixpoint drain_recording (frames : nat) (total : Z) (r : Recording) (c : SC) : SC :=
  match frames with
  | O => c
  | S frames =>
      match recording_poll (S (polls_left (rec_inner r))) r c with
      | Some (Ready (Some (inl chunk)), r, c) =>
          let total := total + zlen chunk in
          if REDIRECT_DRAIN_LIMIT <? total then c else drain_recording frames total r c
      | Some (Pending, r, c) => drain_recording frames total r c
      | Some (Ready _, _, c) => c
      | None => c
      end
  end.

Definition drain (b : CacheBody) (s : State) : State :=
  let '(frames, w) := env_frames (st_world s) in
  let s := set_world w s in
  match b, st_cache s with
  | Recorded r _, Some cache => set_cache (Some (drain_recording frames 0 r cache)) s
  | _, _ => s
  end.

(** ** The chain *)

(** What [run] ends with, before [finish]: the response and the URL that produced
    it, or the error; with it the redirects followed and the last exit. *)
Record Run := mk_run {
  run_result : (Response CacheBody * Url) + Error;
  run_chain : list (Url * StatusCode);
  run_exit : option str;
  run_state : State;
}.

(** The response of one hop, from the cache or from the origin. *)
Definition exchange (config : EngineConfig) (request : Request) (body : Body) (url : Url)
    (options : RequestOptions) (exit : option str) (s : State)
    : Request * option str * State * (Response CacheBody + Error) :=
  let '(pending, cached, request, s) := cache_before (cfg_cache config) request url s in
  match cached with
  | Some hit => (request, exit, s, inl hit)
  | None =>
      let '(request, exit, s, answer) := hop (cfg_headers config) request body url options exit s in
      match answer with
      | inr err => (request, exit, s, inr err)
      | inl response =>
          let '(response, s) := cache_after (cfg_cache config) pending url response s in
          (request, exit, s, inl response)
      end
  end.

Fixpoint run_loop (fuel : nat) (config : EngineConfig) (options : RequestOptions) (limit : option Z)
    (request : Request) (body : Body) (url : Url) (chain : list (Url * StatusCode)) (exit : option str)
    (s : State) : option Run :=
  match fuel with
  | O => None
  | S fuel =>
      let hops := zlen chain in
      let spare := try_clone body in
      let '(request, exit, s, answer) := exchange config request body url options exit s in
      match answer with
      | inr err => Some (mk_run (inr err) chain exit s)
      | inl response =>
          match decide_redirect (rs_status response) (rs_headers response) url (rq_method request) limit hops with
          | inr err => Some (mk_run (inr err) chain exit s)
          | inl Stop => Some (mk_run (inl (response, url)) chain exit s)
          | inl (FollowHop next) =>
              let status := rs_status response in
              let s := drain (rs_body response) s in
              match (if drop_body next then Some empty_body else spare) with
              | None => Some (mk_run (inr Redirect) chain exit s)
              | Some body =>
                  match rebuild_request request next with
                  | inr err => Some (mk_run (inr err) chain exit s)
                  | inl request =>
                      run_loop fuel config options limit request body (hop_url next)
                        (chain ++ [(url, status)]) exit s
                  end
              end
          end
      end
  end.

Definition limit_of (config : EngineConfig) (options : RequestOptions) : option Z :=
  redirect_limit (effective_policy (opt_redirect options) (cfg_redirect config)).

(** A chain follows at most [limit] redirects, so this much is enough. *)
Definition run_fuel (limit : option Z) : nat := S (Z.to_nat (default 0 limit)).

(** [Engine::run]; [parsed] is the [RequestUrl] a caller may have attached. *)
Definition run (config : EngineConfig) (options : RequestOptions) (parsed : option Url) (request : Request)
    (body : Body) (s : State) : option Run :=
  match (match parsed with Some url => inl url | None => url_of (rq_uri request) end) with
  | inr err => Some (mk_run (inr err) [] None s)
  | inl url =>
      let url := apply_hsts url s in
      let limit := limit_of config options in
      run_loop (run_fuel limit) config options limit request body url [] None s
  end.
End Engine.
Arguments State {_} J SC W.
Arguments Run {_ _} J SC W.
