(* ===== verification/Facade.v ===== *)
(** [chromulate]: the client callers hold (src/crates/chromulate/src/client.rs), the
    builder of one request (request.rs) and the response it gives (response.rs).

    Other crates' code is an argument: [Url]'s query serializer, base64, the character
    decoders, and what [serde] made of a body.  So is what builds a TLS backend from
    a profile (TlsEngine) and what a caller plugs in - resolver, provider, middleware,
    controller - of which only the presence matters here.  A jar is shared by handle
    with the sessions of the engine it was given to; the copy in [Session.arena] is
    that jar.  [HeaderValue]'s sensitivity mark, which only hides it from logs, is
    left out. *)
From S2P Require Import Prelude RustStr RustTime Extern Body EarlyStop Message CoreError Redirect Fetch.
From S2P Require Multipart Proxy Pool Connect Compression Challenge.
From S2P Require Import Profile Session Retry.
Local Open Scope Z_scope.

(** ** Building one request (request.rs) *)

Section Requests.
Context `{HeaderMapApi} `{HeaderValueApi} `{UrlApi} `{!UriApi} `{!QueryApi}.
Context (base64_encode : str → str).

Record Parts := mk_parts {
  pt_method : Method;
  pt_url : Url;
  pt_headers : HeaderMap;
  pt_body : Body;
  pt_options : RequestOptions;
}.

Definition RequestBuilder : Type := Parts + Error.

Definition parse_target (url : str) : Url + Error :=
  match url_parse url with
  | None => inr InvalidUrl
  | Some url =>
      if decide (scheme url = b#"http" ∨ scheme url = b#"https") then inl url else inr UnsupportedScheme
  end.

(** [RequestBuilder::new]. *)
Definition new_request (method : Method) (url : str) : RequestBuilder :=
  match parse_target url with
  | inr error => inr error
  | inl url => inl (mk_parts method url hm_empty Body.Empty api)
  end.

(** [RequestBuilder::with]. *)
Definition with_parts (apply : Parts → Parts + Error) (b : RequestBuilder) : RequestBuilder :=
  match b with inl parts => apply parts | inr error => inr error end.

Definition insert_header (name value : str) (p : Parts) : Parts :=
  mk_parts (pt_method p) (pt_url p) (hm_insert name value (pt_headers p)) (pt_body p) (pt_options p).
Definition set_url (url : Url) (p : Parts) : Parts :=
  mk_parts (pt_method p) url (pt_headers p) (pt_body p) (pt_options p).
Definition set_body (body : Body) (p : Parts) : Parts :=
  mk_parts (pt_method p) (pt_url p) (pt_headers p) body (pt_options p).
Definition set_options (o : RequestOptions) (p : Parts) : Parts :=
  mk_parts (pt_method p) (pt_url p) (pt_headers p) (pt_body p) o.

(** A name and value as the crate's conversions take them. *)
Definition checked_header (name value : str) : (str * str) + Error :=
  match header_name name with
  | None => inr Builder
  | Some name => match from_str value with None => inr Builder | Some value => inl (name, value) end
  end.

Definition header (name value : str) : RequestBuilder → RequestBuilder :=
  with_parts (λ p,
    match checked_header name value with
    | inr error => inr error
    | inl (name, value) => inl (insert_header name value p)
    end).

Definition sensitive_header (name value : str) : RequestBuilder → RequestBuilder :=
  with_parts (λ p,
    match from_str value with None => inr Builder | Some value => inl (insert_header name value p) end).

Definition basic_value (username : str) (password : option str) : str :=
  b#"Basic " ++ base64_encode (username ++ b#":" ++ default [] password).
Definition bearer_value (token : str) : str := b#"Bearer " ++ token.

Definition basic_auth (username : str) (password : option str) : RequestBuilder → RequestBuilder :=
  sensitive_header AUTHORIZATION (basic_value username password).
Definition bearer_auth (token : str) : RequestBuilder → RequestBuilder :=
  sensitive_header AUTHORIZATION (bearer_value token).

Definition insert_all (lines : list (str * str)) (h : HeaderMap) : HeaderMap :=
  foldl (λ h kv, hm_insert kv.1 kv.2 h) h lines.

(** [RequestBuilder::headers]. *)
Definition request_headers (h : HeaderMap) : RequestBuilder → RequestBuilder :=
  with_parts (λ p, inl (mk_parts (pt_method p) (pt_url p) (insert_all (hm_iter h) (pt_headers p))
                          (pt_body p) (pt_options p))).

(** The serializer is opened and dropped whether or not there is a parameter. *)
Definition append_pairs (params : list (str * str)) (url : Url) : Url :=
  drop_pairs (foldl (λ pairs kv, append_pair kv.1 kv.2 pairs) (query_pairs_mut url) params).

Definition query (params : list (str * str)) : RequestBuilder → RequestBuilder :=
  with_parts (λ p, inl (set_url (append_pairs params (pt_url p)) p)).

(** [RequestBuilder::body]. *)
Definition request_body (body : Body) : RequestBuilder → RequestBuilder :=
  with_parts (λ p, inl (set_body body p)).

Definition encoded_body (content_type : str) (encoded : option bytes) : RequestBuilder → RequestBuilder :=
  with_parts (λ p,
    match encoded with
    | None => inr Builder
    | Some encoded => inl (set_body (fixed encoded) (insert_header CONTENT_TYPE content_type p))
    end).

(** [encoded] is what the serializer gave, [None] when it refused. *)
Definition json (encoded : option bytes) : RequestBuilder → RequestBuilder :=
  encoded_body b#"application/json" encoded.
Definition form (encoded : option str) : RequestBuilder → RequestBuilder :=
  encoded_body b#"application/x-www-form-urlencoded" encoded.

(** [Form::into_body] as [Multipart.encode_with] gives it. *)
Definition multipart (encoded : (str * Multipart.FormStream * option Z) + str) : RequestBuilder → RequestBuilder :=
  with_parts (λ p,
    match encoded with
    | inr _ => inr Builder
    | inl (content_type, stream, length) =>
        inl (set_body (Stream (Multipart.form_stream stream) length) (insert_header CONTENT_TYPE content_type p))
    end).

Definition timeout (limit : Duration) : RequestBuilder → RequestBuilder :=
  with_parts (λ p,
    let o := pt_options p in
    inl (set_options (mk_options (Some limit) (opt_head_timeout o) (opt_redirect o) (opt_mode o) (opt_dest o)
                        (opt_initiator o) (opt_referrer o) (preserve_caller_headers o)) p)).

Definition fetch_context (o : RequestOptions) : RequestBuilder → RequestBuilder :=
  with_parts (λ p, inl (set_options o p)).

(** [RequestBuilder::redirect]. *)
Definition request_redirect (policy : RedirectPolicy) : RequestBuilder → RequestBuilder :=
  with_parts (λ p,
    let o := pt_options p in
    inl (set_options (mk_options (opt_timeout o) (opt_head_timeout o) policy (opt_mode o) (opt_dest o)
                        (opt_initiator o) (opt_referrer o) (preserve_caller_headers o)) p)).

(** A request with the extensions the engine takes from it. *)
Record Built := mk_built {
  bt_request : Request;
  bt_body : Body;
  bt_options : RequestOptions;
  bt_url : Url;
}.

Definition build_with_url (default_headers : HeaderMap) (b : RequestBuilder) : Built + Error :=
  match b with
  | inr error => inr error
  | inl p =>
      match uri_parse (as_str (pt_url p)) with
      | None => inr Builder
      | Some uri =>
          let headers := insert_all (hm_iter default_headers) hm_empty in
          let headers := insert_all (hm_iter (pt_headers p)) headers in
          inl (mk_built (mk_request (pt_method p) uri HTTP_11 headers false) (pt_body p) (pt_options p) (pt_url p))
      end
  end.

(** A call on the builder, for the statements about sequences of them. *)
Inductive BuilderCall :=
  | OnHeader (name value : str)
  | OnBasicAuth (username : str) (password : option str)
  | OnBearerAuth (token : str)
  | OnHeaders (h : HeaderMap)
  | OnQuery (params : list (str * str))
  | OnBody (body : Body)
  | OnJson (encoded : option bytes)
  | OnForm (encoded : option str)
  | OnMultipart (encoded : (str * Multipart.FormStream * option Z) + str)
  | OnTimeout (limit : Duration)
  | OnFetchContext (o : RequestOptions)
  | OnRedirect (policy : RedirectPolicy).

Definition perform (b : RequestBuilder) (c : BuilderCall) : RequestBuilder :=
  match c with
  | OnHeader name value => header name value b
  | OnBasicAuth username password => basic_auth username password b
  | OnBearerAuth token => bearer_auth token b
  | OnHeaders h => request_headers h b
  | OnQuery params => query params b
  | OnBody body => request_body body b
  | OnJson encoded => json encoded b
  | OnForm encoded => form encoded b
  | OnMultipart encoded => multipart encoded b
  | OnTimeout limit => timeout limit b
  | OnFetchContext o => fetch_context o b
  | OnRedirect policy => request_redirect policy b
  end.

Definition request_of (default_headers : HeaderMap) (method : Method) (url : str) (calls : list BuilderCall)
    : Built + Error :=
  build_with_url default_headers (foldl perform (new_request method url) calls).
End Requests.
Arguments Built {_ _}.
Arguments Parts {_ _}.
Arguments RequestBuilder {_ _}.
Arguments BuilderCall {_ _}.

(** ** What a sequence of calls builds *)

Section Request_spec.
Context `{HeaderMapLaws} `{HeaderValueApi} `{UrlApi} `{!UriApi} `{!QueryApi}.
Context (base64_encode : str → str).

Definition checked (o : option str) : option Error := match o with Some _ => None | None => Some Builder end.

(** What is wrong with one call, whatever came before it. *)
Definition call_error (c : BuilderCall) : option Error :=
  match c with
  | OnHeader name value => match checked_header name value with inl _ => None | inr error => Some error end
  | OnBasicAuth username password => checked (from_str (basic_value base64_encode username password))
  | OnBearerAuth token => checked (from_str (bearer_value token))
  | OnJson encoded | OnForm encoded => checked encoded
  | OnMultipart encoded => match encoded with inl _ => None | inr _ => Some Builder end
  | _ => None
  end.

(** The header lines one call writes, in order. *)
Definition written (c : BuilderCall) : list (str * str) :=
  match c with
  | OnHeader name value => match checked_header name value with inl line => [line] | inr _ => [] end
  | OnBasicAuth username password =>
      pair AUTHORIZATION <$> option_list (from_str (basic_value base64_encode username password))
  | OnBearerAuth token => pair AUTHORIZATION <$> option_list (from_str (bearer_value token))
  | OnHeaders h => hm_iter h
  | OnJson _ => [(CONTENT_TYPE, b#"application/json")]
  | OnForm _ => [(CONTENT_TYPE, b#"application/x-www-form-urlencoded")]
  | OnMultipart (inl (content_type, _, _)) => [(CONTENT_TYPE, content_type)]
  | _ => []
  end.

Definition url_after (url : Url) (c : BuilderCall) : Url :=
  match c with OnQuery params => append_pairs params url | _ => url end.

Definition body_after (body : Body) (c : BuilderCall) : Body :=
  match c with
  | OnBody body => body
  | OnJson (Some encoded) | OnForm (Some encoded) => fixed encoded
  | OnMultipart (inl (_, stream, length)) => Stream (Multipart.form_stream stream) length
  | _ => body
  end.

(** The options a call leaves: a fetch context replaces them all. *)
Definition options_after (o : RequestOptions) (c : BuilderCall) : RequestOptions :=
  match c with
  | OnTimeout limit =>
      mk_options (Some limit) (opt_head_timeout o) (opt_redirect o) (opt_mode o) (opt_dest o)
        (opt_initiator o) (opt_referrer o) (preserve_caller_headers o)
  | OnFetchContext o => o
  | OnRedirect policy =>
      mk_options (opt_timeout o) (opt_head_timeout o) policy (opt_mode o) (opt_dest o)
        (opt_initiator o) (opt_referrer o) (preserve_caller_headers o)
  | _ => o
  end.

(** What is wrong with a request: its URL first, then its calls in order, then the
    URI its URL was turned into. *)
Definition request_error (url : str) (calls : list BuilderCall) : option Error :=
  match parse_target url with
  | inr error => Some error
  | inl url =>
      match list.head (omap call_error calls) with
      | Some error => Some error
      | None => checked (uri_parse (as_str (foldl url_after url calls)))
      end
  end.

Lemma insert_all_lines l h n :
  hm_get_all (insert_all l h) n = match last (lines_of n l) with Some v => [v] | None => hm_get_all h n end.
Proof.
  unfold insert_all. induction l as [|[k v] l IH] using rev_ind; [done|].
  rewrite foldl_snoc, get_all_insert, lines_of_app, last_app, IH, lines_of_cons. cbn [fst snd].
  by case_decide.
Qed.

Lemma last_get_all_iter h n : last (lines_of n (hm_iter h)) = last (hm_get_all h n).
Proof. by rewrite <- get_all_iter. Qed.

(** What a builder holds once [calls] went through without an error. *)
Definition parts_after (method : Method) (url : Url) (calls : list BuilderCall) (p : Parts) : Prop :=
  pt_method p = method ∧ pt_url p = foldl url_after url calls ∧
  pt_body p = foldl body_after Body.Empty calls ∧ pt_options p = foldl options_after api calls ∧
  ∀ n, hm_get_all (pt_headers p) n = option_list (last (lines_of n (calls ≫= written))).

Lemma insert_all_keeps_last n h before l :
  hm_get_all h n = option_list (last (lines_of n before)) →
  hm_get_all (insert_all l h) n = option_list (last (lines_of n (before ++ l))).
Proof.
  intros Hh. rewrite insert_all_lines, lines_of_app, last_app, Hh. by destruct (last (lines_of n l)).
Qed.

Lemma perform_after method url calls c p :
  parts_after method url calls p →
  match perform base64_encode (inl p) c with
  | inl p' => call_error c = None ∧ parts_after method url (calls ++ [c]) p'
  | inr error => call_error c = Some error
  end.
Proof.
  intros (Hm & Hu & Hb & Ho & Hh). unfold parts_after. rewrite !foldl_snoc, bind_app, <- Hu, <- Hb, <- Ho.
  assert (Hins : ∀ l n, hm_get_all (insert_all l (pt_headers p)) n =
                        option_list (last (lines_of n ((calls ≫= written) ++ l ++ [])))).
  { intros l n. rewrite app_nil_r. by apply insert_all_keeps_last. }
  assert (Hsame : ∀ n, hm_get_all (pt_headers p) n = option_list (last (lines_of n ((calls ≫= written) ++ [] ++ []))))
    by apply (Hins []).
  destruct c as [name value|username password|token|h|params|body|encoded|encoded|encoded|limit|o|policy];
    cbn [perform]; unfold header, basic_auth, bearer_auth, sensitive_header, request_headers, query, request_body,
      json, form, encoded_body, multipart, timeout, fetch_context, request_redirect, with_parts;
    cbn [mbind list_bind written call_error url_after body_after options_after].
  all: try (split; [done|]; split_and!; [done..|exact Hsame]).
  - destruct (checked_header name value) as [[k v]|error]; [|done].
    split; [done|]. split_and!; [done..|exact (Hins [(k, v)])].
  - destruct (from_str _) as [v|]; [|done]. split; [done|]. split_and!; [done..|exact (Hins [(AUTHORIZATION, v)])].
  - destruct (from_str _) as [v|]; [|done]. split; [done|]. split_and!; [done..|exact (Hins [(AUTHORIZATION, v)])].
  - split; [done|]. split_and!; [done..|exact (Hins (hm_iter h))].
  - destruct encoded as [b|]; [|done]. split; [done|].
    split_and!; [done..|exact (Hins [(CONTENT_TYPE, b#"application/json")])].
  - destruct encoded as [b|]; [|done]. split; [done|].
    split_and!; [done..|exact (Hins [(CONTENT_TYPE, b#"application/x-www-form-urlencoded")])].
  - destruct encoded as [[[v stream] length]|e]; [|done]. split; [done|].
    split_and!; [done..|exact (Hins [(CONTENT_TYPE, v)])].
Qed.

(** An error stays: the calls after the first that failed change nothing. *)
Lemma error_sticks calls error :
  foldl (perform base64_encode) (inr error) calls = inr error.
Proof. by induction calls as [|[] calls IH]. Qed.

Lemma performs_after method url calls done_ p :
  parts_after method url done_ p →
  match foldl (perform base64_encode) (inl p) calls with
  | inl p' => list.head (omap call_error calls) = None ∧ parts_after method url (done_ ++ calls) p'
  | inr error => list.head (omap call_error calls) = Some error
  end.
Proof.
  revert done_ p. induction calls as [|c calls IH]; intros done_ p Hp.
  { by rewrite app_nil_r. }
  pose proof (perform_after method url done_ c p Hp) as Hc. cbn [foldl omap list_omap].
  destruct (perform _ (inl p) c) as [p'|error].
  - destruct Hc as [-> Hp']. rewrite cons_middle, app_assoc. by apply IH.
  - rewrite error_sticks. by rewrite Hc.
Qed.

(** C4. What a request is built of.  Building fails with the first thing that is wrong -
    the URL, then each call in the order it was made, then the URI - and nothing after
    the first failure is looked at.  Otherwise the request is the method's, to the URL
    the query calls leave - each opens the URL's query, even for no parameters, and
    appends its parameters in order - with the body and the options the calls leave, and every header of the client's defaults and of the calls exactly
    once, with the value that was written last, the calls after the defaults. *)
Theorem request_exact defaults method url calls :
  match request_of base64_encode defaults method url calls with
  | inr error => request_error url calls = Some error
  | inl built =>
      request_error url calls = None ∧
      ∃ target, parse_target url = inl target ∧ bt_url built = foldl url_after target calls ∧
        uri_parse (as_str (bt_url built)) = Some (rq_uri (bt_request built)) ∧
        rq_method (bt_request built) = method ∧
        bt_body built = foldl body_after Body.Empty calls ∧ bt_options built = foldl options_after api calls ∧
        ∀ n, hm_get_all (rq_headers (bt_request built)) n =
             option_list (last (hm_get_all defaults n ++ lines_of n (calls ≫= written)))
  end.
Proof.
  unfold request_of, new_request, request_error.
  destruct (parse_target url) as [target|error]; [|by rewrite error_sticks].
  assert (Hnew : parts_after method target [] (mk_parts method target hm_empty Body.Empty api))
    by (split_and!; [done..|intros n; apply get_all_empty]).
  pose proof (performs_after method target calls [] _ Hnew) as Hp.
  destruct (foldl _ _ calls) as [p|error]; [|by rewrite Hp].
  destruct Hp as [Hn (Hm & Hu & Hb & Ho & Hh)]. rewrite app_nil_l in *. rewrite Hn. cbn [build_with_url].
  rewrite <- Hu. destruct (uri_parse (as_str (pt_url p))) as [uri|] eqn:Huri; [|done].
  split; [done|]. exists target. split_and!; [done..|].
  intros n. cbn [rq_headers bt_request]. rewrite !insert_all_lines, get_all_empty, !last_get_all_iter, Hh, last_app.
  by destruct (last (lines_of n _)), (last (hm_get_all defaults n)).
Qed.
End Request_spec.

(** ** Reading a response (response.rs) *)

Definition is_success (status : StatusCode) : bool := (200 <=? status) && (status <? 300).

(** The loop of [charset_parameter] over the parameters. *)
Fixpoint find_charset (parameters : list str) : option str :=
  match parameters with
  | [] => None
  | parameter :: rest =>
      '(name, value) ← split_once "="%char parameter;
      if eq_ignore_ascii_case (trim name) b#"charset" then Some (trim_matches "034"%char (trim value))
      else find_charset rest
  end.

Definition charset_parameter (content_type : str) : option str :=
  find_charset (drop 1 (split_by (is_char ";"%char) content_type)).

(** [Frames::poll_next] of [chunks_of]; only a trailers frame makes it loop. *)
Fixpoint chunks_poll (fuel : nat) (b : Body) : option (Poll (option (bytes + BodyError)) * Body) :=
  match fuel with
  | O => None
  | S fuel =>
      let '(answer, b) := poll_frame b in
      match answer with
      | Pending => Some (Pending, b)
      | Ready None => Some (Ready None, b)
      | Ready (Some (inr error)) => Some (Ready (Some (inr error)), b)
      | Ready (Some (inl (Data chunk))) => Some (Ready (Some (inl chunk)), b)
      | Ready (Some (inl Trailers)) => chunks_poll fuel b
      end
  end.

Inductive ReadError := ReadFailed (error : BodyError) | NotJson.

Section Responses.
Context `{HeaderMapApi} `{HeaderValueApi} `{UrlApi}.
(** [encoding_rs]: looking an encoding up by its label, UTF-8, and decoding, which
    follows a byte-order mark. *)
Context {E : Type} (for_label : str → option E) (UTF_8 : E) (decode : E → bytes → str).

(** [ResponseInfo], the extension the engine leaves on a response. *)
Record EngineInfo := mk_engine_info {
  ei_url : Url;
  ei_timings : Connect.Timings;
  ei_hops : option (list Challenge.Hop);
  ei_exit : option str;
}.

(** [Response]. *)
Record ClientResponse := mk_client_response {
  cr_inner : Message.Response Body;
  cr_url : Url;
  cr_timings : option Connect.Timings;
  cr_hops : option (list Challenge.Hop);
  cr_exit : option str;
  max_size : Z;
}.

(** [Response::new]. *)
Definition new_response (inner : Message.Response Body) (info : option EngineInfo) (requested : Url) (limit : Z)
    : ClientResponse :=
  match info with
  | Some info => mk_client_response inner (ei_url info) (Some (ei_timings info)) (ei_hops info) (ei_exit info) limit
  | None => mk_client_response inner requested None None None limit
  end.

Definition error_for_status (r : ClientResponse) : ClientResponse + Error :=
  if is_success (rs_status (cr_inner r)) then inl r else inr CoreError.Protocol.

(** [Response::bytes]. *)
Definition read_bytes (r : ClientResponse) : bytes + ReadError :=
  match collect (rs_body (cr_inner r)) (max_size r) with
  | inl b => inl b
  | inr error => inr (ReadFailed error)
  end.

Definition bytes_until {P} (call : P → bytes → bool * P) (stop : EarlyStop.Stop) (r : ClientResponse)
    : option (Prefix + BodyError) :=
  let limit := max_size r in
  let stop :=
    match budget stop with
    | Some n => if n <=? limit then stop else within stop limit
    | None => within stop limit
    end in
  read call stop (rs_body (cr_inner r)).

Definition charset_of (h : HeaderMap) : E :=
  default UTF_8 (value ← hm_get h CONTENT_TYPE; text ← to_str value; label ← charset_parameter text; for_label label).

Definition text (r : ClientResponse) : str + ReadError :=
  match read_bytes r with
  | inl b => inl (decode (charset_of (rs_headers (cr_inner r))) b)
  | inr error => inr error
  end.

(** [Response::json], where [parse] is what the caller's type reads. *)
Definition read_json {T} (parse : bytes → option T) (r : ClientResponse) : T + ReadError :=
  match read_bytes r with
  | inl b => match parse b with Some value => inl value | None => inr NotJson end
  | inr error => inr error
  end.

(** What a reader that stops at the first error gets in [n] polls. *)
Fixpoint drained (n : nat) (b : Body) : list (bytes + BodyError) :=
  match n with
  | O => []
  | S n =>
      match chunks_poll 1 b with
      | Some (Ready (Some (inl chunk)), b) => inl chunk :: drained n b
      | Some (Ready (Some (inr error)), _) => [inr error]
      | Some (Pending, b) => drained n b
      | _ => []
      end
  end.

(** Reading up to a condition stays within the client's ceiling: whatever the
    condition - caller's code with a state of its own included - and however the body
    is cut, the read ends, and what it returns is a prefix of the body no longer than
    the ceiling and than the caller's own budget.  A prefix that calls itself complete
    is the whole body, read to a clean end, and the only error is the body's own: a
    body too large is never one. *)
Theorem bytes_until_bounded {P} (call : P → bytes → bool * P) stop r :
  0 <= max_size r → (∀ n, budget stop = Some n → 0 <= n) →
  ∃ answer, bytes_until call stop r = Some answer ∧
    match answer with
    | inl p =>
        let data := mjoin (chunks (rs_body (cr_inner r))) in
        pf_bytes p `prefix_of` data ∧ zlen (pf_bytes p) <= max_size r ∧
        (∀ n, budget stop = Some n → zlen (pf_bytes p) <= n) ∧
        (pf_complete p = true → pf_bytes p = data ∧ body_error (rs_body (cr_inner r)) = None)
    | inr error => body_error (rs_body (cr_inner r)) = Some error
    end.
Proof.
  intros Hmax Hbud. unfold bytes_until, read. set (b := rs_body (cr_inner r)).
  assert (Hin : ∃ n, 0 <= n <= max_size r ∧ (∀ m, budget stop = Some m → n <= m) ∧
            match budget stop with Some m => if m <=? max_size r then stop else within stop (max_size r)
                                 | None => within stop (max_size r) end
            = mk_stop (condition stop) (extra stop) (Some n)).
  { destruct stop as [c e [m|]]; unfold within; cbn [budget condition extra] in *; [|exists (max_size r); split_and!; [lia..|done|done]].
    specialize (Hbud m eq_refl). destruct (m <=? max_size r) eqn:E1; bool_prop.
    - exists m. split_and!; [lia..|by intros ? [= <-]|done].
    - exists (max_size r). split_and!; [lia..|intros ? [= <-]; lia|done]. }
  destruct Hin as (n & Hn & Hcap & ->). cbn [condition extra budget default from_option].
  destruct (read_loop_sound call (S (polls_left b)) (condition stop) (extra stop) n b [] None)
    as (answer & Hr & Ha); [lia|lia|done|].
  exists answer. split; [exact Hr|]. destruct answer as [p|error]; [|done]. destruct Ha as (Hp & Hl & Hc).
  split_and!; [done|lia| |done]. intros m Hm. specialize (Hcap m Hm). lia.
Qed.

(** [chunks_poll] is the polling every other reader of a body does. *)
Lemma chunks_poll_is fuel b : chunks_poll fuel b = poll_data fuel b.
Proof.
  revert b. induction fuel as [|fuel IH]; intros b; [done|]. cbn [chunks_poll poll_data].
  destruct (poll_frame b) as [[|[[[chunk|]|error]|]] b']; [done..| |done|done]. apply IH.
Qed.

(** The stream over a body gives its chunks in order and then its error, if any. *)
Theorem stream_is_chunks n b :
  (polls_left b < n)%nat → drained n b = (inl <$> chunks b) ++ (inr <$> option_list (body_error b)).
Proof.
  revert b. induction n as [|n IH]; intros b Hn; [lia|]. cbn [drained]. rewrite chunks_poll_is, poll_data_spec.
  pose proof (poll_frame_spec b) as Hp.
  destruct (poll_frame b) as [[|[[[chunk|]|error]|]] b']; simpl in *.
  - destruct Hp as (<- & <- & Hl). apply IH. lia.
  - destruct Hp as (-> & <- & Hl). cbn. f_equal. apply IH. lia.
  - done.
  - by destruct Hp as (-> & -> & _).
  - by destruct Hp as (-> & ->).
Qed.
End Responses.

(** Decoding a [charset] label: the first parameter so named decides, as long as every
    parameter before it has a value. *)
Lemma find_charset_first before name value rest :
  Forall (λ p, ∃ n v, split_once "="%char p = Some (n, v) ∧ eq_ignore_ascii_case (trim n) b#"charset" = false) before →
  eq_ignore_ascii_case (trim name) b#"charset" = true → Forall (λ d, is_char "="%char d = false) name →
  find_charset (before ++ (name ++ "="%char :: value) :: rest) = Some (trim_matches "034"%char (trim value)).
Proof.
  intros Hb Hn Hno. induction Hb as [|p before (n & v & Hp & Hc) _ IH].
  - cbn [app find_charset]. rewrite (split_once_app "="%char name value Hno). cbn [mbind option_bind]. by rewrite Hn.
  - cbn [app find_charset]. rewrite Hp. cbn [mbind option_bind]. by rewrite Hc.
Qed.

(** A parameter without a value hides a [charset] that comes after it, and the body is
    read as UTF-8. *)
Theorem valueless_parameter_hides_charset :
  charset_parameter b#"text/html; charset=iso-8859-9" = Some b#"iso-8859-9" ∧
  charset_parameter b#"text/html; flowed; charset=iso-8859-9" = None ∧
  charset_parameter b#"text/html;; charset=iso-8859-9" = None.
Proof. vm_compute. done. Qed.

(** ** The client (client.rs, and [EngineBuilder::build] of chromulate-http's engine.rs) *)

Definition DEFAULT_MAX_RESPONSE_SIZE : Z := 64 * 1024 * 1024.

Inductive ProxyRoutes := Direct | One | Several | Unknown.

Definition may_rotate (r : ProxyRoutes) : bool := match r with Several | Unknown => true | _ => false end.

(** A provider: one of the crate's, or the caller's own. *)
Inductive Provider (V : Type) :=
  | OneProxy (single : Proxy.Single)
  | Rotation (pool : Proxy.RoundRobin)
  | OwnProvider (provider : V).
Arguments OneProxy {V} _.
Arguments Rotation {V} _.
Arguments OwnProvider {V} _.

Section Clients.
Context `{HeaderMapApi} `{HeaderValueApi}.
(** Jars, and the types of what a caller plugs in: TLS backends, resolvers, providers,
    controllers and middleware; [Cc] is a response cache. *)
Context {J T R V C M Cc : Type}.
Context (new_jar : J) (chrome_stable : Profile) (from_profile : Profile → T + Error) (default_resolver : R).
Context (proxy_url_parse : str → option Proxy.UrlParts) (percent_decode_utf8 : str → option str).

(** [JarPerRoute::cookies]. *)
Definition jar_per_route (enabled : bool) : option J := if enabled then Some new_jar else None.

Record EngineSettings := mk_settings {
  es_profile : Profile;
  es_timeout : option Duration;
  es_head_timeout : option Duration;
  es_connect_timeout : option Duration;
  es_redirect : RedirectPolicy;
  es_pool : Pool.PoolConfig;
}.

(** [EngineConfig::new]. *)
Definition new_settings (profile : Profile) : EngineSettings :=
  mk_settings profile None (Some (from_secs 30)) (Some (from_secs 30)) default_policy Pool.default_pool_config.

Record EngineBuilder := mk_engine_builder {
  eb_config : EngineSettings;
  eb_tls : option T;
  eb_resolver : option R;
  eb_proxies : option (Provider V);
  eb_cookies : option J;
  eb_middleware : list M;
  eb_decompression : option Compression.ExpansionGuard;
  eb_retry : option RetryPolicy;
  eb_isolation : option (Z * option J);
  eb_cache : option Cc;
  eb_concurrency : option C;
}.

(** What the engine is made with; its stores of policies and connections start empty. *)
Record BuiltEngine := mk_built_engine {
  be_config : EngineSettings;
  be_tls : T;
  be_resolver : R;
  be_proxies : option (Provider V);
  be_sessions : Sessions J;
  be_decompression : Compression.ExpansionGuard;
  be_middleware : list M;
  be_retry : option RetryPolicy;
  be_cache : option Cc;
  be_concurrency : option C;
}.

(** [EngineBuilder::build]. *)
Definition build_engine (b : EngineBuilder) : BuiltEngine + Error :=
  match eb_isolation b, eb_cache b with
  | Some _, Some _ => inr Config
  | _, _ =>
      match (match eb_tls b with Some tls => inl tls | None => from_profile (es_profile (eb_config b)) end) with
      | inr error => inr error
      | inl tls =>
          let sessions :=
            match eb_isolation b with
            | Some (max_routes, factory) => per_proxy (eb_cookies b) max_routes factory
            | None => shared (eb_cookies b)
            end in
          inl (mk_built_engine (eb_config b) tls (default default_resolver (eb_resolver b)) (eb_proxies b) sessions
                 (default Compression.default_guard (eb_decompression b)) (eb_middleware b) (eb_retry b)
                 (eb_cache b) (eb_concurrency b))
      end
  end.

Record ClientBuilder := mk_client_builder {
  cb_profile : Profile;
  cb_cookie_store : bool;
  cb_timeout : option Duration;
  cb_head_timeout : option Duration;
  cb_connect_timeout : option Duration;
  cb_redirect : RedirectPolicy;
  cb_resolver : option R;
  cb_proxies : option (Provider V);
  cb_routes : ProxyRoutes;
  cb_isolation : option ProxyIsolation;
  cb_concurrency : option C;
  cb_middleware : list M;
  cb_retry : option RetryPolicy;
  cb_default_headers : HeaderMap;
  cb_max_response_size : Z;
  cb_pool : Pool.PoolConfig;
  cb_decompression : Compression.ExpansionGuard;
  cb_tls : option T;
  cb_shared_jar : option J;
}.

(** [ClientBuilder::new]. *)
Definition new_client : ClientBuilder :=
  mk_client_builder chrome_stable true None (Some (from_secs 30)) (Some (from_secs 30)) default_policy
    None None Direct None None [] None hm_empty DEFAULT_MAX_RESPONSE_SIZE Pool.default_pool_config
    Compression.default_guard None None.

(** One setter of a builder per field or more. *)
Definition set_profile (p : Profile) (b : ClientBuilder) : ClientBuilder :=
  let '(mk_client_builder _ cs ti ht ct rd rs px ro iso co mw re dh mx po de tl sj) := b in
  mk_client_builder p cs ti ht ct rd rs px ro iso co mw re dh mx po de tl sj.
Definition cookie_store (enabled : bool) (b : ClientBuilder) : ClientBuilder :=
  let '(mk_client_builder pf _ ti ht ct rd rs px ro iso co mw re dh mx po de tl sj) := b in
  mk_client_builder pf enabled ti ht ct rd rs px ro iso co mw re dh mx po de tl sj.
Definition cookie_jar (jar : J) (b : ClientBuilder) : ClientBuilder :=
  let '(mk_client_builder pf _ ti ht ct rd rs px ro iso co mw re dh mx po de tl _) := b in
  mk_client_builder pf true ti ht ct rd rs px ro iso co mw re dh mx po de tl (Some jar).
Definition set_timeout (d : Duration) (b : ClientBuilder) : ClientBuilder :=
  let '(mk_client_builder pf cs _ ht ct rd rs px ro iso co mw re dh mx po de tl sj) := b in
  mk_client_builder pf cs (Some d) ht ct rd rs px ro iso co mw re dh mx po de tl sj.
(** [head_timeout], and [no_head_timeout] with [None]. *)
Definition set_head_timeout (d : option Duration) (b : ClientBuilder) : ClientBuilder :=
  let '(mk_client_builder pf cs ti _ ct rd rs px ro iso co mw re dh mx po de tl sj) := b in
  mk_client_builder pf cs ti d ct rd rs px ro iso co mw re dh mx po de tl sj.
Definition set_connect_timeout (d : Duration) (b : ClientBuilder) : ClientBuilder :=
  let '(mk_client_builder pf cs ti ht _ rd rs px ro iso co mw re dh mx po de tl sj) := b in
  mk_client_builder pf cs ti ht (Some d) rd rs px ro iso co mw re dh mx po de tl sj.
Definition set_provider (p : Provider V) (routes : ProxyRoutes) (b : ClientBuilder) : ClientBuilder :=
  let '(mk_client_builder pf cs ti ht ct rd rs _ _ iso co mw re dh mx po de tl sj) := b in
  mk_client_builder pf cs ti ht ct rd rs (Some p) routes iso co mw re dh mx po de tl sj.
Definition proxy_isolation (i : ProxyIsolation) (b : ClientBuilder) : ClientBuilder :=
  let '(mk_client_builder pf cs ti ht ct rd rs px ro _ co mw re dh mx po de tl sj) := b in
  mk_client_builder pf cs ti ht ct rd rs px ro (Some i) co mw re dh mx po de tl sj.
Definition set_concurrency (c : C) (b : ClientBuilder) : ClientBuilder :=
  let '(mk_client_builder pf cs ti ht ct rd rs px ro iso _ mw re dh mx po de tl sj) := b in
  mk_client_builder pf cs ti ht ct rd rs px ro iso (Some c) mw re dh mx po de tl sj.
Definition set_resolver (r : R) (b : ClientBuilder) : ClientBuilder :=
  let '(mk_client_builder pf cs ti ht ct rd _ px ro iso co mw re dh mx po de tl sj) := b in
  mk_client_builder pf cs ti ht ct rd (Some r) px ro iso co mw re dh mx po de tl sj.
Definition push_middleware (m : M) (b : ClientBuilder) : ClientBuilder :=
  let '(mk_client_builder pf cs ti ht ct rd rs px ro iso co mw re dh mx po de tl sj) := b in
  mk_client_builder pf cs ti ht ct rd rs px ro iso co (mw ++ [m]) re dh mx po de tl sj.
Definition set_retry (p : RetryPolicy) (b : ClientBuilder) : ClientBuilder :=
  let '(mk_client_builder pf cs ti ht ct rd rs px ro iso co mw _ dh mx po de tl sj) := b in
  mk_client_builder pf cs ti ht ct rd rs px ro iso co mw (Some p) dh mx po de tl sj.
Definition set_redirect (p : RedirectPolicy) (b : ClientBuilder) : ClientBuilder :=
  let '(mk_client_builder pf cs ti ht ct _ rs px ro iso co mw re dh mx po de tl sj) := b in
  mk_client_builder pf cs ti ht ct p rs px ro iso co mw re dh mx po de tl sj.
Definition set_default_headers (h : HeaderMap) (b : ClientBuilder) : ClientBuilder :=
  let '(mk_client_builder pf cs ti ht ct rd rs px ro iso co mw re _ mx po de tl sj) := b in
  mk_client_builder pf cs ti ht ct rd rs px ro iso co mw re h mx po de tl sj.
Definition max_response_size (limit : Z) (b : ClientBuilder) : ClientBuilder :=
  let '(mk_client_builder pf cs ti ht ct rd rs px ro iso co mw re dh _ po de tl sj) := b in
  mk_client_builder pf cs ti ht ct rd rs px ro iso co mw re dh limit po de tl sj.
Definition set_pool (p : Pool.PoolConfig) (b : ClientBuilder) : ClientBuilder :=
  let '(mk_client_builder pf cs ti ht ct rd rs px ro iso co mw re dh mx _ de tl sj) := b in
  mk_client_builder pf cs ti ht ct rd rs px ro iso co mw re dh mx p de tl sj.
Definition set_decompression (g : Compression.ExpansionGuard) (b : ClientBuilder) : ClientBuilder :=
  let '(mk_client_builder pf cs ti ht ct rd rs px ro iso co mw re dh mx po _ tl sj) := b in
  mk_client_builder pf cs ti ht ct rd rs px ro iso co mw re dh mx po g tl sj.
Definition set_tls (t : T) (b : ClientBuilder) : ClientBuilder :=
  let '(mk_client_builder pf cs ti ht ct rd rs px ro iso co mw re dh mx po de _ sj) := b in
  mk_client_builder pf cs ti ht ct rd rs px ro iso co mw re dh mx po de (Some t) sj.

Definition proxy_provider (p : V) : ClientBuilder → ClientBuilder := set_provider (OwnProvider p) Unknown.

(** [ClientBuilder::proxy]. *)
Definition one_proxy (raw : str) (b : ClientBuilder) : ClientBuilder + Error :=
  match Proxy.parse_proxy_url proxy_url_parse percent_decode_utf8 raw with
  | inr error => inr error
  | inl url => inl (set_provider (OneProxy (Proxy.mk_single (Proxy.proxy_new url) false)) One b)
  end.

(** Collecting a list of results: the first error, or everything. *)
Fixpoint parse_proxies (raws : list str) : list Proxy.Proxy + Error :=
  match raws with
  | [] => inl []
  | raw :: raws =>
      match Proxy.parse_proxy_url proxy_url_parse percent_decode_utf8 raw with
      | inr error => inr error
      | inl url =>
          match parse_proxies raws with inr error => inr error | inl ps => inl (Proxy.proxy_new url :: ps) end
      end
  end.

Definition proxy_pool (raws : list str) (b : ClientBuilder) : ClientBuilder + Error :=
  match parse_proxies raws with
  | inr error => inr error
  | inl [] => inr Config
  | inl parsed =>
      let routes := if decide (length parsed = 1%nat) then One else Several in
      inl (set_provider (Rotation (Proxy.round_robin_new parsed)) routes b)
  end.

Definition default_header (name value : str) (b : ClientBuilder) : ClientBuilder + Error :=
  match checked_header name value with
  | inr error => inr error
  | inl (name, value) => inl (set_default_headers (hm_insert name value (cb_default_headers b)) b)
  end.

(** [ClientBuilder::user_agent]. *)
Definition set_user_agent (value : str) : ClientBuilder → ClientBuilder + Error :=
  default_header b#"user-agent" value.

(** [ClientInner]; [ci_cookies] is the base session's jar. *)
Record Client := mk_client {
  ci_engine : BuiltEngine;
  ci_profile : Profile;
  ci_default_headers : HeaderMap;
  ci_max_response_size : Z;
  ci_cookies : option J;
}.

(** The isolation a builder ends with. *)
Definition isolation_of (b : ClientBuilder) : ProxyIsolation :=
  match cb_isolation b with
  | Some isolation => isolation
  | None =>
      if bool_decide (is_Some (cb_shared_jar b)) || negb (may_rotate (cb_routes b)) then Shared
      else per_proxy_isolation
  end.

(** [ClientBuilder::build]. *)
Definition build_client (b : ClientBuilder) : Client + Error :=
  let isolation := isolation_of b in
  if is_per_proxy isolation && bool_decide (is_Some (cb_shared_jar b)) then inr Config
  else
    let config :=
      mk_settings (cb_profile b) (cb_timeout b) (cb_head_timeout b) (cb_connect_timeout b) (cb_redirect b) (cb_pool b) in
    let jar := if cb_cookie_store b then Some (default new_jar (cb_shared_jar b)) else None in
    let isolated :=
      match isolation with
      | PerProxy max_routes => Some (max_routes, jar_per_route (cb_cookie_store b))
      | Shared => None
      end in
    match build_engine
            (mk_engine_builder config (cb_tls b) (cb_resolver b) (cb_proxies b) jar (cb_middleware b)
               (Some (cb_decompression b)) (cb_retry b) isolated None (cb_concurrency b)) with
    | inr error => inr error
    | inl engine => inl (mk_client engine (cb_profile b) (cb_default_headers b) (cb_max_response_size b) jar)
    end.

(** ** Which session serves which exit *)

(** The jar the first request over a route uses. *)
Definition jar_for (b : ClientBuilder) (exit : option str) : option J :=
  if cb_cookie_store b then
    Some (if is_per_proxy (isolation_of b) && bool_decide (is_Some exit) then new_jar
          else default new_jar (cb_shared_jar b))
  else None.

Lemma per_proxy_first cookies max_routes factory exit :
  let '(sid, s) := for_route exit (@per_proxy J cookies max_routes factory) in
  (sid = BASE ↔ exit = None) ∧
  ses_cookies <$> arena s !! sid = Some (if bool_decide (is_Some exit) then factory else cookies).
Proof.
  destruct exit as [exit|]; [|done]. unfold for_route, per_proxy, session_for, lookup_route, tick, use_route.
  cbn [isolated routes arena]. rewrite lookup_empty. unfold mint_route, use_route. cbn [routes].
  rewrite lookup_empty. by cbn.
Qed.

(** What a client's engine was made with. *)
Lemma build_client_spec b :
  match build_client b with
  | inr error =>
      (error = Config ∧ is_per_proxy (isolation_of b) = true ∧ is_Some (cb_shared_jar b)) ∨
      (cb_tls b = None ∧ from_profile (cb_profile b) = inr error)
  | inl c =>
      (is_per_proxy (isolation_of b) = true → cb_shared_jar b = None) ∧
      ci_cookies c = (if cb_cookie_store b then Some (default new_jar (cb_shared_jar b)) else None) ∧
      be_sessions (ci_engine c) =
        match isolation_of b with
        | PerProxy max_routes => per_proxy (ci_cookies c) max_routes (jar_per_route (cb_cookie_store b))
        | Shared => shared (ci_cookies c)
        end
  end.
Proof.
  unfold build_client, build_engine. cbn [eb_isolation eb_cache eb_tls eb_config es_profile eb_cookies].
  destruct (is_per_proxy (isolation_of b) && bool_decide (is_Some (cb_shared_jar b))) eqn:Hboth; bool_prop.
  { left. tauto. }
  assert (Hjar : is_per_proxy (isolation_of b) = true → cb_shared_jar b = None).
  { intros Hp. destruct Hboth as [Hn|Hn]; [congruence|]. by apply eq_None_not_Some. }
  destruct (isolation_of b) as [|max_routes]; cbn -[per_proxy shared];
    (destruct (cb_tls b) as [tls|]; [done|]); (destruct (from_profile (cb_profile b)) as [tls|error] eqn:Ht; [done|by right]).
Qed.

(** C5. Whose cookies a request carries is decided where the client is built.  Building
    fails only when a jar was named and per-proxy sessions were asked for - the jar
    would then serve no exit - or when the profile gives no TLS backend.  A built
    client's engine starts with the isolation that was stated or, unstated, with a
    session per exit exactly when the exits may rotate and no jar was named; and the
    request over an exit uses the session of all requests, with the named jar if there
    is one, or under isolation a session of its own with a fresh jar - and no session
    has a jar if cookies are off. *)
Theorem client_sessions b :
  match build_client b with
  | inr error =>
      (error = Config ∧ is_Some (cb_shared_jar b) ∧ ∃ max_routes, cb_isolation b = Some (PerProxy max_routes)) ∨
      (cb_tls b = None ∧ from_profile (cb_profile b) = inr error)
  | inl c =>
      let sessions := be_sessions (ci_engine c) in
      initial sessions ∧
      isolation sessions =
        match cb_isolation b with
        | Some (PerProxy max_routes) => PerProxy (Z.max max_routes 1)
        | Some Shared => Shared
        | None =>
            match cb_shared_jar b, cb_routes b with
            | None, (Several | Unknown) => PerProxy DEFAULT_MAX_ROUTES
            | _, _ => Shared
            end
        end ∧
      ∀ exit, let '(sid, s) := for_route exit sessions in
        ses_cookies <$> arena s !! sid = Some (jar_for b exit) ∧
        (sid = BASE ↔ exit = None ∨ isolation sessions = Shared)
  end.
Proof.
  pose proof (build_client_spec b) as Hb. destruct (build_client b) as [c|error].
  2:{ destruct Hb as [(-> & Hp & Hj)|?]; [left|by right]. split_and!; [done..|]. unfold isolation_of in Hp.
      rewrite (bool_decide_eq_true_2 _ Hj) in Hp. destruct (cb_isolation b) as [[|n]|]; [done|by eexists|done]. }
  destruct Hb as (Hjar & Hc & ->). split_and!.
  - destruct (isolation_of b) as [|n]; [left; by eexists|right; by do 3 eexists].
  - unfold isolation_of. destruct (cb_isolation b) as [[|n]|]; [done..|].
    by destruct (cb_shared_jar b) as [j|], (cb_routes b).
  - intros exit. unfold jar_for. destruct (isolation_of b) as [|n]; cbn [is_per_proxy andb].
    + cbn. rewrite Hc. by destruct (cb_cookie_store b); naive_solver.
    + pose proof (per_proxy_first (ci_cookies c) n (jar_per_route (cb_cookie_store b)) exit) as Hf.
      destruct (for_route _ _) as [sid s]. destruct Hf as [Hsid ->]. split.
      * rewrite Hc. unfold jar_per_route. destruct (cb_cookie_store b), exit; reflexivity.
      * rewrite Hsid. cbn. naive_solver.
Qed.

(** A pool of one is one exit; a pool of several gives each a session unless told not to. *)
Theorem pool_isolation raws b b' :
  proxy_pool raws b = inl b' → cb_isolation b = None → cb_shared_jar b = None →
  isolation_of b' = (if decide (length raws = 1%nat) then Shared else per_proxy_isolation) ∧
  length raws ≠ 0%nat.
Proof.
  assert (Hlen : ∀ ps, parse_proxies raws = inl ps → length ps = length raws).
  { induction raws as [|raw raws IH]; intros ps; cbn [parse_proxies]; [by intros [= <-]|].
    destruct (Proxy.parse_proxy_url _ _ raw) as [url|]; [|done].
    destruct (parse_proxies raws) as [rest|]; [|done]. intros [= <-]. cbn. by rewrite (IH rest eq_refl). }
  unfold proxy_pool. destruct (parse_proxies raws) as [ps|]; [|done]. specialize (Hlen ps eq_refl).
  destruct ps as [|p ps]; [done|]. rewrite Hlen. intros [= <-] Hi Hj. destruct b. cbn in *. subst.
  unfold isolation_of. cbn. split; [|lia]. by case_decide.
Qed.
End Clients.

(** ** At a concrete request *)

Section Demo.
Import Sample.

Definition demo_defaults : HeaderMap := [(b#"user-agent", b#"Chromulate"); (b#"accept", b#"*/*")].

(** A map that holds one name twice. *)
Definition two_lines : HeaderMap := [(b#"x-forwarded", b#"a"); (b#"x-forwarded", b#"b")].

Definition demo_calls : list BuilderCall :=
  [ OnHeader b#"Accept" b#"text/html"; OnQuery [(b#"q", b#"1")]; OnBearerAuth b#"t0ken"; OnJson (Some b#"{}");
    OnHeader b#"accept" b#"application/json"; OnTimeout (from_secs 5); OnHeaders two_lines ].

Lemma request_exact_witness :
  request_error id b#"https://example.com/a" demo_calls = None ∧
  ∃ built, request_of id demo_defaults POST b#"https://example.com/a" demo_calls = inl built ∧
    rq_uri (bt_request built) = b#"https://example.com/a?q=1" ∧
    hm_get_all (rq_headers (bt_request built)) b#"accept" = [b#"application/json"] ∧
    hm_get_all (rq_headers (bt_request built)) b#"user-agent" = [b#"Chromulate"] ∧
    hm_get_all (rq_headers (bt_request built)) AUTHORIZATION = [b#"Bearer t0ken"].
Proof.
  split; [vm_compute; reflexivity|].
  pose proof (request_exact id demo_defaults POST b#"https://example.com/a" demo_calls) as Hx.
  destruct (request_of id demo_defaults POST b#"https://example.com/a" demo_calls) as [built|error].
  - destruct Hx as (_ & target & Ht & Hu & Huri & _ & _ & _ & Hh). exists built. split; [reflexivity|].
    rewrite !Hh. split_and!; [|vm_compute; reflexivity..].
    vm_compute in Ht. injection Ht as <-. rewrite Hu in Huri. vm_compute in Huri. injection Huri as Huri.
    symmetry. exact Huri.
  - exfalso. vm_compute in Hx. discriminate Hx.
Defined.

(** A query of no parameters is still a query: the URL the request goes to has an
    empty one that its caller did not write, unless it had one before. *)
Theorem empty_query_leaves_a_mark :
  match request_of id hm_empty GET b#"https://example.com/a" [OnQuery []],
        request_of id hm_empty GET b#"https://example.com/a" [] with
  | inl marked, inl plain =>
      rq_uri (bt_request marked) = b#"https://example.com/a?" ∧ rq_uri (bt_request plain) = b#"https://example.com/a"
  | _, _ => False
  end.
Proof. vm_compute. done. Qed.

(** [headers] is documented to add several headers, and keeps the last line of each name. *)
Theorem headers_keeps_one_line :
  match request_of id hm_empty GET b#"https://example.com/" [OnHeaders two_lines] with
  | inl built => hm_get_all (rq_headers (bt_request built)) b#"x-forwarded" = [b#"b"]
  | inr _ => False
  end.
Proof. vm_compute. reflexivity. Qed.

(** A fetch context replaces the timeout set before it: the request is no longer bounded
    by what its caller asked for, and the order of two calls decides whether it is. *)
Theorem fetch_context_drops_timeout :
  match request_of id hm_empty GET b#"https://example.com/" [OnTimeout (from_secs 5); OnFetchContext navigation],
        request_of id hm_empty GET b#"https://example.com/" [OnFetchContext navigation; OnTimeout (from_secs 5)] with
  | inl before, inl after => opt_timeout (bt_options before) = None ∧ opt_timeout (bt_options after) = Some (from_secs 5)
  | _, _ => False
  end.
Proof. vm_compute. done. Qed.

Definition demo_page : ClientResponse :=
  new_response (mk_response 200 HTTP_11 [] (Stream [SChunk b#"<head>ld"; SChunk b#"+json{}"; SChunk b#"<body>"] None) None)
    None (mk_url b#"https" b#"example.com" 443 b#"/") 16.

Lemma bytes_until_bounded_witness :
  0 <= max_size demo_page ∧
  ∃ p, bytes_until (λ (p : unit) _, (false, p)) (EarlyStop.plus (EarlyStop.marker b#"ld+json") 64) demo_page = Some (inl p) ∧
    zlen (pf_bytes p) <= 16 ∧ matched p = true.
Proof.
  split; [vm_compute; discriminate|].
  destruct (bytes_until_bounded (λ (p : unit) _, (false, p)) (EarlyStop.plus (EarlyStop.marker b#"ld+json") 64) demo_page)
    as (answer & Hr & Ha); [vm_compute; discriminate|intros n Hn; discriminate Hn|].
  destruct answer as [p|error]; [|exfalso; vm_compute in Ha; discriminate Ha].
  exists p. split; [exact Hr|]. destruct Ha as (_ & Hl & _). split; [exact Hl|].
  vm_compute in Hr. injection Hr as <-. reflexivity.
Defined.

(** A rotation with nothing else said: an exit's first request gets a session of its own
    with a fresh jar, apart from the one direct requests use; a named jar makes it one
    session again; and both at once is refused. *)
Example rotation_isolates (profile : Profile) :
  let build b := build_client (T := unit) (R := unit) (V := unit) (C := unit) (M := unit) (Cc := unit)
                   b#"fresh" (λ _, inl tt) tt b in
  let rotating := set_provider (OwnProvider tt) Several (new_client profile) in
  let serves b exit :=
    match build b with
    | inl c => let '(sid, s) := for_route exit (be_sessions (ci_engine c)) in Some (sid, arena s !! sid ≫= ses_cookies)
    | inr _ => None
    end in
  serves rotating (Some b#"a:1") = Some (1%nat, Some b#"fresh") ∧ serves rotating None = Some (BASE, Some b#"fresh") ∧
  serves (cookie_jar b#"named" rotating) (Some b#"a:1") = Some (BASE, Some b#"named") ∧
  serves (cookie_store false rotating) (Some b#"a:1") = Some (1%nat, None) ∧
  match build (proxy_isolation per_proxy_isolation (cookie_jar b#"named" rotating)) with
  | inr error => error = Config
  | inl _ => False
  end.
Proof. cbv zeta. split_and!; reflexivity. Qed.
End Demo.
