(* ===== verification/ChallengeSession.v ===== *)
(** [chromulate-http]: how the challenge layer reaches the session of one exit -
    [SessionAccess for Weak<Engine>] of
    src/crates/chromulate-http/src/middleware/challenge.rs, over the doors
    [Engine::with_session] and [Engine::seed_session] of [Session].  A weak handle that
    no longer upgrades is [None].

    At the end, challenged requests run through the layer with the Cloudflare detector
    over a scripted environment: what the chain answers and what solves end with, in
    order - witnesses of [ChallengeHandoff] and of this file, and what the model shows of
    the code. *)
From S2P Require Import Prelude RustStr RustTime Extern Origin ClientHints Session Engine.
Local Open Scope Z_scope.

Section Access.
Context `{UrlApi} {J : Type} `{!CookieStore J}.

(** [cookie_header]: it reads, but looking cookies up marks them used. *)
Definition cookie_header (exit : option str) (url : Url) (now : SystemTime) (engine : option (Sessions J))
    : option str * option (Sessions J) :=
  match engine with
  | None => (None, None)
  | Some s =>
      match existing_route exit s with
      | (None, s) => (None, Some s)
      | (Some sid, s) =>
          match ses ← arena s !! sid; ses_cookies ses with
          | None => (None, Some s)
          | Some cookies =>
              let '(value, cookies) := ck_cookies_for cookies url conservative_default now in
              (value, Some (edit_session sid (λ ses, mk_session (Some cookies) (ses_accept_ch ses)) s))
          end
      end
  end.

(** The edit [store_cookies] makes to a session. *)
Definition store_into (url : Url) (set_cookie : list str) (now : SystemTime) (ses : Session J) : Session J :=
  match ses_cookies ses with
  | Some cookies => mk_session (Some (ck_store cookies url set_cookie now)) (ses_accept_ch ses)
  | None => ses
  end.

Definition store_cookies (exit : option str) (url : Url) (set_cookie : list str) (now : SystemTime)
    (engine : option (Sessions J)) : option (Sessions J) :=
  seed_session exit (store_into url set_cookie now) <$> engine.
End Access.

(** ** Through the doors *)

Section Doors.
Context {J : Type}.
Implicit Types s : Sessions J.

(** Sessions in order: each exit has its own, and there are no more than configured. *)
Definition sessions_ok s : Prop := ∃ owners w h, world_ok owners (mk_world s w h).

(** Editing the session of an exit touches that exit alone. *)
Lemma view_edit s p e f :
  sessions_ok s → live s !! p = Some e →
  view (edit_session (en_session e) f s) = mk_spec (spec_base (view s)) (alter f p (spec_exits (view s))).
Proof.
  intros (owners & w & h & [Hl Hb Hr _ _]) He. simpl in *. pose proof (Hr p e He) as Ho.
  assert (en_session e ≠ BASE) by (intros Hz; rewrite (proj2 (Hb _) Hz) in Ho; congruence).
  unfold view. change (live (edit_session (en_session e) f s)) with (live s). cbn [spec_base spec_exits arena edit_session].
  rewrite list_lookup_alter_ne by done. f_equal. apply map_eq. intros q. destruct (decide (q = p)) as [->|Hne].
  - rewrite lookup_alter_eq, !lookup_omap, He. simpl. by rewrite list_lookup_alter_eq.
  - rewrite lookup_alter_ne, !lookup_omap by done. destruct (live s !! q) as [e'|] eqn:He'; [|done]. simpl.
    apply list_lookup_alter_ne. intros Heq. pose proof (Hr q e' He') as Ho'. rewrite <- Heq in Ho'. congruence.
Qed.

(** Editing the base session touches no exit. *)
Lemma view_edit_base s f :
  sessions_ok s → view (edit_session BASE f s) = mk_spec (f <$> spec_base (view s)) (spec_exits (view s)).
Proof.
  intros (owners & w & h & [Hl Hb Hr _ _]). simpl in *. unfold view.
  change (live (edit_session BASE f s)) with (live s). cbn [spec_base spec_exits arena edit_session].
  rewrite list_lookup_alter_eq. f_equal. apply map_eq. intros q. rewrite !lookup_omap.
  destruct (live s !! q) as [e|] eqn:He; [|done]. simpl. apply list_lookup_alter_ne.
  intros Hz. symmetry in Hz. apply Hb in Hz. rewrite (Hr q e He) in Hz. done.
Qed.

Lemma sessions_ok_same ar i i' :
  sessions_ok (mk_sessions ar (Some i)) → same_routes i i' → sessions_ok (mk_sessions ar (Some i')).
Proof. intros (owners & w & h & Hok) Hs. exists owners, w, h. eapply same_routes_ok; [exact Hok|exact Hs|]. auto. Qed.

(** What an exit holds, and what it would be given. *)
Definition session_of (p : str) s : option (Session J) := spec_exits (view s) !! p.

(** Recording uses keeps every session. *)
Lemma same_routes_hit (i i' : Isolated J) p :
  same_routes i i' → (∃ e, routes i !! p = Some e) → ∃ e', routes i' !! p = Some e' ∧ en_session <$> routes i !! p = Some (en_session e').
Proof.
  intros (_ & _ & _ & Hr & _) [e He]. specialize (Hr p). rewrite He in *. destruct (routes i' !! p) as [e'|]; [|done].
  exists e'. split; [done|]. by rewrite <- Hr.
Qed.

Lemma session_of_eq p s : session_of p s = (e ← live s !! p; arena s !! en_session e).
Proof. unfold session_of, view. cbn [spec_exits]. apply lookup_omap. Qed.

(** An exit in the route map has its session in the arena. *)
Lemma session_of_live p s e : sessions_ok s → live s !! p = Some e → is_Some (session_of p s) ∧ arena s !! en_session e = session_of p s.
Proof.
  intros (owners & w & h & [Hl _ Hr _ _]) He. rewrite session_of_eq, He. cbn. split; [|done].
  apply lookup_lt_is_Some. simpl in *. rewrite <- Hl. by eapply lookup_lt_Some, Hr.
Qed.

(** Minting a session for an exit that has none. *)
Lemma mint_route_new p n ar i :
  sessions_ok (mk_sessions ar (Some i)) → routes i !! p = None →
  ∃ m, mint_route p n ar i = (length ar, ar ++ [mint i], with_routes m i) ∧
    m ⊆ <[p := mk_entry (length ar) n]> (routes i) ∧
    (m !! p = None → Z.of_nat (size (routes i)) = max_routes i).
Proof.
  intros (owners & w & h & [_ _ _ _ Hbd]) Hp. simpl in Hbd. destruct (Hbd i eq_refl) as [Hmax Hsz].
  unfold mint_route, use_route. rewrite Hp. eexists. split; [reflexivity|]. unfold evict_routes.
  destruct (evict_min_spec last_use_seq (size (<[p := mk_entry (length ar) n]> (routes i))) (max_routes i)
    (<[p := mk_entry (length ar) n]> (routes i))) as (Hsub & Hsize & _); [lia|done|].
  split; [done|]. set (m := evict_min _ _ _ _) in *. clearbody m. rewrite map_size_insert_None in Hsize by done.
  intros Hnone. assert (size m ≠ S (size (routes i))); [|lia]. intros Heq.
  assert (m = <[p := mk_entry (length ar) n]> (routes i)) as ->; [|by rewrite lookup_insert_eq in Hnone].
  apply map_eq. intros q. apply option_eq. intros x. split; [by apply map_subseteq_spec|]. intros Hx.
  destruct (m !! q) as [y|] eqn:Hq.
  { rewrite map_subseteq_spec in Hsub. apply Hsub in Hq. congruence. }
  assert (m ⊂ <[p := mk_entry (length ar) n]> (routes i)) as Hlt%map_subset_size.
  { split; [done|]. intros Hrev. rewrite map_subseteq_spec in Hrev. apply Hrev in Hx. congruence. }
  rewrite map_size_insert_None in Hlt by done. lia.
Qed.

Lemma same_routes_session ar i i' p :
  same_routes i i' → session_of p (mk_sessions ar (Some i')) = session_of p (mk_sessions ar (Some i)).
Proof. intros Hs. unfold session_of. by rewrite (view_same_routes ar i i' Hs). Qed.

(** Writing through [seed_session]. *)
Lemma seed_session_spec p f ar i :
  sessions_ok (mk_sessions ar (Some i)) →
  let s := mk_sessions ar (Some i) in
  let s' := seed_session (Some p) f s in
  arena s' !! BASE = arena s !! BASE ∧
  (∀ q, q ≠ p → session_of q s' = session_of q s ∨ session_of q s' = None) ∧
  (session_of p s' = Some (f (default (mint i) (session_of p s))) ∨
   session_of p s' = None ∧ session_of p s = None ∧ Z.of_nat (size (routes i)) = max_routes i).
Proof.
  intros Hok. cbv zeta. unfold seed_session, for_route, session_for. cbn [isolated arena].
  pose proof Hok as (owners & w & h & [Hl Hb Hr _ _]). simpl in Hl, Hb, Hr.
  assert (Hpos : (BASE < length ar)%nat) by (rewrite <- Hl; by eapply lookup_lt_Some, Hb).
  destruct (lookup_route p i) as [[sid|n] i1] eqn:Hlk; apply lookup_route_spec in Hlk as [Hs Hp].
  - destruct Hp as (e & He & ->). pose proof (sessions_ok_same ar i i1 Hok Hs) as Hok1.
    destruct (same_routes_hit i i1 p Hs) as (e1 & He1 & Heq); [eauto|]. rewrite He in Heq. injection Heq as Heq.
    assert (Hne : en_session e ≠ BASE) by (intros Hz; pose proof (Hr p e He) as Ho; rewrite (proj2 (Hb _) Hz) in Ho; congruence).
    destruct (session_of_live p (mk_sessions ar (Some i)) e Hok He) as [[ses Hses] Har].
    pose proof (view_edit (mk_sessions ar (Some i1)) p e1 f Hok1 He1) as Hv. rewrite Heq.
    split; [cbn; by rewrite <- Heq, list_lookup_alter_ne|]. unfold session_of in *. rewrite Hv. cbn [spec_exits].
    rewrite (view_same_routes ar i i1 Hs). split.
    + intros q Hq. left. by rewrite lookup_alter_ne.
    + left. by rewrite lookup_alter_eq, Hses.
  - pose proof (sessions_ok_same ar i i1 Hok Hs) as Hok1.
    assert (Hp1 : routes i1 !! p = None).
    { destruct Hs as (_ & _ & _ & Hen & _). specialize (Hen p). rewrite Hp in Hen. by destruct (routes i1 !! p). }
    destruct (mint_route_new p n ar i1 Hok1 Hp1) as (m & -> & Hsub & Hfull).
    assert (Hm : mint i1 = mint i) by (unfold mint; by destruct Hs as (_ & -> & -> & _)).
    assert (Hnone : session_of p (mk_sessions ar (Some i)) = None) by (rewrite session_of_eq; cbn; by rewrite Hp).
    rewrite Hnone, Hm. cbn [default]. split; [cbn; rewrite list_lookup_alter_ne by (unfold BASE in *; lia); by rewrite lookup_app_l|].
    assert (Hrt : ∀ q e, m !! q = Some e → (q = p ∧ en_session e = length ar) ∨
      (q ≠ p ∧ (en_session e < length ar)%nat ∧ ∃ e0, routes i !! q = Some e0 ∧ en_session e0 = en_session e)).
    { intros q e Hq. rewrite map_subseteq_spec in Hsub. apply Hsub in Hq.
      apply lookup_insert_Some in Hq as [[<- <-]|[Hne Hq]]; [by left|right]. split; [done|].
      destruct Hs as (_ & _ & _ & Hen & _). specialize (Hen q). rewrite Hq in Hen.
      destruct (routes i !! q) as [e0|] eqn:H0; [|done]. injection Hen as Hen. split; [|by exists e0].
      rewrite Hen, <- Hl. by eapply lookup_lt_Some, Hr. }
    split.
    + intros q Hq. rewrite !session_of_eq. cbn. destruct (m !! q) as [e|] eqn:He; [|by right]. left. cbn.
      destruct (Hrt q e He) as [[? _]|(_ & Hlt & e0 & H0 & Heq)]; [done|]. rewrite H0. cbn.
      rewrite list_lookup_alter_ne by lia. by rewrite lookup_app_l, Heq.
    + rewrite session_of_eq. cbn. destruct (m !! p) as [e|] eqn:He; cbn.
      * left. destruct (Hrt p e He) as [[_ ->]|[? _]]; [|done]. by rewrite list_lookup_alter_eq, list_lookup_middle.
      * right. split; [done|]. split; [done|]. destruct Hs as (<- & _ & _ & _ & <-). by apply Hfull.
Qed.
End Doors.

(** What the layer does to sessions. *)
Section Layer.
Context `{UrlApi} {J : Type} `{!CookieStore J}.

(** C20. What a browser earned stays with the exit it was earned through.  Storing it
    edits that exit's session, a fresh one if it had none, and changes neither the
    base session nor any other exit's - which can only be lost whole, to make room;
    the write itself is lost only if the map was full and the exit new to it.  And
    asking what cookies an exit holds answers from that exit's session alone, mints
    none and takes none away. *)
Theorem clearance_stays_with_its_exit p url lines now ar i :
  sessions_ok (mk_sessions ar (Some i)) →
  let s := mk_sessions ar (Some i) in
  (∃ s', store_cookies (Some p) url lines now (Some s) = Some s' ∧
     arena s' !! BASE = arena s !! BASE ∧
     (∀ q, q ≠ p → session_of q s' = session_of q s ∨ session_of q s' = None) ∧
     (session_of p s' = Some (store_into url lines now (default (mint i) (session_of p s))) ∨
      session_of p s' = None ∧ session_of p s = None ∧ Z.of_nat (size (routes i)) = max_routes i)) ∧
  (∃ s', cookie_header (Some p) url now (Some s) =
           (jar ← session_of p s ≫= ses_cookies; (ck_cookies_for jar url conservative_default now).1, Some s') ∧
     arena s' !! BASE = arena s !! BASE ∧ ∀ q, (q ≠ p → session_of q s' = session_of q s) ∧
       (is_Some (session_of q s') ↔ is_Some (session_of q s))).
Proof.
  intros Hok. cbv zeta. split; [eexists; split; [reflexivity|]; by apply seed_session_spec|].
  unfold cookie_header, existing_route. cbn [isolated arena]. destruct (existing p i) as [sid i1] eqn:He.
  apply existing_spec in He as [Hs ->].
  pose proof (sessions_ok_same ar i i1 Hok Hs) as Hok1.
  assert (Hsame : ∀ q, session_of q (mk_sessions ar (Some i1)) = session_of q (mk_sessions ar (Some i))).
  { intros q. by apply same_routes_session. }
  destruct (routes i !! p) as [e|] eqn:Hp; cbn [fmap option_fmap option_map].
  2:{ exists (mk_sessions ar (Some i1)). split; [|split; [done|]; intros q; by rewrite Hsame]. rewrite session_of_eq. cbn. by rewrite Hp. }
  destruct (session_of_live p (mk_sessions ar (Some i)) e Hok Hp) as [[ses Hses] Har]. cbn [arena] in *.
  rewrite Har, Hses. cbn [mbind option_bind].
  destruct (ses_cookies ses) as [jar|]; [|eexists; split; [done|]; split; [done|]; intros q; by rewrite Hsame].
  cbn [option_bind]. destruct (ck_cookies_for jar url conservative_default now) as [value jar'] eqn:Hck.
  eexists. split; [cbn; by rewrite Hck|]. destruct (same_routes_hit i i1 p Hs) as (e1 & He1 & Heq); [eauto|]. rewrite Hp in Heq. injection Heq as Heq.
  pose proof Hok as (owners & w & h & [_ Hb Hr _ _]). simpl in Hb, Hr.
  assert (Hne : en_session e ≠ BASE) by (intros Hz; pose proof (Hr p e Hp) as Ho; rewrite (proj2 (Hb _) Hz) in Ho; congruence).
  split; [cbn; by rewrite list_lookup_alter_ne|].
  set (f := λ ses, mk_session (Some jar') (ses_accept_ch ses)).
  pose proof (view_edit (mk_sessions ar (Some i1)) p e1 f Hok1 He1) as Hv. rewrite Heq. intros q.
  unfold session_of in *. rewrite Hv. cbn [spec_exits]. destruct (decide (q = p)) as [->|Hq].
  - split; [done|]. by rewrite lookup_alter_eq, fmap_is_Some, Hsame.
  - rewrite lookup_alter_ne by done. by rewrite Hsame.
Qed.
End Layer.

(** ** Scenarios *)

From S2P Require Import CoreError Body Message Fetch Challenge ChallengeState ChallengeFlight ChallengeHandoff.

Import Extern.Sample ChallengeState.Demo.

Record Script := mk_script {
  sc_answers : list (Answer + Error);
  sc_outcomes : list (option SolveOutcome);
  sc_state : State;
}.

#[export] Instance scripted : ChallengeEnv Script := {|
  ce_now _ := 0;
  ce_run _ _ w :=
    match sc_answers w with
    | a :: rest => (a, mk_script rest (sc_outcomes w) (sc_state w))
    | [] => (inr Shutdown, w)
    end;
  ce_state := sc_state;
  ce_set_state s w := mk_script (sc_answers w) (sc_outcomes w) s;
  ce_live _ _ := true;
  ce_fresh _ := 0%nat;
  ce_start _ _ w := w;
  ce_wait _ w :=
    match sc_outcomes w with
    | o :: rest => (o, mk_script (sc_answers w) rest (sc_state w))
    | [] => (None, w)
    end;
  ce_attached w := (true, w);
  ce_cookie_header _ _ w := (None, w);
  ce_store_cookies _ _ _ w := w;
  ce_cleared _ w := w;
|}.

Definition shop_url : url := mk_url b#"https" b#"shop.example" 443 b#"/".
Definition login_url : url := mk_url b#"https" b#"login.example" 443 b#"/".

Definition get_shop : Request := mk_request GET b#"https://shop.example/" HTTP_11 ([] : fields) false.

Definition answer (status : StatusCode) (headers : fields) (body : Body) (at_ : url) : Answer :=
  mk_answer (mk_response status HTTP_11 (headers : HeaderMap) body None) (Some (mk_info at_ None None)) None None.

Definition mitigated_page : Answer := answer 403 [(CF_MITIGATED, CF_MITIGATED_CHALLENGE)] Body.Empty shop_url.
Definition page_of (u : url) : Answer := answer 200 [] (Fixed (Some b#"hello")) u.

Definition browser : Fallback := mk_fallback b#"browser" all_kinds.

Definition guarded : Layer :=
  mk_layer b#"Mozilla/5.0" cloudflare_inspect (Some browser) default_handoff_policy DEFAULT_SOLVE_BUDGET DEFAULT_SNIFF_LIMIT.

Definition clearance : Handback :=
  SessionState [b#"cf_clearance=1; Secure"] None (mk_identity b#"browser" b#"Mozilla/5.0").

(** The challenge is met, cleared, and the request answered on the second sending. *)
Definition cleared_run (second : Answer) : Script :=
  mk_script [inl mitigated_page; inl second] [Some (Done clearance)] default_state.

(** What a run tells the outside: the URLs announced as cleared. *)
Definition announced (t : list Event) : list url :=
  omap (λ e, match e with ClearedAt u => Some u | _ => None end) t.

Definition events_of (r : option ((Answer + Failure) * Traced Script)) : list Event :=
  match r with Some (_, (_, t)) => t | None => [] end.

Example cleared_and_announced :
  announced (events_of (handle guarded get_shop None Body.Empty (cleared_run (page_of shop_url), []))) = [shop_url].
Proof. reflexivity. Qed.

(** The callback is told where the request that was sent again ended, not who had
    challenged it: a retry that is redirected elsewhere announces the wrong origin,
    and the one that challenged stays unannounced. *)
Lemma cleared_names_where_the_retry_ended :
  ∃ t, events_of (handle guarded get_shop None Body.Empty (cleared_run (page_of login_url), [])) = t ∧
    Forall (λ e, match e with Stored _ u _ => u = shop_url | _ => True end) t ∧ stores t = 1 ∧
    announced t = [login_url].
Proof. eexists. split; [reflexivity|]. split; [by repeat constructor|]. split; reflexivity. Qed.

(** A page the detector only suspects, whose body breaks off early, is returned as an
    error, while one it does not suspect is returned with its status, its headers and
    the bytes that came. *)
Definition broken (headers : fields) : Answer :=
  answer 200 headers (Stream [SChunk b#"<html>"; SError (Transport b#"reset")] None) shop_url.

Lemma suspicion_costs_a_response :
  observe guarded (broken [(CF_RAY, b#"1")]) b#"https://shop.example/" = inr (Reading (Transport b#"reset")) ∧
  observe guarded (broken []) b#"https://shop.example/" = inl (broken []).
Proof. split; reflexivity. Qed.

(** A block page whose header announces a challenge is reported as one: the header
    is read first, with a body or without. *)
Lemma announced_block_is_challenged :
  let o := with_body_prefix WAF_BLOCK_TITLE
    (observation 403 (([(CF_MITIGATED, CF_MITIGATED_CHALLENGE)] : fields) : HeaderMap) (shop_url : Url) shop) in
  waf_block WAF_BLOCK_TITLE ∧
  cloudflare_inspect o = Challenged (mk_challenge Unknown shop [SIGNAL_CF_MITIGATED]).
Proof. split; [left; exists [], []; by rewrite app_nil_r|reflexivity]. Qed.

(** ** Witnesses *)

Lemma handle_exact_witness :
  ∃ rounds last result w',
    handle guarded get_shop None Body.Empty (cleared_run (page_of shop_url), []) = Some (result, (w', [] ++ mjoin rounds ++ last)) ∧
    Forall (replayed guarded browser get_shop Body.Empty) rounds ∧ zlen rounds <= DEFAULT_BUDGET ∧
    ends guarded browser get_shop Body.Empty (bool_decide (rounds ≠ [])) (DEFAULT_BUDGET <=? zlen rounds) last result.
Proof.
  apply (handle_exact guarded browser get_shop Body.Empty None (cleared_run (page_of shop_url)) []); [|reflexivity..].
  discriminate.
Defined.


(** A cookie store that keeps the lines it is given. *)
#[local] Instance line_store : CookieStore (list str) := {|
  ck_cookies_for jar _ _ _ := (head jar, jar);
  ck_store jar _ lines _ := lines ++ jar;
|}.

Definition exits : Isolated (list str) := mk_isolated ∅ 0 2 (Some []) (origins_limit new_accept_ch).
Definition exits_arena : list (Session (list str)) := [mk_session (Some []) new_accept_ch].

Lemma exits_ok : sessions_ok (mk_sessions exits_arena (Some exits)).
Proof.
  exists [None], [], []. apply (initial_ok (mk_sessions exits_arena (Some exits))). right. by exists (Some []), 2, (Some []).
Qed.

Lemma clearance_stays_with_its_exit_witness :
  ∃ s', store_cookies (Some b#"exit-a") (shop_url : @Url sample_url) [b#"cf_clearance=1"] 0 (Some (mk_sessions exits_arena (Some exits))) = Some s' ∧
    arena s' !! BASE = Some (mk_session (Some []) new_accept_ch).
Proof.
  destruct (clearance_stays_with_its_exit b#"exit-a" (shop_url : @Url sample_url) [b#"cf_clearance=1"] 0 exits_arena exits exits_ok)
    as [(s' & Hs & Hbase & _) _].
  exists s'. split; [exact Hs|exact Hbase].
Defined.
