(* ===== verification/EngineBehaviour.v ===== *)
(** [chromulate-http]: what a logical request does - it ends, it follows no more
    redirects than it may, it keeps credentials at home, and it starts over TLS
    where a policy says so. *)
From S2P Require Import Prelude RustStr RustTime Extern Body Message CoreError Pool Origin Hsts Redirect Fetch.
From S2P Require Import ClientHints HeaderOrdering HeaderEngine HeaderBehaviour Session.
From S2P Require Import CachePolicy CacheStorage HttpCache Engine.
Local Open Scope Z_scope.

Section Facts.
Context `{HeaderValueLaws} `{HeaderMapLaws} `{UrlEditApi} `{!UrlReferrer} `{!UriApi} `{Psl}.
Context {J SC W : Type} `{!CookieStore J} `{!CacheStorage SC} `{!Environment W}.
Context (preload_covers : str → bool).
Implicit Types (s : State J SC W) (config : EngineConfig).

(** ** One hop's headers *)

(** An engine prepared from its profile. *)
Definition prepared (e : HeaderEngine) : Prop := build (e_profile e) (e_high_entropy e) = Some (e_prepared e).

(** What a cookie line may be: the caller's, or the answer of a jar for this URL. *)
Definition jar_says (options : RequestOptions) (url : Url) (values : list str) : Prop :=
  ∃ (jar jar' : J) now v, ck_cookies_for jar url (cookie_context options) now = (Some v, jar') ∧ values = [v].

Lemma credential_names n : n ∈ CREDENTIAL_HEADERS → n ∉ engine_names.
Proof.
  intros Hn Hin. assert (Hall : forallb (λ n, negb (bool_decide (n ∈ engine_names))) CREDENTIAL_HEADERS = true)
    by (vm_compute; reflexivity).
  rewrite forallb_Forall, Forall_forall in Hall. specialize (Hall _ Hn).
  rewrite bool_decide_eq_true_2 in Hall by done. done.
Qed.

Lemma jar_answer_spec sid rq url options s cookie s' :
  jar_answer sid rq url options s = (cookie, s') →
  st_sent s' = st_sent s ∧ st_world s' = st_world s ∧
  ∀ v, cookie = Some v → hm_get_all (rq_headers rq) COOKIE = [] ∧ jar_says options url [v].
Proof.
  unfold jar_answer. destruct (session_at sid s ≫= ses_cookies) as [jar|]; [|by intros [= <- <-]].
  destruct (hm_contains_key _ _) eqn:Hc; [by intros [= <- <-]|].
  destruct (ck_cookies_for _ _ _ _) as [value jar'] eqn:Hjar. intros [= <- <-].
  split; [done|]. split; [done|]. intros v ->. split.
  - unfold hm_contains_key in Hc. apply bool_decide_eq_false in Hc. by apply dec_stable in Hc.
  - exists jar, jar', (clock (st_world s)), v. done.
Qed.

(** The header map and the wire after the headers of one hop, for a credential. *)
Lemma apply_headers_spec e sid rq url options s rq' s' ordered n :
  prepared e → apply_headers e sid rq url options s = (rq', s', inl ordered) → n ∈ CREDENTIAL_HEADERS →
  st_sent s' = st_sent s ∧ rq_method rq' = rq_method rq ∧
  hm_get_all (rq_headers rq') n = hm_get_all (rq_headers rq) n ∧
  (lines_of n ordered = hm_get_all (rq_headers rq) n ∨ (n = COOKIE ∧ jar_says options url (lines_of n ordered))).
Proof.
  intros He Happ Hn%credential_names. unfold apply_headers in Happ.
  destruct (jar_answer _ _ _ _ _) as [cookie s1] eqn:Hjar.
  apply jar_answer_spec in Hjar as (Hsent & _ & Hcookie).
  set (rq1 := match cookie with Some v => with_headers (hm_insert COOKIE v (rq_headers rq)) rq | None => rq end) in Happ.
  assert (∃ rq2 store store', apply e rq1 url options store = (rq2, store', inl ordered) ∧ st_sent s' = st_sent s1 ∧
    rq' = match cookie with Some _ => with_headers (hm_remove COOKIE (rq_headers rq2)) rq2 | None => rq2 end)
    as (rq2 & store & store' & Ha & Hs' & ->).
  { destruct (st_accept_ch_used s1).
    - destruct (session_at sid s1) as [ses|]; [|by injection Happ].
      destruct (apply e rq1 url options (ses_accept_ch ses)) as [[rq2 store'] r] eqn:Ha.
      injection Happ as <- <- ->. by eexists rq2, _, _.
    - destruct (apply e rq1 url options new_accept_ch) as [[rq2 store'] r] eqn:Ha.
      injection Happ as <- <- ->. by eexists rq2, _, _. }
  destruct (apply_other_names _ _ _ _ _ _ _ _ n He Ha Hn) as [Hlines Hmap].
  destruct (apply_applied e _ _ _ _ _ _ _ Ha) as (target & ctx & _ & Hap).
  pose proof (ap_head _ _ _ _ _ _ _ _ _ Hap) as Hhead.
  split; [congruence|]. destruct cookie as [v|]; cbn [with_headers rq_method rq_headers] in *.
  - destruct (Hcookie v eq_refl) as [Hnone Hsays].
    split; [by rewrite Hhead|]. rewrite get_all_remove, Hlines, Hmap. unfold rq1 in *. cbn [with_headers rq_headers].
    rewrite get_all_insert. destruct (decide (COOKIE = n)) as [<-|]; [|tauto]. rewrite Hnone. auto.
  - split; [by rewrite Hhead|]. rewrite Hlines, Hmap. auto.
Qed.

Lemma apply_headers_error e sid rq url options s rq' s' err :
  apply_headers e sid rq url options s = (rq', s', inr err) → st_sent s' = st_sent s.
Proof.
  unfold apply_headers. destruct (jar_answer _ _ _ _ _) as [cookie s1] eqn:Hjar.
  apply jar_answer_spec in Hjar as (<- & _ & _). destruct (st_accept_ch_used s1).
  - destruct (session_at sid s1) as [ses|]; [|by intros [= _ <- _]].
    destruct (apply _ _ _ _ _) as [[rq2 store'] r]. by intros [= _ <- _].
  - destruct (apply _ _ _ _ _) as [[rq2 store'] r]. by intros [= _ <- _].
Qed.

(** ** Credentials *)

(** A request still has the caller's credential, or none: the former only while it
    is where the caller sent it. *)
Definition carries (h0 : HeaderMap) (url0 : Url) (rq : Request) (url : Url) : Prop :=
  ∀ n, n ∈ CREDENTIAL_HEADERS →
    hm_get_all (rq_headers rq) n = [] ∨
    (hm_get_all (rq_headers rq) n = hm_get_all h0 n ∧ origin_of url = origin_of url0).

(** A request on the wire gives credentials away to nobody: a credential the
    caller set only to the origin it was set for, and any other cookie only on a
    jar's word for that very URL. *)
Definition sent_safely (options : RequestOptions) (h0 : HeaderMap) (url0 : Url) (x : Sent) : Prop :=
  ∀ n, n ∈ CREDENTIAL_HEADERS →
    let line := lines_of n (w_headers (sent_wire x)) in
    line = [] ∨
    (line = hm_get_all h0 n ∧ ∃ o, origin_of url0 = inl o ∧ origin_of (sent_url x) = inl o) ∨
    (n = COOKIE ∧ jar_says options (sent_url x) line).

Lemma get_all_conditional_other entry h n :
  n ∈ CREDENTIAL_HEADERS → hm_get_all (conditional entry h) n = hm_get_all h n.
Proof.
  intros Hn. assert (IF_NONE_MATCH ≠ n ∧ IF_MODIFIED_SINCE ≠ n) as [Hne1 Hne2].
  { split; intros <-; unfold CREDENTIAL_HEADERS in Hn; rewrite !elem_of_cons, elem_of_nil in Hn;
      by destruct Hn as [|[|[|]]]. }
  unfold conditional. destruct (hm_get _ ETAG), (hm_get _ LAST_MODIFIED);
    rewrite ?get_all_insert, ?decide_False by done; done.
Qed.

Lemma cache_before_spec cfg rq url s pending hit rq' s' :
  cache_before cfg rq url s = (pending, hit, rq', s') →
  st_sent s' = st_sent s ∧ rq_method rq' = rq_method rq ∧
  ∀ n, n ∈ CREDENTIAL_HEADERS → hm_get_all (rq_headers rq') n = hm_get_all (rq_headers rq) n.
Proof.
  unfold cache_before. destruct (st_cache s) as [c|]; [|by intros [= <- <- <- <-]].
  destruct (before cfg rq url (clock (st_world s)) c) as [[[p h] r] c'] eqn:Hb. intros [= <- <- <- <-].
  split; [done|]. unfold before in Hb. destruct (_ || _); [by injection Hb as <- <- <- <-|].
  destruct (select _ _ c) as [found c1]. destruct found as [entry|]; [|by injection Hb as <- <- <- <-].
  destruct (_ && _); [by injection Hb as <- <- <- <-|].
  destruct (negb _); injection Hb as <- <- <- <-; [done|]. split; [done|].
  intros n. apply get_all_conditional_other.
Qed.

Lemma record_response_sent sid url response s : st_sent (record_response sid url response s) = st_sent s.
Proof.
  unfold record_response, learn_accept_ch, learn_hsts, learn_cookies, edit_at.
  repeat match goal with |- context [match ?x with _ => _ end] => destruct x end; done.
Qed.

(** A hop that ends before anything was sent. *)
Ltac sent_nothing :=
  exists []; rewrite app_nil_r; split; [done|]; split; [simpl; lia|]; split; [by constructor|done].

(** A hop sends at most one request, to its own URL, and keeps the credentials it
    was given. *)
Lemma hop_spec e rq body url options exit s rq' exit' s' answer h0 url0 :
  prepared e → carries h0 url0 rq url → hop e rq body url options exit s = (rq', exit', s', answer) →
  ∃ sent, st_sent s' = st_sent s ++ sent ∧ (length sent ≤ 1)%nat ∧
    Forall (λ x, sent_url x = url ∧ sent_safely options h0 url0 x) sent ∧
    (∀ response, answer = inl response → rq_method rq' = rq_method rq ∧ carries h0 url0 rq' url).
Proof.
  intros He Hc Hhop. unfold hop in Hhop.
  destruct (env_check _ _) as [[err|] w1]; [injection Hhop as <- <- <- <-; sent_nothing|].
  destruct (origin_of url) as [origin|] eqn:Ho; [|injection Hhop as <- <- <- <-; sent_nothing].
  destruct (env_route _ _) as [label w2]. destruct (for_route _ _) as [sid sessions].
  destruct (env_acquire _ _ _) as [[protocol|err] w3];
    [|injection Hhop as <- <- <- <-; sent_nothing].
  set (s1 := set_world w3 _) in Hhop. set (rq1 := with_version _ rq) in Hhop.
  destruct (apply_headers e sid rq1 url options s1) as [[rq2 s2] [ordered|err]] eqn:Ha.
  2:{ injection Hhop as <- <- <- <-. apply apply_headers_error in Ha. sent_nothing. }
  pose proof (apply_headers_spec e sid rq1 url options s1 rq2 s2 ordered) as Hspec.
  assert (Hs2 : st_sent s2 = st_sent s) by (by destruct (Hspec COOKIE He Ha ltac:(unfold CREDENTIAL_HEADERS; set_solver)) as [-> _]).
  assert (Hm2 : rq_method rq2 = rq_method rq) by (by destruct (Hspec COOKIE He Ha ltac:(unfold CREDENTIAL_HEADERS; set_solver)) as (_ & -> & _)).
  assert (Hc2 : carries h0 url0 rq2 url).
  { intros n Hn. destruct (Hspec n He Ha Hn) as (_ & _ & -> & _). by apply Hc. }
  set (x := mk_sent url label (outgoing_request rq2 protocol ordered)).
  assert (Hx : sent_safely options h0 url0 x).
  { intros n Hn. cbv zeta. simpl. destruct (Hspec n He Ha Hn) as (_ & _ & _ & [->|[-> Hj]]); [|auto].
    change (rq_headers rq1) with (rq_headers rq). destruct (Hc n Hn) as [->|[-> Horigin]]; [by left|].
    right. left. split; [done|]. exists origin. split; [congruence|done]. }
  destruct (env_send _ _ _ _) as [[response|err] w4]; injection Hhop as <- <- <- <-; exists [x].
  - rewrite record_response_sent. simpl. rewrite Hs2.
    split; [done|]. split; [lia|]. split; [by apply Forall_singleton|done].
  - simpl. rewrite Hs2. split; [done|]. split; [lia|]. split; [by apply Forall_singleton|done].
Qed.

Lemma exchange_spec config rq body url options exit s rq' exit' s' answer h0 url0 :
  prepared (cfg_headers config) → carries h0 url0 rq url →
  exchange config rq body url options exit s = (rq', exit', s', answer) →
  ∃ sent, st_sent s' = st_sent s ++ sent ∧ (length sent ≤ 1)%nat ∧
    Forall (λ x, sent_url x = url ∧ sent_safely options h0 url0 x) sent ∧
    (∀ response, answer = inl response → rq_method rq' = rq_method rq ∧ carries h0 url0 rq' url).
Proof.
  intros He Hc Hex. unfold exchange in Hex.
  destruct (cache_before _ _ _ _) as [[[pending hit] rq1] s1] eqn:Hb.
  apply cache_before_spec in Hb as (Hs1 & Hm1 & Hh1).
  assert (Hc1 : carries h0 url0 rq1 url) by (intros n Hn; rewrite Hh1 by done; by apply Hc).
  rewrite <- Hs1, <- Hm1. destruct hit as [hit|]; [injection Hex as <- <- <- <-; sent_nothing|].
  destruct (hop _ rq1 _ _ _ _ s1) as [[[rq2 exit2] s2] [response|err]] eqn:Hhop;
    destruct (hop_spec _ _ _ _ _ _ _ _ _ _ _ _ _ He Hc1 Hhop) as (sent & Hs2 & Hlen & Hall & Hok).
  - unfold cache_after in Hex. destruct (st_cache s2) as [c|].
    + destruct (after _ _ _ _ _ c) as [response' c']. injection Hex as <- <- <- <-. exists sent.
      split; [done|]. split; [done|]. split; [done|]. intros ? _. by eapply Hok.
    + injection Hex as <- <- <- <-. exists sent.
      split; [done|]. split; [done|]. split; [done|]. intros ? _. by eapply Hok.
  - injection Hex as <- <- <- <-. by exists sent.
Qed.

Lemma drain_sent b s : st_sent (drain b s) = st_sent s.
Proof.
  unfold drain. destruct (env_frames _) as [n w]. destruct b; [done..|].
  by destruct (st_cache (set_world w s)).
Qed.

(** Rebuilding keeps the promise: across origins nothing is left to give away. *)
Lemma carries_rebuild h0 url0 rq url next rq' :
  carries h0 url0 rq url → cross_origin next = crosses_origin url (hop_url next) →
  rebuild_request rq next = inl rq' → carries h0 url0 rq' (hop_url next).
Proof.
  unfold rebuild_request. intros Hc Hx. destruct (uri_parse _) as [uri|]; [|done]. intros [= <-] n Hn.
  cbn [rq_headers]. rewrite get_all_rebuild. case_decide as Hd; [by left|].
  destruct (Hc n Hn) as [->|[-> Ho]]; [by left|]. right. split; [done|].
  destruct (cross_origin next) eqn:Ex; [tauto|]. symmetry in Hx.
  apply crosses_origin_false in Hx as (o & Hu & Hv). congruence.
Qed.

(** ** The loop *)

(** What a finished chain looks like, from the state it started in. *)
Record chain_ok (config : EngineConfig) (options : RequestOptions) (limit : option Z) (h0 : HeaderMap) (url0 url : Url)
    (chain : list (Url * StatusCode)) s (r : Run J SC W) (more : list (Url * StatusCode)) (sent : list Sent) (last : Url) : Prop := {
  co_chain : run_chain r = chain ++ more;
  co_limit : zlen (run_chain r) <= Z.max 0 (default 0 limit);
  co_redirects : Forall (λ x, is_redirect x.2 = true) more;
  co_first : head (more.*1 ++ [last]) = Some url;
  co_sent : st_sent (run_state r) = st_sent s ++ sent;
  co_urls : sublist (sent_url <$> sent) (more.*1 ++ [last]);
  co_safe : Forall (sent_safely options h0 url0) sent;
  co_result response u : run_result r = inl (response, u) →
    u = last ∧ (is_redirect (rs_status response) = false ∨ limit = None ∨ hm_get (rs_headers response) LOCATION = None);
}.

Lemma run_loop_spec fuel config options limit rq body url chain exit s h0 url0 :
  prepared (cfg_headers config) → carries h0 url0 rq url →
  zlen chain <= Z.max 0 (default 0 limit) < Z.of_nat fuel + zlen chain →
  ∃ r more sent last, run_loop fuel config options limit rq body url chain exit s = Some r ∧
    chain_ok config options limit h0 url0 url chain s r more sent last.
Proof.
  intros He. revert rq body url chain exit s. induction fuel as [|fuel IH]; intros rq body url chain exit s Hc Hfuel; [lia|].
  cbn [run_loop]. destruct (exchange _ _ _ _ _ _ s) as [[[rq1 exit1] s1] answer] eqn:Hex.
  destruct (exchange_spec _ _ _ _ _ _ _ _ _ _ _ _ _ He Hc Hex) as (sent & Hs1 & Hlen & Hall & Hok).
  assert (sublist (sent_url <$> sent) [url] ∧ Forall (sent_safely options h0 url0) sent) as [Hurls Hsafe].
  { split; [|eapply Forall_impl; [exact Hall|naive_solver]].
    destruct sent as [|x [|]]; [by apply sublist_nil_l| |simpl in Hlen; lia].
    apply Forall_singleton in Hall as [<- _]. done. }
  assert (Hstop : ∀ result s', st_sent s' = st_sent s1 →
    (∀ response u, result = inl (response, u) →
      u = url ∧ (is_redirect (rs_status response) = false ∨ limit = None ∨ hm_get (rs_headers response) LOCATION = None)) →
    ∃ r more sent last, Some (mk_run result chain exit1 s') = Some r ∧
      chain_ok config options limit h0 url0 url chain s r more sent last).
  { intros result s' Hs' Hres. eexists _, [], sent, url. split; [done|].
    split; simpl; rewrite ?app_nil_r; auto; [lia|congruence]. }
  destruct answer as [response|err]; [|by apply Hstop].
  destruct (Hok response eq_refl) as [Hm Hc1].
  destruct (decide_redirect _ _ url _ limit _) as [[|next]|err] eqn:Hd; [| |by apply Hstop].
  { apply Hstop; [done|]. intros ? ? [= <- <-]. split; [done|]. by eapply decide_stop. }
  destruct (decide_follow _ _ _ _ _ _ _ Hd) as (Hred & (l & -> & Hl) & Hx).
  change (default 0 (Some l)) with l in *.
  destruct (if drop_body next then _ else _) as [body'|]; [|apply Hstop; [apply drain_sent|done]].
  destruct (rebuild_request rq1 next) as [rq2|err] eqn:Hrb; [|apply Hstop; [apply drain_sent|done]].
  assert (Hc2 : carries h0 url0 rq2 (hop_url next)) by (by eapply carries_rebuild).
  destruct (IH rq2 body' (hop_url next) (chain ++ [(url, rs_status response)]) exit1 (drain (rs_body response) s1) Hc2)
    as (r & more & sent' & last & Hr & [C1 C2 C3 C4 C5 C6 C7 C8]); [rewrite zlen_app; change (zlen [(url, rs_status response)]) with 1; lia|].
  exists r, ((url, rs_status response) :: more), (sent ++ sent'), last. split; [done|]. split.
  - by rewrite C1, <- app_assoc.
  - done.
  - by constructor.
  - done.
  - by rewrite C5, drain_sent, Hs1, <- app_assoc.
  - rewrite fmap_app. by apply (sublist_app _ [url]).
  - by apply Forall_app.
  - done.
Qed.

(** ** A logical request *)

(** The URL a request starts from, before HSTS. *)
Definition target_of (parsed : option Url) (rq : Request) : Url + Error :=
  match parsed with Some url => inl url | None => url_of (rq_uri rq) end.

Lemma run_spec config options parsed rq body s url :
  prepared (cfg_headers config) → target_of parsed rq = inl url →
  let url1 := apply_hsts preload_covers url s in
  ∃ r more sent last, run preload_covers config options parsed rq body s = Some r ∧
    chain_ok config options (limit_of config options) (rq_headers rq) url1 url1 [] s r more sent last.
Proof.
  intros He Ht url1. unfold run. fold (target_of parsed rq). rewrite Ht. fold url1.
  apply run_loop_spec; [done| |unfold run_fuel; change (zlen []) with 0; lia].
  intros n _. by right.
Qed.

(** C2. A logical request always ends, whatever the network answers: it follows at
    most as many redirects as its policy allows and sends at most one request more
    than that; every response it passed over was a redirect; and the response it
    hands back is one that is not to be followed - no redirect, redirects turned
    off, or no target named - together with the URL that produced it. *)
Theorem run_ends config options parsed rq body s :
  prepared (cfg_headers config) →
  let allowed := Z.max 0 (default 0 (limit_of config options)) in
  ∃ r sent, run preload_covers config options parsed rq body s = Some r ∧
    zlen (run_chain r) <= allowed ∧ Forall (λ x, is_redirect x.2 = true) (run_chain r) ∧
    st_sent (run_state r) = st_sent s ++ sent ∧ zlen sent <= zlen (run_chain r) + 1 ∧
    match run_result r with
    | inl (response, u) =>
        is_redirect (rs_status response) = false ∨ limit_of config options = None ∨
        hm_get (rs_headers response) LOCATION = None
    | inr _ => True
    end.
Proof.
  intros He allowed. destruct (target_of parsed rq) as [url|err] eqn:Ht.
  - destruct (run_spec config options parsed rq body s url He Ht) as (r & more & sent & last & Hr & [C1 C2 C3 C4 C5 C6 C7 C8]).
    exists r, sent. rewrite C1. cbn [app]. split; [done|]. rewrite C1 in C2.
    split; [done|]. split; [done|]. split; [done|]. split.
    + apply sublist_length in C6. rewrite length_fmap, length_app, length_fmap in C6. simpl in C6. unfold zlen. lia.
    + destruct (run_result r) as [[response u]|]; [|done]. by destruct (C8 response u eq_refl).
  - exists (mk_run (inr err) [] None s), []. unfold run. fold (target_of parsed rq). rewrite Ht, app_nil_r.
    simpl. split; [done|]. split; [unfold allowed, zlen; simpl; lia|]. done.
Qed.

(** C1. Credentials stay at home: whatever chain of redirects the network leads a
    request through, an [Authorization], [Proxy-Authorization] or [Cookie] the
    caller set is only ever sent to the origin the request was made to; and any
    other cookie is one a jar released for the very URL it is sent to, in the
    request's own site context. *)
Theorem credentials_stay_home config options parsed rq body s url r :
  prepared (cfg_headers config) → target_of parsed rq = inl url →
  run preload_covers config options parsed rq body s = Some r →
  ∃ sent, st_sent (run_state r) = st_sent s ++ sent ∧
    Forall (sent_safely options (rq_headers rq) (apply_hsts preload_covers url s)) sent.
Proof.
  intros He Ht Hr. destruct (run_spec config options parsed rq body s url He Ht) as (r' & more & sent & last & Hr' & Hok).
  assert (r' = r) as -> by congruence. exists sent. split; [by apply Hok|by apply Hok].
Qed.

(** A URL the upgrade leaves on plaintext is not one a policy covers. *)
Lemma apply_hsts_plaintext `{!UrlEditLaws} url s host :
  scheme (apply_hsts preload_covers url s) = b#"http" →
  host_str (apply_hsts preload_covers url s) = Some host →
  Hsts.applies_to preload_covers (st_hsts s) host (clock (st_world s)) = false.
Proof.
  unfold apply_hsts, upgrade. destruct (bool_decide (scheme url = b#"http")) eqn:Hs; cbn [negb].
  2:{ intros Hs'. apply bool_decide_eq_false in Hs. done. }
  apply bool_decide_eq_true in Hs. destruct (host_str url) as [h|] eqn:Hh; cbn [snd]; [|congruence].
  destruct (Hsts.applies_to _ _ h _) eqn:Ha; cbn [negb snd]; [|congruence].
  destruct (set_scheme_https url h Hs Hh) as (u & -> & Hs' & _ & _ & Hport). cbn [snd].
  rewrite decide_False by (intros Hp; by apply (url_port_not_default url 80 Hp); rewrite Hs).
  rewrite Hs'. done.
Qed.

(** A request starts over TLS wherever a policy demands it: of the requests a
    chain sends, the first URL it speaks to is never plaintext to a host that the
    store or the preload list covers, and what follows are only the targets of the
    redirects it followed. *)
Theorem first_hop_upgraded `{!UrlEditLaws} config options parsed rq body s url r :
  prepared (cfg_headers config) → target_of parsed rq = inl url →
  run preload_covers config options parsed rq body s = Some r →
  let url1 := apply_hsts preload_covers url s in
  (∀ host, scheme url1 = b#"http" → host_str url1 = Some host →
    Hsts.applies_to preload_covers (st_hsts s) host (clock (st_world s)) = false) ∧
  ∃ sent targets, st_sent (run_state r) = st_sent s ++ sent ∧
    sublist (sent_url <$> sent) (url1 :: targets) ∧ zlen targets = zlen (run_chain r).
Proof.
  intros He Ht Hr. cbv zeta. split; [intros host; apply apply_hsts_plaintext|].
  destruct (run_spec config options parsed rq body s url He Ht)
    as (r' & more & sent & last & Hr' & [C1 _ _ C4 C5 C6 _ _]).
  assert (r' = r) as -> by congruence.
  destruct (more.*1 ++ [last]) as [|u targets] eqn:Hm; [done|]. injection C4 as ->.
  exists sent, targets. split; [done|]. split; [done|]. rewrite C1. cbn [app].
  apply (f_equal length) in Hm. rewrite length_app, length_fmap in Hm. simpl in Hm. unfold zlen. lia.
Qed.
End Facts.
