(* ===== verification/HttpScenario.v ===== *)
(** [chromulate-http], [chromulate-header] and [chromulate-profile] at work on
    concrete inputs: the theorems of HSTS, the preload table, retrying, client
    hints, brand lists, the header engine and the sessions. *)
From S2P Require Import Prelude RustStr RustTime Extern Body Message CoreError Origin Hsts HstsPreload.
From S2P Require Import Redirect Fetch Profile HeaderOrdering HeaderEngine HeaderBehaviour Retry ClientHints Session.
Import Sample.
Local Open Scope Z_scope.

(** [to_string] of a sample URL, which has no fragment and no user. *)
#[export] Instance sample_referrer : UrlReferrer := url_text.

Definition web : Url := mk_url b#"https" b#"www.example.com" 443 b#"/".
Definition web_origin : Origin := mk_origin b#"https" b#"www.example.com" 443.
Definition instant : SystemTime := from_secs 1700000000.

(** ** HSTS *)

Definition pin_header : str := b#"max-age=31536000; includeSubDomains".
Definition pinned : HstsStore := Hsts.record new_store b#"Example.COM." pin_header true instant.
Definition no_preload (h : str) : bool := false.

Lemma hsts_record_exact_witness : hsts_ok new_store ∧ hsts_ok pinned.
Proof.
  assert (Hn : hsts_ok new_store) by (apply with_capacity_ok).
  split; [exact Hn|].
  destruct (hsts_record_exact new_store b#"Example.COM." pin_header instant Hn) as (_ & Hok & _). exact Hok.
Defined.

Lemma hsts_pins_witness :
  Hsts.applies_to no_preload pinned b#"www.example.com" (instant + nanos) = true.
Proof.
  apply (hsts_pins no_preload new_store b#"Example.COM." b#"www.example.com" pin_header
    (mk_directive 31536000 true) b#"Example.COM" b#"www.example.com" instant (instant + nanos)).
  - apply hsts_record_exact_witness.
  - vm_compute. reflexivity.
  - vm_compute. reflexivity.
  - vm_compute. reflexivity.
  - vm_compute. reflexivity.
  - discriminate.
  - vm_compute. reflexivity.
  - vm_compute. reflexivity.
  - right. split; [reflexivity|]. exists b#"www". vm_compute. reflexivity.
  - vm_compute. reflexivity.
Defined.

Definition plain_web : Url := mk_url b#"http" b#"www.example.com" 8080 b#"/a".

Lemma upgrade_exact_witness :
  ∃ url', upgrade no_preload pinned plain_web instant = (true, url') ∧ scheme url' = b#"https" ∧
    port_or_known_default url' = Some 8080.
Proof.
  pose proof (upgrade_exact no_preload pinned plain_web instant b#"www.example.com" eq_refl eq_refl) as Hup.
  assert (Ha : Hsts.applies_to no_preload pinned b#"www.example.com" instant = true) by (vm_compute; reflexivity).
  rewrite Ha in Hup. destruct Hup as (u & Hu & Hs & _ & _ & Hp). exists u. split; [exact Hu|].
  split; [exact Hs|]. rewrite Hp. vm_compute. reflexivity.
Defined.

Definition preload_entries : list (str * bool) := [(b#"example.com", true); (b#"Bank.test", false)].

Lemma preload_roundtrip_witness :
  ∃ blob r, encode preload_entries = Some blob ∧ lookup blob b#"bank.TEST" = Some r ∧ r = Some false.
Proof.
  destruct (encode preload_entries) as [blob|] eqn:Henc; [|vm_compute in Henc; discriminate].
  destruct (preload_roundtrip preload_entries blob Henc) as [Hlookup _]; [vm_compute; reflexivity|vm_compute; discriminate|].
  destruct (Hlookup b#"bank.TEST") as (r & Hr & Hf). exists blob, r. split; [reflexivity|]. split; [exact Hr|].
  apply Hf. exists b#"Bank.test". split; [right; left|vm_compute; reflexivity].
Defined.

(** ** Retrying *)

Definition no_jitter (_ : Z) (cap : Duration) : Duration := cap.

Definition get_web : Request := mk_request GET (url_text web) HTTP_11 [] false.

Definition answered (status : StatusCode) : outcome := inl (mk_response status HTTP_11 [] empty_body None).

(** An origin that answers from a list. *)
Definition scripted (parts : Request) (body : Body) (w : list outcome) : outcome * list outcome :=
  match w with [] => (answered 500, []) | o :: w => (o, w) end.

Definition busy : list outcome := [answered 503; inr (Connect b#"www.example.com"); answered 200].

Lemma retry_exact_witness :
  ∃ os o w', retrying_exchange no_jitter scripted default_retry get_web empty_body busy =
    Some (o, w', waits no_jitter default_retry 0 os) ∧ zlen os <= 2.
Proof.
  destruct (retry_exact no_jitter scripted default_retry get_web empty_body busy)
    as (os & o & w' & Hr & _ & _ & Hle & _); [vm_compute; discriminate|].
  exists os, o, w'. split; [exact Hr|exact Hle].
Defined.

Lemma retry_recovers_witness :
  retrying_exchange no_jitter scripted default_retry get_web empty_body busy =
  Some (answered 200, [], waits no_jitter default_retry 0 [answered 503; inr (Connect b#"www.example.com")]).
Proof.
  apply (retry_recovers no_jitter scripted).
  - reflexivity.
  - simpl. repeat (eexists; split; [reflexivity|]). reflexivity.
  - repeat constructor; vm_compute; eexists; reflexivity.
  - intros [x Hx]. vm_compute in Hx. discriminate.
  - vm_compute. discriminate.
Defined.

(** ** Client hints *)

Lemma new_accept_ch_bounded limit : 1 <= limit → accept_ch_bounded (accept_ch_with_limits limit).
Proof.
  intros Hl. split; [|split; [exact Hl|simpl; rewrite map_size_empty; lia]].
  assert (Hnone : ∀ o, granted (accept_ch_with_limits limit) !! o = None) by (intros o; apply lookup_empty).
  split; intros *; rewrite ?Hnone; [|discriminate..].
  split; [|intros (g & Hg & _); pose proof (eq_trans (eq_sym (Hnone o)) Hg); discriminate].
  intros Hs. pose proof (eq_trans (eq_sym (lookup_empty (M := gmap Z) seq)) Hs). discriminate.
Qed.

Definition hinted : str := b#"Sec-CH-UA-Arch, sec-ch-ua-model".
Definition remembers : AcceptChStore := ClientHints.record web_origin hinted new_accept_ch.

Lemma accept_ch_record_lru_witness :
  accept_ch_bounded remembers ∧ hints_for remembers web_origin = parse_accept_ch hinted.
Proof.
  assert (Hb : accept_ch_bounded new_accept_ch) by (apply new_accept_ch_bounded; vm_compute; discriminate).
  destruct (accept_ch_record_lru web_origin hinted new_accept_ch Hb) as (Hok & Hh & _);
    [vm_compute; split; [discriminate|reflexivity]|].
  split; [exact Hok|exact Hh].
Defined.

(** ** Profiles *)

Definition chrome_brands : list Brand := [mk_brand b#"Not=A?Brand" b#"99"; mk_brand b#"Chromium, Inc" b#"151"].

Lemma chrome_brands_ok : Forall brand_ok chrome_brands.
Proof. repeat constructor. Qed.

Lemma brand_list_roundtrip_witness : parse_brand_list (render_brand_list chrome_brands) = inl chrome_brands.
Proof. apply brand_list_roundtrip, chrome_brands_ok. Defined.

Definition chrome : Profile :=
  mk_profile b#"chrome" b#"151.0.0.0" MacOs b#"Mozilla/5.0 Chrome/151.0.0.0" chrome_brands
    b#"text/html" b#"en-US" b#"gzip"
    (mk_header_order
       [b#"sec-ch-ua"; b#"sec-ch-ua-platform"; b#"user-agent"; b#"accept"; b#"sec-fetch-site"; b#"sec-fetch-mode";
        b#"sec-fetch-dest"; b#"accept-encoding"; b#"accept-language"] None)
    ∅.

Definition chrome_hints : HighEntropyHints := mk_hints None (Some b#"arm") (Some b#"64") None None.

Definition chrome_engine : HeaderEngine :=
  mk_engine chrome chrome_hints
    (default (mk_prepared [] [] (mk_slot [] [] Absent) (mk_slot [] [] Absent) (mk_slot [] [] Absent)
       (mk_slot [] [] Absent) [] Missing []) (build chrome chrome_hints)).

Lemma chrome_built : built chrome_engine.
Proof.
  split; [split; repeat constructor|]. unfold chrome_engine. cbn [e_profile e_high_entropy e_prepared].
  rewrite build_eq. reflexivity.
Qed.

(** ** The header engine *)

(** A page of [www.example.com] fetches from its API with a header of its own. *)
Definition fetch_options : RequestOptions :=
  mk_options None None default_policy Cors Fetch.Empty (Some web_origin) (Some web) false.

Definition fetch_request : Request :=
  mk_request POST b#"https://www.example.com/api" HTTP_11 [(b#"x-token", b#"t"); (b#"accept", b#"application/json")] false.

Definition api_url : Url := mk_url b#"https" b#"www.example.com" 443 b#"/api".

Definition fetched : Request * AcceptChStore * (list (str * str) + Error) :=
  apply chrome_engine fetch_request api_url fetch_options remembers.

Definition lines_or_none (r : list (str * str) + Error) : list (str * str) :=
  match r with inl l => l | inr _ => [] end.
Definition fetched_lines : list (str * str) := lines_or_none fetched.2.

Lemma fetched_eq : apply chrome_engine fetch_request api_url fetch_options remembers =
  (fetched.1.1, fetched.1.2, inl fetched_lines).
Proof.
  fold fetched. unfold fetched_lines.
  assert (Hok : match fetched.2 with inl _ => true | inr _ => false end = true) by (vm_compute; reflexivity).
  revert Hok. generalize fetched. intros [[rq st] [l|err]] Hok; [reflexivity|discriminate].
Qed.

Lemma apply_exact_witness : lines_of b#"accept" fetched_lines = [b#"application/json"].
Proof.
  destruct (apply_exact chrome_engine fetch_request api_url fetch_options remembers _ _ _ fetched_eq) as (_ & Hc & _).
  rewrite Hc; [reflexivity|discriminate].
Defined.

Lemma request_headers_exact_witness :
  hm_get_all (rq_headers fetched.1.1) b#"host" = [b#"www.example.com"] ∧
  hm_get_all (rq_headers fetched.1.1) b#"origin" = [b#"https://www.example.com"] ∧
  hm_get_all (rq_headers fetched.1.1) b#"referer" = [b#"https://www.example.com/"].
Proof.
  destruct (request_headers_exact chrome_engine fetch_request api_url fetch_options remembers
    _ _ _ web_origin chrome_built fetched_eq) as (Hh & Ho & Hr & _); [vm_compute; reflexivity|].
  split; [rewrite Hh; [|reflexivity]|split; [rewrite Ho; [|reflexivity]|rewrite Hr; [|reflexivity]]];
    vm_compute; reflexivity.
Defined.

(** ** Sessions *)

Definition two_exits : Sessions unit := per_proxy None 1 (Some tt).
Definition exit_a : str := b#"http://a:8080".
Definition exit_b : str := b#"http://b:8080".

Lemma two_exits_initial : initial two_exits.
Proof. right. by eexists _, _, _. Qed.

Definition after_a : nat * Sessions unit := for_route (Some exit_a) two_exits.
Definition after_b : nat * Sessions unit := for_route (Some exit_b) after_a.2.

Lemma two_exits_run :
  rtc step (mk_world two_exits [] []) (mk_world after_b.2 [] [(Some exit_b, after_b.1); (Some exit_a, after_a.1)]).
Proof.
  etrans; [apply (for_route_run (Some exit_a) two_exits after_a.1 after_a.2); reflexivity|].
  apply (for_route_run (Some exit_b) after_a.2 after_b.1 after_b.2). reflexivity.
Qed.


Definition forgets : Session unit → Session unit := λ ses, mk_session None (ses_accept_ch ses).

(** Both requests miss and mint; the second, holding its own, then edits it. *)
Definition exits_acts : list (Act unit) :=
  [Misses exit_a; Takes (Some exit_a) 1; Misses exit_b; Takes (Some exit_b) 2; Learns (Some exit_b) 2 forgets].

Lemma exits_history :
  ∃ w, history acts (mk_world two_exits [] []) exits_acts w ∧ sessions w = edit_session 2 forgets after_b.2.
Proof.
  eexists. split; [eapply History_cons; [by apply Step_miss|]; eapply History_cons; [by apply (Step_mint _ _ [] [])|];
    eapply History_cons; [by apply Step_miss|]; eapply History_cons; [by apply (Step_mint _ _ [] [])|];
    eapply History_cons; [apply Step_edit; left|apply History_nil]|vm_compute; reflexivity].
Qed.

(** The second exit's session is its own, and only it was edited: the first exit's,
    evicted by then, still holds its jar. *)
Lemma sessions_refine_witness :
  ∃ r, history (private (configured two_exits)) (start_registry (mk_session None new_accept_ch)) exits_acts r ∧
    snd <$> reg_sessions r !! 1%nat = Some (mk_session (Some tt) new_accept_ch) ∧
    snd <$> reg_sessions r !! 2%nat = Some (mk_session None new_accept_ch).
Proof.
  destruct exits_history as (w & Hw & Hs).
  destruct (sessions_refine two_exits (mk_session None new_accept_ch) w exits_acts two_exits_initial eq_refl Hw)
    as [(r & Hr & Hses & _) _].
  exists r. split; [exact Hr|]. rewrite !Hses, Hs. split; vm_compute; reflexivity.
Defined.

(** ** Corner cases *)

(** Jitter within the fifth the code allows: once the schedule has reached its
    ceiling, a later attempt can wait less than an earlier one. *)
Definition uneven_jitter (attempt : Z) (d : Duration) : Duration := if attempt =? 7 then d * 8 / 10 else d.

Lemma jitter_reorders_at_the_ceiling :
  (∀ n d, 0 <= d → d * 8 / 10 <= uneven_jitter n d <= d) ∧
  delay uneven_jitter default_retry 7 None < delay uneven_jitter default_retry 6 None.
Proof.
  split; [|vm_compute; reflexivity]. intros n d Hd. unfold uneven_jitter.
  assert (d * 8 / 10 <= d) by (apply Z.div_le_upper_bound; lia). destruct (n =? 7); lia.
Qed.
