(* ===== verification/EngineScenario.v ===== *)
(** [chromulate-http]: the engine at work on a scripted network - its theorems
    applied to chains of redirects, and the corner cases where what goes out is
    not what the code's comments promise. *)
From S2P Require Import Prelude RustStr RustTime Extern Body Message CoreError Pool Origin Cookie Jar Hsts Redirect Fetch.
From S2P Require Import Profile HeaderOrdering HeaderEngine HeaderBehaviour ClientHints Session.
From S2P Require Import CacheEntry CachePolicy CacheStorage HttpCache Engine EngineBehaviour HttpScenario.
Import Sample.
Local Open Scope Z_scope.

#[local] Instance scenario_layout : Layout := {| size_of_CacheKey := 40; size_of_CacheEntry := 232 |}.
#[local] Instance scenario_hasher : KeyHasher := λ k, zlen (target k).

(** [impl CookieStore for Jar] (src/crates/chromulate-cookie/src/jar.rs); a store
    that respects its invariant never panics. *)
#[export] Instance jar_cookie_store : CookieStore Jar := {|
  ck_cookies_for := cookies_for;
  ck_store j url set_cookie now := default j (Jar.store j url set_cookie now);
|}.

(** A network that speaks one protocol, goes direct and answers from a list. *)
Record Net := mk_net { answers : list (Response Body + Error); speaks : Protocol }.

#[local] Instance scripted_net : Environment Net := {|
  clock _ := instant;
  env_check _ w := (None, w);
  env_route _ w := (None, w);
  env_acquire _ _ w := (inl (speaks w), w);
  env_send _ _ _ w :=
    match answers w with
    | [] => (inr CoreError.Protocol, w)
    | a :: rest => (a, mk_net rest (speaks w))
    end;
  env_frames w := (8%nat, w);
|}.

Definition reply (status : StatusCode) (lines : list (str * str)) : Response Body + Error :=
  inl (mk_response status HTTP_11 lines empty_body None).

Definition config : EngineConfig := mk_engine_config default_policy chrome_engine default_config.

Definition start (hsts : HstsStore) (jar : option Jar) (cache : option MemoryStore) (net : Net) : State Jar MemoryStore Net :=
  mk_state hsts false (shared jar) cache net [].

Definition get_with (uri : str) (lines : list (str * str)) : Request := mk_request GET uri HTTP_11 lines false.

(** The requests a run sent: their URLs, request targets and one field of each. *)
Definition went_out (r : option (Run Jar MemoryStore Net)) : list Sent :=
  match r with Some r => st_sent (run_state r) | None => [] end.
Definition urls (r : option (Run Jar MemoryStore Net)) : list str := (λ x, url_text (sent_url x)) <$> went_out r.
Definition field (n : str) (r : option (Run Jar MemoryStore Net)) : list (list str) :=
  (λ x, lines_of n (w_headers (sent_wire x))) <$> went_out r.
Definition targets (r : option (Run Jar MemoryStore Net)) : list str := (λ x, w_uri (sent_wire x)) <$> went_out r.

Lemma config_prepared : prepared (cfg_headers config).
Proof. apply (proj2 chrome_built). Qed.

(** ** The theorems at work *)

(** A login: the first page sets a cookie and redirects, first within its origin,
    then away. *)
Definition login_net : Net := mk_net
  [ reply 302 [(b#"location", b#"/home"); (b#"set-cookie", b#"sid=1")];
    reply 302 [(b#"location", b#"https://other.com/")];
    reply 200 [] ] Http11.

Definition login_request : Request :=
  get_with b#"https://www.example.com/login" [(b#"authorization", b#"Basic abc")].

Definition login_state : State Jar MemoryStore Net := start Hsts.new_store (Some (new_jar JarStore.default_limits)) None login_net.

Definition login_run : option (Run Jar MemoryStore Net) :=
  run no_preload config default_options None login_request empty_body login_state.

Example login_visits :
  urls login_run = [b#"https://www.example.com/login"; b#"https://www.example.com/home"; b#"https://other.com/"].
Proof. vm_compute. reflexivity. Qed.

(** The cookie the redirect set is sent to its own origin only, and so is the
    caller's authorization. *)
Example login_credentials :
  field b#"cookie" login_run = [[]; [b#"sid=1"]; []] ∧
  field b#"authorization" login_run = [[b#"Basic abc"]; [b#"Basic abc"]; []].
Proof. vm_compute. split; reflexivity. Qed.

Lemma run_ends_witness :
  ∃ r, login_run = Some r ∧ zlen (run_chain r) <= 20.
Proof.
  destruct (run_ends no_preload config default_options None login_request empty_body login_state config_prepared)
    as (r & sent & Hr & Hlen & _).
  exists r. split; [exact Hr|exact Hlen].
Defined.

Definition login_url : Url := mk_url b#"https" b#"www.example.com" 443 b#"/login".

Lemma credentials_stay_home_witness :
  match login_run with
  | Some r => Forall (sent_safely (J := Jar) default_options (rq_headers login_request) login_url) (st_sent (run_state r))
  | None => True
  end.
Proof.
  destruct login_run as [r|] eqn:Hr; [|exact I].
  destruct (credentials_stay_home no_preload config default_options None login_request empty_body login_state
    login_url r config_prepared) as (sent & Hs & Hall); [vm_compute; reflexivity|exact Hr|].
  rewrite Hs. exact Hall.
Defined.

(** A plaintext address of a pinned host. *)
Definition pinned_state (net : Net) : State Jar MemoryStore Net := start pinned None None net.
Definition plain_request : Request := get_with b#"http://www.example.com/a" [].
Definition plain_url : Url := mk_url b#"http" b#"www.example.com" 80 b#"/a".
Definition ok_net (p : Protocol) : Net := mk_net [reply 200 []] p.

Definition upgraded_run (p : Protocol) : option (Run Jar MemoryStore Net) :=
  run no_preload config default_options None plain_request empty_body (pinned_state (ok_net p)).

Example upgraded_visits : urls (upgraded_run Http11) = [b#"https://www.example.com/a"].
Proof. vm_compute. reflexivity. Qed.

Lemma first_hop_upgraded_witness :
  match upgraded_run Http11 with
  | Some r => ∃ sent targets, st_sent (run_state r) = sent ∧
      sublist (sent_url <$> sent) (apply_hsts no_preload plain_url (pinned_state (ok_net Http11)) :: targets)
  | None => True
  end.
Proof.
  destruct (upgraded_run Http11) as [r|] eqn:Hr; [|exact I].
  destruct (first_hop_upgraded no_preload config default_options None plain_request empty_body
    (pinned_state (ok_net Http11)) plain_url r config_prepared) as (_ & sent & ts & Hs & Hsub & _);
    [vm_compute; reflexivity|exact Hr|].
  exists sent, ts. split; [exact Hs|exact Hsub].
Defined.

(** ** Corner cases *)

(** HSTS is consulted for the first URL only: a redirect to a plaintext address of
    a pinned host is followed in plaintext. *)
Definition downgrade_run : option (Run Jar MemoryStore Net) :=
  run no_preload config default_options None (get_with b#"https://other.com/" []) empty_body
    (pinned_state (mk_net [reply 302 [(b#"location", b#"http://www.example.com/a")]; reply 200 []] Http11)).

Lemma redirect_ignores_hsts :
  urls downgrade_run = [b#"https://other.com/"; b#"http://www.example.com/a"] ∧
  Hsts.applies_to no_preload pinned b#"www.example.com" instant = true.
Proof. vm_compute. split; reflexivity. Qed.

(** The upgrade rewrites the URL but not the request's own [Uri], which is what an
    HTTP/2 request line is carved from: its [:scheme] still says [http]. *)
Lemma upgrade_keeps_http_scheme :
  urls (upgraded_run Http2) = [b#"https://www.example.com/a"] ∧ targets (upgraded_run Http2) = [b#"http://www.example.com/a"].
Proof. vm_compute. split; reflexivity. Qed.

(** A stale entry's validators are put on the request and stay there: after a
    redirect to another origin they are sent to it. *)
Definition stale_entry : CacheEntry :=
  mk_cache_entry 200 HTTP_11 [(b#"etag", b#"v1"); (b#"cache-control", b#"max-age=0")] b#"body" [] instant instant.
Definition cached_page : MemoryStore :=
  (memory_put (new_key GET login_url) stale_entry (with_limits default_memory_limits)).2.

Definition revalidating_run : option (Run Jar MemoryStore Net) :=
  run no_preload config default_options None (get_with b#"https://www.example.com/login" []) empty_body
    (start Hsts.new_store None (Some cached_page)
       (mk_net [reply 302 [(b#"location", b#"https://other.com/")]; reply 200 []] Http11)).

Lemma validators_cross_origins :
  urls revalidating_run = [b#"https://www.example.com/login"; b#"https://other.com/"] ∧
  field IF_NONE_MATCH revalidating_run = [[b#"v1"]; [b#"v1"]].
Proof. vm_compute. split; reflexivity. Qed.

(** What the header engine wrote for the first hop counts as the caller's on the
    next: a same-origin fetch redirected to another site still says
    [same-origin] there. *)
Definition fetch_site_run : option (Run Jar MemoryStore Net) :=
  run no_preload config fetch_options None (get_with b#"https://www.example.com/api" []) empty_body
    (start Hsts.new_store None None
       (mk_net [reply 302 [(b#"location", b#"https://other.com/")]; reply 200 []] Http11)).

Lemma sec_fetch_site_goes_stale :
  field b#"sec-fetch-site" fetch_site_run = [[b#"same-origin"]; [b#"same-origin"]] ∧
  site_as_str (fetch_site (Some web_origin) (mk_origin b#"https" b#"other.com" 443)) = b#"cross-site".
Proof. vm_compute. split; reflexivity. Qed.
